(* ===== verification/_CoqProject ===== *)
-Q . S2P
Prelude.v
Protocol.v
Codec.v
Cipher.v
Snowflake.v
Buffer.v
WireDemo.v
Support.v
Config.v
Component.v
Node.v
Errors.v
Requests.v
Mailbox.v
Proto.v
Actor.v
System.v
Process.v
ActorRegistry.v
ActorDemo.v
Conn.v
Tcp.v
ConnDemo.v
TcpDemo.v
WebSocket.v
WebSocketDemo.v
Placement.v
Effects.v
Threads.v
ConnThreads.v
ConnSafety.v
ConnAlone.v
ConnRaces.v
Directory.v
Router.v
Activation.v
RouterDemo.v
ActivationDemo.v
Transport.v
TransportSafety.v
Delivery.v
TransportDemo.v
DeliveryDemo.v
Cluster.v
Agent.v
Forwarding.v
Session.v
AgentDemo.v
SessionDemo.v
Bridge.v
BridgeSafety.v
BridgeDemo.v
Udp.v
UdpSafety.v
UdpDemo.v
Consul.v
Bootstrap.v
ConsulFacts.v
ConsulDemo.v
Sharing.v
Netutil.v
Logging.v
Waiting.v
Registry.v
ConnUser.v
Discovery.v
DiscoveryDemo.v
Ownership.v
OwnershipSafety.v
OwnershipDemo.v
Wiretypes.v
UdpServer.v
DirectoryClose.v
