(* ===== verification/Prelude.v ===== *)
(** * A verification library for the actormesh runtime

    actormesh is a runtime of actors spread over nodes. An actor handles one
    message at a time; a node keeps its actors in a registry and sends messages
    for other nodes through a transport; the nodes find each other in Consul;
    logical actors are named, owned by one node at a time in a directory on
    Redis, and reached through routers; a gateway stands for every client
    connection with an agent actor. This library models these parts as Rocq
    definitions that follow the Go code and proves what they promise.

    ** The parts and their files

    From the wire upwards (a file [XDemo] or [XRaces] has the witnesses of [X] at
    concrete inputs, and runs that show what an order the code does not exclude
    leads to; paths are under src/):

    - Prelude.v: results, bytes, wrap-around of machine integers, list lemmas.
    - Protocol.v (network/protocol): frames, their checksum and the UDP header,
      byte for byte. Codec.v (network/codec): the transform pipeline and gzip.
      Cipher.v (network/encrypt): the cipher and the key agreement.
    - Buffer.v (pkg/buffer) and Snowflake.v (pkg/snowflake). Demo: WireDemo.v.
    - Conn.v (network/base_connection.go, tcp_connection.go, config.go): [Conn]
      is baseConn's fields; each method a function on it. ConnThreads.v has the
      same methods as the programs of the goroutines of a connection, split at
      every access to what they share; ConnSafety.v is the proof over all
      interleavings; ConnAlone.v shows that a program that runs undisturbed is
      the function of Conn.v; ConnRaces.v has runs. Tcp.v is Conn.v's write loop
      over a socket that takes data in pieces and may fail. ConnUser.v has what a
      connection offers to those who hold it: ids, user data, addresses, options.
    - WebSocket.v (network/websocket_connection.go, and what tcp_server.go,
      websocket_server.go and server_engine.go do with accepts).
    - Udp.v, UdpSafety.v (network/udp_server.go, udp_connection.go): connections
      and sessions; UdpServer.v: the server's own loops, as a refinement of Udp.v.
    - Support.v (pkg/glog, pkg/grs, pkg/stopper), Logging.v (levels and derived
      loggers of pkg/glog), Waiting.v (Group.Wait of pkg/grs and what waits with
      it), Netutil.v (pkg/netutil) and Config.v (pkg/fileutil). Component.v
      (pkg/component), Node.v (Start and Shutdown of node/node.go and runtime.go
      over any components) and Bootstrap.v (node.New, bootstrapNode,
      cluster/bootstrap, the constructors they call, and actormesh.go).
    - Errors.v (actor/errors.go), Requests.v (actor/request_manager.go),
      Mailbox.v (pkg/mpsc, actor/mailbox.go, dispatch.go), Proto.v
      (pkg/serialize/protocodec), Actor.v (actor/types.go, manager.go), System.v
      (actor/system.go, sender.go, remote.go and the mailbox side of process.go),
      Process.v (actor/process.go, context.go: callbacks, panics, replies),
      ActorRegistry.v (its runs as histories of actor/manager.go), Wiretypes.v (the conversions to the generated messages).
    - Transport.v, TransportSafety.v (cluster/transport/nettransport and
      network/tcp_client.go); Cluster.v (cluster/cluster.go, node/adapter.go);
      Consul.v, ConsulFacts.v (cluster/member/consul), Registry.v (its registry's
      client, queries and subscriptions), Sharing.v (the maps that queries share
      with its caches).
    - Placement.v (logicalactor/types.go, placement), Directory.v
      (logicalactor/directory), DirectoryClose.v (its events and Close, access by
      access), Router.v (logicalactor/router.go, router_actor.go). Activation.v
      puts the router actors of all nodes over their directories and one Redis.
      Ownership.v, OwnershipSafety.v add the activated actors with their renewal
      timers, crashes and reboots of nodes, and time. Discovery.v composes
      Cluster.v, Consul.v and Router.v: owners that the registry no longer knows.
    - Agent.v (gateway/agent.go, route), Forwarding.v (an agent over the node's
      table of Requests.v), Bridge.v, BridgeSafety.v (gateway/bridge.go,
      gateway.go).
    - Delivery.v composes System.v, Transport.v and Conn.v, from the sender's
      system to the receiver's; Session.v composes Conn.v and Agent.v, from a
      client's socket to its agent and back.
    - Effects.v: a component that calls others is a tree of calls ([prog]) with
      their continuations. Threads.v: a pool of such programs over a shared
      state, one operation of one goroutine at a time, with the rely-guarantee
      rule [pool_step].

    ** How state and operations correspond to the code

    A struct is a Record with the source's field names, an enum an Inductive
    type, a Go function a Definition of the same name (a method [T.M] is [M] or
    [T_M]). A fallible function returns [res] or an optional error. Integers are
    Z, with their wrap-around written where the code can reach it; bytes are Z
    from 0 to 255. Maps are stdpp's gmap, and where the code ranges over a map
    the order is a parameter or the statement does not depend on it. A mutex is
    modelled as the critical section it makes: one operation of the program.
    An atomic access, a channel operation and a call of another component are
    one operation each.

    ** What the theorems show

    - Wire: decoding inverts encoding and refuses what was not encoded so; the
      buffer is a bounded queue; ids increase.
    - Connections: messages arrive in order whatever the reads, and those sent
      before Close are still written; both ends agree on a key; over all
      interleavings the handler is called in turn, no business frame leaves an
      encrypted connection in the clear and the queue is written in order (a user
      may send a frame of the reserved command, which is not enciphered); a WebSocket
      connection is a TCP connection over the payloads of its messages; UDP
      sessions keep their order and their table.
    - Actors: one worker per mailbox, FIFO, no lost wake-up; the first message
      is init and nothing follows stop; panics stay inside; one reply per
      message; the registry holds who was spawned and not removed, and an actor is
      removed when it stops; requests complete once; what a system sends to another node, over
      connection and transport, is handled there like a local send, and its reply
      completes the asker's request.
    - Cluster: one connection per pair of nodes, data in order, the watcher's
      caches and workers follow Consul, its subscriptions are told from each other,
      a registered node is seen.
    - Logical actors: one owner per epoch, leases exclude other nodes and last
      when renewed, routing is justified call by call, bounded, and heals owners
      that the cluster has lost. Over time, with crashes, reboots, latency and lost
      commands, one node at most serves an actor and Redis names it, as long as the
      lease is long enough; Close of a directory returns and ends what it started.
    - Gateway: each frame a client reads answers one of its requests or is a push,
      a forwarded request's ask answers it once, agents are counted and released.
    - Components and node: legal lifecycles, a new node's parts are wired to each
      other, shutdown stops everything. Loggers refuse levels only; recovered
      panics are handed over; included files load unless they lead in a circle.

    Some theorems assume an order the code does not guarantee: [orderly] of
    Bridge.v (OnClose waits for the callback that runs),
    one id per connection in TransportSafety.v, a worker that starts after the
    former one has ended in ConsulFacts.v, an ownership that lasts in Activation.v,
    and [disciplined] in OwnershipSafety.v: time passes no faster than latency and
    lost renewals allow, a node boots with an id that was not in use, and nobody
    deletes or replaces the ownership of a node that is up. The Demo files then
    show the runs that break the conclusion when the order is not kept.

    ** Bounds and fuel

    Loops whose recursion is not structural take fuel: the read-buffer loop as
    many rounds as there are bytes and one more, since each round consumes a
    byte; the trimming of a close reason the length of the reason; the buffer's
    growth enough doublings for any int; GenId's wait as many readings of the
    clock as it is given; included configuration files the depth of the includes,
    and a circle needs more than any depth. None of the others runs out: the
    theorems about them state the result and not only what holds of one. A socket
    answers finitely many writes with less than all of the data. Interleavings are arbitrary
    finite lists of steps. In Ownership.v [sigma] bounds the latency of a command and
    of a timer, [m] the renewals lost in a row, and the theorem asks for a lease
    longer than m + 1 renewal intervals and four latencies: the default lease of 30 s
    bears one lost renewal with latencies of 2 s.

    ** What is not modelled, and why

    - Environment, given as parameters, classes with their documented laws, or
      arbitrary answers: X25519 and HKDF, compress/gzip, the protobuf runtime,
      encoding/json, Redis (only its commands that the scripts use, with
      expiry), Consul, net, net/http and gorilla/websocket.
    - Generated protobuf code beyond the structs and getters of Wiretypes.v:
      descriptors, and methods that call the protobuf runtime.
    - What is only a call of a library, or of the kernel: the cores, encoders and
      files that zap and lumberjack write, viper's readers, the timing wheel of
      pkg/timer (a timer is an action), the effects of socket options, encoding/json
      behind pkg/serialize/jsoncodec.
    - Interface declarations, which are the operations of the client's programs;
      getters that return a field of a modelled record; the synchronous dispatcher
      of actor/dispatch.go, which nothing uses.
    - In the interleavings of Process.v a call of an actor's Context is one step, also
      where it takes several locks one after the other (an ask: the table of
      requests, the registry, the mailbox); those from outside may be taken apart.
      Mailboxes are queues there, as Mailbox.v shows, but for a push that Mailbox.v's
      counter refuses while another push is about to be taken back.
    - The signals actormesh.go waits for, and goroutines of parts the caller
      injects.
    - The real-time length of heartbeats and of the timers outside Ownership.v: a
      timer is an action that may happen at any later time. In Ownership.v Destroy of
      an actor runs once. *)

From Stdlib Require Export ZArith Lia.
From stdpp Require Export sorting numbers strings fin_maps gmap list prelude.

Declare Scope go_scope.
Delimit Scope go_scope with go.
#[global] Open Scope go_scope.
#[global] Open Scope Z_scope.

(** ** Results of fallible Go functions *)

(** A Go function returning [(A, error)]: [Ok a] is [(a, nil)], [Err e] is [(_, e)]. *)
Inductive res (E A : Type) : Type :=
| Ok (a : A)
| Err (e : E).
Arguments Ok {E A} a.
Arguments Err {E A} e.

#[export] Instance res_ret {E} : MRet (res E) := fun A a => Ok a.
#[export] Instance res_bind {E} : MBind (res E) :=
  fun A B k m => match m with Ok a => k a | Err e => Err e end.
#[export] Instance res_fmap {E} : FMap (res E) :=
  fun A B f m => match m with Ok a => Ok (f a) | Err e => Err e end.

Definition is_ok {E A} (r : res E A) : bool :=
  match r with Ok _ => true | Err _ => false end.

#[export] Instance res_eq_dec {E A} `{EqDecision E, EqDecision A} : EqDecision (res E A).
Proof. solve_decision. Defined.

(** [if err := m; err != nil { return err }; k] for a function returning only [error]. *)
Notation "'check' m ';;' k" :=
  (match m with Some err => Some err | None => k end)
  (at level 100, m at level 99, k at level 200, right associativity) : go_scope.

(** ** Machine integers *)

(** Unsigned and two's complement wrap-around of Go's fixed-width integers. *)
Definition u8 (z : Z) : Z := z mod 2 ^ 8.
Definition u16 (z : Z) : Z := z mod 2 ^ 16.
Definition u32 (z : Z) : Z := z mod 2 ^ 32.
Definition u64 (z : Z) : Z := z mod 2 ^ 64.
Definition s32 (z : Z) : Z := (z + 2 ^ 31) mod 2 ^ 32 - 2 ^ 31.
Definition s64 (z : Z) : Z := (z + 2 ^ 63) mod 2 ^ 64 - 2 ^ 63.

Definition is_u (w z : Z) : Prop := 0 <= z < 2 ^ w.
#[export] Instance is_u_dec w z : Decision (is_u w z).
Proof. unfold is_u. apply _. Defined.

Lemma u8_range z : is_u 8 (u8 z).
Proof. apply Z.mod_pos_bound. lia. Qed.
Lemma u32_range z : is_u 32 (u32 z).
Proof. apply Z.mod_pos_bound. lia. Qed.
Lemma u64_range z : is_u 64 (u64 z).
Proof. apply Z.mod_pos_bound. lia. Qed.
Lemma u8_small z : is_u 8 z -> u8 z = z.
Proof. apply Z.mod_small. Qed.
Lemma u16_small z : is_u 16 z -> u16 z = z.
Proof. apply Z.mod_small. Qed.
Lemma u32_small z : is_u 32 z -> u32 z = z.
Proof. apply Z.mod_small. Qed.
Lemma u64_small z : is_u 64 z -> u64 z = z.
Proof. apply Z.mod_small. Qed.
Lemma s32_small z : -2 ^ 31 <= z < 2 ^ 31 -> s32 z = z.
Proof. intros H. unfold s32. rewrite Z.mod_small; lia. Qed.
Lemma s64_small z : -2 ^ 63 <= z < 2 ^ 63 -> s64 z = z.
Proof. intros H. unfold s64. rewrite Z.mod_small; lia. Qed.

Create HintDb machine.
Create Rewrite HintDb machine.
Create Rewrite HintDb zlen.
#[export] Hint Resolve u8_range u32_range u64_range : machine.
#[export] Hint Rewrite u8_small u16_small u32_small u64_small s32_small s64_small
  using (solve [unfold is_u in *; lia]) : machine.

(** ** Bytes and big-endian integers (encoding/binary.BigEndian) *)

Definition bytes_ok (bs : list Z) : Prop := Forall (is_u 8) bs.
#[export] Instance bytes_ok_dec bs : Decision (bytes_ok bs).
Proof. unfold bytes_ok. apply _. Defined.

(** Go's conversions between [string] and [[]byte]. *)
Definition bytes_of_string (s : string) : list Z :=
  (fun a => Z.of_N (Ascii.N_of_ascii a)) <$> String.list_ascii_of_string s.
Definition string_of_bytes (bs : list Z) : string :=
  String.string_of_list_ascii ((fun b => Ascii.ascii_of_N (Z.to_N b)) <$> bs).

Lemma string_of_bytes_of_string s : string_of_bytes (bytes_of_string s) = s.
Proof.
  unfold string_of_bytes, bytes_of_string. rewrite <- list_fmap_compose.
  induction s as [|a s IH]; [done|]. cbn. f_equal; [|apply IH].
  by rewrite N2Z.id, Ascii.ascii_N_embedding.
Qed.

(** [len(x)] of a Go slice, as a Go [int]. *)
Definition zlen {A} (l : list A) : Z := Z.of_nat (length l).

(** [binary.BigEndian.PutUint(8n)]: the [n] bytes of [v], most significant first. *)
Fixpoint be_put (n : nat) (v : Z) : list Z :=
  match n with
  | O => []
  | S n' => u8 (Z.shiftr v (8 * Z.of_nat n')) :: be_put n' v
  end.

(** [binary.BigEndian.Uint(8n)] of a slice of [n] bytes. *)
Definition be_get (bs : list Z) : Z :=
  fold_left (fun acc b => Z.lor (Z.shiftl acc 8) b) bs 0.

Lemma length_be_put n v : length (be_put n v) = n.
Proof. induction n; simpl; congruence. Qed.

Lemma be_put_bytes n v : bytes_ok (be_put n v).
Proof. induction n; simpl; constructor; auto with machine. Qed.

Lemma testbit_above b n i : 0 <= b < 2 ^ n -> 0 <= n <= i -> Z.testbit b i = false.
Proof.
  intros Hb Hi. destruct (decide (b = 0)) as [->|]; [apply Z.bits_0|].
  apply Z.bits_above_log2; [lia|]. apply Z.log2_lt_pow2; [lia|].
  apply Z.lt_le_trans with (2 ^ n); [lia|]. apply Z.pow_le_mono_r; lia.
Qed.

(** Filling the [n] low bits of a shifted value is an addition. *)
Lemma lor_shift a b n : 0 <= n -> 0 <= b < 2 ^ n -> Z.lor (Z.shiftl a n) b = a * 2 ^ n + b.
Proof.
  intros Hn Hb. rewrite Z.shiftl_mul_pow2 by lia.
  assert (Hland : Z.land (a * 2 ^ n) b = 0).
  { apply Z.bits_inj'. intros i Hi. rewrite Z.land_spec, Z.bits_0.
    destruct (decide (i < n)).
    - by rewrite Z.mul_pow2_bits_low by lia.
    - by rewrite (testbit_above b n), andb_false_r by lia. }
  by rewrite <- Z.lxor_lor, <- Z.add_nocarry_lxor by done.
Qed.

Lemma lor_shift_byte a b : is_u 8 b -> Z.lor (Z.shiftl a 8) b = a * 2 ^ 8 + b.
Proof. intros Hb. apply lor_shift; [lia|done]. Qed.

Lemma be_get_cons_acc bs acc :
  bytes_ok bs ->
  fold_left (fun acc b => Z.lor (Z.shiftl acc 8) b) bs acc
  = acc * 2 ^ (8 * zlen bs) + be_get bs.
Proof.
  unfold be_get, zlen. revert acc.
  induction bs as [|b bs IH]; intros acc Hok; inversion Hok; subst.
  - simpl. lia.
  - cbn [fold_left]. rewrite IH, (IH (Z.lor _ _)) by done.
    rewrite !lor_shift_byte by done. cbn [length].
    rewrite Nat2Z.inj_succ, Z.mul_succ_r, Z.pow_add_r by lia. lia.
Qed.

Lemma be_get_cons b bs :
  bytes_ok (b :: bs) -> be_get (b :: bs) = b * 2 ^ (8 * zlen bs) + be_get bs.
Proof.
  intros H. inversion H; subst.
  unfold be_get at 1. cbn [fold_left]. rewrite be_get_cons_acc by done.
  rewrite lor_shift_byte by done. lia.
Qed.

Lemma be_get_range bs : bytes_ok bs -> 0 <= be_get bs < 2 ^ (8 * zlen bs).
Proof.
  unfold zlen. induction bs as [|b bs IH]; intros H; [done|].
  rewrite be_get_cons by done. inversion H as [|?? [Hb1 Hb2] H']; subst.
  specialize (IH H'). unfold zlen in *. cbn [length].
  rewrite Nat2Z.inj_succ, Z.mul_succ_r, Z.pow_add_r by lia. nia.
Qed.

(** Decoding what was encoded gives back the low [8n] bits. *)
Lemma be_get_put n v : be_get (be_put n v) = v mod 2 ^ (8 * Z.of_nat n).
Proof.
  induction n as [|n IH]; [rewrite Z.mod_1_r; done|].
  cbn [be_put]. rewrite be_get_cons by (apply (be_put_bytes (S n))).
  rewrite IH. unfold zlen. rewrite length_be_put. unfold u8.
  rewrite Z.shiftr_div_pow2 by lia.
  replace (8 * Z.of_nat (S n)) with (8 * Z.of_nat n + 8) by lia.
  rewrite Z.pow_add_r, (Z.rem_mul_r v) by lia. lia.
Qed.

Lemma be_get_put_small n v : is_u (8 * Z.of_nat n) v -> be_get (be_put n v) = v.
Proof. intros H. rewrite be_get_put. by apply Z.mod_small. Qed.

(** Only the low [8n] bits matter to [be_put]. *)
Lemma be_put_add n v k : be_put n (v + k * 2 ^ (8 * Z.of_nat n)) = be_put n v.
Proof.
  revert k. induction n as [|n IH]; intros k; [done|]. cbn [be_put].
  replace (k * 2 ^ (8 * Z.of_nat (S n))) with (k * 2 ^ 8 * 2 ^ (8 * Z.of_nat n)).
  2: { rewrite <- Z.mul_assoc, <- Z.pow_add_r by lia. do 2 f_equal. lia. }
  f_equal; [|apply IH]. unfold u8.
  rewrite !Z.shiftr_div_pow2, Z.div_add, Z.mod_add by lia. done.
Qed.

(** Encoding what was decoded gives back the bytes. *)
Lemma be_put_get bs : bytes_ok bs -> be_put (length bs) (be_get bs) = bs.
Proof.
  induction bs as [|b bs IH]; intros H; [done|].
  inversion H as [|?? Hb Hbs]; subst. cbn [length be_put].
  rewrite be_get_cons by done. pose proof (be_get_range bs Hbs) as Hr.
  unfold zlen in *. f_equal.
  - rewrite Z.shiftr_div_pow2, Z.div_add_l, Z.div_small, Z.add_0_r by lia.
    by apply u8_small.
  - rewrite Z.add_comm, be_put_add. auto.
Qed.

(** ** Invariants of step relations *)

Lemma rtc_invariant {A} (R : relation A) (P : A -> Prop) :
  (forall x y, P x -> R x y -> P y) -> forall x y, rtc R x y -> P x -> P y.
Proof. intros Hstep x y. induction 1; eauto. Qed.

(** Split a Go boolean guard found in the goal or a hypothesis. *)
Ltac split_guard :=
  match goal with
  | |- context [if ?b then _ else _] => destruct b eqn:?
  | H : context [if ?b then _ else _] |- _ => destruct b eqn:?
  | |- context [match ?b with _ => _ end] => destruct b eqn:?
  | H : context [match ?b with _ => _ end] |- _ => destruct b eqn:?
  end.

(** Boolean comparisons to linear arithmetic. *)
Ltac zbool :=
  repeat match goal with
  | H : (_ <=? _) = true |- _ => apply Z.leb_le in H
  | H : (_ <=? _) = false |- _ => apply Z.leb_gt in H
  | H : (_ <? _) = true |- _ => apply Z.ltb_lt in H
  | H : (_ <? _) = false |- _ => apply Z.ltb_ge in H
  | H : (_ =? _) = true |- _ => apply Z.eqb_eq in H
  | H : (_ =? _) = false |- _ => apply Z.eqb_neq in H
  | H : (_ >? _) = _ |- _ => rewrite Z.gtb_ltb in H
  | H : (_ >=? _) = _ |- _ => rewrite Z.geb_leb in H
  | H : (_ && _)%bool = true |- _ => apply andb_prop in H as [? ?]
  | H : (_ || _)%bool = false |- _ => apply orb_false_elim in H as [? ?]
  | H : negb _ = true |- _ => apply negb_true_iff in H
  | H : negb _ = false |- _ => apply negb_false_iff in H
  | H : bool_decide _ = true |- _ => apply bool_decide_eq_true_1 in H
  | H : bool_decide _ = false |- _ => apply bool_decide_eq_false_1 in H
  end.

(** Facts about slicing shared by the wire formats. *)
Lemma take_app_len {A} n (l k : list A) : length l = n -> take n (l ++ k) = l.
Proof. intros <-. apply take_app_length. Qed.
Lemma drop_app_len {A} n (l k : list A) : length l = n -> drop n (l ++ k) = k.
Proof. intros <-. apply drop_app_length. Qed.

Lemma zlen_nil {A} : zlen (@nil A) = 0.
Proof. done. Qed.
Lemma zlen_cons {A} (x : A) l : zlen (x :: l) = 1 + zlen l.
Proof. unfold zlen. simpl length. lia. Qed.
Lemma zlen_app {A} (l k : list A) : zlen (l ++ k) = zlen l + zlen k.
Proof. unfold zlen. rewrite length_app. lia. Qed.
Lemma zlen_nonneg {A} (l : list A) : 0 <= zlen l.
Proof. unfold zlen. lia. Qed.
Lemma zlen_take {A} n (l : list A) :
  0 <= n <= zlen l -> zlen (take (Z.to_nat n) l) = n.
Proof. unfold zlen. intros H. rewrite length_take. lia. Qed.
Lemma zlen_drop {A} n (l : list A) :
  0 <= n <= zlen l -> zlen (drop (Z.to_nat n) l) = zlen l - n.
Proof. unfold zlen. intros H. rewrite length_drop. lia. Qed.
Lemma omap_cons {A B} (f : A -> option B) x l :
  omap f (x :: l) = match f x with Some y => y :: omap f l | None => omap f l end.
Proof. done. Qed.
#[export] Hint Resolve zlen_nonneg : machine.
#[export] Hint Rewrite @zlen_nil @zlen_cons @zlen_app : zlen.

(** ** Maps *)

Lemma alter_Some_insert {K A} `{Countable K} (f : A -> A) (m : gmap K A) k a :
  m !! k = Some a -> alter f k m = <[k := f a]> m.
Proof.
  intros Hk. apply map_eq. intros k'. destruct (decide (k = k')) as [<-|Hne].
  - by rewrite lookup_alter_eq, lookup_insert_eq, Hk.
  - by rewrite lookup_alter_ne, lookup_insert_ne.
Qed.

Lemma alter_None_id {K A} `{Countable K} (f : A -> A) (m : gmap K A) k : m !! k = None -> alter f k m = m.
Proof.
  intros Hk. apply map_eq. intros k'. destruct (decide (k = k')) as [<-|Hne].
  - by rewrite lookup_alter_eq, Hk.
  - by rewrite lookup_alter_ne.
Qed.
