(* ===== verification/Protocol.v ===== *)
(** * network/protocol: the message frame, its codec, and the UDP header

    [MessageFrame] and its 17-byte header (message.go, codec.go), the commands
    reserved for the network layer (internal.go), the 16-byte UDP session
    header (udp_header.go), and [hash/crc32.ChecksumIEEE], which the codec uses. *)

From S2P Require Import Prelude.

(** ** internal.go *)

Definition InternalCmd : Z := 0.
Definition InternalKeyExchange : Z := 1.
Definition InternalActClose : Z := 2.

Inductive perr : Type :=
| ErrReservedCommand
| ErrUnknownInternalAct
| ErrFrameTooLarge
| ErrInvalidCrc (headCrc bodyCrc : Z)
| ErrInvalidUDPHeader.

#[export] Instance perr_eq_dec : EqDecision perr.
Proof. solve_decision. Defined.

Definition IsInternalCommand (cmd : Z) : bool := cmd =? InternalCmd.

Definition ValidateBusinessCommand (cmd act : Z) : option perr :=
  if IsInternalCommand cmd then Some ErrReservedCommand else None.

Definition ValidateInternalAction (act : Z) : option perr :=
  if (act =? InternalKeyExchange) || (act =? InternalActClose) then None
  else Some ErrUnknownInternalAct.

(** ** message.go *)

Record MessageFrame : Type := mkFrame {
  f_Cmd : Z;   (* uint8 *)
  f_Act : Z;   (* uint8 *)
  f_Flags : Z; (* uint8 *)
  f_Error : Z; (* uint16 *)
  f_Index : Z; (* uint32 *)
  f_crc : Z;   (* uint32 *)
  f_Body : list Z
}.

#[export] Instance MessageFrame_eq_dec : EqDecision MessageFrame.
Proof. solve_decision. Defined.

Definition NewMessageFrame (cmd act flags : Z) (body : list Z) : MessageFrame :=
  mkFrame cmd act flags 0 0 0 body.

Definition CmdAct (cmd act : Z) : Z := Z.lor (u16 (Z.shiftl (u16 cmd) 8)) (u16 act).

Definition frame_ID (m : MessageFrame) : Z := CmdAct (f_Cmd m) (f_Act m).

Definition with_Body (f : MessageFrame) (body : list Z) : MessageFrame :=
  mkFrame (f_Cmd f) (f_Act f) (f_Flags f) (f_Error f) (f_Index f) (f_crc f) body.

Definition with_Flags (f : MessageFrame) (flags : Z) : MessageFrame :=
  mkFrame (f_Cmd f) (f_Act f) flags (f_Error f) (f_Index f) (f_crc f) (f_Body f).

Definition with_crc (f : MessageFrame) (crc : Z) : MessageFrame :=
  mkFrame (f_Cmd f) (f_Act f) (f_Flags f) (f_Error f) (f_Index f) crc (f_Body f).

(** The fields hold values of their Go types. *)
Definition frame_typed (f : MessageFrame) : Prop :=
  is_u 8 (f_Cmd f) /\ is_u 8 (f_Act f) /\ is_u 8 (f_Flags f) /\
  is_u 16 (f_Error f) /\ is_u 32 (f_Index f) /\ bytes_ok (f_Body f).
#[export] Instance frame_typed_dec f : Decision (frame_typed f).
Proof. unfold frame_typed. apply _. Defined.

(** ** hash/crc32: the IEEE polynomial, reflected *)

Definition crc_poly : Z := 0xEDB88320.

Definition crc_bit (s : Z) : Z :=
  if Z.odd s then Z.lxor (Z.shiftr s 1) crc_poly else Z.shiftr s 1.

Definition crc_byte (s b : Z) : Z := Nat.iter 8 crc_bit (Z.lxor s b).

Definition crc_fold (bs : list Z) (s : Z) : Z := fold_left crc_byte bs s.

Definition ChecksumIEEE (bs : list Z) : Z :=
  Z.lxor (crc_fold bs 0xFFFFFFFF) 0xFFFFFFFF.

(** ** codec.go *)

Definition UnifiedFrameHeaderLen : Z := 17.
Definition MaxInt32 : Z := 2 ^ 31 - 1.

Definition FrameSize (bodyLen : Z) : Z := UnifiedFrameHeaderLen + bodyLen.

(** The command check shared by the encoder and the decoder. *)
Definition validate_command (cmd act : Z) : option perr :=
  if IsInternalCommand cmd then ValidateInternalAction act
  else ValidateBusinessCommand cmd act.

Definition frame_header (f : MessageFrame) : list Z :=
  be_put 4 (u32 (zlen (f_Body f))) ++ [f_Cmd f; f_Act f; f_Flags f]
  ++ be_put 2 (f_Error f) ++ be_put 4 (f_Index f)
  ++ be_put 4 (ChecksumIEEE (f_Body f)).

Definition EncodeMessageFrameWithLimit (f : MessageFrame) (maxFrameSize : Z)
  : res perr (list Z) :=
  match validate_command (f_Cmd f) (f_Act f) with
  | Some err => Err err
  | None =>
    let frameSize := FrameSize (zlen (f_Body f)) in
    if frameSize >? MaxInt32 then Err ErrFrameTooLarge
    else if (maxFrameSize >? 0) && (frameSize >? maxFrameSize) then Err ErrFrameTooLarge
    else Ok (frame_header f ++ f_Body f)
  end.

Definition EncodeMessageFrame (f : MessageFrame) : res perr (list Z) :=
  EncodeMessageFrameWithLimit f 0.

(** [data[a:b]] and [data[i]] of a slice long enough for them. *)
Definition slice (a b : nat) (data : list Z) : list Z := take (b - a) (drop a data).
Definition index (i : nat) (data : list Z) : Z := nth i data 0.

(** The frame the decoder reads from a buffer holding [total] bytes of it. *)
Definition frame_at (data : list Z) (total : Z) : MessageFrame :=
  mkFrame (index 4 data) (index 5 data) (index 6 data)
          (be_get (slice 7 9 data)) (be_get (slice 9 13 data))
          (be_get (slice 13 17 data)) (slice 17 (Z.to_nat total) data).

Definition DecodeMessageFrameWithLimit (data : list Z) (maxFrameSize : Z)
  : option MessageFrame * Z * option perr :=
  if zlen data <? UnifiedFrameHeaderLen then (None, 0, None)
  else
    let rawLength := be_get (take 4 data) in
    if rawLength >? MaxInt32 - UnifiedFrameHeaderLen
    then (None, UnifiedFrameHeaderLen, Some ErrFrameTooLarge)
    else
      let frameSize := FrameSize rawLength in
      if (maxFrameSize >? 0) && (frameSize >? maxFrameSize)
      then (None, UnifiedFrameHeaderLen, Some ErrFrameTooLarge)
      else if frameSize >? zlen data then (None, 0, None)
      else
        let frame := frame_at data frameSize in
        let bodyCrc := ChecksumIEEE (f_Body frame) in
        if negb (bodyCrc =? f_crc frame)
        then (None, frameSize, Some (ErrInvalidCrc (f_crc frame) bodyCrc))
        else match validate_command (f_Cmd frame) (f_Act frame) with
             | Some err => (None, frameSize, Some err)
             | None => (Some frame, frameSize, None)
             end.

Definition DecodeMessageFrame (data : list Z) := DecodeMessageFrameWithLimit data 0.

(** ** udp_header.go *)

Definition UDPHeaderLen : Z := 16.

Record UDPHeader : Type := mkUDPHeader { u_SessionID : Z; u_Sequence : Z }.

Definition EncodeUDPHeader (h : UDPHeader) : res perr (list Z) :=
  if u_SessionID h =? 0 then Err ErrInvalidUDPHeader
  else Ok (be_put 8 (u_SessionID h) ++ be_put 8 (u_Sequence h)).

Definition DecodeUDPHeader (data : list Z) : res perr UDPHeader :=
  if zlen data <? UDPHeaderLen then Err ErrInvalidUDPHeader
  else
    let header := mkUDPHeader (be_get (slice 0 8 data)) (be_get (slice 8 16 data)) in
    if u_SessionID header =? 0 then Err ErrInvalidUDPHeader else Ok header.

Example crc_check : ChecksumIEEE [0x31;0x32;0x33;0x34;0x35;0x36;0x37;0x38;0x39] = 0xCBF43926.
Proof. vm_compute. reflexivity. Qed.

(** ** CRC lemmas: one step is injective on 32-bit states *)

Lemma testbit_31_small z i : 0 <= z < 2 ^ 32 -> 32 <= i -> Z.testbit z i = false.
Proof.
  intros Hz Hi. destruct (decide (z = 0)) as [->|]; [apply Z.bits_0|].
  apply Z.bits_above_log2; [lia|].
  apply Z.log2_lt_pow2; [lia|].
  apply Z.lt_le_trans with (2 ^ 32); [lia|]. apply Z.pow_le_mono_r; lia.
Qed.

Lemma small_of_bits z :
  0 <= z -> (forall i, 32 <= i -> Z.testbit z i = false) -> is_u 32 z.
Proof.
  intros Hz Hbits. split; [done|]. destruct (decide (z < 2 ^ 32)); [done|].
  assert (Hlog : 32 <= Z.log2 z) by (apply Z.log2_le_pow2; lia).
  specialize (Hbits _ Hlog). rewrite Z.bit_log2 in Hbits by lia. done.
Qed.

Lemma crc_bit_range s : is_u 32 s -> is_u 32 (crc_bit s).
Proof.
  intros Hs. assert (Hsh : is_u 32 (Z.shiftr s 1)).
  { rewrite Z.shiftr_div_pow2 by lia. destruct Hs. split; [apply Z.div_pos; lia|].
    apply Z.div_lt_upper_bound; lia. }
  unfold crc_bit. destruct (Z.odd s); [|done].
  apply small_of_bits.
  - apply Z.lxor_nonneg. destruct Hsh. split; intros; [unfold crc_poly|]; lia.
  - intros i Hi. rewrite Z.lxor_spec, !testbit_31_small; try done.
Qed.

(** Bit 31 of the result tells which branch was taken, since the polynomial has it set. *)
Lemma crc_bit_top s : is_u 32 s -> Z.testbit (crc_bit s) 31 = Z.odd s.
Proof.
  intros Hs.
  assert (H31 : Z.testbit (Z.shiftr s 1) 31 = false).
  { rewrite Z.shiftr_spec by lia. by apply testbit_31_small. }
  unfold crc_bit. destruct (Z.odd s); [|done].
  by rewrite Z.lxor_spec, H31.
Qed.

Lemma crc_bit_inj s t : is_u 32 s -> is_u 32 t -> crc_bit s = crc_bit t -> s = t.
Proof.
  intros Hs Ht Heq.
  assert (Hodd : Z.odd s = Z.odd t) by (rewrite <- !crc_bit_top by done; congruence).
  unfold crc_bit in Heq. rewrite Hodd in Heq.
  assert (Hsh : Z.shiftr s 1 = Z.shiftr t 1).
  { destruct (Z.odd t); [|done].
    apply (f_equal (fun x => Z.lxor x crc_poly)) in Heq.
    by rewrite !Z.lxor_assoc, Z.lxor_nilpotent, !Z.lxor_0_r in Heq. }
  rewrite <- !Z.div2_spec in Hsh.
  rewrite (Z.div2_odd s), (Z.div2_odd t). congruence.
Qed.

Lemma crc_iter_range n s : is_u 32 s -> is_u 32 (Nat.iter n crc_bit s).
Proof. intros Hs. induction n; simpl; auto using crc_bit_range. Qed.

Lemma crc_iter_inj n s t :
  is_u 32 s -> is_u 32 t -> Nat.iter n crc_bit s = Nat.iter n crc_bit t -> s = t.
Proof.
  intros Hs Ht. induction n as [|n IH]; simpl; [done|].
  intros Heq. apply IH, crc_bit_inj; auto using crc_iter_range.
Qed.

Lemma lxor_range a b : is_u 32 a -> is_u 32 b -> is_u 32 (Z.lxor a b).
Proof.
  intros Ha Hb. apply small_of_bits.
  - apply Z.lxor_nonneg. destruct Ha, Hb. lia.
  - intros i Hi. rewrite Z.lxor_spec, !testbit_31_small; done.
Qed.

Lemma byte_is_u32 b : is_u 8 b -> is_u 32 b.
Proof. unfold is_u. lia. Qed.
#[export] Hint Resolve crc_bit_range crc_iter_range lxor_range byte_is_u32 : machine.

Lemma lxor_inj_r a b c : Z.lxor a c = Z.lxor b c -> a = b.
Proof.
  intros H. apply (f_equal (fun x => Z.lxor x c)) in H.
  by rewrite !Z.lxor_assoc, Z.lxor_nilpotent, !Z.lxor_0_r in H.
Qed.

Lemma crc_byte_range s b : is_u 32 s -> is_u 8 b -> is_u 32 (crc_byte s b).
Proof. unfold crc_byte. auto with machine. Qed.
#[export] Hint Resolve crc_byte_range : machine.

Lemma crc_byte_inj_state s t b :
  is_u 32 s -> is_u 32 t -> is_u 8 b -> crc_byte s b = crc_byte t b -> s = t.
Proof.
  unfold crc_byte. intros Hs Ht Hb Heq.
  apply crc_iter_inj in Heq; auto with machine. by apply lxor_inj_r in Heq.
Qed.

Lemma crc_byte_inj_byte s b c :
  is_u 32 s -> is_u 8 b -> is_u 8 c -> crc_byte s b = crc_byte s c -> b = c.
Proof.
  unfold crc_byte. intros Hs Hb Hc Heq.
  apply crc_iter_inj in Heq; auto with machine.
  rewrite !(Z.lxor_comm s) in Heq. by apply lxor_inj_r in Heq.
Qed.

Lemma crc_fold_range bs s : bytes_ok bs -> is_u 32 s -> is_u 32 (crc_fold bs s).
Proof.
  revert s. induction bs as [|b bs IH]; intros s Hok Hs; [done|].
  inversion Hok; subst. apply IH; auto with machine.
Qed.

Lemma crc_fold_inj bs s t :
  bytes_ok bs -> is_u 32 s -> is_u 32 t -> crc_fold bs s = crc_fold bs t -> s = t.
Proof.
  revert s t. induction bs as [|b bs IH]; intros s t Hok Hs Ht Heq; [done|].
  inversion Hok; subst. apply crc_byte_inj_state with b; auto.
  apply IH; auto with machine.
Qed.

Lemma crc_init_range : is_u 32 0xFFFFFFFF.
Proof. done. Qed.
#[export] Hint Resolve crc_fold_range crc_init_range : machine.

Lemma ChecksumIEEE_range bs : bytes_ok bs -> is_u 32 (ChecksumIEEE bs).
Proof. unfold ChecksumIEEE. auto with machine. Qed.
#[export] Hint Resolve ChecksumIEEE_range : machine.

(** Replacing one byte changes the checksum. *)
Lemma ChecksumIEEE_one_byte l b c r :
  bytes_ok (l ++ b :: r) -> is_u 8 c -> b <> c ->
  ChecksumIEEE (l ++ b :: r) <> ChecksumIEEE (l ++ c :: r).
Proof.
  unfold ChecksumIEEE, crc_fold. rewrite !fold_left_app. simpl.
  intros Hok Hc Hne Heq. apply lxor_inj_r in Heq. apply Forall_app in Hok as [Hl Hr].
  inversion Hr; subst. apply Hne.
  pose proof (crc_fold_range l _ Hl crc_init_range) as Hs. unfold crc_fold in Hs.
  apply crc_fold_inj in Heq; [|auto with machine..].
  apply crc_byte_inj_byte in Heq; auto.
Qed.

(** ** Layout of the encoded frame *)

Lemma length_frame_header f : length (frame_header f) = 17%nat.
Proof. done. Qed.

Lemma zlen_encoded f : zlen (frame_header f ++ f_Body f) = FrameSize (zlen (f_Body f)).
Proof. rewrite zlen_app. done. Qed.

Lemma frame_header_bytes f : frame_typed f -> bytes_ok (frame_header f).
Proof.
  intros (Hc & Ha & Hfl & _ & _ & _). unfold frame_header, bytes_ok.
  rewrite !Forall_app. split_and!; try apply be_put_bytes.
  by repeat (apply Forall_cons_2; [done|]).
Qed.

Lemma header_length_field f data :
  be_get (take 4 (frame_header f ++ data)) = u32 (zlen (f_Body f)).
Proof.
  change (take 4 (frame_header f ++ data)) with (be_put 4 (u32 (zlen (f_Body f)))).
  apply be_get_put_small, u32_range.
Qed.

Lemma frame_at_encoded f data :
  frame_typed f ->
  frame_at (frame_header f ++ f_Body f ++ data) (FrameSize (zlen (f_Body f)))
  = with_crc f (ChecksumIEEE (f_Body f)).
Proof.
  intros (Hc & Ha & Hfl & He & Hi & Hb). unfold frame_at, with_crc. f_equal.
  - change (slice 7 9 _) with (be_put 2 (f_Error f)). by apply be_get_put_small.
  - change (slice 9 13 _) with (be_put 4 (f_Index f)). by apply be_get_put_small.
  - change (slice 13 17 _) with (be_put 4 (ChecksumIEEE (f_Body f))).
    apply be_get_put_small. auto with machine.
  - unfold slice. change (drop 17 _) with (f_Body f ++ data).
    apply take_app_len. unfold FrameSize, UnifiedFrameHeaderLen, zlen. lia.
Qed.

(** What the encoder accepts. *)
Lemma encode_ok_inv f max bs :
  EncodeMessageFrameWithLimit f max = Ok bs ->
  validate_command (f_Cmd f) (f_Act f) = None /\
  FrameSize (zlen (f_Body f)) <= MaxInt32 /\
  (max <= 0 \/ FrameSize (zlen (f_Body f)) <= max) /\
  bs = frame_header f ++ f_Body f.
Proof.
  unfold EncodeMessageFrameWithLimit.
  destruct (validate_command _ _); [done|].
  destruct (_ >? MaxInt32) eqn:H1; [done|].
  destruct (_ && _) eqn:H2; [done|]. intros [= <-].
  rewrite Z.gtb_ltb in H1. zbool. split_and!; [done|lia| |done].
  apply andb_false_iff in H2 as [H2|H2]; rewrite Z.gtb_ltb in H2; zbool; auto.
Qed.

Lemma limit_guard_false size max :
  max <= 0 \/ size <= max -> (max >? 0) && (size >? max) = false.
Proof. intros H. rewrite !Z.gtb_ltb. apply andb_false_iff. rewrite !Z.ltb_ge. done. Qed.

(** The decoder once the guards on the sizes are passed. *)
Definition decode_body (data : list Z) (size : Z) : option MessageFrame * Z * option perr :=
  let frame := frame_at data size in
  let bodyCrc := ChecksumIEEE (f_Body frame) in
  if negb (bodyCrc =? f_crc frame)
  then (None, size, Some (ErrInvalidCrc (f_crc frame) bodyCrc))
  else match validate_command (f_Cmd frame) (f_Act frame) with
       | Some err => (None, size, Some err)
       | None => (Some frame, size, None)
       end.

(** The length field of a buffer, as the decoder reads it. *)
Definition raw_length (data : list Z) : Z := be_get (take 4 data).

Definition within_limit (max size : Z) : Prop := max <= 0 \/ size <= max.

Lemma decode_complete data max :
  UnifiedFrameHeaderLen <= zlen data ->
  FrameSize (raw_length data) <= MaxInt32 ->
  within_limit max (FrameSize (raw_length data)) ->
  FrameSize (raw_length data) <= zlen data ->
  DecodeMessageFrameWithLimit data max = decode_body data (FrameSize (raw_length data)).
Proof.
  unfold within_limit, FrameSize. intros H1 H2 H3 H4.
  unfold DecodeMessageFrameWithLimit. fold (raw_length data).
  rewrite (proj2 (Z.ltb_ge _ _)) by done.
  rewrite Z.gtb_ltb, (proj2 (Z.ltb_ge _ _)) by lia.
  unfold FrameSize. rewrite limit_guard_false by done.
  by rewrite Z.gtb_ltb, (proj2 (Z.ltb_ge _ _)) by done.
Qed.

(** The only three outcomes short of a complete frame, and the complete frame. *)
Lemma decode_cases data max :
  (zlen data < UnifiedFrameHeaderLen /\
   DecodeMessageFrameWithLimit data max = (None, 0, None)) \/
  (UnifiedFrameHeaderLen <= zlen data /\
   ~ (FrameSize (raw_length data) <= MaxInt32 /\
      within_limit max (FrameSize (raw_length data))) /\
   DecodeMessageFrameWithLimit data max
   = (None, UnifiedFrameHeaderLen, Some ErrFrameTooLarge)) \/
  (UnifiedFrameHeaderLen <= zlen data < FrameSize (raw_length data) /\
   (within_limit max (FrameSize (raw_length data)) /\ FrameSize (raw_length data) <= MaxInt32) /\
   DecodeMessageFrameWithLimit data max = (None, 0, None)) \/
  (UnifiedFrameHeaderLen <= zlen data /\
   FrameSize (raw_length data) <= MaxInt32 /\
   within_limit max (FrameSize (raw_length data)) /\
   FrameSize (raw_length data) <= zlen data /\
   DecodeMessageFrameWithLimit data max
   = decode_body data (FrameSize (raw_length data))).
Proof.
  destruct (decide (zlen data < UnifiedFrameHeaderLen)) as [H1|H1].
  { left. split; [done|]. unfold DecodeMessageFrameWithLimit.
    by rewrite (proj2 (Z.ltb_lt _ _)). }
  assert (E1 : (zlen data <? UnifiedFrameHeaderLen) = false) by (apply Z.ltb_ge; lia).
  unfold within_limit, FrameSize in *.
  destruct (decide (UnifiedFrameHeaderLen + raw_length data <= MaxInt32)) as [H2|H2].
  2: { right; left. split_and!; [lia| tauto |].
    unfold DecodeMessageFrameWithLimit. fold (raw_length data).
    by rewrite E1, Z.gtb_ltb, (proj2 (Z.ltb_lt _ _)) by lia. }
  assert (E2 : (raw_length data >? MaxInt32 - UnifiedFrameHeaderLen) = false)
    by (rewrite Z.gtb_ltb; apply Z.ltb_ge; lia).
  destruct (decide (max <= 0 \/ UnifiedFrameHeaderLen + raw_length data <= max)) as [H3|H3].
  2: { right; left. split_and!; [lia| tauto |].
    unfold DecodeMessageFrameWithLimit. fold (raw_length data). rewrite E1, E2.
    unfold FrameSize. rewrite !Z.gtb_ltb, !(proj2 (Z.ltb_lt _ _)) by lia. done. }
  destruct (decide (zlen data < UnifiedFrameHeaderLen + raw_length data)) as [H4|H4].
  - right; right; left. split_and!; [lia|lia|done|lia|].
    unfold DecodeMessageFrameWithLimit. fold (raw_length data). rewrite E1, E2.
    unfold FrameSize. rewrite limit_guard_false by done.
    by rewrite Z.gtb_ltb, (proj2 (Z.ltb_lt _ _)) by done.
  - right; right; right. split_and!; [lia|lia|done|lia|].
    apply decode_complete; unfold within_limit, FrameSize; [lia|lia|done|lia].
Qed.

Lemma raw_length_encoded f data :
  FrameSize (zlen (f_Body f)) <= MaxInt32 ->
  raw_length (frame_header f ++ data) = zlen (f_Body f).
Proof.
  intros H. unfold raw_length. rewrite header_length_field.
  pose proof (zlen_nonneg (f_Body f)).
  unfold FrameSize, UnifiedFrameHeaderLen, MaxInt32 in H. by autorewrite with machine.
Qed.

(** ** Properties of the codec *)

(** Decoding an encoded frame at the front of a buffer. *)
Lemma decode_encoded f max maxd bs rest :
  frame_typed f ->
  EncodeMessageFrameWithLimit f max = Ok bs ->
  within_limit maxd (zlen bs) ->
  DecodeMessageFrameWithLimit (bs ++ rest) maxd
  = (Some (with_crc f (ChecksumIEEE (f_Body f))), zlen bs, None).
Proof.
  intros Hty Henc Hmax. apply encode_ok_inv in Henc as (Hval & Hsize & _ & ->).
  rewrite zlen_encoded in *. rewrite <- app_assoc.
  pose proof (zlen_nonneg (f_Body f)). pose proof (zlen_nonneg rest).
  rewrite decode_complete; rewrite ?raw_length_encoded by done; try done;
    try (rewrite !zlen_app; change (zlen (frame_header f)) with UnifiedFrameHeaderLen;
         unfold FrameSize; lia).
  unfold decode_body. rewrite frame_at_encoded by done.
  simpl. rewrite Z.eqb_refl. simpl. by rewrite Hval.
Qed.

(** Decoding an encoded frame, whatever follows it in the buffer, gives the frame
    back and consumes exactly its bytes. *)
Theorem decode_encode f max maxd bs rest :
  frame_typed f ->
  EncodeMessageFrameWithLimit f max = Ok bs ->
  within_limit maxd (zlen bs) ->
  DecodeMessageFrameWithLimit (bs ++ rest) maxd
  = (Some (with_crc f (ChecksumIEEE (f_Body f))), zlen bs, None) /\
  zlen bs = FrameSize (zlen (f_Body f)) /\
  EncodeMessageFrameWithLimit (with_crc f (ChecksumIEEE (f_Body f))) max = Ok bs.
Proof.
  intros Hty Henc Hmax. split_and!; [by eapply decode_encoded| |exact Henc].
  apply encode_ok_inv in Henc as (_ & _ & _ & ->). apply zlen_encoded.
Qed.

(** A proper prefix of a frame is reported as incomplete and consumes nothing. *)
Theorem decode_partial f max maxd bs k :
  EncodeMessageFrameWithLimit f max = Ok bs ->
  within_limit maxd (zlen bs) ->
  (k < length bs)%nat ->
  DecodeMessageFrameWithLimit (take k bs) maxd = (None, 0, None).
Proof.
  intros Henc Hmax Hk. apply encode_ok_inv in Henc as (_ & Hsize & _ & ->).
  rewrite zlen_encoded in Hmax. rewrite length_app, length_frame_header in Hk.
  assert (Hlen : zlen (take k (frame_header f ++ f_Body f)) = Z.of_nat k)
    by (unfold zlen; rewrite length_take, length_app, length_frame_header; lia).
  destruct (decide (k < 17)%nat) as [|Hge].
  { destruct (decode_cases (take k (frame_header f ++ f_Body f)) maxd)
      as [[_ ->]|[[H _]|[(H & _)|(H & _)]]]; [done|..];
      rewrite Hlen in H; unfold UnifiedFrameHeaderLen in H; lia. }
  assert (Hraw : raw_length (take k (frame_header f ++ f_Body f)) = zlen (f_Body f)).
  { rewrite take_app, length_frame_header, take_ge by (rewrite length_frame_header; lia).
    by apply raw_length_encoded. }
  destruct (decode_cases (take k (frame_header f ++ f_Body f)) maxd)
    as [[_ ->]|[(_ & H & _)|[(_ & _ & ->)|(_ & _ & _ & H & _)]]]; try done;
    rewrite Hraw in H; [tauto|].
  rewrite Hlen in H. unfold FrameSize, UnifiedFrameHeaderLen, zlen in H. lia.
Qed.

Lemma bytes_ok_take n data : bytes_ok data -> bytes_ok (take n data).
Proof. apply Forall_take. Qed.
Lemma bytes_ok_drop n data : bytes_ok data -> bytes_ok (drop n data).
Proof. apply Forall_drop. Qed.
Lemma bytes_ok_slice a b data : bytes_ok data -> bytes_ok (slice a b data).
Proof. intros. by apply bytes_ok_take, bytes_ok_drop. Qed.
#[export] Hint Resolve bytes_ok_take bytes_ok_drop bytes_ok_slice : machine.

Lemma index_byte i data : bytes_ok data -> (i < length data)%nat -> is_u 8 (index i data).
Proof.
  intros H Hi. unfold index. apply (Forall_lookup_1 (is_u 8) data i); [done|].
  destruct (nth_lookup_or_length data i 0); [done|lia].
Qed.

Lemma slice_get_put a b data :
  bytes_ok data -> (a <= b <= length data)%nat ->
  be_put (b - a) (be_get (slice a b data)) = slice a b data.
Proof.
  intros Hok Hab. rewrite <- (be_put_get (slice a b data)) at 2 by auto with machine.
  f_equal. unfold slice. rewrite length_take, length_drop. lia.
Qed.

Lemma slice_range a b data w :
  bytes_ok data -> (a <= b <= length data)%nat -> w = 8 * Z.of_nat (b - a) ->
  is_u w (be_get (slice a b data)).
Proof.
  intros Hok Hab ->. pose proof (be_get_range (slice a b data)) as H.
  unfold zlen, slice in *. rewrite length_take, length_drop, Nat.min_l in H by lia.
  apply H. by auto with machine.
Qed.

Lemma frame_at_typed data size :
  bytes_ok data -> 17 <= zlen data -> frame_typed (frame_at data size).
Proof.
  intros Hok Hlen. unfold zlen in Hlen. unfold frame_typed, frame_at; simpl.
  split_and!; try (apply index_byte; [done|lia]);
    try (apply slice_range; [done|lia|done]). by apply bytes_ok_slice.
Qed.

(** The header of the frame read from [data] is the header of [data]. *)
Lemma frame_at_header data size :
  bytes_ok data -> 17 <= zlen data ->
  size = FrameSize (raw_length data) -> size <= zlen data -> size <= MaxInt32 ->
  f_crc (frame_at data size) = ChecksumIEEE (f_Body (frame_at data size)) ->
  frame_header (frame_at data size) ++ f_Body (frame_at data size)
  = take (Z.to_nat size) data.
Proof.
  intros Hok Hlen Hsize Hle Hmax Hcrc.
  assert (Hraw : 0 <= raw_length data < 2 ^ 32).
  { apply (slice_range 0 4); [done| unfold zlen in Hlen; lia |done]. }
  unfold FrameSize, UnifiedFrameHeaderLen in Hsize. unfold frame_header.
  rewrite <- Hcrc. cbn [frame_at f_Cmd f_Act f_Flags f_Error f_Index f_crc].
  assert (Hbody : zlen (f_Body (frame_at data size)) = raw_length data).
  { cbn. unfold slice, zlen in *. rewrite length_take, length_drop. lia. }
  rewrite Hbody. autorewrite with machine. unfold zlen in *.
  change (raw_length data) with (be_get (slice 0 4 data)).
  rewrite (slice_get_put 0 4), (slice_get_put 7 9), (slice_get_put 9 13),
    (slice_get_put 13 17) by (done || lia).
  do 17 (destruct data as [|? data]; [simpl in Hlen; lia|]).
  cbn [frame_at f_Body]. unfold slice, index.
  replace (Z.to_nat size) with (17 + (Z.to_nat size - 17))%nat by lia.
  cbn [Nat.add Nat.sub take drop nth app]. by rewrite Nat.sub_0_r.
Qed.

(** C34: A frame the decoder accepts is well typed, checksummed, and encodes to
    exactly the bytes consumed. *)
Theorem decode_sound data max f n :
  bytes_ok data ->
  DecodeMessageFrameWithLimit data max = (Some f, n, None) ->
  frame_typed f /\ 17 <= n <= zlen data /\
  f_crc f = ChecksumIEEE (f_Body f) /\
  EncodeMessageFrameWithLimit f max = Ok (take (Z.to_nat n) data).
Proof.
  intros Hok Hdec.
  destruct (decode_cases data max)
    as [[_ E]|[(_ & _ & E)|[(_ & _ & E)|(Hlen & Hmax & Hlim & Hle & E)]]];
    rewrite Hdec in E; try done.
  unfold decode_body in E. destruct (_ =? _) eqn:Hcrc; [|done].
  destruct (validate_command _ _) eqn:Hval; [done|]. injection E as -> ->.
  zbool. unfold UnifiedFrameHeaderLen in Hlen.
  pose proof (frame_at_header data _ Hok Hlen eq_refl Hle Hmax (eq_sym Hcrc)) as Hhd.
  split_and!; [by apply frame_at_typed | | done | done |].
  { assert (Hr : 0 <= raw_length data) by (apply be_get_range; auto with machine).
    unfold FrameSize, UnifiedFrameHeaderLen. lia. }
  unfold EncodeMessageFrameWithLimit. rewrite Hval, Hhd.
  assert (Hs : FrameSize (zlen (f_Body (frame_at data (FrameSize (raw_length data)))))
               = FrameSize (raw_length data)).
  { rewrite <- zlen_encoded, Hhd. rewrite zlen_take; [done|].
    pose proof (zlen_nonneg data). unfold FrameSize, UnifiedFrameHeaderLen in *. 
    assert (Hr : 0 <= raw_length data) by (apply be_get_range; auto with machine). lia. }
  rewrite Hs, limit_guard_false by done.
  by rewrite Z.gtb_ltb, (proj2 (Z.ltb_ge _ _)) by done.
Qed.

(** The header up to the checksum field. *)
Definition header_fields (f : MessageFrame) : list Z := take 13 (frame_header f).

Lemma frame_header_split f :
  frame_header f = header_fields f ++ be_put 4 (ChecksumIEEE (f_Body f)).
Proof. done. Qed.

(** Any other checksum or body of the same length is rejected as a whole frame. *)
Lemma decode_bad_crc f maxd k body rest :
  FrameSize (zlen (f_Body f)) <= MaxInt32 ->
  within_limit maxd (FrameSize (zlen (f_Body f))) ->
  length k = 4%nat -> zlen body = zlen (f_Body f) ->
  be_get k <> ChecksumIEEE body ->
  DecodeMessageFrameWithLimit (header_fields f ++ k ++ body ++ rest) maxd
  = (None, FrameSize (zlen (f_Body f)), Some (ErrInvalidCrc (be_get k) (ChecksumIEEE body))).
Proof.
  intros Hmax Hlim Hk Hbody Hne.
  destruct k as [|k0 [|k1 [|k2 [|k3 [|]]]]]; try discriminate. clear Hk.
  set (data := header_fields f ++ _).
  assert (Hraw : raw_length data = zlen (f_Body f)).
  { transitivity (raw_length (frame_header f)); [done|].
    rewrite <- (app_nil_r (frame_header f)). by apply raw_length_encoded. }
  assert (Hlen : zlen data = 17 + zlen body + zlen rest).
  { unfold data. rewrite !zlen_app.
    change (zlen (header_fields f)) with 13. change (zlen [k0;k1;k2;k3]) with 4. lia. }
  pose proof (zlen_nonneg body). pose proof (zlen_nonneg rest).
  rewrite decode_complete; rewrite ?Hraw; try done;
    unfold FrameSize, UnifiedFrameHeaderLen; try lia.
  unfold decode_body. cbn [frame_at f_Body f_crc].
  change (slice 13 17 data) with [k0;k1;k2;k3].
  assert (Hsl : slice 17 (Z.to_nat (17 + zlen (f_Body f))) data = body).
  { unfold slice. change (drop 17 data) with (body ++ rest). apply take_app_len.
    unfold zlen in *. lia. }
  rewrite Hsl. rewrite (proj2 (Z.eqb_neq _ _)) by congruence. done.
Qed.

Lemma decode_corrupt_crc f maxd j c rest :
  frame_typed f -> FrameSize (zlen (f_Body f)) <= MaxInt32 ->
  within_limit maxd (FrameSize (zlen (f_Body f))) ->
  (j < 4)%nat -> is_u 8 c -> be_put 4 (ChecksumIEEE (f_Body f)) !! j <> Some c ->
  exists hc bc,
    DecodeMessageFrameWithLimit
      (header_fields f ++ <[j:=c]> (be_put 4 (ChecksumIEEE (f_Body f))) ++ f_Body f ++ rest) maxd
    = (None, FrameSize (zlen (f_Body f)), Some (ErrInvalidCrc hc bc)).
Proof.
  intros (_ & _ & _ & _ & _ & Hbok) Hsize Hlim Hj Hc Hne.
  pose proof (ChecksumIEEE_range (f_Body f) Hbok) as Hcrc.
  set (crc := be_put 4 (ChecksumIEEE (f_Body f))) in *.
  assert (Hlen : length (<[j:=c]> crc) = 4%nat) by (by rewrite length_insert).
  assert (Hok : bytes_ok (<[j:=c]> crc)) by (apply Forall_insert; [apply be_put_bytes | done]).
  do 2 eexists. apply decode_bad_crc; try done.
  intros Heq. apply Hne. unfold crc. rewrite <- Heq, <- Hlen, be_put_get by done.
  apply list_lookup_insert_eq. unfold crc. rewrite length_be_put. lia.
Qed.

Lemma decode_corrupt_body f maxd j c rest :
  frame_typed f -> FrameSize (zlen (f_Body f)) <= MaxInt32 ->
  within_limit maxd (FrameSize (zlen (f_Body f))) ->
  (j < length (f_Body f))%nat -> is_u 8 c -> f_Body f !! j <> Some c ->
  exists hc bc,
    DecodeMessageFrameWithLimit (frame_header f ++ <[j:=c]> (f_Body f) ++ rest) maxd
    = (None, FrameSize (zlen (f_Body f)), Some (ErrInvalidCrc hc bc)).
Proof.
  intros (_ & _ & _ & _ & _ & Hbok) Hsize Hlim Hj Hc Hne.
  rewrite frame_header_split, <- app_assoc. do 2 eexists.
  apply decode_bad_crc; try done; [by unfold zlen; rewrite length_insert|].
  rewrite be_get_put_small by (by apply ChecksumIEEE_range).
  destruct (lookup_lt_is_Some_2 (f_Body f) j Hj) as [b Hb].
  rewrite (insert_take_drop _ _ c) by done.
  rewrite <- (take_drop_middle _ _ _ Hb) at 1.
  apply ChecksumIEEE_one_byte; [by rewrite take_drop_middle | done | congruence].
Qed.

(** C38: Changing any one byte of the checksum or body of a frame makes the decoder
    report a checksum error. *)
Theorem decode_corrupt f max maxd bs i c rest :
  frame_typed f ->
  EncodeMessageFrameWithLimit f max = Ok bs ->
  within_limit maxd (zlen bs) ->
  (13 <= i < length bs)%nat -> is_u 8 c -> bs !! i <> Some c ->
  exists headCrc bodyCrc,
    DecodeMessageFrameWithLimit (<[i:=c]> bs ++ rest) maxd
    = (None, zlen bs, Some (ErrInvalidCrc headCrc bodyCrc)).
Proof.
  intros Hty Henc Hlim Hi Hc Hne. apply encode_ok_inv in Henc as (_ & Hsize & _ & ->).
  rewrite zlen_encoded in *. rewrite length_app, length_frame_header in Hi.
  destruct (decide (i < 17)%nat) as [Hlt|Hge].
  - destruct (Nat.le_exists_sub 13 i) as [j [-> _]]; [lia|]. rewrite Nat.add_comm in *.
    rewrite lookup_app_l in Hne by (rewrite length_frame_header; lia).
    rewrite insert_app_l by (rewrite length_frame_header; lia).
    rewrite frame_header_split in *. change 13%nat with (length (header_fields f)) in Hne |- *.
    rewrite lookup_app_r, Nat.add_comm, Nat.add_sub in Hne by lia.
    rewrite insert_app_r, <- !app_assoc. apply decode_corrupt_crc; (done || lia).
  - destruct (Nat.le_exists_sub 17 i) as [j [-> _]]; [lia|]. rewrite Nat.add_comm in *.
    change 17%nat with (length (frame_header f)) in Hne |- *.
    rewrite lookup_app_r, Nat.add_comm, Nat.add_sub in Hne by lia.
    rewrite insert_app_r, <- !app_assoc. apply decode_corrupt_body; (done || lia).
Qed.

(** ** The UDP header and command identifiers *)

(** A UDP header decodes to itself whatever payload follows; session 0 is refused. *)
Theorem udp_header_roundtrip h payload :
  is_u 64 (u_SessionID h) -> is_u 64 (u_Sequence h) ->
  match EncodeUDPHeader h with
  | Ok bs => zlen bs = UDPHeaderLen /\ DecodeUDPHeader (bs ++ payload) = Ok h
  | Err e => u_SessionID h = 0 /\ e = ErrInvalidUDPHeader
  end.
Proof.
  intros Hid Hseq. unfold EncodeUDPHeader. destruct (_ =? 0) eqn:E; zbool; [done|].
  split; [done|]. unfold DecodeUDPHeader.
  rewrite (proj2 (Z.ltb_ge _ _))
    by (rewrite zlen_app; pose proof (zlen_nonneg payload);
        change (zlen (be_put 8 _ ++ _)) with 16; unfold UDPHeaderLen; lia).
  change (slice 0 8 _) with (be_put 8 (u_SessionID h)).
  change (slice 8 16 _) with (be_put 8 (u_Sequence h)).
  rewrite !be_get_put_small by done. simpl. rewrite (proj2 (Z.eqb_neq _ _)) by done.
  by destruct h.
Qed.

(** [uint8(id >> 8)] and [uint8(id)] recover the two halves of a command identifier. *)
Lemma CmdAct_split cmd act :
  is_u 8 cmd -> is_u 8 act ->
  u8 (Z.shiftr (CmdAct cmd act) 8) = cmd /\ u8 (CmdAct cmd act) = act /\ is_u 16 (CmdAct cmd act).
Proof.
  intros Hc Ha. unfold is_u in *. unfold CmdAct.
  rewrite (u16_small cmd), (u16_small act) by (unfold is_u; lia).
  rewrite u16_small by (rewrite Z.shiftl_mul_pow2; unfold is_u; lia).
  rewrite lor_shift_byte by done.
  unfold u8. rewrite Z.shiftr_div_pow2 by lia.
  rewrite Z.div_add_l, (Z.div_small act), Z.add_0_r by lia.
  rewrite Z.mod_small by lia. rewrite Z.add_comm, Z.mod_add, Z.mod_small by lia. lia.
Qed.

Lemma CmdAct_inj c1 a1 c2 a2 :
  is_u 8 c1 -> is_u 8 a1 -> is_u 8 c2 -> is_u 8 a2 ->
  CmdAct c1 a1 = CmdAct c2 a2 -> c1 = c2 /\ a1 = a2.
Proof.
  intros H1 H2 H3 H4 Heq.
  destruct (CmdAct_split c1 a1 H1 H2) as (E1 & E2 & _).
  destruct (CmdAct_split c2 a2 H3 H4) as (E3 & E4 & _). rewrite Heq in *. split; congruence.
Qed.
