(* ===== verification/Codec.v ===== *)
(** * network/codec: the body transform pipeline and the gzip transform

    [Pipeline] (pipeline.go) applies transforms in order and records in a flag
    byte which of them acted; decoding undoes those in reverse order.  [Gzip]
    (zlib.go) is one transform.  compress/gzip is used through the class
    [GzipLib], which states its documented round trip. *)

From S2P Require Import Prelude.

(** errors.go; [ErrTransform] is an error of a transform or of the gzip library. *)
Inductive cerr : Type :=
| ErrInvalidOptions
| ErrInvalidFlag
| ErrDuplicateFlag
| ErrUnknownFlags
| ErrDecodedTooLarge
| ErrTransform (code : Z).

#[export] Instance cerr_eq_dec : EqDecision cerr.
Proof. solve_decision. Defined.

(** ** pipeline.go *)

Definition FlagCompressed : Z := 1.
Definition FlagEncrypted : Z := 2.

(** The [Transform] interface: a value of it is its three methods. *)
Record Transform : Type := mkTransform {
  t_Flag : Z; (* uint8 *)
  t_Encode : list Z -> res cerr (list Z * bool);
  t_Decode : list Z -> res cerr (list Z)
}.

Record Pipeline : Type := mkPipeline {
  transforms : list Transform;
  knownFlags : Z (* uint8 *)
}.

(** [bits.OnesCount8]. *)
Definition OnesCount8 (x : Z) : Z :=
  fold_left (fun n i => n + Z.b2z (Z.testbit x i)) (seqZ 0 8) 0.

(** The loop of [New]; a nil transform is [None]. *)
Fixpoint New_loop (ts : list (option Transform)) (known : Z) : res cerr (list Transform * Z) :=
  match ts with
  | [] => Ok ([], known)
  | None :: _ => Err ErrInvalidFlag
  | Some t :: ts' =>
    if negb (OnesCount8 (t_Flag t) =? 1) then Err ErrInvalidFlag
    else if negb (Z.land known (t_Flag t) =? 0) then Err ErrDuplicateFlag
    else match New_loop ts' (Z.lor known (t_Flag t)) with
         | Ok (l, k) => Ok (t :: l, k)
         | Err e => Err e
         end
  end.

Definition New (ts : list (option Transform)) : res cerr Pipeline :=
  match New_loop ts 0 with
  | Ok (l, k) => Ok (mkPipeline l k)
  | Err e => Err e
  end.

Fixpoint Encode_loop (ts : list Transform) (encoded : list Z) (flags : Z)
  : res cerr (list Z * Z) :=
  match ts with
  | [] => Ok (encoded, flags)
  | t :: ts' =>
    match t_Encode t encoded with
    | Err err => Err err
    | Ok (encoded', applied) =>
      Encode_loop ts' encoded' (if applied then Z.lor flags (t_Flag t) else flags)
    end
  end.

Definition Pipeline_Encode (p : Pipeline) (data : list Z) : res cerr (list Z * Z) :=
  Encode_loop (transforms p) data 0.

(** The loop of [Decode] over the transforms from last to first. *)
Fixpoint Decode_loop (ts : list Transform) (decoded : list Z) (flags : Z)
  : res cerr (list Z) :=
  match ts with
  | [] => Ok decoded
  | t :: ts' =>
    if Z.land flags (t_Flag t) =? 0 then Decode_loop ts' decoded flags
    else match t_Decode t decoded with
         | Err err => Err err
         | Ok decoded' => Decode_loop ts' decoded' flags
         end
  end.

Definition Pipeline_Decode (p : Pipeline) (data : list Z) (flags : Z) : res cerr (list Z) :=
  if negb (Z.land flags (u8 (Z.lnot (knownFlags p))) =? 0) then Err ErrUnknownFlags
  else Decode_loop (rev (transforms p)) data flags.

(** What a transform promises about one input: an applied encoding is undone by
    [Decode], and one reported as not applied left the data alone. *)
Definition transform_law (t : Transform) (x : list Z) : Prop :=
  match t_Encode t x with
  | Ok (y, true) => t_Decode t y = Ok x
  | Ok (y, false) => y = x
  | Err _ => True
  end.

(** The interface a pipeline relies on: the law on every input of a domain. *)
Class LawfulTransform (t : Transform) (dom : list Z -> Prop) : Prop :=
  lawful_transform : forall x, dom x -> transform_law t x.

(** The law at each input the pipeline feeds to its transforms. *)
Fixpoint stages_lawful (ts : list Transform) (x : list Z) : Prop :=
  match ts with
  | [] => True
  | t :: ts' =>
    transform_law t x /\
    match t_Encode t x with Ok (y, _) => stages_lawful ts' y | Err _ => True end
  end.

(** ** zlib.go *)

(** compress/gzip: [gz_deflate level data] is what [Writer.Write] then [Close]
    put in the buffer; [gz_open] is [NewReader]'s error; [gz_inflate] is the
    bytes a reader yields and the error that ends them ([None] for io.EOF). *)
Class GzipLib : Type := {
  gz_deflate : Z -> list Z -> res cerr (list Z);
  gz_open : list Z -> option cerr;
  gz_inflate : list Z -> list Z * option cerr;
  (** A stream written by the package is read back by the package. *)
  gz_roundtrip : forall level data out,
    gz_deflate level data = Ok out ->
    gz_open out = None /\ gz_inflate out = (data, None)
}.

Definition HuffmanOnly : Z := -2.
Definition DefaultCompression : Z := -1.
Definition BestCompression : Z := 9.

Record GzipOptions : Type := mkGzipOptions { o_Level : Z; o_MinSize : Z; o_MaxDecodedSize : Z }.
Record Gzip : Type := mkGzip { g_level : Z; g_minSize : Z; g_maxDecodedSize : Z }.

Definition NewGzip (o : GzipOptions) : res cerr Gzip :=
  if negb (o_Level o =? 0) && ((o_Level o <? HuffmanOnly) || (o_Level o >? BestCompression))
  then Err ErrInvalidOptions
  else if (o_MinSize o <? 0) || (o_MaxDecodedSize o <? 0) then Err ErrInvalidOptions
  else
    let level := if o_Level o =? 0 then DefaultCompression else o_Level o in
    Ok (mkGzip level (o_MinSize o) (o_MaxDecodedSize o)).

(** [io.ReadAll (io.LimitReader r n)]: an error of [r] shows only when it comes
    before the limit is reached. *)
Definition ReadAll_limited (stream : list Z * option cerr) (n : Z) : res cerr (list Z) :=
  let '(out, err) := stream in
  if n <=? zlen out then Ok (take (Z.to_nat n) out)
  else match err with Some e => Err e | None => Ok out end.

Definition ReadAll (stream : list Z * option cerr) : res cerr (list Z) :=
  let '(out, err) := stream in match err with Some e => Err e | None => Ok out end.

Section Gzip.
Context `{GzipLib}.

Definition Gzip_Encode (z : Gzip) (data : list Z) : res cerr (list Z * bool) :=
  if zlen data <? g_minSize z then Ok (data, false)
  else match gz_deflate (g_level z) data with
       | Err err => Err err
       | Ok buf => Ok (buf, true)
       end.

Definition Gzip_Decode (z : Gzip) (data : list Z) : res cerr (list Z) :=
  match gz_open data with
  | Some err => Err err
  | None =>
    let read := if g_maxDecodedSize z >? 0
                then ReadAll_limited (gz_inflate data) (g_maxDecodedSize z + 1)
                else ReadAll (gz_inflate data) in
    match read with
    | Err err => Err err
    | Ok decoded =>
      if (g_maxDecodedSize z >? 0) && (zlen decoded >? g_maxDecodedSize z)
      then Err ErrDecodedTooLarge else Ok decoded
    end
  end.

Definition Gzip_transform (z : Gzip) : Transform :=
  mkTransform FlagCompressed (Gzip_Encode z) (Gzip_Decode z).
End Gzip.

(** ** Flags *)

Definition disjoint_flag (flags f : Z) : Prop := Z.land flags f = 0.

Lemma land_lor_l a b c : Z.land (Z.lor a b) c = Z.lor (Z.land a c) (Z.land b c).
Proof. by rewrite !(Z.land_comm _ c), Z.land_lor_distr_r. Qed.

Lemma OnesCount8_0 : OnesCount8 0 = 0.
Proof. done. Qed.

(** What [New] guarantees of the flags: nonzero, disjoint from those before, and collected. *)
Fixpoint flags_ok (ts : list Transform) (known : Z) : Prop :=
  match ts with
  | [] => True
  | t :: ts' =>
    t_Flag t <> 0 /\ disjoint_flag known (t_Flag t) /\ flags_ok ts' (Z.lor known (t_Flag t))
  end.

Definition collect (ts : list Transform) (known : Z) : Z :=
  fold_left (fun k t => Z.lor k (t_Flag t)) ts known.

Lemma New_loop_spec ts known l k :
  New_loop ts known = Ok (l, k) ->
  ts = map Some l /\ flags_ok l known /\ k = collect l known.
Proof.
  revert known l k. induction ts as [|[t|] ts IH]; intros known l k; simpl; [by intros [= <- <-]| |done].
  destruct (negb (OnesCount8 _ =? 1)) eqn:H1; [done|].
  destruct (negb (Z.land _ _ =? 0)) eqn:H2; [done|]. zbool.
  destruct (New_loop ts _) as [[l' k']|] eqn:E; [|done]. intros [= <- <-].
  apply IH in E as (-> & Hf & ->). split_and!; try done.
  simpl. split_and!; try done. intros Hz. rewrite Hz in H1. done.
Qed.

(** Every later flag is disjoint from what is known. *)
Lemma flags_ok_disjoint ts known t :
  flags_ok ts known -> t ∈ ts -> disjoint_flag known (t_Flag t).
Proof.
  revert known. induction ts as [|t' ts IH]; intros known Hf Hin; [set_solver|].
  simpl in Hf. destruct Hf as (_ & Hd & Hf). apply elem_of_cons in Hin as [->|Hin]; [done|].
  specialize (IH _ Hf Hin). unfold disjoint_flag in *. rewrite land_lor_l in IH.
  by apply Z.lor_eq_0_iff in IH as [? _].
Qed.

Lemma flags_ok_head ts known t t' :
  flags_ok (t :: ts) known -> t' ∈ ts -> disjoint_flag (t_Flag t) (t_Flag t').
Proof.
  simpl. intros (_ & _ & Hf) Hin. pose proof (flags_ok_disjoint _ _ _ Hf Hin) as H.
  unfold disjoint_flag in *. rewrite land_lor_l in H. by apply Z.lor_eq_0_iff in H as [_ ?].
Qed.

(** The encoder only adds flags of its transforms. *)
Lemma Encode_loop_flags ts x fl y fl' g :
  Encode_loop ts x fl = Ok (y, fl') ->
  (forall t, t ∈ ts -> disjoint_flag (t_Flag t) g) ->
  Z.land fl' g = Z.land fl g.
Proof.
  revert x fl. induction ts as [|t ts IH]; intros x fl; simpl; [by intros [= <- <-]|].
  destruct (t_Encode t x) as [[z applied]|]; [|done]. intros Henc Hg.
  rewrite (IH _ _ Henc) by set_solver. destruct applied; [|done].
  rewrite land_lor_l, (Hg t) by set_solver. by rewrite Z.lor_0_r.
Qed.

Lemma Decode_loop_app ts1 ts2 x fl :
  Decode_loop (ts1 ++ ts2) x fl
  = match Decode_loop ts1 x fl with Ok y => Decode_loop ts2 y fl | Err e => Err e end.
Proof.
  revert x. induction ts1 as [|t ts IH]; intros x; simpl; [done|].
  destruct (_ =? 0); [apply IH|]. by destruct (t_Decode t x).
Qed.

Lemma disjoint_flag_comm a b : disjoint_flag a b -> disjoint_flag b a.
Proof. unfold disjoint_flag. by rewrite Z.land_comm. Qed.

(** Decoding in reverse order undoes the encoding loop. *)
Lemma Decode_Encode_loop ts x fl y fl' known :
  flags_ok ts known -> (forall t, t ∈ ts -> disjoint_flag fl (t_Flag t)) ->
  stages_lawful ts x -> Encode_loop ts x fl = Ok (y, fl') ->
  Decode_loop (rev ts) y fl' = Ok x.
Proof.
  revert x fl known. induction ts as [|t ts IH]; intros x fl known Hf Hfl Hlaw;
    simpl; [by intros [= <- <-]|].
  destruct Hlaw as [Hl Hrest]. unfold transform_law in Hl.
  destruct (t_Encode t x) as [[z applied]|]; [|done]. intros Henc.
  pose proof (fun t' => flags_ok_head _ _ _ t' Hf) as Hhd.
  rewrite Decode_loop_app.
  rewrite (IH z (if applied then Z.lor fl (t_Flag t) else fl) (Z.lor known (t_Flag t)));
    [|by destruct Hf as (_ & _ & ?)| |done|done].
  - pose proof (Encode_loop_flags _ _ _ _ _ (t_Flag t) Henc) as Hland.
    simpl. rewrite Hland by (intros; apply disjoint_flag_comm; auto).
    pose proof (Hfl t ltac:(set_solver)) as H0. unfold disjoint_flag in H0.
    destruct applied.
    + rewrite land_lor_l, H0, Z.land_diag, Z.lor_0_l.
      destruct Hf as (Hnz & _). rewrite (proj2 (Z.eqb_neq _ _) Hnz). by rewrite Hl.
    + rewrite H0. simpl. congruence.
  - intros t' Hin. specialize (Hhd t' Hin).
    pose proof (Hfl t' ltac:(set_solver)) as H0. unfold disjoint_flag in *.
    destruct applied; [|done]. by rewrite land_lor_l, H0, Hhd.
Qed.

(** The flags of the encoder are all known to the decoder. *)
Lemma Encode_loop_known ts x fl y fl' known :
  Encode_loop ts x fl = Ok (y, fl') -> Z.ldiff fl known = 0 ->
  Z.ldiff fl' (collect ts known) = 0.
Proof.
  unfold collect. revert x fl known. induction ts as [|t ts IH]; intros x fl known; simpl;
    [by intros [= <- <-]|].
  destruct (t_Encode t x) as [[z applied]|]; [|done]. intros Henc Hd.
  apply (IH _ _ _ Henc). apply Z.bits_inj'. intros n Hn.
  apply (f_equal (fun v => Z.testbit v n)) in Hd. rewrite Z.ldiff_spec, Z.bits_0 in *.
  destruct applied; rewrite ?Z.lor_spec;
    destruct (Z.testbit fl n), (Z.testbit known n), (Z.testbit (t_Flag t) n); done.
Qed.

(** Decoding undoes encoding, given the flags the encoder returned. *)
Lemma Pipeline_Decode_Encode ts p x y flags :
  New ts = Ok p -> stages_lawful (transforms p) x ->
  Pipeline_Encode p x = Ok (y, flags) ->
  Pipeline_Decode p y flags = Ok x.
Proof.
  unfold New, Pipeline_Encode, Pipeline_Decode.
  destruct (New_loop ts 0) as [[l k]|] eqn:E; [|done]. intros [= <-] Hlaw Henc. simpl in *.
  apply New_loop_spec in E as (_ & Hf & ->).
  assert (Hk : Z.land flags (u8 (Z.lnot (collect l 0))) = 0).
  { unfold u8. rewrite <- Z.land_ones, Z.land_assoc by lia.
    rewrite <- Z.ldiff_land, (Encode_loop_known _ _ _ _ _ _ Henc); done. }
  rewrite Hk. simpl. apply (Decode_Encode_loop _ _ 0 _ _ 0); try done.
Qed.

(** A pipeline decodes what it encoded, and sets only flags it knows, when its
    transforms are lawful on the data they see. *)
Theorem pipeline_roundtrip ts p x y flags :
  New ts = Ok p -> stages_lawful (transforms p) x ->
  Pipeline_Encode p x = Ok (y, flags) ->
  Pipeline_Decode p y flags = Ok x /\ Z.ldiff flags (knownFlags p) = 0.
Proof.
  intros Hn Hl He. split; [by eapply Pipeline_Decode_Encode|].
  unfold New in Hn. destruct (New_loop ts 0) as [[l k]|] eqn:E; [|done]. injection Hn as <-.
  apply New_loop_spec in E as (_ & _ & ->). by eapply Encode_loop_known.
Qed.

(** ** Gzip is a lawful transform *)

Section GzipLaws.
Context `{GzipLib}.

(** The inputs a receiver with the same options will accept. *)
Definition gzip_domain (z : Gzip) (x : list Z) : Prop :=
  g_maxDecodedSize z <= 0 \/ zlen x <= g_maxDecodedSize z.

Lemma Gzip_Decode_deflate z x out :
  gz_deflate (g_level z) x = Ok out ->
  Gzip_Decode z out
  = if (g_maxDecodedSize z >? 0) && (zlen x >? g_maxDecodedSize z)
    then Err ErrDecodedTooLarge else Ok x.
Proof.
  intros Hd. apply gz_roundtrip in Hd as [Hopen Hinf].
  unfold Gzip_Decode. rewrite Hopen, Hinf. pose proof (zlen_nonneg x).
  rewrite !Z.gtb_ltb. destruct (0 <? g_maxDecodedSize z) eqn:E; simpl; [|done]. zbool.
  destruct (_ <=? _) eqn:E2; zbool.
  - rewrite zlen_take, !Z.gtb_ltb by lia. by rewrite !(proj2 (Z.ltb_lt _ _)) by lia.
  - by rewrite Z.gtb_ltb.
Qed.

#[export] Instance Gzip_lawful z : LawfulTransform (Gzip_transform z) (gzip_domain z).
Proof.
  intros x Hx. unfold transform_law. simpl. unfold Gzip_Encode.
  destruct (_ <? _); [done|].
  destruct (gz_deflate _ x) as [out|] eqn:E; [|done].
  rewrite (Gzip_Decode_deflate _ _ _ E). unfold gzip_domain in Hx.
  rewrite !Z.gtb_ltb. destruct (_ && _) eqn:E2; [zbool; lia|done].
Qed.
End GzipLaws.
