(* ===== verification/Cipher.v ===== *)
(** * network/encrypt: the ECDH cipher

    The byte transform of ecdh_cipher.go keyed by a 32-byte shared key, and the
    key agreement that produces it.  X25519 and HKDF are used through the class
    [KeyAgreement], which states that both sides derive the same key. *)

From S2P Require Import Prelude.

Definition aesKeySize : Z := 32.

(** [ErrCrypto] is an error of crypto/ecdh or crypto/hkdf. *)
Inductive eerr : Type := ErrInvalidKey | ErrCrypto.
#[export] Instance eerr_eq_dec : EqDecision eerr.
Proof. solve_decision. Defined.

Record ECDHCipher : Type := mkCipher {
  privateKey : list Z; publicKey : list Z; sharedKey : list Z
}.

(** [p.sharedKey[i % 32]] *)
Definition key_at (key : list Z) (i : Z) : Z := nth (Z.to_nat (i mod aesKeySize)) key 0.

(** One iteration of the loop of [crypt], at index [i]. *)
Definition crypt_byte (key : list Z) (decrypt : bool) (i value : Z) : Z :=
  let a := key_at key i in
  let b := key_at key (i + 13) in
  if decrypt then u8 (Z.rem (Z.lxor value b - a + 256) 256)
  else Z.lxor (u8 (Z.rem (value + a) 256)) b.

Definition crypt (p : ECDHCipher) (input : list Z) (decrypt : bool) : res eerr (list Z) :=
  if negb (zlen (sharedKey p) =? aesKeySize) then Err ErrInvalidKey
  else Ok (imap (fun i value => crypt_byte (sharedKey p) decrypt (Z.of_nat i) value) input).

Definition Encrypt (p : ECDHCipher) (plaintext : list Z) := crypt p plaintext false.
Definition Decrypt (p : ECDHCipher) (ciphertext : list Z) := crypt p ciphertext true.

(** crypto/ecdh and crypto/hkdf: [ka_generate seed] is a fresh private key and
    its public key or the error of GenerateKey, [ka_derive priv peer] the 32 bytes HKDF yields from their
    X25519 secret, or an error for a key that is not a valid point or scalar.
    The law is the Diffie-Hellman property. *)
Class KeyAgreement : Type := {
  ka_generate : Z -> res eerr (list Z * list Z);
  ka_derive : list Z -> list Z -> res eerr (list Z);
  ka_agree : forall s1 s2 priv1 pub1 priv2 pub2,
    ka_generate s1 = Ok (priv1, pub1) -> ka_generate s2 = Ok (priv2, pub2) ->
    ka_derive priv1 pub2 = ka_derive priv2 pub1;
  ka_pub_bytes : forall s priv pub, ka_generate s = Ok (priv, pub) -> bytes_ok pub;
  ka_size : forall priv pub key,
    ka_derive priv pub = Ok key -> zlen key = aesKeySize /\ bytes_ok key
}.

Section KeyExchange.
Context `{KeyAgreement}.

Definition NewECDHCipher (seed : Z) : res eerr ECDHCipher :=
  match ka_generate seed with
  | Err err => Err err
  | Ok (priv, pub) => Ok (mkCipher priv pub [])
  end.

Definition GenerateSharedKey (p : ECDHCipher) (peerPublicKey : list Z) : res eerr ECDHCipher :=
  match ka_derive (privateKey p) peerPublicKey with
  | Err err => Err err
  | Ok key => Ok (mkCipher (privateKey p) (publicKey p) key)
  end.
End KeyExchange.

(** ** The transform is a bijection on byte strings *)

Lemma lxor_u8 a b : is_u 8 a -> is_u 8 b -> is_u 8 (Z.lxor a b).
Proof.
  intros Ha Hb. assert (Hm : Z.lxor a b = Z.lxor a b mod 2 ^ 8).
  { rewrite <- Z.land_ones by lia. rewrite <- (Z.mod_small a (2 ^ 8)) at 1 by done.
    rewrite <- (Z.mod_small b (2 ^ 8)) at 1 by done.
    rewrite <- !Z.land_ones by lia. apply Z.bits_inj'. intros n Hn.
    rewrite ?Z.land_spec, ?Z.lxor_spec, ?Z.land_spec.
    by destruct (Z.testbit a n), (Z.testbit b n), (Z.testbit (Z.ones 8) n). }
  rewrite Hm. apply Z.mod_pos_bound. lia.
Qed.
#[export] Hint Resolve lxor_u8 : machine.

Lemma key_at_byte key i : bytes_ok key -> zlen key = aesKeySize -> is_u 8 (key_at key i).
Proof.
  intros Hok Hlen. unfold key_at, aesKeySize, zlen in *.
  pose proof (Z.mod_pos_bound i 32 ltac:(lia)).
  destruct (nth_lookup_or_length key (Z.to_nat (i mod 32)) 0) as [Hl|]; [|lia].
  by apply (Forall_lookup_1 _ _ _ _ Hok) in Hl.
Qed.

Lemma crypt_byte_range key d i v :
  bytes_ok key -> zlen key = aesKeySize -> is_u 8 v -> is_u 8 (crypt_byte key d i v).
Proof. intros. unfold crypt_byte. destruct d; auto using key_at_byte with machine. Qed.

Lemma u8_rem z : 0 <= z -> u8 (Z.rem z 256) = z mod 256.
Proof.
  intros H. unfold u8. change (2 ^ 8) with 256.
  by rewrite Z.rem_mod_nonneg, Zmod_mod by lia.
Qed.

Lemma mod_undo_add x a : is_u 8 x -> ((x - a + 256) mod 256 + a) mod 256 = x.
Proof.
  intros Hx. rewrite Zplus_mod_idemp_l.
  replace (x - a + 256 + a) with (x + 1 * 256) by lia.
  unfold is_u in Hx. by rewrite Z.mod_add, Z.mod_small by lia.
Qed.

Lemma mod_undo_sub x a : is_u 8 x -> ((x + a) mod 256 - a + 256) mod 256 = x.
Proof.
  intros Hx. replace ((x + a) mod 256 - a + 256) with ((x + a) mod 256 + (256 - a)) by lia.
  rewrite Zplus_mod_idemp_l. replace (x + a + (256 - a)) with (x + 1 * 256) by lia.
  unfold is_u in Hx. by rewrite Z.mod_add, Z.mod_small by lia.
Qed.

Lemma lxor_twice a b : Z.lxor (Z.lxor a b) b = a.
Proof. by rewrite Z.lxor_assoc, Z.lxor_nilpotent, Z.lxor_0_r. Qed.

(** Both compositions of the two directions are the identity on bytes. *)
Lemma crypt_byte_inv key d i v :
  bytes_ok key -> zlen key = aesKeySize -> is_u 8 v ->
  crypt_byte key (negb d) i (crypt_byte key d i v) = v.
Proof.
  intros Hok Hlen Hv. unfold crypt_byte.
  pose proof (key_at_byte key i Hok Hlen) as Ha.
  pose proof (key_at_byte key (i + 13) Hok Hlen) as Hb.
  set (a := key_at key i) in *. set (b := key_at key (i + 13)) in *.
  destruct d; cbn [negb].
  - pose proof (lxor_u8 v b Hv Hb) as Hx. pose proof (Z.mod_pos_bound (Z.lxor v b - a + 256) 256).
    unfold is_u in Ha, Hx. rewrite !u8_rem by (rewrite ?u8_rem; lia).
    rewrite mod_undo_add by done. apply lxor_twice.
  - pose proof (Z.mod_pos_bound (v + a) 256). unfold is_u in Ha, Hv.
    rewrite lxor_twice, !u8_rem by (rewrite ?u8_rem; lia). by apply mod_undo_sub.
Qed.

(** Deciphering what was enciphered, at the same key. *)
Lemma crypt_inverse p input d out :
  bytes_ok (sharedKey p) -> bytes_ok input -> crypt p input d = Ok out ->
  bytes_ok out /\ zlen out = zlen input /\ crypt p out (negb d) = Ok input.
Proof.
  intros Hkey Hin. unfold crypt.
  destruct (zlen (sharedKey p) =? aesKeySize) eqn:E; simpl; zbool; [|done]. intros [= <-].
  split_and!.
  - apply Forall_lookup. intros i x Hx. apply list_lookup_imap_Some in Hx as (v & Hv & ->).
    apply crypt_byte_range; try done. by apply (Forall_lookup_1 _ _ _ _ Hin) in Hv.
  - unfold zlen. by rewrite length_imap.
  - f_equal. apply list_eq. intros i. rewrite !list_lookup_imap.
    destruct (input !! i) as [v|] eqn:Hv; [|done]. simpl. f_equal.
    apply crypt_byte_inv; try done. by apply (Forall_lookup_1 _ _ _ _ Hin) in Hv.
Qed.

(** The cipher's two directions are inverse byte transforms of the same length, and
    a key of the wrong size is an error. *)
Theorem crypt_bijection p input d :
  bytes_ok (sharedKey p) -> bytes_ok input ->
  match crypt p input d with
  | Ok out => zlen (sharedKey p) = aesKeySize /\ bytes_ok out /\ zlen out = zlen input /\
              crypt p out (negb d) = Ok input
  | Err e => zlen (sharedKey p) <> aesKeySize /\ e = ErrInvalidKey
  end.
Proof.
  intros Hkey Hin. destruct (crypt p input d) as [out|e] eqn:E.
  - split; [|by apply crypt_inverse]. unfold crypt in E.
    by destruct (zlen (sharedKey p) =? aesKeySize) eqn:El; zbool.
  - unfold crypt in E. destruct (zlen (sharedKey p) =? aesKeySize) eqn:El; simpl in E; simplify_eq; zbool; done.
Qed.
