(* ===== verification/Snowflake.v ===== *)
(** * pkg/snowflake: 63-bit identifiers from a clock

    [New], [GenId] with its wait for the next millisecond, and the three field
    decoders of snowflake.go.  Instants are nanoseconds since the Unix epoch;
    [GenId] reads the clock as often as the code does, so it takes the list of
    readings (in Unix milliseconds) that successive [time.Now] calls return. *)

From S2P Require Import Prelude.

Definition totalBitLength : Z := 63.

Record Config : Type := mkConfig {
  TimestampBits : Z; MachineIDBits : Z; SequenceBits : Z; (* int *)
  MachineID : Z; (* int64 *)
  StartTime : Z  (* time.Time *)
}.

Definition zeroTime : Z := -62135596800 * 10 ^ 9.
Definition UnixMilli (t : Z) : Z := t / 10 ^ 6.
(** [time.Since(t).Milliseconds()]; a Duration saturates at 2^63-1 ns. *)
Definition SinceMillis (now t : Z) : Z := Z.quot (Z.max (- 2 ^ 63) (Z.min (2 ^ 63 - 1) (now - t))) (10 ^ 6).

(** 2022-01-01T00:00:00Z *)
Definition DefaultConfig : Config := mkConfig 41 12 10 0 (1640995200 * 10 ^ 9).

Record SnowFlake : Type := mkSnowFlake {
  timestampBits : Z; machineIDBits : Z; sequenceBits : Z;
  maxTimestamp : Z; maxMachineID : Z; maxSequence : Z;
  shiftMachineID : Z; shiftTimestamp : Z;
  machineID : Z; offsetTime : Z;
  lastTime : Z; lastSeq : Z
}.

Inductive snerr : Type :=
| ErrBitsNotPositive | ErrBitsSum | ErrStartZero | ErrStartFuture | ErrBitsTooLarge
| ErrMachineID | ErrStartRange.

Definition New (config : Config) (now : Z) : res snerr SnowFlake :=
  let tb := TimestampBits config in
  let mb := MachineIDBits config in
  let sb := SequenceBits config in
  if (tb <=? 0) || (mb <=? 0) || (sb <=? 0) then Err ErrBitsNotPositive
  else if negb (s64 (s64 (tb + mb) + sb) =? totalBitLength) then Err ErrBitsSum
  else if StartTime config =? zeroTime then Err ErrStartZero
  else if StartTime config >? now then Err ErrStartFuture
  else if (tb >=? 63) || (mb >=? 63) || (sb >=? 63) then Err ErrBitsTooLarge
  else
    let s := mkSnowFlake tb mb sb
               (s64 (Z.shiftl 1 tb) - 1) (s64 (Z.shiftl 1 mb) - 1) (s64 (Z.shiftl 1 sb) - 1)
               sb (sb + mb) (MachineID config) (UnixMilli (StartTime config)) 0 0 in
    if (MachineID config <? 0) || (MachineID config >? maxMachineID s) then Err ErrMachineID
    else if SinceMillis now (StartTime config) >? maxTimestamp s then Err ErrStartRange
    else Ok s.

Definition with_last (s : SnowFlake) (t q : Z) : SnowFlake :=
  mkSnowFlake (timestampBits s) (machineIDBits s) (sequenceBits s)
    (maxTimestamp s) (maxMachineID s) (maxSequence s) (shiftMachineID s) (shiftTimestamp s)
    (machineID s) (offsetTime s) t q.

(** The int64 expression that packs the fields. *)
Definition pack (s : SnowFlake) (now seq : Z) : Z :=
  Z.lor (Z.lor (s64 (Z.shiftl (s64 (now - offsetTime s)) (shiftTimestamp s)))
               (s64 (Z.shiftl (machineID s) (shiftMachineID s)))) seq.

(** The critical section of one round of the loop of [GenId]: an id and the new
    state, or the need to wait past [lastTime]. *)
Definition GenId_attempt (s : SnowFlake) (reading : Z) : option (Z * SnowFlake) :=
  let now := if reading <? lastTime s then lastTime s else reading in
  if now =? lastTime s then
    if lastSeq s >=? maxSequence s then None
    else let seq := lastSeq s + 1 in Some (pack s now seq, with_last s now seq)
  else Some (pack s now 0, with_last s now 0).

(** [GenId] over the readings still to come; [waiting] holds inside
    [waitForMillis].  [None] when the readings given do not suffice. *)
Fixpoint GenId_loop (s : SnowFlake) (waiting : bool) (clock : list Z)
  : option (Z * SnowFlake * list Z) :=
  match clock with
  | [] => None
  | now :: clock' =>
    if waiting then GenId_loop s (now <=? lastTime s) clock'
    else match GenId_attempt s now with
         | Some (id, s') => Some (id, s', clock')
         | None => GenId_loop s true clock'
         end
  end.

Definition GenId (s : SnowFlake) (clock : list Z) : option (Z * SnowFlake * list Z) :=
  GenId_loop s false clock.

(** [n] successive calls. *)
Fixpoint GenIds (n : nat) (s : SnowFlake) (clock : list Z) : option (list Z * SnowFlake) :=
  match n with
  | O => Some ([], s)
  | S n' =>
    match GenId s clock with
    | None => None
    | Some (id, s', clock') =>
      match GenIds n' s' clock' with
      | Some (ids, s'') => Some (id :: ids, s'')
      | None => None
      end
    end
  end.

Definition ParseIdToTimestamp (s : SnowFlake) (id : Z) : Z :=
  s64 (Z.shiftr id (shiftTimestamp s) + offsetTime s).
Definition ParseIdToMachineId (s : SnowFlake) (id : Z) : Z :=
  s32 (Z.land (Z.shiftr id (sequenceBits s)) (maxMachineID s)).
Definition ParseIdToSequence (s : SnowFlake) (id : Z) : Z :=
  s32 (Z.land id (maxSequence s)).

(** ** Well-formed generators *)

Record sf_wf (s : SnowFlake) : Prop := {
  wf_pos : 0 < timestampBits s /\ 0 < machineIDBits s /\ 0 < sequenceBits s;
  wf_sum : timestampBits s + machineIDBits s + sequenceBits s = 63;
  wf_maxT : maxTimestamp s = 2 ^ timestampBits s - 1;
  wf_maxM : maxMachineID s = 2 ^ machineIDBits s - 1;
  wf_maxS : maxSequence s = 2 ^ sequenceBits s - 1;
  wf_sm : shiftMachineID s = sequenceBits s;
  wf_st : shiftTimestamp s = sequenceBits s + machineIDBits s;
  wf_machine : 0 <= machineID s < 2 ^ machineIDBits s;
  wf_seq : 0 <= lastSeq s <= maxSequence s
}.

Lemma pow_pos n : 0 <= n -> 0 < 2 ^ n.
Proof. intros. apply Z.pow_pos_nonneg; lia. Qed.

Lemma New_wf config now s : New config now = Ok s -> sf_wf s /\ lastTime s = 0 /\ lastSeq s = 0.
Proof.
  unfold New. intros H.
  repeat (match type of H with context [if ?b then Err _ else _] => destruct b eqn:? end; [done|]).
  rewrite ?Z.geb_leb in *. zbool. rewrite ?Z.geb_leb in *. zbool. injection H as <-.
  destruct config as [tb mb sb mid st]; cbn in *.
  assert (Hsum : s64 (s64 (tb + mb) + sb) = tb + mb + sb)
    by (rewrite (s64_small (tb + mb)), s64_small; lia).
  unfold totalBitLength in *.
  assert (Hp : forall b, 0 < b < 63 -> s64 (Z.shiftl 1 b) - 1 = 2 ^ b - 1).
  { intros b Hb. rewrite Z.shiftl_1_l. rewrite s64_small; [done|].
    pose proof (pow_pos b). pose proof (Z.pow_lt_mono_r 2 b 63). lia. }
  rewrite !Hp in * by lia.
  repeat split; cbn; lia.
Qed.

(** ** The packed identifier is an arithmetic combination of its fields *)

Definition tick (s : SnowFlake) (t : Z) : Prop := offsetTime s <= t <= offsetTime s + maxTimestamp s.

Lemma pack_arith s t q :
  sf_wf s -> tick s t -> 0 <= q <= maxSequence s ->
  pack s t q = (t - offsetTime s) * 2 ^ shiftTimestamp s + machineID s * 2 ^ shiftMachineID s + q
  /\ 0 <= pack s t q < 2 ^ 63.
Proof.
  intros [(H1 & H2 & H3) Hsum HT HM HS Hsm Hst Hm _] Ht Hq.
  unfold tick, pack in *. rewrite HT in Ht. rewrite HS in Hq. rewrite Hsm, Hst.
  remember (t - offsetTime s) as a eqn:Ea.
  assert (Ha0 : 0 <= a <= 2 ^ timestampBits s - 1) by lia. clear Ht.
  set (tb := timestampBits s) in *. set (mb := machineIDBits s) in *. set (sb := sequenceBits s) in *.
  set (m := machineID s) in *.
  assert (E63 : 2 ^ 63 = 2 ^ tb * (2 ^ mb * 2 ^ sb)) by (rewrite <- !Z.pow_add_r by lia; f_equal; lia).
  assert (Est : 2 ^ (sb + mb) = 2 ^ mb * 2 ^ sb) by (rewrite <- Z.pow_add_r by lia; f_equal; lia).
  pose proof (pow_pos tb ltac:(lia)). pose proof (pow_pos mb ltac:(lia)).
  pose proof (pow_pos sb ltac:(lia)).
  assert (Hlow : 0 <= m * 2 ^ sb + q < 2 ^ (sb + mb)) by (rewrite Est; nia).
  assert (Hall : 0 <= a * 2 ^ (sb + mb) + (m * 2 ^ sb + q) < 2 ^ 63).
  { rewrite E63, <- Est. split; [nia|].
    apply Z.lt_le_trans with ((a + 1) * 2 ^ (sb + mb)); [lia|].
    apply Z.mul_le_mono_nonneg_r; [apply Z.pow_nonneg|]; lia. }
  assert (Ha : 0 <= a * 2 ^ (sb + mb) < 2 ^ 63) by nia.
  assert (a < 2 ^ 63) by (pose proof (Z.pow_le_mono_r 2 tb 63); lia).
  assert (m * 2 ^ sb < 2 ^ 63) by nia.
  assert (0 <= m * 2 ^ sb) by nia.
  rewrite !Z.shiftl_mul_pow2 by lia. rewrite (s64_small a) by lia.
  rewrite (s64_small (a * _)) by lia. rewrite (s64_small (m * _)) by lia.
  rewrite <- Z.lor_assoc.
  rewrite <- (Z.shiftl_mul_pow2 m sb), (lor_shift m q sb) by lia.
  rewrite <- (Z.shiftl_mul_pow2 a (sb + mb)), lor_shift by lia.
  rewrite !Z.shiftl_mul_pow2 by lia. lia.
Qed.

Lemma mod_fields a m q tb mb sb :
  0 < mb -> 0 < sb -> 0 <= m < 2 ^ mb -> 0 <= q < 2 ^ sb ->
  let id := a * 2 ^ (sb + mb) + m * 2 ^ sb + q in
  tb = sb + mb ->
  id / 2 ^ tb = a /\ (id / 2 ^ sb) mod 2 ^ mb = m /\ id mod 2 ^ sb = q.
Proof.
  intros Hmb Hsb Hm Hq id ->. pose proof (pow_pos mb ltac:(lia)). pose proof (pow_pos sb ltac:(lia)).
  assert (E : 2 ^ (sb + mb) = 2 ^ mb * 2 ^ sb) by (rewrite <- Z.pow_add_r by lia; f_equal; lia).
  assert (Eid : id = (a * 2 ^ mb + m) * 2 ^ sb + q) by (unfold id; rewrite E; lia).
  split_and!.
  - unfold id. rewrite <- Z.add_assoc, Z.div_add_l, Z.div_small by (rewrite ?E; nia). lia.
  - rewrite Eid, Z.div_add_l, (Z.div_small q) by lia.
    rewrite Z.add_0_r, Z.add_comm, Z.mod_add by lia. by apply Z.mod_small.
  - rewrite Eid, Z.add_comm, Z.mod_add by lia. by apply Z.mod_small.
Qed.

(** The decoders recover timestamp, machine and sequence from a packed id. *)
Theorem parse_pack s t q :
  sf_wf s -> tick s t -> 0 <= q <= maxSequence s ->
  -2 ^ 63 <= t < 2 ^ 63 -> machineIDBits s <= 31 -> sequenceBits s <= 31 ->
  ParseIdToTimestamp s (pack s t q) = t /\
  ParseIdToMachineId s (pack s t q) = machineID s /\
  ParseIdToSequence s (pack s t q) = q.
Proof.
  intros Hwf Ht Hq H64 Hmb Hsb. destruct (pack_arith s t q Hwf Ht Hq) as [-> _].
  destruct Hwf as [(H1 & H2 & H3) Hsum HT HM HS Hsm Hst Hm _].
  unfold ParseIdToTimestamp, ParseIdToMachineId, ParseIdToSequence.
  rewrite HM, HS in *. rewrite Hsm, Hst. rewrite !Z.shiftr_div_pow2 by lia.
  replace (2 ^ machineIDBits s - 1) with (Z.ones (machineIDBits s)) by (rewrite Z.ones_equiv; lia).
  replace (2 ^ sequenceBits s - 1) with (Z.ones (sequenceBits s)) by (rewrite Z.ones_equiv; lia).
  rewrite !Z.land_ones by lia.
  destruct (mod_fields (t - offsetTime s) (machineID s) q (sequenceBits s + machineIDBits s)
              (machineIDBits s) (sequenceBits s)) as (E1 & E2 & E3); try lia.
  rewrite E1, E2, E3.
  pose proof (Z.pow_le_mono_r 2 (machineIDBits s) 31). pose proof (Z.pow_le_mono_r 2 (sequenceBits s) 31).
  rewrite s64_small, !s32_small by lia. lia.
Qed.

(** ** Successive identifiers *)

(** The state after a call: its last id, as the fields say. *)
Definition last_id (s : SnowFlake) : Z := pack s (lastTime s) (lastSeq s).

Definition same_config (s s' : SnowFlake) : Prop := s' = with_last s (lastTime s') (lastSeq s').

Lemma with_last_wf s t q : sf_wf s -> 0 <= q <= maxSequence s -> sf_wf (with_last s t q).
Proof. intros [] Hq. by constructor. Qed.

Lemma GenId_loop_spec s w clock id s' rest :
  sf_wf s -> GenId_loop s w clock = Some (id, s', rest) ->
  same_config s s' /\ sf_wf s' /\ id = last_id s' /\
  (exists r, r ∈ clock /\ lastTime s' = Z.max r (lastTime s)) /\
  (lastTime s < lastTime s' \/ (lastTime s = lastTime s' /\ lastSeq s < lastSeq s')) /\
  (exists used, clock = used ++ rest).
Proof.
  intros Hwf. revert w. induction clock as [|now clock IH]; intros w; simpl; [done|].
  assert (Hrec : forall w, GenId_loop s w clock = Some (id, s', rest) -> _) by exact IH.
  assert (Hlift : forall w, GenId_loop s w clock = Some (id, s', rest) ->
    same_config s s' /\ sf_wf s' /\ id = last_id s' /\
    (exists r, r ∈ now :: clock /\ lastTime s' = Z.max r (lastTime s)) /\
    (lastTime s < lastTime s' \/ (lastTime s = lastTime s' /\ lastSeq s < lastSeq s')) /\
    (exists used, now :: clock = used ++ rest)).
  { intros w' H. destruct (IH w' H) as (?&?&?&(r&?&?)&?&(used&->)).
    split_and!; try done; [exists r; set_solver|by exists (now :: used)]. }
  destruct w; [apply Hlift|]. clear IH Hrec.
  destruct (GenId_attempt s now) as [[id' s'']|] eqn:E; [|apply Hlift].
  intros [= -> -> ->]. clear Hlift. pose proof (wf_seq _ Hwf) as Hseq. unfold GenId_attempt in E.
  set (n := if now <? lastTime s then lastTime s else now) in *.
  assert (Hn : n = Z.max now (lastTime s)) by (unfold n; destruct (_ <? _) eqn:?; zbool; lia).
  destruct (n =? lastTime s) eqn:En; [destruct (lastSeq s >=? maxSequence s) eqn:Es; [done|]|];
    injection E as <- <-; rewrite ?Z.geb_leb in *; zbool;
    split_and!; try done; try (apply with_last_wf; [done|lia]);
    try (exists now; split; [set_solver|done]); try (by exists [now]); cbn; lia.
Qed.

Lemma pack_lt s t q t' q' :
  sf_wf s -> tick s t -> tick s t' ->
  0 <= q <= maxSequence s -> 0 <= q' <= maxSequence s ->
  t < t' \/ (t = t' /\ q < q') -> pack s t q < pack s t' q'.
Proof.
  intros Hwf Ht Ht' Hq Hq' Hlt.
  destruct (pack_arith s t q) as [-> _]; try done.
  destruct (pack_arith s t' q') as [-> _]; try done.
  destruct Hwf as [(H1 & H2 & H3) Hsum HT HM HS Hsm Hst Hm _].
  destruct Hlt as [Hl|[-> Hl]]; [|lia]. rewrite Hsm, Hst, HS in *.
  assert (E : 2 ^ (sequenceBits s + machineIDBits s) = 2 ^ machineIDBits s * 2 ^ sequenceBits s)
    by (rewrite <- Z.pow_add_r by lia; f_equal; lia).
  rewrite E. pose proof (pow_pos (sequenceBits s) ltac:(lia)).
  pose proof (pow_pos (machineIDBits s) ltac:(lia)). nia.
Qed.

Lemma same_config_pack s s' t q : same_config s s' -> pack s' t q = pack s t q.
Proof. intros H. by rewrite H. Qed.

Lemma same_config_bounds s s' :
  same_config s s' ->
  (offsetTime s' = offsetTime s /\ maxTimestamp s' = maxTimestamp s)
  /\ maxSequence s' = maxSequence s.
Proof. intros H. by rewrite H. Qed.

(** C36: Successive ids are strictly increasing and fit a non-negative int64,
    however the clock jumps within its range. *)
Theorem GenIds_increasing n s clock ids s' :
  sf_wf s -> (forall r, r ∈ clock -> tick s r) ->
  lastTime s <= offsetTime s + maxTimestamp s ->
  GenIds n s clock = Some (ids, s') ->
  length ids = n /\ StronglySorted Z.lt ids /\
  Forall (fun id => 0 <= id < 2 ^ 63 /\ (tick s (lastTime s) -> last_id s < id)) ids.
Proof.
  revert s clock ids. induction n as [|n IH]; intros s clock ids Hwf Htick Hlast; simpl.
  { intros [= <- <-]. repeat constructor. }
  destruct (GenId s clock) as [[[id s1] rest]|] eqn:E1; [|done].
  destruct (GenIds n s1 rest) as [[ids' s2]|] eqn:E2; [|done]. intros [= <- <-].
  apply GenId_loop_spec in E1 as (Hc & Hwf1 & -> & (r & Hr & Hlt) & Hinc & (used & ->)); [|done].
  pose proof (Htick r Hr) as Hrt. unfold tick in *.
  destruct (same_config_bounds _ _ Hc) as [[Hoff HmT] _].
  assert (Ht1 : tick s1 (lastTime s1)) by (unfold tick; lia).
  destruct (IH s1 rest ids' Hwf1) as (Hlen & Hsort & Hall); [|lia|done|].
  { intros r' Hr'. rewrite Hoff, HmT. apply Htick. set_solver. }
  destruct (pack_arith s1 _ _ Hwf1 Ht1 (wf_seq _ Hwf1)) as [_ Hrange].
  assert (Hhd : tick s (lastTime s) -> last_id s < last_id s1).
  { intros Hts. unfold last_id. rewrite (same_config_pack _ _ _ _ Hc).
    pose proof (wf_seq _ Hwf1) as Hs1. rewrite (proj2 (same_config_bounds _ _ Hc)) in Hs1.
    apply pack_lt; unfold tick; try done; [lia|apply (wf_seq _ Hwf)]. }
  split_and!; [simpl; lia| |].
  - constructor; [done|]. eapply Forall_impl; [exact Hall|]. cbn. intros x [_ Hx]. apply Hx, Ht1.
  - constructor; [done|]. eapply Forall_impl; [exact Hall|]. cbn. intros x [Hx1 Hx2].
    split; [done|]. intros Hts. specialize (Hx2 Ht1). specialize (Hhd Hts). lia.
Qed.

(** GenId returns as soon as the clock has twice passed the last timestamp used. *)
Theorem GenId_returns s pre r1 r2 post :
  lastTime s < r1 -> lastTime s < r2 ->
  exists id s' rest, GenId s (pre ++ r1 :: r2 :: post) = Some (id, s', rest).
Proof.
  intros H1 H2. unfold GenId. generalize false.
  assert (Hsome : forall r, lastTime s < r -> exists p, GenId_attempt s r = Some p).
  { intros r Hr. unfold GenId_attempt. rewrite (proj2 (Z.ltb_ge _ _)) by lia.
    rewrite (proj2 (Z.eqb_neq _ _)) by lia. eauto. }
  induction pre as [|r pre IH]; intros w.
  - destruct (Hsome r1 H1) as [[] E1]. destruct (Hsome r2 H2) as [[] E2].
    destruct w; simpl; rewrite ?E1; eauto.
    rewrite (proj2 (Z.leb_gt _ _)) by lia. rewrite E2. eauto.
  - destruct w; simpl; [apply IH|]. destruct (GenId_attempt s r) as [[]|]; eauto.
Qed.

(** A machine id of 32 bits or more does not survive [ParseIdToMachineId]'s int32. *)
Definition wide_config : Config := mkConfig 22 40 1 (2 ^ 32 + 7) (1640995200 * 10 ^ 9).

Lemma ParseIdToMachineId_truncates :
  match New wide_config (1640995200 * 10 ^ 9 + 10 ^ 9) with
  | Ok s =>
    match GenId s [1640995200001] with
    | Some (id, _, _) => machineID s = 2 ^ 32 + 7 /\ ParseIdToMachineId s id = 7
    | None => False
    end
  | Err _ => False
  end.
Proof. vm_compute. split; reflexivity. Qed.
