(* ===== verification/Buffer.v ===== *)
(** * pkg/buffer: the growable read/write buffer

    [Buffer] of buffer.go with its backing array, the two cursors and the
    growth policy, and its refinement of a bounded byte queue.  Sizes are Go
    [int]s that are lengths of slices, so they stay far from overflow. *)

From S2P Require Import Prelude.

Definition defaultInitialCap : Z := 4096.
Definition capacityGrowthMul : Z := 2.
Definition maxBufferCap : Z := 16 * 1024 * 1024.

(** [ErrReader] is an error other than io.EOF of the reader given to [WriteReader]. *)
Inductive berr : Type :=
| ErrInsufficientData | ErrInsufficientDataToSkip | ErrBufferOverLimit | EOF | ErrReader.
#[export] Instance berr_eq_dec : EqDecision berr.
Proof. solve_decision. Defined.

Record Buffer : Type := mkBuffer {
  buf : list Z; b_r : Z; b_w : Z; b_cap : Z; b_maxCap : Z; b_limit : Z
}.

Definition New (initialCap : Z) (maxCap : option Z) : Buffer :=
  let limitCap := match maxCap with
                  | Some m => if m >? 0 then m else maxBufferCap
                  | None => maxBufferCap
                  end in
  let initialCap := if initialCap <=? 0 then defaultInitialCap else initialCap in
  let initialCap := if initialCap >? limitCap then limitCap else initialCap in
  mkBuffer (replicate (Z.to_nat initialCap) 0) 0 0 initialCap limitCap initialCap.

Definition Len (b : Buffer) : Z := b_w b - b_r b.
Definition Cap (b : Buffer) : Z := b_cap b.
Definition Available (b : Buffer) : Z := b_cap b - b_w b.
Definition Reset (b : Buffer) : Buffer :=
  mkBuffer (buf b) 0 0 (b_cap b) (b_maxCap b) (b_limit b).

(** [b.buf[i:j]] *)
Definition sub (l : list Z) (i j : Z) : list Z := take (Z.to_nat (j - i)) (drop (Z.to_nat i) l).
Definition Bytes (b : Buffer) : list Z := sub (buf b) (b_r b) (b_w b).

(** [copy(dst[i:], src)]: as much of [src] as fits. *)
Definition copy_at (dst : list Z) (i : Z) (src : list Z) : list Z :=
  let src := take (length dst - Z.to_nat i) src in
  take (Z.to_nat i) dst ++ src ++ drop (Z.to_nat i + length src) dst.

(** The growth loop of [ensureSpace]. *)
Fixpoint grow (fuel : nat) (newCap requiredCap maxCap : Z) : Z :=
  match fuel with
  | O => newCap
  | S fuel' =>
    if (newCap <? requiredCap) && (newCap <? maxCap)
    then grow fuel' (newCap * capacityGrowthMul) requiredCap maxCap
    else newCap
  end.

(** The doubling of a positive int passes any int within 63 rounds. *)
Definition grow_fuel : nat := 63.

(** Move the unread bytes to the front when something was read. *)
Definition compact (b : Buffer) : Buffer :=
  if b_r b >? 0
  then mkBuffer (copy_at (buf b) 0 (sub (buf b) (b_r b) (b_w b)))
                0 (b_w b - b_r b) (b_cap b) (b_maxCap b) (b_limit b)
  else b.

(** Reallocate with room for [n] more bytes, within [maxCap]. *)
Definition enlarge (b : Buffer) (n : Z) : Buffer * option berr :=
  let requiredCap := b_w b + n in
  if requiredCap >? b_maxCap b then (b, Some ErrBufferOverLimit)
  else
    let newCap := grow grow_fuel (b_cap b) requiredCap (b_maxCap b) in
    let newCap := if newCap >? b_maxCap b then b_maxCap b else newCap in
    let newCap := if newCap <? requiredCap then requiredCap else newCap in
    (mkBuffer (copy_at (replicate (Z.to_nat newCap) 0) 0 (sub (buf b) 0 (b_w b)))
              (b_r b) (b_w b) newCap (b_maxCap b) newCap, None).

Definition ensureSpace (b : Buffer) (n : Z) : Buffer * option berr :=
  if Available b >=? n then (b, None)
  else
    let b := compact b in
    if Available b <? n then enlarge b n else (b, None).

Definition Write (b : Buffer) (data : list Z) : Buffer * Z * option berr :=
  if zlen data =? 0 then (b, 0, None)
  else match ensureSpace b (zlen data) with
       | (b, Some err) => (b, 0, Some err)
       | (b, None) =>
         let n := Z.min (zlen (buf b) - b_w b) (zlen data) in
         (mkBuffer (copy_at (buf b) (b_w b) data) (b_r b) (b_w b + n)
                   (b_cap b) (b_maxCap b) (b_limit b), n, None)
       end.

Definition WriteByte (b : Buffer) (c : Z) : Buffer * option berr :=
  match ensureSpace b 1 with
  | (b, Some err) => (b, Some err)
  | (b, None) =>
    (mkBuffer (<[Z.to_nat (b_w b) := c]> (buf b)) (b_r b) (b_w b + 1)
              (b_cap b) (b_maxCap b) (b_limit b), None)
  end.

(** Reading into a slice of length [n]: the bytes copied out. *)
Definition Read (b : Buffer) (n : Z) : Buffer * list Z * option berr :=
  if n =? 0 then (b, [], None)
  else if Len b =? 0 then (b, [], Some EOF)
  else
    let out := take (Z.to_nat n) (Bytes b) in
    (mkBuffer (buf b) (b_r b + zlen out) (b_w b) (b_cap b) (b_maxCap b) (b_limit b), out, None).

Definition ReadByte (b : Buffer) : Buffer * Z * option berr :=
  if Len b =? 0 then (b, 0, Some EOF)
  else (mkBuffer (buf b) (b_r b + 1) (b_w b) (b_cap b) (b_maxCap b) (b_limit b),
        nth (Z.to_nat (b_r b)) (buf b) 0, None).

Definition Peek (b : Buffer) (n : Z) : list Z * option berr :=
  if n <=? 0 then ([], None)
  else if Len b <? n then ([], Some ErrInsufficientData)
  else (sub (buf b) (b_r b) (b_r b + n), None).

Definition Skip (b : Buffer) (n : Z) : Buffer * option berr :=
  if n <=? 0 then (b, None)
  else if Len b <? n then (b, Some ErrInsufficientDataToSkip)
  else (mkBuffer (buf b) (b_r b + n) (b_w b) (b_cap b) (b_maxCap b) (b_limit b), None).

(** [Readable]: the unread bytes in a new slice. *)
Definition Readable (b : Buffer) : list Z :=
  let data := replicate (Z.to_nat (Len b)) 0 in copy_at data 0 (sub (buf b) (b_r b) (b_w b)).

(** [View]: a slice of the array itself, which lasts as long as the array is not
    written there: the range, and what is read through it later. *)
Definition View (b : Buffer) : Z * Z := (b_r b, b_w b).
Definition read_view (b : Buffer) (v : Z * Z) : list Z := sub (buf b) v.1 v.2.

Definition Buffer_String (b : Buffer) : string := string_of_bytes (sub (buf b) (b_r b) (b_w b)).

Section WriteReader.
(** An io.Reader: from its state and the size of the slice offered, the bytes it
    puts there, its error, and its next state. *)
Context {R : Type} (read : R -> Z -> list Z * option berr * R).

(** [WriteReader]; one unit of fuel per call of [Read].  [None] when out of fuel. *)
Fixpoint WriteReader_loop (fuel : nat) (b : Buffer) (rd : R) (total : Z)
  : option (Buffer * R * Z * option berr) :=
  match fuel with
  | O => None
  | S fuel' =>
    let '(b, err) :=
      if Available b =? 0
      then ensureSpace b (Z.max defaultInitialCap (b_cap b)) else (b, None) in
    match err with
    | Some err => Some (b, rd, total, Some err)
    | None =>
      let '(data, err, rd) := read rd (Available b) in
      let n := zlen data in
      let b := if n >? 0
               then mkBuffer (copy_at (buf b) (b_w b) data) (b_r b) (b_w b + n)
                             (b_cap b) (b_maxCap b) (b_limit b)
               else b in
      let total := total + n in
      match err with
      | Some EOF => Some (b, rd, total, None)
      | Some err => Some (b, rd, total, Some err)
      | None => if n =? 0 then Some (b, rd, total, None) else WriteReader_loop fuel' b rd total
      end
    end
  end.

Definition WriteReader (fuel : nat) (b : Buffer) (rd : R) := WriteReader_loop fuel b rd 0.

(** The bytes handed over by successive calls of the reader. *)
Inductive reads : R -> list Z -> R -> Prop :=
| reads_nil rd : reads rd [] rd
| reads_cons rd n d e rd1 data rd2 :
    read rd n = (d, e, rd1) -> reads rd1 data rd2 -> reads rd (d ++ data) rd2.
End WriteReader.

(** ** The invariant and the abstraction: a queue of bytes bounded by [maxCap] *)

Record buf_wf (b : Buffer) : Prop := {
  wf_cursors : 0 <= b_r b <= b_w b;
  wf_w : b_w b <= b_cap b;
  wf_cap : 1 <= b_cap b <= b_maxCap b;
  wf_len : zlen (buf b) = b_cap b;
  wf_limit : b_limit b = b_cap b;
  wf_int : b_maxCap b < 2 ^ 62
}.

Lemma New_buf_wf initialCap maxCap :
  (forall m, maxCap = Some m -> m < 2 ^ 62) ->
  buf_wf (New initialCap maxCap) /\ Bytes (New initialCap maxCap) = [].
Proof.
  intros Hm. unfold New. set (l := match maxCap with Some _ => _ | None => _ end).
  assert (Hl : 1 <= l < 2 ^ 62).
  { unfold l, maxBufferCap. destruct maxCap as [m|]; [|lia]. specialize (Hm m eq_refl).
    rewrite Z.gtb_ltb. destruct (0 <? m) eqn:?; zbool; lia. }
  set (c := if _ >? l then l else _).
  assert (Hc : 1 <= c <= l).
  { unfold c, defaultInitialCap. rewrite Z.gtb_ltb.
    destruct (initialCap <=? 0) eqn:?, (l <? _) eqn:?; zbool; lia. }
  split; [|done]. constructor; cbn; try lia. unfold zlen. rewrite length_replicate. lia.
Qed.

(** *** Slices of the backing array *)

Lemma sub_mid (p q s : list Z) i j : zlen p = i -> zlen q = j - i -> sub (p ++ q ++ s) i j = q.
Proof.
  unfold sub, zlen. intros H1 H2. rewrite drop_app_len by lia. apply take_app_len. lia.
Qed.

Lemma view b :
  buf_wf b ->
  exists p s, buf b = p ++ Bytes b ++ s /\ zlen p = b_r b /\
              zlen (Bytes b) = Len b /\ zlen s = Available b.
Proof.
  intros [Hc Hw Hcap Hlen _ _].
  exists (take (Z.to_nat (b_r b)) (buf b)), (drop (Z.to_nat (b_w b - b_r b)) (drop (Z.to_nat (b_r b)) (buf b))).
  unfold Bytes, sub, Len, Available.
  assert (Hd : zlen (drop (Z.to_nat (b_r b)) (buf b)) = b_cap b - b_r b)
    by (rewrite zlen_drop; lia).
  split_and!.
  - by rewrite !take_drop.
  - rewrite zlen_take; lia.
  - rewrite zlen_take; lia.
  - rewrite zlen_drop; lia.
Qed.

Lemma copy_at_mid (p q s : list Z) i :
  zlen p = i -> zlen q <= zlen s ->
  copy_at (p ++ s) i q = p ++ q ++ drop (length q) s.
Proof.
  unfold copy_at, zlen. intros <- Hq. rewrite Nat2Z.id, length_app.
  rewrite (take_ge q) by lia. rewrite take_app_length. f_equal. f_equal.
  rewrite drop_app_ge by lia. f_equal. lia.
Qed.

Lemma Bytes_len b : buf_wf b -> zlen (Bytes b) = Len b.
Proof. intros Hwf. by destruct (view b Hwf) as (?&?&?&?&?&?). Qed.

(** The growth loop stops by its own condition within the fuel. *)
Lemma grow_stops fuel c req max :
  1 <= c -> max <= c * 2 ^ Z.of_nat fuel ->
  let c' := grow fuel c req max in
  c <= c' /\ (req <= c' \/ max <= c').
Proof.
  revert c. induction fuel as [|fuel IH]; intros c Hc Hmax; cbn [grow]; [lia|].
  destruct (_ && _) eqn:E.
  - unfold capacityGrowthMul. rewrite Nat2Z.inj_succ, Z.pow_succ_r in Hmax by lia.
    specialize (IH (c * 2) ltac:(lia) ltac:(lia)). cbn in IH |- *. lia.
  - apply andb_false_iff in E as [E|E]; zbool; simpl; lia.
Qed.

Lemma copy_at_front (q s : list Z) :
  zlen q <= zlen s -> copy_at s 0 q = q ++ drop (length q) s.
Proof. apply (copy_at_mid []). done. Qed.

Lemma zlen_copy_at_front (q s : list Z) :
  zlen q <= zlen s -> zlen (q ++ drop (length q) s) = zlen s.
Proof. unfold zlen. rewrite length_app, length_drop. lia. Qed.

Lemma compact_spec b :
  buf_wf b ->
  buf_wf (compact b) /\ Bytes (compact b) = Bytes b /\ b_r (compact b) = 0 /\
  b_w (compact b) = Len b /\ b_maxCap (compact b) = b_maxCap b.
Proof.
  intros Hwf. pose proof (Bytes_len b Hwf) as HB.
  pose proof Hwf as [Hc Hw Hcap Hlen Hlim Hint].
  unfold compact. rewrite Z.gtb_ltb. destruct (0 <? b_r b) eqn:Er; zbool.
  2: { unfold Len. split_and!; try done; lia. }
  fold (Bytes b). unfold Len in *.
  rewrite (copy_at_front (Bytes b) (buf b)) by lia. split_and!; try done.
  - constructor; cbn; try lia. rewrite zlen_copy_at_front; lia.
  - unfold Bytes at 1. cbn. apply (sub_mid []); [done|lia].
Qed.

Lemma enlarge_spec b n :
  buf_wf b -> 0 < n -> b_r b = 0 ->
  match enlarge b n with
  | (b', None) =>
    buf_wf b' /\ Bytes b' = Bytes b /\ b_maxCap b' = b_maxCap b /\
    n <= Available b' /\ Len b + n <= b_maxCap b
  | (b', Some err) => err = ErrBufferOverLimit /\ b' = b /\ b_maxCap b < Len b + n
  end.
Proof.
  intros Hwf Hn Hr. pose proof (Bytes_len b Hwf) as HB.
  pose proof Hwf as [Hc Hw Hcap Hlen Hlim Hint].
  unfold enlarge, Len in *. rewrite !Z.gtb_ltb.
  destruct (b_maxCap b <? b_w b + n) eqn:E2; zbool; [split_and!; (done || lia)|].
  destruct (grow_stops grow_fuel (b_cap b) (b_w b + n) (b_maxCap b)) as [Hg1 Hg2]; [lia| |].
  { change (2 ^ Z.of_nat grow_fuel) with (2 ^ 63). nia. }
  set (g := grow _ _ _ _) in *.
  set (c1 := if b_maxCap b <? g then b_maxCap b else g).
  assert (Hc1 : b_w b + n <= c1 <= b_maxCap b) by (unfold c1; destruct (_ <? _) eqn:?; zbool; lia).
  rewrite (proj2 (Z.ltb_ge c1 _)) by lia. clearbody c1.
  assert (Hpre : sub (buf b) 0 (b_w b) = Bytes b) by (unfold Bytes; by rewrite Hr).
  assert (Hrep : zlen (replicate (Z.to_nat c1) 0) = c1) by (unfold zlen; rewrite length_replicate; lia).
  rewrite Hpre, copy_at_front by lia. unfold Available. cbn. split_and!; try lia.
  - constructor; cbn; try lia. rewrite zlen_copy_at_front; lia.
  - unfold Bytes at 1. cbn. rewrite Hr. apply (sub_mid []); [done|lia].
Qed.

Lemma ensureSpace_spec b n :
  buf_wf b -> 0 < n ->
  match ensureSpace b n with
  | (b', None) =>
    buf_wf b' /\ Bytes b' = Bytes b /\ b_maxCap b' = b_maxCap b /\
    n <= Available b' /\ Len b + n <= b_maxCap b
  | (b', Some err) =>
    err = ErrBufferOverLimit /\ buf_wf b' /\ Bytes b' = Bytes b /\
    b_maxCap b' = b_maxCap b /\ b_maxCap b < Len b + n
  end.
Proof.
  intros Hwf Hn. pose proof Hwf as [Hc Hw Hcap Hlen Hlim Hint].
  unfold ensureSpace. rewrite Z.geb_leb. destruct (n <=? Available b) eqn:E; zbool.
  { unfold Len, Available in *. split_and!; try done; lia. }
  destruct (compact_spec b Hwf) as (Hwf1 & HB1 & Hr1 & Hw1 & Hm1).
  assert (HL1 : Len (compact b) = Len b) by (unfold Len in *; lia).
  destruct (Available (compact b) <? n) eqn:E1; zbool.
  - pose proof (enlarge_spec _ n Hwf1 Hn Hr1) as H.
    destruct (enlarge (compact b) n) as [b' [err|]].
    + destruct H as (-> & -> & H). split_and!; try done; lia.
    + destruct H as (? & ? & ? & ? & ?). split_and!; try done; (congruence || lia).
  - pose proof (wf_cap _ Hwf1). pose proof (wf_w _ Hwf1).
    unfold Available in *. split_and!; try done; lia.
Qed.

(** *** Appending to the unread bytes *)

Lemma append_spec b data :
  buf_wf b -> zlen data <= Available b ->
  let b' := mkBuffer (copy_at (buf b) (b_w b) data) (b_r b) (b_w b + zlen data)
                     (b_cap b) (b_maxCap b) (b_limit b) in
  buf_wf b' /\ Bytes b' = Bytes b ++ data /\ Len b' = Len b + zlen data /\
  Available b' = Available b - zlen data.
Proof.
  intros Hwf Hd b'. destruct (view b Hwf) as (p & s & Hbuf & Hp & HB & Hs).
  pose proof Hwf as [Hc Hw Hcap Hlen Hlim Hint]. pose proof (zlen_nonneg data).
  assert (Hcp : copy_at (buf b) (b_w b) data
                = p ++ (Bytes b ++ data) ++ drop (length data) s).
  { rewrite Hbuf, app_assoc, <- !app_assoc, (app_assoc p).
    rewrite (copy_at_mid (p ++ Bytes b)); [by rewrite <- !app_assoc| |lia].
    rewrite zlen_app. unfold Len in HB. lia. }
  unfold Available, Len in *. split_and!; cbn; try lia.
  - constructor; cbn; try lia. rewrite Hcp. unfold zlen in *.
    rewrite !length_app, length_drop. lia.
  - unfold Bytes at 1. cbn. rewrite Hcp. apply sub_mid; [done|].
    rewrite zlen_app. lia.
Qed.

(** *** Operations on the buffer and on the queue it stands for *)

Inductive op : Type :=
| OWrite (data : list Z) | OWriteByte (c : Z) | ORead (n : Z) | OReadByte
| OPeek (n : Z) | OSkip (n : Z) | OReset | OLen | OReadable | OView.

(** Read's argument is the length of a slice. *)
Definition op_ok (o : op) : Prop := match o with ORead n => 0 <= n | _ => True end.

(** What an operation returns: bytes, a count and an error. *)
Definition outcome : Type := list Z * Z * option berr.

Definition exec (b : Buffer) (o : op) : Buffer * outcome :=
  match o with
  | OWrite data => let '(b', n, e) := Write b data in (b', ([], n, e))
  | OWriteByte c => let '(b', e) := WriteByte b c in (b', ([], 0, e))
  | ORead n => let '(b', out, e) := Read b n in (b', (out, zlen out, e))
  | OReadByte => let '(b', c, e) := ReadByte b in (b', ([c], 0, e))
  | OPeek n => let '(out, e) := Peek b n in (b, (out, 0, e))
  | OSkip n => let '(b', e) := Skip b n in (b', ([], 0, e))
  | OReset => (Reset b, ([], 0, None))
  | OLen => (b, ([], Len b, None))
  | OReadable => (b, (Readable b, 0, None))
  | OView => (b, (read_view b (View b), 0, None))
  end.

(** The contract: a queue of at most [max] bytes. *)
Definition queue_exec (max : Z) (q : list Z) (o : op) : list Z * outcome :=
  match o with
  | OWrite data =>
    if zlen q + zlen data <=? max then (q ++ data, ([], zlen data, None))
    else (q, ([], 0, Some ErrBufferOverLimit))
  | OWriteByte c =>
    if zlen q + 1 <=? max then (q ++ [c], ([], 0, None))
    else (q, ([], 0, Some ErrBufferOverLimit))
  | ORead n =>
    if n =? 0 then (q, ([], 0, None))
    else match q with
         | [] => (q, ([], 0, Some EOF))
         | _ => (drop (Z.to_nat n) q, (take (Z.to_nat n) q, Z.min n (zlen q), None))
         end
  | OReadByte =>
    match q with [] => (q, ([0], 0, Some EOF)) | c :: q' => (q', ([c], 0, None)) end
  | OPeek n =>
    if n <=? 0 then (q, ([], 0, None))
    else if zlen q <? n then (q, ([], 0, Some ErrInsufficientData))
    else (q, (take (Z.to_nat n) q, 0, None))
  | OSkip n =>
    if n <=? 0 then (q, ([], 0, None))
    else if zlen q <? n then (q, ([], 0, Some ErrInsufficientDataToSkip))
    else (drop (Z.to_nat n) q, ([], 0, None))
  | OReset => ([], ([], 0, None))
  | OLen => (q, ([], zlen q, None))
  | OReadable | OView => (q, (q, 0, None))
  end.

Fixpoint run {St} (step : St -> op -> St * outcome) (s : St) (ops : list op)
  : St * list outcome :=
  match ops with
  | [] => (s, [])
  | o :: ops' =>
    let '(s, r) := step s o in let '(s, rs) := run step s ops' in (s, r :: rs)
  end.

(** One step of the simulation. *)
Definition simulates (max : Z) (b : Buffer) (o : op) : Prop :=
  let '(b', r) := exec b o in
  let '(q', r') := queue_exec max (Bytes b) o in
  r = r' /\ buf_wf b' /\ Bytes b' = q' /\ b_maxCap b' = max.

(** Advancing the read cursor drops bytes from the front. *)
Lemma advance_spec b n :
  buf_wf b -> 0 <= n <= Len b ->
  let b' := mkBuffer (buf b) (b_r b + n) (b_w b) (b_cap b) (b_maxCap b) (b_limit b) in
  buf_wf b' /\ Bytes b' = drop (Z.to_nat n) (Bytes b).
Proof.
  intros Hwf Hn b'. pose proof Hwf as [Hc Hw Hcap Hlen Hlim Hint]. unfold Len in Hn. split.
  - constructor; cbn; lia.
  - unfold Bytes, sub. cbn. rewrite skipn_firstn_comm, drop_drop. f_equal; [lia|]. f_equal. lia.
Qed.

Lemma take_Bytes b n :
  buf_wf b -> 0 <= n <= Len b -> sub (buf b) (b_r b) (b_r b + n) = take (Z.to_nat n) (Bytes b).
Proof.
  intros Hwf Hn. unfold Bytes, sub, Len in *. rewrite take_take. f_equal. lia.
Qed.

Lemma write_simulates b data : buf_wf b -> simulates (b_maxCap b) b (OWrite data).
Proof.
  intros Hwf. unfold simulates. cbn [exec queue_exec]. rewrite (Bytes_len b Hwf).
  unfold Write. pose proof (wf_cap _ Hwf). pose proof (wf_w _ Hwf). pose proof (wf_cursors _ Hwf).
  destruct (zlen data =? 0) eqn:E0; zbool.
  { destruct data; [|rewrite zlen_cons in E0; pose proof (zlen_nonneg data); lia].
    rewrite (proj2 (Z.leb_le _ _)), app_nil_r; [done|]. rewrite zlen_nil. unfold Len. lia. }
  pose proof (ensureSpace_spec b (zlen data) Hwf) as Hs. pose proof (zlen_nonneg data).
  destruct (ensureSpace b (zlen data)) as [b1 [err|]].
  - destruct Hs as (-> & Hwf1 & HB & Hm & Hlt); [lia|].
    by rewrite (proj2 (Z.leb_gt _ _)) by lia.
  - destruct Hs as (Hwf1 & HB & Hm & Hav & Hle); [lia|].
    rewrite (proj2 (Z.leb_le _ _)) by lia.
    rewrite Z.min_r by (rewrite (wf_len _ Hwf1); unfold Available in Hav; lia).
    destruct (append_spec b1 data Hwf1 Hav) as (Hwf2 & HB2 & _). rewrite <- HB.
    split_and!; done.
Qed.

Lemma insert_copy_at (l : list Z) i c :
  0 <= i < zlen l -> <[Z.to_nat i := c]> l = copy_at l i [c].
Proof.
  intros Hi. unfold copy_at, zlen in *. rewrite (take_ge [c]) by (simpl; lia).
  rewrite (insert_take_drop l _ c) by lia. simpl. do 2 f_equal. f_equal. lia.
Qed.

Lemma write_byte_simulates b c : buf_wf b -> simulates (b_maxCap b) b (OWriteByte c).
Proof.
  intros Hwf. unfold simulates. cbn [exec queue_exec]. rewrite (Bytes_len b Hwf).
  unfold WriteByte. pose proof (ensureSpace_spec b 1 Hwf ltac:(lia)) as Hs.
  destruct (ensureSpace b 1) as [b1 [err|]].
  - destruct Hs as (-> & Hwf1 & HB & Hm & Hlt). by rewrite (proj2 (Z.leb_gt _ _)) by lia.
  - destruct Hs as (Hwf1 & HB & Hm & Hav & Hle). rewrite (proj2 (Z.leb_le _ _)) by lia.
    destruct (append_spec b1 [c] Hwf1 Hav) as (Hwf2 & HB2 & _).
    pose proof (wf_cursors _ Hwf1). pose proof (wf_len _ Hwf1). unfold Available in Hav.
    rewrite insert_copy_at by lia. rewrite <- HB. split_and!; done.
Qed.

Lemma read_simulates b n : buf_wf b -> 0 <= n -> simulates (b_maxCap b) b (ORead n).
Proof.
  intros Hwf Hn. unfold simulates. cbn [exec queue_exec]. unfold Read.
  destruct (n =? 0) eqn:E0; zbool; [done|]. pose proof (Bytes_len b Hwf) as HB.
  destruct (Len b =? 0) eqn:E1; zbool.
  { destruct (Bytes b) as [|c q]; [done|]. rewrite zlen_cons in HB. pose proof (zlen_nonneg q). lia. }
  pose proof (zlen_nonneg (Bytes b)).
  assert (Ht : zlen (take (Z.to_nat n) (Bytes b)) = Z.min n (Len b))
    by (rewrite <- HB; unfold zlen; rewrite length_take; lia).
  destruct (advance_spec b (zlen (take (Z.to_nat n) (Bytes b))) Hwf) as [Hwf' HB']; [lia|].
  destruct (Bytes b) as [|c q] eqn:Eq; [rewrite zlen_nil in HB; lia|]. rewrite <- Eq in *.
  split_and!; [by rewrite Ht, HB|done| |done]. rewrite HB', Ht.
  destruct (decide (n <= Len b)); [f_equal; lia|]. unfold zlen in HB.
  rewrite !drop_ge; [done|lia..].
Qed.

Lemma read_byte_simulates b : buf_wf b -> simulates (b_maxCap b) b OReadByte.
Proof.
  intros Hwf. unfold simulates. cbn [exec queue_exec]. unfold ReadByte.
  pose proof (Bytes_len b Hwf) as HB. destruct (Len b =? 0) eqn:E1; zbool.
  { destruct (Bytes b) as [|c q]; [done|]. rewrite zlen_cons in HB. pose proof (zlen_nonneg q). lia. }
  destruct (view b Hwf) as (p & s & Hbuf & Hp & _ & _).
  pose proof (wf_cursors _ Hwf). unfold Len in *.
  destruct (advance_spec b 1 Hwf) as [Hwf' HB']; [unfold Len; lia|].
  destruct (Bytes b) as [|c q] eqn:Eq; [rewrite zlen_nil in HB; lia|].
  assert (Hnth : nth (Z.to_nat (b_r b)) (buf b) 0 = c).
  { rewrite Hbuf, app_nth2, <- Hp; unfold zlen in *; [|lia].
    by replace (Z.to_nat _ - _)%nat with 0%nat by lia. }
  rewrite Hnth. split_and!; done.
Qed.

Lemma peek_skip_simulates b n :
  buf_wf b -> simulates (b_maxCap b) b (OPeek n) /\ simulates (b_maxCap b) b (OSkip n).
Proof.
  intros Hwf. unfold simulates. cbn [exec queue_exec]. unfold Peek, Skip.
  rewrite (Bytes_len b Hwf). destruct (n <=? 0) eqn:E0; [done|].
  destruct (Len b <? n) eqn:E1; [done|]. zbool.
  rewrite take_Bytes by (done || lia). split; [done|].
  destruct (advance_spec b n Hwf) as [Hwf' HB']; [lia|]. split_and!; done.
Qed.

Lemma Readable_Bytes b : buf_wf b -> Readable b = Bytes b.
Proof.
  intros Hwf. unfold Readable. fold (Bytes b). pose proof (Bytes_len b Hwf) as HB. unfold zlen in HB.
  rewrite copy_at_front by (unfold zlen; rewrite length_replicate; lia).
  rewrite drop_ge, app_nil_r; [done|]. rewrite length_replicate. lia.
Qed.

(** A view stays what it was while the buffer is read, and reset; the comment of
    [View] promises less. *)
Theorem view_survives_reads b o :
  match o with OWrite _ | OWriteByte _ => False | _ => True end -> read_view (exec b o).1 (View b) = Bytes b.
Proof.
  assert (Hbuf : forall b', buf b' = buf b -> read_view b' (View b) = Bytes b).
  { intros b' E. unfold read_view. by rewrite E. }
  destruct o as [| |n| |n|n| | | |]; try done; intros _; apply Hbuf; cbn [exec].
  - unfold Read. by destruct (n =? 0), (Len b =? 0).
  - unfold ReadByte. by destruct (Len b =? 0).
  - by destruct (Peek b n).
  - unfold Skip. by destruct (n <=? 0), (Len b <? n).
Qed.

(** A write that must make room first moves the unread bytes to the front, over
    the bytes of a view. *)
Lemma write_moves_a_view :
  let b := (Skip (Write (New 4 None) [1; 2; 3; 4]).1.1 2).1 in
  read_view b (View b) = [3; 4] /\ read_view (Write b [5; 6]).1.1 (View b) = [5; 6].
Proof. by vm_compute. Qed.

Lemma view_survives_reads_witness :
  let b := (Write (New 4 None) [1; 2; 3; 4]).1.1 in read_view (exec b (OSkip 2)).1 (View b) = Bytes b.
Proof. cbv zeta. apply view_survives_reads. exact I. Defined.

Lemma exec_simulates b o : buf_wf b -> op_ok o -> simulates (b_maxCap b) b o.
Proof.
  intros Hwf Hok. destruct o; auto using write_simulates, write_byte_simulates,
    read_simulates, read_byte_simulates.
  - by apply peek_skip_simulates.
  - by apply peek_skip_simulates.
  - unfold simulates. cbn. split_and!; try done.
    destruct Hwf. constructor; cbn; lia.
  - unfold simulates. cbn. by rewrite Bytes_len.
  - unfold simulates. cbn [exec queue_exec]. by rewrite Readable_Bytes.
  - by unfold simulates.
Qed.

(** C33: The growing buffer behaves on every sequence of operations as a queue of
    bytes bounded by its maximal capacity. *)
Theorem buffer_refines_queue initialCap maxCap ops :
  (forall m, maxCap = Some m -> m < 2 ^ 62) -> Forall op_ok ops ->
  let b := New initialCap maxCap in
  let '(b', rs) := run exec b ops in
  run (queue_exec (b_maxCap b)) [] ops = (Bytes b', rs) /\ buf_wf b'.
Proof.
  intros Hm Hops b. destruct (New_buf_wf initialCap maxCap Hm) as [Hwf HB]. rewrite <- HB. fold b in Hwf |- *.
  clearbody b. clear HB Hm. remember (b_maxCap b) as max eqn:Hmax.
  revert b Hwf Hmax. induction Hops as [|o ops Hok Hops IH]; intros b Hwf Hmax; [done|].
  simpl. pose proof (exec_simulates b o Hwf Hok) as Hs. unfold simulates in Hs. rewrite <- Hmax in Hs.
  destruct (exec b o) as [b1 r], (queue_exec max (Bytes b) o) as [q1 r1].
  destruct Hs as (-> & Hwf1 & <- & Hm1). specialize (IH b1 Hwf1 (eq_sym Hm1)).
  destruct (run exec b1 ops) as [b2 rs]. destruct IH as [-> ?]. done.
Qed.

Section WriteReaderSpec.
Context {R : Type} (read : R -> Z -> list Z * option berr * R).

(** io.Reader's contract: at most as many bytes as the slice offered holds. *)
Hypothesis read_bound : forall rd n d e rd', 0 <= n -> read rd n = (d, e, rd') -> zlen d <= n.

(** Room for at least one byte before each read, or the limit is hit. *)
Lemma make_room b :
  buf_wf b ->
  let '(b1, err) := if Available b =? 0
                    then ensureSpace b (Z.max defaultInitialCap (b_cap b)) else (b, None) in
  buf_wf b1 /\ Bytes b1 = Bytes b /\ b_maxCap b1 = b_maxCap b /\
  match err with
  | None => 0 < Available b1
  | Some e => e = ErrBufferOverLimit /\ b_maxCap b < Len b + Z.max defaultInitialCap (b_cap b)
  end.
Proof.
  intros Hwf. pose proof (wf_w _ Hwf). destruct (Available b =? 0) eqn:E; zbool.
  - pose proof (ensureSpace_spec b (Z.max defaultInitialCap (b_cap b)) Hwf) as Hs.
    unfold defaultInitialCap in *.
    destruct (ensureSpace _ _) as [b1 [err|]]; destruct Hs as (?&?&?&?&?); try lia;
      split_and!; try done; lia.
  - unfold Available in *. split_and!; try done; lia.
Qed.

(** One read appended to the buffer. *)
Lemma read_append b d :
  buf_wf b -> zlen d <= Available b ->
  let b' := if zlen d >? 0
            then mkBuffer (copy_at (buf b) (b_w b) d) (b_r b) (b_w b + zlen d)
                          (b_cap b) (b_maxCap b) (b_limit b)
            else b in
  buf_wf b' /\ Bytes b' = Bytes b ++ d /\ b_maxCap b' = b_maxCap b.
Proof.
  intros Hwf Hd. rewrite Z.gtb_ltb. destruct (0 <? zlen d) eqn:E; zbool.
  - by destruct (append_spec b d Hwf Hd) as (? & ? & _).
  - destruct d; [by rewrite app_nil_r|]. rewrite zlen_cons in E. pose proof (zlen_nonneg d). lia.
Qed.

Lemma WriteReader_loop_spec fuel b rd total :
  buf_wf b -> b_maxCap b - Len b < Z.of_nat fuel ->
  exists b' rd' data e,
    WriteReader_loop read fuel b rd total = Some (b', rd', total + zlen data, e) /\
    reads read rd data rd' /\ buf_wf b' /\ Bytes b' = Bytes b ++ data /\
    b_maxCap b' = b_maxCap b /\ e <> Some EOF.
Proof.
  revert b rd total. induction fuel as [|fuel IH]; intros b rd total Hwf Hfuel.
  { pose proof (wf_cap _ Hwf). pose proof (wf_cursors _ Hwf). pose proof (wf_w _ Hwf).
    unfold Len in Hfuel. lia. }
  cbn [WriteReader_loop]. pose proof (make_room b Hwf) as Hroom.
  destruct (if Available b =? 0 then _ else _) as [b1 err].
  destruct Hroom as (Hwf1 & HB1 & Hm1 & Herr). destruct err as [err|].
  { destruct Herr as [-> _]. exists b1, rd, [], (Some ErrBufferOverLimit).
    rewrite zlen_nil, Z.add_0_r, app_nil_r. split_and!; try done. constructor. }
  destruct (read rd (Available b1)) as [[d e] rd1] eqn:Er.
  destruct (read_append b1 d Hwf1 (read_bound _ _ _ _ _ (Z.lt_le_incl _ _ Herr) Er)) as (Hwf2 & HB2 & Hm2).
  set (b2 := if zlen d >? 0 then _ else b1) in *. clearbody b2. rewrite HB1 in HB2.
  assert (Hdone : forall e', e' <> Some EOF ->
    exists b' rd' data e,
      Some (b2, rd1, total + zlen d, e') = Some (b', rd', total + zlen data, e) /\
      reads read rd data rd' /\ buf_wf b' /\ Bytes b' = Bytes b ++ data /\
      b_maxCap b' = b_maxCap b /\ e <> Some EOF).
  { intros e' He'. exists b2, rd1, d, e'. split_and!; try done; [|congruence].
    rewrite <- (app_nil_r d). econstructor; [done|constructor]. }
  destruct e as [[]|]; try (by apply Hdone).
  destruct (zlen d =? 0) eqn:Ed; zbool; [by apply Hdone|].
  destruct (IH b2 rd1 (total + zlen d)) as (b' & rd' & data & e & -> & Hr & Hw' & HB' & Hm' & He); [done| |].
  { rewrite Hm2, Hm1, <- (Bytes_len b2 Hwf2), HB2, zlen_app, (Bytes_len b Hwf).
    pose proof (zlen_nonneg d). lia. }
  exists b', rd', (d ++ data), e. rewrite zlen_app, Z.add_assoc.
  split_and!; try done; [by econstructor|by rewrite HB', HB2, app_assoc|congruence].
Qed.

(** WriteReader returns for every reader, having appended exactly the bytes it read. *)
Theorem WriteReader_total fuel b rd :
  buf_wf b -> b_maxCap b - Len b < Z.of_nat fuel ->
  exists b' rd' data e,
    WriteReader read fuel b rd = Some (b', rd', zlen data, e) /\
    reads read rd data rd' /\ buf_wf b' /\ Bytes b' = Bytes b ++ data /\ e <> Some EOF.
Proof.
  intros Hwf Hfuel.
  destruct (WriteReader_loop_spec fuel b rd 0 Hwf Hfuel) as (b' & rd' & data & e & E & ?&?&?&_&?).
  exists b', rd', data, e. unfold WriteReader. rewrite E. by split_and!.
Qed.
End WriteReaderSpec.

(** A reader over a list: it hands over what fits and reports io.EOF at the end. *)
Definition list_read (rd : list Z) (n : Z) : list Z * option berr * list Z :=
  match rd with
  | [] => ([], Some EOF, [])
  | _ => (take (Z.to_nat n) rd, None, drop (Z.to_nat n) rd)
  end.

(** A full buffer of capacity 4 under a limit of 6: two more bytes fit, and
    [Write] takes them, but [WriteReader] fails before reading the first. *)
Definition full_buffer : Buffer := fst (fst (Write (New 4 (Some 6)) [1; 2; 3; 4])).

Lemma WriteReader_fails_early :
  snd (Write full_buffer [5; 6]) = None /\
  exists b, WriteReader list_read 10 full_buffer [5; 6] = Some (b, [5; 6], 0, Some ErrBufferOverLimit).
Proof. split; [vm_compute; reflexivity|]. eexists. vm_compute. reflexivity. Qed.
