(* ===== verification/WireDemo.v ===== *)
(** * The packages under the network layer at concrete inputs

    A frame of three bytes, a pipeline with one transform, a cipher with the key
    0..31, a generator of the default layout and a buffer of eight bytes. *)

From S2P Require Import Prelude Protocol Codec Cipher Snowflake Buffer.

(** ** Frames *)

Definition a_frame : MessageFrame := NewMessageFrame 1 2 0 [104; 101; 121].
Definition a_wire : list Z :=
  match EncodeMessageFrameWithLimit a_frame 64 with Ok bs => bs | Err _ => [] end.

Lemma a_frame_typed : frame_typed a_frame.
Proof. apply (bool_decide_unpack _). vm_compute. exact I. Qed.
Lemma a_wire_ok : EncodeMessageFrameWithLimit a_frame 64 = Ok a_wire.
Proof. vm_compute. reflexivity. Qed.

Lemma decode_encode_witness :
  DecodeMessageFrameWithLimit (a_wire ++ [9; 9]) 32
  = (Some (with_crc a_frame (ChecksumIEEE (f_Body a_frame))), zlen a_wire, None) /\
  zlen a_wire = FrameSize (zlen (f_Body a_frame)) /\
  EncodeMessageFrameWithLimit (with_crc a_frame (ChecksumIEEE (f_Body a_frame))) 64 = Ok a_wire.
Proof.
  apply (decode_encode a_frame 64 32 a_wire [9; 9]); [exact a_frame_typed|exact a_wire_ok|].
  right. vm_compute. discriminate.
Defined.

Lemma decode_partial_witness : DecodeMessageFrameWithLimit (take 19 a_wire) 0 = (None, 0, None).
Proof.
  apply (decode_partial a_frame 64 0 a_wire 19); [exact a_wire_ok|left; vm_compute; discriminate|].
  vm_compute. lia.
Defined.

Lemma decode_sound_witness :
  let f := with_crc a_frame (ChecksumIEEE (f_Body a_frame)) in
  frame_typed f /\ 17 <= 20 <= zlen a_wire /\ f_crc f = ChecksumIEEE (f_Body f) /\
  EncodeMessageFrameWithLimit f 32 = Ok (take (Z.to_nat 20) a_wire).
Proof.
  intros f. apply (decode_sound a_wire 32 f 20).
  - apply (bool_decide_unpack _). vm_compute. exact I.
  - vm_compute. reflexivity.
Defined.

Lemma decode_corrupt_witness :
  exists headCrc bodyCrc,
    DecodeMessageFrameWithLimit (<[18%nat:=0]> a_wire ++ []) 32
    = (None, zlen a_wire, Some (ErrInvalidCrc headCrc bodyCrc)).
Proof.
  apply (decode_corrupt a_frame 64 32 a_wire 18 0 []).
  - exact a_frame_typed.
  - exact a_wire_ok.
  - right. vm_compute. discriminate.
  - vm_compute. lia.
  - vm_compute. split; [discriminate|reflexivity].
  - vm_compute. discriminate.
Defined.

(** ** A pipeline of one transform, which adds one to every byte *)

Definition add_one : Transform :=
  mkTransform 4 (fun x => Ok (map (fun b => u8 (b + 1)) x, true)) (fun y => Ok (map (fun b => u8 (b - 1)) y)).
Definition one_stage : Pipeline := match Codec.New [Some add_one] with Ok p => p | Err _ => mkPipeline [] 0 end.

Lemma pipeline_roundtrip_witness :
  Pipeline_Decode one_stage [8; 0] 4 = Ok [7; 255] /\ Z.ldiff 4 (knownFlags one_stage) = 0.
Proof.
  apply (pipeline_roundtrip [Some add_one] one_stage [7; 255] [8; 0] 4).
  - vm_compute. reflexivity.
  - split; [vm_compute; reflexivity|exact I].
  - vm_compute. reflexivity.
Defined.

(** ** The cipher *)

Definition a_cipher : ECDHCipher := mkCipher [] [] (Z.of_nat <$> seq 0 32).
Lemma crypt_bijection_witness :
  match crypt a_cipher [1; 2; 255] false with
  | Ok out => zlen (sharedKey a_cipher) = aesKeySize /\ bytes_ok out /\ zlen out = zlen [1; 2; 255] /\
              crypt a_cipher out (negb false) = Ok [1; 2; 255]
  | Err e => zlen (sharedKey a_cipher) <> aesKeySize /\ e = ErrInvalidKey
  end.
Proof.
  apply (crypt_bijection a_cipher [1; 2; 255] false); apply (bool_decide_unpack _); vm_compute; exact I.
Defined.

(** ** Identifiers *)

Definition midnight : Z := 1640995200000.
Definition a_flake : SnowFlake :=
  match Snowflake.New DefaultConfig ((midnight + 5000) * 10 ^ 6) with
  | Ok s => s | Err _ => mkSnowFlake 0 0 0 0 0 0 0 0 0 0 0 0
  end.
Lemma a_flake_new : Snowflake.New DefaultConfig ((midnight + 5000) * 10 ^ 6) = Ok a_flake.
Proof. vm_compute. reflexivity. Qed.
Lemma a_flake_wf : sf_wf a_flake.
Proof. by destruct (Snowflake.New_wf _ _ _ a_flake_new). Qed.

Lemma parse_pack_witness :
  ParseIdToTimestamp a_flake (pack a_flake (midnight + 7) 3) = midnight + 7 /\
  ParseIdToMachineId a_flake (pack a_flake (midnight + 7) 3) = machineID a_flake /\
  ParseIdToSequence a_flake (pack a_flake (midnight + 7) 3) = 3.
Proof.
  apply (parse_pack a_flake (midnight + 7) 3); [exact a_flake_wf|..]; unfold tick;
    apply (bool_decide_unpack _); vm_compute; exact I.
Defined.

Definition two_ids := GenIds 2 a_flake [midnight + 7; midnight + 7].
Definition two_ids_value := match two_ids with Some (ids, _) => ids | None => [] end.
Definition two_ids_state := match two_ids with Some (_, s) => s | None => a_flake end.
Lemma GenIds_increasing_witness :
  length two_ids_value = 2%nat /\ StronglySorted Z.lt two_ids_value /\
  Forall (fun id => 0 <= id < 2 ^ 63 /\ (tick a_flake (lastTime a_flake) -> last_id a_flake < id)) two_ids_value.
Proof.
  apply (GenIds_increasing 2 a_flake [midnight + 7; midnight + 7] two_ids_value two_ids_state).
  - exact a_flake_wf.
  - intros r Hr. apply elem_of_cons in Hr as [-> | Hr]; [vm_compute; split; discriminate|].
    apply list_elem_of_singleton in Hr as ->. vm_compute. split; discriminate.
  - vm_compute. discriminate.
  - vm_compute. reflexivity.
Defined.

Lemma GenId_returns_witness :
  exists id s' rest, GenId a_flake ([0; 5] ++ 6 :: 7 :: []) = Some (id, s', rest).
Proof. apply (GenId_returns a_flake [0; 5] 6 7 []); vm_compute; reflexivity. Defined.

(** ** The buffer *)

Definition some_ops : list op := [OWrite [1; 2; 3]; ORead 2; OWrite [4; 5; 6; 7; 8; 9; 10]; OSkip 1; OPeek 3].
Definition buffer8 : Buffer := Buffer.New 4 (Some 8).
Lemma buffer_refines_queue_witness :
  let '(b', rs) := run exec buffer8 some_ops in
  run (queue_exec (b_maxCap buffer8)) [] some_ops = (Bytes b', rs) /\ buf_wf b'.
Proof.
  apply (buffer_refines_queue 4 (Some 8) some_ops).
  - intros m [= <-]. reflexivity.
  - repeat constructor; vm_compute; discriminate.
Defined.

Lemma list_read_bound rd n d e rd' : 0 <= n -> list_read rd n = (d, e, rd') -> zlen d <= n.
Proof.
  unfold list_read. intros Hn. destruct rd as [|c rd]; intros [= <- <- <-]; unfold zlen; [simpl; lia|].
  rewrite length_firstn. lia.
Qed.

Lemma WriteReader_total_witness :
  exists b' rd' data e,
    WriteReader list_read 9 buffer8 [5; 6] = Some (b', rd', zlen data, e) /\
    reads list_read [5; 6] data rd' /\ buf_wf b' /\ Bytes b' = Bytes buffer8 ++ data /\ e <> Some EOF.
Proof.
  apply (WriteReader_total list_read list_read_bound 9 buffer8 [5; 6]).
  - destruct (Buffer.New_buf_wf 4 (Some 8)) as [Hwf _]; [|exact Hwf]. intros m [= <-]. reflexivity.
  - reflexivity.
Defined.
