(* ===== verification/Support.v ===== *)
(** * pkg/glog, pkg/grs, pkg/stopper: loggers, recovering goroutines, flags

    glog/config.go as it is; of glog/logger.go [New], the global logger and
    [Panic]; Try, SafeGo and Group of grs/func.go. go.uber.org/zap, which writes
    the logs, is the class [Zap]. *)

From S2P Require Import Prelude.

(** ** strings.ToLower, on ASCII

    A level with other characters is refused whatever case they have. *)
Definition lower (a : Ascii.ascii) : Ascii.ascii :=
  let n := Ascii.N_of_ascii a in
  if (65 <=? n)%N && (n <=? 90)%N then Ascii.ascii_of_N (n + 32) else a.
Fixpoint ToLower (s : string) : string :=
  match s with EmptyString => EmptyString | String a s => String (lower a) (ToLower s) end.

(** ** glog/config.go *)

Record Config := mkConfig {
  Path : string; Level : string; PrintConsole : bool; MaxSize : Z; MaxBackups : Z; MaxAge : Z;
  Compress : bool; LocalTime : bool
}.
Definition DefaultConfig : Config := mkConfig "./logs/app.log" "info" true 500 100 30 false true.

Definition NormalizeOptions (options : Config) : Config :=
  let defaults := DefaultConfig in
  mkConfig
    (if bool_decide (Path options = "") then Path defaults else Path options)
    (if bool_decide (Level options = "") then Level defaults else ToLower (Level options))
    (PrintConsole options)
    (if MaxSize options <=? 0 then MaxSize defaults else MaxSize options)
    (if MaxBackups options <=? 0 then MaxBackups defaults else MaxBackups options)
    (if MaxAge options <=? 0 then MaxAge defaults else MaxAge options)
    (Compress options) (LocalTime options).

Inductive logerr :=
| ErrPathEmpty | ErrInvalidLevel (level : string) | ErrInvalidMaxSize (n : Z) | ErrInvalidMaxBackups (n : Z)
| ErrInvalidMaxAge (n : Z) | ErrMkdir (code : Z).

(** zapcore's levels. *)
Definition DebugLevel : Z := -1.
Definition InfoLevel : Z := 0.
Definition WarnLevel : Z := 1.
Definition ErrorLevel : Z := 2.
Definition DPanicLevel : Z := 3.
Definition PanicLevel : Z := 4.
Definition FatalLevel : Z := 5.
Definition levels : list (string * Z) :=
  [("debug", DebugLevel); ("info", InfoLevel); ("warn", WarnLevel); ("error", ErrorLevel);
   ("dpanic", DPanicLevel); ("panic", PanicLevel); ("fatal", FatalLevel)].

Definition ValidateOptions (options : Config) : option logerr :=
  if bool_decide (Path options = "") then Some ErrPathEmpty
  else if negb (bool_decide (ToLower (Level options) ∈ levels.*1)) then Some (ErrInvalidLevel (Level options))
  else if MaxSize options <=? 0 then Some (ErrInvalidMaxSize (MaxSize options))
  else if MaxBackups options <=? 0 then Some (ErrInvalidMaxBackups (MaxBackups options))
  else if MaxAge options <=? 0 then Some (ErrInvalidMaxAge (MaxAge options))
  else None.

Definition parseLevel (level : string) : Z :=
  match list_find (fun x => x.1 = ToLower level) levels with Some (_, (_, l)) => l | None => InfoLevel end.

(** ** glog/logger.go *)

Section logger.
(** Options of zap, and its hooks. *)
Context {Hook : Type}.

Record Logger := mkLogger { lg_config : Config; lg_level : Z; lg_fields : list (string * string); lg_hook : option Hook }.

(** [New]; [mkdir] is what os.MkdirAll says to the directory of the log file. *)
Definition New (cfg : Config) (fields : list (string * string)) (hook : option Hook) (mkdir : string -> option Z)
  : res logerr Logger :=
  let cfg := NormalizeOptions cfg in
  match ValidateOptions cfg with
  | Some err => Err err
  | None =>
    match mkdir (Path cfg) with
    | Some code => Err (ErrMkdir code)
    | None => Ok (mkLogger cfg (parseLevel (Level cfg)) fields hook)
    end
  end.
End logger.
Arguments Logger : clear implicits.

Lemma lower_lower a : lower (lower a) = lower a.
Proof. destruct a as [[] [] [] [] [] [] [] []]; reflexivity. Qed.
Lemma ToLower_idem s : ToLower (ToLower s) = ToLower s.
Proof. induction s as [|a s IH]; simpl; [done|]. by rewrite lower_lower, IH. Qed.
Lemma ToLower_empty s : ToLower s = "" <-> s = "".
Proof. by destruct s. Qed.

Lemma NormalizeOptions_idem c : NormalizeOptions (NormalizeOptions c) = NormalizeOptions c.
Proof.
  destruct c as [p l pc ms mb ma co lt]. unfold NormalizeOptions. simpl. f_equal.
  - destruct (decide (p = "")) as [->|E]; [done|]. by rewrite !(bool_decide_eq_false_2 _ E).
  - destruct (decide (l = "")) as [->|E]; [done|]. rewrite !(bool_decide_eq_false_2 _ E).
    rewrite bool_decide_eq_false_2 by (by rewrite ToLower_empty). apply ToLower_idem.
  - destruct (ms <=? 0) eqn:E; [done|]. by rewrite E.
  - destruct (mb <=? 0) eqn:E; [done|]. by rewrite E.
  - destruct (ma <=? 0) eqn:E; [done|]. by rewrite E.
Qed.

Lemma Path_normal c : Path (NormalizeOptions c) <> "".
Proof. unfold NormalizeOptions. simpl. by case_bool_decide. Qed.
Lemma Level_normal c : Level (NormalizeOptions c) = if bool_decide (Level c = "") then "info" else ToLower (Level c).
Proof. done. Qed.
Lemma Level_lower c : ToLower (Level (NormalizeOptions c)) = Level (NormalizeOptions c).
Proof. rewrite Level_normal. case_bool_decide; [done|apply ToLower_idem]. Qed.
Lemma sizes_normal c (n := NormalizeOptions c) : 0 < MaxSize n /\ 0 < MaxBackups n /\ 0 < MaxAge n.
Proof. unfold n, NormalizeOptions. simpl. split_and!; case_match; zbool; lia. Qed.

Lemma Validate_normal c :
  ValidateOptions (NormalizeOptions c) =
  if bool_decide (Level (NormalizeOptions c) ∈ levels.*1) then None
  else Some (ErrInvalidLevel (Level (NormalizeOptions c))).
Proof.
  unfold ValidateOptions. rewrite (bool_decide_eq_false_2 _ (Path_normal c)), Level_lower.
  destruct (sizes_normal c) as (H1 & H2 & H3). apply Z.leb_gt in H1, H2, H3. rewrite H1, H2, H3.
  by destruct (bool_decide _).
Qed.

Lemma parseLevel_levels level : ToLower level ∈ levels.*1 -> (ToLower level, parseLevel level) ∈ levels.
Proof.
  intros Hin. apply list_elem_of_fmap in Hin as ([name l] & E & Hin). simpl in E. subst name. unfold parseLevel.
  destruct (list_find_elem_of (fun x => x.1 = ToLower level) levels _ Hin eq_refl) as ([i [name l']] & Hf).
  rewrite Hf. apply list_find_Some in Hf as (Hi & E & _). simpl in E. subst name. by eapply list_elem_of_lookup_2.
Qed.

(** After normalisation the level is the only thing left to refuse, and a logger
    that was made has the level that was asked for. *)
Theorem New_refuses_levels_only {Hook} c fields (hook : option Hook) mkdir :
  match New c fields hook mkdir with
  | Ok l => Level c = "" /\ lg_level l = InfoLevel \/ (ToLower (Level c), lg_level l) ∈ levels
  | Err (ErrInvalidLevel level) => level = ToLower (Level c) /\ level <> "" /\ level ∉ levels.*1
  | Err (ErrMkdir code) => mkdir (if bool_decide (Path c = "") then "./logs/app.log" else Path c) = Some code
  | Err _ => False
  end.
Proof.
  unfold New. rewrite Validate_normal, Level_normal.
  case_bool_decide as E1; case_bool_decide as E2; simpl in E1.
  - destruct (mkdir _) as [code|]; [done|]. by left.
  - destruct (mkdir _) as [code|]; [done|]. right. cbn [lg_level].
    rewrite <- (ToLower_idem (Level c)) at 1. apply parseLevel_levels. by rewrite ToLower_idem.
  - exfalso. apply E1. vm_compute. set_solver.
  - split_and!; [done|by rewrite ToLower_empty|done].
Qed.

(** ** Panics

    A Go function acts on a world and returns or panics. *)
Inductive outcome (P : Type) := Returned | Panicked (v : P).
Arguments Returned {P}.
Arguments Panicked {P} v.
Definition func (W P : Type) : Type := W -> W * outcome P.

(** zap's [Logger.Panic]: "the logger then panics, even if logging at PanicLevel
    is disabled", unless it was made with [WithPanicHook]. *)
Class Zap (W P Hook : Type) := {
  zap_Panic : Logger Hook -> string -> func W P;
  zap_text : string -> P }.
Class LawfulZap (W P Hook : Type) `{Zap W P Hook} := {
  zap_panics l msg w : lg_hook l = None -> (zap_Panic l msg w).2 = Panicked (zap_text msg) }.

Section grs.
Context {W P E Hook : Type} `{Zap W P Hook}.
(** Whether a panic value is an error, and [fmt.Errorf("panic: %v", rec)]. *)
Context (as_error : P -> option E) (errorf : P -> E).
Abbreviation func := (func W P).

(** glog.Panic, on the package's logger. *)
Definition glog_Panic (log : option (Logger Hook)) (msg : string) : func :=
  match log with Some l => zap_Panic l msg | None => fun w => (w, Panicked (zap_text msg)) end.

Definition Try (log : option (Logger Hook)) (fn : option func) (recoverFunc : option (E -> func)) : func :=
  fun w =>
    match fn with
    | None => (w, Returned)
    | Some fn =>
      match fn w with
      | (w, Returned) => (w, Returned)
      | (w, Panicked rec) =>
        let err := default (errorf rec) (as_error rec) in
        match recoverFunc with
        | Some recoverFunc => recoverFunc err w
        | None => glog_Panic log "goroutine panic recovered" w
        end
      end
    end.

(** What the goroutine of [SafeGo] does. A panic that leaves it ends the program. *)
Definition SafeGo (log : option (Logger Hook)) (fn : option func) : func := Try log fn None.

(** [Group]: the wait group's counter and the context. *)
Record Group := mkGroup { runWG : Z; g_cancelled : bool }.
Definition NewGroup (parent_cancelled : bool) : Group := mkGroup 0 parent_cancelled.
Definition Cancel (g : Group) : Group := mkGroup (runWG g) true.
(** [Go]: before the goroutine starts, and the goroutine, whose deferred Done
    runs whether it returns or panics. *)
Definition Go (g : Group) : Group := mkGroup (runWG g + 1) (g_cancelled g).
Definition Go_goroutine (log : option (Logger Hook)) (fn : option func) (gw : Group * W) : (Group * W) * outcome P :=
  let '(w, out) := Try log fn None gw.2 in ((mkGroup (runWG gw.1 - 1) (g_cancelled gw.1), w), out).

(** Whatever a function does, [Try] with a handler ends as the handler does. *)
Theorem Try_hands_panics_over log fn f w :
  Try log (Some fn) (Some f) w =
  match fn w with
  | (w', Returned) => (w', Returned)
  | (w', Panicked v) => f (default (errorf v) (as_error v)) w'
  end.
Proof. unfold Try. by destruct (fn w) as [w' [|v]]. Qed.

(** Without a handler a panic is logged by a logger that panics again: unless the
    package's logger was replaced by one with a hook, the goroutine of [SafeGo]
    panics exactly when its function does. *)
Theorem SafeGo_panics_again `{!LawfulZap W P Hook} log fn w :
  (forall l, log = Some l -> lg_hook l = None) ->
  (SafeGo log (Some fn) w).2 = Returned <-> (fn w).2 = Returned.
Proof.
  intros Hl. unfold SafeGo, Try. destruct (fn w) as [w' [|v]]; [done|]. simpl. unfold glog_Panic.
  destruct log as [l|]; [|done]. rewrite (zap_panics l) by by apply Hl. done.
Qed.

Theorem goroutines_are_counted_down log fn g w :
  runWG (Go_goroutine log fn (Go g, w)).1.1 = runWG g.
Proof. unfold Go_goroutine. cbn [snd]. destruct (Try log fn None w) as [w1 out]. simpl. lia. Qed.
End grs.

(** ** pkg/stopper *)

Definition IsStop (isStopped : bool) : bool := isStopped.
(** CompareAndSwap(false, true): the flag after it, and whether it was this call. *)
Definition Stop (isStopped : bool) : bool * bool := (true, negb isStopped).
