(* ===== verification/Config.v ===== *)
(** * pkg/fileutil: configuration files that include others

    ViperLoadConfigWithInclude of file.go, and the functions of path/filepath it
    uses, with the separator '/'. viper, which reads, merges and clears settings,
    is the class [Viper]. *)

From S2P Require Import Prelude.

(** ** path/filepath *)

Definition separator : Ascii.ascii := Ascii.Ascii true true true true false true false false. (* / *)

(** The parts between separators: always one more than there are separators. *)
Fixpoint parts (path : string) : list string :=
  match path with
  | EmptyString => [""]
  | String a path =>
    if bool_decide (a = separator) then "" :: parts path
    else match parts path with p :: ps => String a p :: ps | [] => [String a ""] end
  end.

Definition IsAbs (path : string) : bool :=
  match path with String a _ => bool_decide (a = separator) | EmptyString => false end.

(** The parts that stay, the last first; ".." takes the one before it away. *)
Fixpoint clean_parts (rooted : bool) (kept ps : list string) : list string :=
  match ps with
  | [] => kept
  | p :: ps =>
    if bool_decide (p = "" \/ p = ".") then clean_parts rooted kept ps
    else if bool_decide (p = "..") then
      match kept with
      | k :: kept' => if bool_decide (k = "..") then clean_parts rooted (p :: kept) ps else clean_parts rooted kept' ps
      | [] => clean_parts rooted (if rooted then [] else [p]) ps
      end
    else clean_parts rooted (p :: kept) ps
  end.

Definition unparts (rooted : bool) (kept : list string) : string :=
  let out := String.concat "/" (rev kept) in
  if rooted then "/" +:+ out else if bool_decide (out = "") then "." else out.

Definition Clean (path : string) : string := unparts (IsAbs path) (clean_parts (IsAbs path) [] (parts path)).

(** [Dir]: what comes before the last separator, cleaned. *)
Definition Dir (path : string) : string :=
  match removelast (parts path) with
  | [] => "."
  | ps => unparts (IsAbs path) (clean_parts (IsAbs path) [] ps)
  end.

Definition Join (a b : string) : string :=
  if bool_decide (a = "") then if bool_decide (b = "") then "" else Clean b
  else Clean (a +:+ "/" +:+ b).

(** ** ViperLoadConfigWithInclude *)

(** What the key "include" holds: nothing, a string, a list (of strings and other
    values), or another value. *)
Inductive raw_include := NoInclude | IncludeString (s : string) | IncludeList (l : list (option string)) | IncludeOther.

Class Viper (V : Type) := {
  ReadInConfig : string -> res Z V;
  Get_include : V -> raw_include;
  MergeConfigMap : V -> V -> res Z V; (* the second one's AllSettings *)
  Set_include_nil : V -> V }.

Inductive cfgerr :=
| ErrRead (path : string) (code : Z) | ErrInclude (path : string) (e : cfgerr) | ErrMerge (path : string) (code : Z).

Definition includes_of (raw : raw_include) : list string :=
  match raw with IncludeString s => [s] | IncludeList l => omap id l | _ => [] end.

Definition fullIncPath (baseDir incPath : string) : string :=
  if negb (IsAbs incPath) then Join baseDir incPath else incPath.

Section load.
Context `{Viper V}.

(** The loop over the includes; [load] is the recursive call. *)
Fixpoint merge_includes (load : string -> option (res cfgerr V)) (baseDir : string) (v : V) (includes : list string)
  : option (res cfgerr V) :=
  match includes with
  | [] => Some (Ok (Set_include_nil v))
  | incPath :: includes =>
    match load (fullIncPath baseDir incPath) with
    | None => None
    | Some (Err err) => Some (Err (ErrInclude incPath err))
    | Some (Ok incV) =>
      match MergeConfigMap v incV with
      | Err code => Some (Err (ErrMerge incPath code))
      | Ok v => merge_includes load baseDir v includes
      end
    end
  end.

(** [None]: more than [fuel] files deep. *)
Fixpoint ViperLoadConfigWithInclude (fuel : nat) (configPath : string) : option (res cfgerr V) :=
  match fuel with
  | O => None
  | S fuel =>
    match ReadInConfig configPath with
    | Err code => Some (Err (ErrRead configPath code))
    | Ok v => merge_includes (ViperLoadConfigWithInclude fuel) (Dir configPath) v (includes_of (Get_include v))
    end
  end.

(** The file [p] includes the file [q]. *)
Definition includes (p q : string) : Prop :=
  exists v inc, ReadInConfig p = Ok v /\ inc ∈ includes_of (Get_include v) /\ q = fullIncPath (Dir p) inc.

Lemma merge_total load baseDir v l :
  (forall inc, inc ∈ l -> is_Some (load (fullIncPath baseDir inc))) -> is_Some (merge_includes load baseDir v l).
Proof.
  revert v. induction l as [|inc l IH]; intros v Hl; simpl; [done|].
  destruct (Hl inc ltac:(apply list_elem_of_here)) as [[incV|err] ->]; [|done].
  destruct (MergeConfigMap v incV); [|done]. apply IH. intros i Hi. apply Hl. by apply list_elem_of_further.
Qed.

Lemma merge_same load load' baseDir v l r :
  (forall p r, load p = Some r -> load' p = Some r) ->
  merge_includes load baseDir v l = Some r -> merge_includes load' baseDir v l = Some r.
Proof.
  intros Hl. revert v. induction l as [|inc l IH]; intros v; simpl; [done|].
  destruct (load _) as [r'|] eqn:E; [|done]. rewrite (Hl _ _ E). destruct r' as [incV|]; [|done].
  destruct (MergeConfigMap v incV); [apply IH|done].
Qed.

(** A result does not depend on the depth that was allowed. *)
Lemma load_more fuel fuel' p r :
  (fuel <= fuel')%nat -> ViperLoadConfigWithInclude fuel p = Some r -> ViperLoadConfigWithInclude fuel' p = Some r.
Proof.
  revert fuel' p r. induction fuel as [|fuel IH]; intros [|fuel'] p r Hle; simpl; [done|done|lia|].
  destruct (ReadInConfig p) as [v|]; [|done]. apply merge_same. intros q r'. apply IH. lia.
Qed.

(** Files that do not include each other in a circle load, however deep: with a
    file's rank above the ranks of those it includes, that depth is enough. *)
Theorem acyclic_includes_load (rank : string -> nat) p :
  (forall p q, includes p q -> (rank q < rank p)%nat) ->
  is_Some (ViperLoadConfigWithInclude (S (rank p)) p).
Proof.
  intros Hr. assert (Hall : forall n q, (rank q < n)%nat -> is_Some (ViperLoadConfigWithInclude n q)).
  { induction n as [|n IH]; intros q Hq; [lia|]. simpl. destruct (ReadInConfig q) as [v|] eqn:E; [|done].
    apply merge_total. intros inc Hinc. apply IH.
    pose proof (Hr q (fullIncPath (Dir q) inc) ltac:(by exists v, inc)). lia. }
  apply Hall. lia.
Qed.

(** A file whose first include leads back to it never loads. *)
Inductive leads : string -> string -> Prop :=
| leads_one p q v inc l :
    ReadInConfig p = Ok v -> includes_of (Get_include v) = inc :: l -> q = fullIncPath (Dir p) inc -> leads p q
| leads_trans p q r : leads p q -> leads q r -> leads p r.

Lemma leads_None p q fuel :
  leads p q -> (forall fuel', (fuel' < fuel)%nat -> ViperLoadConfigWithInclude fuel' q = None) ->
  ViperLoadConfigWithInclude fuel p = None.
Proof.
  intros Hl. revert fuel. induction Hl as [p q v inc l E1 E2 ->|p q r H1 IH1 H2 IH2]; intros [|fuel] Hq; simpl; [done| |done|].
  - rewrite E1, E2. simpl. by rewrite Hq by lia.
  - apply (IH1 (S fuel)). intros n Hn. apply IH2. intros n' Hn'. apply Hq. lia.
Qed.

Theorem circular_include_never_loads p fuel : leads p p -> ViperLoadConfigWithInclude fuel p = None.
Proof.
  intros Hl. induction (Nat.lt_wf_0 fuel) as [fuel _ IH]. by apply (leads_None p p).
Qed.
End load.

(** ** Examples: settings as association lists, the later file's keys win *)

Module Example.
Record settings := mkSettings { keys : list (string * Z); inc : raw_include }.
Definition file (name : string) : res Z settings :=
  if bool_decide (name = "conf/main.yaml") then Ok (mkSettings [("port", 1); ("mode", 1)] (IncludeList [Some "db.yaml"; None; Some "../etc/net.yaml"]))
  else if bool_decide (name = "conf/db.yaml") then Ok (mkSettings [("db", 2); ("port", 2)] NoInclude)
  else if bool_decide (name = "etc/net.yaml") then Ok (mkSettings [("port", 3)] NoInclude)
  else if bool_decide (name = "loop.yaml") then Ok (mkSettings [] (IncludeString "./loop.yaml"))
  else Err 2.
Definition put (l : list (string * Z)) (k : string * Z) : list (string * Z) := filter (fun x => x.1 <> k.1) l ++ [k].

#[local] Instance viper : Viper settings := {
  ReadInConfig := file; Get_include := inc;
  MergeConfigMap v w := Ok (mkSettings (foldl put (keys v) (keys w)) (inc v));
  Set_include_nil v := mkSettings (keys v) NoInclude }.

Example later_files_win :
  ViperLoadConfigWithInclude 2 "conf/main.yaml" = Some (Ok (mkSettings [("mode", 1); ("db", 2); ("port", 3)] NoInclude)).
Proof. vm_compute. reflexivity. Qed.

Example paths :
  Clean "a//b/../c/." = "a/c" /\ Clean "" = "." /\ Clean "/.." = "/" /\ Clean "../x" = "../x" /\
  Dir "conf/main.yaml" = "conf" /\ Dir "main.yaml" = "." /\ Dir "/main.yaml" = "/" /\ Join "conf" "../etc/net.yaml" = "etc/net.yaml".
Proof. vm_compute. split_and!; reflexivity. Qed.

Lemma circular_include_never_loads_witness : ViperLoadConfigWithInclude 1000 "loop.yaml" = None.
Proof.
  apply (circular_include_never_loads "loop.yaml" 1000).
  eapply (leads_one "loop.yaml" _ (mkSettings [] (IncludeString "./loop.yaml")) "./loop.yaml" []); reflexivity.
Defined.
End Example.
