(* ===== verification/Component.v ===== *)
(** * pkg/component: the lifecycle controller and the component manager

    [Controller] (lifecycle_controller.go) guards the Init, Start and Stop of a
    component; [Manager] (component_mgr.go) registers components by name and
    walks them by priority and registration order. *)

From S2P Require Import Prelude.

(** ** lifecycle_controller.go *)

Inductive State : Type := StateNew | StateInited | StateStarted | StateStopped.
#[export] Instance State_eq_dec : EqDecision State.
Proof. solve_decision. Defined.

Definition State_String (s : State) : string :=
  match s with
  | StateNew => "new" | StateInited => "inited"
  | StateStarted => "started" | StateStopped => "stopped"
  end.

Record Controller : Type := mkController {
  state : State; initCalled : bool; startCalled : bool; stopCalled : bool
}.

Definition zeroController : Controller := mkController StateNew false false false.

(** Errors, the callback's own among them ([%w]). *)
Inductive lcerr (E : Type) : Type :=
| ErrInitAlreadyCalled | ErrStartAlreadyCalled | ErrStopAlreadyCalled
| ErrInvalidOrder (current : State)
| ErrInitFailed (e : E) | ErrStartFailed (e : E) | ErrStopFailed (e : E).
Arguments ErrInitAlreadyCalled {E}.
Arguments ErrStartAlreadyCalled {E}.
Arguments ErrStopAlreadyCalled {E}.
Arguments ErrInvalidOrder {E}.
Arguments ErrInitFailed {E}.
Arguments ErrStartFailed {E}.
Arguments ErrStopFailed {E}.

#[export] Instance lcerr_eq_dec {E} `{EqDecision E} : EqDecision (lcerr E).
Proof. solve_decision. Defined.

Section Controller.
(** [run] acts on a world [W] and may fail; nil is [None]. *)
Context {W E : Type}.
Definition callback : Type := option (W -> W * option E).

Definition run_callback (run : callback) (w : W) : W * option E :=
  match run with Some f => f w | None => (w, None) end.

Definition Init (c : Controller) (run : callback) (w : W) : Controller * W * option (lcerr E) :=
  if initCalled c then (c, w, Some ErrInitAlreadyCalled)
  else if negb (bool_decide (state c = StateNew)) then (c, w, Some (ErrInvalidOrder (state c)))
  else
    let c := mkController (state c) true (startCalled c) (stopCalled c) in
    match run_callback run w with
    | (w, Some err) => (c, w, Some (ErrInitFailed err))
    | (w, None) => (mkController StateInited (initCalled c) (startCalled c) (stopCalled c), w, None)
    end.

Definition Start (c : Controller) (run : callback) (w : W) : Controller * W * option (lcerr E) :=
  if startCalled c then (c, w, Some ErrStartAlreadyCalled)
  else if negb (bool_decide (state c = StateInited)) then (c, w, Some (ErrInvalidOrder (state c)))
  else
    let c := mkController (state c) (initCalled c) true (stopCalled c) in
    match run_callback run w with
    | (w, Some err) => (c, w, Some (ErrStartFailed err))
    | (w, None) => (mkController StateStarted (initCalled c) (startCalled c) (stopCalled c), w, None)
    end.

Definition Stop (c : Controller) (run : callback) (w : W) : Controller * W * option (lcerr E) :=
  if stopCalled c then (c, w, Some ErrStopAlreadyCalled)
  else if negb (initCalled c) then (c, w, Some (ErrInvalidOrder (state c)))
  else
    let c := mkController (state c) (initCalled c) (startCalled c) true in
    match run_callback run w with
    | (w, Some err) => (c, w, Some (ErrStopFailed err))
    | (w, None) => (mkController StateStopped (initCalled c) (startCalled c) (stopCalled c), w, None)
    end.
End Controller.
Arguments callback : clear implicits.

(** ** component.go: what a component embeds *)

Section Base.
Context {W E : Type}.

Record BaseComponent : Type := mkBase { lifecycle : Controller; base_name : string }.

Definition BaseComponent_GetName (c : BaseComponent) : string := base_name c.
Definition BaseComponent_SetName (c : BaseComponent) (s : string) : BaseComponent := mkBase (lifecycle c) s.
Definition BaseComponent_Priority (c : BaseComponent) : Z := 0.

Definition guarded (phase : Controller -> callback W E -> W -> Controller * W * option (lcerr E))
  (c : BaseComponent) (run : callback W E) (w : W) : BaseComponent * W * option (lcerr E) :=
  let '(l, w, err) := phase (lifecycle c) run w in (mkBase l (base_name c), w, err).
Definition GuardInit : BaseComponent -> callback W E -> W -> BaseComponent * W * option (lcerr E) := guarded Init.
Definition GuardStart : BaseComponent -> callback W E -> W -> BaseComponent * W * option (lcerr E) := guarded Start.
Definition GuardStop : BaseComponent -> callback W E -> W -> BaseComponent * W * option (lcerr E) := guarded Stop.

Definition BaseComponent_Init (c : BaseComponent) (w : W) : BaseComponent * W * option (lcerr E) := GuardInit c None w.
Definition BaseComponent_Start (c : BaseComponent) (w : W) : BaseComponent * W * option (lcerr E) := GuardStart c None w.
Definition BaseComponent_Stop (c : BaseComponent) (w : W) : BaseComponent * W * option (lcerr E) := GuardStop c None w.

(** [Status], also of a nil component. *)
Definition Status (c : option BaseComponent) : State :=
  match c with None => StateNew | Some c => state (lifecycle c) end.
End Base.

(** ** component.go: a component is its name, its priority if it has one, and
    its three lifecycle methods acting on a world. *)

Section Manager.
Context {W E : Type}.

Record IComponent : Type := mkComponent {
  GetName : string;
  Priority : option Z; (* None: not a PriorityComponent *)
  c_Init : W -> W * option E;
  c_Start : W -> W * option E;
  c_Stop : W -> W * option E
}.

(** ** component_mgr.go *)

Inductive mgrerr : Type :=
| ErrComponentCannotBeNil | ErrComponentTypeCannotBeNil
| ErrComponentAlreadyRegistered | ErrComponentNotRegistered.

Record Manager : Type := mkManager {
  components : gmap string IComponent;
  order : list string
}.

Definition NewComponentsMgr : Manager := mkManager ∅ [].

Definition Count (cm : Manager) : Z := zlen (order cm).
Definition Get (cm : Manager) (name : string) : option IComponent := components cm !! name.

(** Components given to [Add] may be nil; what was added before an error stays. *)
Fixpoint Add (cm : Manager) (cs : list (option IComponent)) : Manager * option mgrerr :=
  match cs with
  | [] => (cm, None)
  | None :: _ => (cm, Some ErrComponentCannotBeNil)
  | Some c :: cs' =>
    match components cm !! GetName c with
    | Some _ => (cm, Some ErrComponentAlreadyRegistered)
    | None => Add (mkManager (<[GetName c := c]> (components cm)) (order cm ++ [GetName c])) cs'
    end
  end.

(** The loop that cuts the first occurrence of [name] out of the order. *)
Fixpoint remove_name (name : string) (l : list string) : list string :=
  match l with
  | [] => []
  | n :: l' => if bool_decide (n = name) then l' else n :: remove_name name l'
  end.

Definition Remove (cm : Manager) (t : option IComponent) : Manager * option mgrerr :=
  match t with
  | None => (cm, Some ErrComponentTypeCannotBeNil)
  | Some t =>
    match components cm !! GetName t with
    | None => (cm, Some ErrComponentNotRegistered)
    | Some _ =>
      (mkManager (delete (GetName t) (components cm)) (remove_name (GetName t) (order cm)), None)
    end
  end.

Definition priorityOf (c : IComponent) : Z :=
  match Priority c with Some p => p | None => 0 end.

(** [sort.SliceStable] by priority, as an insertion sort: an element goes before
    the first one that is not smaller. *)
Fixpoint insert_by_priority (c : IComponent) (l : list IComponent) : list IComponent :=
  match l with
  | [] => [c]
  | d :: l' => if priorityOf d <? priorityOf c then d :: insert_by_priority c l' else c :: l
  end.

Definition SliceStable (l : list IComponent) : list IComponent :=
  foldr insert_by_priority [] l.

Definition orderedComponents (cm : Manager) : list IComponent :=
  SliceStable (omap (fun name => components cm !! name) (order cm)).

(** The walks: [fn] acts on a state and says whether to go on. *)
Fixpoint range_until {S} (fn : S -> IComponent -> S * bool) (s : S) (l : list IComponent) : S :=
  match l with
  | [] => s
  | c :: l' => let '(s, go) := fn s c in if go then range_until fn s l' else s
  end.

Definition RangeInOrder {S} (cm : Manager) (fn : S -> IComponent -> S * bool) (s : S) : S :=
  range_until fn s (orderedComponents cm).
Definition RangeInReverseOrder {S} (cm : Manager) (fn : S -> IComponent -> S * bool) (s : S) : S :=
  range_until fn s (rev (orderedComponents cm)).
(** [Range]: every entry of the concurrent map, in the order [entries] in which the
    map yields them; [fn] cannot stop it. *)
Definition Range {S} (entries : list (string * IComponent)) (fn : S -> IComponent -> S) (s : S) : S :=
  fold_left (fun s entry => fn s entry.2) entries s.
End Manager.
Arguments IComponent : clear implicits.
Arguments Manager : clear implicits.

(** ** The lifecycle runs each callback at most once and in order *)

Inductive phase_call : Type := CInit | CStart | CStop.
#[export] Instance phase_call_eq_dec : EqDecision phase_call.
Proof. solve_decision. Defined.

(** A callback that was run, and whether it returned nil. *)
Definition event : Type := phase_call * bool.

(** A call together with the error its callback returns, if it is run. *)
Definition lifecycle_call {E} (cw : Controller * list event) (k : phase_call * option E)
  : (Controller * list event) * option (lcerr E) :=
  let '(c, log) := cw in
  let ok := match snd k with None => true | Some _ => false end in
  let run := Some (fun log => (log ++ [(fst k, ok)], snd k)) in
  let '(c', log', err) :=
    match fst k with
    | CInit => Init c run log | CStart => Start c run log | CStop => Stop c run log
    end in
  ((c', log'), err).

Definition lifecycle_run {E} (ks : list (phase_call * option E)) : Controller * list event :=
  fold_left (fun cw k => fst (lifecycle_call cw k)) ks (zeroController, []).

(** The histories of callbacks a controller can produce: Init, then Start only
    after a successful Init, and Stop at most once; Start can follow a Stop only
    when that Stop failed. *)
Definition legal (log : list event) : bool :=
  match log with
  | [] | [(CInit, _)] | [(CInit, true); (CStart, _)] | [(CInit, _); (CStop, _)]
  | [(CInit, true); (CStart, _); (CStop, _)]
  | [(CInit, true); (CStop, false); (CStart, _)] => true
  | _ => false
  end.

Definition target (k : phase_call) : State :=
  match k with CInit => StateInited | CStart => StateStarted | CStop => StateStopped end.

(** The state is that of the last callback that succeeded. *)
Definition state_after (log : list event) : State :=
  fold_left (fun s (e : event) => if snd e then target (fst e) else s) log StateNew.

Definition called (k : phase_call) (log : list event) : bool :=
  existsb (fun e => bool_decide (fst e = k)) log.

Definition lifecycle_inv (cw : Controller * list event) : Prop :=
  let '(c, log) := cw in
  legal log = true /\ state c = state_after log /\
  initCalled c = called CInit log /\ startCalled c = called CStart log /\
  stopCalled c = called CStop log.

Lemma lifecycle_step_inv {E} cw (k : phase_call * option E) :
  lifecycle_inv cw -> lifecycle_inv (fst (lifecycle_call cw k)).
Proof.
  destruct cw as [[st i s p] log], k as [call e].
  cbn [lifecycle_inv initCalled startCalled stopCalled state].
  intros (Hlog & -> & -> & -> & ->).
  repeat match goal with
    | l : list event |- _ => destruct l as [|[[] []] l]; try discriminate
    end;
    destruct call, e; vm_compute; done.
Qed.

(** Any sequence of lifecycle calls runs each callback at most once and in the order
    init, start, stop. *)
Theorem lifecycle_legal {E} (ks : list (phase_call * option E)) :
  lifecycle_inv (lifecycle_run ks).
Proof.
  unfold lifecycle_run.
  assert (H0 : lifecycle_inv (zeroController, [])) by (by vm_compute).
  revert H0. generalize (zeroController, @nil event).
  induction ks as [|k ks IH]; intros cw Hcw; [done|]. apply IH. by apply lifecycle_step_inv.
Qed.

(** A component that embeds [BaseComponent] and guards its own callbacks. *)
Definition base_call {E} (cw : BaseComponent * list event) (k : phase_call * option E) : BaseComponent * list event :=
  let ok := match snd k with None => true | Some _ => false end in
  let run := Some (fun log => (log ++ [(fst k, ok)], snd k)) in
  (match fst k with
   | CInit => GuardInit (fst cw) run (snd cw) | CStart => GuardStart (fst cw) run (snd cw)
   | CStop => GuardStop (fst cw) run (snd cw)
   end).1.

Lemma base_call_controller {E} cw (k : phase_call * option E) :
  (lifecycle (base_call cw k).1, (base_call cw k).2) = (lifecycle_call (lifecycle cw.1, cw.2) k).1 /\
  base_name (base_call cw k).1 = base_name cw.1.
Proof.
  destruct cw as [c log], k as [[] e]; unfold base_call, lifecycle_call, GuardInit, GuardStart, GuardStop, guarded; simpl;
    by match goal with |- context[match ?p with (_, _) => _ end] => destruct p as [[l w] err] end.
Qed.

(** A guarded component keeps its name, its callbacks run as the controller lets
    them, and its status is the state they reached. *)
Theorem guarded_lifecycle_legal {E} name (ks : list (phase_call * option E)) :
  let '(c, log) := fold_left base_call ks (mkBase zeroController name, []) in
  BaseComponent_GetName c = name /\ legal log = true /\ Status (Some c) = state_after log.
Proof.
  assert (Hrun : forall (ks : list (phase_call * option E)) cw, let r := fold_left base_call ks cw in
    (lifecycle r.1, r.2) = fold_left (fun cw k => fst (lifecycle_call cw k)) ks (lifecycle cw.1, cw.2) /\
    base_name r.1 = base_name cw.1).
  { clear ks. induction ks as [|k ks IH]; intros cw; [done|]. cbn [fold_left].
    destruct (base_call_controller cw k) as [E1 E2]. destruct (IH (base_call cw k)) as [H1 H2].
    by rewrite H1, H2, E1, E2. }
  destruct (Hrun ks (mkBase zeroController name, [])) as [H1 H2]. pose proof (lifecycle_legal ks) as Hl.
  unfold lifecycle_run in Hl. simpl in H1. rewrite <- H1 in Hl. destruct (fold_left base_call ks _) as [c log].
  destruct Hl as (Hlog & Hs & _). done.
Qed.

(** ** The manager keeps its map and its order in step *)

Section ManagerSpec.
Context {W E : Type}.
Abbreviation comp := (IComponent W E).

Record mgr_wf (cm : Manager W E) : Prop := {
  mw_nodup : NoDup (order cm);
  mw_dom : forall name, name ∈ order cm <-> is_Some (components cm !! name);
  mw_name : forall name c, components cm !! name = Some c -> GetName c = name
}.

Lemma Add_wf cs (cm : Manager W E) : mgr_wf cm -> mgr_wf (fst (Add cm cs)).
Proof.
  revert cm. induction cs as [|[c|] cs IH]; intros cm Hwf; [done| |done]. cbn [Add].
  destruct (components cm !! GetName c) eqn:E1; [done|]. apply IH. destruct Hwf as [Hnd Hdom Hname].
  constructor; cbn.
  - apply NoDup_app. split_and!; [done| |apply NoDup_singleton].
    intros x Hx Hx'. apply list_elem_of_singleton in Hx' as ->. apply Hdom in Hx as [? Hx]. congruence.
  - intros name. rewrite elem_of_app, list_elem_of_singleton, Hdom.
    destruct (decide (name = GetName c)) as [->|Hne].
    + rewrite lookup_insert_eq. split; [by eauto|by right].
    + rewrite lookup_insert_ne by done. split; [by intros [?|?]|by left].
  - intros name d. rewrite lookup_insert. case_decide; [by intros [= <-]|apply Hname].
Qed.

(** Registration succeeds exactly for components that are there, with names that
    are new and distinct. *)
Lemma Add_ok cs (cm : Manager W E) :
  (Add cm cs).2 = None <->
  exists l, cs = Some <$> l /\ NoDup (GetName <$> l) /\ Forall (fun c => components cm !! GetName c = None) l.
Proof.
  revert cm. induction cs as [|[c|] cs IH]; intros cm; simpl.
  - split; [|done]. intros _. exists []. split; [done|split; constructor].
  - destruct (components cm !! GetName c) eqn:Ec.
    + split; [done|]. intros ([|c' l] & E1 & _ & Hf); [done|]. rewrite fmap_cons in E1. injection E1 as <- _.
      apply Forall_cons in Hf as [Hf _]. congruence.
    + rewrite IH. simpl. split.
      * intros (l & -> & Hn & Hf). exists (c :: l). split; [done|]. rewrite fmap_cons. split; constructor; try done.
        -- intros (d & E1 & Hd)%list_elem_of_fmap. rewrite Forall_forall in Hf. specialize (Hf d Hd).
           by rewrite E1, lookup_insert_eq in Hf.
        -- eapply Forall_impl; [exact Hf|]. simpl. intros d. by rewrite lookup_insert_None; intros [? _].
      * intros ([|c' l] & E1 & Hn & Hf); [done|]. rewrite fmap_cons in E1. injection E1 as <- ->. exists l.
        rewrite fmap_cons in Hn. apply NoDup_cons in Hn as [Hc Hn]. apply Forall_cons in Hf as [_ Hf].
        split_and!; [done|done|]. rewrite Forall_forall in *. intros d Hd. rewrite lookup_insert_None.
        split; [by apply Hf|]. intros E1. apply Hc. apply list_elem_of_fmap. by exists d.
  - split; [done|]. by intros ([|] & ? & _).
Qed.

Lemma remove_name_spec name l :
  NoDup l -> NoDup (remove_name name l) /\
             forall x, x ∈ remove_name name l <-> x ∈ l /\ x <> name.
Proof.
  induction 1 as [|y l Hy Hnd [IH1 IH2]]; cbn [remove_name].
  { split; [constructor|]. set_solver. }
  case_bool_decide as Hn.
  - subst. split; [done|]. intros x. rewrite elem_of_cons. split; [|tauto].
    intros Hx. split; [by right|]. congruence.
  - split; [constructor; [rewrite IH2; tauto|done]|].
    intros x. rewrite !elem_of_cons, IH2. split; [intros [->|[]]; auto|tauto].
Qed.

Lemma Remove_wf t (cm : Manager W E) : mgr_wf cm -> mgr_wf (fst (Remove cm t)).
Proof.
  intros Hwf. destruct t as [t|]; [|done]. cbn [Remove].
  destruct (components cm !! GetName t) eqn:E1; [|done]. destruct Hwf as [Hnd Hdom Hname].
  destruct (remove_name_spec (GetName t) _ Hnd) as [Hnd' Hin]. constructor; cbn; [done| |].
  - intros name. rewrite Hin, Hdom.
    destruct (decide (name = GetName t)) as [->|Hne].
    + rewrite lookup_delete_eq. split; [tauto|by intros []].
    + rewrite lookup_delete_ne by done. tauto.
  - intros name d. rewrite lookup_delete. case_decide; [done|apply Hname].
Qed.

Inductive mgr_op : Type := MAdd (cs : list (option comp)) | MRemove (t : option comp).
Definition mgr_exec (cm : Manager W E) (o : mgr_op) : Manager W E :=
  match o with MAdd cs => fst (Add cm cs) | MRemove t => fst (Remove cm t) end.

Lemma mgr_exec_wf cm o : mgr_wf cm -> mgr_wf (mgr_exec cm o).
Proof. destruct o; [apply Add_wf|apply Remove_wf]. Qed.

Lemma NewComponentsMgr_wf : mgr_wf NewComponentsMgr.
Proof.
  constructor; cbn; [apply NoDup_nil_2| |].
  - intros name. rewrite lookup_empty. split; [by intros ?%elem_of_nil|by intros []].
  - intros name c. by rewrite lookup_empty.
Qed.

(** *** The stable sort *)

Definition priority_le (c d : comp) : Prop := priorityOf c <= priorityOf d.
Definition same_priority (p : Z) (c : comp) : bool := priorityOf c =? p.

Lemma insert_Permutation (c : comp) l : insert_by_priority c l ≡ₚ c :: l.
Proof.
  induction l as [|d l IH]; [done|]. simpl. destruct (_ <? _); [|done].
  rewrite IH. apply Permutation_swap.
Qed.

Lemma insert_sorted (c : comp) l :
  StronglySorted priority_le l -> StronglySorted priority_le (insert_by_priority c l).
Proof.
  unfold priority_le. induction 1 as [|d l Hl IH Hd]; simpl; [repeat constructor|].
  destruct (priorityOf d <? priorityOf c) eqn:Ed; zbool.
  - constructor; [done|]. rewrite insert_Permutation. constructor; [lia|done].
  - constructor; [by constructor|]. constructor; [lia|].
    eapply Forall_impl; [exact Hd|]. cbn. lia.
Qed.

Lemma insert_stable p (c : comp) l :
  List.filter (same_priority p) (insert_by_priority c l)
  = List.filter (same_priority p) (c :: l).
Proof.
  induction l as [|d l IH]; [done|]. simpl. destruct (_ <? _) eqn:Ed; [|done].
  simpl. rewrite IH. simpl. unfold same_priority. zbool.
  destruct (priorityOf d =? p) eqn:E1, (priorityOf c =? p) eqn:E2; zbool; (done || lia).
Qed.

Lemma SliceStable_spec (l : list comp) :
  SliceStable l ≡ₚ l /\ StronglySorted priority_le (SliceStable l) /\
  forall p, List.filter (same_priority p) (SliceStable l) = List.filter (same_priority p) l.
Proof.
  unfold SliceStable. induction l as [|c l (IH1 & IH2 & IH3)]; [split_and!; (done || constructor)|].
  simpl foldr. split_and!.
  - by rewrite insert_Permutation, IH1.
  - by apply insert_sorted.
  - intros p. rewrite insert_stable. simpl. by rewrite IH3.
Qed.

Lemma omap_GetName (cm : Manager W E) :
  mgr_wf cm ->
  map GetName (omap (fun name => components cm !! name) (order cm)) = order cm.
Proof.
  intros [_ Hdom Hname]. assert (Hall : forall n, n ∈ order cm -> is_Some (components cm !! n))
    by (intros n; apply Hdom). clear Hdom. induction (order cm) as [|n l IH]; [done|].
  destruct (Hall n) as [c Hc]; [set_solver|]. cbn. rewrite Hc. cbn.
  rewrite (Hname _ _ Hc), IH; [done|]. set_solver.
Qed.

Lemma mgr_run_wf (ops : list mgr_op) : mgr_wf (fold_left mgr_exec ops NewComponentsMgr).
Proof.
  generalize NewComponentsMgr_wf. generalize (@NewComponentsMgr W E).
  induction ops; intros cm Hcm; [done|]. by apply IHops, mgr_exec_wf.
Qed.

(** The order lists the values of the map. *)
Lemma order_values (m : gmap string comp) l : NoDup l -> (forall name, name ∈ l <-> is_Some (m !! name)) ->
  omap (fun name => m !! name) l ≡ₚ (map_to_list m).*2.
Proof.
  revert m. induction l as [|name l IH]; intros m Hnd Hdom.
  - assert (m = ∅) as ->; [|by rewrite map_to_list_empty]. apply map_empty. intros i. destruct (m !! i) eqn:E1; [|done].
    assert (Hi : i ∈ @nil string) by (apply Hdom; eauto). by apply not_elem_of_nil in Hi.
  - apply NoDup_cons in Hnd as [Hn Hnd]. destruct (proj1 (Hdom name)) as [c Hc]; [set_solver|].
    assert (Em : (map_to_list m).*2 ≡ₚ c :: (map_to_list (delete name m)).*2)
      by (rewrite <- (map_to_list_delete m name c Hc); done).
    simpl. rewrite Hc, Em. f_equiv.
    rewrite <- (IH (delete name m) Hnd).
    + apply reflexive_eq, list_omap_ext, Forall_Forall2_diag, Forall_forall.
      intros k Hk. symmetry. apply lookup_delete_ne. set_solver.
    + intros k. rewrite lookup_delete_is_Some, <- Hdom. set_solver.
Qed.

(** Components are visited each once, sorted by priority, registration order
    breaking ties. *)
Theorem orderedComponents_spec (ops : list mgr_op) :
  let cm := fold_left mgr_exec ops NewComponentsMgr in
  let registered := omap (fun name => components cm !! name) (order cm) in
  map GetName registered = order cm /\
  (forall name c, Get cm name = Some c <-> c ∈ registered /\ GetName c = name) /\
  orderedComponents cm ≡ₚ registered /\
  StronglySorted priority_le (orderedComponents cm) /\
  forall p, List.filter (same_priority p) (orderedComponents cm)
            = List.filter (same_priority p) registered.
Proof.
  pose proof (mgr_run_wf ops) as Hwf. intros cm registered. fold cm in Hwf. destruct (SliceStable_spec registered) as (H1 & H2 & H3).
  split_and!; try done; [by apply omap_GetName|].
  intros name c. unfold registered, Get. rewrite list_elem_of_omap. split.
  - intros Hc. split; [|by eapply mw_name]. exists name. split; [|done].
    apply mw_dom; eauto.
  - intros [(n & Hn & Hc) <-]. by rewrite (mw_name _ Hwf _ _ Hc).
Qed.

(** Range comes to every registered component once, whatever the map's order: it
    does what a walk in order does when the order does not matter. *)
Theorem Range_visits_each_once {S} (ops : list mgr_op) entries (fn : S -> comp -> S) s :
  let cm := fold_left mgr_exec ops NewComponentsMgr in
  entries ≡ₚ map_to_list (components cm) ->
  entries.*2 ≡ₚ orderedComponents cm /\
  ((forall s c c', fn (fn s c) c' = fn (fn s c') c) ->
   Range entries fn s = RangeInOrder cm (fun s c => (fn s c, true)) s).
Proof.
  intros cm He. pose proof (mgr_run_wf ops) as Hwf. destruct (orderedComponents_spec ops) as (_ & _ & Hp & _). fold cm in Hwf, Hp.
  assert (Hv : entries.*2 ≡ₚ orderedComponents cm).
  { rewrite He, Hp. symmetry. apply order_values; [by apply mw_nodup|by apply mw_dom]. }
  split; [done|]. intros Hc. unfold Range, RangeInOrder.
  assert (Hr : forall l s, range_until (fun s c => (fn s c, true)) s l = fold_left fn l s)
    by (induction l; intros; simpl; eauto).
  rewrite Hr. assert (Hf : forall s, fold_left (fun s entry => fn s entry.2) entries s = fold_left fn entries.*2 s)
    by (clear; induction entries; intros; simpl; eauto).
  rewrite Hf. clear -Hv Hc. revert s. generalize dependent (orderedComponents cm). generalize entries.*2.
  intros l0 l0' Hv. induction Hv as [|x l l' _ IH|x y l|l1 l2 l3 _ IH1 _ IH2]; intros s; simpl.
  - done.
  - apply IH.
  - by rewrite Hc.
  - by rewrite IH1.
Qed.
End ManagerSpec.
