(* ===== verification/Node.v ===== *)
(** * node: composing a node from components

    [Node.Start] and [Node.Shutdown] (runtime.go) over the component manager,
    with [AddComponent] (node.go).  Components, the behavior callbacks and the
    cluster's [Leave] act on an arbitrary world. *)

From S2P Require Import Prelude Component.

Inductive phase_t : Type := phaseNew | phaseRunning | phaseStopped.
#[export] Instance phase_t_eq_dec : EqDecision phase_t.
Proof. solve_decision. Defined.

Section Node.
Context {W E : Type}.
Abbreviation comp := (IComponent W E).

(** Errors, with the wrapping the code gives them. *)
Inductive nerr : Type :=
| ErrNodeInvalidPhase (p : phase_t)
| ErrManager (e : mgrerr)
| ErrRegister (e : mgrerr)
| ErrOnInit (e : E)
| ErrInitComponent (name : string) (e : E)
| ErrOnStart (e : E)
| ErrStartComponent (name : string) (e : E)
| ErrStopComponent (name : string) (e : E)
| ErrLeave (e : E)
| ErrJoin (es : list nerr).

(** [errors.Join]: nil when every argument is nil. *)
Definition errors_Join (es : list (option nerr)) : option nerr :=
  match omap id es with [] => None | l => Some (ErrJoin l) end.

(** [options.Behavior]; the code normalises a nil one to one that does nothing. *)
Record NodeBehavior : Type := mkBehavior {
  OnInit : W -> W * option E;
  OnStart : W -> W * option E;
  OnStop : W -> option nerr -> W
}.
Definition DefaultNodeBehavior : NodeBehavior :=
  mkBehavior (fun w => (w, None)) (fun w => (w, None)) (fun w _ => w).

Record Node : Type := mkNode {
  n_manager : Manager W E;
  n_components : list (option comp); (* options.Components *)
  n_system : option comp;
  n_cluster : option comp;
  n_Leave : option (W -> W * option E); (* None: no cluster *)
  n_logicalActorRouter : option comp;
  n_behavior : NodeBehavior;
  n_phase : phase_t
}.

Definition with_manager (n : Node) (m : Manager W E) : Node :=
  mkNode m (n_components n) (n_system n) (n_cluster n) (n_Leave n)
         (n_logicalActorRouter n) (n_behavior n) (n_phase n).
Definition with_phase (n : Node) (p : phase_t) : Node :=
  mkNode (n_manager n) (n_components n) (n_system n) (n_cluster n) (n_Leave n)
         (n_logicalActorRouter n) (n_behavior n) p.

Definition GetComponent (n : Node) (name : string) : option comp := Get (n_manager n) name.
Definition AddComponent (n : Node) (cs : list (option comp)) : Node * option nerr :=
  if negb (bool_decide (n_phase n = phaseNew)) then (n, Some (ErrNodeInvalidPhase (n_phase n)))
  else let '(m, err) := Add (n_manager n) cs in (with_manager n m, option_map ErrManager err).

Definition coreComponents (n : Node) : list (option comp) :=
  n_components n ++ [n_system n; n_cluster n]
  ++ match n_logicalActorRouter n with Some r => [Some r] | None => [] end.

Definition registerCoreComponents (n : Node) : Node * option mgrerr :=
  let '(m, err) := Add (n_manager n) (coreComponents n) in (with_manager n m, err).

(** The body of the closures given to [RangeInOrder]: act, keep the error, go on
    while there is none. *)
Definition act_until (act : comp -> W -> W * option E) (wrap : string -> E -> nerr)
  (s : W * option nerr) (c : comp) : (W * option nerr) * bool :=
  match act c (fst s) with
  | (w, Some err) => ((w, Some (wrap (GetName c) err)), false)
  | (w, None) => ((w, None), true)
  end.

Definition initializeComponents (n : Node) (w : W) : W * option nerr :=
  match OnInit (n_behavior n) w with
  | (w, Some err) => (w, Some (ErrOnInit err))
  | (w, None) => RangeInOrder (n_manager n) (act_until c_Init ErrInitComponent) (w, None)
  end.

Definition startComponents (n : Node) (w : W) : W * option nerr :=
  match OnStart (n_behavior n) w with
  | (w, Some err) => (w, Some (ErrOnStart err))
  | (w, None) => RangeInOrder (n_manager n) (act_until c_Start ErrStartComponent) (w, None)
  end.

Definition Start (n : Node) (w : W) : Node * W * option nerr :=
  match registerCoreComponents n with
  | (n, Some err) => (n, w, Some (ErrRegister err))
  | (n, None) =>
    match initializeComponents n w with
    | (w, Some err) => (n, w, Some err)
    | (w, None) =>
      match startComponents n w with
      | (w, Some err) => (n, w, Some err)
      | (w, None) => (with_phase n phaseRunning, w, None)
      end
    end
  end.

(** The closure of [stopComponents] assigns the captured [err] at every
    component, so a later success overwrites an earlier failure. *)
Definition stop_one (s : W * option nerr) (c : comp) : (W * option nerr) * bool :=
  match c_Stop c (fst s) with
  | (w, Some err) => ((w, errors_Join [Some (ErrStopComponent (GetName c) err)]), true)
  | (w, None) => ((w, None), true)
  end.

Definition stopComponents (n : Node) (w : W) : W * option nerr :=
  RangeInReverseOrder (n_manager n) stop_one (w, None).

Definition Shutdown (n : Node) (w : W) : Node * W * option nerr :=
  let '(w, shutdownErr) :=
    match n_Leave n with
    | Some leave => let '(w, e) := leave w in (w, errors_Join [None; option_map ErrLeave e])
    | None => (w, None)
    end in
  let '(w, err) := stopComponents n w in
  let shutdownErr :=
    match err with Some err => errors_Join [shutdownErr; Some err] | None => shutdownErr end in
  let w := OnStop (n_behavior n) w shutdownErr in
  (with_phase n phaseStopped, w, shutdownErr).

(** ** What Start and Shutdown do to the world *)

(** Run actions in order up to and including the first that fails. *)
Fixpoint run_until_error (fs : list (W -> W * option E)) (w : W) : W * bool :=
  match fs with
  | [] => (w, true)
  | f :: fs' => match f w with (w, Some _) => (w, false) | (w, None) => run_until_error fs' w end
  end.

(** Run all actions whatever they return. *)
Definition run_all (fs : list (W -> W * option E)) (w : W) : W :=
  fold_left (fun w f => fst (f w)) fs w.

Definition start_plan (n : Node) : list (W -> W * option E) :=
  let cs := orderedComponents (n_manager n) in
  OnInit (n_behavior n) :: map c_Init cs ++ OnStart (n_behavior n) :: map c_Start cs.

Definition is_nil {A} (o : option A) : bool := match o with None => true | Some _ => false end.

Lemma range_act_until act wrap cs w :
  let '(w', e) := range_until (act_until act wrap) (w, None) cs in
  run_until_error (map act cs) w = (w', is_nil e).
Proof.
  revert w. induction cs as [|c cs IH]; intros w; [done|]. simpl.
  unfold act_until at 1. simpl. destruct (act c w) as [w1 [e1|]]; [done|apply IH].
Qed.

Lemma run_until_error_app fs gs w :
  run_until_error (fs ++ gs) w
  = match run_until_error fs w with (w', true) => run_until_error gs w' | r => r end.
Proof.
  revert w. induction fs as [|f fs IH]; intros w; [done|]. simpl.
  destruct (f w) as [w1 [e1|]]; [done|apply IH].
Qed.

(** Start runs the behaviour callback and the components' Init and then Start in
    order up to the first failure, and the node is running exactly when nothing
    failed. *)
Theorem Start_runs_plan n w :
  let '(n', w', err) := Start n w in
  match registerCoreComponents n with
  | (n1, Some e) => (n', w', err) = (n1, w, Some (ErrRegister e))
  | (n1, None) =>
    run_until_error (start_plan n1) w = (w', is_nil err) /\
    n_phase n' = (if is_nil err then phaseRunning else n_phase n) /\
    n_manager n' = n_manager n1
  end.
Proof.
  unfold Start. destruct (registerCoreComponents n) as [n1 [e|]] eqn:Er; [done|].
  assert (Hp : n_phase n1 = n_phase n).
  { unfold registerCoreComponents in Er. destruct (Add _ _) as [m e]. by injection Er as <- _. }
  unfold initializeComponents, startComponents, RangeInOrder, start_plan. simpl.
  destruct (OnInit _ w) as [w1 [e1|]]; [done|].
  rewrite run_until_error_app. pose proof (range_act_until c_Init ErrInitComponent
    (orderedComponents (n_manager n1)) w1) as H1.
  destruct (range_until _ _ _) as [w2 [e2|]]; rewrite H1; [done|]. simpl.
  destruct (OnStart _ w2) as [w3 [e3|]]; [done|].
  pose proof (range_act_until c_Start ErrStartComponent (orderedComponents (n_manager n1)) w3) as H2.
  destruct (range_until _ _ _) as [w4 [e4|]]; by rewrite H2.
Qed.

Lemma range_stop_one cs s :
  fst (range_until stop_one s cs) = run_all (map c_Stop cs) (fst s) /\
  snd (range_until stop_one s cs)
  = match rev cs with
    | [] => snd s
    | c :: rest =>
      option_map (fun e => ErrJoin [ErrStopComponent (GetName c) e])
        (snd (c_Stop c (run_all (map c_Stop (rev rest)) (fst s))))
    end.
Proof.
  revert s. induction cs as [|c cs IH]; intros s; [done|].
  assert (Hs : stop_one s c = ((fst (c_Stop c (fst s)),
     option_map (fun e => ErrJoin [ErrStopComponent (GetName c) e]) (snd (c_Stop c (fst s)))), true)).
  { unfold stop_one. by destruct (c_Stop c (fst s)) as [w1 [e1|]]. }
  cbn [range_until]. rewrite Hs. destruct (IH (fst (c_Stop c (fst s)),
     option_map (fun e => ErrJoin [ErrStopComponent (GetName c) e]) (snd (c_Stop c (fst s)))))
    as [-> ->]. split; [done|]. simpl rev.
  destruct (rev cs) as [|d rest]; [done|]. simpl. rewrite rev_app_distr. done.
Qed.

(** C39: Shutdown stops every component in reverse order whatever fails before, ends
    in the stopped phase, and reports no error exactly when leaving succeeded and
    the component stopped last did. *)
Theorem Shutdown_stops_all n w :
  let '(n', w', err) := Shutdown n w in
  let '(w1, leaveErr) := match n_Leave n with Some f => f w | None => (w, None) end in
  let cs := orderedComponents (n_manager n) in
  w' = OnStop (n_behavior n) (run_all (map c_Stop (rev cs)) w1) err /\
  n_phase n' = phaseStopped /\
  (is_nil err = true <->
   leaveErr = None /\
   match cs with
   | [] => True
   | first :: rest => snd (c_Stop first (run_all (map c_Stop (rev rest)) w1)) = None
   end).
Proof.
  unfold Shutdown, stopComponents, RangeInReverseOrder.
  set (cs := orderedComponents (n_manager n)).
  destruct (match n_Leave n with Some f => f w | None => (w, None) end) as [w1 leaveErr] eqn:El.
  assert (El' : match n_Leave n with
    | Some leave => let '(w0, e) := leave w in (w0, errors_Join [None; option_map ErrLeave e])
    | None => (w, None) end = (w1, errors_Join [None; option_map ErrLeave leaveErr])).
  { destruct (n_Leave n) as [leave|]; [by destruct (leave w); injection El as -> ->|].
    by injection El as <- <-. }
  rewrite El'. pose proof (range_stop_one (rev cs) (w1, None)) as [H1 H2].
  rewrite rev_involutive in H2. cbn [fst snd] in H1, H2.
  destruct (range_until _ _ _) as [w2 e2]. cbn [fst snd] in H1, H2. subst w2 e2.
  split_and!; [done|done|]. destruct cs as [|first rest].
  - destruct leaveErr; simpl; split; [done|by intros []|done|done].
  - destruct (snd (c_Stop first _)), leaveErr; simpl; split; try done; by intros [].
Qed.
End Node.
Arguments Node : clear implicits.
Arguments NodeBehavior : clear implicits.

(** Two components that record their stops; the second one to be stopped
    succeeds, so the failure of the first to be stopped is not reported. *)
Definition stop_logger (name : string) (err : option Z) : IComponent (list string) Z :=
  mkComponent name None (fun w => (w, None)) (fun w => (w, None)) (fun w => (w ++ [name], err)).

Definition two_components : Node (list string) Z :=
  mkNode (fst (Add NewComponentsMgr [Some (stop_logger "a" None); Some (stop_logger "b" (Some 7))]))
         [] None None None None DefaultNodeBehavior phaseRunning.

Lemma stopComponents_loses_error :
  let '(_, log, err) := Shutdown two_components [] in log = ["b"; "a"] /\ err = None.
Proof. vm_compute. done. Qed.
