(* ===== verification/Errors.v ===== *)
(** * actor/errors.go: errors, their codes, and what survives a hop

    Go errors as trees: sentinels, coded errors, wrapped and joined errors, with
    [errors.Is] and [errors.As] of the standard library and [CodeOf] and
    [codedError.Is] of errors.go. *)

From S2P Require Import Prelude.

Definition ErrorCodeUnknown : Z := 0.
Definition ErrorCodeActorNotFound : Z := 1001.
Definition ErrorCodeActorProcessStopped : Z := 1002.
Definition ErrorCodeActorMailboxFull : Z := 1003.

(** [ESentinel m] is the one error created by [errors.New(m)]; [ECoded addr c m]
    is the [*codedError] at address [addr]; [EWrap p e s] is [fmt.Errorf(p+"%w"+s, e)];
    [EJoin] is [errors.Join]. *)
Inductive gerr : Type :=
| ESentinel (message : string)
| ECoded (addr : N) (code : Z) (message : string)
| EWrap (prefix : string) (e : gerr) (suffix : string)
| EJoin (es : list gerr).

(** The nested induction principle of error trees. *)
Section gerr_ind.
Context (P : gerr -> Prop)
  (HS : forall m, P (ESentinel m)) (HC : forall a c m, P (ECoded a c m))
  (HW : forall p e s, P e -> P (EWrap p e s)) (HJ : forall es, Forall P es -> P (EJoin es)).
Fixpoint gerr_tree_ind (e : gerr) : P e :=
  match e with
  | ESentinel m => HS m
  | ECoded a c m => HC a c m
  | EWrap p e s => HW p e s (gerr_tree_ind e)
  | EJoin es =>
    HJ es ((fix go es : Forall P es :=
              match es with
              | [] => Forall_nil_2 P
              | e :: es => Forall_cons_2 P e es (gerr_tree_ind e) (go es)
              end) es)
  end.
End gerr_ind.

(** [Error()] *)
Fixpoint Error (e : gerr) : string :=
  match e with
  | ESentinel m => m
  | ECoded _ _ m => m
  | EWrap p e s => p +:+ Error e +:+ s
  | EJoin es =>
    (fix go es : string :=
       match es with
       | [] => "" | [e] => Error e | e :: es => Error e +:+ String (Ascii.ascii_of_N 10) (go es)
       end) es
  end.

(** [errors.As(err, &coded)]: the first coded error, depth first. *)
Fixpoint errors_As (e : gerr) : option (Z * string) :=
  match e with
  | ESentinel _ => None
  | ECoded _ c m => Some (c, m)
  | EWrap _ e _ => errors_As e
  | EJoin es =>
    (fix go es : option (Z * string) :=
       match es with
       | [] => None
       | e :: es => match errors_As e with Some r => Some r | None => go es end
       end) es
  end.

Definition CodeOf (e : gerr) : Z * bool :=
  match errors_As e with
  | None => (ErrorCodeUnknown, false)
  | Some (c, _) => if c =? ErrorCodeUnknown then (ErrorCodeUnknown, false) else (c, true)
  end.

(** [err == target] on the pointers of sentinels and coded errors; wrappers are
    allocated at each use and never serve as targets. *)
Definition same_pointer (e target : gerr) : bool :=
  match e, target with
  | ESentinel m, ESentinel m' => bool_decide (m = m')
  | ECoded a _ _, ECoded a' _ _ => N.eqb a a'
  | _, _ => false
  end.

(** The method [codedError.Is]; other errors have none. *)
Definition codedError_Is (e target : gerr) : bool :=
  match e with
  | ECoded _ code _ =>
    if code =? ErrorCodeUnknown then false
    else let '(targetCode, ok) := CodeOf target in ok && (code =? targetCode)
  | _ => false
  end.

(** [errors.Is(err, target)] for non-nil errors. *)
Fixpoint errors_Is (e target : gerr) : bool :=
  same_pointer e target || codedError_Is e target ||
  match e with
  | ESentinel _ | ECoded _ _ _ => false
  | EWrap _ e _ => errors_Is e target
  | EJoin es =>
    (fix go es : bool := match es with [] => false | e :: es => errors_Is e target || go es end) es
  end.

(** [fmt.Errorf(p+"%w", e)] *)
Definition wrap (p : string) (e : gerr) : gerr := EWrap p e "".

(** The package's sentinels. *)
Definition ErrActorProcessStopped : gerr := ECoded 1 ErrorCodeActorProcessStopped "actor process is stopped".
Definition ErrNotFound : gerr := ECoded 2 ErrorCodeActorNotFound "actor not found".
Definition ErrMailboxFull : gerr := ECoded 3 ErrorCodeActorMailboxFull "mailbox is full".

Definition ErrPidNil := ESentinel "actor pid is nil".
Definition ErrHandlerNil := ESentinel "actor handler is nil".
Definition ErrNameExists := ESentinel "actor name already exists".
Definition ErrNotLocal := ESentinel "actor not local".
Definition ErrRequestNil := ESentinel "actor request nil".
Definition ErrRespondErrorNil := ESentinel "actor respondError requires a non-nil error".
Definition ErrAlreadyResponded := ESentinel "actor message already responded".
Definition ErrAskTimeout := ESentinel "actor ask timeout".
Definition ErrAskCompletionNil := ESentinel "actor ask completion callback is nil".
Definition ErrRequestLimit := ESentinel "actor pending request limit reached".
Definition ErrRequestManagerClosed := ESentinel "actor request manager is closed".
Definition ErrActorTargetNil := ESentinel "actor message target pid is nil".
Definition ErrActorSenderNil := ESentinel "actor message sender pid is nil".
Definition ErrActorEnvelopeRequestInvalid := ESentinel "actor envelope request is invalid".
Definition ErrRemoteMessageKindInvalid := ESentinel "remote actor message kind is invalid".
Definition ErrRemoteMessageBodyInvalid := ESentinel "remote actor message body is invalid".
Definition ErrRemoteCommonInvalid := ESentinel "remote actor common is invalid".
Definition ErrRemoteMessageNil := ESentinel "remote actor message is nil".
Definition ErrRemoteSourceNodeInvalid := ESentinel "remote actor source node is invalid".
Definition ErrRequestNotExist := ESentinel "remote actor request not exist".
Definition ErrRemoteSenderNil := ESentinel "remote actor sender is nil".

(** ** Properties *)

Lemma CodeOf_wrap p e s : CodeOf (EWrap p e s) = CodeOf e.
Proof. done. Qed.

Lemma CodeOf_coded a c m :
  CodeOf (ECoded a c m) = (c, negb (c =? ErrorCodeUnknown)).
Proof. unfold CodeOf. simpl. destruct (c =? _) eqn:E; zbool; [by subst|done]. Qed.

Lemma CodeOf_known e c : CodeOf e = (c, true) -> c <> ErrorCodeUnknown.
Proof.
  unfold CodeOf. destruct (errors_As e) as [[c' m]|]; [|done].
  destruct (c' =? _) eqn:E; [done|]. zbool. congruence.
Qed.

(** An error with a known code is that code's error for [errors.Is]. *)
Lemma errors_Is_code e c target :
  CodeOf e = (c, true) -> CodeOf target = (c, true) -> errors_Is e target = true.
Proof.
  intros He Ht. pose proof (CodeOf_known _ _ He) as Hnz. revert He. unfold CodeOf at 1.
  induction e as [m|a c' m|p e s IH|es IH] using gerr_tree_ind; simpl.
  - done.
  - rewrite Ht. destruct (c' =? _) eqn:E; [done|]. intros [= ->].
    rewrite Z.eqb_refl. simpl. by rewrite orb_true_r.
  - intros He. by apply IH.
  - induction IH as [|e es IHe _ IHes]; [done|]. destruct (errors_As e) as [[c' m]|].
    + intros He. by rewrite IHe.
    + intros He. rewrite IHes by done. apply orb_true_r.
Qed.

(** The error rebuilt on the other side of a connection: the code and the text
    of the cause, at a fresh address (remote.go, lines 195-196 and 59-72). *)
Definition carried_error (addr : N) (cause : gerr) : gerr :=
  ECoded addr (fst (CodeOf cause)) (Error cause).

(** An error carried over the network: its text and code are those of the cause, and errors.Is sees a target exactly by its code. *)
Theorem carried_error_spec addr cause :
  Error (carried_error addr cause) = Error cause /\
  CodeOf (carried_error addr cause) = CodeOf cause /\
  (forall target c, CodeOf target = (c, true) ->
    same_pointer (carried_error addr cause) target = false ->
    errors_Is (carried_error addr cause) target = bool_decide (CodeOf cause = (c, true))) /\
  (forall m, errors_Is (carried_error addr cause) (ESentinel m) = false).
Proof.
  assert (Hc : CodeOf (carried_error addr cause) = CodeOf cause).
  { unfold carried_error. rewrite CodeOf_coded. unfold CodeOf.
    destruct (errors_As cause) as [[c m]|]; [|done]. by destruct (c =? _) eqn:E; simpl; rewrite ?E. }
  split_and!; [done|done| |].
  - intros target c Ht Hp. pose proof (CodeOf_known _ _ Ht) as Hnz.
    case_bool_decide as He; [by apply errors_Is_code with c; [rewrite Hc|]|].
    unfold carried_error in *. simpl. simpl in Hp. rewrite Hp, Ht, orb_false_r. simpl.
    unfold CodeOf in *. destruct (errors_As cause) as [[c' m]|]; [|done].
    destruct (c' =? ErrorCodeUnknown) eqn:E; [done|]. simpl. rewrite E.
    apply Z.eqb_neq. congruence.
  - intros m. unfold carried_error. simpl. rewrite orb_false_r.
    destruct (_ =? ErrorCodeUnknown); [done|]. done.
Qed.

(** The comment on [CodeOf] promises the first non-zero code of the chain; a
    code 0 found first ends the search instead. *)
Lemma CodeOf_stops_at_unknown :
  CodeOf (EJoin [ECoded 10 ErrorCodeUnknown "remote failure"; ErrNotFound]) = (0, false) /\
  errors_Is (EJoin [ECoded 10 ErrorCodeUnknown "remote failure"; ErrNotFound]) ErrNotFound = true.
Proof. done. Qed.
