(* ===== verification/Requests.v ===== *)
(** * actor/request_manager.go: the table of pending requests

    Every operation is one critical section of [requestManager.mu]; completion
    callbacks run after the lock is released, so an operation returns the
    callbacks it has to run, in order. A timer of [timer.After] is the fact that
    [complete(id, nil, ErrAskTimeout)] may be called at any later time. *)

From stdpp Require Import pretty.
From S2P Require Import Prelude Errors.

Definition defaultMaxPendingRequests : Z := 65536.

Record RequestRef := mkRequestRef { NodeID : string; RequestID : Z }.
#[export] Instance RequestRef_eq_dec : EqDecision RequestRef.
Proof. solve_decision. Defined.

Section requests.

(** [V] is the type of payloads, [C] names a [requestCompletion] closure. *)
Context {V C : Type}.

Record pendingRequest := mkPending {
  targetNodeId : string;
  complete_cb : C;
  timer : bool (* a timer is set *)
}.

Record requestManager := mkManager {
  nextRequestId : Z;
  pending : gmap Z pendingRequest;
  max : Z;
  closed : bool
}.

(** A call of a completion callback: [cb(id, value, err)]. *)
Record completion := mkCompletion {
  c_cb : C;
  c_id : Z;
  c_value : option V;
  c_err : option gerr
}.

(** [newRequestManager]; [seed] is the random or clock value read at creation. *)
Definition newRequestManager (maxPending : Z) (seed : Z) : requestManager :=
  mkManager (u64 seed) ∅
    (if maxPending <=? 0 then defaultMaxPendingRequests else maxPending) false.

Definition count (m : requestManager) : Z := Z.of_nat (size (pending m)).

Definition with_pending (m : requestManager) (p : gmap Z pendingRequest) : requestManager :=
  mkManager (nextRequestId m) p (max m) (closed m).

Definition limit_error (m : requestManager) : gerr :=
  wrap ("count:" +:+ pretty (count m) +:+ " max" +:+ pretty (max m) +:+ ": ") ErrRequestLimit.

Definition add (m : requestManager) (nodeId target : string) (timeout : Z) (complete : C)
  : requestManager * res gerr RequestRef :=
  if closed m then (m, Err ErrRequestManagerClosed)
  else if count m >=? max m then (m, Err (limit_error m))
  else
    let requestID := u64 (nextRequestId m + 1) in
    let p := mkPending target complete (0 <? timeout) in
    (mkManager requestID (<[requestID := p]> (pending m)) (max m) (closed m),
     Ok (mkRequestRef nodeId requestID)).

Definition remove (m : requestManager) (requestID : Z) : requestManager * option pendingRequest :=
  (with_pending m (delete requestID (pending m)), pending m !! requestID).

Definition not_exist (requestId : Z) : gerr :=
  wrap ("request:" +:+ pretty requestId +:+ "  :") ErrRequestNotExist.

Definition complete (m : requestManager) (requestId : Z) (value : option V) (err : option gerr)
  : requestManager * list completion * option gerr :=
  let '(m, p) := remove m requestId in
  match p with
  | None => (m, [], Some (not_exist requestId))
  | Some p => (m, [mkCompletion (complete_cb p) requestId value err], None)
  end.

Definition retarget (m : requestManager) (requestID : Z) (target : string) : requestManager :=
  if bool_decide (target = "") then m
  else match pending m !! requestID with
       | None => m
       | Some p => with_pending m (<[requestID := mkPending target (complete_cb p) (timer p)]> (pending m))
       end.

(** [stop]; [range] is the order in which the runtime ranges over the map. *)
Definition stop (m : requestManager) (range : list (Z * pendingRequest))
  : requestManager * list completion :=
  if closed m then (m, [])
  else (mkManager (nextRequestId m) ∅ (max m) true,
        map (fun '(id, request) =>
               mkCompletion (complete_cb request) id None (Some ErrRequestManagerClosed)) range).

(** ** Histories of operations *)

Inductive op :=
| OAdd (nodeId target : string) (timeout : Z) (cb : C)
| OComplete (id : Z) (value : option V) (err : option gerr)
| ORemove (id : Z)
| ORetarget (id : Z) (target : string)
| OStop.

(** The manager with what happened so far: the references handed out with their
    callbacks, the callbacks called, the requests withdrawn by [remove]. *)
Record history := mkHistory {
  mgr : requestManager;
  issued : list (Z * C);
  fired : list completion;
  withdrawn : list (Z * C)
}.

Definition entry (e : Z * pendingRequest) : Z * C := (fst e, complete_cb (snd e)).
Definition called (c : completion) : Z * C := (c_id c, c_cb c).
Definition outstanding (m : requestManager) : list (Z * C) := entry <$> map_to_list (pending m).

Inductive step : op -> history -> history -> Prop :=
| step_add nodeId target timeout cb h :
    step (OAdd nodeId target timeout cb) h
      (let '(m, r) := add (mgr h) nodeId target timeout cb in
       match r with
       | Ok ref => mkHistory m (issued h ++ [(RequestID ref, cb)]) (fired h) (withdrawn h)
       | Err _ => mkHistory m (issued h) (fired h) (withdrawn h)
       end)
| step_complete id v e h :
    step (OComplete id v e) h
      (let '(m, cs, _) := complete (mgr h) id v e in
       mkHistory m (issued h) (fired h ++ cs) (withdrawn h))
| step_remove id h :
    step (ORemove id) h
      (let '(m, p) := remove (mgr h) id in
       mkHistory m (issued h) (fired h)
         (withdrawn h ++ match p with Some p => [(id, complete_cb p)] | None => [] end))
| step_retarget id target h :
    step (ORetarget id target) h
      (mkHistory (retarget (mgr h) id target) (issued h) (fired h) (withdrawn h))
| step_stop range h :
    range ≡ₚ map_to_list (pending (mgr h)) ->
    step OStop h
      (let '(m, cs) := stop (mgr h) range in
       mkHistory m (issued h) (fired h ++ cs) (withdrawn h)).

Inductive steps : list op -> history -> history -> Prop :=
| steps_nil h : steps [] h h
| steps_cons o os h1 h2 h3 : step o h1 h2 -> steps os h2 h3 -> steps (o :: os) h1 h3.

Definition start (maxPending seed : Z) : history :=
  mkHistory (newRequestManager maxPending seed) [] [] [].

Definition is_add (o : op) : bool := match o with OAdd _ _ _ _ => true | _ => false end.
Definition adds (os : list op) : nat := length (filter (fun o => is_add o = true) os).

End requests.
Arguments pendingRequest : clear implicits.
Arguments requestManager : clear implicits.
Arguments completion : clear implicits.
Arguments history : clear implicits.
Arguments op : clear implicits.

(** ** Properties *)

Section requests_props.
Context {V C : Type}.
Implicit Types (h : history V C) (m : requestManager C).

(** The ids handed out after [n] additions to a manager created with [seed]. *)
Definition id_seq (seed : Z) (n : nat) : list Z :=
  (fun i => u64 (seed + 1 + Z.of_nat i)) <$> seq 0 n.

Lemma id_seq_S seed n : id_seq seed (S n) = id_seq seed n ++ [u64 (seed + 1 + Z.of_nat n)].
Proof. unfold id_seq. by rewrite seq_S, fmap_app. Qed.

Lemma length_id_seq seed n : length (id_seq seed n) = n.
Proof. unfold id_seq. by rewrite length_fmap, length_seq. Qed.

Lemma u64_inj_near a b : u64 a = u64 b -> Z.abs (a - b) < 2 ^ 64 -> a = b.
Proof.
  unfold u64. intros H Hd.
  assert (Hm : (a - b) mod 2 ^ 64 = 0) by (rewrite Zminus_mod, H, Z.sub_diag; done).
  apply Z.mod_divide in Hm as [k Hk]; [|lia]. nia.
Qed.

Lemma id_seq_NoDup seed n : Z.of_nat n <= 2 ^ 64 -> NoDup (id_seq seed n).
Proof.
  intros Hn. unfold id_seq. apply NoDup_fmap_2_strong; [|apply NoDup_seq].
  intros i j Hi Hj He. apply elem_of_seq in Hi, Hj. apply u64_inj_near in He; lia.
Qed.

Lemma id_seq_fresh seed n : Z.of_nat n < 2 ^ 64 -> u64 (seed + 1 + Z.of_nat n) ∉ id_seq seed n.
Proof.
  intros Hn. pose proof (id_seq_NoDup seed (S n) ltac:(lia)) as H.
  rewrite id_seq_S in H. apply NoDup_app in H as (_ & H & _). intros Hin.
  apply (H _ Hin). by apply list_elem_of_singleton.
Qed.

Lemma outstanding_insert_fresh (p : gmap Z (pendingRequest C)) i x :
  p !! i = None -> entry <$> map_to_list (<[i:=x]> p) ≡ₚ (i, complete_cb x) :: (entry <$> map_to_list p).
Proof. intros H. by rewrite map_to_list_insert. Qed.

Lemma outstanding_delete (p : gmap Z (pendingRequest C)) i x :
  p !! i = Some x -> entry <$> map_to_list p ≡ₚ (i, complete_cb x) :: (entry <$> map_to_list (delete i p)).
Proof. intros H. by rewrite <- (map_to_list_delete p i x H). Qed.

Lemma outstanding_update (p : gmap Z (pendingRequest C)) i x y :
  p !! i = Some x -> complete_cb y = complete_cb x ->
  entry <$> map_to_list (<[i:=y]> p) ≡ₚ entry <$> map_to_list p.
Proof.
  intros H Hc. rewrite <- insert_delete_eq, outstanding_insert_fresh by apply lookup_delete_eq.
  rewrite (outstanding_delete p i x H). by rewrite Hc.
Qed.

(** Stopping calls the callback of each pending request. *)
Lemma map_called (range : list (Z * pendingRequest C)) :
  called <$> map (fun '(id, request) =>
    mkCompletion (V := V) (complete_cb request) id None (Some ErrRequestManagerClosed)) range
  = entry <$> range.
Proof. induction range as [|[id r] l IH]; [done|]. simpl. by f_equal. Qed.

Record inv (seed : Z) h : Prop := {
  inv_next : nextRequestId (mgr h) = u64 (seed + zlen (issued h));
  inv_ids : (issued h).*1 = id_seq seed (length (issued h));
  inv_conserve : issued h ≡ₚ (called <$> fired h) ++ withdrawn h ++ outstanding (mgr h);
  inv_bound : 0 < max (mgr h) /\ count (mgr h) <= max (mgr h);
  inv_closed : closed (mgr h) = true -> pending (mgr h) = ∅
}.

Lemma start_inv mp seed : inv seed (start mp seed).
Proof.
  split; simpl; try done.
  - f_equal. unfold zlen. simpl. lia.
  - split; [|change (count _) with 0];
      destruct (mp <=? 0) eqn:E; zbool; unfold defaultMaxPendingRequests; simpl; lia.
Qed.

Lemma inv_fresh seed h :
  inv seed h -> zlen (issued h) < 2 ^ 64 ->
  pending (mgr h) !! u64 (nextRequestId (mgr h) + 1) = None.
Proof.
  intros I Hn. destruct (pending (mgr h) !! _) eqn:E; [|done]. exfalso.
  apply (id_seq_fresh seed (length (issued h)) Hn). rewrite <- (inv_ids _ _ I).
  replace (u64 (seed + 1 + _)) with (u64 (nextRequestId (mgr h) + 1)).
  2:{ rewrite (inv_next _ _ I). unfold u64. rewrite Zplus_mod_idemp_l. f_equal. unfold zlen. lia. }
  rewrite (inv_conserve _ _ I), !fmap_app, !elem_of_app. right. right.
  apply elem_of_map_to_list in E. apply list_elem_of_fmap.
  eexists (_, _); split; [|apply list_elem_of_fmap; eexists; split; [|exact E]; done]. done.
Qed.

Lemma size_delete_le (p : gmap Z (pendingRequest C)) i : (size (delete i p) <= size p)%nat.
Proof. rewrite map_size_delete. destruct (p !! i); simpl; lia. Qed.

(** Withdrawing an entry, to be called or not, keeps the invariant. *)
Lemma inv_take seed h id (fs : list (completion V C)) ws :
  inv seed h ->
  (called <$> fs) ++ ws ≡ₚ match pending (mgr h) !! id with
                           | Some p => [(id, complete_cb p)] | None => [] end ->
  inv seed (mkHistory (with_pending (mgr h) (delete id (pending (mgr h))))
              (issued h) (fired h ++ fs) (withdrawn h ++ ws)).
Proof.
  intros I Hp. destruct I as [I1 I2 I3 [I4 I4'] I5]. split; simpl; try done.
  - rewrite I3, fmap_app. unfold outstanding. simpl.
    transitivity ((called <$> fired h) ++ withdrawn h ++ ((called <$> fs) ++ ws)
                  ++ (entry <$> map_to_list (delete id (pending (mgr h))))).
    2: solve_Permutation.
    rewrite Hp. do 2 f_equiv. destruct (pending (mgr h) !! id) as [p|] eqn:E.
    + by rewrite (outstanding_delete _ _ _ E).
    + by rewrite delete_id.
  - split; [done|]. revert I4'. unfold count. simpl.
    pose proof (size_delete_le (pending (mgr h)) id). lia.
  - intros Hc. rewrite (I5 Hc). apply delete_empty.
Qed.

Lemma req_step_inv seed o h h' :
  step o h h' -> inv seed h -> (is_add o = true -> zlen (issued h) < 2 ^ 64) -> inv seed h'.
Proof.
  intros Hs I Hn. destruct Hs as [nodeId target timeout cb h|id v e h|id h|id target h|range h Hr].
  - specialize (Hn eq_refl). pose proof (inv_fresh _ _ I Hn) as Hf.
    unfold add. destruct (closed (mgr h)) eqn:Ec; [by destruct h|].
    destruct (_ >=? _) eqn:El; [by destruct h|]. zbool.
    destruct I as [I1 I2 I3 [I4 I4'] I5]. split; simpl.
    + rewrite I1, zlen_app. unfold u64. rewrite Zplus_mod_idemp_l. f_equal. unfold zlen. simpl. lia.
    + rewrite fmap_app, I2, length_app, Nat.add_1_r, id_seq_S. simpl. do 2 f_equal.
      rewrite I1. unfold u64. rewrite Zplus_mod_idemp_l. f_equal. unfold zlen. lia.
    + unfold outstanding in *. simpl. rewrite outstanding_insert_fresh by done. simpl.
      rewrite I3. solve_Permutation.
    + split; [done|]. unfold count in *. simpl. rewrite map_size_insert_None by done. lia.
    + congruence.
  - unfold complete, remove. destruct (pending (mgr h) !! id) as [p|] eqn:E.
    + rewrite <- (app_nil_r (withdrawn h)). apply inv_take; [done|]. by rewrite E.
    + rewrite <- (app_nil_r (withdrawn h)). apply inv_take; [done|]. by rewrite E.
  - unfold remove. rewrite <- (app_nil_r (fired h)) at 1. apply inv_take; done.
  - unfold retarget. destruct (bool_decide _); [by destruct h|].
    destruct (pending (mgr h) !! id) as [p|] eqn:E; [|by destruct h].
    destruct I as [I1 I2 I3 [I4 I4'] I5]. split; simpl; try done.
    + unfold outstanding in *. simpl. by rewrite outstanding_update.
    + split; [done|]. unfold count in *. simpl. by rewrite map_size_insert_Some.
    + intros Hc. rewrite (I5 Hc) in E. by rewrite lookup_empty in E.
  - unfold stop. destruct (closed (mgr h)) eqn:Ec; simpl; [rewrite app_nil_r; by destruct h|].
    destruct I as [I1 I2 I3 [I4 I4'] I5]. split; simpl; try done.
    + unfold outstanding in *. simpl. rewrite map_to_list_empty, fmap_app. simpl.
      rewrite I3, Hr, app_nil_r, <- app_assoc. f_equiv. rewrite Permutation_app_comm. f_equiv.
      by rewrite map_called.
    + split; [done|]. unfold count. simpl. rewrite map_size_empty. lia.
Qed.

Lemma issued_step o h h' :
  step o h h' -> (length (issued h') <= length (issued h) + (if is_add o then 1 else 0))%nat.
Proof.
  destruct 1; simpl; try lia.
  - unfold add. repeat case_match; simplify_eq; simpl; try lia. all: rewrite length_app; simpl; lia.
  - unfold complete, remove. repeat case_match; simplify_eq; simpl; lia.
  - unfold stop. repeat case_match; simplify_eq; simpl; lia.
Qed.

Lemma closed_step o h h' : step o h h' -> closed (mgr h) = true -> closed (mgr h') = true.
Proof.
  destruct 1; simpl; intros Hc; rewrite ?Hc; try done.
  - unfold add. by rewrite Hc.
  - unfold complete, remove. repeat case_match; by simplify_eq.
  - unfold retarget. repeat case_match; done.
  - unfold stop. by rewrite Hc.
Qed.

Lemma steps_inv seed os h h' :
  steps os h h' -> inv seed h -> zlen (issued h) + Z.of_nat (adds os) <= 2 ^ 64 -> inv seed h'.
Proof.
  induction 1 as [|o os h1 h2 h3 Ho Hos IH]; [done|]. intros I Hn.
  pose proof (issued_step _ _ _ Ho). unfold adds in *. rewrite filter_cons in Hn.
  apply IH.
  - eapply req_step_inv; [done|done|]. intros Ha. rewrite Ha in Hn. simpl in Hn. lia.
  - unfold zlen in *. destruct (is_add o); simpl in Hn; lia.
Qed.

Lemma steps_closed os (h h' : history V C) :
  steps os h h' -> (closed (mgr h) = true \/ OStop ∈ os) -> closed (mgr h') = true.
Proof.
  induction 1 as [|o os h1 h2 h3 Ho Hos IH]; intros [Hc|Hin]; try done.
  - by apply not_elem_of_nil in Hin.
  - apply IH. left. by eapply closed_step.
  - apply elem_of_cons in Hin as [<-|Hin]; [|apply IH; by right].
    apply IH. left. inversion Ho; subst. unfold stop. by destruct (closed (mgr h1)) eqn:?.
Qed.

(** C20: Over every history of add, complete, remove and stop each issued request is
    pending, withdrawn or completed, exactly one of these and at most once. *)
Theorem every_request_completes_once maxPending seed os h :
  steps os (start maxPending seed) h -> Z.of_nat (adds os) <= 2 ^ 64 ->
  NoDup (issued h).*1 /\
  issued h ≡ₚ (called <$> fired h) ++ withdrawn h ++ outstanding (mgr h) /\
  count (mgr h) <= max (mgr h) /\
  (OStop ∈ os -> issued h ≡ₚ (called <$> fired h) ++ withdrawn h /\
    forall nodeId target timeout cb,
      add (mgr h) nodeId target timeout cb = (mgr h, Err ErrRequestManagerClosed)).
Proof.
  intros Hs Hn.
  assert (I : inv seed h) by (eapply steps_inv; [done|apply start_inv|change (zlen _) with 0; lia]).
  split_and!.
  - rewrite (inv_ids _ _ I). apply id_seq_NoDup.
    assert (Hl : forall os h1 h2, @steps V C os h1 h2 ->
                 (length (issued h2) <= length (issued h1) + adds os)%nat).
    { induction 1 as [|o' os' h1 h2 h3 Ho Hos IH]; [lia|]. pose proof (issued_step _ _ _ Ho).
      unfold adds in *. rewrite filter_cons. destruct (is_add o'); simpl; lia. }
    specialize (Hl _ _ _ Hs). simpl in Hl. lia.
  - apply I.
  - apply I.
  - intros Hstop. pose proof (steps_closed _ _ _ Hs (or_intror Hstop)) as Hc. split.
    + rewrite (inv_conserve _ _ I) at 1. unfold outstanding.
      by rewrite (inv_closed _ _ I Hc), map_to_list_empty, app_nil_r.
    + intros. unfold add. by rewrite Hc.
Qed.

(** A completion runs the callback registered for that id, with that value, and
    a second one is refused. *)
Lemma complete_once m id (v : option V) e p :
  pending m !! id = Some p ->
  let '(m', cs, err) := complete m id v e in
  cs = [mkCompletion (complete_cb p) id v e] /\ err = None /\
  forall (v' : option V) e', complete m' id v' e' = (m', [], Some (not_exist id)).
Proof.
  intros H. unfold complete, remove. rewrite H. split_and!; [done|done|]. intros v' e'.
  simpl. rewrite lookup_delete_eq. unfold with_pending. simpl. by rewrite delete_id by apply lookup_delete_eq.
Qed.
End requests_props.

(** Two requests, the first completed, a late timeout, then [stop]. *)
Lemma every_request_completes_once_witness :
  exists h : history Z nat,
    NoDup (issued h).*1 /\ zlen (fired h) = 2 /\
    steps [OAdd "n" "n" 5 1%nat; OAdd "n" "m" 0 2%nat; OComplete 8 (Some 7) None;
           OComplete 8 None (Some ErrAskTimeout); OStop] (start 0 7) h.
Proof.
  eexists. split; [|split].
  - apply (every_request_completes_once 0 7
      [OAdd "n" "n" 5 1%nat; OAdd "n" "m" 0 2%nat; OComplete 8 (Some 7) None;
       OComplete 8 None (Some ErrAskTimeout); OStop]); [|done].
    do 4 (eapply steps_cons; [constructor|]). eapply steps_cons; [|constructor].
    apply (step_stop [(9, mkPending "m" 2%nat false)]). done.
  - done.
  - do 4 (eapply steps_cons; [constructor|]). eapply steps_cons; [|constructor].
    apply (step_stop [(9, mkPending "m" 2%nat false)]). done.
Defined.
