(* ===== verification/Mailbox.v ===== *)
(** * pkg/mpsc, actor/mailbox.go, actor/dispatch.go: the mailbox under all schedules

    The multi-producer queue is its linked list on a heap of nodes; every atomic
    operation of Push, Pop, PushUser, PushSystem, schedule, processMessages and
    run is one step of one goroutine, and a world interleaves any number of
    them. *)

From S2P Require Import Prelude Errors.

Section mailbox.

Context {M : Type}.

(** ** pkg/mpsc *)

Record node := mkNode { next : option N; val : option M }.

(** [Mpsc]: the node heap with the two pointers. *)
Record Mpsc := mkMpsc { heap : gmap N node; head : N; tail : N }.

Definition stub : N := 0%N.
Definition NewMpsc : Mpsc := mkMpsc {[ stub := mkNode None None ]} stub stub.

Definition set_next (h : gmap N node) (p n : N) : gmap N node :=
  match h !! p with Some nd => <[p := mkNode (Some n) (val nd)]> h | None => h end.

(** [Push], first half: allocate [n] and swap the head; returns [prev]. *)
Definition Push_swap (q : Mpsc) (n : N) (x : M) : Mpsc * N :=
  (mkMpsc (<[n := mkNode None (Some x)]> (heap q)) n (tail q), head q).

(** [Push], second half: [prev.next = n]. *)
Definition Push_link (q : Mpsc) (prev n : N) : Mpsc :=
  mkMpsc (set_next (heap q) prev n) (head q) (tail q).

Definition tail_next (q : Mpsc) : option N := heap q !! tail q ≫= next.

Definition Pop (q : Mpsc) : Mpsc * option M :=
  match tail_next q with
  | None => (q, None)
  | Some n =>
    let v := heap q !! n ≫= val in
    let h := match heap q !! n with
             | Some nd => <[n := mkNode (next nd) None]> (heap q) | None => heap q end in
    (mkMpsc h (head q) n, v)
  end.

Definition Empty (q : Mpsc) : bool := bool_decide (tail_next q = None).

(** ** actor/mailbox.go *)

Definition idle : Z := 0.
Definition running : Z := 1.

Record mailbox := mkMailbox {
  queue : Mpsc;
  invoker : bool; (* an invoker is registered *)
  throughput : Z; (* dispatch.Throughput() *)
  schedulerStatus : Z;
  messages : Z; (* atomic.Int32 *)
  capacity : Z
}.

Definition newMailbox (cap : Z) : mailbox :=
  mkMailbox NewMpsc false 0 idle 0 (if cap <=? 0 then 1024 else cap).

Definition RegisterHandlers (mb : mailbox) (throughput : Z) : mailbox :=
  mkMailbox (queue mb) true throughput (schedulerStatus mb) (messages mb) (capacity mb).

Definition with_queue (mb : mailbox) (q : Mpsc) : mailbox :=
  mkMailbox q (invoker mb) (throughput mb) (schedulerStatus mb) (messages mb) (capacity mb).
Definition with_status (mb : mailbox) (s : Z) : mailbox :=
  mkMailbox (queue mb) (invoker mb) (throughput mb) s (messages mb) (capacity mb).
Definition messages_Add (mb : mailbox) (d : Z) : mailbox :=
  mkMailbox (queue mb) (invoker mb) (throughput mb) (schedulerStatus mb)
    (s32 (messages mb + d)) (capacity mb).

Definition IsEmpty (mb : mailbox) : bool := Empty (queue mb).

(** [schedulerStatus.CompareAndSwap(idle, running)]. *)
Definition CompareAndSwap_idle_running (mb : mailbox) : option mailbox :=
  if schedulerStatus mb =? idle then Some (with_status mb running) else None.

(** The program counters of goroutines. [PStart] to [PDone] run PushUser
    ([user = true]) or PushSystem; [WRun] to [WDone] run processMessages and
    [run], whose counter is [processed]. *)
Inductive thread :=
| PStart (user : bool) (msg : option M)
| PFull (* counted beyond the capacity, about to roll back *)
| PReserved (user : bool) (msg : M) (* counted, about to Push *)
| PSwapped (n prev : N) (* inside Push *)
| PLinked (* pushed, about to schedule *)
| PDone (err : option gerr)
| WRun (processed : Z)
| WPopped (processed : Z) (msg : M) (* popped, about to messages.Add(-1) *)
| WInvoke (processed : Z) (msg : M) (* about to call the invoker *)
| WInvoking (processed : Z) (* inside InvokerMessage *)
| WReturn (* about to store idle *)
| WIdle (* about to load messages *)
| WRetry (* about to CAS *)
| WDone.

(** What a step shows to an observer: a message entered the queue; a message was
    handed to the invoker. *)
Inductive event := EPush (user : bool) (msg : M) | EInvoke (msg : M).

(** One step of a goroutine; [fresh] is the address the allocator returns to
    Push, [stop] what InvokerMessage returns. The result has the goroutines
    that [dispatch.Schedule] started. *)
Definition local_step (fresh : N) (stop : bool) (mb : mailbox) (t : thread)
  : option (mailbox * thread * list thread * option event) :=
  match t with
  | PStart _ None => Some (mb, PDone None, [], None)
  | PStart user (Some msg) =>
    let mb := messages_Add mb 1 in
    Some (mb, if user && (messages mb >? capacity mb) then PFull else PReserved user msg, [], None)
  | PFull => Some (messages_Add mb (-1), PDone (Some ErrMailboxFull), [], None)
  | PReserved user msg =>
    let '(q, prev) := Push_swap (queue mb) fresh msg in
    Some (with_queue mb q, PSwapped fresh prev, [], Some (EPush user msg))
  | PSwapped n prev => Some (with_queue mb (Push_link (queue mb) prev n), PLinked, [], None)
  | PLinked =>
    match CompareAndSwap_idle_running mb with
    | Some mb => Some (mb, PDone None, [WRun 0], None)
    | None => Some (mb, PDone None, [], None)
    end
  | WRun processed =>
    if processed >=? throughput mb then Some (mb, WRun 0, [], None)
    else
      let '(q, msg) := Pop (queue mb) in
      Some (with_queue mb q,
            match msg with None => WReturn | Some msg => WPopped (processed + 1) msg end, [], None)
  | WPopped processed msg => Some (messages_Add mb (-1), WInvoke processed msg, [], None)
  | WInvoke processed msg =>
    if invoker mb then Some (mb, WInvoking processed, [], Some (EInvoke msg))
    else Some (mb, WRun processed, [], None)
  | WInvoking processed => Some (mb, if stop then WReturn else WRun processed, [], None)
  | WReturn => Some (with_status mb idle, WIdle, [], None)
  | WIdle => Some (mb, if messages mb >? 0 then WRetry else WDone, [], None)
  | WRetry =>
    match CompareAndSwap_idle_running mb with
    | Some mb => Some (mb, WRun 0, [], None)
    | None => Some (mb, WDone, [], None)
    end
  | PDone _ | WDone => None
  end.

Record world := mkWorld {
  mbox : mailbox;
  threads : list thread;
  pushed : list (bool * M);
  invoked : list M
}.

Definition observe (w : world) (e : option event) : list (bool * M) * list M :=
  match e with
  | None => (pushed w, invoked w)
  | Some (EPush user x) => (pushed w ++ [(user, x)], invoked w)
  | Some (EInvoke x) => (pushed w, invoked w ++ [x])
  end.

(** Goroutine [i] takes a step. *)
Definition world_step (i : nat) (fresh : N) (stop : bool) (w : world) : option world :=
  t ← threads w !! i;
  '(mb, t', spawned, e) ← local_step fresh stop (mbox w) t;
  let '(pu, inv) := observe w e in
  Some (mkWorld mb (<[i := t']> (threads w) ++ spawned) pu inv).

(** Any goroutine steps, or the program calls PushUser or PushSystem once more. *)
Inductive step : world -> world -> Prop :=
| step_thread i fresh stop w w' :
    heap (queue (mbox w)) !! fresh = None ->
    world_step i fresh stop w = Some w' -> step w w'
| step_call user msg w :
    step w (mkWorld (mbox w) (threads w ++ [PStart user msg]) (pushed w) (invoked w)).

Definition initial (cap tput : Z) : world :=
  mkWorld (RegisterHandlers (newMailbox cap) tput) [] [] [].

Fixpoint exec (sched : list (nat * N * bool)) (w : world) : option world :=
  match sched with
  | [] => Some w
  | (i, fresh, stop) :: sched =>
    match heap (queue (mbox w)) !! fresh with
    | Some _ => None
    | None => world_step i fresh stop w ≫= exec sched
    end
  end.

End mailbox.
Arguments node : clear implicits.
Arguments Mpsc : clear implicits.
Arguments mailbox : clear implicits.
Arguments thread : clear implicits.
Arguments event : clear implicits.
Arguments world : clear implicits.

(** ** The linked list of the queue

    [chain h a q br]: from the tail node [a] the heap [h] holds the nodes and
    messages of [q] in order; [br] are the links a Push has not yet stored. *)

Section queue_proofs.
Context {M : Type}.
Implicit Types (h : gmap N (node M)) (q : list (N * (bool * M))) (br : list (N * N)).

Inductive chain h : N -> list (N * (bool * M)) -> list (N * N) -> Prop :=
| chain_end a nd : h !! a = Some nd -> next nd = None -> chain h a [] []
| chain_link a nd b ux ndb q br :
    h !! a = Some nd -> next nd = Some b -> h !! b = Some ndb -> val ndb = Some ux.2 ->
    chain h b q br -> chain h a ((b, ux) :: q) br
| chain_gap a nd b ux ndb q br :
    h !! a = Some nd -> next nd = None -> h !! b = Some ndb -> val ndb = Some ux.2 ->
    chain h b q br -> chain h a ((b, ux) :: q) ((a, b) :: br).

Fixpoint last_node (a : N) q : N :=
  match q with [] => a | (b, _) :: q => last_node b q end.

Lemma last_node_snoc a q n ux : last_node a (q ++ [(n, ux)]) = n.
Proof. revert a. by induction q as [|[b uy] q IH]; intros a; simpl. Qed.

Lemma chain_dom h a q br n : chain h a q br -> n ∈ a :: q.*1 -> is_Some (h !! n).
Proof.
  induction 1 as [a nd H _|a nd b ux ndb q br H _ Hb _ _ IH|a nd b ux ndb q br H _ Hb _ _ IH]; simpl in *;
    rewrite elem_of_cons; intros [->|Hn]; eauto.
  by apply not_elem_of_nil in Hn.
Qed.

Lemma chain_gap_dom h a q br p n : chain h a q br -> (p, n) ∈ br -> p ∈ a :: q.*1.
Proof.
  induction 1 as [| |a nd b ux ndb q br _ _ _ _ _ IH]; simpl in *; intros Hin.
  - by apply not_elem_of_nil in Hin.
  - apply elem_of_cons. auto.
  - apply elem_of_cons in Hin as [[= -> ->]|Hin]; apply elem_of_cons; auto.
Qed.

(** Only [next] along the chain and [val] behind the tail matter. *)
Lemma chain_frame h h' a q br :
  chain h a q br ->
  (forall n nd, n ∈ a :: q.*1 -> h !! n = Some nd ->
    exists nd', h' !! n = Some nd' /\ next nd' = next nd /\ (n ∈ q.*1 -> val nd' = val nd)) ->
  chain h' a q br.
Proof.
  induction 1 as [a nd H Hn|a nd b ux ndb q br H Hn Hb Hv _ IH|a nd b ux ndb q br H Hn Hb Hv _ IH];
    intros Hf.
  - destruct (Hf a nd) as (nd' & H' & Hn' & _); [apply list_elem_of_here|done|].
    apply chain_end with nd'; congruence.
  - destruct (Hf a nd) as (nd' & H' & Hn' & _); [apply list_elem_of_here|done|].
    destruct (Hf b ndb) as (ndb' & Hb' & _ & Hv'); [simpl; set_solver|done|].
    apply chain_link with nd' ndb'; [done|congruence|done|rewrite Hv'; [done|simpl; set_solver]|].
    apply IH. intros n nd0 Hin Hl. destruct (Hf n nd0) as (nd1 & H1 & H2 & H3);
      [simpl in *; set_solver|done|]. exists nd1. split_and!; [done|done|].
    intros Hin'. apply H3. simpl. set_solver.
  - destruct (Hf a nd) as (nd' & H' & Hn' & _); [apply list_elem_of_here|done|].
    destruct (Hf b ndb) as (ndb' & Hb' & _ & Hv'); [simpl; set_solver|done|].
    apply chain_gap with nd' ndb'; [done|congruence|done|rewrite Hv'; [done|simpl; set_solver]|].
    apply IH. intros n nd0 Hin Hl. destruct (Hf n nd0) as (nd1 & H1 & H2 & H3);
      [simpl in *; set_solver|done|]. exists nd1. split_and!; [done|done|].
    intros Hin'. apply H3. simpl. set_solver.
Qed.

Lemma chain_swap h a q br n u x :
  chain h a q br -> h !! n = None ->
  chain (<[n := mkNode None (Some x)]> h) a (q ++ [(n, (u, x))]) (br ++ [(last_node a q, n)]).
Proof.
  intros Hc Hf. induction Hc as [a nd H Hn|a nd b ux ndb q br H Hn Hb Hv _ IH
                                |a nd b ux ndb q br H Hn Hb Hv _ IH]; simpl.
  - eapply chain_gap; [rewrite lookup_insert_ne by congruence; done|done|apply lookup_insert_eq|done|].
    eapply chain_end; [apply lookup_insert_eq|done].
  - eapply chain_link; [rewrite lookup_insert_ne by congruence; done|done
                       |rewrite lookup_insert_ne by congruence; done|done|done].
  - eapply chain_gap; [rewrite lookup_insert_ne by congruence; done|done
                      |rewrite lookup_insert_ne by congruence; done|done|done].
Qed.

Lemma set_next_eq h p n nd : h !! p = Some nd -> set_next h p n !! p = Some (mkNode (Some n) (val nd)).
Proof. intros H. unfold set_next. rewrite H. apply lookup_insert_eq. Qed.
Lemma set_next_ne h p n i : p <> i -> set_next h p n !! i = h !! i.
Proof. intros Hne. unfold set_next. destruct (h !! p); [by apply lookup_insert_ne|done]. Qed.
Lemma set_next_val h p n i nd :
  h !! i = Some nd -> exists nd', set_next h p n !! i = Some nd' /\ val nd' = val nd.
Proof.
  intros H. destruct (decide (p = i)) as [->|Hne].
  - rewrite (set_next_eq _ _ _ _ H). by eexists.
  - rewrite set_next_ne by done. eauto.
Qed.

Lemma chain_close h a q br p n :
  chain h a q br -> NoDup (a :: q.*1) -> (p, n) ∈ br ->
  exists br', br ≡ₚ (p, n) :: br' /\ chain (set_next h p n) a q br'.
Proof.
  induction 1 as [a nd H Hn|a nd b ux ndb q br H Hn Hb Hv Hc IH
                 |a nd b ux ndb q br H Hn Hb Hv Hc IH]; intros Hnd Hin; simpl in *.
  - by apply not_elem_of_nil in Hin.
  - apply NoDup_cons in Hnd as [Ha Hnd].
    assert (p <> a) by (intros ->; by apply Ha, (chain_gap_dom _ _ _ _ _ _ Hc Hin)).
    destruct (IH Hnd Hin) as (br' & Hp & Hc'). exists br'. split; [done|].
    destruct (set_next_val h p n b ndb Hb) as (ndb' & Hb' & Hv').
    eapply chain_link; [by rewrite set_next_ne|done|done|congruence|done].
  - apply NoDup_cons in Hnd as [Ha Hnd]. apply elem_of_cons in Hin as [[= -> ->]|Hin].
    + exists br. split; [done|].
      destruct (set_next_val h a b b ndb Hb) as (ndb' & Hb' & Hv').
      eapply chain_link; [by apply set_next_eq|done|done|congruence|].
      eapply chain_frame; [done|]. intros i nd0 Hi Hl. exists nd0.
      rewrite set_next_ne by (intros ->; done). done.
    + assert (p <> a) by (intros ->; by apply Ha, (chain_gap_dom _ _ _ _ _ _ Hc Hin)).
      destruct (IH Hnd Hin) as (br' & Hp & Hc'). exists ((a, b) :: br'). split.
      { rewrite Hp. apply perm_swap. }
      destruct (set_next_val h p n b ndb Hb) as (ndb' & Hb' & Hv').
      eapply chain_gap; [by rewrite set_next_ne|done|done|congruence|done].
Qed.

(** Pop takes the first message whose link is stored. *)
Lemma chain_pop (Q : Mpsc M) q br :
  chain (heap Q) (tail Q) q br -> NoDup (tail Q :: q.*1) ->
  match Pop Q with
  | (Q', Some x) => exists n u q', q = (n, (u, x)) :: q' /\ tail Q' = n /\ head Q' = head Q /\
                    chain (heap Q') n q' br
  | (Q', None) => Q' = Q /\ (q = [] \/ br <> [])
  end.
Proof.
  intros Hc Hnd. unfold Pop, tail_next.
  inversion Hc as [a nd H Hn|a nd b ux ndb q' br' H Hn Hb Hv Hc'|a nd b ux ndb q' br' H Hn Hb Hv Hc'];
    subst; rewrite H; simpl; rewrite Hn; simpl; [auto| |auto].
  rewrite Hb. simpl. rewrite Hv. destruct ux as [u x]. exists b, u, q'. split_and!; try done.
  simpl. apply NoDup_cons in Hnd as [_ Hnd]. apply NoDup_cons in Hnd as [Hb' _].
  apply chain_frame with (heap Q); [done|]. intros n nd0 Hin Hl.
  destruct (decide (n = b)) as [->|Hne].
  - rewrite lookup_insert_eq. eexists. split_and!; [done|simpl; congruence|done].
  - rewrite lookup_insert_ne by congruence. eauto.
Qed.

Lemma chain_fresh h a q br n : chain h a q br -> h !! n = None -> n ∉ a :: q.*1.
Proof. intros Hc Hf Hin. destruct (chain_dom _ _ _ _ _ Hc Hin). congruence. Qed.
End queue_proofs.

(** ** The invariant of all schedules *)

Section mailbox_proofs.
Context {M : Type}.
Implicit Types (t : thread M) (ts : list (thread M)).

Fixpoint tsum (f : thread M -> Z) ts : Z :=
  match ts with [] => 0 | t :: ts => f t + tsum f ts end.

Lemma tsum_cons f t ts : tsum f (t :: ts) = f t + tsum f ts.
Proof. done. Qed.
Lemma tsum_app f ts1 ts2 : tsum f (ts1 ++ ts2) = tsum f ts1 + tsum f ts2.
Proof. induction ts1; simpl; lia. Qed.
#[global] Instance tsum_perm f : Proper ((≡ₚ) ==> (=)) (tsum f).
Proof. intros ts1 ts2 H. induction H; simpl; lia. Qed.
Lemma tsum_le f g ts : (forall t, f t <= g t) -> tsum f ts <= tsum g ts.
Proof. intros H. induction ts as [|t ts IH]; simpl; [lia|]. specialize (H t). lia. Qed.
Lemma tsum_const c ts : tsum (fun _ => c) ts = c * zlen ts.
Proof. induction ts; unfold zlen in *; simpl; lia. Qed.
Lemma tsum_plus f g ts : tsum (fun t => f t + g t) ts = tsum f ts + tsum g ts.
Proof. induction ts; simpl; lia. Qed.
Lemma tsum_nonneg f ts : (forall t, 0 <= f t) -> 0 <= tsum f ts.
Proof. intros H. induction ts as [|t ts IH]; simpl; [lia|]. specialize (H t). lia. Qed.

(** A worker between winning the CAS and storing [idle]. *)
Definition active t : Z :=
  match t with WRun _ | WPopped _ _ | WInvoke _ _ | WInvoking _ | WReturn => 1 | _ => 0 end.
(** Counted in [messages] but not in the queue. *)
Definition reserved t : Z :=
  match t with PFull | PReserved _ _ | WPopped _ _ => 1 | _ => 0 end.
(** A user message that was accepted and is not yet in the queue. *)
Definition accepted t : Z := match t with PReserved true _ => 1 | _ => 0 end.
(** Pushes that may have entered the queue. *)
Definition entered t : Z := match t with PSwapped _ _ | PLinked | PDone _ => 1 | _ => 0 end.
(** Goroutines that will still try to start a worker. *)
Definition waking t : Z :=
  match t with PSwapped _ _ | PLinked | WIdle | WRetry => 1 | _ => 0 end.
(** The message in the hands of a worker, the link a Push has to store. *)
Definition hand t : option M :=
  match t with WPopped _ x | WInvoke _ x => Some x | _ => None end.
Definition gap t : option (N * N) :=
  match t with PSwapped n prev => Some (prev, n) | _ => None end.
Definition hands t : Z := match hand t with Some _ => 1 | None => 0 end.

Definition users (l : list (bool * M)) : Z := zlen (filter (fun ux => ux.1 = true) l).

Record inv (mb : mailbox M) ts (pu : list (bool * M)) (dn : list M) : Prop := {
  i_cap : 0 < capacity mb;
  i_invoker : invoker mb = true;
  i_status : schedulerStatus mb = tsum active ts /\ tsum active ts <= 1;
  i_queue : exists q br hk hs,
    chain (heap (queue mb)) (tail (queue mb)) q br /\
    NoDup (tail (queue mb) :: q.*1) /\
    head (queue mb) = last_node (tail (queue mb)) q /\
    omap gap ts ≡ₚ br /\
    pu = hk ++ hs ++ q.*2 /\ hk.*2 = dn /\ hs.*2 ≡ₚ omap hand ts /\
    messages mb = tsum reserved ts + zlen q /\
    tsum accepted ts + users q.*2 <= capacity mb /\
    (q = [] \/ 0 < tsum active ts + tsum waking ts);
  i_entered : zlen pu <= tsum entered ts
}.

Lemma inv_perm mb ts ts' pu dn : ts ≡ₚ ts' -> inv mb ts pu dn -> inv mb ts' pu dn.
Proof.
  intros Hp [H1 H2 H3 (q & br & hk & hs & Hc & Hn & Hh & Hg & Hpu & Hk & Hs & Hm & Hu & Hw) H4].
  split; try done; [by rewrite <- Hp| |by rewrite <- Hp].
  exists q, br, hk, hs. by rewrite <- Hp.
Qed.

Lemma omap_hand_length ts : zlen (omap hand ts) = tsum hands ts.
Proof.
  induction ts as [|t ts IH]; [done|]. rewrite omap_cons. simpl. rewrite <- IH. unfold hands.
  destruct (hand t); rewrite ?zlen_cons; lia.
Qed.

Definition fresh_call t : Z := match t with PStart _ _ => 1 | _ => 0 end.

(** What [messages] counts never exceeds the number of goroutines. *)
Lemma counted_bound ts (q : list (N * (bool * M))) pu (hk hs : list (bool * M)) :
  pu = hk ++ hs ++ q.*2 -> hs.*2 ≡ₚ omap hand ts -> zlen pu <= tsum entered ts ->
  0 <= tsum reserved ts + zlen q <= zlen ts - tsum fresh_call ts.
Proof.
  intros Hpu Hs He. split.
  { pose proof (zlen_nonneg q).
    pose proof (tsum_nonneg reserved ts ltac:(by intros [])). lia. }
  pose proof (tsum_le (fun t => (reserved t + entered t) + fresh_call t) (fun t => 1 + hands t) ts
                ltac:(by intros [])) as H.
  rewrite !tsum_plus, tsum_const, <- omap_hand_length in H.
  assert (Hl : zlen (omap hand ts) = zlen hs).
  { apply Permutation_length in Hs. rewrite length_fmap in Hs. unfold zlen. lia. }
  rewrite Hpu, !zlen_app in He. unfold zlen in *. rewrite length_fmap in He. lia.
Qed.

Definition note (pu : list (bool * M)) (dn : list M) (e : option (event M)) :=
  match e with
  | None => (pu, dn)
  | Some (EPush user x) => (pu ++ [(user, x)], dn)
  | Some (EInvoke x) => (pu, dn ++ [x])
  end.

Lemma users_app l1 l2 : users (l1 ++ l2) = users l1 + users l2.
Proof. unfold users. by rewrite filter_app, zlen_app. Qed.
Lemma users_nonneg l : 0 <= users l.
Proof. apply zlen_nonneg. Qed.
Lemma users_le l : users l <= zlen l.
Proof. unfold users, zlen. pose proof (length_filter (fun ux : bool * M => ux.1 = true) l). lia. Qed.
Lemma users_cons u x l : users ((u, x) :: l) = (if u then 1 else 0) + users l.
Proof. unfold users. rewrite filter_cons. by destruct u; simpl; rewrite ?zlen_cons. Qed.

Ltac tsimp := rewrite ?tsum_app in *; cbn [tsum active reserved accepted entered waking] in *.

Lemma others_inactive t ts : tsum active (t :: ts) <= 1 -> active t = 1 ->
  tsum active ts = 0 /\ omap hand ts = [].
Proof.
  intros H Ht. pose proof (tsum_nonneg active ts ltac:(by intros [])). simpl in H.
  assert (Hz : tsum active ts = 0) by lia. split; [done|]. clear H Ht.
  induction ts as [|t' ts IH]; [done|]. simpl in *.
  pose proof (tsum_nonneg active ts ltac:(by intros [])).
  destruct t'; simpl in *; try lia; apply IH; lia.
Qed.

(** Steps that leave the queue alone and hand no message over. *)
Lemma inv_quiet mb mb' t t' ts sp pu dn :
  inv mb (t :: ts) pu dn -> zlen (t :: ts) < 2 ^ 31 ->
  queue mb' = queue mb -> capacity mb' = capacity mb -> invoker mb' = invoker mb ->
  schedulerStatus mb' = tsum active (t' :: ts ++ sp) -> tsum active (t' :: ts ++ sp) <= 1 ->
  gap t' = gap t -> hand t' = hand t -> sp = [] \/ sp = [WRun 0] ->
  messages mb' - reserved t' = messages mb - reserved t ->
  accepted t' <= accepted t \/ (accepted t' = 1 /\ reserved t' = 1 /\ messages mb' <= capacity mb) ->
  0 < tsum active (t' :: ts ++ sp) + tsum waking (t' :: ts ++ sp) \/
    active t + waking t <= active t' + waking t' \/ messages mb <= 0 ->
  entered t <= entered t' ->
  inv mb' (t' :: ts ++ sp) pu dn.
Proof.
  intros [H1 H2 H3 (q & br & hk & hs & Hc & Hn & Hh & Hg & Hpu & Hk & Hs & Hm & Hu & Hw) H4]
    Hlen Eq Ec Ei Est Eact Egap Ehand Hsp Emsg Eacc Ewk Een.
  assert (Hsp' : omap gap sp = [] /\ omap hand sp = [] /\ tsum reserved sp = 0 /\
                 tsum accepted sp = 0 /\ tsum entered sp = 0 /\ 0 <= tsum active sp /\
                 0 <= tsum waking sp)
    by (destruct Hsp as [-> | ->]; done).
  destruct Hsp' as (Hsg & Hsh & Hsr & Hsa & Hse & Hsac & Hsw).
  pose proof (counted_bound _ _ _ _ _ Hpu Hs H4) as Hb.
  pose proof (tsum_nonneg reserved ts ltac:(by intros [])) as Hr0.
  pose proof (users_le q.*2) as Hul. unfold zlen at 1 in Hul. rewrite length_fmap in Hul.
  fold (zlen q) in Hul.
  assert (Ha0 : tsum accepted ts <= tsum reserved ts) by (apply tsum_le; by intros [| |[]| | | | | | | | | | |]).
  split; try congruence; [lia| |].
  - exists q, br, hk, hs. rewrite Eq, Ec.
    rewrite omap_cons, omap_app, Hsg, app_nil_r, Egap, <- omap_cons.
    rewrite (omap_cons hand t'), omap_app, Hsh, app_nil_r, Ehand, <- omap_cons.
    simpl in *. rewrite !tsum_app in *. split_and!; try done; [lia|lia|].
    destruct Hw as [Hw|Hw]; [by left|].
    destruct Ewk as [?|[?|?]]; [right; lia|right; lia|left].
    apply length_zero_iff_nil. pose proof (zlen_nonneg q). unfold zlen in *.
    destruct t; simpl in *; lia.
  - simpl. rewrite tsum_app. simpl in H4. lia.
Qed.

Lemma chain_heap_head mb ts pu dn : inv mb ts pu dn ->
  forall n, heap (queue mb) !! n = None -> n <> head (queue mb).
Proof.
  intros [_ _ _ (q & br & hk & hs & Hc & Hn & Hh & _) _] n Hf ->.
  pose proof (chain_fresh _ _ _ _ _ Hc Hf) as Hin. apply Hin. rewrite Hh. clear.
  generalize (tail (queue mb)). induction q as [|[b ux] q IH]; intros a; simpl; [set_solver|].
  right. apply IH.
Qed.

Lemma inv_push mb ts pu dn user x n :
  inv mb (PReserved user x :: ts) pu dn -> heap (queue mb) !! n = None ->
  inv (with_queue mb (Push_swap (queue mb) n x).1)
    (PSwapped n (head (queue mb)) :: ts ++ []) (pu ++ [(user, x)]) dn.
Proof.
  intros [H1 H2 H3 (q & br & hk & hs & Hc & Hn & Hh & Hg & Hpu & Hk & Hs & Hm & Hu & Hw) H4] Hf.
  rewrite app_nil_r. split; simpl in *; try done.
  - exists (q ++ [(n, (user, x))]), (br ++ [(head (queue mb), n)]), hk, hs. simpl.
    rewrite fmap_app, last_node_snoc. split_and!; try done.
    + rewrite Hh. by apply chain_swap.
    + rewrite app_comm_cons. apply NoDup_app. split_and!; [done| |apply NoDup_singleton].
      intros m Hm' Hin. apply list_elem_of_singleton in Hin as ->.
      by apply (chain_fresh _ _ _ _ _ Hc Hf).
    + rewrite Hg. apply Permutation_cons_append.
    + subst pu. rewrite fmap_app. by rewrite <- !app_assoc.
    + rewrite zlen_app. unfold zlen at 2. simpl. lia.
    + rewrite fmap_app, users_app. simpl. rewrite users_cons. change (users []) with 0. destruct user; lia.
    + right. pose proof (tsum_nonneg waking ts ltac:(by intros [])).
      pose proof (tsum_nonneg active ts ltac:(by intros [])). lia.
  - rewrite zlen_app. unfold zlen at 2. simpl. lia.
Qed.

Lemma inv_link mb ts pu dn n prev :
  inv mb (PSwapped n prev :: ts) pu dn ->
  inv (with_queue mb (Push_link (queue mb) prev n)) (PLinked :: ts ++ []) pu dn.
Proof.
  intros [H1 H2 H3 (q & br & hk & hs & Hc & Hn & Hh & Hg & Hpu & Hk & Hs & Hm & Hu & Hw) H4].
  rewrite app_nil_r. split; simpl in *; try done.
  assert (Hin : (prev, n) ∈ br) by (rewrite <- Hg; apply list_elem_of_here).
  destruct (chain_close _ _ _ _ _ _ Hc Hn Hin) as (br' & Hp & Hc').
  exists q, br', hk, hs. split_and!; try done.
  rewrite Hp in Hg. by apply Permutation_cons_inv in Hg.
Qed.

Lemma inv_pop mb ts pu dn k :
  inv mb (WRun k :: ts) pu dn ->
  inv (with_queue mb (Pop (queue mb)).1)
    (match (Pop (queue mb)).2 with None => WReturn | Some x => WPopped (k + 1) x end :: ts ++ []) pu dn.
Proof.
  intros [H1 H2 [H3 H3'] (q & br & hk & hs & Hc & Hn & Hh & Hg & Hpu & Hk & Hs & Hm & Hu & Hw) H4].
  pose proof (others_inactive _ _ H3' eq_refl) as [Ha Hhand].
  pose proof (chain_pop _ _ _ Hc Hn) as Hpop. destruct (Pop (queue mb)) as [Q' [x|]]; simpl.
  - destruct Hpop as (n & u & q' & -> & Ht & Hhd & Hc'). rewrite app_nil_r.
    rewrite omap_cons, Hhand in Hs. rewrite fmap_cons in Hu. cbn [snd] in Hu.
    rewrite users_cons in Hu. simpl in *. apply Permutation_nil_r, fmap_nil_inv in Hs as ->.
    split; [done|done|done| |done].
    exists q', br, hk, [(u, x)]. cbn [with_queue queue tail]. rewrite Ht. split_and!; try done.
    + by apply NoDup_cons in Hn as [_ Hn].
    + congruence.
    + by rewrite omap_cons, Hhand.
    + rewrite zlen_cons in Hm. simpl. lia.
    + simpl. destruct u; lia.
    + right. simpl. pose proof (tsum_nonneg waking ts ltac:(by intros [])). lia.
  - destruct Hpop as [-> Hq]. rewrite app_nil_r. split; [done|done|done| |done].
    by exists q, br, hk, hs.
Qed.

Lemma inv_invoke mb ts pu dn k x :
  inv mb (WInvoke k x :: ts) pu dn -> inv mb (WInvoking k :: ts ++ []) pu (dn ++ [x]).
Proof.
  intros [H1 H2 [H3 H3'] (q & br & hk & hs & Hc & Hn & Hh & Hg & Hpu & Hk & Hs & Hm & Hu & Hw) H4].
  pose proof (others_inactive _ _ H3' eq_refl) as [Ha Hhand].
  rewrite omap_cons, Hhand in Hs.
  rewrite app_nil_r. split; [done|done|done| |done]. apply Permutation_singleton_r in Hs.
  exists q, br, (hk ++ hs), []. split_and!; try done.
  - by rewrite <- app_assoc.
  - rewrite fmap_app. congruence.
  - by rewrite omap_cons, Hhand.
Qed.

(** Every step of every goroutine preserves the invariant. *)
Lemma local_inv fresh stop mb t ts pu dn mb' t' sp e :
  inv mb (t :: ts) pu dn -> zlen (t :: ts) < 2 ^ 31 -> heap (queue mb) !! fresh = None ->
  local_step fresh stop mb t = Some (mb', t', sp, e) ->
  inv mb' (t' :: ts ++ sp) (note pu dn e).1 (note pu dn e).2.
Proof.
  intros I Hlen Hf Hs.
  assert (Hmsg : forall d, (0 < d -> d = 1 /\ fresh_call t = 1) -> (d <= 0 -> d = -1 /\ reserved t = 1) ->
                 s32 (messages mb + d) = messages mb + d).
  { destruct I as [_ _ _ (q & br & hk & hs & Hc & _ & _ & _ & Hpu & _ & Hs' & Hm & _) H4].
    pose proof (counted_bound _ _ _ _ _ Hpu Hs' H4) as Hb. intros d Hd1 Hd2. rewrite zlen_cons in *.
    pose proof (tsum_nonneg reserved ts ltac:(by intros [])).
    pose proof (tsum_nonneg fresh_call ts ltac:(by intros [])).
    pose proof (zlen_nonneg q). simpl in *. assert (0 <= fresh_call t) by (by destruct t). apply s32_small. lia. }
  pose proof (i_status _ _ _ _ I) as [Hst Hact].
  pose proof (tsum_nonneg active ts ltac:(by intros [])) as Ha0.
  pose proof (tsum_nonneg waking ts ltac:(by intros [])) as Hw0.
  destruct t; simpl in Hs; simplify_eq; simpl in Hst, Hact.
  - destruct msg as [msg|]; simplify_eq; simpl;
      (eapply inv_quiet; [done|done|done|done|done| | | | |by left| | | |]); simpl;
      rewrite ?app_nil_r; try lia; try done.
    all: rewrite ?Hmsg by (simpl; lia). all: destruct user; simpl; try done; try lia.
    all: rewrite ?Hmsg by (simpl; lia). all: destruct (_ >? _) eqn:E; simpl; zbool; try done; try lia.
  - eapply inv_quiet; try done; simpl; rewrite ?app_nil_r, ?Hmsg by (simpl; lia); auto; lia.
  - by apply inv_push.
  - by apply inv_link.
  - unfold CompareAndSwap_idle_running in Hs. destruct (_ =? idle) eqn:E; zbool;
      unfold idle in E; simplify_eq; eapply inv_quiet; try done; simpl;
      rewrite ?tsum_app, ?app_nil_r; simpl; auto; unfold running; lia.
  - destruct (_ >=? _); simplify_eq.
    + eapply inv_quiet; try done; simpl; rewrite ?app_nil_r; auto; lia.
    + pose proof (inv_pop _ _ _ _ _ I) as I'. by destruct (Pop (queue mb)) as [Q' [x|]]; simplify_eq.
  - eapply inv_quiet; try done; simpl; rewrite ?app_nil_r, ?Hmsg by (simpl; lia); auto; lia.
  - rewrite (i_invoker _ _ _ _ I) in Hs. simplify_eq. by eapply inv_invoke.
  - destruct stop; simplify_eq; eapply inv_quiet; try done; simpl; rewrite ?app_nil_r; auto; lia.
  - eapply inv_quiet; try done; simpl; rewrite ?app_nil_r; unfold idle; auto; lia.
  - destruct (_ >? 0) eqn:E; zbool; simplify_eq;
      (eapply inv_quiet; try done; simpl; rewrite ?app_nil_r; auto; lia).
  - unfold CompareAndSwap_idle_running in Hs. destruct (_ =? idle) eqn:E; zbool;
      unfold idle in E; simplify_eq; eapply inv_quiet; try done; simpl;
      rewrite ?app_nil_r; unfold running; auto; lia.
Qed.

Lemma list_update_perm {A} (l : list A) i x :
  l !! i = Some x -> exists r, l ≡ₚ x :: r /\ forall y, <[i := y]> l ≡ₚ y :: r.
Proof.
  intros H. exists (delete i l). split; [by apply delete_Permutation|]. intros y.
  pose proof (lookup_lt_Some _ _ _ H) as Hlt.
  rewrite (insert_take_drop _ _ _ Hlt), delete_take_drop. symmetry. apply Permutation_middle.
Qed.

Lemma world_step_note i fresh stop (w w' : world M) :
  world_step i fresh stop w = Some w' ->
  exists t t' sp e, threads w !! i = Some t /\
    local_step fresh stop (mbox w) t = Some (mbox w', t', sp, e) /\
    threads w' = <[i := t']> (threads w) ++ sp /\
    (pushed w', invoked w') = note (pushed w) (invoked w) e.
Proof.
  unfold world_step. destruct (threads w !! i) as [t|] eqn:Ht; [|done]. simpl.
  destruct (local_step fresh stop (mbox w) t) as [[[[mb t'] sp] e]|] eqn:E; [|done]. simpl.
  destruct (observe w e) as [pu dn] eqn:Eo. intros [= <-]. exists t, t', sp, e.
  done.
Qed.

Lemma threads_grow (w w' : world M) : step w w' -> zlen (threads w) <= zlen (threads w').
Proof.
  destruct 1 as [i fresh stop w w' _ H|user msg w]; simpl.
  - apply world_step_note in H as (t & t' & sp & e & _ & _ & -> & _).
    rewrite zlen_app. unfold zlen. rewrite length_insert. lia.
  - rewrite zlen_app. pose proof (zlen_nonneg [PStart user msg]). lia.
Qed.

Lemma initial_inv cap tput :
  inv (mbox (initial (M := M) cap tput)) [] [] [].
Proof.
  assert (Hcap : 0 < capacity (mbox (initial (M := M) cap tput)))
    by (simpl; destruct (cap <=? 0) eqn:E; zbool; lia).
  split; [done|done|done| |done].
  exists [], [], [], []. split_and!; [|apply NoDup_singleton|done|done|done|done|done|done| |by left].
  - apply chain_end with (mkNode None None); [apply lookup_singleton_eq|done].
  - change (0 <= capacity (mbox (initial (M := M) cap tput))). lia.
Qed.

Lemma step_inv (w w' : world M) :
  step w w' -> zlen (threads w') < 2 ^ 31 ->
  inv (mbox w) (threads w) (pushed w) (invoked w) ->
  inv (mbox w') (threads w') (pushed w') (invoked w').
Proof.
  intros Hs Hn I. pose proof (threads_grow _ _ Hs).
  destruct Hs as [i fresh stop w w' Hf Hw|user msg w].
  - apply world_step_note in Hw as (t & t' & sp & e & Ht & Hl & Hts & Hnote).
    destruct (list_update_perm _ _ _ Ht) as (r & Hr & Hr').
    assert (zlen (t :: r) = zlen (threads w)) by (unfold zlen; by rewrite Hr).
    pose proof (local_inv _ _ _ _ _ _ _ _ _ _ _ (inv_perm _ _ _ _ _ Hr I) ltac:(lia) Hf Hl) as I'.
    rewrite <- Hnote in I'. rewrite Hts. eapply inv_perm; [|exact I']. by rewrite (Hr' t').
  - destruct I as [H1 H2 H3 (q & br & hk & hs & Hc & Hd & Hh & Hg & Hpu & Hk & Hs & Hm & Hu & Hw) H4].
    split; simpl; rewrite ?tsum_app; simpl; rewrite ?Z.add_0_r; try done.
    exists q, br, hk, hs. rewrite ?tsum_app, ?omap_app; simpl; rewrite ?app_nil_r, ?Z.add_0_r; done.
Qed.

Lemma reachable_inv cap tput (w : world M) :
  rtc step (initial cap tput) w -> zlen (threads w) < 2 ^ 31 ->
  inv (mbox w) (threads w) (pushed w) (invoked w).
Proof.
  intros Hr. revert w Hr. apply (rtc_ind_r (fun w => zlen (threads w) < 2 ^ 31 -> _)).
  - intros _. apply initial_inv.
  - intros w w' Hr Hs IH Hn. apply (step_inv _ _ Hs Hn), IH.
    pose proof (threads_grow _ _ Hs). lia.
Qed.

Lemma capacity_const cap tput (w : world M) :
  rtc step (initial cap tput) w -> capacity (mbox w) = if cap <=? 0 then 1024 else cap.
Proof.
  intros Hr. eapply (rtc_invariant step (fun w => capacity (mbox w) = _)); [|done|done].
  clear. intros w w' <-. destruct 1 as [i fresh stop w w' _ H|]; [|done].
  apply world_step_note in H as (t & t' & sp & e & _ & H & _).
  unfold local_step, CompareAndSwap_idle_running, Push_swap in H.
  revert H. generalize (mbox w') as mb'. intros mb' H. destruct t; simplify_eq; try done; repeat case_match; simplify_eq; done.
Qed.

Lemma tsum_two f ts i j ti tj : (forall t, 0 <= f t) ->
  ts !! i = Some ti -> ts !! j = Some tj -> i <> j -> f ti + f tj <= tsum f ts.
Proof.
  intros Hf Hi Hj Hne. revert i j Hi Hj Hne. induction ts as [|t ts IH]; intros [|i] [|j] Hi Hj Hne;
    simpl in *; simplify_eq.
  - destruct (list_update_perm _ _ _ Hj) as (r & Hr & _). rewrite Hr. simpl.
    pose proof (tsum_nonneg f r Hf). lia.
  - destruct (list_update_perm _ _ _ Hi) as (r & Hr & _). rewrite Hr. simpl.
    pose proof (tsum_nonneg f r Hf). lia.
  - specialize (IH i j Hi Hj ltac:(lia)). specialize (Hf t). lia.
Qed.

Lemma tsum_zero f ts : (forall t, t ∈ ts -> f t = 0) -> tsum f ts = 0.
Proof.
  induction ts as [|t ts IH]; intros H; [done|]. simpl. rewrite (H t), IH; [done| |apply list_elem_of_here].
  intros t' Ht'. apply H. by right.
Qed.

(** C8: Under every interleaving of pushers and workers at most one goroutine is
    processing a mailbox, and then the mailbox is marked running. *)
Theorem one_worker_at_a_time cap tput (w : world M) i j ti tj :
  rtc step (initial cap tput) w -> zlen (threads w) < 2 ^ 31 ->
  threads w !! i = Some ti -> threads w !! j = Some tj ->
  active ti = 1 -> active tj = 1 -> i = j /\ schedulerStatus (mbox w) = running.
Proof.
  intros Hr Hn Hi Hj Ai Aj. pose proof (i_status _ _ _ _ (reachable_inv _ _ _ Hr Hn)) as [Hs Hle].
  destruct (decide (i = j)) as [->|Hne].
  - split; [done|]. destruct (list_update_perm _ _ _ Hi) as (r & Hr' & _).
    rewrite Hr' in Hs, Hle. simpl in *. pose proof (tsum_nonneg active r ltac:(by intros [])).
    unfold running. lia.
  - pose proof (tsum_two active _ i j ti tj ltac:(by intros []) Hi Hj Hne). lia.
Qed.

(** C9: The messages handed to the invoker are a prefix, in order, of those that
    entered the queue, and at most one user message more than the capacity waits. *)
Theorem mailbox_fifo_bounded cap tput (w : world M) :
  rtc step (initial cap tput) w -> zlen (threads w) < 2 ^ 31 ->
  invoked w `prefix_of` (pushed w).*2 /\
  users (drop (length (invoked w)) (pushed w)) <= (if cap <=? 0 then 1024 else cap) + 1 /\
  0 <= messages (mbox w).
Proof.
  intros Hr Hn. rewrite <- (capacity_const _ _ _ Hr).
  destruct (reachable_inv _ _ _ Hr Hn) as
    [_ _ [_ Ha] (q & br & hk & hs & _ & _ & _ & _ & Hpu & Hk & Hs & Hm & Hu & _) H4].
  pose proof (counted_bound _ _ _ _ _ Hpu Hs H4). rewrite Hpu. split_and!; [| |lia].
  - exists (hs ++ q.*2).*2. by rewrite fmap_app, Hk.
  - rewrite drop_app_len by (rewrite <- Hk; by rewrite length_fmap). rewrite users_app.
    assert (zlen hs <= 1).
    { apply Permutation_length in Hs. rewrite length_fmap in Hs.
      assert (zlen (omap hand (threads w)) = zlen hs) by (unfold zlen; lia).
      rewrite omap_hand_length in *.
      pose proof (tsum_le hands active (threads w) ltac:(by intros [])). lia. }
    pose proof (users_le hs). pose proof (tsum_nonneg accepted (threads w) ltac:(by intros [| |[]| | | | | | | | | | |])).
    lia.
Qed.

(** C10: When no goroutine can move any more every accepted message was handed to
    the invoker: no wake-up is lost. *)
Theorem quiescent_mailbox_is_drained cap tput (w : world M) :
  rtc step (initial cap tput) w -> zlen (threads w) < 2 ^ 31 ->
  (forall i fresh stop, heap (queue (mbox w)) !! fresh = None -> world_step i fresh stop w = None) ->
  invoked w = (pushed w).*2 /\ messages (mbox w) = 0 /\ schedulerStatus (mbox w) = idle.
Proof.
  intros Hr Hn Hstuck.
  assert (Hdone : forall t, t ∈ threads w -> (exists err, t = PDone err) \/ t = WDone).
  { intros t Ht. apply list_elem_of_lookup in Ht as [i Hi].
    set (n := fresh (dom (heap (queue (mbox w))))).
    assert (Hf : heap (queue (mbox w)) !! n = None) by (apply not_elem_of_dom, is_fresh).
    specialize (Hstuck i n false Hf). unfold world_step in Hstuck. rewrite Hi in Hstuck. simpl in Hstuck.
    destruct (local_step n false (mbox w) t) as [[[[mb t'] sp] e]|] eqn:E.
    { simpl in Hstuck. by destruct (observe w e). }
    clear -E. unfold local_step, CompareAndSwap_idle_running in E.
    destruct t; simpl in E; repeat case_match; simplify_eq; eauto. }
  destruct (reachable_inv _ _ _ Hr Hn) as
    [_ _ [Hst Ha] (q & br & hk & hs & _ & _ & _ & _ & Hpu & Hk & Hs & Hm & Hu & Hw) H4].
  assert (Hz : forall f, (forall err, f (PDone err) = 0) -> f WDone = 0 -> tsum f (threads w) = 0).
  { intros f H1 H2. apply tsum_zero. intros t Ht. by destruct (Hdone t Ht) as [[err ->]| ->]. }
  rewrite !Hz in Hw by done. rewrite Hz in Hst, Hm by done.
  destruct Hw as [->|?]; [|lia].
  assert (hs = []) as ->.
  { pose proof (omap_hand_length (threads w)) as Hl. rewrite Hz in Hl by done.
    apply Permutation_length in Hs. rewrite length_fmap in Hs. unfold zlen in Hl.
    apply length_zero_iff_nil. lia. }
  split_and!; [|done|done]. rewrite Hpu. simpl. by rewrite app_nil_r.
Qed.
End mailbox_proofs.

(** ** A run in which a Push is preempted between its two halves and a handler
    stops the worker *)

Lemma exec_steps {M} sched (w w' : world M) : exec sched w = Some w' -> rtc step w w'.
Proof.
  revert w. induction sched as [|[[i f] s] sched IH]; intros w; simpl; [by intros [= ->]|].
  destruct (heap _ !! f) eqn:Hf; [done|]. destruct (world_step i f s w) as [w1|] eqn:E; [|done].
  simpl. intros H. eapply rtc_l; [by eapply step_thread|by apply IH].
Qed.

Definition demo_start : world Z :=
  mkWorld (mbox (initial 1 300)) [PStart true (Some 5); PStart false (Some 6)] [] [].
Definition demo_sched : list (nat * N * bool) :=
  let run i := (i, 9%N, false) in
  [run 0%nat; (0%nat, 1%N, false); run 1%nat; (1%nat, 2%N, false); run 1%nat; run 1%nat;
   run 2%nat; run 2%nat; run 2%nat; run 0%nat; run 0%nat; run 2%nat;
   run 3%nat; run 3%nat; run 3%nat; (3%nat, 9%N, true); run 3%nat; run 3%nat; run 3%nat;
   run 3%nat; run 3%nat; run 3%nat; run 3%nat; run 3%nat; run 3%nat; run 3%nat].
Definition demo_at (k : nat) : world Z := default demo_start (exec (take k demo_sched) demo_start).

Lemma demo_reachable k : rtc step (initial 1 300) (demo_at k).
Proof.
  transitivity demo_start.
  - eapply rtc_l; [apply (step_call true (Some 5))|].
    eapply rtc_l; [apply (step_call false (Some 6))|]. done.
  - unfold demo_at. destruct (exec _ _) eqn:E; simpl; [by eapply exec_steps|done].
Qed.

Lemma one_worker_at_a_time_witness :
  schedulerStatus (mbox (demo_at 14)) = running /\ threads (demo_at 14) !! 3%nat = Some (WInvoke 1 5).
Proof.
  assert (H : threads (demo_at 14) !! 3%nat = Some (WInvoke 1 5)) by (vm_compute; reflexivity).
  split; [|exact H].
  apply (one_worker_at_a_time 1 300 (demo_at 14) 3 3 (WInvoke 1 5) (WInvoke 1 5) (demo_reachable 14)
           ltac:(vm_compute; reflexivity) H H eq_refl eq_refl).
Defined.

Lemma mailbox_fifo_bounded_witness :
  pushed (demo_at 14) = [(true, 5); (false, 6)] /\ users (drop 0 (pushed (demo_at 14))) <= 2.
Proof.
  assert (Hp : pushed (demo_at 14) = [(true, 5); (false, 6)]) by (vm_compute; reflexivity).
  split; [exact Hp|].
  pose proof (mailbox_fifo_bounded 1 300 (demo_at 14) (demo_reachable 14)
                ltac:(vm_compute; reflexivity)) as (_ & H & _).
  assert (Hi : invoked (demo_at 14) = []) by (vm_compute; reflexivity).
  rewrite Hi, Hp in H. rewrite Hp. exact H.
Defined.

Lemma quiescent_mailbox_is_drained_witness :
  invoked (demo_at 26) = [5; 6] /\ messages (mbox (demo_at 26)) = 0.
Proof.
  assert (Hp : pushed (demo_at 26) = [(true, 5); (false, 6)]) by (vm_compute; reflexivity).
  assert (Ht : threads (demo_at 26) = [PDone None; PDone None; WDone; WDone])
    by (vm_compute; reflexivity).
  destruct (quiescent_mailbox_is_drained 1 300 (demo_at 26) (demo_reachable 26)) as (H1 & H2 & _).
  - rewrite Ht. done.
  - intros i f s _. unfold world_step. rewrite Ht.
    by destruct i as [|[|[|[|i]]]].
  - split; [rewrite H1, Hp; reflexivity|exact H2].
Defined.
