(* ===== verification/Proto.v ===== *)
(** * pkg/serialize/protocodec: protobuf messages by name

    The protobuf runtime (marshalling, the registry of linked message types) is
    not part of the repository: it is the class [ProtoRuntime], with the facts
    the code relies on in [ProtoLaws]. *)

From S2P Require Import Prelude Errors.

Definition ErrMessageType := ESentinel "protobuf message not available".
Definition ErrMessageNil := ESentinel "protobuf message is nil".
Definition ErrMessageNameInvalid := ESentinel "protobuf message name is invalid".
Definition ErrMessageTypeNotFound := ESentinel "protobuf message type is not linked".

(** google.golang.org/protobuf: [M] are message values, [T] message types. *)
Class ProtoRuntime (M T : Type) := {
  FullName : M -> string; (* m.ProtoReflect().Descriptor().FullName() *)
  name_IsValid : string -> bool; (* protoreflect.FullName.IsValid *)
  proto_Marshal : M -> res gerr (list Z);
  FindMessageByName : string -> option T; (* protoregistry.GlobalTypes *)
  proto_Unmarshal : T -> list Z -> res gerr M; (* into messageType.New() *)
  type_name : T -> string (* %T *)
}.

(** What protobuf documents: a message's type is linked under its name, and
    unmarshalling the marshalled bytes into that type gives the message back. *)
Class ProtoLaws (M T : Type) `{ProtoRuntime M T} := {
  names_valid m : name_IsValid (FullName m) = true;
  linked m : exists t, FindMessageByName (FullName m) = Some t /\
    forall bs, proto_Marshal m = Ok bs -> proto_Unmarshal t bs = Ok m
}.

Section protocodec.
Context {M T : Type} `{ProtoRuntime M T}.

(** A Go [any] as this package looks at it: nil, a valid message, a typed nil
    pointer to a message, or a value that is no message, with its [%T]. *)
Inductive any :=
| ANil
| AMessage (m : M)
| ANilMessage
| AOther (type : string).

Definition quoted (s : string) : string := String (Ascii.ascii_of_N 34) s +:+ String (Ascii.ascii_of_N 34) "".

Definition Marshal (v : any) : res gerr (list Z) :=
  match v with
  | ANil => Err ErrMessageNil
  | AOther type => Err (EWrap "" ErrMessageType (": " +:+ type))
  | ANilMessage => Err (EWrap "" ErrMessageNil ": protobuf value is nil or invalid")
  | AMessage m =>
    match proto_Marshal m with
    | Err err => Err (wrap ("marshal protobuf " +:+ FullName m +:+ ": ") err)
    | Ok data => Ok data
    end
  end.

(** In the first error [%T] is applied to the nil [message], not to [v]. *)
Definition MarshalWithName (v : any) : res gerr (string * list Z) :=
  match v with
  | ANil | AOther _ => Err (EWrap "" ErrMessageType ": <nil>")
  | ANilMessage => Err ErrMessageNil
  | AMessage m =>
    let name := FullName m in
    if negb (name_IsValid name) then Err (EWrap "" ErrMessageNameInvalid (": " +:+ quoted name))
    else match proto_Marshal m with
         | Err err => Err (wrap ("marshal protobuf " +:+ name +:+ ": ") err)
         | Ok payload => Ok (name, payload)
         end
  end.

Definition UnmarshalWithName (messageName : string) (payload : list Z) : res gerr any :=
  let name := messageName in
  if negb (name_IsValid name) then Err (EWrap "" ErrMessageNameInvalid (": " +:+ quoted messageName))
  else match FindMessageByName name with
       | None => Err (EWrap "" ErrMessageTypeNotFound (": " +:+ name))
       | Some messageType =>
         match proto_Unmarshal messageType payload with
         | Err err => Err (wrap ("unmarshal protobuf " +:+ name +:+ ": ") err)
         | Ok message => Ok (AMessage message)
         end
       end.

(** The value that [Unmarshal] fills: a fresh message of a type, or one of the
    values it refuses. *)
Inductive target := VNil | VOther (type : string) | VInvalid | VMessage (t : T).

Definition Unmarshal (data : list Z) (v : target) : res gerr M :=
  match v with
  | VNil => Err (EWrap "" ErrMessageNil ": value is nil")
  | VOther type => Err (EWrap "" ErrMessageType (": " +:+ type))
  | VInvalid => Err (EWrap "" ErrMessageNil ": protobuf value is nil or invalid")
  | VMessage t =>
    match proto_Unmarshal t data with
    | Err err => Err (wrap ("unmarshal protobuf " +:+ type_name t +:+ ": ") err)
    | Ok m => Ok m
    end
  end.

(** [MessageToAny] over [anypb.New]; [ANilMessage] is a typed nil, [ANil] none. *)
Definition MessageToAny {P : Type} (anypb_New : M -> res gerr P) (message : any) : res gerr P :=
  match message with
  | AMessage m => anypb_New m
  | ANil | ANilMessage | AOther _ => Err ErrMessageNil
  end.
End protocodec.
Arguments any : clear implicits.
Arguments target : clear implicits.

(** What the actor system needs of the codec for payloads: the payload that
    arrives is the one that was sent, and a payload that is not a message is
    refused. *)
Class PayloadCodec (V : Type) := {
  nil_value : V; (* the nil interface value *)
  marshal_payload : V -> res gerr (string * list Z);
  unmarshal_payload : string -> list Z -> res gerr V
}.
Class LawfulPayload (V : Type) `{PayloadCodec V} := {
  payload_roundtrip v name bs :
    marshal_payload v = Ok (name, bs) -> unmarshal_payload name bs = Ok v
}.

#[export] Instance any_codec {M T} `{ProtoRuntime M T} : PayloadCodec (any M) :=
  { nil_value := ANil; marshal_payload := MarshalWithName; unmarshal_payload := UnmarshalWithName }.

Lemma MarshalWithName_roundtrip {M T} `{ProtoLaws M T} (v : any M) name payload :
  MarshalWithName v = Ok (name, payload) ->
  UnmarshalWithName name payload = Ok v /\ exists m, v = AMessage m /\ name = FullName m.
Proof.
  destruct v as [|m| |]; simpl; try done. rewrite names_valid. simpl.
  destruct (proto_Marshal m) as [bs|] eqn:E; [|done]. intros [= <- <-].
  unfold UnmarshalWithName. rewrite names_valid. simpl.
  destruct (linked m) as (t & Ht & Hu). rewrite Ht, (Hu _ E). eauto.
Qed.

#[export] Instance any_lawful {M T} `{ProtoLaws M T} : LawfulPayload (any M).
Proof. split. intros v name bs Hv. by apply MarshalWithName_roundtrip in Hv as [? _]. Qed.
