(* ===== verification/Actor.v ===== *)
(** * actor/types.go, actor/manager.go: identities, envelopes, the registry *)

From stdpp Require Import pretty.
From S2P Require Import Prelude Errors Requests.

Definition defaultActorMailboxSize : Z := 1024.
Definition defaultActorAskTimeout : Z := 3000000000.

Record PID := NewPID { ActorID : Z; ActorName : string; p_NodeID : string }.
#[export] Instance PID_eq_dec : EqDecision PID.
Proof. solve_decision. Defined.

Definition NoSender : PID := NewPID 0 "" "".

Record SpawnOptions (V : Type) := mkSpawnOptions {
  o_Name : string;
  o_InitArgs : list V;
  o_MailboxSize : Z
}.
Arguments mkSpawnOptions {V}.
Arguments o_Name {V}. Arguments o_InitArgs {V}. Arguments o_MailboxSize {V}.

(** A [Task] closure: written by a user, built by [after] around a user's task,
    or built by AskAsync around a user's completion. [U] names the user's
    functions. *)
Inductive task (V U : Type) :=
| TUser (u : U)
| TAfter (timerId : Z) (u : U)
| TComplete (u : U) (value : option V) (requestErr : option gerr).
Arguments TUser {V U}. Arguments TAfter {V U}. Arguments TComplete {V U}.

(** The dynamic type of [Envelope.Payload]. *)
Inductive payload (V U : Type) :=
| PInit (* *initEnvelopeMessage *)
| PStop (* *stopEnvelopeMessage *)
| PTask (t : task V U)
| PUser (v : V).
Arguments PInit {V U}. Arguments PStop {V U}. Arguments PTask {V U}. Arguments PUser {V U}.

Record Envelope (V U : Type) := mkEnvelope {
  Payload : payload V U;
  Sender : option PID;
  Meta_Request : option RequestRef
}.
Arguments mkEnvelope {V U}.
Arguments Payload {V U}. Arguments Sender {V U}. Arguments Meta_Request {V U}.

(** ** actor/manager.go

    Processes are addresses [N]; [waitGroup] is its counter. *)
Record manager := mkManager {
  m_nodeId : string;
  waitGroup : Z;
  ids : gmap Z N;
  names : gmap string N
}.

Definition newManger (nodeId : string) : manager := mkManager nodeId 0 ∅ ∅.

Definition namedLocked (m : manager) (name : string) : bool := bool_decide (is_Some (names m !! name)).

Definition addLocked (m : manager) (pid : PID) (p : N) : manager :=
  let names' := if bool_decide (ActorName pid = "") then names m else <[ActorName pid := p]> (names m) in
  if 0 <? ActorID pid
  then mkManager (m_nodeId m) (waitGroup m + 1) (<[ActorID pid := p]> (ids m)) names'
  else mkManager (m_nodeId m) (waitGroup m) (ids m) names'.

Definition removeId (m : manager) (id : Z) : manager :=
  if id <=? 0 then m
  else match ids m !! id with
       | None => m
       | Some _ => mkManager (m_nodeId m) (waitGroup m - 1) (delete id (ids m)) (names m)
       end.

Definition removeName (m : manager) (name : string) : manager :=
  if bool_decide (name = "") then m
  else mkManager (m_nodeId m) (waitGroup m) (ids m) (delete name (names m)).

Definition remove (m : manager) (pid : PID) : manager :=
  removeId (removeName m (ActorName pid)) (ActorID pid).

Definition getByName (m : manager) (name : string) : option N :=
  if bool_decide (name = "") then None else names m !! name.

Definition getById (m : manager) (id : Z) : option N :=
  if id <=? 0 then None else ids m !! id.

Definition count (m : manager) : Z := Z.of_nat (size (ids m)).

Definition getProcess (m : manager) (pid : option PID) : res gerr N :=
  match pid with
  | None => Err ErrPidNil
  | Some pid =>
    if negb (bool_decide (p_NodeID pid = m_nodeId m))
    then Err (wrap ("nodeId:" +:+ p_NodeID pid +:+ " ") ErrNotLocal)
    else match getById m (ActorID pid) with
         | Some p => Ok p
         | None => match getByName m (ActorName pid) with
                   | Some p => Ok p
                   | None => Err ErrNotFound
                   end
         end
  end.

(** ** Properties of the registry *)

(** The counter is the number of registered ids, names are never empty, ids are
    positive. *)
Record mgr_wf (m : manager) : Prop := {
  wf_wait : waitGroup m = count m;
  wf_names : names m !! "" = None;
  wf_ids : forall i p, ids m !! i = Some p -> 0 < i
}.

Lemma newManger_wf n : mgr_wf (newManger n).
Proof. split; done. Qed.

Lemma addLocked_wf m pid p :
  mgr_wf m -> ids m !! ActorID pid = None -> mgr_wf (addLocked m pid p).
Proof.
  intros [H1 H2 H3] Hf. unfold addLocked.
  assert (Hn : (if bool_decide (ActorName pid = "") then names m else <[ActorName pid:=p]> (names m)) !! "" = None).
  { case_bool_decide; [done|]. by rewrite lookup_insert_ne. }
  destruct (0 <? ActorID pid) eqn:E; zbool; split; simpl; try done.
  - unfold count in *. simpl. rewrite map_size_insert_None by done. lia.
  - intros i q Hi. apply lookup_insert_Some in Hi as [[<- _]|[_ Hi]]; eauto.
Qed.

Lemma removeId_wf m id : mgr_wf m -> mgr_wf (removeId m id).
Proof.
  intros [H1 H2 H3]. unfold removeId. destruct (id <=? 0); [by split|].
  destruct (ids m !! id) as [p|] eqn:E; [|by split]. split; simpl; try done.
  - unfold count in *. simpl. rewrite map_size_delete_Some by eauto.
    assert (size (ids m) <> 0%nat) by (intros Hz; apply map_size_empty_iff in Hz; by rewrite Hz, lookup_empty in E).
    lia.
  - intros i q Hi. apply lookup_delete_Some in Hi as [_ Hi]. eauto.
Qed.

Lemma removeName_wf m n : mgr_wf m -> mgr_wf (removeName m n).
Proof.
  intros [H1 H2 H3]. unfold removeName. case_bool_decide; [by split|]. split; simpl; try done.
  by rewrite lookup_delete_None; right.
Qed.

Lemma remove_wf m pid : mgr_wf m -> mgr_wf (remove m pid).
Proof. intros. by apply removeId_wf, removeName_wf. Qed.
#[export] Hint Resolve newManger_wf remove_wf : machine.

(** Spawning makes the process reachable by its id, its name, and its PID. *)
Lemma addLocked_lookup m pid p :
  0 < ActorID pid -> p_NodeID pid = m_nodeId m ->
  getProcess (addLocked m pid p) (Some pid) = Ok p /\
  getById (addLocked m pid p) (ActorID pid) = Some p /\
  (ActorName pid <> "" -> getByName (addLocked m pid p) (ActorName pid) = Some p).
Proof.
  intros Hid Hn. assert (Hg : getById (addLocked m pid p) (ActorID pid) = Some p).
  { unfold getById, addLocked. destruct (_ <=? 0) eqn:E; zbool; [lia|].
    destruct (0 <? _) eqn:E'; zbool; [|lia]. simpl. apply lookup_insert_eq. }
  split_and!; [|done|].
  - unfold getProcess. rewrite bool_decide_eq_true_2; [simpl; by rewrite Hg|].
    unfold addLocked. by destruct (0 <? _).
  - intros Hne. unfold getByName, addLocked. rewrite !bool_decide_eq_false_2 by done.
    destruct (0 <? _); apply lookup_insert_eq.
Qed.

(** A removed PID is unreachable. *)
Lemma remove_lookup m pid :
  getById (remove m pid) (ActorID pid) = None /\ getByName (remove m pid) (ActorName pid) = None.
Proof.
  unfold remove, removeId, removeName, getById, getByName. split.
  - destruct (ActorID pid <=? 0) eqn:E; [done|]. case_bool_decide; simpl.
    + destruct (ids m !! ActorID pid) eqn:Ei; simpl; [apply lookup_delete_eq|done].
    + destruct (ids m !! ActorID pid) eqn:Ei; simpl; [apply lookup_delete_eq|done].
  - case_bool_decide as E; [done|]. destruct (ActorID pid <=? 0); simpl; [apply lookup_delete_eq|].
    destruct (ids m !! ActorID pid); simpl; apply lookup_delete_eq.
Qed.
