(* ===== verification/System.v ===== *)
(** * actor/process.go (mailbox side), system.go, sender.go, remote.go

    One node of the actor system as a state: its registry, its processes on a
    heap, its pending requests, the frames given to the remote sender. The
    mailbox of a process is the queue that Mailbox.v implements: a bounded FIFO
    for user messages, an unbounded one for system messages. *)

From stdpp Require Import pretty.
From S2P Require Import Prelude Errors Requests Proto Actor.

(** ** actor/pb: the messages between nodes *)

Record RemoteActorCommon := mkCommon {
  SourcePid : option PID;
  TargetNodeId : string;
  TargetPid : option PID
}.
Record RemoteActorRequest := mkRemoteRequest {
  rq_MessageName : string;
  rq_Payload : list Z;
  rq_Request : option RequestRef
}.
Definition ASK_RESPONSE : Z := 2.
Definition ASK_ERROR : Z := 3.
Definition Kind_String (k : Z) : string :=
  if k =? 0 then "REMOTE_MESSAGE_KIND_UNSPECIFIED"
  else if k =? ASK_RESPONSE then "ASK_RESPONSE"
  else if k =? ASK_ERROR then "ASK_ERROR" else pretty k.
Record RemoteActorResponse := mkRemoteResponse {
  Kind : Z;
  rs_Request : option RequestRef;
  rs_MessageName : string;
  rs_Payload : list Z;
  rs_Error : string;
  rs_ErrorCode : Z
}.
Inductive RemoteBody :=
| BRequest (r : option RemoteActorRequest)
| BResponse (r : option RemoteActorResponse)
| BNone.
Record RemoteActorMessage := mkRemoteMessage {
  Common : option RemoteActorCommon;
  Body : RemoteBody
}.

(** protocodec.Marshal and Unmarshal at [RemoteActorMessage], and the transport
    behind [RemoteSender]. *)
Class RemoteRuntime := {
  marshal_remote : RemoteActorMessage -> res gerr (list Z);
  unmarshal_remote : list Z -> res gerr RemoteActorMessage;
  SendToNode : string -> list Z -> option gerr
}.

Section system.

(** [V]: payload values; [U]: names of user functions; [S]: states of actor
    handlers; [K]: what the goroutine of a process is doing. *)
Context {V U S K : Type} `{PayloadCodec V} `{RemoteRuntime}.

(** The completion closures: Ask's send on its channel, AskAsync's [onComplete]. *)
Inductive completer := CChan (ch : N) | CAsync (target from : PID) (u : U).

Record Process := mkProcess {
  pid : PID;
  mailbox : list (Envelope V U);
  capacity : Z;
  current : Envelope V U;
  responded : bool;
  timerId : Z;
  timers : gmap Z (task V U);
  closing : bool;
  closed : bool;
  actor : S;
  initArgs : list V;
  askTimeout : Z;
  control : K
}.

Record System := mkSystem {
  nodeID : string;
  mgr : manager;
  remoteSender : bool; (* not nil *)
  requests : requestManager completer;
  stopping : bool;
  procs : gmap N Process;
  results : gmap N (list (option V * option gerr)); (* channels of Ask *)
  sent : list (string * list Z);
  fresh_addr : N
}.

Definition with_mailbox (p : Process) (mb : list (Envelope V U)) : Process :=
  mkProcess (pid p) mb (capacity p) (current p) (responded p) (timerId p) (timers p)
    (closing p) (closed p) (actor p) (initArgs p) (askTimeout p) (control p).
Definition with_message (p : Process) (e : Envelope V U) (r : bool) : Process :=
  mkProcess (pid p) (mailbox p) (capacity p) e r (timerId p) (timers p)
    (closing p) (closed p) (actor p) (initArgs p) (askTimeout p) (control p).
Definition with_responded (p : Process) (r : bool) : Process := with_message p (current p) r.
Definition with_timers (p : Process) (id : Z) (ts : gmap Z (task V U)) : Process :=
  mkProcess (pid p) (mailbox p) (capacity p) (current p) (responded p) id ts
    (closing p) (closed p) (actor p) (initArgs p) (askTimeout p) (control p).
Definition with_flags (p : Process) (cing ced : bool) : Process :=
  mkProcess (pid p) (mailbox p) (capacity p) (current p) (responded p) (timerId p) (timers p)
    cing ced (actor p) (initArgs p) (askTimeout p) (control p).
Definition with_actor (p : Process) (a : S) (timeout : Z) : Process :=
  mkProcess (pid p) (mailbox p) (capacity p) (current p) (responded p) (timerId p) (timers p)
    (closing p) (closed p) a (initArgs p) timeout (control p).
Definition with_control (p : Process) (k : K) : Process :=
  mkProcess (pid p) (mailbox p) (capacity p) (current p) (responded p) (timerId p) (timers p)
    (closing p) (closed p) (actor p) (initArgs p) (askTimeout p) k.

Definition with_procs (s : System) (ps : gmap N Process) : System :=
  mkSystem (nodeID s) (mgr s) (remoteSender s) (requests s) (stopping s) ps (results s) (sent s) (fresh_addr s).
Definition with_mgr (s : System) (m : manager) : System :=
  mkSystem (nodeID s) m (remoteSender s) (requests s) (stopping s) (procs s) (results s) (sent s) (fresh_addr s).
Definition with_requests (s : System) (r : requestManager completer) : System :=
  mkSystem (nodeID s) (mgr s) (remoteSender s) r (stopping s) (procs s) (results s) (sent s) (fresh_addr s).
Definition with_results (s : System) (r : gmap N (list (option V * option gerr))) : System :=
  mkSystem (nodeID s) (mgr s) (remoteSender s) (requests s) (stopping s) (procs s) r (sent s) (fresh_addr s).
Definition with_sent (s : System) (l : list (string * list Z)) : System :=
  mkSystem (nodeID s) (mgr s) (remoteSender s) (requests s) (stopping s) (procs s) (results s) l (fresh_addr s).
Definition with_stopping (s : System) : System :=
  mkSystem (nodeID s) (mgr s) (remoteSender s) (requests s) true (procs s) (results s) (sent s) (fresh_addr s).
(** A fresh heap address. *)
Definition alloc (s : System) : System * N :=
  (mkSystem (nodeID s) (mgr s) (remoteSender s) (requests s) (stopping s) (procs s) (results s) (sent s)
     (fresh_addr s + 1), fresh_addr s).

(** ** actor/process.go: writing to a mailbox *)

(** [Mailbox.PushUser] and [Mailbox.PushSystem] on the abstract queue: what they do
    when no other push is between its two additions to the counter. Mailbox.v has
    them access by access; there a push that another one is about to take back may
    make this one refuse although there is room. *)
Definition PushUser (p : Process) (e : Envelope V U) : Process * option gerr :=
  if capacity p <? zlen (mailbox p) + 1 then (p, Some ErrMailboxFull)
  else (with_mailbox p (mailbox p ++ [e]), None).
Definition MailboxPushSystem (p : Process) (e : Envelope V U) : Process :=
  with_mailbox p (mailbox p ++ [e]).

Definition Process_Push (p : Process) (e : Envelope V U) : Process * option gerr :=
  if closing p then (p, Some ErrActorProcessStopped) else PushUser p e.

Definition Process_PushSystem (p : Process) (e : Envelope V U) : Process * option gerr :=
  if closing p then (p, Some ErrActorProcessStopped) else (MailboxPushSystem p e, None).

Definition Process_Stop (p : Process) (from : option PID) : Process :=
  if closing p then p
  else MailboxPushSystem (with_flags p true (closed p)) (mkEnvelope PStop from None).

(** [newActorProcess] *)
Definition newActorProcess (s : System) (id : Z) (handler : S) (options : SpawnOptions V) (idle : K) : Process :=
  mkProcess (NewPID id (o_Name options) (nodeID s)) []
    (if o_MailboxSize options <=? 0 then 1024 else o_MailboxSize options)
    (mkEnvelope (PUser nil_value) (Some NoSender) None) false 0 ∅ false false handler (o_InitArgs options)
    defaultActorAskTimeout idle.

(** Update the process at an address with a function of it. *)
Definition at_proc {A} (s : System) (l : N) (f : Process -> Process * A) (default : A) : System * A :=
  match procs s !! l with
  | None => (s, default)
  | Some p => let '(p, a) := f p in (with_procs s (<[l := p]> (procs s)), a)
  end.

(** ** actor/remote.go: sending *)

Definition sendRemoteMessage (s : System) (message : RemoteActorMessage) : System * option gerr :=
  if negb (remoteSender s) then (s, Some ErrRemoteSenderNil)
  else match Common message with
       | None => (s, Some ErrRemoteCommonInvalid)
       | Some common =>
         match marshal_remote message with
         | Err err => (s, Some (wrap "marshal remote message:" err))
         | Ok data =>
           match SendToNode (TargetNodeId common) data with
           | Some err => (s, Some (wrap "send remote message:" err))
           | None => (with_sent s (sent s ++ [(TargetNodeId common, data)]), None)
           end
         end
       end.

(** The internal payloads and tasks are not protobuf messages. *)
Definition MarshalPayload (p : payload V U) : res gerr (string * list Z) :=
  match p with
  | PUser v => marshal_payload v
  | _ => Err (EWrap "" ErrMessageType ": <nil>")
  end.

Definition sendRemoteEnvelope (s : System) (target : PID) (envelope : Envelope V U) : System * option gerr :=
  match MarshalPayload (Payload envelope) with
  | Err err => (s, Some (wrap "marshal remote payload:" err))
  | Ok (messageName, data) =>
    let s :=
      match Meta_Request envelope with
      | Some request =>
        if bool_decide (NodeID request = nodeID s)
        then with_requests s (retarget (requests s) (RequestID request) (p_NodeID target)) else s
      | None => s
      end in
    sendRemoteMessage s (mkRemoteMessage
      (Some (mkCommon (Sender envelope) (p_NodeID target) (Some target)))
      (BRequest (Some (mkRemoteRequest messageName data (Meta_Request envelope)))))
  end.

Definition sendRemoteAskResponse (s : System) (from : option PID) (request : RequestRef) (message : V)
  : System * option gerr :=
  match marshal_payload message with
  | Err err => (s, Some (wrap "marshal remote ask response:" err))
  | Ok (messageName, data) =>
    sendRemoteMessage s (mkRemoteMessage
      (Some (mkCommon from (NodeID request) None))
      (BResponse (Some (mkRemoteResponse ASK_RESPONSE (Some request) messageName data "" 0))))
  end.

Definition sendRemoteRequestError (s : System) (from : option PID) (request : RequestRef) (cause : gerr)
  : System * option gerr :=
  let '(errorCode, _) := CodeOf cause in
  sendRemoteMessage s (mkRemoteMessage
    (Some (mkCommon from (NodeID request) None))
    (BResponse (Some (mkRemoteResponse ASK_ERROR (Some request) "" [] (Error cause) (u32 errorCode))))).

(** ** actor/sender.go *)

Definition request_invalid (request : RequestRef) : gerr :=
  wrap ("&{" +:+ NodeID request +:+ " " +:+ pretty (RequestID request) +:+ "}:") ErrActorEnvelopeRequestInvalid.

Definition check_request (request : option RequestRef) : option gerr :=
  match request with
  | Some r => if bool_decide (NodeID r = "") || (RequestID r =? 0) then Some (request_invalid r) else None
  | None => None
  end.

Definition SendEnvelope (s : System) (target : option PID) (envelope : Envelope V U) : System * option gerr :=
  match target with
  | None => (s, Some ErrActorTargetNil)
  | Some t =>
    match Sender envelope with
    | None => (s, Some ErrActorSenderNil)
    | Some _ =>
      match check_request (Meta_Request envelope) with
      | Some err => (s, Some err)
      | None =>
        if negb (bool_decide (p_NodeID t = nodeID s)) then sendRemoteEnvelope s t envelope
        else match getProcess (mgr s) target with
             | Err err => (s, Some err)
             | Ok proc => at_proc s proc (fun p => Process_Push p envelope) None
             end
      end
    end
  end.

Definition Tell (s : System) (from target : option PID) (message : V) : System * option gerr :=
  SendEnvelope s target (mkEnvelope (PUser message) from None).

Definition doTask (s : System) (from target : option PID) (t : task V U) : System * option gerr :=
  SendEnvelope s target (mkEnvelope (PTask t) from None).

(** Running a completion callback. *)
Definition run_completion (s : System) (c : completion V completer) : System :=
  match c_cb c with
  | CChan ch =>
    with_results s (<[ch := default [] (results s !! ch) ++ [(c_value c, c_err c)]]> (results s))
  | CAsync target from u => fst (doTask s (Some target) (Some from) (TComplete u (c_value c) (c_err c)))
  end.

Definition run_completions (s : System) (cs : list (completion V completer)) : System :=
  fold_left run_completion cs s.

(** [s.requests.complete(...)] with the callback it runs. *)
Definition requests_complete (s : System) (id : Z) (value : option V) (err : option gerr)
  : System * option gerr :=
  let '(rm, cs, e) := complete (requests s) id value err in
  (run_completions (with_requests s rm) cs, e).

(** Of several critical sections: the table's, the registry's, the process's and on
    failure the table's again. Process.v's steps [st_add], [st_push] and [st_remove]
    are the same with others in between. *)
Definition sendAsk (s : System) (from target : option PID) (message : V) (timeout : Z) (cb : completer)
  : System * option gerr :=
  match from with
  | None => (s, Some ErrActorSenderNil)
  | Some _ =>
    match target with
    | None => (s, Some ErrActorTargetNil)
    | Some t =>
      let timeout := if timeout <=? 0 then defaultActorAskTimeout else timeout in
      let '(rm, r) := add (requests s) (nodeID s) (p_NodeID t) timeout cb in
      match r with
      | Err err => (s, Some err)
      | Ok ref =>
        let s := with_requests s rm in
        let '(s, err) := SendEnvelope s target (mkEnvelope (PUser message) from (Some ref)) in
        match err with
        | Some err =>
          (with_requests s (fst (Requests.remove (requests s) (RequestID ref))), Some (wrap "send ask:" err))
        | None => (s, None)
        end
      end
    end
  end.

(** [Ask] up to [<-result]: the channel to wait on. *)
Definition Ask_begin (s : System) (from target : option PID) (message : V) (timeout : Z)
  : System * res gerr N :=
  let '(s, ch) := alloc s in
  let '(s, err) := sendAsk s from target message timeout (CChan ch) in
  match err with Some err => (s, Err err) | None => (s, Ok ch) end.

Definition AskAsync (s : System) (from target : option PID) (message : V) (timeout : Z) (complete : option U)
  : System * option gerr :=
  match from, target, complete with
  | None, _, _ => (s, Some ErrActorSenderNil)
  | _, None, _ => (s, Some ErrActorTargetNil)
  | _, _, None => (s, Some ErrAskCompletionNil)
  | Some f, Some t, Some u => sendAsk s from target message timeout (CAsync t f u)
  end.

Definition respond (s : System) (from : option PID) (meta : option RequestRef) (message : V)
  : System * option gerr :=
  match meta with
  | None => (s, Some ErrRequestNil)
  | Some request =>
    if negb (bool_decide (NodeID request = nodeID s))
    then sendRemoteAskResponse s from request message
    else requests_complete s (RequestID request) (Some message) None
  end.

Definition respondError (s : System) (from : option PID) (meta : option RequestRef) (responseError : option gerr)
  : System * option gerr :=
  match responseError with
  | None => (s, Some ErrRespondErrorNil)
  | Some cause =>
    match meta with
    | None => (s, Some ErrRequestNil)
    | Some request =>
      if negb (bool_decide (NodeID request = nodeID s))
      then sendRemoteRequestError s from request cause
      else requests_complete s (RequestID request) None (Some cause)
    end
  end.

(** ** actor/system.go *)

(** [SpawnActor]; [id] is the value of [nextId()], [handler = None] a nil one. *)
Definition SpawnActor (s : System) (id : Z) (handler : option S) (options : SpawnOptions V) (idle : K)
  : System * res gerr PID :=
  if stopping s then (s, Err (ESentinel "actor is stopping"))
  else match handler with
       | None => (s, Err ErrHandlerNil)
       | Some handler =>
         let process := newActorProcess s id handler options idle in
         if namedLocked (mgr s) (o_Name options)
         then (s, Err (wrap (o_Name options +:+ ":") ErrNameExists))
         else
           let process := MailboxPushSystem process (mkEnvelope PInit (Some NoSender) None) in
           let '(s, l) := alloc s in
           let s := with_procs s (<[l := process]> (procs s)) in
           (with_mgr s (addLocked (mgr s) (pid process) l), Ok (pid process))
       end.

Definition Has (s : System) (p : option PID) : bool := is_ok (getProcess (mgr s) p).

Definition StopProcess (s : System) (from target : option PID) : System :=
  match getProcess (mgr s) target with
  | Err _ => s
  | Ok proc => fst (at_proc s proc (fun p => (Process_Stop p from, tt)) tt)
  end.

(** [manager.stop] before it waits: [range] is the order in which the runtime
    ranges over [ids]. *)
Definition mgr_stop (s : System) (range : list (Z * N)) : System :=
  fold_left (fun s '(_, l) => fst (at_proc s l (fun p => (Process_Stop p (Some NoSender), tt)) tt)) range s.

(** The body of [System.Stop] before [WaitWithTimeout]. *)
Definition System_Stop (s : System) (pending_range : list (Z * pendingRequest completer)) (ids_range : list (Z * N))
  : System :=
  let s := with_stopping s in
  let '(rm, cs) := stop (requests s) pending_range in
  mgr_stop (run_completions (with_requests s rm) cs) ids_range.

(** ** actor/remote.go: receiving *)

Definition set_node (nodeId : string) (p : PID) : PID := NewPID (ActorID p) (ActorName p) nodeId.

Definition rejectRemoteRequest (s : System) (message : RemoteActorMessage) (cause : gerr) : System :=
  match Body message, Common message with
  | BRequest (Some (mkRemoteRequest _ _ (Some request))), Some common =>
    if negb (remoteSender s) then s
    else if (RequestID request =? 0) || bool_decide (NodeID request = "") then s
    else fst (sendRemoteRequestError s (TargetPid common) request cause)
  | _, _ => s
  end.

Definition onRemoteEnvelopeHandler (s : System) (message : RemoteActorMessage) (common : RemoteActorCommon)
  (request : option RemoteActorRequest) : System * option gerr :=
  match request with
  | None => (s, Some ErrRequestNil)
  | Some request =>
    match unmarshal_payload (rq_MessageName request) (rq_Payload request) with
    | Err err => (s, Some (wrap "remote handler unmarshal body:" err))
    | Ok v =>
      let '(s, err) := SendEnvelope s (TargetPid common)
                         (mkEnvelope (PUser v) (SourcePid common) (rq_Request request)) in
      match err with
      | Some err => (rejectRemoteRequest s message err, Some (wrap "remote handler:" err))
      | None => (s, None)
      end
    end
  end.

Definition onRemoteResponseHandler (s : System) (response : option RemoteActorResponse) : System * option gerr :=
  match response with
  | None => (s, Some (ESentinel "remote response nil response"))
  | Some response =>
    match rs_Request response with
    | None => (s, Some ErrRequestNil)
    | Some request =>
      if (RequestID request =? 0) || bool_decide (NodeID request = "") then (s, Some ErrRequestNil)
      else if Kind response =? ASK_RESPONSE then
        match unmarshal_payload (rs_MessageName response) (rs_Payload response) with
        | Err err => (s, Some (wrap "remote response handler unmarshal body:" err))
        | Ok v => requests_complete s (RequestID request) (Some v) None
        end
      else if Kind response =? ASK_ERROR then
        let '(s, addr) := alloc s in
        let err := ECoded addr (rs_ErrorCode response) (rs_Error response) in
        requests_complete s (RequestID request) None (Some err)
      else (s, Some (wrap ("remote response handler kind:" +:+ Kind_String (Kind response) +:+ ":") ErrRemoteMessageKindInvalid))
    end
  end.

Definition onRemoteHandler (s : System) (message : RemoteActorMessage) (common : RemoteActorCommon)
  : System * option gerr :=
  match Body message with
  | BRequest request => onRemoteEnvelopeHandler s message common request
  | BResponse response => onRemoteResponseHandler s response
  | BNone => (s, Some ErrRemoteMessageBodyInvalid)
  end.

(** A broadcast has no target node: it is addressed to whoever receives it. *)
Definition localize (s : System) (common : RemoteActorCommon) : RemoteActorCommon :=
  if bool_decide (TargetNodeId common = "")
  then mkCommon (SourcePid common) (nodeID s) (set_node (nodeID s) <$> TargetPid common)
  else common.

(** [process], which [OnMessage] logs the error of. *)
Definition OnMessage (s : System) (sourceNodeID : string) (data : list Z) : System * option gerr :=
  if bool_decide (sourceNodeID = "") then (s, Some ErrRemoteSourceNodeInvalid)
  else match unmarshal_remote data with
       | Err err => (s, Some (wrap "unmarshal remote message:" err))
       | Ok message =>
         match Common message with
         | None => (s, Some ErrRemoteCommonInvalid)
         | Some common =>
           let common := localize s common in
           match SourcePid common with
           | None => (s, Some ErrRemoteSenderNil)
           | Some _ =>
             if negb (bool_decide (TargetNodeId common = nodeID s))
             then (s, Some (ESentinel ("not local message nodeId:" +:+ TargetNodeId common)))
             else onRemoteHandler s (mkRemoteMessage (Some common) (Body message)) common
           end
         end
       end.
End system.
Arguments completer : clear implicits.
Arguments Process : clear implicits.
Arguments System : clear implicits.

(** ** Properties of one node *)

(** protobuf gives back the message it marshalled. *)
Class LawfulRemote `{RemoteRuntime} := {
  remote_roundtrip m bs : marshal_remote m = Ok bs -> unmarshal_remote bs = Ok m
}.

Section system_props.
Context {V U S K : Type} `{LawfulPayload V} `{LawfulRemote}.
Implicit Types (s : System V U S K) (env : Envelope V U).

(** Where SendEnvelope puts a message for a process of this node. *)
Lemma SendEnvelope_local s t env src l p :
  Sender env = Some src -> check_request (Meta_Request env) = None ->
  p_NodeID t = nodeID s -> getProcess (mgr s) (Some t) = Ok l -> procs s !! l = Some p ->
  SendEnvelope s (Some t) env =
  (with_procs s (<[l := (Process_Push p env).1]> (procs s)), (Process_Push p env).2).
Proof.
  intros Hs Hr Hn Hg Hl. unfold SendEnvelope. rewrite Hs, Hr, (bool_decide_eq_true_2 _ Hn). cbn [negb].
  rewrite Hg. unfold at_proc. rewrite Hl. by destruct (Process_Push p env).
Qed.

Lemma Process_Push_cases (p : Process V U S K) env :
  Process_Push p env =
  if closing p then (p, Some ErrActorProcessStopped)
  else if capacity p <? zlen (mailbox p) + 1 then (p, Some ErrMailboxFull)
  else (with_mailbox p (mailbox p ++ [env]), None).
Proof. done. Qed.

(** ** Between nodes *)

Lemma sendRemoteMessage_ok s m s' :
  sendRemoteMessage s m = (s', None) ->
  exists common data, Common m = Some common /\ marshal_remote m = Ok data /\
    s' = with_sent s (sent s ++ [(TargetNodeId common, data)]).
Proof.
  unfold sendRemoteMessage. repeat case_match; intros; simplify_eq. eauto.
Qed.

Lemma OnMessage_decoded (B : System V U S K) source m common data src :
  source <> "" -> nodeID B <> "" -> marshal_remote m = Ok data -> Common m = Some common ->
  SourcePid common = Some src -> TargetNodeId common = nodeID B ->
  OnMessage B source data = onRemoteHandler B m common.
Proof.
  intros Hs Hb Hm Hc Hsrc Ht. unfold OnMessage.
  rewrite (bool_decide_eq_false_2 _ Hs), (remote_roundtrip _ _ Hm), Hc. unfold localize.
  rewrite bool_decide_eq_false_2 by congruence. rewrite Hsrc, bool_decide_eq_true_2 by done.
  simpl. destruct m as [c b]. simpl in *. by subst c.
Qed.

(** What the receiving node does with a request it cannot deliver. *)
Definition reject_with s (t : PID) (ref : option RequestRef) (cause : gerr) : System V U S K :=
  match ref with
  | None => s
  | Some r =>
    if negb (remoteSender s) then s
    else if (RequestID r =? 0) || bool_decide (NodeID r = "") then s
    else (sendRemoteRequestError s (Some t) r cause).1
  end.

(** An envelope sent to another node is handled there as if it had been sent locally
    with the same payload, sender and request. *)
Theorem remote_delivery_is_local_delivery (A : System V U S K) source t v src ref A' :
  let env := mkEnvelope (PUser v) (Some src) ref in
  source <> "" -> p_NodeID t <> "" -> sendRemoteEnvelope A t env = (A', None) ->
  exists data, sent A' = sent A ++ [(p_NodeID t, data)] /\
    forall B : System V U S K, nodeID B = p_NodeID t ->
    OnMessage B source data =
    match SendEnvelope B (Some t) env with
    | (B', None) => (B', None)
    | (B', Some e) => (reject_with B' t ref e, Some (wrap "remote handler:" e))
    end.
Proof.
  intros env Hs Hb. unfold sendRemoteEnvelope. cbn [env Payload MarshalPayload].
  destruct (marshal_payload v) as [[name bs]|] eqn:Hm; [|done].
  set (A1 := match Meta_Request env with Some _ => _ | None => _ end). intros Hsend.
  apply sendRemoteMessage_ok in Hsend as (common & data & Hc & Hd & ->).
  assert (Ha : sent A1 = sent A).
  { unfold A1. destruct (Meta_Request env) as [r|]; [|done]. by case_bool_decide. }
  exists data. split. { simpl in Hc. simplify_eq. simpl. by rewrite Ha. }
  intros B Ht. simpl in Hc. injection Hc as <-. symmetry in Ht.
  rewrite (OnMessage_decoded B source _ _ data src Hs ltac:(congruence) Hd eq_refl eq_refl Ht).
  unfold onRemoteHandler, onRemoteEnvelopeHandler. simpl. rewrite (payload_roundtrip _ _ _ Hm).
  fold env. destruct (SendEnvelope B (Some t) env) as [B' [e|]]; [|done].
  unfold rejectRemoteRequest, reject_with. simpl. by destruct ref.
Qed.

Lemma requests_complete_chan s id v e p ch :
  pending (requests s) !! id = Some p -> complete_cb p = CChan ch ->
  exists s', requests_complete s id v e = (s', None) /\
    results s' = <[ch := default [] (results s !! ch) ++ [(v, e)]]> (results s) /\
    pending (requests s') = delete id (pending (requests s)).
Proof.
  intros Hp Hc. unfold requests_complete, complete, Requests.remove. rewrite Hp. simpl.
  unfold run_completion. simpl. rewrite Hc. eauto.
Qed.

Lemma respond_arrives (A B : System V U S K) source src ref v B' :
  source <> "" -> nodeID A <> "" -> NodeID ref = nodeID A -> nodeID B <> nodeID A -> RequestID ref <> 0 ->
  respond B (Some src) (Some ref) v = (B', None) ->
  exists data, sent B' = sent B ++ [(nodeID A, data)] /\
    OnMessage A source data = requests_complete A (RequestID ref) (Some v) None.
Proof.
  intros Hs Ha Hr Hne Hid. unfold respond. rewrite bool_decide_eq_false_2 by congruence. simpl.
  unfold sendRemoteAskResponse. destruct (marshal_payload v) as [[name bs]|] eqn:Hm; [|done].
  intros Hsend. apply sendRemoteMessage_ok in Hsend as (common & data & Hc & Hd & ->).
  simpl in Hc. injection Hc as <-. exists data. split; [by rewrite <- Hr|].
  rewrite (OnMessage_decoded A source _ _ data src Hs Ha Hd eq_refl eq_refl Hr).
  unfold onRemoteHandler, onRemoteResponseHandler. simpl.
  rewrite (proj2 (Z.eqb_neq _ _) Hid), bool_decide_eq_false_2 by congruence. simpl.
  by rewrite (payload_roundtrip _ _ _ Hm).
Qed.

Lemma respondError_arrives (A B : System V U S K) source src ref cause B' :
  source <> "" -> nodeID A <> "" -> NodeID ref = nodeID A -> nodeID B <> nodeID A -> RequestID ref <> 0 ->
  is_u 32 (CodeOf cause).1 ->
  respondError B (Some src) (Some ref) (Some cause) = (B', None) ->
  exists data, sent B' = sent B ++ [(nodeID A, data)] /\
    OnMessage A source data =
    requests_complete (alloc A).1 (RequestID ref) None (Some (carried_error (fresh_addr A) cause)).
Proof.
  intros Hs Ha Hr Hne Hid Hu. unfold respondError. rewrite bool_decide_eq_false_2 by congruence. simpl.
  unfold sendRemoteRequestError. destruct (CodeOf cause) as [code ok] eqn:Hcode.
  intros Hsend. apply sendRemoteMessage_ok in Hsend as (common & data & Hc & Hd & ->).
  simpl in Hc. injection Hc as <-. exists data. split; [by rewrite <- Hr|].
  rewrite (OnMessage_decoded A source _ _ data src Hs Ha Hd eq_refl eq_refl Hr).
  unfold onRemoteHandler, onRemoteResponseHandler. simpl.
  rewrite (proj2 (Z.eqb_neq _ _) Hid), bool_decide_eq_false_2 by congruence. simpl.
  unfold carried_error. rewrite Hcode. simpl in *. by rewrite (u32_small code) by done.
Qed.

(** C32: A reply to a remote request completes the asker's pending request with the
    answered value, or with the error's text and code. *)
Theorem remote_reply_reaches_asker (A B : System V U S K) source src ref p ch :
  source <> "" -> nodeID A <> "" -> NodeID ref = nodeID A -> nodeID B <> nodeID A -> RequestID ref <> 0 ->
  pending (requests A) !! RequestID ref = Some p -> complete_cb p = CChan ch -> results A !! ch = None ->
  (forall v B', respond B (Some src) (Some ref) v = (B', None) ->
    exists data A', sent B' = sent B ++ [(nodeID A, data)] /\ OnMessage A source data = (A', None) /\
      results A' !! ch = Some [(Some v, None)] /\ pending (requests A') !! RequestID ref = None) /\
  (forall cause B', is_u 32 (CodeOf cause).1 ->
    respondError B (Some src) (Some ref) (Some cause) = (B', None) ->
    exists data A' err, sent B' = sent B ++ [(nodeID A, data)] /\ OnMessage A source data = (A', None) /\
      results A' !! ch = Some [(None, Some err)] /\ pending (requests A') !! RequestID ref = None /\
      Error err = Error cause /\ (CodeOf err).1 = (CodeOf cause).1).
Proof.
  intros Hs Ha Hr Hne Hid Hp Hc Hres. split.
  - intros v B' Hb. destruct (respond_arrives A B source src ref v B') as (data & Hsent & Hon); try done.
    destruct (requests_complete_chan A (RequestID ref) (Some v) None p ch Hp Hc) as (A' & Hq & Hres' & Hpend).
    exists data, A'. rewrite Hon, Hres', Hpend, Hres, lookup_insert_eq, lookup_delete_eq. done.
  - intros cause B' Hu Hb.
    destruct (respondError_arrives A B source src ref cause B') as (data & Hsent & Hon); try done.
    destruct (requests_complete_chan (alloc A).1 (RequestID ref) None
                (Some (carried_error (fresh_addr A) cause)) p ch Hp Hc) as (A' & Hq & Hres' & Hpend).
    exists data, A', (carried_error (fresh_addr A) cause).
    rewrite Hon, Hres', Hpend. simpl. rewrite Hres, lookup_insert_eq, lookup_delete_eq.
    unfold carried_error. rewrite CodeOf_coded. done.
Qed.

Lemma with_procs_same s l p : procs s !! l = Some p -> with_procs s (<[l := p]> (procs s)) = s.
Proof. intros Hl. unfold with_procs. rewrite insert_id by done. by destruct s. Qed.

(** A refused local write leaves the process as it was. *)
Lemma at_proc_Push s l env e s' :
  at_proc s l (fun p => Process_Push p env) None = (s', Some e) -> s' = s.
Proof.
  unfold at_proc. destruct (procs s !! l) as [p|] eqn:Hl; [|done].
  rewrite Process_Push_cases. destruct (closing p); [|destruct (_ <? _)]; intros [=]; subst;
    by apply with_procs_same.
Qed.

(** SendEnvelope to this node appends the envelope to the addressed mailbox, or
    returns exactly the error its checks call for and changes nothing. *)
Theorem SendEnvelope_to_this_node s t src v ref s' r :
  let env := mkEnvelope v (Some src) ref in
  p_NodeID t = nodeID s -> m_nodeId (mgr s) = nodeID s ->
  (forall i l, ids (mgr s) !! i = Some l -> is_Some (procs s !! l)) ->
  (forall n l, names (mgr s) !! n = Some l -> is_Some (procs s !! l)) ->
  SendEnvelope s (Some t) env = (s', r) ->
  match r with
  | None => check_request ref = None /\ exists l p,
      getProcess (mgr s) (Some t) = Ok l /\ procs s !! l = Some p /\ closing p = false /\
      zlen (mailbox p) < capacity p /\
      s' = with_procs s (<[l := with_mailbox p (mailbox p ++ [env])]> (procs s))
  | Some e => s' = s /\
      (check_request ref = Some e \/
       (e = ErrNotFound /\ getById (mgr s) (ActorID t) = None /\ getByName (mgr s) (ActorName t) = None) \/
       exists l p, getProcess (mgr s) (Some t) = Ok l /\ procs s !! l = Some p /\
         ((e = ErrActorProcessStopped /\ closing p = true) \/
          (e = ErrMailboxFull /\ closing p = false /\ capacity p <= zlen (mailbox p))))
  end.
Proof.
  intros env Ht Hm Hi Hn. unfold SendEnvelope. cbn [env Sender Meta_Request].
  destruct (check_request ref) as [err|] eqn:Er; [intros [= <- <-]; auto|].
  rewrite (bool_decide_eq_true_2 _ Ht). cbn [negb].
  unfold getProcess. rewrite (bool_decide_eq_true_2 (p_NodeID t = m_nodeId (mgr s))) by congruence. cbn [negb].
  assert (Hp : forall l, getById (mgr s) (ActorID t) = Some l \/ getByName (mgr s) (ActorName t) = Some l ->
               is_Some (procs s !! l)).
  { unfold getById, getByName. intros l [Hl|Hl]; repeat case_match; try done; eauto. }
  assert (Hpush : forall l, is_Some (procs s !! l) ->
    at_proc s l (fun p => Process_Push p env) None = (s', r) ->
    match r with
    | None => exists p, procs s !! l = Some p /\ closing p = false /\ zlen (mailbox p) < capacity p /\
        s' = with_procs s (<[l := with_mailbox p (mailbox p ++ [env])]> (procs s))
    | Some e => s' = s /\ exists p, procs s !! l = Some p /\
        ((e = ErrActorProcessStopped /\ closing p = true) \/
         (e = ErrMailboxFull /\ closing p = false /\ capacity p <= zlen (mailbox p)))
    end).
  { intros l [p Hl]. unfold at_proc. rewrite Hl, Process_Push_cases.
    destruct (closing p) eqn:Hc; [|destruct (capacity p <? _) eqn:Hcap; zbool]; intros [= <- <-].
    - rewrite with_procs_same by done. eauto 10.
    - rewrite with_procs_same by done. split; [done|]. exists p. split; [done|]. right. split_and!; [done|done|lia].
    - exists p. split_and!; [done|done|lia|done]. }
  destruct (getById (mgr s) (ActorID t)) as [l|] eqn:Hid;
    [|destruct (getByName (mgr s) (ActorName t)) as [l|] eqn:Hname; [|intros [= <- <-]; split; [done|right; left; done]]].
  1: intros Hs; pose proof (Hpush l (Hp l (or_introl eq_refl)) Hs) as Hr.
  2: intros Hs; pose proof (Hpush l (Hp l (or_intror eq_refl)) Hs) as Hr.
  all: destruct r as [e|];
    [destruct Hr as (-> & p & Hl & Hor); split; [done|]; do 2 right; exists l, p; done
    |destruct Hr as (p & Hl & Hc & Hcap & ->); split; [done|]; exists l, p; done].
Qed.

(** What a refused SendEnvelope may have changed: the node its request waits for. *)
Lemma SendEnvelope_refused s t env s' e :
  SendEnvelope s t env = (s', Some e) ->
  s' = s \/ exists ref n, Meta_Request env = Some ref /\
    s' = with_requests s (retarget (requests s) (RequestID ref) n).
Proof.
  unfold SendEnvelope. destruct t as [t|]; [|intros [= <- _]; auto].
  destruct (Sender env); [|intros [= <- _]; auto].
  destruct (check_request _); [intros [= <- _]; auto|].
  destruct (bool_decide (p_NodeID t = nodeID s)); cbn [negb].
  - destruct (getProcess _ _) as [l|]; [|intros [= <- _]; auto]. intros Hp. left.
    by eapply at_proc_Push.
  - unfold sendRemoteEnvelope. destruct (MarshalPayload _) as [[name bs]|]; [|intros [= <- _]; auto].
    assert (Hsend : forall s1 m, sendRemoteMessage s1 m = (s', Some e) -> s' = s1).
    { intros s1 m. unfold sendRemoteMessage. repeat case_match; congruence. }
    destruct (Meta_Request env) as [ref|]; [case_bool_decide|];
      intros Hs; apply Hsend in Hs; subst; eauto.
Qed.

Lemma delete_retarget (rm : requestManager (completer U)) id n :
  delete id (pending (retarget rm id n)) = delete id (pending rm).
Proof.
  unfold retarget. case_bool_decide; [done|]. destruct (pending rm !! id); [|done].
  simpl. apply delete_insert_eq.
Qed.

(** An ask that fails to be sent leaves no pending request and runs no completion. *)
Theorem failed_ask_leaves_nothing s from target message timeout cb s' e :
  pending (requests s) !! u64 (nextRequestId (requests s) + 1) = None ->
  sendAsk s from target message timeout cb = (s', Some e) ->
  pending (requests s') = pending (requests s) /\ procs s' = procs s /\ mgr s' = mgr s /\
  results s' = results s /\ sent s' = sent s.
Proof.
  intros Hf. unfold sendAsk. destruct from as [from|]; [|intros [= <- _]; done].
  destruct target as [t|]; [|intros [= <- _]; done].
  unfold add. destruct (Requests.closed (requests s)); [intros [= <- _]; done|].
  destruct (_ >=? _); [intros [= <- _]; done|].
  set (id := u64 (nextRequestId (requests s) + 1)) in *.
  match goal with |- context [SendEnvelope ?s1 _ ?env] =>
    destruct (SendEnvelope s1 (Some t) env) as [s2 [err|]] eqn:E; [|done] end.
  intros [= <- _]. apply SendEnvelope_refused in E as [->|(ref & n & Href & ->)]; simpl.
  - by rewrite delete_insert_id.
  - simpl in Href. injection Href as <-. simpl. rewrite delete_retarget. simpl.
    by rewrite delete_insert_id.
Qed.
End system_props.
