(* ===== verification/Process.v ===== *)
(** * actor/process.go, actor/context.go: running an actor's callbacks

    A callback is a program: a tree of calls of the [Context] it was given, each
    with its continuation, that may panic anywhere. The goroutine of a process
    is a program on a stack of the frames Go keeps (continuations, deferred
    calls, recovers); a node interleaves the steps of all its goroutines with
    timers, messages from other nodes and calls from outside. *)

From S2P Require Import Prelude Errors Requests Proto Actor System.

Section programs.
Context {V U S : Type}.

(** The calls of [Context] and, after [OGet], those of Process itself. *)
Inductive op :=
| OTell (target : option PID) (message : V)
| OForward (target : option PID) (message : V)
| ORespond (message : V)
| ORespondError (err : option gerr)
| OAsk (target : option PID) (message : V)
| OAwait (ch : N) (* Ask's [<-result] *)
| OAskAsync (target : option PID) (message : V) (complete : option U)
| OAfter (u : U)
| OTicker (u : U)
| OStopTimer (id : Z)
| OStop
| OForceStop
| OSpawn (handler : option S) (options : SpawnOptions V)
| OStopProcess (target : option PID)
| OSetActor (a : S)
| OSetAskTimeout (timeout : Z)
| OGet
| OClearTimers
| OMgrRemove
| OSetClosed.

Inductive reply :=
| RUnit
| RErr (err : option gerr)
| RChan (r : res gerr N)
| RAsk (value : option V) (err : option gerr)
| RTimer (id : Z)
| RPid (r : res gerr PID)
| RSelf (self : PID) (current : Envelope V U) (responded : bool) (a : S) (args : list V).

(** [Ret value err] returns from the callback; only HandleAsk looks at them. *)
Inductive prog :=
| Ret (value : option V) (err : option gerr)
| Panic (e : V)
| Do (o : op) (k : reply -> prog).

Inductive frame :=
| KSeq (k : option V -> option gerr -> prog)
| KDefer (c : prog)
| KRecoverPanic (* InvokerMessage's deferred recover, which calls p.panic *)
| KRecoverLog. (* the deferred recover of p.panic, which logs *)

Inductive goroutine :=
| CIdle
| CRun (c : prog) (stack : list frame)
| CCrashed. (* a panic left the goroutine: the node dies *)

Definition unit_ret : prog := Ret None None.

(** The callbacks of an [Actor], given the state its handler is in when they
    start, and the closures named by [U]. *)
Class Behavior := {
  Init : S -> prog;
  HandleTell : S -> V -> prog;
  HandleAsk : S -> V -> prog;
  Destroy : S -> prog;
  PanicHandler : S -> V -> prog;
  run_user : U -> prog;
  run_complete : U -> option V -> option gerr -> prog
}.
End programs.
Arguments op : clear implicits.
Arguments reply : clear implicits.
Arguments prog : clear implicits.
Arguments frame : clear implicits.
Arguments goroutine : clear implicits.
Arguments Behavior : clear implicits.

Section process.
Context {V U S : Type} `{PayloadCodec V} `{RemoteRuntime} `{Behavior V U S}.
Abbreviation Sys := (System V U S (goroutine V U S)).
Abbreviation Proc := (Process V U S (goroutine V U S)).

(** Run [k] on the handler's current state. *)
Definition with_state (k : S -> prog V U S) : prog V U S :=
  Do OGet (fun r => match r with RSelf _ _ _ a _ => k a | _ => unit_ret end).

(** ** actor/process.go *)

(** [handleDestroy]: the body, and the frame of its deferred [mgr.remove]. *)
Definition handleDestroy : prog V U S := Do OClearTimers (fun _ => with_state Destroy).
Definition handleDestroy_defer : frame V U S := KDefer (Do OMgrRemove (fun _ => unit_ret)).

(** What [handleAsk] does with the results of HandleAsk. *)
Definition handleAsk_rest (response : option V) (askErr : option gerr) : prog V U S :=
  Do OGet (fun r =>
    match r with
    | RSelf _ _ true _ _ => unit_ret
    | _ =>
      let tail := match response with
                  | Some v => Do (ORespond v) (fun _ => unit_ret)
                  | None => unit_ret
                  end in
      match askErr with
      | Some e => Do (ORespondError (Some e)) (fun _ => tail)
      | None => tail
      end
    end).

Definition is_ask (e : Envelope V U) : bool :=
  match Meta_Request e with Some r => 0 <? RequestID r | None => false end.

(** [InvokerMessage] after its first three lines: the code to run and the frames
    under it. *)
Definition InvokerMessage (a : S) (envelope : Envelope V U) : goroutine V U S :=
  match Payload envelope with
  | PInit => CRun (Init a) [KRecoverPanic]
  | PStop => CRun handleDestroy
               [handleDestroy_defer; KSeq (fun _ _ => Do OSetClosed (fun _ => unit_ret)); KRecoverPanic]
  | PTask (TUser u) => CRun (run_user u) [KRecoverPanic]
  | PTask (TAfter id u) => CRun (run_user u) [KDefer (Do (OStopTimer id) (fun _ => unit_ret)); KRecoverPanic]
  | PTask (TComplete u v err) => CRun (run_complete u v err) [KRecoverPanic]
  | PUser v =>
    if is_ask envelope then CRun (HandleAsk a v) [KSeq handleAsk_rest; KRecoverPanic]
    else CRun (HandleTell a v) [KRecoverPanic]
  end.

(** [forward], [respond], [respondError] on the process at [l], and whether the
    reply went out. *)
Definition reply_done (s : Sys) (l : N) (err : option gerr) : Sys * option gerr :=
  match err with
  | Some err => (s, Some err)
  | None => (fst (at_proc s l (fun p => (with_responded p true, tt)) tt), None)
  end.

Definition Process_forward (s : Sys) (l : N) (p : Proc) (target : option PID) (message : V) : Sys * option gerr :=
  if responded p then (s, Some (wrap ": " ErrAlreadyResponded))
  else
    let '(s, err) := SendEnvelope s target
                       (mkEnvelope (PUser message) (Sender (current p)) (Meta_Request (current p))) in
    reply_done s l err.

Definition Process_respond (s : Sys) (l : N) (p : Proc) (message : V) : Sys * option gerr :=
  if responded p then (s, Some (wrap "respond:" ErrAlreadyResponded))
  else
    let '(s, err) := respond s (Some (pid p)) (Meta_Request (current p)) message in
    reply_done s l err.

Definition Process_respondError (s : Sys) (l : N) (p : Proc) (responseError : option gerr) : Sys * option gerr :=
  if responded p then (s, Some (wrap "respond err:" ErrAlreadyResponded))
  else match responseError with
       | None => (s, Some ErrRespondErrorNil)
       | Some _ =>
         let '(s, err) := respondError s (Some (pid p)) (Meta_Request (current p)) responseError in
         match err with
         | Some err => (s, Some (wrap "respond err:" err))
         | None => reply_done s l None
         end
       end.

Definition after (p : Proc) (u : U) : Proc * Z :=
  let id := s64 (timerId p + 1) in
  (with_timers p id (<[id := TAfter id u]> (timers p)), id).

Definition ticker (p : Proc) (u : U) : Proc * Z :=
  let id := s64 (timerId p + 1) in
  (with_timers p id (<[id := TUser u]> (timers p)), id).

Definition stopTimer (p : Proc) (id : Z) : Proc := with_timers p (timerId p) (delete id (timers p)).
Definition clearTimers (p : Proc) : Proc := with_timers p (timerId p) ∅.

(** ** actor/context.go: one call from the goroutine of the process at [l]

    [None]: the call blocks. [id] is what [nextId()] returns. ForceStop is in
    [proc_step], since it runs Destroy on the same goroutine. *)
Definition do_op (s : Sys) (l : N) (p : Proc) (id : Z) (o : op V U S) : option (Sys * reply V U S) :=
  let self := Some (pid p) in
  let err r := Some (fst r, RErr (snd r)) in
  let own f := Some (fst (at_proc s l (fun p => (f p, tt)) tt), RUnit) in
  match o with
  | OTell target m => err (Tell s self target m)
  | OForward target m => err (Process_forward s l p target m)
  | ORespond m => err (Process_respond s l p m)
  | ORespondError e => err (Process_respondError s l p e)
  | OAsk target m => let '(s, r) := Ask_begin s self target m (askTimeout p) in Some (s, RChan r)
  | OAwait ch =>
    match results s !! ch with
    | Some ((v, e) :: rest) => Some (with_results s (<[ch := rest]> (results s)), RAsk v e)
    | _ => None
    end
  | OAskAsync target m u => err (AskAsync s self target m (askTimeout p) u)
  | OAfter u => let '(s, id) := at_proc s l (fun p => after p u) 0 in Some (s, RTimer id)
  | OTicker u => let '(s, id) := at_proc s l (fun p => ticker p u) 0 in Some (s, RTimer id)
  | OStopTimer id => own (fun p => stopTimer p id)
  | OStop => own (fun p => Process_Stop p self)
  | OForceStop => None
  | OSpawn handler options => let '(s, r) := SpawnActor s id handler options CIdle in Some (s, RPid r)
  | OStopProcess target => Some (StopProcess s self target, RUnit)
  | OSetActor a => own (fun p => with_actor p a (askTimeout p))
  | OSetAskTimeout t => own (fun p => with_actor p (actor p) t)
  | OGet => Some (s, RSelf (pid p) (current p) (responded p) (actor p) (initArgs p))
  | OClearTimers => own clearTimers
  | OMgrRemove => Some (with_mgr s (remove (mgr s) (pid p)), RUnit)
  | OSetClosed => own (fun p => with_flags p (closing p) true)
  end.

Definition set_control (s : Sys) (l : N) (k : goroutine V U S) : Sys :=
  fst (at_proc s l (fun p => (with_control p k, tt)) tt).

(** Returning to, or panicking through, the top frame. *)
Definition unwind (c : prog V U S) (stack : list (frame V U S)) : goroutine V U S :=
  match c, stack with
  | Ret _ _, [] => CIdle
  | Ret v e, KSeq k :: st => CRun (k v e) st
  | Ret v e, KDefer d :: st => CRun d (KSeq (fun _ _ => Ret v e) :: st)
  | Ret v e, _ :: st => CRun (Ret v e) st
  | Panic _, [] => CCrashed
  | Panic e, KSeq _ :: st => CRun (Panic e) st
  | Panic e, KDefer d :: st => CRun d (KSeq (fun _ _ => Panic e) :: st)
  | Panic e, KRecoverPanic :: st => CRun (with_state (fun a => PanicHandler a e)) (KRecoverLog :: st)
  | Panic _, KRecoverLog :: st => CRun unit_ret st
  | Do _ _, _ => CRun c stack
  end.

(** What a step shows: the process at [l] starts to handle a message, answers or
    forwards its current message, starts a timer, calls ForceStop, or takes itself
    off the registry ([mgr.remove]); or a process is spawned there. *)
Inductive label :=
| LInvoke (l : N) (e : Envelope V U)
| LReply (l : N)
| LTimer (l : N) (t : task V U)
| LForceStop (l : N)
| LRemove (l : N) (q : PID)
| LSpawn (l : N) (q : PID).

Definition is_reply (o : op V U S) (r : reply V U S) : bool :=
  match o, r with
  | (OForward _ _ | ORespond _ | ORespondError _), RErr None => true
  | _, _ => false
  end.

Definition spawn_label (s : Sys) (r : res gerr PID) : option label :=
  match r with Ok q => Some (LSpawn (fresh_addr s) q) | Err _ => None end.

Definition op_label (s : Sys) (l : N) (p : Proc) (o : op V U S) (r : reply V U S) : option label :=
  if is_reply o r then Some (LReply l)
  else match o, r with
       | OSpawn _ _, RPid r => spawn_label s r
       | OMgrRemove, _ => Some (LRemove l (pid p))
       | OAfter u, RTimer id => Some (LTimer l (TAfter id u))
       | OTicker u, RTimer _ => Some (LTimer l (TUser u))
       | _, _ => None
       end.

(** One step of the goroutine of the process at [l]. *)
Definition proc_step (s : Sys) (l : N) (id : Z) : option (Sys * option label) :=
  p ← procs s !! l;
  match control p with
  | CCrashed => None
  | CIdle =>
    match mailbox p with
    | [] => None
    | e :: rest =>
      let p := with_message (with_mailbox p rest) e false in
      let p := with_control p (InvokerMessage (actor p) e) in
      Some (with_procs s (<[l := p]> (procs s)), Some (LInvoke l e))
    end
  | CRun (Do OForceStop k) st =>
    Some (set_control s l (CRun handleDestroy
            (handleDestroy_defer :: KSeq (fun _ _ => Do OSetClosed (fun _ => k RUnit)) :: st)), Some (LForceStop l))
  | CRun (Do o k) st =>
    '(s', r) ← do_op s l p id o;
    Some (set_control s' l (CRun (k r) st), op_label s l p o r)
  | CRun c st => Some (set_control s l (unwind c st), None)
  end.

(** ** The node: every interleaving *)

(** What [nextId()] returns: Snowflake.v shows its ids increase, so they are
    positive and new. *)
Definition fresh_id (s : Sys) (id : Z) : Prop :=
  0 < id /\ forall l p, procs s !! l = Some p -> ActorID (pid p) <> id.

Definition timer_envelope (t : task V U) : Envelope V U := mkEnvelope (PTask t) (Some NoSender) None.

Inductive sys_step : Sys -> option label -> Sys -> Prop :=
| st_goroutine l id s s' lab :
    fresh_id s id -> proc_step s l id = Some (s', lab) -> sys_step s lab s'
| st_timer l p tid t s : (* a timer of a process fires *)
    procs s !! l = Some p -> timers p !! tid = Some t ->
    sys_step s None (fst (at_proc s l (fun p => Process_PushSystem p (timer_envelope t)) None))
| st_timeout id s : (* the timer of a request fires *)
    sys_step s None (fst (requests_complete s id None (Some ErrAskTimeout)))
| st_message source data s : sys_step s None (fst (OnMessage s source data))
| st_send target v sender ref s : (* SendEnvelope or Tell from outside *)
    sys_step s None (fst (SendEnvelope s target (mkEnvelope (PUser v) sender ref)))
| st_push l v sender ref s : (* ... its Push, once the process was looked up *)
    sys_step s None (fst (at_proc s l (fun p => Process_Push p (mkEnvelope (PUser v) sender ref)) None))
| st_add target timeout cb s : (* the parts of an ask from outside: *)
    sys_step s None (with_requests s (fst (add (requests s) (nodeID s) target timeout cb)))
| st_remove id s : sys_step s None (with_requests s (fst (Requests.remove (requests s) id)))
| st_ask from target v timeout s : sys_step s None (fst (Ask_begin s from target v timeout))
| st_spawn id handler options s :
    fresh_id s id ->
    sys_step s (spawn_label s (snd (SpawnActor s id handler options CIdle)))
             (fst (SpawnActor s id handler options CIdle))
| st_stop_process from target s : sys_step s None (StopProcess s from target)
| st_stop r1 r2 s : sys_step s None (System_Stop s r1 r2).

Inductive sys_steps : Sys -> list label -> Sys -> Prop :=
| ss_nil s : sys_steps s [] s
| ss_snoc s tr s1 lab s2 :
    sys_steps s tr s1 -> sys_step s1 lab s2 -> sys_steps s (tr ++ option_list lab) s2
| ss_in_flight s tr s1 l t : (* a timer's callback, maybe after the timer was stopped *)
    sys_steps s tr s1 -> LTimer l t ∈ tr ->
    sys_steps s tr (fst (at_proc s1 l (fun p => Process_PushSystem p (timer_envelope t)) None)).

(** [NewSystem] *)
Definition NewSystem (nodeId : string) (remote : bool) (seed : Z) : Sys :=
  mkSystem nodeId (newManger nodeId) remote (newRequestManager defaultMaxPendingRequests seed)
    false ∅ ∅ [] 1.

(** The payloads handled by the process at [l], in order. *)
Definition invoked_by (l : N) (tr : list label) : list (payload V U) :=
  omap (fun lab => match lab with
                   | LInvoke l' e => if decide (l = l') then Some (Payload e) else None
                   | _ => None
                   end) tr.

(** The replies of the process at [l] since it started its current message. *)
Fixpoint open_replies (l : N) (n : nat) (tr : list label) : nat :=
  match tr with
  | [] => n
  | LInvoke l' _ :: tr => open_replies l (if decide (l = l') then 0 else n)%nat tr
  | LReply l' :: tr => open_replies l (if decide (l = l') then (n + 1) else n)%nat tr
  | _ :: tr => open_replies l n tr
  end.

Definition plain (m : payload V U) : Prop := m <> PInit /\ m <> PStop.
Definition last_words (cing : bool) : list (payload V U) := if cing then [PStop] else [].

(** What other goroutines may do to a process: append to its mailbox while it is
    open, and close it with one last message. *)
Record quiet (p p' : Proc) : Prop := {
  q_pid : pid p' = pid p;
  q_responded : responded p' = responded p;
  q_control : control p' = control p;
  q_mailbox : exists mids, Forall plain mids /\ (closing p = true -> mids = [] /\ closing p' = true) /\
    (Payload <$> mailbox p') =
    (Payload <$> mailbox p) ++ mids ++ (if closing p then [] else last_words (closing p'))
}.

Record ext (s s' : Sys) : Prop := {
  e_node : nodeID s' = nodeID s;
  e_mgr : mgr s' = mgr s;
  e_addr : (fresh_addr s <= fresh_addr s')%N;
  e_procs : forall l, match procs s !! l, procs s' !! l with
                      | Some p, Some p' => quiet p p'
                      | None, None => True
                      | _, _ => False
                      end
}.
End process.
Arguments label : clear implicits.

Section process_proofs.
Context {V U S : Type} `{PayloadCodec V} `{RemoteRuntime} `{Behavior V U S}.
Abbreviation Sys := (System V U S (goroutine V U S)).
Abbreviation Proc := (Process V U S (goroutine V U S)).
Implicit Types (s : Sys) (p : Proc).

Lemma quiet_refl p : quiet p p.
Proof.
  split; try done. exists []. split_and!; [done|done|].
  destruct (closing p) eqn:E; simpl; by rewrite ?app_nil_r.
Qed.

Lemma quiet_trans p1 p2 p3 : quiet p1 p2 -> quiet p2 p3 -> quiet p1 p3.
Proof.
  intros [Q1 Q2 Q3 (m1 & F1 & C1 & M1)] [R1 R2 R3 (m2 & F2 & C2 & M2)].
  split; try congruence. rewrite M2, M1. destruct (closing p1) eqn:E1.
  - destruct (C1 eq_refl) as [-> E2]. destruct (C2 E2) as [-> E3]. exists []. rewrite E2. simpl.
    rewrite !app_nil_r. done.
  - destruct (closing p2) eqn:E2.
    + destruct (C2 eq_refl) as [-> E3]. exists m1. rewrite E3. simpl. rewrite !app_nil_r. done.
    + exists (m1 ++ m2). split_and!; [by apply Forall_app|done|]. simpl.
      by rewrite app_nil_r, <- !app_assoc.
Qed.

Lemma ext_refl s : ext s s.
Proof. split; try done. intros l. destruct (procs s !! l); [apply quiet_refl|done]. Qed.

Lemma ext_trans s1 s2 s3 : ext s1 s2 -> ext s2 s3 -> ext s1 s3.
Proof.
  intros [A1 A2 A3 A4] [B1 B2 B3 B4]. split; try congruence; [lia|]. intros l.
  specialize (A4 l). specialize (B4 l). repeat case_match; try done. by eapply quiet_trans.
Qed.

Lemma ext_at_proc {A} s l (f : Proc -> Proc * A) a :
  (forall p, quiet p (f p).1) -> ext s (at_proc s l f a).1.
Proof.
  intros Hf. unfold at_proc. destruct (procs s !! l) as [p|] eqn:Hl; [|apply ext_refl].
  destruct (f p) as [p' b] eqn:E. split; try done. intros l'. simpl.
  destruct (decide (l = l')) as [<-|Hne].
  - rewrite Hl, lookup_insert_eq. specialize (Hf p). by rewrite E in Hf.
  - rewrite lookup_insert_ne by done. destruct (procs s !! l'); [apply quiet_refl|done].
Qed.

Lemma quiet_append p e : closing p = false -> plain (Payload e) -> quiet p (with_mailbox p (mailbox p ++ [e])).
Proof.
  intros Hc He. split; try done. exists [Payload e]. simpl. rewrite Hc. simpl. split_and!; [by constructor|done|].
  by rewrite fmap_app.
Qed.

Lemma quiet_Push p e : plain (Payload e) -> quiet p (Process_Push p e).1.
Proof.
  intros He. rewrite Process_Push_cases. destruct (closing p) eqn:Hc; [apply quiet_refl|].
  destruct (_ <? _); [apply quiet_refl|by apply quiet_append].
Qed.

Lemma quiet_PushSystem p e : plain (Payload e) -> quiet p (Process_PushSystem p e).1.
Proof.
  intros He. unfold Process_PushSystem. destruct (closing p) eqn:Hc; [apply quiet_refl|by apply quiet_append].
Qed.

Lemma quiet_Stop p from : quiet p (Process_Stop p from).
Proof.
  unfold Process_Stop. destruct (closing p) eqn:Hc; [apply quiet_refl|].
  split; try done. exists []. simpl. rewrite Hc. split_and!; [done|done|]. by rewrite fmap_app.
Qed.

Lemma ext_same s s' : nodeID s' = nodeID s -> mgr s' = mgr s -> procs s' = procs s ->
  (fresh_addr s <= fresh_addr s')%N -> ext s s'.
Proof. intros Hn Hm Hp Ha. split; try done. intros l. rewrite Hp. destruct (procs s !! l); [apply quiet_refl|done]. Qed.

Ltac ext_same := apply ext_same; simpl; done || lia.

Lemma ext_requests s rm : ext s (with_requests s rm).
Proof. ext_same. Qed.
Lemma ext_results s r : ext s (with_results s r).
Proof. ext_same. Qed.
Lemma ext_alloc s : ext s (alloc s).1.
Proof. ext_same. Qed.

Lemma ext_sendRemoteMessage s m : ext s (sendRemoteMessage s m).1.
Proof. unfold sendRemoteMessage. repeat case_match; simpl; try apply ext_refl; ext_same. Qed.

Lemma ext_sendRemoteEnvelope s t e : ext s (sendRemoteEnvelope s t e).1.
Proof.
  unfold sendRemoteEnvelope. destruct (MarshalPayload _) as [[name bs]|]; [|apply ext_refl].
  eapply ext_trans; [|apply ext_sendRemoteMessage].
  destruct (Meta_Request e); [case_bool_decide|]; try apply ext_refl. apply ext_requests.
Qed.

Lemma ext_SendEnvelope s t e : plain (Payload e) -> ext s (SendEnvelope s t e).1.
Proof.
  intros He. unfold SendEnvelope. destruct t as [t|]; [|apply ext_refl].
  destruct (Sender e); [|apply ext_refl]. destruct (check_request _); [apply ext_refl|].
  destruct (negb _); [apply ext_sendRemoteEnvelope|].
  destruct (getProcess _ _); [|apply ext_refl]. apply ext_at_proc. intros ?. by apply quiet_Push.
Qed.

Lemma plain_user (v : V) : plain (U := U) (PUser v).
Proof. done. Qed.
Lemma plain_task (t : task V U) : plain (PTask t).
Proof. done. Qed.
#[local] Hint Resolve plain_user plain_task : core.

Lemma ext_Tell s from t v : ext s (Tell s from t v).1.
Proof. by apply ext_SendEnvelope. Qed.

Lemma ext_run_completions s cs : ext s (run_completions s cs).
Proof.
  revert s. induction cs as [|c cs IH]; intros s; [apply ext_refl|].
  eapply ext_trans; [|apply IH]. unfold run_completion.
  destruct (c_cb c); [apply ext_results|]. by apply ext_SendEnvelope.
Qed.

Lemma ext_requests_complete s id v e : ext s (requests_complete s id v e).1.
Proof.
  unfold requests_complete. destruct (complete _ _ _ _) as [[rm cs] err]. simpl.
  eapply ext_trans; [apply ext_requests|apply ext_run_completions].
Qed.

Lemma ext_sendAsk s from t v timeout cb : ext s (sendAsk s from t v timeout cb).1.
Proof.
  unfold sendAsk. destruct from; [|apply ext_refl]. destruct t; [|apply ext_refl].
  destruct (add _ _ _ _ _) as [rm [ref|]]; [|apply ext_refl].
  match goal with |- context [SendEnvelope ?s1 ?t ?e] =>
    pose proof (ext_SendEnvelope s1 t e ltac:(done)) as He;
    destruct (SendEnvelope s1 t e) as [s2 [err|]] end; cbn [fst] in *.
  - eapply ext_trans; [|apply ext_requests]. eapply ext_trans; [apply ext_requests|exact He].
  - eapply ext_trans; [apply ext_requests|exact He].
Qed.

Lemma ext_Ask_begin s from t v timeout : ext s (Ask_begin s from t v timeout).1.
Proof.
  unfold Ask_begin. destruct (alloc s) as [s1 ch] eqn:Ea.
  pose proof (ext_alloc s) as Hal. rewrite Ea in Hal. simpl in Hal.
  pose proof (ext_sendAsk s1 from t v timeout (CChan ch)) as Hs.
  destruct (sendAsk s1 from t v timeout (CChan ch)) as [s2 [err|]]; by eapply ext_trans.
Qed.

Lemma ext_AskAsync s from t v timeout u : ext s (AskAsync s from t v timeout u).1.
Proof. unfold AskAsync. repeat case_match; try apply ext_refl. apply ext_sendAsk. Qed.

Lemma ext_sendRemoteRequestError s from r e : ext s (sendRemoteRequestError s from r e).1.
Proof. unfold sendRemoteRequestError. destruct (CodeOf e). apply ext_sendRemoteMessage. Qed.

Lemma ext_respond s from r v : ext s (respond s from r v).1.
Proof.
  unfold respond. destruct r as [r|]; [|apply ext_refl].
  destruct (negb _); [|apply ext_requests_complete]. unfold sendRemoteAskResponse.
  destruct (marshal_payload v) as [[name bs]|]; [apply ext_sendRemoteMessage|apply ext_refl].
Qed.

Lemma ext_respondError s from r e : ext s (respondError s from r e).1.
Proof.
  unfold respondError. destruct e; [|apply ext_refl]. destruct r as [r|]; [|apply ext_refl].
  destruct (negb _); [apply ext_sendRemoteRequestError|apply ext_requests_complete].
Qed.

Lemma ext_StopProcess s from t : ext s (StopProcess s from t).
Proof.
  unfold StopProcess. destruct (getProcess _ _); [|apply ext_refl].
  apply ext_at_proc. intros ?. apply quiet_Stop.
Qed.

Lemma ext_System_Stop s r1 r2 : ext s (System_Stop s r1 r2).
Proof.
  unfold System_Stop. destruct (stop _ _) as [rm cs].
  eapply (ext_trans _ (with_stopping s)); [ext_same|].
  eapply ext_trans; [apply (ext_requests _ rm)|].
  eapply ext_trans; [apply (ext_run_completions _ cs)|].
  unfold mgr_stop. generalize (run_completions (with_requests (with_stopping s) rm) cs) as s0. clear.
  induction r2 as [|[i l] r2 IH]; intros s0; [apply ext_refl|]. simpl.
  eapply ext_trans; [|apply IH]. apply ext_at_proc. intros ?. apply quiet_Stop.
Qed.

Lemma ext_rejectRemoteRequest s m e : ext s (rejectRemoteRequest s m e).
Proof. unfold rejectRemoteRequest. repeat case_match; try apply ext_refl. apply ext_sendRemoteRequestError. Qed.

Lemma ext_OnMessage s source data : ext s (OnMessage s source data).1.
Proof.
  unfold OnMessage. repeat case_match; simpl; try apply ext_refl.
  unfold onRemoteHandler. simpl. destruct (Body _) as [rq|rs|]; [| |apply ext_refl].
  - unfold onRemoteEnvelopeHandler. destruct rq as [rq|]; [|apply ext_refl].
    destruct (unmarshal_payload _ _) as [v|]; [|apply ext_refl].
    match goal with |- context [SendEnvelope s ?t ?e] =>
      pose proof (ext_SendEnvelope s t e ltac:(done)) as He;
      destruct (SendEnvelope s t e) as [s2 [err|]] end; [|done].
    cbn [fst] in *. eapply ext_trans; [exact He|]. apply ext_rejectRemoteRequest.
  - unfold onRemoteResponseHandler. repeat case_match; simpl; try apply ext_refl.
    + apply ext_requests_complete.
    + eapply ext_trans; [|apply ext_requests_complete].
      match goal with E : alloc s = _ |- _ => pose proof (ext_alloc s) as Ha; by rewrite E in Ha end.
Qed.

(** ** What every reachable state satisfies *)

Definition recovers (st : list (frame V U S)) : Prop :=
  last st = Some KRecoverPanic \/ last st = Some KRecoverLog.

(** A panic of a running goroutine meets a recover. *)
Definition guarded (g : goroutine V U S) : Prop :=
  match g with
  | CIdle => True
  | CRun c st => recovers st \/ (st = [] /\ exists v e, c = Ret v e)
  | CCrashed => False
  end.

Definition life (l : N) (tr : list (label V U)) p : Prop :=
  exists mids, Forall plain mids /\
    invoked_by l tr ++ (Payload <$> mailbox p) = PInit :: mids ++ last_words (closing p).

Record good (tr : list (label V U)) s : Prop := {
  g_node : m_nodeId (mgr s) = nodeID s;
  g_mgr : mgr_wf (mgr s);
  g_ids : forall i l, ids (mgr s) !! i = Some l -> exists p, procs s !! l = Some p /\ ActorID (pid p) = i;
  g_names : forall n l, names (mgr s) !! n = Some l -> exists p, procs s !! l = Some p /\ ActorName (pid p) = n;
  g_pids : forall l p, procs s !! l = Some p ->
    (l < fresh_addr s)%N /\ p_NodeID (pid p) = nodeID s /\ 0 < ActorID (pid p);
  g_distinct : forall l1 l2 p1 p2, procs s !! l1 = Some p1 -> procs s !! l2 = Some p2 ->
    ActorID (pid p1) = ActorID (pid p2) -> l1 = l2;
  g_procs : forall l p, procs s !! l = Some p ->
    life l tr p /\ open_replies l 0 tr = (if responded p then 1 else 0)%nat /\ guarded (control p);
  g_new : forall l, procs s !! l = None -> invoked_by l tr = [] /\ open_replies l 0 tr = 0%nat
}.

Lemma life_quiet l tr p p' : quiet p p' -> life l tr p -> life l tr p'.
Proof.
  intros [_ _ _ (m & F & C & M)] (mids & Fm & E). unfold life. rewrite M, app_assoc, E.
  destruct (closing p) eqn:Ec.
  - destruct (C eq_refl) as [-> Ec']. exists mids. rewrite Ec'. simpl. by rewrite !app_nil_r.
  - exists (mids ++ m). split; [by apply Forall_app|]. simpl. by rewrite app_nil_r, <- !app_assoc.
Qed.

Lemma good_ext tr s s' : ext s s' -> good tr s -> good tr s'.
Proof.
  intros [En Em Ea Ep] [G1 G2 G3 G4 G5 G6 G7 G8].
  assert (Hb : forall l p', procs s' !! l = Some p' -> exists p, procs s !! l = Some p /\ quiet p p').
  { intros l p' Hl. specialize (Ep l). rewrite Hl in Ep. destruct (procs s !! l); [eauto|done]. }
  assert (Hf : forall l p, procs s !! l = Some p -> exists p', procs s' !! l = Some p' /\ quiet p p').
  { intros l p Hl. specialize (Ep l). rewrite Hl in Ep. destruct (procs s' !! l); [eauto|done]. }
  split; rewrite ?Em, ?En; try done.
  - intros i l Hi. destruct (G3 i l Hi) as (p & Hl & <-). destruct (Hf l p Hl) as (p' & Hl' & Q).
    exists p'. by rewrite (q_pid _ _ Q).
  - intros n l Hi. destruct (G4 n l Hi) as (p & Hl & <-). destruct (Hf l p Hl) as (p' & Hl' & Q).
    exists p'. by rewrite (q_pid _ _ Q).
  - intros l p' Hl. destruct (Hb l p' Hl) as (p & Hl' & Q). rewrite (q_pid _ _ Q).
    destruct (G5 l p Hl') as (? & ? & ?). split_and!; [lia|done|done].
  - intros l1 l2 p1 p2 Hp1 Hp2. destruct (Hb _ _ Hp1) as (q1 & H1' & Q1), (Hb _ _ Hp2) as (q2 & H2' & Q2).
    rewrite (q_pid _ _ Q1), (q_pid _ _ Q2). eauto.
  - intros l p' Hl. destruct (Hb l p' Hl) as (p & Hl' & Q). destruct (G7 l p Hl') as (L & R & C).
    rewrite (q_responded _ _ Q), (q_control _ _ Q). split_and!; [by eapply life_quiet|done|done].
  - intros l Hl. apply G8. specialize (Ep l). rewrite Hl in Ep. by destruct (procs s !! l).
Qed.

(** Changing one process and extending the trace by a step of it. *)
Lemma good_update tr tr' s l p p' :
  good tr s -> procs s !! l = Some p -> pid p' = pid p ->
  (forall l', l' <> l -> invoked_by l' tr' = invoked_by l' tr /\ open_replies l' 0 tr' = open_replies l' 0 tr) ->
  life l tr' p' -> open_replies l 0 tr' = (if responded p' then 1 else 0)%nat -> guarded (control p') ->
  good tr' (with_procs s (<[l := p']> (procs s))).
Proof.
  intros [G1 G2 G3 G4 G5 G6 G7 G8] Hl Hpid Hother Hlife Hrep Hg.
  assert (Hb : forall l' q, <[l := p']> (procs s) !! l' = Some q ->
               exists q0, procs s !! l' = Some q0 /\ pid q = pid q0 /\ (l' = l /\ q = p' \/ l' <> l /\ q = q0)).
  { intros l' q Hq. apply lookup_insert_Some in Hq as [[<- <-]|[Hne Hq]]; [exists p|exists q]; naive_solver. }
  assert (Hf : forall l' q, procs s !! l' = Some q ->
               exists q', <[l := p']> (procs s) !! l' = Some q' /\ pid q' = pid q).
  { intros l' q Hq. destruct (decide (l = l')) as [<-|Hne].
    - exists p'. rewrite lookup_insert_eq. split; [done|]. congruence.
    - exists q. by rewrite lookup_insert_ne. }
  split; simpl; try done.
  - intros i l' Hi. destruct (G3 i l' Hi) as (q & Hq & <-). destruct (Hf l' q Hq) as (q' & ? & E). exists q'. by rewrite E.
  - intros n l' Hi. destruct (G4 n l' Hi) as (q & Hq & <-). destruct (Hf l' q Hq) as (q' & ? & E). exists q'. by rewrite E.
  - intros l' q Hq. destruct (Hb l' q Hq) as (q0 & Hq0 & -> & _). eauto.
  - intros l1 l2 p1 p2 Hp1 Hp2. destruct (Hb _ _ Hp1) as (q1 & Hq1 & -> & _), (Hb _ _ Hp2) as (q2 & Hq2 & -> & _). eauto.
  - intros l' q Hq. destruct (Hb l' q Hq) as (q0 & Hq0 & _ & [[-> ->]|[Hne ->]]); [done|].
    destruct (Hother l' Hne) as [Hi Ho]. unfold life. rewrite Hi, Ho. eauto.
  - intros l' Hn. apply lookup_insert_None in Hn as [Hn Hne]. destruct (Hother l' ltac:(congruence)) as [-> ->]. auto.
Qed.

Lemma good_control tr s l g : good tr s -> guarded g -> good tr (set_control s l g).
Proof.
  intros G Hg. unfold set_control, at_proc. destruct (procs s !! l) as [p|] eqn:Hl; [|done]. simpl.
  destruct (g_procs _ _ G l p Hl) as (L & R & _).
  by apply (good_update tr tr s l p).
Qed.

Lemma invoked_by_app l (tr1 tr2 : list (label V U)) :
  invoked_by l (tr1 ++ tr2) = invoked_by l tr1 ++ invoked_by l tr2.
Proof. apply omap_app. Qed.

Lemma open_replies_app l n (tr1 tr2 : list (label V U)) :
  open_replies l n (tr1 ++ tr2) = open_replies l (open_replies l n tr1) tr2.
Proof. revert n. induction tr1 as [|[] tr1 IH]; intros n; simpl; done. Qed.

Lemma good_reply tr s l p :
  good tr s -> procs s !! l = Some p -> responded p = false ->
  good (tr ++ [LReply l]) (at_proc s l (fun p => (with_responded p true, tt)) tt).1.
Proof.
  intros G Hl Hr. unfold at_proc. rewrite Hl. cbn [fst].
  destruct (g_procs _ _ G l p Hl) as (L & R & C). rewrite Hr in R.
  apply (good_update tr _ s l p); try done.
  - intros l' Hne. rewrite invoked_by_app, open_replies_app. simpl.
    rewrite decide_False by done. by rewrite app_nil_r.
  - unfold life. rewrite invoked_by_app. simpl. by rewrite app_nil_r.
  - rewrite open_replies_app, R. simpl. by rewrite decide_True.
Qed.

Lemma guarded_invoke a e : guarded (InvokerMessage a e).
Proof.
  unfold InvokerMessage. destruct (Payload e) as [| |[]|]; [..|destruct (is_ask e)]; left; by left.
Qed.

Lemma good_pop tr s l p e rest :
  good tr s -> procs s !! l = Some p -> mailbox p = e :: rest ->
  good (tr ++ [LInvoke l e])
    (with_procs s (<[l := with_control (with_message (with_mailbox p rest) e false)
                            (InvokerMessage (actor p) e)]> (procs s))).
Proof.
  intros G Hl Hm. destruct (g_procs _ _ G l p Hl) as ((mids & F & L) & R & C).
  apply (good_update tr _ s l p); try done.
  - intros l' Hne. rewrite invoked_by_app, open_replies_app. simpl.
    rewrite !decide_False by done. by rewrite app_nil_r.
  - exists mids. split; [done|]. rewrite Hm in L. rewrite invoked_by_app. simpl.
    rewrite decide_True by done. rewrite <- app_assoc. exact L.
  - rewrite open_replies_app. simpl. by rewrite decide_True.
  - apply guarded_invoke.
Qed.

Lemma remove_ids m q i l : ids (remove m q) !! i = Some l -> ids m !! i = Some l.
Proof.
  unfold remove, removeId, removeName. repeat case_match; simpl; try done;
    intros Hi; by apply lookup_delete_Some in Hi as [_ Hi].
Qed.
Lemma remove_names m q n l : names (remove m q) !! n = Some l -> names m !! n = Some l.
Proof.
  unfold remove, removeId, removeName. repeat case_match; simpl; try done;
    intros Hi; by apply lookup_delete_Some in Hi as [_ Hi].
Qed.
Lemma remove_nodeId m q : m_nodeId (remove m q) = m_nodeId m.
Proof. unfold remove, removeId, removeName. by repeat case_match. Qed.

Lemma good_remove tr s q : good tr s -> good tr (with_mgr s (remove (mgr s) q)).
Proof.
  intros [G1 G2 G3 G4 G5 G6 G7 G8]. split; simpl; try done.
  - by rewrite remove_nodeId.
  - by apply remove_wf.
  - intros i l Hi. apply remove_ids in Hi. eauto.
  - intros n l Hi. apply remove_names in Hi. eauto.
Qed.

Lemma good_spawn tr s id h opts :
  good tr s -> fresh_id s id -> good tr (SpawnActor s id h opts CIdle).1.
Proof.
  intros G [Hid Hfresh]. unfold SpawnActor. destruct (stopping s); [done|]. destruct h as [h|]; [|done].
  destruct (namedLocked _ _); [done|]. cbn [fst alloc].
  set (p := MailboxPushSystem _ _). set (l := fresh_addr s).
  destruct G as [G1 G2 G3 G4 G5 G6 G7 G8].
  assert (Hn : procs s !! l = None).
  { destruct (procs s !! l) as [q|] eqn:E; [|done]. destruct (G5 _ _ E). unfold l in *. lia. }
  assert (Hi : ids (mgr s) !! id = None).
  { destruct (ids (mgr s) !! id) as [l'|] eqn:E; [|done]. destruct (G3 _ _ E) as (q & Hq & Hq').
    by destruct (Hfresh _ _ Hq). }
  assert (Hf : forall l' q, procs s !! l' = Some q -> <[l := p]> (procs s) !! l' = Some q).
  { intros l' q Hq. rewrite lookup_insert_ne; [done|congruence]. }
  split; simpl.
  - unfold addLocked. by destruct (0 <? _).
  - by apply addLocked_wf.
  - unfold addLocked. simpl. rewrite (proj2 (Z.ltb_lt 0 id) Hid). simpl. intros i l' Hl'.
    apply lookup_insert_Some in Hl' as [[<- <-]|[Hne Hl']].
    + exists p. by rewrite lookup_insert_eq.
    + destruct (G3 _ _ Hl') as (q & Hq & <-). exists q. auto.
  - unfold addLocked. simpl. rewrite (proj2 (Z.ltb_lt 0 id) Hid). simpl. intros n l'.
    case_bool_decide as Hname; intros Hl'.
    + destruct (G4 _ _ Hl') as (q & Hq & <-). exists q. auto.
    + apply lookup_insert_Some in Hl' as [[<- <-]|[Hne Hl']].
      * exists p. by rewrite lookup_insert_eq.
      * destruct (G4 _ _ Hl') as (q & Hq & <-). exists q. auto.
  - intros l' q Hq. apply lookup_insert_Some in Hq as [[<- <-]|[Hne Hq]].
    + split_and!; [unfold l; lia|done|done].
    + destruct (G5 _ _ Hq) as (? & ? & ?). split_and!; [lia|done|done].
  - intros l1 l2 p1 p2 Hp1 Hp2 He.
    apply lookup_insert_Some in Hp1 as [[<- <-]|[Hne1 Hp1]], Hp2 as [[<- <-]|[Hne2 Hp2]]; eauto.
    + by destruct (Hfresh _ _ Hp2).
    + by destruct (Hfresh _ _ Hp1).
  - intros l' q Hq. apply lookup_insert_Some in Hq as [[<- <-]|[Hne Hq]]; [|by auto].
    destruct (G8 l Hn) as [Hinv Hrep]. split_and!; [|done|done].
    exists []. split; [done|]. by rewrite Hinv.
  - intros l' Hl'. apply lookup_insert_None in Hl' as [Hl' _]. auto.
Qed.

(** A change of a process nobody but its own callbacks look at. *)
Lemma quiet_own p p' :
  pid p' = pid p -> responded p' = responded p -> control p' = control p ->
  mailbox p' = mailbox p -> closing p' = closing p -> quiet p p'.
Proof.
  intros Hp Hr Hc Hm Hcl. split; try done. exists []. rewrite Hm, Hcl. split_and!; [done|done|].
  destruct (closing p); simpl; by rewrite ?app_nil_r.
Qed.

(** The three replies: refused with no effect on replies, or done once. *)
Lemma reply_done_spec s1 l err s' r :
  reply_done s1 l err = (s', r) ->
  match r with
  | None => s' = (at_proc s1 l (fun p => (with_responded p true, tt)) tt).1
  | Some _ => s' = s1
  end /\ r = err.
Proof. unfold reply_done. destruct err; intros [= <- <-]; done. Qed.

Definition replied s l p (s' : Sys) : Prop :=
  exists s1, responded p = false /\ ext s s1 /\
    s' = (at_proc s1 l (fun p => (with_responded p true, tt)) tt).1.

Lemma forward_cases s l p t m s' r :
  Process_forward s l p t m = (s', r) -> match r with None => replied s l p s' | Some _ => ext s s' end.
Proof.
  unfold Process_forward. destruct (responded p) eqn:Hr; [intros [= <- <-]; apply ext_refl|].
  match goal with |- context [SendEnvelope s t ?e] =>
    pose proof (ext_SendEnvelope s t e ltac:(done)) as He;
    destruct (SendEnvelope s t e) as [s1 err] end. cbn [fst] in He.
  intros Hd. apply reply_done_spec in Hd as [Hd _]. destruct r; [by subst|]. exists s1. done.
Qed.

Lemma respond_cases s l p m s' r :
  Process_respond s l p m = (s', r) -> match r with None => replied s l p s' | Some _ => ext s s' end.
Proof.
  unfold Process_respond. destruct (responded p) eqn:Hr; [intros [= <- <-]; apply ext_refl|].
  match goal with |- context [respond s ?a ?b ?c] =>
    pose proof (ext_respond s a b c) as He; destruct (respond s a b c) as [s1 err] end. cbn [fst] in He.
  intros Hd. apply reply_done_spec in Hd as [Hd _]. destruct r; [by subst|]. exists s1. done.
Qed.

Lemma respondError_cases s l p e s' r :
  Process_respondError s l p e = (s', r) -> match r with None => replied s l p s' | Some _ => ext s s' end.
Proof.
  unfold Process_respondError. destruct (responded p) eqn:Hr; [intros [= <- <-]; apply ext_refl|].
  destruct e as [e|]; [|intros [= <- <-]; apply ext_refl].
  match goal with |- context [respondError s ?a ?b ?c] =>
    pose proof (ext_respondError s a b c) as He; destruct (respondError s a b c) as [s1 [err|]] end; cbn [fst] in He.
  - by intros [= <- <-].
  - intros Hd. apply reply_done_spec in Hd as [Hd ->]. exists s1. done.
Qed.

Lemma do_op_cases s l p id o s' r :
  do_op s l p id o = Some (s', r) ->
  (is_reply o r = true /\ replied s l p s') \/
  (is_reply o r = false /\
    (ext s s' \/ (o = OMgrRemove /\ s' = with_mgr s (remove (mgr s) (pid p))) \/
     exists h opts, o = OSpawn h opts /\ (s', r) = let '(s', q) := SpawnActor s id h opts CIdle in (s', RPid q))).
Proof.
  unfold do_op. destruct o; cbv zeta beta; intros Ho.
  - injection Ho as <- <-. right. split; [done|left; apply ext_Tell].
  - destruct (Process_forward s l p target message) as [s1 e] eqn:E. injection Ho as <- <-. cbn [is_reply fst snd].
    apply forward_cases in E. destruct e; [right|left]; auto.
  - destruct (Process_respond s l p message) as [s1 e] eqn:E. injection Ho as <- <-. cbn [is_reply fst snd].
    apply respond_cases in E. destruct e; [right|left]; auto.
  - destruct (Process_respondError s l p err) as [s1 e] eqn:E. injection Ho as <- <-. cbn [is_reply fst snd].
    apply respondError_cases in E. destruct e; [right|left]; auto.
  - pose proof (ext_Ask_begin s (Some (pid p)) target message (askTimeout p)) as He.
    destruct (Ask_begin _ _ _ _ _) as [s1 res1]. injection Ho as <- <-. right. auto.
  - right. repeat case_match; simplify_eq. split; [done|]. left. apply ext_results.
  - injection Ho as <- <-. right. split; [done|left].
    apply (ext_AskAsync s (Some (pid p)) target message (askTimeout p) complete).
  - right. destruct (at_proc s l _ _) as [s1 n] eqn:E. injection Ho as <- <-. split; [done|]. left.
    apply (f_equal fst) in E. simpl in E. subst s1. apply ext_at_proc. intros ?. by apply quiet_own.
  - right. destruct (at_proc s l _ _) as [s1 n] eqn:E. injection Ho as <- <-. split; [done|]. left.
    apply (f_equal fst) in E. simpl in E. subst s1. apply ext_at_proc. intros ?. by apply quiet_own.
  - injection Ho as <- <-. right. split; [done|left]. apply ext_at_proc. intros ?. by apply quiet_own.
  - injection Ho as <- <-. right. split; [done|left]. apply ext_at_proc. intros ?. apply quiet_Stop.
  - done.
  - right. destruct (SpawnActor s id handler options CIdle) as [s1 e] eqn:E. injection Ho as <- <-.
    split; [done|]. do 2 right. exists handler, options. by rewrite E.
  - injection Ho as <- <-. right. split; [done|left; apply ext_StopProcess].
  - injection Ho as <- <-. right. split; [done|left]. apply ext_at_proc. intros ?. by apply quiet_own.
  - injection Ho as <- <-. right. split; [done|left]. apply ext_at_proc. intros ?. by apply quiet_own.
  - injection Ho as <- <-. right. split; [done|left; apply ext_refl].
  - injection Ho as <- <-. right. split; [done|left]. apply ext_at_proc. intros ?. by apply quiet_own.
  - injection Ho as <- <-. right. split; [done|right; by left].
  - injection Ho as <- <-. right. split; [done|left]. apply ext_at_proc. intros ?. by apply quiet_own.
Qed.

Lemma recovers_cons f st : recovers st -> recovers (f :: st).
Proof. unfold recovers. destruct st; [intros [|]; done|]. by rewrite last_cons_cons. Qed.

Lemma guarded_unwind c st : guarded (CRun c st) -> guarded (unwind c st).
Proof.
  intros [Hr|(-> & v & e & ->)]; [|done].
  destruct c as [v e|e|o k], st as [|[k'|d| |] st]; simpl; try done; try (by destruct Hr);
    try (left; done).
  all: destruct st as [|f' st]; [try (by destruct Hr)|].
  all: unfold recovers in *; rewrite ?last_cons_cons in Hr; try (left; by rewrite ?last_cons_cons).
  all: try (right; split; [done|by eexists _, _]).
  all: left; by right.
Qed.

Lemma good_silent tr s (lab : label V U) :
  match lab with LInvoke _ _ | LReply _ => False | _ => True end -> good tr s -> good (tr ++ [lab]) s.
Proof.
  intros Hlab [G1 G2 G3 G4 G5 G6 G7 G8].
  assert (Hi : forall l, invoked_by l (tr ++ [lab]) = invoked_by l tr)
    by (intros l; rewrite invoked_by_app; destruct lab; simpl; rewrite ?app_nil_r; done).
  assert (Ho : forall l, open_replies l 0 (tr ++ [lab]) = open_replies l 0 tr)
    by (intros l; rewrite open_replies_app; by destruct lab).
  split; try done.
  - intros l p Hl. unfold life. rewrite Hi, Ho. by apply G7.
  - intros l Hl. rewrite Hi, Ho. by apply G8.
Qed.

Lemma good_spawn_label tr s s' r : good tr s' -> good (tr ++ option_list (spawn_label s r)) s'.
Proof. intros G. destruct r; simpl; [by apply good_silent|by rewrite app_nil_r]. Qed.

Lemma good_op_label tr s s' l p o r :
  is_reply o r = false -> good tr s' -> good (tr ++ option_list (op_label s l p o r)) s'.
Proof.
  intros Hr G. unfold op_label. rewrite Hr.
  destruct o, r; simpl; rewrite ?app_nil_r; try done; try by apply good_silent. by apply good_spawn_label.
Qed.

(** Every step of the node keeps it good. *)
Lemma proc_step_good tr s l id s' lab :
  good tr s -> fresh_id s id -> proc_step s l id = Some (s', lab) -> good (tr ++ option_list lab) s'.
Proof.
  intros G Hfresh. unfold proc_step. destruct (procs s !! l) as [p|] eqn:Hl; [|done]. simpl.
  destruct (control p) as [|c st|] eqn:Hc; [| |done].
  - destruct (mailbox p) as [|e rest] eqn:Hm; [done|]. intros [= <- <-]. simpl. by eapply good_pop.
  - destruct (g_procs _ _ G l p Hl) as (_ & _ & Hg). rewrite Hc in Hg.
    assert (Hu : good tr (set_control s l (unwind c st))) by (by apply good_control, guarded_unwind).
    destruct c as [v e|e|o k]; [intros [= <- <-]; by rewrite app_nil_r..|].
    assert (Hst : recovers st) by (by destruct Hg as [|(_ & ? & ? & ?)]).
    destruct (match o with OForceStop => true | _ => false end) eqn:Hforce.
    { destruct o; try done. intros [= <- <-]. apply good_silent; [done|]. apply good_control; [done|]. left. by do 2 apply recovers_cons. }
    intros Ho. assert (Ho' : exists s1 r, do_op s l p id o = Some (s1, r) /\
      s' = set_control s1 l (CRun (k r) st) /\ lab = op_label s l p o r).
    { destruct o; try done; (destruct (do_op _ _ _ _ _) as [[s1 r]|] eqn:E; [|done]); simpl in Ho;
        injection Ho as <- <-; exists s1, r; done. }
    destruct Ho' as (s1 & r & Hop & -> & ->). apply good_control; [|by left].
    apply do_op_cases in Hop as [[Hrep (s2 & Hr & He & ->)]|[Hrep Hop]].
    + unfold op_label. rewrite Hrep. pose proof (good_ext tr s s2 He G) as G2. destruct He as [_ _ _ He]. specialize (He l).
      rewrite Hl in He. destruct (procs s2 !! l) as [p2|] eqn:Hl2; [|done].
      apply (good_reply tr s2 l p2); [done|done|]. by rewrite (q_responded _ _ He).
    + apply good_op_label; [done|]. destruct Hop as [He|[[_ ->]|(h & opts & _ & Hs)]].
      * by eapply good_ext.
      * by apply good_remove.
      * pose proof (good_spawn tr s id h opts G Hfresh) as Hg'. destruct (SpawnActor _ _ _ _ _). by injection Hs as -> ->.
Qed.

Lemma sys_step_good tr s lab s' : good tr s -> sys_step s lab s' -> good (tr ++ option_list lab) s'.
Proof.
  intros G Hs. destruct Hs as [l id s s' lab Hf Hp| | | | | | | | | | |]; simpl; rewrite ?app_nil_r;
    [by eapply proc_step_good| | | | | | | | |by apply good_spawn_label, good_spawn| |]; (eapply good_ext; [|exact G]).
  - apply ext_at_proc. intros ?. by apply quiet_PushSystem.
  - apply ext_requests_complete.
  - apply ext_OnMessage.
  - by apply ext_SendEnvelope.
  - apply ext_at_proc. intros ?. by apply quiet_Push.
  - apply ext_requests.
  - apply ext_requests.
  - apply ext_Ask_begin.
  - apply ext_StopProcess.
  - apply ext_System_Stop.
Qed.

Lemma NewSystem_good n r seed : good [] (NewSystem n r seed).
Proof. split; simpl; try done. Qed.

Lemma reachable_good n r seed tr s : sys_steps (NewSystem n r seed) tr s -> good tr s.
Proof.
  intros Hs. remember (NewSystem n r seed) as s0 eqn:E.
  induction Hs as [s1|s1 tr s2 lab s3 Hs IH Hstep|s1 tr s2 l t Hs IH _]; [subst; apply NewSystem_good| |].
  - eapply sys_step_good; [by apply IH|done].
  - eapply good_ext; [|by apply IH]. apply ext_at_proc. intros ?. by apply quiet_PushSystem.
Qed.

Lemma sys_steps_prefix s tr s' :
  sys_steps s tr s' -> forall tr1 tr2, tr = tr1 ++ tr2 -> exists s1, sys_steps s tr1 s1.
Proof.
  induction 1 as [s|s tr s1 lab s2 Hs IH Hstep|s tr s1 l t Hs IH _]; intros tr1 tr2 E; [| |by eauto].
  - symmetry in E. apply app_eq_nil in E as [-> ->]. exists s. constructor.
  - destruct lab as [lab|]; simpl in E; [|rewrite app_nil_r in E; eauto].
    destruct tr2 as [|x tr2 _] using rev_ind.
    + rewrite app_nil_r in E. subst. exists s2. by eapply (ss_snoc s tr s1 (Some lab)).
    + rewrite app_assoc in E. apply app_inj_tail in E as [E _]. eauto.
Qed.

Lemma life_shape (l k : list (payload V U)) m b :
  l ++ k = PInit :: m ++ last_words b -> Forall plain m ->
  exists mids, Forall plain mids /\
    (l = [] \/ l = PInit :: mids \/ (l = PInit :: mids ++ [PStop] /\ k = [] /\ b = true)).
Proof.
  intros E F. destruct l as [|x l]; [exists []; auto|]. simpl in E. injection E as -> E.
  destruct b; simpl in E.
  - destruct k as [|y k _] using rev_ind.
    + rewrite app_nil_r in E. subst. exists m. split; [done|right; right; done].
    + rewrite app_assoc in E. apply app_inj_tail in E as [<- _].
      apply Forall_app in F as [F _]. exists l. split; [done|right; left; done].
  - rewrite app_nil_r in E. subst. apply Forall_app in F as [F _]. exists l. split; [done|right; left; done].
Qed.

(** C1: Whatever the other goroutines, timers, remote messages and outside calls do,
    the first message an actor handles is its one init message; a stop message is
    handled at most once and after every other message, and when it has been handled
    the actor's mailbox is empty and accepts nothing more. *)
Theorem actor_message_order n r seed tr s l :
  sys_steps (NewSystem n r seed) tr s ->
  exists mids, Forall plain mids /\
    (invoked_by l tr = [] \/ invoked_by l tr = PInit :: mids \/
     (invoked_by l tr = PInit :: mids ++ [PStop] /\
      exists p, procs s !! l = Some p /\ mailbox p = [] /\ closing p = true)).
Proof.
  intros Hs. pose proof (reachable_good _ _ _ _ _ Hs) as G.
  destruct (procs s !! l) as [p|] eqn:Hl.
  - destruct (g_procs _ _ G l p Hl) as ((m & F & E) & _).
    destruct (life_shape _ _ _ _ E F) as (mids & Fm & Hcase). exists mids. split; [done|].
    destruct Hcase as [?|[?|(? & Hk & Hb)]]; auto. do 2 right. split; [done|].
    apply fmap_nil_inv in Hk. eauto.
  - exists []. split; [done|left]. by apply (g_new _ _ G).
Qed.

(** C2: Between two messages handled by an actor at most one reply or forward of the
    current message succeeds, over all interleavings of the node. *)
Theorem at_most_one_reply_per_message n r seed tr s l pre mid post :
  sys_steps (NewSystem n r seed) tr s ->
  tr = pre ++ LReply l :: mid ++ LReply l :: post ->
  exists e, LInvoke l e ∈ mid.
Proof.
  intros Hs E. replace (pre ++ _) with ((pre ++ LReply l :: mid ++ [LReply l]) ++ post) in E
    by (by rewrite <- !app_assoc; simpl; rewrite <- app_assoc).
  destruct (sys_steps_prefix _ _ _ Hs _ _ E) as (s1 & Hs1).
  pose proof (reachable_good _ _ _ _ _ Hs1) as G.
  assert (Hle : (open_replies l 0 (pre ++ LReply l :: mid ++ [LReply l]) <= 1)%nat).
  { destruct (procs s1 !! l) as [p|] eqn:Hl.
    - destruct (g_procs _ _ G l p Hl) as (_ & -> & _). destruct (responded p); lia.
    - destruct (g_new _ _ G l Hl) as [_ ->]. lia. }
  rewrite open_replies_app in Hle. simpl in Hle. rewrite decide_True in Hle by done.
  set (k := open_replies l 0 pre) in Hle. clearbody k. clear - Hle.
  assert (Hk : (1 <= k + 1)%nat) by lia. revert Hle Hk. generalize (k + 1)%nat. clear.
  induction mid as [|[l' e|l'|?|?|?|?] mid IH]; intros n Hle Hn; simpl in Hle;
    try (destruct (IH n Hle Hn) as [e' He]; exists e'; by right).
  - rewrite decide_True in Hle by done. lia.
  - destruct (decide (l = l')) as [<-|Hne]; [exists e; apply list_elem_of_here|].
    destruct (IH n Hle Hn) as [e' He]. exists e'. by right.
  - destruct (decide (l = l')) as [<-|Hne].
    + destruct (IH (n + 1)%nat Hle ltac:(lia)) as [e' He]. exists e'. by right.
    + destruct (IH n Hle Hn) as [e' He]. exists e'. by right.
Qed.

(** C21: No panic of an actor's callback, nor of its panic handler, ever leaves the
    goroutine of the actor. *)
Theorem panics_are_contained n r seed tr s l p c st :
  sys_steps (NewSystem n r seed) tr s -> procs s !! l = Some p ->
  control p <> CCrashed /\
  (control p = CRun c st -> (exists v e, c = Ret v e /\ st = []) \/ recovers st).
Proof.
  intros Hs Hl. destruct (g_procs _ _ (reachable_good _ _ _ _ _ Hs) l p Hl) as (_ & _ & G).
  split; [by destruct (control p)|]. intros Hc. rewrite Hc in G.
  destruct G as [|(-> & v & e & ->)]; eauto.
Qed.

(** A successful spawn registers the actor under its id and name with its init
    message alone in the mailbox, and the name is taken from then on; a failed one
    changes nothing. *)
Theorem spawn_registers n r seed tr s id h opts :
  sys_steps (NewSystem n r seed) tr s -> fresh_id s id ->
  match SpawnActor s id (Some h) opts CIdle with
  | (s', Ok pid') =>
      pid' = NewPID id (o_Name opts) (nodeID s) /\
      Has s' (Some pid') = true /\
      getProcess (mgr s') (Some pid') = Ok (fresh_addr s) /\
      waitGroup (mgr s') = waitGroup (mgr s) + 1 /\
      (exists p, procs s' !! fresh_addr s = Some p /\ Payload <$> mailbox p = [PInit] /\ actor p = h) /\
      (o_Name opts <> "" -> forall id2 h2, SpawnActor s' id2 (Some h2) opts CIdle =
                            (s', Err (wrap (o_Name opts +:+ ":") ErrNameExists)))
  | (s', Err e) =>
      s' = s /\ (stopping s = true \/
                 (exists l, names (mgr s) !! o_Name opts = Some l) /\ o_Name opts <> "")
  end.
Proof.
  intros Hs [Hid Hf]. pose proof (reachable_good _ _ _ _ _ Hs) as G. unfold SpawnActor.
  destruct (stopping s) eqn:Est; [auto|]. destruct (namedLocked (mgr s) (o_Name opts)) eqn:En.
  - split; [done|right]. unfold namedLocked in En. apply bool_decide_eq_true_1 in En as [l Hl].
    split; [eauto|]. intros E. rewrite E, (wf_names _ (g_mgr _ _ G)) in Hl. done.
  - cbn [alloc fst snd newActorProcess MailboxPushSystem with_mailbox pid].
    set (q := NewPID id (o_Name opts) (nodeID s)).
    destruct (addLocked_lookup (mgr s) q (fresh_addr s) Hid (eq_sym (g_node _ _ G))) as (Hg & Hgi & Hgn).
    split_and!; try done.
    + change (is_ok (getProcess (addLocked (mgr s) q (fresh_addr s)) (Some q)) = true). by rewrite Hg.
    + simpl. unfold addLocked. by rewrite (proj2 (Z.ltb_lt 0 (ActorID q)) Hid).
    + eexists. cbn [procs with_procs with_mgr]. rewrite lookup_insert_eq. done.
    + intros Hne id2 h2. cbn [stopping with_mgr with_procs]. rewrite Est.
      assert (Hnm : namedLocked (addLocked (mgr s) q (fresh_addr s)) (o_Name opts) = true).
      { unfold namedLocked. apply bool_decide_eq_true_2. specialize (Hgn Hne). unfold getByName in Hgn.
        simpl in Hgn. rewrite bool_decide_eq_false_2 in Hgn by done. eauto. }
      match goal with |- context [namedLocked ?m ?nm] =>
        change (namedLocked m nm) with (namedLocked (addLocked (mgr s) q (fresh_addr s)) (o_Name opts)) end.
      by rewrite Hnm.
Qed.
End process_proofs.
