(* ===== verification/ActorRegistry.v ===== *)
(** * actor/manager.go over the life of a node: who is registered

    The runs of Process.v read as histories of the registry: who was spawned,
    who took itself off, who handled a stop message or called ForceStop. *)

From S2P Require Import Prelude Errors Requests Proto Actor System Process.

Section registry.
Context {V U S : Type} `{PayloadCodec V} `{RemoteRuntime} `{Behavior V U S}.
Abbreviation Sys := (System V U S (goroutine V U S)).
Abbreviation Proc := (Process V U S (goroutine V U S)).
Abbreviation trace := (list (label V U)).
Implicit Types (s : Sys) (p : Proc) (tr : trace).

(** ** What a history says of the registry *)

Definition removed l tr : Prop := exists q, LRemove l q ∈ tr.

(** Spawned with id [i], and not taken off since. *)
Definition registered tr (i : Z) (l : N) : Prop :=
  (exists q, LSpawn l q ∈ tr /\ ActorID q = i) /\ ~ removed l tr.

(** Spawned with the name, which nobody who had it gave up since. *)
Definition holds_name tr (nm : string) (l : N) : Prop :=
  nm <> "" /\ exists pre q post, tr = pre ++ LSpawn l q :: post /\ ActorName q = nm /\
    forall l' q', LRemove l' q' ∈ post -> ActorName q' <> nm.

(** The process has begun to handle a stop message, or called ForceStop. *)
Definition destroying l tr : Prop := PStop ∈ invoked_by l tr \/ LForceStop l ∈ tr.

(** A callback that only makes calls of its [Context]. *)
Definition of_context (o : op V U S) : bool :=
  match o with OMgrRemove | OSetClosed => false | _ => true end.

Fixpoint context_only (c : prog V U S) : Prop :=
  match c with
  | Ret _ _ | Panic _ => True
  | Do o k => of_context o = true /\ forall r, context_only (k r)
  end.

Record callbacks_use_context : Prop := {
  u_init a : context_only (Init a);
  u_tell a v : context_only (HandleTell a v);
  u_ask a v : context_only (HandleAsk a v);
  u_destroy a : context_only (Destroy a);
  u_panic a e : context_only (PanicHandler a e);
  u_user u : context_only (run_user u);
  u_complete u v e : context_only (run_complete u v e)
}.

(** ** Where a goroutine is *)

(** [mgr.remove] is still to run: its frame is on the stack, or it runs. *)
Definition pending_remove (g : goroutine V U S) : Prop :=
  match g with
  | CRun c st => handleDestroy_defer ∈ st \/ exists k, c = Do OMgrRemove k
  | _ => False
  end.

Definition user_frame (f : frame V U S) : Prop :=
  match f with
  | KSeq k => forall v e, context_only (k v e)
  | KDefer c => context_only c
  | _ => True
  end.

Definition user_code (g : goroutine V U S) : Prop :=
  match g with CRun c st => context_only c /\ Forall user_frame st | _ => True end.

Lemma user_with_state k : (forall a, context_only (k a)) -> context_only (with_state k).
Proof. intros Hk. split; [done|]. by intros []. Qed.

Lemma user_ask_rest v e : context_only (handleAsk_rest v e).
Proof. split; [done|]. intros [| | | | | |self e0 [] a args]; destruct e, v; repeat (split || intros ?). Qed.

Lemma user_invoke a e :
  callbacks_use_context -> Payload e <> PStop -> user_code (InvokerMessage a e).
Proof.
  intros Hu Hs. unfold InvokerMessage.
  destruct (Payload e) as [| |[]|]; try done; [..|destruct (is_ask e)];
    (split; [apply Hu|repeat constructor]). intros. apply user_ask_rest.
Qed.

Lemma user_unwind c st : callbacks_use_context -> user_code (CRun c st) -> user_code (unwind c st).
Proof.
  intros Hu [Hc Hst]. destruct c as [v e|e|o k], st as [|[k'|d| |] st]; try done;
    apply Forall_cons in Hst as [Hf Hst]; simpl in *; try done; try (split; [|by repeat constructor]); auto.
  apply (user_with_state (fun a => PanicHandler a e)). intros a. apply Hu.
Qed.

Lemma pending_invoke a e : Payload e = PStop -> pending_remove (InvokerMessage a e).
Proof. intros E. unfold InvokerMessage. rewrite E. left. apply list_elem_of_here. Qed.

Lemma pending_unwind c st :
  match c with Do _ _ => False | _ => True end -> pending_remove (CRun c st) -> pending_remove (unwind c st).
Proof.
  intros Hc [Hd|[k ->]]; [|done].
  destruct c as [v e|e|o k], st as [|[k'|d| |] st]; try done; simpl in *;
    try (by apply elem_of_nil in Hd); apply elem_of_cons in Hd as [Hd|Hd]; try done; try (by left).
  - injection Hd as <-. right. by eexists.
  - left. by right.
  - injection Hd as <-. right. by eexists.
  - left. by right.
  - left. by right.
Qed.

(** ** What steps do to processes and to the registry *)

(** Nobody came, went, or moved. *)
Record still s s' : Prop := {
  st_mgr : mgr s' = mgr s;
  st_procs : forall l, option_map (fun p => (pid p, control p)) (procs s' !! l) =
                       option_map (fun p => (pid p, control p)) (procs s !! l)
}.

Lemma still_refl s : still s s.
Proof. done. Qed.

Lemma still_trans s1 s2 s3 : still s1 s2 -> still s2 s3 -> still s1 s3.
Proof. intros [A1 A2] [B1 B2]. split; [congruence|]. intros l. by rewrite B2. Qed.

Lemma ext_still s s' : ext s s' -> still s s'.
Proof.
  intros [_ Hm _ Hp]. split; [done|]. intros l. specialize (Hp l).
  destruct (procs s !! l), (procs s' !! l); try done. destruct Hp as [Hq _ Hc _]. simpl. by rewrite Hq, Hc.
Qed.

Lemma still_proc s s' l p : still s s' -> procs s !! l = Some p ->
  exists p', procs s' !! l = Some p' /\ pid p' = pid p /\ control p' = control p.
Proof. intros [_ Hp] Hl. specialize (Hp l). rewrite Hl in Hp. destruct (procs s' !! l) as [p'|]; [|done]. injection Hp as E1 E2. eauto. Qed.

Lemma still_back s s' l p' : still s s' -> procs s' !! l = Some p' ->
  exists p, procs s !! l = Some p /\ pid p' = pid p /\ control p' = control p.
Proof. intros [_ Hp] Hl. specialize (Hp l). rewrite Hl in Hp. destruct (procs s !! l) as [p|]; [|done]. injection Hp as E1 E2. eauto. Qed.

Lemma still_replied s l p s' : replied s l p s' -> still s s'.
Proof.
  intros (s1 & _ & He & ->). eapply still_trans; [by apply ext_still|]. unfold at_proc.
  destruct (procs s1 !! l) as [q|] eqn:Hl; [|done]. split; [done|]. intros l'. simpl.
  destruct (decide (l = l')) as [<-|Hne]; [by rewrite lookup_insert_eq, Hl|by rewrite lookup_insert_ne].
Qed.

(** ** The invariant *)

Record reg tr s : Prop := {
  rg_spawned : forall l p, procs s !! l = Some p -> LSpawn l (pid p) ∈ tr;
  rg_known : forall l q, LSpawn l q ∈ tr \/ LRemove l q ∈ tr -> exists p, procs s !! l = Some p /\ pid p = q;
  rg_alive : forall l, destroying l tr -> is_Some (procs s !! l);
  rg_ids : forall i l, ids (mgr s) !! i = Some l <-> registered tr i l;
  rg_names : forall nm l, names (mgr s) !! nm = Some l <-> holds_name tr nm l;
  rg_end : forall l p, procs s !! l = Some p -> destroying l tr -> removed l tr \/ pending_remove (control p);
  rg_user : callbacks_use_context -> forall l p, procs s !! l = Some p -> destroying l tr \/ user_code (control p);
  rg_asked : callbacks_use_context -> forall l, removed l tr -> destroying l tr
}.

Lemma reg_still tr s s' : still s s' -> reg tr s -> reg tr s'.
Proof.
  intros Hst [R1 R2 R3 R4 R5 R6 R7 R8]. pose proof (st_mgr _ _ Hst) as Hm. split; rewrite ?Hm; try done.
  - intros l p' Hl. destruct (still_back _ _ _ _ Hst Hl) as (p & Hl' & -> & _). auto.
  - intros l q Hq. destruct (R2 l q Hq) as (p & Hl & <-). destruct (still_proc _ _ _ _ Hst Hl) as (p' & ? & ? & _). eauto.
  - intros l Hd. destruct (R3 l Hd) as [p Hl]. destruct (still_proc _ _ _ _ Hst Hl) as (p' & ? & _). eauto.
  - intros l p' Hl Hd. destruct (still_back _ _ _ _ Hst Hl) as (p & Hl' & _ & ->). eauto.
  - intros Hu l p' Hl. destruct (still_back _ _ _ _ Hst Hl) as (p & Hl' & _ & ->). eauto.
Qed.

(** *** One label more *)

Lemma holds_name_snoc tr (lab : label V U) nm l :
  holds_name (tr ++ [lab]) nm l <->
  nm <> "" /\ (exists q, lab = LSpawn l q /\ ActorName q = nm) \/
  holds_name tr nm l /\ forall l' q', lab = LRemove l' q' -> ActorName q' <> nm.
Proof.
  split.
  - intros (Hnm & pre & q & post & E & Hq & Hp). destruct post as [|x post _] using rev_ind.
    + apply app_inj_tail in E as [-> ->]. left. eauto.
    + rewrite app_comm_cons, app_assoc in E. apply app_inj_tail in E as [-> ->]. right.
      setoid_rewrite elem_of_app in Hp. split; [split; [done|]; exists pre, q, post; split_and!; eauto|].
      intros l' q' ->. apply (Hp l' q'). right. apply list_elem_of_here.
  - intros [(Hnm & q & -> & Hq)|[(Hnm & pre & q & post & -> & Hq & Hp) Hlab]]; (split; [done|]).
    + exists tr, q, []. split_and!; [done|done|]. intros l' q' Hin. by apply elem_of_nil in Hin.
    + exists pre, q, (post ++ [lab]). rewrite <- app_assoc. split_and!; [done|done|].
      intros l' q' [Hin|Hin%list_elem_of_singleton]%elem_of_app; eauto.
Qed.

Lemma spawned_name tr nm l : holds_name tr nm l -> exists q, LSpawn l q ∈ tr /\ ActorName q = nm.
Proof. intros (_ & pre & q & post & -> & Hq & _). exists q. split; [|done]. apply elem_of_app. right. left. Qed.

Lemma destroying_snoc tr (lab : label V U) l :
  destroying l (tr ++ [lab]) <->
  destroying l tr \/ (exists e, lab = LInvoke l e /\ Payload e = PStop) \/ lab = LForceStop l.
Proof.
  unfold destroying. rewrite invoked_by_app, !elem_of_app, list_elem_of_singleton. split.
  - intros [[Hi|Hi]|[Hf|Hf]]; [by left; left| |by left; right|auto]. right. left.
    apply list_elem_of_omap in Hi as (x & Hi & Hx). apply list_elem_of_singleton in Hi as ->. destruct lab; try done.
    simpl in Hx. case_decide as El; [|done]. injection Hx as E. subst. eauto.
  - intros [[Hi|Hf]|[(e & -> & He)| ->]]; auto. left. right. simpl. rewrite decide_True by done. rewrite He. apply list_elem_of_here.
Qed.

Lemma removed_snoc tr (lab : label V U) l : removed l (tr ++ [lab]) <-> removed l tr \/ exists q, lab = LRemove l q.
Proof.
  unfold removed. setoid_rewrite elem_of_app. setoid_rewrite list_elem_of_singleton. naive_solver.
Qed.

(** A label of the goroutine at [l] that the registry does not see. *)
Definition about l (lab : label V U) : Prop :=
  match lab with LInvoke l' _ | LReply l' | LTimer l' _ | LForceStop l' => l' = l | _ => False end.

Lemma destroying_other tr (lab : label V U) l l' : about l lab -> l' <> l -> destroying l' (tr ++ [lab]) <-> destroying l' tr.
Proof. rewrite destroying_snoc. destruct lab; naive_solver. Qed.

Lemma set_control_lookup s l g l' p' : procs (set_control s l g) !! l' = Some p' ->
  exists p, procs s !! l' = Some p /\ pid p' = pid p /\ (l' <> l /\ control p' = control p \/ l' = l /\ control p' = g).
Proof.
  unfold set_control, at_proc. destruct (procs s !! l) as [p|] eqn:Hl; simpl.
  - intros [[<- <-]|[Hne Hl']]%lookup_insert_Some; naive_solver.
  - intros Hl'. exists p'. split_and!; [done|done|]. left. split; [congruence|done].
Qed.

Lemma set_control_known s l g l' p : procs s !! l' = Some p ->
  exists p', procs (set_control s l g) !! l' = Some p' /\ pid p' = pid p.
Proof.
  unfold set_control, at_proc. intros Hl'. destruct (procs s !! l) as [q|] eqn:Hl; simpl; [|eauto].
  destruct (decide (l = l')) as [<-|Hne]; [rewrite lookup_insert_eq; naive_solver|].
  rewrite lookup_insert_ne by done. eauto.
Qed.

Lemma set_control_mgr s l g : mgr (set_control s l g) = mgr s.
Proof. unfold set_control, at_proc. by destruct (procs s !! l). Qed.

(** The goroutine moves within its program. *)
Lemma reg_control tr s l g :
  reg tr s -> (destroying l tr -> removed l tr \/ pending_remove g) ->
  (callbacks_use_context -> destroying l tr \/ user_code g) -> reg tr (set_control s l g).
Proof.
  intros [R1 R2 R3 R4 R5 R6 R7 R8] Hend Huser. split; rewrite ?set_control_mgr; try done.
  - intros l' p' (p & Hl & -> & _)%set_control_lookup. auto.
  - intros l' q Hq. destruct (R2 l' q Hq) as (p & Hl & <-). by apply set_control_known.
  - intros l' Hd. destruct (R3 l' Hd) as [p Hl]. destruct (set_control_known s l g _ _ Hl) as (p' & ? & _). eauto.
  - intros l' p' (p & Hl & _ & [[_ ->]|[-> ->]])%set_control_lookup; eauto.
  - intros Hu l' p' (p & Hl & _ & [[_ ->]|[-> ->]])%set_control_lookup; eauto.
Qed.

(** It shows a label on the way. *)
Lemma reg_label tr s l g (lab : label V U) :
  reg tr s -> is_Some (procs s !! l) -> about l lab ->
  (destroying l (tr ++ [lab]) -> removed l tr \/ pending_remove g) ->
  (callbacks_use_context -> destroying l (tr ++ [lab]) \/ user_code g) -> reg (tr ++ [lab]) (set_control s l g).
Proof.
  intros [R1 R2 R3 R4 R5 R6 R7 R8] Hp Hab Hend Huser.
  assert (Hrem : forall l, removed l (tr ++ [lab]) <-> removed l tr)
    by (intros l'; rewrite removed_snoc; destruct lab; naive_solver).
  assert (Hin : forall x : label V U, (match x with LSpawn _ _ | LRemove _ _ => x ∈ tr ++ [lab] <-> x ∈ tr | _ => True end))
    by (intros []; try done; rewrite elem_of_app, list_elem_of_singleton; destruct lab; naive_solver).
  split; rewrite ?set_control_mgr.
  - intros l' p' (p & Hl & -> & _)%set_control_lookup. apply elem_of_app. left. auto.
  - intros l' q Hq. rewrite (Hin (LSpawn l' q)), (Hin (LRemove l' q)) in Hq.
    destruct (R2 l' q Hq) as (p & Hl & <-). by apply set_control_known.
  - intros l' Hd. assert (is_Some (procs s !! l')) as [p Hl].
    { destruct (decide (l' = l)) as [->|Hne]; [done|]. apply R3. by apply (destroying_other tr lab l). }
    destruct (set_control_known s l g _ _ Hl) as (p' & ? & _). eauto.
  - intros i l'. unfold registered. rewrite R4, Hrem. unfold registered. apply and_iff_compat_r.
    apply exist_proper. intros q. by rewrite (Hin (LSpawn l' q)).
  - intros nm l'. rewrite R5, holds_name_snoc. destruct lab; naive_solver.
  - intros l' p' (p & Hl & _ & [[Hne ->]|[-> ->]])%set_control_lookup; rewrite Hrem; [|done].
    intros Hd. apply (R6 l' p Hl). by apply (destroying_other tr lab l).
  - intros Hu l' p' (p & Hl & _ & [[Hne ->]|[-> ->]])%set_control_lookup; [|auto].
    destruct (R7 Hu l' p Hl) as [Hd|Hc]; [|auto]. left. by apply (destroying_other tr lab l).
  - intros Hu l' Hr. apply Hrem in Hr. apply destroying_snoc. left. auto.
Qed.

(** *** [mgr.remove] and SpawnActor *)

Lemma lookup_remove m q i : 0 < ActorID q -> ids (remove m q) !! i = if decide (ActorID q = i) then None else ids m !! i.
Proof.
  intros Hq. assert (Hn : ids (removeName m (ActorName q)) = ids m) by (unfold removeName; by case_match).
  unfold remove, removeId. rewrite (proj2 (Z.leb_gt _ _) Hq), Hn. simpl.
  destruct (ids m !! ActorID q) as [l|] eqn:Hl; simpl; rewrite ?Hn; case_decide as E; subst; simplify_map_eq; done.
Qed.

Lemma lookup_remove_name m q nm :
  names (remove m q) !! nm = if decide (ActorName q = nm /\ nm <> "") then None else names m !! nm.
Proof.
  assert (Hi : forall m i, names (removeId m i) = names m) by (intros m' i; unfold removeId; by repeat case_match).
  unfold remove. rewrite Hi. unfold removeName. case_bool_decide as E; case_decide as E2; simpl.
  - by destruct E2 as [<- ?].
  - done.
  - destruct E2 as [<- _]. by rewrite lookup_delete_eq.
  - rewrite lookup_delete_ne; [done|]. intros <-. by destruct E2.
Qed.

Lemma reg_remove tr s l p :
  good tr s -> reg tr s -> procs s !! l = Some p -> (callbacks_use_context -> destroying l tr) ->
  reg (tr ++ [LRemove l (pid p)]) (with_mgr s (remove (mgr s) (pid p))).
Proof.
  intros G [R1 R2 R3 R4 R5 R6 R7 R8] Hl Hd. destruct (g_pids _ _ G l p Hl) as (_ & _ & Hid).
  assert (Hds : forall l', destroying l' (tr ++ [LRemove l (pid p)]) <-> destroying l' tr)
    by (intros l'; rewrite destroying_snoc; naive_solver).
  split; simpl.
  - intros l' p' Hl'. apply elem_of_app. left. auto.
  - intros l' q. rewrite !elem_of_app, !list_elem_of_singleton. intros [[Hq|Hq]|[Hq|Hq]]; [by auto|done|by auto|].
    injection Hq as -> ->. eauto.
  - intros l' Hd'. apply R3. by apply Hds.
  - intros i l'. rewrite lookup_remove by done. unfold registered. rewrite removed_snoc.
    setoid_rewrite elem_of_app. setoid_rewrite list_elem_of_singleton. case_decide as E.
    + split; [done|]. intros [(q & [Hq|Hq] & Hi) Hn]; [|done]. exfalso. apply Hn. right.
      destruct (R2 l' q (or_introl Hq)) as (p' & Hl' & <-).
      rewrite (g_distinct _ _ G l l' p p' Hl Hl') by congruence. eauto.
    + rewrite R4. unfold registered. split.
      * intros [(q & Hq & Hi) Hn]. split; [by eauto|]. intros [Hr|(q' & Hq')]; [done|]. injection Hq' as <- <-.
        destruct (R2 l q (or_introl Hq)) as (p' & Hl' & <-). congruence.
      * intros [(q & [Hq|Hq] & Hi) Hn]; [|done]. split; [by eauto|]. auto.
  - intros nm l'. rewrite lookup_remove_name, holds_name_snoc. case_decide as E.
    + split; [done|]. intros [(_ & q & Hq & _)|[_ Hn]]; [done|]. by destruct (Hn l (pid p) eq_refl (proj1 E)).
    + rewrite R5. split.
      * intros Hh. right. split; [done|]. intros l0 q0 [= <- <-] Hq. apply E. split; [done|]. apply Hh.
      * intros [(_ & q & Hq & _)|[Hh _]]; done.
  - intros l' p' Hl'. rewrite Hds, removed_snoc. naive_solver.
  - intros Hu l' p' Hl'. rewrite Hds. auto.
  - intros Hu l'. rewrite Hds, removed_snoc. intros [Hr|(q & [= -> _])]; auto.
Qed.

Lemma lookup_addLocked m q l i : 0 < ActorID q -> ids (addLocked m q l) !! i = if decide (ActorID q = i) then Some l else ids m !! i.
Proof.
  intros Hq. unfold addLocked. rewrite (proj2 (Z.ltb_lt _ _) Hq). simpl.
  case_decide as E; subst; [by rewrite lookup_insert_eq|by rewrite lookup_insert_ne].
Qed.

Lemma lookup_addLocked_name m q l nm :
  names (addLocked m q l) !! nm = if decide (ActorName q = nm /\ nm <> "") then Some l else names m !! nm.
Proof.
  assert (Hn : names (addLocked m q l) = if bool_decide (ActorName q = "") then names m else <[ActorName q := l]> (names m))
    by (unfold addLocked; by destruct (0 <? _)).
  rewrite Hn. case_bool_decide as E; case_decide as E2.
  - by destruct E2 as [<- ?].
  - done.
  - destruct E2 as [<- _]. by rewrite lookup_insert_eq.
  - rewrite lookup_insert_ne; [done|]. intros <-. by destruct E2.
Qed.

Lemma reg_added tr s s' l p :
  reg tr s -> procs s !! l = None -> names (mgr s) !! ActorName (pid p) = None -> 0 < ActorID (pid p) ->
  ids (mgr s) !! ActorID (pid p) = None -> control p = CIdle ->
  mgr s' = addLocked (mgr s) (pid p) l -> procs s' = <[l := p]> (procs s) ->
  reg (tr ++ [LSpawn l (pid p)]) s'.
Proof.
  intros [R1 R2 R3 R4 R5 R6 R7 R8] Hn Hnm Hid Hids Hc Hm Hp.
  assert (Hds : forall l', destroying l' (tr ++ [LSpawn l (pid p)]) <-> destroying l' tr)
    by (intros l'; rewrite destroying_snoc; naive_solver).
  assert (Hrm : forall l', removed l' (tr ++ [LSpawn l (pid p)]) <-> removed l' tr)
    by (intros l'; rewrite removed_snoc; naive_solver).
  assert (Hnew : forall l', (exists p', procs s !! l' = Some p') -> l <> l') by (intros l' [p' Hl'] <-; congruence).
  split; rewrite ?Hp, ?Hm.
  - intros l' p' [[<- <-]|[Hne Hl']]%lookup_insert_Some; apply elem_of_app; [right; apply list_elem_of_here|left; auto].
  - intros l' q. rewrite !elem_of_app, !list_elem_of_singleton.
    assert (Hold : LSpawn l' q ∈ tr \/ LRemove l' q ∈ tr -> exists p0, <[l:=p]> (procs s) !! l' = Some p0 /\ pid p0 = q).
    { intros Hq. destruct (R2 l' q Hq) as (p' & Hl' & <-). exists p'. split; [|done]. rewrite lookup_insert_ne; eauto. }
    intros [[Hq|Hq]|[Hq|Hq]]; [by auto| |by auto|done]. injection Hq as -> ->. exists p. by rewrite lookup_insert_eq.
  - intros l' Hd'. apply Hds in Hd'. apply R3 in Hd' as [p' Hl']. rewrite lookup_insert_ne by eauto. eauto.
  - intros i l'. rewrite lookup_addLocked by done. unfold registered. rewrite Hrm.
    setoid_rewrite elem_of_app. setoid_rewrite list_elem_of_singleton. case_decide as E.
    + split.
      * intros [= <-]. split; [by eauto|]. intros [q Hq]. destruct (R2 l q (or_intror Hq)) as (p' & Hl' & _). congruence.
      * intros [(q & [Hq|Hq] & Hi) Hr]; [|by injection Hq as -> _]. subst i.
        assert (Hl' : ids (mgr s) !! ActorID (pid p) = Some l') by (apply R4; split; [by exists q|done]). congruence.
    + rewrite R4. unfold registered. split; [naive_solver|]. intros [(q & [Hq|Hq] & Hi) Hr]; [by split; eauto|].
      injection Hq as _ ->. by destruct E.
  - intros nm l'. rewrite lookup_addLocked_name, holds_name_snoc. case_decide as E.
    + destruct E as [<- Hne]. split.
      * intros [= <-]. left. eauto.
      * intros [(_ & q & Hq & _)|[Hh _]]; [by injection Hq as <- <-|]. apply R5 in Hh. congruence.
    + rewrite R5. split; [by intros Hh; right|]. intros [(Hne & q & Hq & Hqn)|[Hh _]]; [|done].
      injection Hq as <- <-. by destruct E.
  - intros l' p' [[<- <-]|[Hne Hl']]%lookup_insert_Some; rewrite Hds, Hrm; [|by eauto].
    intros [p' Hl']%R3. congruence.
  - intros Hu l' p' [[<- <-]|[Hne Hl']]%lookup_insert_Some; rewrite Hds; [|by eauto]. rewrite Hc. by right.
  - intros Hu l'. rewrite Hds, Hrm. auto.
Qed.

Lemma reg_spawn tr s id h opts :
  good tr s -> reg tr s -> fresh_id s id ->
  let '(s', r) := SpawnActor s id h opts CIdle in reg (tr ++ option_list (spawn_label s r)) s'.
Proof.
  intros G R [Hid Hfresh]. unfold SpawnActor.
  destruct (stopping s); [by rewrite app_nil_r|]. destruct h as [h|]; [|by rewrite app_nil_r].
  destruct (namedLocked _ _) eqn:Hnamed; [by rewrite app_nil_r|]. unfold namedLocked in Hnamed.
  apply bool_decide_eq_false_1 in Hnamed. rewrite <- eq_None_not_Some in Hnamed.
  cbn [fst alloc spawn_label option_list].
  eapply (reg_added tr s _ (fresh_addr s)); try done.
  - destruct (procs s !! _) as [p0|] eqn:E; [|done]. destruct (g_pids _ _ G _ _ E). lia.
  - destruct (ids (mgr s) !! _) as [l|] eqn:E; [|done]. destruct (g_ids _ _ G _ _ E) as (p0 & Hl & Hp).
    by destruct (Hfresh _ _ Hl).
Qed.

(** ** Every run *)

Lemma op_label_about s l p o r :
  match o with OMgrRemove | OSpawn _ _ => False | _ => True end ->
  match op_label s l p o r with Some lab => about l lab | None => True end.
Proof. unfold op_label. intros Ho. destruct (is_reply o r); [done|]. destruct o; try done; by destruct r. Qed.

Lemma destroying_about tr (lab : option (label V U)) l :
  match lab with Some (LInvoke _ _ | LForceStop _) => False | _ => True end ->
  destroying l (tr ++ option_list lab) <-> destroying l tr.
Proof.
  destruct lab as [lab|]; simpl; [|by rewrite app_nil_r]. rewrite destroying_snoc. destruct lab; naive_solver.
Qed.

(** The goroutine at [l] moves, and maybe shows a label of its own. *)
Lemma reg_move tr s s1 l p g (lab : option (label V U)) :
  reg tr s -> still s s1 -> procs s !! l = Some p ->
  match lab with Some lab => about l lab | None => True end ->
  (destroying l (tr ++ option_list lab) -> removed l tr \/ pending_remove g) ->
  (callbacks_use_context -> destroying l (tr ++ option_list lab) \/ user_code g) ->
  reg (tr ++ option_list lab) (set_control s1 l g).
Proof.
  intros R Hst Hl Hab Hend Huser. apply (reg_still _ _ _ Hst) in R.
  destruct (still_proc _ _ _ _ Hst Hl) as (p1 & Hl1 & _).
  destruct lab as [lab|]; simpl in *; [|rewrite app_nil_r in *; by apply reg_control].
  apply reg_label; done || eauto.
Qed.

Lemma set_control_popped s l p p' :
  procs s !! l = Some p -> pid p' = pid p -> still (set_control s l (control p')) (with_procs s (<[l := p']> (procs s))).
Proof.
  intros Hl Hp. unfold set_control, at_proc. rewrite Hl. split; [done|]. intros l'. simpl.
  destruct (decide (l = l')) as [<-|Hne]; [rewrite !lookup_insert_eq; simpl; congruence|by rewrite !lookup_insert_ne].
Qed.

Lemma do_op_reg tr s l p id o k st s1 r :
  good tr s -> reg tr s -> fresh_id s id -> procs s !! l = Some p -> control p = CRun (Do o k) st ->
  do_op s l p id o = Some (s1, r) -> reg (tr ++ option_list (op_label s l p o r)) (set_control s1 l (CRun (k r) st)).
Proof.
  intros G R Hfresh Hl Hc Hop. pose proof (rg_end _ _ R l p Hl) as Hend.
  pose proof (fun Hu => rg_user _ _ R Hu l p Hl) as Huser. rewrite Hc in Hend, Huser.
  assert (Hst : match o with OMgrRemove | OSpawn _ _ => True | _ => still s s1 end).
  { apply do_op_cases in Hop as [[_ Hr]|[_ [He|[[-> _]|(h & opts & -> & _)]]]]; [| |done|done];
      [apply still_replied in Hr|apply ext_still in He]; by destruct o. }
  assert (Hcont : forall r', callbacks_use_context -> destroying l tr \/ user_code (CRun (k r') st)).
  { intros r' Hu. destruct (Huser Hu) as [|[[_ Hk] Hst']]; [by left|right]. by split. }
  assert (Hpend : o = OMgrRemove \/ (destroying l tr -> removed l tr \/ pending_remove (CRun (k r) st))).
  { destruct (match o with OMgrRemove => true | _ => false end) eqn:E; [left; by destruct o|right].
    intros Hd. destruct (Hend Hd) as [|[Hp|[k' Hp]]]; [by left|by right; left|]. injection Hp as -> ->. done. }
  destruct (match o with OMgrRemove => true | _ => false end) eqn:Erm; [|destruct Hpend as [->|Hpend]; [done|]].
  - destruct o; try done. injection Hop as <- <-. apply reg_control; [apply reg_remove; try done| |].
    + intros Hu. by destruct (Huser Hu) as [|[[? _] _]].
    + intros _. left. exists (pid p). apply elem_of_app. right. apply list_elem_of_here.
    + intros Hu. destruct (Hcont RUnit Hu); [left|by right]. by apply (destroying_about tr (Some _)).
  - destruct (match o with OSpawn _ _ => true | _ => false end) eqn:Esp.
    + destruct o; try done. simpl in Hop. pose proof (reg_spawn tr s id handler options G R Hfresh) as Hr.
      destruct (SpawnActor _ _ _ _ _) as [s2 q]. injection Hop as <- <-. apply reg_control; [done| |];
        rewrite destroying_about by (by destruct q); [|auto].
      intros Hd. destruct (Hpend Hd) as [[q' Hq]|]; [left|by right]. exists q'. apply elem_of_app. by left.
    + eapply reg_move; [done| |done| | |].
      * by destruct o.
      * apply op_label_about. by destruct o.
      * rewrite destroying_about; [done|]. unfold op_label. destruct (is_reply o r); [done|]. by destruct o, r.
      * intros Hu. rewrite destroying_about; [auto|]. unfold op_label. destruct (is_reply o r); [done|]. by destruct o, r.
Qed.

Lemma proc_step_reg tr s l id s' lab :
  good tr s -> reg tr s -> fresh_id s id -> proc_step s l id = Some (s', lab) -> reg (tr ++ option_list lab) s'.
Proof.
  intros G R Hfresh. unfold proc_step. destruct (procs s !! l) as [p|] eqn:Hl; [|done]. simpl.
  pose proof (rg_end _ _ R l p Hl) as Hend. pose proof (fun Hu => rg_user _ _ R Hu l p Hl) as Huser.
  destruct (control p) as [|c st|] eqn:Hc; [| |done].
  - destruct (mailbox p) as [|e rest] eqn:Hm; [done|]. intros [= <- <-].
    match goal with |- reg _ (with_procs s (<[l := ?p']> _)) =>
      apply (reg_still _ _ _ (set_control_popped s l p p' Hl eq_refl)) end.
    cbn [control with_control]. eapply (reg_move tr s s); [done|done|exact Hl|done| |]; simpl.
    + rewrite destroying_snoc. intros [Hd|[(e' & He & Hp)|?]]; [|injection He as <-|done].
      * destruct (Hend Hd) as [|[]]; by left.
      * right. by apply pending_invoke.
    + intros Hu. destruct (Payload e) as [| |t|v] eqn:Hp; [|left|..];
        try (right; apply user_invoke; [done|congruence]). apply destroying_snoc. eauto.
  - assert (Hunw : match c with Do _ _ => False | _ => True end -> reg tr (set_control s l (unwind c st))).
    { intros Hnd. apply reg_control; [done| |].
      - intros Hd. destruct (Hend Hd) as [|]; [by left|]. right. by apply pending_unwind.
      - intros Hu. destruct (Huser Hu) as [|]; [by left|]. right. by apply user_unwind. }
    destruct c as [v e|e|o k]; [intros [= <- <-]; rewrite app_nil_r; by apply Hunw..|]. clear Hunw.
    destruct (match o with OForceStop => true | _ => false end) eqn:Hforce.
    { destruct o; try done. intros [= <- <-]. apply (reg_move tr s s l p _ (Some (LForceStop l))); try done.
      - intros _. right. left. apply list_elem_of_here.
      - intros Hu. left. apply destroying_snoc. auto. }
    intros Ho. assert (Ho' : exists s1 r, do_op s l p id o = Some (s1, r) /\
      s' = set_control s1 l (CRun (k r) st) /\ lab = op_label s l p o r).
    { destruct o; try done; (destruct (do_op _ _ _ _ _) as [[s1 r]|] eqn:E; [|done]); simpl in Ho;
        injection Ho as <- <-; exists s1, r; done. }
    clear Ho Hforce. destruct Ho' as (s1 & r & Hop & -> & ->). by eapply do_op_reg.
Qed.

Lemma sys_step_reg tr s lab s' : good tr s -> reg tr s -> sys_step s lab s' -> reg (tr ++ option_list lab) s'.
Proof.
  intros G R Hs. destruct Hs as [l id s s' lab Hf Hp| | | | | | | | |id h opts s Hf| |]; simpl; rewrite ?app_nil_r;
    [by eapply proc_step_reg| | | | | | | | | | |]; try (eapply reg_still; [apply ext_still|exact R]).
  - apply ext_at_proc. intros ?. by apply quiet_PushSystem.
  - apply ext_requests_complete.
  - apply ext_OnMessage.
  - by apply ext_SendEnvelope.
  - apply ext_at_proc. intros ?. by apply quiet_Push.
  - apply ext_requests.
  - apply ext_requests.
  - apply ext_Ask_begin.
  - pose proof (reg_spawn tr s id h opts G R Hf) as Hr. by destruct (SpawnActor _ _ _ _ _).
  - apply ext_StopProcess.
  - apply ext_System_Stop.
Qed.

Lemma NewSystem_reg n r seed : reg [] (NewSystem n r seed).
Proof.
  split; simpl; try done.
  - intros l q [Hq|Hq]; by apply elem_of_nil in Hq.
  - intros l [Hd|Hd]; by apply elem_of_nil in Hd.
  - intros i l. split; [done|]. intros [(q & Hq & _) _]. by apply elem_of_nil in Hq.
  - intros nm l. split; [done|]. intros (_ & [|] & q & post & E & _); done.
  - intros _ l [q Hq]. by apply elem_of_nil in Hq.
Qed.

Lemma reachable_reg n r seed tr s : sys_steps (NewSystem n r seed) tr s -> reg tr s.
Proof.
  intros Hs. remember (NewSystem n r seed) as s0 eqn:E.
  induction Hs as [s1|s1 tr s2 lab s3 Hs IH Hstep|s1 tr s2 l t Hs IH _]; subst; [apply NewSystem_reg| |].
  - eapply sys_step_reg; [by eapply reachable_good|by apply IH|done].
  - eapply reg_still; [apply ext_still, ext_at_proc|by apply IH]. intros ?. by apply quiet_PushSystem.
Qed.

(** C22: Over every run of a node whose callbacks only use their Context, the
    registry maps an id to the actor spawned with it until the actor is removed, and
    a name to the actor spawned with it until somebody of that name is removed; an
    actor is removed only once it handles a stop message or forces its stop, and is
    then off the registry whenever its goroutine is idle, even if Destroy panicked;
    the wait group counts the registered. *)
Theorem registry_is_consistent n r seed tr s :
  callbacks_use_context -> sys_steps (NewSystem n r seed) tr s ->
  (forall i l, ids (mgr s) !! i = Some l <-> registered tr i l) /\
  (forall nm l, names (mgr s) !! nm = Some l <-> holds_name tr nm l) /\
  waitGroup (mgr s) = count (mgr s) /\
  (forall l, removed l tr -> destroying l tr) /\
  (forall l p, procs s !! l = Some p -> control p = CIdle ->
    (ids (mgr s) !! ActorID (pid p) = Some l <-> ~ destroying l tr)).
Proof.
  intros Hu Hs. pose proof (reachable_good _ _ _ _ _ Hs) as G. pose proof (reachable_reg _ _ _ _ _ Hs) as R.
  split_and!; [apply R|apply R|apply (wf_wait _ (g_mgr _ _ G))|by apply (rg_asked _ _ R)|].
  intros l p Hl Hc. rewrite (rg_ids _ _ R). unfold registered. split.
  - intros [_ Hr] Hd. destruct (rg_end _ _ R l p Hl Hd) as [|Hp]; [done|]. by rewrite Hc in Hp.
  - intros Hd. split; [by exists (pid p); split; [apply (rg_spawned _ _ R)|]|]. intros Hr. by apply Hd, (rg_asked _ _ R Hu).
Qed.
End registry.
