(* ===== verification/ActorDemo.v ===== *)
(** * Concrete actors: the theorems of System.v and Process.v at work, and what
    ForceStop leaves behind

    Payloads are integers; the wire format is a countable encoding. *)

From stdpp Require Import countable.
From S2P Require Import Prelude Errors Requests Proto Actor System Process ActorRegistry.

(** ** A codec and a transport *)

#[export] Instance z_codec : PayloadCodec Z := {
  nil_value := 0;
  marshal_payload v := Ok ("z", [v]);
  unmarshal_payload name bs :=
    match bs with [v] => Ok v | _ => Err (ESentinel "bad payload") end
}.
#[export] Instance z_lawful : LawfulPayload Z.
Proof. split. by intros v name bs [= <- <-]. Qed.

Definition pid_tuple (p : PID) := (ActorID p, ActorName p, p_NodeID p).
#[export] Instance PID_countable : Countable PID.
Proof. by refine (inj_countable' pid_tuple (fun '(a, b, c) => NewPID a b c) _); intros []. Defined.
#[export] Instance RequestRef_countable : Countable RequestRef.
Proof. by refine (inj_countable' (fun r => (NodeID r, RequestID r)) (fun '(a, b) => mkRequestRef a b) _); intros []. Defined.
Definition common_tuple (c : RemoteActorCommon) := (SourcePid c, TargetNodeId c, TargetPid c).
Definition request_tuple (r : RemoteActorRequest) := (rq_MessageName r, rq_Payload r, rq_Request r).
Definition response_tuple (r : RemoteActorResponse) :=
  (Kind r, rs_Request r, rs_MessageName r, rs_Payload r, rs_Error r, rs_ErrorCode r).
Definition body_sum (b : RemoteBody) :=
  match b with
  | BRequest r => inl (request_tuple <$> r)
  | BResponse r => inr (Some (response_tuple <$> r))
  | BNone => inr None
  end.
Definition message_tuple (m : RemoteActorMessage) := (common_tuple <$> Common m, body_sum (Body m)).
Definition tuple_message
  (t : option (option PID * string * option PID) *
       (option (string * list Z * option RequestRef) +
        option (option (Z * option RequestRef * string * list Z * string * Z)))) : RemoteActorMessage :=
  mkRemoteMessage
    ((fun '(a, b, c) => mkCommon a b c) <$> t.1)
    (match t.2 with
     | inl r => BRequest ((fun '(a, b, c) => mkRemoteRequest a b c) <$> r)
     | inr (Some r) => BResponse ((fun '(a, b, c, d, e, f) => mkRemoteResponse a b c d e f) <$> r)
     | inr None => BNone
     end).
Lemma tuple_message_tuple m : tuple_message (message_tuple m) = m.
Proof. destruct m as [[[]|] [[[]|]|[[]|]|]]; done. Qed.

#[export] Instance demo_remote : RemoteRuntime := {
  marshal_remote m := Ok [Z.pos (encode (message_tuple m))];
  unmarshal_remote bs :=
    match bs with
    | [Z.pos p] => match decode p with Some t => Ok (tuple_message t) | None => Err (ESentinel "bad frame") end
    | _ => Err (ESentinel "bad frame")
    end;
  SendToNode _ _ := None
}.
#[export] Instance demo_lawful : LawfulRemote.
Proof. split. intros m bs [= <-]. simpl. by rewrite decode_encode, tuple_message_tuple. Qed.

(** ** Actors

    On 1 the actor stops itself by force; on 2 it asks to stop and then stops by
    force; on 3 it panics; otherwise it counts. It answers with the next
    integer, and answers 7 twice. *)
#[export] Instance demo_actor : Behavior Z unit Z := {
  Init a := unit_ret;
  HandleTell a v :=
    if v =? 1 then Do OForceStop (fun _ => unit_ret)
    else if v =? 2 then Do OStop (fun _ => Do OForceStop (fun _ => unit_ret))
    else if v =? 3 then Panic 33
    else Do (OSetActor (a + v)) (fun _ => unit_ret);
  HandleAsk a v :=
    if v =? 7 then Do (ORespond 70) (fun _ => Do (ORespond 71) (fun _ => Ret (Some 72) None))
    else Ret (Some (v + 1)) None;
  Destroy a := Do (OSetActor (- a)) (fun _ => unit_ret);
  PanicHandler a e := Do (OSetActor e) (fun _ => unit_ret);
  run_user _ := unit_ret;
  run_complete _ _ _ := unit_ret
}.

Abbreviation DSys := (System Z unit Z (goroutine Z unit Z)).

(** ** Scripts *)

Inductive cmd :=
| CSpawn (id : Z) (name : string)
| CSend (target : PID) (v : Z) (ref : option RequestRef)
| CAsk (from target : PID) (v : Z)
| CGo (l : N). (* one step of the goroutine at [l] *)

Definition spare_id : Z := 1000.
Definition fresh_idb (s : DSys) (id : Z) : bool :=
  (0 <? id) && forallb (fun lp => negb (ActorID (pid (snd lp)) =? id)) (map_to_list (procs s)).

Lemma fresh_idb_sound s id : fresh_idb s id = true -> fresh_id s id.
Proof.
  unfold fresh_idb. intros [Hid Hall]%andb_prop. split; [by apply Z.ltb_lt|].
  intros l p Hl E. rewrite forallb_forall in Hall.
  apply elem_of_map_to_list, list_elem_of_In in Hl. specialize (Hall _ Hl). simpl in Hall.
  by rewrite E, Z.eqb_refl in Hall.
Qed.

Definition run_cmd (c : cmd) (s : DSys) : option (DSys * option (label Z unit)) :=
  match c with
  | CSpawn id name =>
    if fresh_idb s id then
      let '(s', r) := SpawnActor s id (Some 0) (mkSpawnOptions name [] 0) CIdle in Some (s', spawn_label s r)
    else None
  | CSend t v ref => Some ((SendEnvelope s (Some t) (mkEnvelope (PUser v) (Some NoSender) ref)).1, None)
  | CAsk from t v => Some ((Ask_begin s (Some from) (Some t) v 0).1, None)
  | CGo l => if fresh_idb s spare_id then proc_step s l spare_id else None
  end.

(** Commands that cannot run are skipped. *)
Fixpoint run_cmds (cs : list cmd) (s : DSys) (tr : list (label Z unit)) : DSys * list (label Z unit) :=
  match cs with
  | [] => (s, tr)
  | c :: cs =>
    match run_cmd c s with
    | Some (s', lab) => run_cmds cs s' (tr ++ option_list lab)
    | None => run_cmds cs s tr
    end
  end.

Lemma run_cmd_step c s s' lab : run_cmd c s = Some (s', lab) -> sys_step s lab s'.
Proof.
  destruct c; unfold run_cmd.
  - destruct (fresh_idb s id) eqn:E; [|done]. apply fresh_idb_sound in E.
    pose proof (st_spawn id (Some 0) (mkSpawnOptions name [] 0) s E) as Hst. intros Es.
    destruct (SpawnActor s id (Some 0) (mkSpawnOptions name [] 0) CIdle) as [s1 r]. by injection Es as <- <-.
  - intros E. injection E as <- <-. exact (st_send (Some target) v (Some NoSender) ref s).
  - intros E. injection E as <- <-. exact (st_ask (Some from) (Some target) v 0 s).
  - destruct (fresh_idb s spare_id) eqn:E; [|done]. intros Hp.
    eapply st_goroutine; [by apply fresh_idb_sound|exact Hp].
Qed.

Lemma run_cmds_steps s0 cs s tr :
  sys_steps s0 tr s -> sys_steps s0 (run_cmds cs s tr).2 (run_cmds cs s tr).1.
Proof.
  revert s tr. induction cs as [|c cs IH]; intros s tr Hs; simpl; [done|].
  destruct (run_cmd c s) as [[s1 lab]|] eqn:E; [|by apply IH].
  apply IH. eapply ss_snoc; [exact Hs|by eapply run_cmd_step].
Qed.

Definition node_a : DSys := NewSystem "a" true 41.
Definition run (cs : list cmd) : DSys * list (label Z unit) := run_cmds cs node_a [].

Lemma run_reachable cs : sys_steps node_a (run cs).2 (run cs).1.
Proof. apply run_cmds_steps. constructor. Qed.

Definition go (n : nat) (l : N) : list cmd := replicate n (CGo l).
Definition actor5 : PID := NewPID 5 "x" "a".
Definition client : PID := NewPID 9 "" "a".

Definition handled (cs : list cmd) (l : N) : list (payload Z unit) := invoked_by l (run cs).2.
Definition proc_at (cs : list cmd) (l : N) := procs (run cs).1 !! l.

(** Ask 5, an ask that is answered twice, a panic, another message, stop. *)
Definition script1 : list cmd :=
  [CSpawn 5 "x"; CAsk client actor5 5; CAsk client actor5 7; CSend actor5 3 None; CSend actor5 20 None] ++ go 40 1.

Example script1_answers :
  results (run script1).1 !! 2%N = Some [(Some 6, None)] /\
  results (run script1).1 !! 3%N = Some [(Some 70, None)] /\
  option_map (fun p => (actor p, closed p, is_ok (getProcess (mgr (run script1).1) (Some (pid p)))))
    (proc_at script1 1) = Some (53, false, true).
Proof. vm_compute. done. Qed.

(** ** ForceStop

    Messages queued behind a ForceStop are handled after Destroy. *)
Definition script_force : list cmd :=
  [CSpawn 5 "x"; CSend actor5 1 None; CSend actor5 20 None; CSend actor5 30 None] ++ go 40 1.

Lemma forced_actor_keeps_handling :
  handled script_force 1 = [PInit; PUser 1; PUser 20; PUser 30] /\
  option_map (fun p => (closed p, actor p)) (proc_at script_force 1) = Some (true, 50) /\
  getProcess (mgr (run script_force).1) (Some actor5) = Err ErrNotFound.
Proof. vm_compute. done. Qed.

(** ForceStop while a Stop is queued destroys the actor twice, and the second
    [mgr.remove] drops the name of its successor: two live actors get the name. *)
Definition script_twice : list cmd :=
  [CSpawn 5 "x"; CSend actor5 2 None] ++ go 12 1 ++ [CSpawn 6 "x"] ++ go 40 1 ++ go 40 2.

Lemma stale_remove_drops_successor :
  handled script_twice 1 = [PInit; PUser 2; PStop] /\
  getProcess (mgr (run script_twice).1) (Some (NewPID 6 "x" "a")) = Ok 2%N /\
  getByName (mgr (run script_twice).1) "x" = None /\
  getByName (mgr (run (script_twice ++ [CSpawn 7 "x"])).1) "x" = Some 3%N /\
  getProcess (mgr (run (script_twice ++ [CSpawn 7 "x"])).1) (Some (NewPID 6 "x" "a")) = Ok 2%N.
Proof. vm_compute. done. Qed.

(** ** Witnesses *)

Lemma actor_message_order_witness :
  handled script1 1 = [PInit; PUser 5; PUser 7; PUser 3; PUser 20] /\
  exists mids, Forall plain mids /\
    (handled script1 1 = [] \/ handled script1 1 = PInit :: mids \/
     (handled script1 1 = PInit :: mids ++ [PStop] /\
      exists p, proc_at script1 1 = Some p /\ mailbox p = [] /\ closing p = true)).
Proof.
  split; [vm_compute; reflexivity|].
  apply (actor_message_order "a" true 41 (run script1).2 (run script1).1 1). apply run_reachable.
Defined.

Definition ask7 : label Z unit :=
  LInvoke 1 (mkEnvelope (PUser 7) (Some client) (Some (mkRequestRef "a" 43))).

Lemma at_most_one_reply_per_message_witness :
  exists e, LInvoke 1 e ∈ [ask7].
Proof.
  apply (at_most_one_reply_per_message "a" true 41 (run script1).2 (run script1).1 1
           (take 3 (run script1).2) [ask7] (drop 6 (run script1).2)).
  - apply run_reachable.
  - vm_compute. reflexivity.
Defined.

Lemma panics_are_contained_witness :
  match proc_at script1 1 with
  | Some p => control p <> CCrashed
  | None => False
  end.
Proof.
  destruct (proc_at script1 1) as [p|] eqn:E.
  - apply (panics_are_contained "a" true 41 (run script1).2 (run script1).1 1 p unit_ret []
             (run_reachable script1) E).
  - vm_compute in E. discriminate E.
Defined.

Lemma demo_uses_context : callbacks_use_context (V := Z) (U := unit) (S := Z).
Proof.
  split; intros; simpl; unfold unit_ret; repeat case_match; repeat (split || intros ?).
Qed.

(** An actor that stopped twice is gone, and its successor kept its id and lost
    its name. *)
Lemma registry_is_consistent_witness :
  let s := (run script_twice).1 in
  let tr := (run script_twice).2 in
  sys_steps node_a tr s /\ waitGroup (mgr s) = 1 /\ registered tr 6 2 /\ ~ registered tr 5 1 /\ ~ holds_name tr "x" 2 /\
  destroying 1 tr.
Proof.
  intros s tr. pose proof (run_reachable script_twice) as Hs. fold s tr in Hs.
  destruct (registry_is_consistent "a" true 41 tr s demo_uses_context Hs) as (Hi & Hn & _ & Hd & Hidle).
  split; [exact Hs|]. split; [vm_compute; reflexivity|].
  split; [apply Hi; vm_compute; reflexivity|]. split; [intros Hr; apply Hi in Hr; vm_compute in Hr; discriminate Hr|].
  split; [intros Hr; apply Hn in Hr; vm_compute in Hr; discriminate Hr|].
  apply Hd. exists (NewPID 5 "x" "a"). vm_compute. repeat constructor.
Defined.

Lemma spawn_registers_witness :
  match SpawnActor (run script1).1 6 (Some 0) (mkSpawnOptions "y" [] 0) CIdle with
  | (s', Ok p) => Has s' (Some p) = true
  | (_, Err _) => False
  end.
Proof.
  assert (Hf : fresh_id (run script1).1 6) by (apply fresh_idb_sound; vm_compute; reflexivity).
  pose proof (spawn_registers "a" true 41 (run script1).2 (run script1).1 6 0
                (mkSpawnOptions "y" [] 0) (run_reachable script1) Hf) as H.
  assert (Hok : is_ok (SpawnActor (run script1).1 6 (Some 0) (mkSpawnOptions "y" [] 0) CIdle).2 = true)
    by (vm_compute; reflexivity).
  destruct (SpawnActor (run script1).1 6 (Some 0) (mkSpawnOptions "y" [] 0) CIdle) as [s' [p|e]].
  - apply H.
  - discriminate Hok.
Defined.

(** Node a asks an actor of node b. *)
Definition node_b : DSys :=
  (SpawnActor (NewSystem "b" true 0) 7 (Some 0) (mkSpawnOptions "y" [] 0) CIdle).1.
Definition actor7 : PID := NewPID 7 "y" "b".
Definition asked : DSys := (Ask_begin node_a (Some client) (Some actor7) 5 0).1.
Definition ask_ref : RequestRef := mkRequestRef "a" 42.

Lemma SendEnvelope_to_this_node_witness :
  (SendEnvelope node_b (Some actor7) (mkEnvelope (PUser 5) (Some client) (Some ask_ref))).2 = None /\
  exists l p, getProcess (mgr node_b) (Some actor7) = Ok l /\ procs node_b !! l = Some p /\
    zlen (mailbox p) < capacity p.
Proof.
  pose proof (SendEnvelope_to_this_node node_b actor7 client (PUser 5) (Some ask_ref)) as H.
  assert (Hr : (SendEnvelope node_b (Some actor7) (mkEnvelope (PUser 5) (Some client) (Some ask_ref))).2 = None)
    by (vm_compute; reflexivity).
  destruct (SendEnvelope node_b (Some actor7) (mkEnvelope (PUser 5) (Some client) (Some ask_ref)))
    as [s' r] eqn:E. simpl in Hr. subst r. split; [reflexivity|].
  specialize (H s' None eq_refl eq_refl).
  destruct H as (_ & l & p & H1 & H2 & _ & H3 & _); [| |exact E|by exists l, p].
  - intros i l Hi. change (ids (mgr node_b)) with ({[ 7 := 1%N ]} : gmap Z N) in Hi.
    apply lookup_singleton_Some in Hi as [_ <-]. eexists; reflexivity.
  - intros i l Hi. change (names (mgr node_b)) with ({[ "y" := 1%N ]} : gmap string N) in Hi.
    apply lookup_singleton_Some in Hi as [_ <-]. eexists; reflexivity.
Defined.

Lemma failed_ask_leaves_nothing_witness :
  match sendAsk node_a (Some client) (Some (NewPID 8 "" "a")) 5 0 (CChan 3) with
  | (s', Some e) => pending (requests s') = ∅
  | _ => False
  end.
Proof.
  destruct (sendAsk node_a (Some client) (Some (NewPID 8 "" "a")) 5 0 (CChan 3)) as [s' [e|]] eqn:E.
  - apply (failed_ask_leaves_nothing node_a (Some client) (Some (NewPID 8 "" "a")) 5 0 (CChan 3) s' e
             eq_refl E).
  - apply (f_equal snd) in E. vm_compute in E. discriminate E.
Defined.

Lemma remote_delivery_is_local_delivery_witness :
  exists (A' : DSys) data, sent A' = [("b", data)] /\
    OnMessage node_b "a" data =
    match SendEnvelope node_b (Some actor7) (mkEnvelope (PUser 5) (Some client) (Some ask_ref)) with
    | (B', None) => (B', None)
    | (B', Some e) => (reject_with B' actor7 (Some ask_ref) e, Some (wrap "remote handler:" e))
    end.
Proof.
  destruct (sendRemoteEnvelope node_a actor7 (mkEnvelope (PUser 5) (Some client) (Some ask_ref)))
    as [A' r] eqn:E.
  assert (r = None) as -> by (apply (f_equal snd) in E; vm_compute in E; by subst r).
  destruct (remote_delivery_is_local_delivery node_a "a" actor7 5 client (Some ask_ref) A') as (data & Hd & Hb);
    [discriminate|discriminate|exact E|].
  exists A', data. split; [exact Hd|]. apply (Hb node_b). reflexivity.
Defined.

Lemma remote_reply_reaches_asker_witness :
  exists data (A' : DSys), OnMessage asked "b" data = (A', None) /\ results A' !! 1%N = Some [(Some 6, None)].
Proof.
  destruct (respond node_b (Some actor7) (Some ask_ref) 6) as [B' r] eqn:E.
  assert (r = None) as -> by (apply (f_equal snd) in E; vm_compute in E; by subst r).
  destruct (remote_reply_reaches_asker asked node_b "b" actor7 ask_ref
              (mkPending "b" (CChan 1) true) 1) as [H _];
    [discriminate|discriminate|reflexivity|discriminate|discriminate|vm_compute; reflexivity
    |reflexivity|vm_compute; reflexivity|].
  destruct (H 6 B' E) as (data & A' & _ & H1 & H2 & _). by exists data, A'.
Defined.
