(* ===== verification/Conn.v ===== *)
(** * network: connections (base_connection.go, tcp_connection.go, config.go)

    [baseConn] with its state machine, handshake, send and receive paths, and
    the read loop of a TCP connection over pkg/buffer. Each method is one step
    here; ConnThreads.v splits them at every access to what goroutines share. *)

From S2P Require Import Prelude Protocol Codec Cipher Buffer.

(** errors.go, and the errors of the packages below; [NUser] are errors of the
    handler, [NIO] of the socket. *)
Inductive nerr :=
| ErrUnexpectedTCPConnType | ErrInvalidFrameConsumeSize | ErrConnectionClosed
| ErrNetworkChannelFull | ErrInvalidConnectionState | ErrHandshakeNotComplete
| ErrHeartbeatTimeout | ErrFrameNil | ErrHandshakeTimeout
| NProto (e : perr) | NCodec (e : cerr) | NCipher (e : eerr) | NBuffer (e : berr)
| NUser (code : Z) | NIO (code : Z) | NEOF.
#[export] Instance nerr_eq_dec : EqDecision nerr.
Proof. solve_decision. Defined.

Inductive ConnectionState :=
| ConnectionStateCreated | ConnectionStateHandshaking | ConnectionStateReady | ConnectionStateClosed.
#[export] Instance ConnectionState_eq_dec : EqDecision ConnectionState.
Proof. solve_decision. Defined.

Definition ConnectionState_String (c : ConnectionState) : string :=
  match c with
  | ConnectionStateCreated => "Created" | ConnectionStateHandshaking => "Handshaking"
  | ConnectionStateReady => "Ready" | ConnectionStateClosed => "Closed"
  end.

Inductive ConnectionRole := ConnectionRoleServer | ConnectionRoleClient.
#[export] Instance ConnectionRole_eq_dec : EqDecision ConnectionRole.
Proof. solve_decision. Defined.

(** The interface [Codec] of iface.go. *)
Record FrameCodec := mkFrameCodec {
  c_Encode : list Z -> res cerr (list Z * Z);
  c_Decode : list Z -> Z -> res cerr (list Z)
}.
Definition pipeline_codec (p : Pipeline) : FrameCodec :=
  mkFrameCodec (Pipeline_Encode p) (Pipeline_Decode p).

(** ** config.go *)

Definition KB : Z := 1024.
Definition second : Z := 1000000000.
Definition tcpReadChunkSize : Z := KB * 8.

Record CommonConfig := mkConfig {
  EncryptEnable : bool;
  HeartbeatTimeout : Z;
  o_Codec : option FrameCodec;
  MaxInboundSize : Z;
  MaxOutboundSize : Z;
  SendChanSize : Z;
  HandshakeTimeout : Z;
  WriteTimeout : Z
}.

Definition Normalize (c : CommonConfig) : CommonConfig :=
  let positive x default := if x <=? 0 then default else x in
  mkConfig (EncryptEnable c)
    (Z.max (positive (HeartbeatTimeout c) (second * 5)) (second * 1))
    (o_Codec c)
    (positive (MaxInboundSize c) (32 * KB))
    (positive (MaxOutboundSize c) (32 * KB))
    (positive (SendChanSize c) 1024)
    (positive (HandshakeTimeout c) (second * 5))
    (positive (WriteTimeout c) (second * 3)).

(** [TCPConfig.Normalize]: the common options and [ReadBufferCap]. *)
Definition TCPConfig_Normalize (c : CommonConfig) (ReadBufferCap : Z) : CommonConfig * Z :=
  let c := Normalize c in
  let minReadBufferCap := MaxInboundSize c + tcpReadChunkSize in
  (c, if ReadBufferCap <? minReadBufferCap then minReadBufferCap else ReadBufferCap).

(** [UDPConfig.Normalize] *)
Definition UDPConfig_Normalize (c : CommonConfig) (ServerSendChanSize : Z) : CommonConfig * Z :=
  (Normalize c, if ServerSendChanSize <=? 0 then 10240 else ServerSendChanSize).

(** ** base_connection.go *)

Record Conn := mkConn {
  role : ConnectionRole;
  state : ConnectionState;
  options : CommonConfig;
  sendChannel : list (list Z);
  cipher : option ECDHCipher;
  cancelled : bool; (* ctx is done *)
  closeErr : option nerr;
  handshakeTimer : bool; (* armed *)
  readyCh_closed : bool;
  lastActive : Z;
  connected : bool; (* OnConnected was called *)
  delivered : list MessageFrame; (* the calls of OnMessage *)
  written : list (list Z) (* the calls of writeRaw that succeeded *)
}.

Section conn.

(** X25519 and HKDF; the handler; Go's choice in a [select] with two ready
    cases; the socket's result for a write. *)
Context `{KeyAgreement}.
Context (OnConnected : Conn -> option nerr) (OnMessage : Conn -> MessageFrame -> option nerr)
        (select_done : Conn -> bool) (writeRaw : Conn -> list Z -> option nerr).

Definition newBaseConnWithRole (options : CommonConfig) (r : ConnectionRole) (now : Z) : Conn :=
  mkConn r ConnectionStateCreated options [] None false None false false now false [] [].

Definition set_state (b : Conn) (st : ConnectionState) : Conn :=
  mkConn (role b) st (options b) (sendChannel b) (cipher b) (cancelled b) (closeErr b)
    (handshakeTimer b) (readyCh_closed b) (lastActive b) (connected b) (delivered b) (written b).
Definition set_send (b : Conn) (q : list (list Z)) : Conn :=
  mkConn (role b) (state b) (options b) q (cipher b) (cancelled b) (closeErr b)
    (handshakeTimer b) (readyCh_closed b) (lastActive b) (connected b) (delivered b) (written b).
Definition put_cipher (b : Conn) (c : option ECDHCipher) : Conn :=
  mkConn (role b) (state b) (options b) (sendChannel b) c (cancelled b) (closeErr b)
    (handshakeTimer b) (readyCh_closed b) (lastActive b) (connected b) (delivered b) (written b).
Definition set_cipher (b : Conn) (c : ECDHCipher) : Conn := put_cipher b (Some c).
Definition set_timer (b : Conn) (t : bool) : Conn :=
  mkConn (role b) (state b) (options b) (sendChannel b) (cipher b) (cancelled b) (closeErr b)
    t (readyCh_closed b) (lastActive b) (connected b) (delivered b) (written b).
Definition touch (b : Conn) (now : Z) : Conn :=
  mkConn (role b) (state b) (options b) (sendChannel b) (cipher b) (cancelled b) (closeErr b)
    (handshakeTimer b) (readyCh_closed b) now (connected b) (delivered b) (written b).
Definition set_ready (b : Conn) (conn ready : bool) : Conn :=
  mkConn (role b) (state b) (options b) (sendChannel b) (cipher b) (cancelled b) (closeErr b)
    (handshakeTimer b) ready (lastActive b) conn (delivered b) (written b).
Definition deliver (b : Conn) (f : MessageFrame) : Conn :=
  mkConn (role b) (state b) (options b) (sendChannel b) (cipher b) (cancelled b) (closeErr b)
    (handshakeTimer b) (readyCh_closed b) (lastActive b) (connected b) (delivered b ++ [f]) (written b).
Definition wrote (b : Conn) (m : list Z) : Conn :=
  mkConn (role b) (state b) (options b) (sendChannel b) (cipher b) (cancelled b) (closeErr b)
    (handshakeTimer b) (readyCh_closed b) (lastActive b) (connected b) (delivered b) (written b ++ [m]).

(** [state.CompareAndSwap(old, new)] *)
Definition CompareAndSwap (b : Conn) (old new : ConnectionState) : option Conn :=
  if decide (state b = old) then Some (set_state b new) else None.

Definition Close (b : Conn) (err : option nerr) : Conn :=
  if decide (state b = ConnectionStateClosed) then b
  else mkConn (role b) ConnectionStateClosed (options b) (sendChannel b) (cipher b) true err
         false (readyCh_closed b) (lastActive b) (connected b) (delivered b) (written b).

(** A cipher without a shared key fails in [crypt]. A nil cipher would panic; the
    code never gets there (ConnSafety.v), so the answer here does not matter. *)
Definition run_cipher (b : Conn) (f : ECDHCipher -> res eerr (list Z)) : res nerr (list Z) :=
  match cipher b with
  | None => Err (NCipher ErrInvalidKey)
  | Some c => match f c with Ok x => Ok x | Err e => Err (NCipher e) end
  end.

Definition encrypt (b : Conn) (plaintext : list Z) : res nerr (list Z) :=
  if negb (bool_decide (state b = ConnectionStateReady)) then Err ErrHandshakeNotComplete
  else if negb (EncryptEnable (options b)) then Ok plaintext
  else run_cipher b (fun c => Encrypt c plaintext).

Definition decrypt (b : Conn) (ciphertext : list Z) : res nerr (list Z) :=
  if negb (EncryptEnable (options b)) then Ok ciphertext
  else if negb (bool_decide (state b = ConnectionStateReady)) then Err ErrHandshakeNotComplete
  else run_cipher b (fun c => Decrypt c ciphertext).

Definition checkHeartbeatTimeout (b : Conn) (now : Z) : option nerr :=
  if bool_decide (state b = ConnectionStateHandshaking) then None
  else if now - lastActive b >=? HeartbeatTimeout (options b) then Some ErrHeartbeatTimeout
  else None.

(** *** Sending *)

Definition pushQueue (b : Conn) (message : list Z) : Conn * option nerr :=
  let full := SendChanSize (options b) <=? zlen (sendChannel b) in
  if cancelled b && (full || select_done b) then (b, Some ErrConnectionClosed)
  else if full then (b, Some ErrNetworkChannelFull)
  else (set_send b (sendChannel b ++ [message]), None).

(** The body and flags that go on the wire. *)
Definition encode_body (b : Conn) (frame : MessageFrame) : res nerr MessageFrame :=
  let coded := match o_Codec (options b) with
               | None => Ok frame
               | Some codec =>
                 match c_Encode codec (f_Body frame) with
                 | Err e => Err (NCodec e)
                 | Ok (body, flags) => Ok (with_Flags (with_Body frame body) flags)
                 end
               end in
  match coded with
  | Err e => Err e
  | Ok frame =>
    if negb (IsInternalCommand (f_Cmd frame))
    then match encrypt b (f_Body frame) with
         | Err e => Err e
         | Ok body => Ok (with_Body frame body)
         end
    else Ok frame
  end.

(** [sendFrame]; a nil frame is [None]. *)
Definition sendFrame (b : Conn) (frame : option MessageFrame) : Conn * option nerr :=
  match frame with
  | None => (b, Some ErrFrameNil)
  | Some frame =>
    match encode_body b frame with
    | Err e => (b, Some e)
    | Ok copyFrame =>
      match EncodeMessageFrameWithLimit copyFrame (MaxOutboundSize (options b)) with
      | Err e => (b, Some (NProto e))
      | Ok bytes => pushQueue b bytes
      end
    end
  end.

Definition SendMessage (b : Conn) (frame : option MessageFrame) : Conn * option nerr :=
  if decide (state b = ConnectionStateClosed) then (b, Some ErrConnectionClosed)
  else sendFrame b frame.

Definition public_key (b : Conn) : list Z := match cipher b with Some c => publicKey c | None => [] end.

Definition sendExchangeKey (b : Conn) : Conn * option nerr :=
  sendFrame b (Some (mkFrame InternalCmd InternalKeyExchange 0 0 0 0 (public_key b))).

(** *** Starting *)

Definition onReady (b : Conn) : Conn * option nerr :=
  let b := set_timer b false in
  match OnConnected b with
  | Some err => (set_ready b true (readyCh_closed b), Some err)
  | None => (set_ready b true true, None)
  end.

(** [seed] is the randomness of the key pair. *)
Definition startHandshake (b : Conn) (seed : Z) : Conn * option nerr :=
  match NewECDHCipher seed with
  | Err err => (put_cipher b None, Some (NCipher err))
  | Ok c =>
    let b := set_cipher b c in
    let '(b, err) := if decide (role b = ConnectionRoleClient) then sendExchangeKey b else (b, None) in
    match err with
    | Some err => (b, Some err)
    | None => (set_timer b true, None)
    end
  end.

Definition start (b : Conn) (seed : Z) : Conn * option nerr :=
  match CompareAndSwap b ConnectionStateCreated ConnectionStateHandshaking with
  | None => (b, Some ErrInvalidConnectionState)
  | Some b =>
    if negb (EncryptEnable (options b))
    then match CompareAndSwap b ConnectionStateHandshaking ConnectionStateReady with
         | None => (b, Some ErrInvalidConnectionState)
         | Some b => onReady b
         end
    else startHandshake b seed
  end.

(** [runStart] up to the goroutines it starts. *)
Definition runStart (b : Conn) (seed : Z) : Conn * option nerr :=
  let '(b, err) := start b seed in
  match err with
  | Some err => (Close b (Some err), Some err)
  | None => (b, None)
  end.

(** The handshake timer fires. *)
Definition handshake_timeout (b : Conn) : Conn :=
  if handshakeTimer b then Close b (Some ErrHandshakeTimeout) else b.

(** *** Receiving *)

Definition handleKeyExchange (b : Conn) (frame : MessageFrame) : Conn * option nerr :=
  match CompareAndSwap b ConnectionStateHandshaking ConnectionStateReady with
  | None => (b, None)
  | Some b =>
    let '(b, err) := if decide (role b = ConnectionRoleServer) then sendExchangeKey b else (b, None) in
    match err with
    | Some err => (b, Some err)
    | None =>
      match cipher b with
      | None => (b, Some (NCipher ErrInvalidKey))
      | Some c =>
        match GenerateSharedKey c (f_Body frame) with
        | Err e => (b, Some (NCipher e))
        | Ok c => onReady (set_cipher b c)
        end
      end
    end
  end.

Definition prepareMessageFrame (b : Conn) (frame : MessageFrame) : res nerr MessageFrame :=
  let plain := if negb (IsInternalCommand (f_Cmd frame))
               then match decrypt b (f_Body frame) with
                    | Err e => Err e
                    | Ok body => Ok (with_Body frame body)
                    end
               else Ok frame in
  match plain with
  | Err e => Err e
  | Ok frame =>
    match o_Codec (options b) with
    | None => Ok frame
    | Some codec =>
      match c_Decode codec (f_Body frame) (f_Flags frame) with
      | Err e => Err (NCodec e)
      | Ok body => Ok (with_Body frame body)
      end
    end
  end.

Definition processFrame (b : Conn) (frame : MessageFrame) : Conn * option nerr :=
  if IsInternalCommand (f_Cmd frame) then
    if f_Act frame =? InternalActClose then (b, Some ErrInvalidConnectionState)
    else if f_Act frame =? InternalKeyExchange then handleKeyExchange b frame
    else (b, Some (NProto ErrUnknownInternalAct))
  else if negb (bool_decide (state b = ConnectionStateReady)) then (b, Some ErrHandshakeNotComplete)
  else
    let err := OnMessage b frame in
    (deliver b frame, err).

Definition onProcess (b : Conn) (now : Z) (data : list Z) : Conn * Z * option nerr :=
  match DecodeMessageFrameWithLimit data (MaxInboundSize (options b)) with
  | (_, consumed, Some err) => (b, consumed, Some (NProto err))
  | (None, consumed, None) => (b, consumed, None)
  | (Some frame, consumed, None) =>
    if consumed =? 0 then (b, consumed, None)
    else
      let b := touch b now in
      match prepareMessageFrame b frame with
      | Err err => (b, consumed, Some err)
      | Ok frame => let '(b, err) := processFrame b frame in (b, consumed, err)
      end
  end.

(** [processReadBuffer]: every round consumes at least a header, so as many
    rounds as there are bytes, and one, are enough. *)
Fixpoint processReadBuffer_loop (fuel : nat) (b : Conn) (now : Z) (buf : Buffer)
  : option (Conn * Buffer * option nerr) :=
  match fuel with
  | O => None
  | S fuel =>
    let '(b, n, err) := onProcess b now (Bytes buf) in
    match err with
    | Some err => Some (b, buf, Some err)
    | None =>
      if (n <? 0) || (n >? Len buf) then Some (b, buf, Some ErrInvalidFrameConsumeSize)
      else if n =? 0 then Some (b, buf, None)
      else match Skip buf n with
           | (buf, Some err) => Some (b, buf, Some (NBuffer err))
           | (buf, None) => processReadBuffer_loop fuel b now buf
           end
    end
  end.
Definition processReadBuffer (b : Conn) (now : Z) (buf : Buffer) :=
  processReadBuffer_loop (S (length (Bytes buf))) b now buf.

(** tcp_connection.go: what readLoop does with one successful read. *)
Definition on_read (b : Conn) (now : Z) (buf : Buffer) (chunk : list Z)
  : option (Conn * Buffer * option nerr) :=
  if zlen chunk =? 0 then Some (b, buf, Some NEOF)
  else match Write buf chunk with
       | (buf, _, Some err) => Some (b, buf, Some (NBuffer err))
       | (buf, _, None) => processReadBuffer b now buf
       end.

(** readLoop over the reads of a socket: it leaves on the first error, closing
    the connection. *)
Fixpoint readLoop (b : Conn) (now : Z) (buf : Buffer) (chunks : list (list Z))
  : option (Conn * Buffer * option nerr) :=
  match chunks with
  | [] => Some (b, buf, None)
  | chunk :: chunks =>
    match on_read b now buf chunk with
    | None => None
    | Some (b, buf, Some err) => Some (Close b (Some err), buf, Some err)
    | Some (b, buf, None) => readLoop b now buf chunks
    end
  end.

(** *** The write loop *)

Fixpoint drain (b : Conn) (q : list (list Z)) : Conn :=
  match q with
  | [] => set_send b []
  | message :: q =>
    match writeRaw b message with
    | Some _ => set_send b q
    | None => drain (wrote b message) q
    end
  end.
Definition drainMessages (b : Conn) : Conn := drain b (sendChannel b).

(** One iteration of runWriteLoop's select: [inl] goes on, [inr err] leaves. *)
Inductive write_event := WDone | WTick (now : Z) | WMessage.
Definition write_iteration (b : Conn) (e : write_event) : option (Conn * option (option nerr)) :=
  match e with
  | WDone => if cancelled b then Some (b, Some None) else None
  | WTick now =>
    match checkHeartbeatTimeout b now with
    | Some err => Some (b, Some (Some err))
    | None => Some (b, None)
    end
  | WMessage =>
    match sendChannel b with
    | [] => None
    | message :: q =>
      let b := set_send b q in
      match writeRaw b message with
      | Some err => Some (b, Some (Some err))
      | None => Some (wrote b message, None)
      end
    end
  end.

(** The deferred function: drain, close; then OnClose and closeSocket run. *)
Definition write_loop_exit (b : Conn) (err : option nerr) : Conn := Close (drainMessages b) err.
End conn.

(** ** Properties *)

Section conn_props.
Context `{KeyAgreement}.
Context (OnConnected : Conn -> option nerr) (OnMessage : Conn -> MessageFrame -> option nerr)
        (select_done : Conn -> bool) (writeRaw : Conn -> list Z -> option nerr).
Abbreviation onProcess := (onProcess OnConnected OnMessage select_done).
Abbreviation processFrame := (processFrame OnConnected OnMessage select_done).
Abbreviation sendFrame := (sendFrame select_done).
Implicit Types b : Conn.

(** *** The decoder on a longer buffer *)

Lemma raw_length_app data more : 4 <= zlen data -> raw_length (data ++ more) = raw_length data.
Proof. intros Hl. unfold raw_length. by rewrite take_app_le by (unfold zlen in Hl; lia). Qed.

Lemma frame_at_app data more size :
  17 <= zlen data -> size <= zlen data -> frame_at (data ++ more) size = frame_at data size.
Proof.
  unfold zlen. intros Hl Hs. unfold frame_at, slice, index.
  rewrite !app_nth1 by lia. rewrite !drop_app_le, !take_app_le by (rewrite ?length_drop; lia). done.
Qed.

(** More bytes change neither a complete frame nor an error. *)
Lemma decode_extend data more max :
  DecodeMessageFrameWithLimit data max <> (None, 0, None) ->
  DecodeMessageFrameWithLimit (data ++ more) max = DecodeMessageFrameWithLimit data max.
Proof.
  pose proof (zlen_nonneg more) as Hm0. intros Hne.
  destruct (decode_cases data max) as [[_ E]|[(Hl & Hbad & E)|[(_ & _ & E)|(Hl & Hm & Hw & Hs & E)]]];
    rewrite E in *; [done| |done|]; unfold UnifiedFrameHeaderLen in *.
  - destruct (decode_cases (data ++ more) max) as [[Hl' _]|[(_ & _ & ->)|[(_ & [Hw Hm] & _)|(_ & Hm & Hw & _)]]];
      unfold UnifiedFrameHeaderLen in *; rewrite ?zlen_app in *; rewrite ?raw_length_app in * by lia;
      [lia|done|tauto|tauto].
  - rewrite decode_complete; unfold UnifiedFrameHeaderLen; rewrite ?zlen_app, ?raw_length_app by lia; try done; [|lia|lia].
    unfold decode_body. by rewrite frame_at_app by lia.
Qed.

(** A complete frame is no longer than the buffer; what waits is shorter than
    the limit. *)
Lemma decode_consumed data max r n err :
  bytes_ok data -> DecodeMessageFrameWithLimit data max = (r, n, err) ->
  0 <= n <= zlen data /\ (n = 0 -> err = None /\ r = None /\ (17 <= max -> zlen data < max)).
Proof.
  intros Hok. pose proof (be_get_range (take 4 data) ltac:(by apply Forall_take)) as Hr.
  destruct Hr as [Hr _]. fold (raw_length data) in Hr. pose proof (zlen_nonneg data).
  destruct (decode_cases data max) as [[Hl ->]|[(Hl & _ & ->)|[(Hl & [Hw _] & ->)|(Hl & _ & _ & Hs & ->)]]];
    unfold UnifiedFrameHeaderLen, FrameSize in *.
  - intros [= <- <- <-]. split; [lia|]. intros _. split_and!; [done|done|lia].
  - intros [= <- <- <-]. split; [lia|done].
  - intros [= <- <- <-]. split; [lia|]. intros _. split_and!; [done|done|]. destruct Hw; lia.
  - intros E. assert (n = 17 + raw_length data) as ->.
    { unfold decode_body in E. repeat case_match; simplify_eq; done. }
    unfold UnifiedFrameHeaderLen in *. split; [lia|intros ?; exfalso; lia].
Qed.

(** *** Processing a byte stream *)

Lemma set_state_options b st : options (set_state b st) = options b.
Proof. done. Qed.

Lemma pushQueue_options b m : options (pushQueue select_done b m).1 = options b.
Proof. unfold pushQueue. by repeat case_match. Qed.

Lemma sendFrame_options b f : options (sendFrame b f).1 = options b.
Proof. unfold Conn.sendFrame. repeat case_match; try done. apply pushQueue_options. Qed.

Lemma handleKeyExchange_options b f :
  options (handleKeyExchange OnConnected select_done b f).1 = options b.
Proof.
  unfold handleKeyExchange, CompareAndSwap. destruct (decide _); [|done]. simpl.
  set (p := if decide _ then _ else _).
  assert (Hp : options p.1 = options b).
  { unfold p. destruct (decide _); [|done]. unfold sendExchangeKey. by rewrite sendFrame_options. }
  destruct p as [b1 [err|]]; [done|]. simpl in Hp. destruct (cipher b1) as [c|]; [|done].
  destruct (GenerateSharedKey c _) as [c'|]; [|done]. unfold onReady. by destruct (OnConnected _).
Qed.

Lemma processFrame_options b f : options (processFrame b f).1 = options b.
Proof.
  unfold Conn.processFrame. repeat case_match; try done. apply handleKeyExchange_options.
Qed.

Lemma onProcess_options b now data : options (onProcess b now data).1.1 = options b.
Proof.
  unfold Conn.onProcess.
  destruct (DecodeMessageFrameWithLimit data _) as [[[frame|] n] [err|]]; try done.
  destruct (n =? 0); [done|]. destruct (prepareMessageFrame _ frame) as [frame'|]; [|done].
  pose proof (processFrame_options (touch b now) frame') as Hp.
  by destruct (processFrame (touch b now) frame').
Qed.

(** What a call of onProcess does on a buffer does not depend on what follows. *)
Lemma onProcess_extend b now data more b' n err :
  onProcess b now data = (b', n, err) -> n <> 0 \/ err <> None ->
  onProcess b now (data ++ more) = (b', n, err).
Proof.
  unfold Conn.onProcess. intros E Hn.
  destruct (decide (DecodeMessageFrameWithLimit data (MaxInboundSize (options b)) = (None, 0, None))) as [Hd|Hd].
  - rewrite Hd in E. simplify_eq. by destruct Hn.
  - by rewrite decode_extend.
Qed.

Lemma onProcess_consumed b now data b' n err :
  bytes_ok data -> onProcess b now data = (b', n, err) ->
  0 <= n <= zlen data /\
  (n = 0 -> err = None /\ b' = b /\ (17 <= MaxInboundSize (options b) -> zlen data < MaxInboundSize (options b))).
Proof.
  intros Hok. unfold Conn.onProcess.
  destruct (DecodeMessageFrameWithLimit data _) as [[r k] e] eqn:Hd.
  destruct (decode_consumed _ _ _ _ _ Hok Hd) as [Hk Hz].
  assert (Hcase : k <> 0 \/ (k = 0 /\ e = None /\ r = None /\
            (17 <= MaxInboundSize (options b) -> zlen data < MaxInboundSize (options b)))).
  { destruct (decide (k = 0)) as [Hk0|]; [right; split; [done|by apply Hz]|by left]. }
  destruct Hcase as [Hk0|(-> & -> & -> & Hl)].
  - intros E. assert (n = k) as ->.
    { destruct r as [frame|], e; [by simplify_eq| |by simplify_eq|by simplify_eq].
      rewrite (proj2 (Z.eqb_neq _ _) Hk0) in E.
      destruct (prepareMessageFrame _ _); [|by simplify_eq].
      destruct (processFrame _ _); by simplify_eq. }
    split; [lia|intros ?; exfalso; lia].
  - intros [= <- <- <-]. split; [lia|]. done.
Qed.

(** The loop of processReadBuffer on the bytes themselves. *)
Inductive stream (now : Z) : Conn -> list Z -> Conn -> list Z -> option nerr -> Prop :=
| stream_error b data b' n e :
    onProcess b now data = (b', n, Some e) -> stream now b data b' data (Some e)
| stream_wait b data b' :
    onProcess b now data = (b', 0, None) -> stream now b data b' data None
| stream_next b data b1 n b' rest err :
    onProcess b now data = (b1, n, None) -> n <> 0 ->
    stream now b1 (drop (Z.to_nat n) data) b' rest err -> stream now b data b' rest err.

Lemma stream_options now b data b' rest err : stream now b data b' rest err -> options b' = options b.
Proof.
  induction 1 as [b data b' n e E|b data b' E|b data b1 n b' rest err E _ _ IH];
    pose proof (onProcess_options b now data) as Ho; rewrite E in Ho; simpl in Ho; congruence.
Qed.

(** What is left waits for the rest of its frame. *)
Lemma stream_rest_short now b data b' rest :
  stream now b data b' rest None -> bytes_ok data -> 17 <= MaxInboundSize (options b) ->
  bytes_ok rest /\ zlen rest < MaxInboundSize (options b).
Proof.
  intros Hs. remember None as err eqn:He. revert He.
  induction Hs as [|b data b' E|b data b1 n b' rest err E Hn Hs IH]; intros He Hok Hmax; [done| |].
  - apply (onProcess_consumed _ _ _ _ _ _ Hok) in E as [_ Hz]. destruct (Hz eq_refl) as (_ & _ & Hl). auto.
  - pose proof (onProcess_options b now data) as Ho. rewrite E in Ho. simpl in Ho.
    rewrite <- Ho in *. apply IH; [done|by apply Forall_drop|done].
Qed.

(** The stream ends somewhere, whatever it is. *)
Lemma stream_total now b data : bytes_ok data -> exists b' rest err, stream now b data b' rest err.
Proof.
  remember (length data) as k eqn:Hk. revert b data Hk. induction (lt_wf k) as [k _ IH]. intros b data Hk Hok.
  destruct (onProcess b now data) as [[b1 n] [e|]] eqn:E; [by exists b1, data, (Some e); eapply stream_error|].
  destruct (decide (n = 0)) as [->|Hn]; [by exists b1, data, None; apply stream_wait|].
  destruct (onProcess_consumed _ _ _ _ _ _ Hok E) as [Hle _].
  destruct (IH (length (drop (Z.to_nat n) data))) with (b := b1) (data := drop (Z.to_nat n) data) as (b' & rest & err & Hs);
    [unfold zlen in Hle; rewrite length_drop; lia|done|by apply Forall_drop|].
  exists b', rest, err. by eapply stream_next.
Qed.

(** Splitting the stream anywhere does not change what is delivered, nor its error. *)
Lemma stream_app now b xs ys b2 r2 err :
  bytes_ok xs -> stream now b (xs ++ ys) b2 r2 err ->
  (exists b1 r1, stream now b xs b1 r1 None /\ bytes_ok r1 /\ stream now b1 (r1 ++ ys) b2 r2 err) \/
  (exists e r1, err = Some e /\ stream now b xs b2 r1 (Some e)).
Proof.
  remember (length xs) as k eqn:Hk. revert b xs Hk.
  induction (lt_wf k) as [k _ IH]. intros b xs Hk Hok Hs.
  destruct (onProcess b now xs) as [[b1 n] err1] eqn:E.
  destruct (onProcess_consumed _ _ _ _ _ _ Hok E) as [Hn Hz].
  destruct (decide (n = 0)) as [->|Hn0].
  - destruct (Hz eq_refl) as (-> & -> & _). left. exists b, xs. split; [by apply stream_wait|]. done.
  - pose proof (onProcess_extend b now xs ys b1 n err1 E (or_introl Hn0)) as E'.
    inversion Hs as [? ? ? ? e Ew|? ? ? Ew|? ? b3 m ? ? ? Ew Hm Hs']; subst; rewrite E' in Ew; simplify_eq.
    + right. exists e, xs. split; [done|]. by eapply stream_error.
    + rewrite drop_app_le in Hs' by (unfold zlen in Hn; lia).
      destruct (IH (length (drop (Z.to_nat m) xs))) with (b := b3) (xs := drop (Z.to_nat m) xs)
        as [(b4 & r4 & H1 & H2 & H3)|(e & r1 & -> & H1)];
        [unfold zlen in Hn; rewrite length_drop; lia|done|by apply Forall_drop|done| |].
      * left. exists b4, r4. split; [by eapply stream_next|done].
      * right. exists e, r1. split; [done|]. by eapply stream_next.
Qed.

(** *** The read loop *)

(** The buffer loop follows the stream. *)
Lemma processReadBuffer_stream now b data b' rest err :
  stream now b data b' rest err -> forall buf fuel,
  buf_wf buf -> Bytes buf = data -> bytes_ok data -> (length data < fuel)%nat ->
  exists buf', processReadBuffer_loop OnConnected OnMessage select_done fuel b now buf = Some (b', buf', err) /\
    buf_wf buf' /\ Bytes buf' = rest /\ b_maxCap buf' = b_maxCap buf.
Proof.
  induction 1 as [b data b' n e E|b data b' E|b data b1 n b' rest err E Hn _ IH];
    intros buf fuel Hwf HB Hok Hf; (destruct fuel as [|fuel]; [lia|]); cbn [processReadBuffer_loop];
    rewrite HB, E.
  - by exists buf.
  - pose proof (Bytes_len buf Hwf). rewrite HB in *. pose proof (zlen_nonneg data).
    rewrite Z.gtb_ltb, (proj2 (Z.ltb_ge (Len buf) 0)) by lia. by exists buf.
  - pose proof (Bytes_len buf Hwf) as HL. rewrite HB in HL.
    destruct (onProcess_consumed _ _ _ _ _ _ Hok E) as [Hle _].
    rewrite Z.gtb_ltb, (proj2 (Z.ltb_ge n 0)), (proj2 (Z.ltb_ge (Len buf) n)), (proj2 (Z.eqb_neq n 0)) by lia.
    cbn [orb]. destruct (peek_skip_simulates buf n Hwf) as [_ Hskip]. unfold simulates in Hskip.
    cbn [exec queue_exec] in Hskip. rewrite HB in Hskip.
    rewrite (proj2 (Z.leb_gt n 0)), (proj2 (Z.ltb_ge (zlen data) n)) in Hskip by lia.
    destruct (Skip buf n) as [buf1 e]. destruct Hskip as ([= ->] & Hwf1 & HB1 & Hm1).
    destruct (IH buf1 fuel Hwf1 HB1) as (buf' & H1 & H2 & H3 & H4);
      [by apply Forall_drop|rewrite length_drop; unfold zlen in *; lia|].
    exists buf'. rewrite H4, Hm1. done.
Qed.

Definition chunk_ok (c : list Z) : Prop := 0 < zlen c <= tcpReadChunkSize /\ bytes_ok c.

Lemma stream_end now b data b' rest :
  stream now b data b' rest None -> bytes_ok data -> onProcess b' now rest = (b', 0, None).
Proof.
  intros Hs. remember None as err eqn:He. revert He.
  induction Hs as [|b data b' E|b data b1 n b' rest err E Hn Hs IH]; intros He Hok; [done| |].
  - destruct (onProcess_consumed _ _ _ _ _ _ Hok E) as [_ Hz]. by destruct (Hz eq_refl) as (_ & -> & _).
  - apply IH; [done|by apply Forall_drop].
Qed.

(** One read: the chunk fits, and the stream goes on from what was left. *)
Lemma on_read_stream now b buf c b1 r1 err :
  buf_wf buf -> bytes_ok (Bytes buf) -> chunk_ok c ->
  zlen (Bytes buf) + zlen c <= b_maxCap buf ->
  stream now b (Bytes buf ++ c) b1 r1 err ->
  exists buf', on_read OnConnected OnMessage select_done b now buf c = Some (b1, buf', err) /\
    buf_wf buf' /\ Bytes buf' = r1 /\ b_maxCap buf' = b_maxCap buf.
Proof.
  intros Hwf Hok [Hc Hcok] Hcap Hs. unfold on_read. rewrite (proj2 (Z.eqb_neq (zlen c) 0)) by lia.
  pose proof (write_simulates buf c Hwf) as Hw. unfold simulates in Hw. cbn [exec queue_exec] in Hw.
  rewrite (proj2 (Z.leb_le _ _)) in Hw by done.
  destruct (Write buf c) as [[buf1 n] e]. destruct Hw as ([= -> ->] & Hwf1 & HB1 & Hm1).
  destruct (processReadBuffer_stream _ _ _ _ _ _ Hs buf1 (Datatypes.S (length (Bytes buf1))) Hwf1 HB1) as (buf' & H1 & H2 & H3 & H4);
    [by apply Forall_app|rewrite HB1; lia|].
  exists buf'. unfold processReadBuffer. rewrite H1, H4, Hm1. done.
Qed.

(** What readLoop leaves in the connection when its stream ends with [err]. *)
Definition ended (b : Conn) (err : option nerr) : Conn :=
  match err with Some e => Close b (Some e) | None => b end.

Lemma readLoop_stream now chunks :
  Forall chunk_ok chunks -> forall b buf b' rest err,
  buf_wf buf -> bytes_ok (Bytes buf) -> zlen (Bytes buf) < MaxInboundSize (options b) ->
  17 <= MaxInboundSize (options b) ->
  MaxInboundSize (options b) + tcpReadChunkSize <= b_maxCap buf ->
  onProcess b now (Bytes buf) = (b, 0, None) ->
  stream now b (Bytes buf ++ concat chunks) b' rest err ->
  exists buf', readLoop OnConnected OnMessage select_done b now buf chunks = Some (ended b' err, buf', err) /\
    (err = None -> Bytes buf' = rest).
Proof.
  induction 1 as [|c chunks Hc _ IH]; intros b buf b' rest err Hwf Hok Hlen Hmax Hcap Hwait Hs; simpl in *.
  - rewrite app_nil_r in Hs. exists buf.
    inversion Hs as [? ? ? ? ? E|? ? ? E|? ? b1 n ? ? ? E Hn Hs']; subst; rewrite Hwait in E; by simplify_eq.
  - rewrite app_assoc in Hs. pose proof Hc as [Hc1 Hc2].
    apply stream_app in Hs as [(b1 & r1 & H1 & H2 & H3)|(e & r1 & -> & H1)]; [| |by apply Forall_app].
    + destruct (on_read_stream now b buf c b1 r1 None) as (buf1 & E & Hwf1 & HB1 & Hm1); try done; [lia|].
      rewrite E. pose proof (stream_options _ _ _ _ _ _ H1) as Ho.
      destruct (stream_rest_short _ _ _ _ _ H1) as [_ Hshort]; [by apply Forall_app|done|].
      rewrite <- HB1 in *. apply IH; rewrite ?Ho, ?Hm1; try done.
      eapply stream_end; [exact H1|]. by apply Forall_app.
    + destruct (on_read_stream now b buf c b' r1 (Some e)) as (buf1 & E & _); try done; [lia|].
      rewrite E. by exists buf1.
Qed.

(** [TCPConfig.Normalize] leaves room for a frame and a read. *)
Lemma TCPConfig_Normalize_room c cap c' cap' :
  TCPConfig_Normalize c cap = (c', cap') ->
  MaxInboundSize c' + tcpReadChunkSize <= cap' /\ 0 < MaxInboundSize c' /\ 0 < MaxOutboundSize c' /\
  0 < SendChanSize c' /\ second <= HeartbeatTimeout c'.
Proof.
  unfold TCPConfig_Normalize, Normalize, second, KB. intros [= <- <-]. simpl.
  repeat match goal with |- context [if ?x then _ else _] => destruct x eqn:? end; zbool; lia.
Qed.

(** A fresh buffer of that capacity reads a stream to its end, however it is cut. *)
Lemma fresh_readLoop_stream now b cap chunks b' rest err :
  MaxInboundSize (options b) + tcpReadChunkSize <= cap -> cap < 2 ^ 62 -> 17 <= MaxInboundSize (options b) ->
  Forall chunk_ok chunks -> stream now b (concat chunks) b' rest err ->
  exists buf', readLoop OnConnected OnMessage select_done b now (New cap (Some cap)) chunks = Some (ended b' err, buf', err) /\
    (err = None -> Bytes buf' = rest).
Proof.
  intros Hroom Hint Hmax Hch Hs. destruct (New_buf_wf cap (Some cap)) as [Hwf HB]; [by intros m [= <-]|].
  unfold tcpReadChunkSize, KB in *. apply (readLoop_stream now chunks Hch); rewrite ?HB; try done.
  - constructor.
  - rewrite zlen_nil. lia.
  - unfold New, tcpReadChunkSize, KB. simpl. rewrite Z.gtb_ltb, (proj2 (Z.ltb_lt 0 cap)) by lia. lia.
Qed.

Lemma chunks_bytes chunks : Forall chunk_ok chunks -> bytes_ok (concat chunks).
Proof. induction 1 as [|c chunks [_ Hc] _ IH]; [constructor|by apply Forall_app]. Qed.

(** C3: The frames a TCP connection delivers, its state and the error its read loop
    ends with do not depend on how the byte stream is cut into reads. *)
Theorem segmentation_is_invisible c cap c' cap' now b chunks1 chunks2 :
  TCPConfig_Normalize c cap = (c', cap') -> cap' < 2 ^ 62 -> 17 <= MaxInboundSize c' -> options b = c' ->
  Forall chunk_ok chunks1 -> Forall chunk_ok chunks2 -> concat chunks1 = concat chunks2 ->
  let readLoop := readLoop OnConnected OnMessage select_done b now (New cap' (Some cap')) in
  exists b' err buf1 buf2,
    readLoop chunks1 = Some (b', buf1, err) /\ readLoop chunks2 = Some (b', buf2, err) /\
    (err = None -> Bytes buf1 = Bytes buf2).
Proof.
  intros Hnorm Hint Hmax <- H1 H2 E. destruct (TCPConfig_Normalize_room _ _ _ _ Hnorm) as (Hroom & _).
  destruct (stream_total now b (concat chunks1) (chunks_bytes _ H1)) as (b' & rest & err & Hs).
  destruct (fresh_readLoop_stream now b cap' chunks1 b' rest err) as (buf1 & E1 & R1); try done.
  rewrite E in Hs. destruct (fresh_readLoop_stream now b cap' chunks2 b' rest err) as (buf2 & E2 & R2); try done.
  exists (ended b' err), err, buf1, buf2. split_and!; [done|done|]. intros He. by rewrite R1, R2.
Qed.

(** *** What one side sends, the other delivers *)

(** What a codec must do for a body, between a sender's and a receiver's. *)
Definition codec_carries (oa ob : option FrameCodec) (body : list Z) : Prop :=
  match oa, ob with
  | None, None => True
  | Some ca, Some cb =>
    forall y flags, c_Encode ca body = Ok (y, flags) ->
      c_Decode cb y flags = Ok body /\ bytes_ok y /\ is_u 8 flags
  | _, _ => False
  end.

(** Two connections that finished their handshake with each other. *)
Definition same_key (A B : Conn) : Prop :=
  EncryptEnable (options A) = EncryptEnable (options B) /\
  (EncryptEnable (options A) = true -> exists ca cb, cipher A = Some ca /\ cipher B = Some cb /\
    sharedKey ca = sharedKey cb /\ bytes_ok (sharedKey ca)).
Definition peers (A B : Conn) : Prop :=
  state A = ConnectionStateReady /\ state B = ConnectionStateReady /\ same_key A B.

Definition carried (A B : Conn) (f : MessageFrame) : Prop :=
  frame_typed f /\ codec_carries (o_Codec (options A)) (o_Codec (options B)) (f_Body f).

(** What a handler gets to see of a frame. *)
Definition content (f : MessageFrame) := (f_Cmd f, f_Act f, f_Error f, f_Index f, f_Body f).

Lemma encrypt_decrypt A B x y :
  peers A B -> bytes_ok x -> encrypt A x = Ok y -> decrypt B y = Ok x /\ bytes_ok y.
Proof.
  intros (HA & HB & HE & HK) Hx. unfold encrypt, decrypt. rewrite HA, HB, HE. cbn [bool_decide negb].
  rewrite !bool_decide_eq_true_2 by done. cbn [negb].
  destruct (EncryptEnable (options B)) eqn:Ee; cbn [negb]; [|by intros [= <-]].
  destruct (HK HE) as (ca & cb & Hca & Hcb & Hk & Hb). unfold run_cipher. rewrite Hca, Hcb.
  destruct (Encrypt ca x) as [z|e] eqn:E; [|done]. intros [= <-]. unfold Encrypt in E.
  destruct (crypt_inverse ca x false z Hb Hx E) as (Hz & _ & Hd). split; [|done].
  unfold Decrypt. assert (crypt cb z true = crypt ca z true) as -> by (unfold crypt; by rewrite Hk).
  simpl in Hd. by rewrite Hd.
Qed.

(** Preparing a received frame undoes what sendFrame did to its body. *)
Lemma prepare_encoded A B f g crc :
  carried A B f -> (IsInternalCommand (f_Cmd f) = false -> peers A B) ->
  encode_body A f = Ok g ->
  frame_typed g /\ f_Cmd g = f_Cmd f /\
  exists h, prepareMessageFrame B (with_crc g crc) = Ok h /\ content h = content f.
Proof.
  intros [Hty Hcar] Hp. destruct Hty as (H1 & H2 & H3 & H4 & H5 & H6). unfold encode_body.
  set (coded := match o_Codec (options A) with None => _ | Some _ => _ end).
  assert (Hc : forall f1, coded = Ok f1 -> frame_typed f1 /\
            f_Cmd f1 = f_Cmd f /\ f_Act f1 = f_Act f /\ f_Error f1 = f_Error f /\ f_Index f1 = f_Index f /\
            (forall f2, f_Cmd f2 = f_Cmd f /\ f_Act f2 = f_Act f /\ f_Error f2 = f_Error f /\ f_Index f2 = f_Index f ->
               f_Flags f2 = f_Flags f1 -> f_Body f2 = f_Body f1 ->
               exists h, (match o_Codec (options B) with
                          | None => Ok f2
                          | Some codec => match c_Decode codec (f_Body f2) (f_Flags f2) with
                                          | Err e => Err (NCodec e) | Ok body => Ok (with_Body f2 body) end
                          end) = Ok h /\ content h = content f)).
  { unfold coded. unfold codec_carries in Hcar. intros f1.
    destruct (o_Codec (options A)) as [ca|], (o_Codec (options B)) as [cb|]; try done.
    - destruct (c_Encode ca (f_Body f)) as [[y fl]|e] eqn:E; [|done].
      destruct (Hcar y fl eq_refl) as (Hd & Hy & Hfl). intros [= <-].
      split_and!; try done. simpl. intros f2 (E1 & E2 & E3 & E4) Efl Eb. rewrite Efl, Eb, Hd.
      eexists. split; [reflexivity|]. unfold content. simpl. congruence.
    - intros [= <-]. split_and!; try done. intros f2 (E1 & E2 & E3 & E4) Efl Eb.
      exists f2. split; [done|]. unfold content. congruence. }
  destruct coded as [f1|e]; [|done]. destruct (Hc f1 eq_refl) as (Hty1 & E1 & E2 & E3 & E4 & Hrest).
  unfold prepareMessageFrame. rewrite E1. destruct (IsInternalCommand (f_Cmd f)) eqn:Hint; cbn [negb].
  - intros [= <-]. split_and!; try done. cbn [with_crc f_Cmd]. rewrite E1, Hint. cbn [negb].
    apply Hrest; done.
  - destruct (encrypt A (f_Body f1)) as [y|e] eqn:Ey; [|done]. intros [= <-].
    destruct (encrypt_decrypt A B (f_Body f1) y (Hp eq_refl)) as [Hd Hy];
      [by destruct Hty1 as (?&?&?&?&?&?)|done|].
    destruct Hty1 as (T1 & T2 & T3 & T4 & T5 & T6). split_and!; try done.
    cbn [with_crc with_Body f_Cmd f_Body]. rewrite E1, Hint, Hd. cbn [negb]. apply Hrest; done.
Qed.

(** A frame accepted by sendFrame is one entry of the send queue, and decodes
    at the front of the peer's buffer. *)
Lemma sendFrame_received A B f A' :
  carried A B f -> (IsInternalCommand (f_Cmd f) = false -> peers A B) ->
  sendFrame A (Some f) = (A', None) ->
  exists bytes h, A' = set_send A (sendChannel A ++ [bytes]) /\ bytes_ok bytes /\ zlen bytes <> 0 /\ content h = content f /\
    (within_limit (MaxInboundSize (options B)) (zlen bytes) -> forall now rest,
     let '(B', err) := processFrame (touch B now) h in
     onProcess B now (bytes ++ rest) = (B', zlen bytes, err)).
Proof.
  intros Hc Hp. unfold Conn.sendFrame. destruct (encode_body A f) as [g|e] eqn:Eg; [|done].
  destruct (EncodeMessageFrameWithLimit g _) as [bytes|e] eqn:Eb; [|done]. intros Hpush.
  destruct (prepare_encoded A B f g (ChecksumIEEE (f_Body g)) Hc Hp Eg) as (Hty & Hcmd & h & Hprep & Hcont).
  assert (Hz : zlen bytes <> 0).
  { apply encode_ok_inv in Eb as (_ & _ & _ & ->). rewrite zlen_encoded.
    unfold FrameSize, UnifiedFrameHeaderLen. pose proof (zlen_nonneg (f_Body g)). lia. }
  exists bytes, h. split_and!; [|pose proof Eb as Eb'|done|done|].
  - unfold pushQueue in Hpush. repeat case_match; by simplify_eq.
  - apply encode_ok_inv in Eb' as (_ & _ & _ & ->). apply Forall_app.
    split; [by apply frame_header_bytes|]. by destruct Hty as (?&?&?&?&?&?).
  - intros Hlim now rest. pose proof (decode_encoded g _ _ bytes rest Hty Eb Hlim) as Hd.
    unfold Conn.onProcess. rewrite Hd.
    rewrite (proj2 (Z.eqb_neq _ _) Hz).
    assert (prepareMessageFrame (touch B now) (with_crc g (ChecksumIEEE (f_Body g))) = Ok h) as -> by done.
    by destruct (processFrame (touch B now) h).
Qed.

Fixpoint send_all (A : Conn) (fs : list MessageFrame) : Conn * option nerr :=
  match fs with
  | [] => (A, None)
  | f :: fs => match SendMessage select_done A (Some f) with
               | (A, Some err) => (A, Some err)
               | (A, None) => send_all A fs
               end
  end.

Lemma send_all_stream A B fs A' :
  peers A B -> Forall (fun f => carried A B f /\ IsInternalCommand (f_Cmd f) = false) fs ->
  (forall b f, OnMessage b f = None) -> send_all A fs = (A', None) ->
  exists wires, sendChannel A' = sendChannel A ++ wires /\
    (Forall (fun w => within_limit (MaxInboundSize (options B)) (zlen w)) wires -> forall now,
     exists B' hs, stream now B (concat wires) B' [] None /\
       delivered B' = delivered B ++ hs /\ content <$> hs = content <$> fs).
Proof.
  intros Hp Hfs Hok. revert A B Hp Hfs. induction fs as [|f fs IH]; intros A B Hp Hfs; simpl.
  - intros [= <-]. exists []. rewrite app_nil_r. split; [done|]. intros _ now. exists B, [].
    rewrite app_nil_r. split_and!; [|done|done]. apply stream_wait. unfold Conn.onProcess.
    destruct (decode_cases [] (MaxInboundSize (options B))) as [[_ ->]|[[Hl _]|[[Hl _]|[Hl _]]]];
      [done|..]; unfold UnifiedFrameHeaderLen in Hl; change (zlen []) with 0 in Hl; lia.
  - apply Forall_cons in Hfs as [[Hc Hbus] Hfs].
    unfold SendMessage. rewrite decide_False by (by destruct Hp as (-> & _)).
    destruct (sendFrame A (Some f)) as [A1 [err|]] eqn:E; [done|]. intros Hrest.
    destruct (sendFrame_received A B f A1 Hc (fun _ => Hp) E) as (w & h & -> & Hw & Hwz & Hcont & Hon).
    set (B1 := fun now => deliver (touch B now) h).
    assert (Hp1 : forall now, peers (set_send A (sendChannel A ++ [w])) (B1 now)) by (intros ?; exact Hp).
    destruct (IH (set_send A (sendChannel A ++ [w])) (B1 0) (Hp1 0) Hfs Hrest) as (wires & Hq & _).
    exists (w :: wires). simpl in Hq. split; [by rewrite Hq, <- app_assoc|].
    intros Hlim now. apply Forall_cons in Hlim as [Hlw Hlim].
    destruct (IH (set_send A (sendChannel A ++ [w])) (B1 now) (Hp1 now) Hfs Hrest) as (wires' & Hq' & Hs).
    assert (wires' = wires) as -> by (rewrite Hq in Hq'; by apply app_inv_head in Hq').
    destruct (Hs Hlim now) as (B' & hs & Hstream & Hdel & Hcs).
    exists B', (h :: hs). specialize (Hon Hlw now (concat wires)). unfold Conn.processFrame in Hon.
    assert (Hcmd : f_Cmd h = f_Cmd f) by (unfold content in Hcont; congruence).
    rewrite Hcmd, Hbus in Hon. cbn [touch state] in Hon. destruct Hp as (HA & HB & HK).
    rewrite (bool_decide_eq_true_2 _ HB), Hok in Hon. cbn [negb] in Hon.
    split_and!.
    + simpl. eapply stream_next; [exact Hon|done|].
      by rewrite drop_app_len by (unfold zlen; lia).
    + rewrite Hdel. simpl. by rewrite <- app_assoc.
    + by rewrite !fmap_cons, Hcont, Hcs.
Qed.

(** Messages sent by one end of a ready connection, coded, encrypted and framed, are
    delivered by the other end's read loop in order with their original bodies. *)
Theorem sent_messages_arrive_in_order c cap c' cap' A B fs A' :
  TCPConfig_Normalize c cap = (c', cap') -> cap' < 2 ^ 62 -> 17 <= MaxInboundSize c' -> options B = c' ->
  peers A B -> Forall (fun f => carried A B f /\ IsInternalCommand (f_Cmd f) = false) fs ->
  (forall b f, OnMessage b f = None) -> send_all A fs = (A', None) ->
  exists wires, sendChannel A' = sendChannel A ++ wires /\
    (Forall (fun w => zlen w <= MaxInboundSize c') wires -> forall now chunks,
     Forall chunk_ok chunks -> concat chunks = concat wires ->
     exists B' buf' hs,
       readLoop OnConnected OnMessage select_done B now (New cap' (Some cap')) chunks = Some (B', buf', None) /\
       Bytes buf' = [] /\ delivered B' = delivered B ++ hs /\ content <$> hs = content <$> fs).
Proof.
  intros Hnorm Hint Hmax Ho Hp Hfs Hok Hsend.
  destruct (send_all_stream A B fs A' Hp Hfs Hok Hsend) as (wires & Hq & Hs). exists wires. split; [done|].
  intros Hlim now chunks Hch Heq. destruct (Hs ltac:(by eapply Forall_impl; [|intros w Hw; right; rewrite Ho; exact Hw]) now)
    as (B' & hs & Hstream & Hdel & Hcs).
  destruct (TCPConfig_Normalize_room _ _ _ _ Hnorm) as (Hroom & _). rewrite <- Heq in Hstream. rewrite <- Ho in Hroom, Hmax.
  destruct (fresh_readLoop_stream now B cap' chunks B' [] None) as (buf' & Hr & HB'); try done.
  exists B', buf', hs. rewrite HB' by done. done.
Qed.

(** The frame with a public key fits the limits of both ends. *)
Definition key_frame_fits (o : CommonConfig) (pub : list Z) : Prop :=
  let fits body := FrameSize (zlen body) <= MaxOutboundSize o /\ FrameSize (zlen body) <= MaxInboundSize o /\
                   FrameSize (zlen body) <= MaxInt32 in
  match o_Codec o with
  | None => fits pub
  | Some c => exists y flags, c_Encode c pub = Ok (y, flags) /\ c_Decode c y flags = Ok pub /\
                              bytes_ok y /\ is_u 8 flags /\ fits y
  end.

Lemma key_frame_sent (b : Conn) c :
  cipher b = Some c -> bytes_ok (publicKey c) -> key_frame_fits (options b) (publicKey c) ->
  cancelled b = false -> sendChannel b = [] -> 0 < SendChanSize (options b) ->
  exists w, sendExchangeKey select_done b = (set_send b [w], None) /\
    forall B now, options B = options b ->
    exists h, f_Body h = publicKey c /\ zlen w <> 0 /\
      onProcess B now w =
      (let '(B', err) := handleKeyExchange OnConnected select_done (touch B now) h in (B', zlen w, err)).
Proof.
  intros Hc Hpub Hfits Hcan Hq Hsz. set (f := mkFrame InternalCmd InternalKeyExchange 0 0 0 0 (publicKey c)).
  assert (Hcar : carried b b f).
  { split; [by unfold frame_typed, f, is_u; simpl; split_and!; try lia|].
    unfold codec_carries, key_frame_fits in *. simpl.
    destruct (o_Codec (options b)) as [k|]; [|done].
    destruct Hfits as (y & fl & E & Hd & Hy & Hfl & _). intros y' fl' E'. rewrite E in E'. by simplify_eq. }
  assert (Henc : exists g, encode_body b f = Ok g /\ validate_command (f_Cmd g) (f_Act g) = None /\
            FrameSize (zlen (f_Body g)) <= MaxOutboundSize (options b) /\
            FrameSize (zlen (f_Body g)) <= MaxInboundSize (options b) /\
            FrameSize (zlen (f_Body g)) <= MaxInt32).
  { unfold encode_body, key_frame_fits in *. destruct (o_Codec (options b)) as [k|]; simpl.
    - destruct Hfits as (y & fl & E & _ & _ & _ & Hf). rewrite E. simpl. by eexists.
    - by eexists. }
  destruct Henc as (g & Eg & Hval & Ho & Hi & Hm).
  assert (Eb : EncodeMessageFrameWithLimit g (MaxOutboundSize (options b)) = Ok (frame_header g ++ f_Body g)).
  { unfold EncodeMessageFrameWithLimit. rewrite Hval, Z.gtb_ltb, (proj2 (Z.ltb_ge _ _)) by lia.
    rewrite limit_guard_false by lia. done. }
  assert (Hsend : sendExchangeKey select_done b = (set_send b [frame_header g ++ f_Body g], None)).
  { unfold sendExchangeKey, public_key. rewrite Hc. fold f. unfold Conn.sendFrame. rewrite Eg, Eb.
    unfold pushQueue. rewrite Hcan, Hq. cbn [andb]. rewrite zlen_nil.
    by rewrite (proj2 (Z.leb_gt _ _)) by lia. }
  exists (frame_header g ++ f_Body g). split; [exact Hsend|]. intros B now HoB.
  assert (Hcar' : carried b B f) by (unfold carried in *; by rewrite HoB).
  unfold sendExchangeKey, public_key in Hsend. rewrite Hc in Hsend. fold f in Hsend.
  destruct (sendFrame_received b B f _ Hcar' ltac:(done) Hsend) as (w & h & Hw & _ & Hwz & Hcont & Hon).
  apply (f_equal sendChannel) in Hw. simpl in Hw. rewrite Hq in Hw. simpl in Hw.
  assert (w = frame_header g ++ f_Body g) as -> by (by injection Hw).
  exists h. unfold content in Hcont. simpl in Hcont. injection Hcont as E1 E2 _ _ E5. split_and!; [done|done|].
  rewrite zlen_encoded, HoB in Hon. specialize (Hon (or_intror Hi) now []). rewrite app_nil_r in Hon.
  rewrite <- zlen_encoded in Hon. unfold Conn.processFrame in Hon. rewrite E1, E2 in Hon. cbn in Hon. 
  by destruct (handleKeyExchange OnConnected select_done (touch B now) h).
Qed.

Lemma NewECDHCipher_agree s1 s2 c1 c2 key :
  NewECDHCipher s1 = Ok c1 -> NewECDHCipher s2 = Ok c2 ->
  ka_derive (privateKey c1) (publicKey c2) = Ok key -> ka_derive (privateKey c2) (publicKey c1) = Ok key.
Proof.
  pose proof (ka_agree s1 s2) as Ha. unfold NewECDHCipher.
  destruct (ka_generate s1) as [[priv1 pub1]|], (ka_generate s2) as [[priv2 pub2]|]; try done.
  intros [= <-] [= <-]. simpl. by rewrite (Ha _ _ _ _ eq_refl eq_refl).
Qed.

Lemma NewECDHCipher_new s c : NewECDHCipher s = Ok c -> bytes_ok (publicKey c) /\ sharedKey c = [].
Proof.
  pose proof (ka_pub_bytes s) as Hb. unfold NewECDHCipher. destruct (ka_generate s) as [[priv pub]|]; [|done].
  intros [= <-]. split; [by eapply Hb|done].
Qed.

(** C23: The encrypted handshake leaves both ends ready with the same shared key. *)
Theorem handshake_agrees o s1 s2 c1 c2 key t0 now :
  EncryptEnable o = true -> 0 < SendChanSize o ->
  NewECDHCipher s1 = Ok c1 -> NewECDHCipher s2 = Ok c2 ->
  key_frame_fits o (publicKey c1) -> key_frame_fits o (publicKey c2) ->
  ka_derive (privateKey c1) (publicKey c2) = Ok key ->
  (forall b, OnConnected b = None) ->
  let C0 := newBaseConnWithRole o ConnectionRoleClient t0 in
  let S0 := newBaseConnWithRole o ConnectionRoleServer t0 in
  exists C1 S1 S2 C2 k1 k2,
    start OnConnected select_done C0 s1 = (C1, None) /\ sendChannel C1 = [k1] /\
    start OnConnected select_done S0 s2 = (S1, None) /\ sendChannel S1 = [] /\
    onProcess S1 now k1 = (S2, zlen k1, None) /\ sendChannel S2 = [k2] /\
    onProcess C1 now k2 = (C2, zlen k2, None) /\
    peers C2 S2 /\ (exists c, cipher C2 = Some c /\ sharedKey c = key) /\
    readyCh_closed C2 = true /\ readyCh_closed S2 = true.
Proof.
  intros He Hsz Hc1 Hc2 Hf1 Hf2 Hkey Hconn C0 S0.
  destruct (NewECDHCipher_new _ _ Hc1) as [Hp1 Hn1], (NewECDHCipher_new _ _ Hc2) as [Hp2 Hn2].
  set (Ch := set_cipher (set_state C0 ConnectionStateHandshaking) c1).
  set (S1 := set_timer (set_cipher (set_state S0 ConnectionStateHandshaking) c2) true).
  destruct (key_frame_sent Ch c1) as (k1 & Hk1 & Hr1); try done.
  destruct (Hr1 S1 now eq_refl) as (h1 & Hb1 & Hz1 & Hon1).
  set (C1 := set_timer (set_send Ch [k1]) true).
  assert (HC : start OnConnected select_done C0 s1 = (C1, None)).
  { unfold start, CompareAndSwap. rewrite decide_True by done. cbn [set_state options C0 newBaseConnWithRole].
    rewrite He. cbn [negb]. unfold startHandshake. rewrite Hc1. fold C0. fold Ch. rewrite decide_True by done. by rewrite Hk1. }
  assert (HS : start OnConnected select_done S0 s2 = (S1, None)).
  { unfold start, CompareAndSwap. rewrite decide_True by done. cbn [set_state options S0 newBaseConnWithRole].
    rewrite He. cbn [negb]. unfold startHandshake. rewrite Hc2. rewrite decide_False by done. done. }
  set (Sr := set_state (touch S1 now) ConnectionStateReady).
  destruct (key_frame_sent Sr c2) as (k2 & Hk2 & Hr2); try done.
  destruct (Hr2 C1 now eq_refl) as (h2 & Hb2 & Hz2 & Hon2).
  pose proof (NewECDHCipher_agree _ _ _ _ _ Hc1 Hc2 Hkey) as Hkey'.
  unfold handleKeyExchange, CompareAndSwap in Hon1, Hon2.
  rewrite decide_True in Hon1, Hon2 by done. cbn [role set_state touch] in Hon1, Hon2.
  rewrite decide_True in Hon1 by done. fold (touch S1 now) in Hon1.
  change (set_state (touch S1 now) ConnectionStateReady) with Sr in Hon1. rewrite Hk2 in Hon1.
  rewrite decide_False in Hon2 by done.
  cbn [cipher set_send Sr set_state touch S1 set_timer set_cipher put_cipher] in Hon1.
  cbn [cipher set_send Ch set_state touch C1 set_timer set_cipher put_cipher] in Hon2.
  unfold GenerateSharedKey in Hon1, Hon2. rewrite Hb1, Hkey' in Hon1. rewrite Hb2, Hkey in Hon2.
  unfold onReady in Hon1, Hon2. rewrite Hconn in Hon1, Hon2.
  do 6 eexists. split_and!; [exact HC|reflexivity|exact HS|reflexivity|exact Hon1|reflexivity|exact Hon2| | |done|done].
  - split_and!; [done|done|]. split; [done|]. intros _. do 2 eexists.
    split_and!; [reflexivity|reflexivity|done|]. simpl. by apply (ka_size _ _ _ Hkey).
  - eexists. split; [reflexivity|done].
Qed.

(** *** The state machine *)

(** Everything the connection's goroutines, timers and users do to it. *)
Inductive conn_op :=
| COStart (seed : Z) | COSend (frame : option MessageFrame) | COReceive (now : Z) (data : list Z)
| COClose (err : option nerr) | COTimeout | COWrite (e : write_event) | COExit (err : option nerr).

Definition conn_step (b : Conn) (o : conn_op) : Conn :=
  match o with
  | COStart seed => (runStart OnConnected select_done b seed).1
  | COSend frame => (SendMessage select_done b frame).1
  | COReceive now data => (onProcess b now data).1.1
  | COClose err => Close b err
  | COTimeout => handshake_timeout b
  | COWrite e => match write_iteration writeRaw b e with Some (b, _) => b | None => b end
  | COExit err => write_loop_exit writeRaw b err
  end.

Definition rank (st : ConnectionState) : Z :=
  match st with
  | ConnectionStateCreated => 0 | ConnectionStateHandshaking => 1
  | ConnectionStateReady => 2 | ConnectionStateClosed => 3
  end.

(** The state only moves forward; a closed connection keeps its reason and
    hands nothing to the handler; frames reach the handler only when ready, and
    OnConnected runs only on entering that state. *)
Record advances (b b' : Conn) : Prop := {
  adv_rank : rank (state b) <= rank (state b');
  adv_closed : state b = ConnectionStateClosed -> closeErr b' = closeErr b /\ connected b' = connected b;
  adv_delivered : delivered b' = delivered b \/
    (exists f, delivered b' = delivered b ++ [f] /\ IsInternalCommand (f_Cmd f) = false /\
               state b = ConnectionStateReady);
  adv_connected : connected b' = connected b \/ (rank (state b) < 2 <= rank (state b'))
}.

Definition same_but_queue (b b' : Conn) : Prop :=
  state b' = state b /\ closeErr b' = closeErr b /\ delivered b' = delivered b /\ connected b' = connected b.

Lemma same_advances b b' : same_but_queue b b' -> advances b b'.
Proof. intros (H1 & H2 & H3 & H4). split; rewrite ?H1, ?H2, ?H3, ?H4; auto; lia. Qed.

Lemma sendFrame_same b f : same_but_queue b (sendFrame b f).1.
Proof. unfold Conn.sendFrame, pushQueue. repeat case_match; done. Qed.

Lemma Close_advances b b' err : advances b b' -> advances b (Close b' err).
Proof.
  intros [H1 H2 H3 H4]. unfold Close. destruct (decide _) as [|Hne]; [done|].
  split; simpl; auto.
  - destruct (state b); simpl; lia.
  - intros Hc. exfalso. rewrite Hc in H1. destruct (state b'); simpl in *; try lia; done.
  - destruct H4 as [?|?]; [auto|right; lia].
Qed.

Lemma onReady_advances b b0 :
  rank (state b0) < 2 -> state b = ConnectionStateReady -> closeErr b = closeErr b0 ->
  delivered b = delivered b0 -> advances b0 (onReady OnConnected b).1.
Proof.
  intros Hr Hs Hc Hd. unfold onReady. destruct (OnConnected _); simpl; split; simpl; rewrite ?Hs, ?Hd; simpl; auto; try lia.
  all: intros E; rewrite E in Hr; simpl in Hr; lia.
Qed.

Lemma handleKeyExchange_advances b f : advances b (handleKeyExchange OnConnected select_done b f).1.
Proof.
  unfold handleKeyExchange, CompareAndSwap. destruct (decide _) as [Hh|]; [|by apply same_advances].
  set (b1 := set_state b ConnectionStateReady).
  set (p := if decide _ then _ else _).
  assert (Hp : same_but_queue b1 p.1).
  { unfold p. destruct (decide _); [apply sendFrame_same|done]. }
  destruct p as [b2 err]. simpl in Hp. destruct Hp as (E1 & E2 & E3 & E4). simpl in E1.
  assert (Hb2 : advances b b2).
  { split; rewrite ?E1, ?E2, ?E3, ?E4, ?Hh; simpl; auto; try lia; try done. }
  destruct err as [err|]; [done|]. destruct (cipher b2) as [c|]; [|done].
  destruct (GenerateSharedKey c _) as [c'|]; [|done].
  apply onReady_advances; simpl; [by rewrite Hh|done|done|done].
Qed.

Lemma onProcess_advances b now data : advances b (onProcess b now data).1.1.
Proof.
  unfold Conn.onProcess.
  destruct (DecodeMessageFrameWithLimit data _) as [[[frame|] n] [err|]]; try by apply same_advances.
  destruct (n =? 0); [by apply same_advances|].
  destruct (prepareMessageFrame _ frame) as [f|]; [|by apply same_advances].
  assert (Ha : advances b (processFrame (touch b now) f).1).
  { unfold Conn.processFrame. destruct (IsInternalCommand (f_Cmd f)) eqn:Ei.
    - destruct (_ =? _); [by apply same_advances|]. destruct (_ =? _); [|by apply same_advances].
      pose proof (handleKeyExchange_advances (touch b now) f) as [H1 H2 H3 H4]. by split.
    - case_bool_decide as Hr; cbn [negb]; [|by apply same_advances].
      split; simpl; auto; [lia|]. right. exists f. done. }
  by destruct (processFrame (touch b now) f).
Qed.

Lemma drain_same b q : same_but_queue b (drain writeRaw b q).
Proof.
  revert b. induction q as [|m q IH]; intros b; simpl; [done|].
  destruct (writeRaw b m); [done|]. exact (IH (wrote b m)).
Qed.

Lemma start_advances b seed : advances b (start OnConnected select_done b seed).1.
Proof.
  unfold start, CompareAndSwap. destruct (decide _) as [Hc|]; [|by apply same_advances].
  cbn [set_state options]. destruct (negb _).
  - rewrite decide_True by done. apply onReady_advances; simpl; [by rewrite Hc|done|done|done].
  - unfold startHandshake. destruct (NewECDHCipher seed) as [c|e].
    2:{ split; simpl; rewrite ?Hc; simpl; auto; try lia; done. }
    set (b1 := set_cipher _ _). set (p := if decide _ then _ else _).
    assert (Hp : same_but_queue b1 p.1).
    { unfold p. destruct (decide _); [apply sendFrame_same|done]. }
    destruct p as [b2 err]. simpl in Hp. destruct Hp as (E1 & E2 & E3 & E4). simpl in E1, E2, E3, E4.
    destruct err; simpl; split; simpl; rewrite ?E1, ?E2, ?E3, ?E4, ?Hc; simpl; auto; try lia; done.
Qed.

Lemma conn_step_advances b o : advances b (conn_step b o).
Proof.
  destruct o as [seed|f|now data|err| |e|err]; simpl.
  - unfold runStart. pose proof (start_advances b seed) as Ha.
    destruct (start OnConnected select_done b seed) as [b' [err|]]; [by apply Close_advances|done].
  - unfold SendMessage. destruct (decide _); [by apply same_advances|]. apply same_advances, sendFrame_same.
  - apply onProcess_advances.
  - apply Close_advances. by apply same_advances.
  - unfold handshake_timeout. destruct (handshakeTimer b); [|by apply same_advances].
    apply Close_advances. by apply same_advances.
  - unfold write_iteration. apply same_advances. by repeat case_match; simplify_eq.
  - apply Close_advances, same_advances, drain_same.
Qed.

(** The state of a connection only advances; a closed one keeps its first error,
    delivers nothing more and refuses to send; nothing is delivered before it is
    ready. *)
Theorem connection_states ops b :
  let b' := fold_left conn_step ops b in
  rank (state b) <= rank (state b') /\
  (state b = ConnectionStateClosed ->
    state b' = ConnectionStateClosed /\ closeErr b' = closeErr b /\ delivered b' = delivered b /\
    connected b' = connected b /\
    forall frame, SendMessage select_done b' frame = (b', Some ErrConnectionClosed)) /\
  (rank (state b') < 2 -> delivered b' = delivered b /\ connected b' = connected b).
Proof.
  intros b'. unfold b'. clear b'. revert b. induction ops as [|o ops IH]; intros b; simpl.
  - split_and!; [lia| |done]. intros Hc. split_and!; try done. intros f. unfold SendMessage.
    by rewrite decide_True.
  - pose proof (conn_step_advances b o) as [A1 A2 A3 A4]. destruct (IH (conn_step b o)) as (I1 & I2 & I3).
    split_and!; [lia| |].
    + intros Hc. destruct (A2 Hc) as [E1 E2].
      assert (Hs : state (conn_step b o) = ConnectionStateClosed).
      { rewrite Hc in A1. destruct (state (conn_step b o)); simpl in A1; try lia; done. }
      destruct (I2 Hs) as (J1 & J2 & J3 & J4 & J5). split_and!; try done; try congruence.
      rewrite J3. destruct A3 as [->|(f & _ & _ & Hr)]; [done|]. congruence.
    + intros Hr. destruct (I3 Hr) as [-> ->]. split.
      * destruct A3 as [->|(f & _ & _ & Hrd)]; [done|]. rewrite Hrd in A1. simpl in A1. lia.
      * destruct A4 as [->|?]; [done|lia].
Qed.
End conn_props.
