(* ===== verification/Tcp.v ===== *)
(** * network/tcp_connection.go: the write side of a TCP connection

    Conn.v's write loop over a socket that takes what it is given in pieces and
    may fail in the middle of a frame. *)

From S2P Require Import Prelude Protocol Codec Cipher Buffer Conn.

(** ** The socket *)

(** What the kernel took; what it will say to the next calls of [conn.Write]: how
    many bytes it takes, and the error. After these it takes everything. *)
Record Socket := mkSocket {
  sk_bytes : list Z; sk_deadline : Z; sk_closed : bool; sk_script : list (nat * option nerr) }.

(** [net.ErrClosed] *)
Definition ErrClosed : nerr := NIO 1.

(** The loop of [writeRaw]: the bytes that go out, what is left of the script. *)
Fixpoint write_all (script : list (nat * option nerr)) (data : list Z)
  : list Z * list (nat * option nerr) * option nerr :=
  match data, script with
  | [], _ => ([], script, None)
  | _, [] => (data, [], None)
  | _, (n, Some err) :: script => (take n data, script, Some err)
  | _, (n, None) :: script =>
    let '(out, script, err) := write_all script (drop n data) in (take n data ++ out, script, err)
  end.

Definition writeRaw (timeout now : Z) (s : Socket) (data : list Z) : Socket * option nerr :=
  if sk_closed s then (s, Some ErrClosed)
  else
    let '(out, script, err) := write_all (sk_script s) data in
    (mkSocket (sk_bytes s ++ out) (now + timeout) false script, err).

Definition closeSocket (s : option Socket) : option Socket :=
  match s with
  | Some s => Some (mkSocket (sk_bytes s) (sk_deadline s) true (sk_script s))
  | None => None
  end.

(** ** The connection

    [readChunk] is the argument of Conn.v's [on_read]. *)

Record TCPConnection := mkTCP { baseConn : Conn; conn : Socket; readBuffer : Buffer }.

Definition newTCPConnection (config : CommonConfig) (ReadBufferCap : Z) (r : ConnectionRole) (now : Z) (s : Socket)
  : TCPConnection :=
  mkTCP (newBaseConnWithRole config r now) s (New ReadBufferCap (Some ReadBufferCap)).

Section tcp.
Context `{KeyAgreement}.
Context (OnConnected : Conn -> option nerr) (OnMessage : Conn -> MessageFrame -> option nerr)
        (select_done : Conn -> bool).

Definition write_message (now : Z) (c : TCPConnection) (message : list Z) : Socket * option nerr :=
  writeRaw (WriteTimeout (options (baseConn c))) now (conn c) message.

(** One iteration of the write loop. *)
Definition iteration (now : Z) (c : TCPConnection) (e : write_event) : option (TCPConnection * option (option nerr)) :=
  let '(s, r) :=
    match e, sendChannel (baseConn c) with
    | WMessage, message :: _ => write_message now c message
    | _, _ => (conn c, None)
    end in
  match write_iteration (fun _ _ => r) (baseConn c) e with
  | Some (b, x) => Some (mkTCP b s (readBuffer c), x)
  | None => None
  end.

Fixpoint drain (now : Z) (c : TCPConnection) (q : list (list Z)) : TCPConnection :=
  match q with
  | [] => mkTCP (set_send (baseConn c) []) (conn c) (readBuffer c)
  | message :: q =>
    match write_message now c message with
    | (s, Some _) => mkTCP (set_send (baseConn c) q) s (readBuffer c)
    | (s, None) => drain now (mkTCP (wrote (baseConn c) message) s (readBuffer c)) q
    end
  end.

(** The deferred function; OnClose runs in a goroutine of its own. *)
Definition write_loop_exit (now : Z) (c : TCPConnection) (err : option nerr) : TCPConnection :=
  let c := drain now c (sendChannel (baseConn c)) in
  mkTCP (Close (baseConn c) err) (default (conn c) (closeSocket (Some (conn c)))) (readBuffer c).

(** The life of the write loop: its iterations, with what everybody else does to
    the connection in between; it leaves on the first error. *)
Inductive life_act := Iterate (now : Z) (e : write_event) | Meanwhile (o : conn_op).

Definition others (o : conn_op) (b : Conn) : Conn :=
  match o with
  | COWrite _ | COExit _ => b
  | o => conn_step OnConnected OnMessage select_done (fun _ _ => None) b o
  end.

Fixpoint runWriteLoop (c : TCPConnection) (acts : list life_act) : TCPConnection :=
  match acts with
  | [] => c
  | Meanwhile o :: acts => runWriteLoop (mkTCP (others o (baseConn c)) (conn c) (readBuffer c)) acts
  | Iterate now e :: acts =>
    match iteration now c e with
    | None => runWriteLoop c acts
    | Some (c, None) => runWriteLoop c acts
    | Some (c, Some err) => write_loop_exit now c err
    end
  end.

(** ** What goes out *)

Definition working (s : Socket) : Prop := sk_closed s = false /\ Forall (fun x => x.2 = None) (sk_script s).

Lemma write_all_prefix script data out script' err :
  write_all script data = (out, script', err) ->
  out `prefix_of` data /\ (err = None -> out = data) /\
  (Forall (fun x => x.2 = None) script -> err = None /\ Forall (fun x => x.2 = None) script').
Proof.
  revert data out script' err. induction script as [|[n [e|]] script IH]; intros [|x data] out script' err; simpl.
  1-3,5: intros [= <- <- <-]; by split_and!.
  - intros [= <- <- <-]. split; [apply prefix_take|]. split; [done|]. by intros [? _]%Forall_cons.
  - destruct (write_all script (drop n (x :: data))) as [[out1 s1] e1] eqn:E. intros [= <- <- <-].
    destruct (IH _ _ _ _ E) as (Hp & He & Hs). split; [|split].
    + rewrite <- (take_drop n (x :: data)) at 2. by apply prefix_app.
    + intros ->. by rewrite He, take_drop.
    + intros [_ Hf]%Forall_cons. auto.
Qed.

Lemma write_message_spec now c message s r :
  write_message now c message = (s, r) ->
  exists out, sk_bytes s = sk_bytes (conn c) ++ out /\ out `prefix_of` message /\ (r = None -> out = message) /\
    (working (conn c) -> r = None /\ working s).
Proof.
  unfold write_message, writeRaw, working. destruct (sk_closed (conn c)).
  - intros [= <- <-]. exists []. rewrite app_nil_r. split_and!; [done|apply prefix_nil|done|by intros []].
  - destruct (write_all _ _) as [[out script] err] eqn:E. intros [= <- <-].
    destruct (write_all_prefix _ _ _ _ _ E) as (Hp & He & Hs). exists out. split_and!; [done|done|done|].
    intros [_ Hw]. by destruct (Hs Hw).
Qed.

(** What some of the loop's life adds to the wire: whole frames, and a torn one
    only where a write failed. *)
Record sends (c c' : TCPConnection) (w : list (list Z)) (torn : list Z) : Prop := {
  s_wire : sk_bytes (conn c') = sk_bytes (conn c) ++ concat w ++ torn;
  s_written : written (baseConn c') = written (baseConn c) ++ w;
  s_working : working (conn c) -> torn = [] }.

Lemma CompareAndSwap_written b old new b' : CompareAndSwap b old new = Some b' -> written b' = written b.
Proof. unfold CompareAndSwap. destruct (decide _); [|done]. by intros [= <-]. Qed.
Lemma sendFrame_written b f : written (sendFrame select_done b f).1 = written b.
Proof. unfold Conn.sendFrame, pushQueue. by repeat case_match. Qed.
Lemma Close_written b err : written (Close b err) = written b.
Proof. unfold Close. by destruct (decide _). Qed.
Lemma onReady_written b : written (onReady OnConnected b).1 = written b.
Proof. unfold onReady. by destruct (OnConnected _). Qed.

Lemma key_sent_written (P : Prop) `{Decision P} b :
  written (if decide P then Conn.sendExchangeKey select_done b else (b, None)).1 = written b.
Proof. destruct (decide P); [apply sendFrame_written|done]. Qed.

Lemma handleKeyExchange_written b f : written (handleKeyExchange OnConnected select_done b f).1 = written b.
Proof.
  unfold handleKeyExchange. destruct (CompareAndSwap _ _ _) as [b1|] eqn:E; [|done].
  apply CompareAndSwap_written in E. pose proof (key_sent_written (role b1 = ConnectionRoleServer) b1) as Hk.
  destruct (if decide _ then _ else _) as [b2 [err|]]; simpl in Hk |- *; [congruence|].
  destruct (cipher b2) as [k|]; simpl; [|congruence]. destruct (GenerateSharedKey k _); simpl; [|congruence].
  rewrite onReady_written. simpl. congruence.
Qed.

Lemma start_written b seed : written (start OnConnected select_done b seed).1 = written b.
Proof.
  unfold start. destruct (CompareAndSwap b _ _) as [b1|] eqn:E1; [|done]. apply CompareAndSwap_written in E1.
  destruct (negb _).
  - destruct (CompareAndSwap b1 _ _) as [b2|] eqn:E2; [|done]. apply CompareAndSwap_written in E2.
    rewrite onReady_written. congruence.
  - unfold startHandshake. destruct (NewECDHCipher seed) as [c|e]; [|simpl; congruence]. set (b2 := set_cipher _ _).
    pose proof (key_sent_written (role b2 = ConnectionRoleClient) b2) as Hk.
    destruct (if decide _ then _ else _) as [b3 [err|]]; simpl in Hk |- *; congruence.
Qed.

Lemma onProcess_written b now data : written (onProcess OnConnected OnMessage select_done b now data).1.1 = written b.
Proof.
  unfold onProcess. destruct (DecodeMessageFrameWithLimit _ _) as [[[f|] n] [err|]]; try done.
  destruct (n =? 0); [done|]. destruct (prepareMessageFrame _ f) as [g|]; [|done].
  assert (E : written (processFrame OnConnected OnMessage select_done (touch b now) g).1 = written b).
  { unfold processFrame. repeat (case_match; try done). by rewrite handleKeyExchange_written. }
  by destruct (processFrame _ _ _ _ _).
Qed.

(** Only the write loop writes. *)
Lemma others_written o b : written (others o b) = written b.
Proof.
  destruct o as [seed|f|now data|err| |e|err]; simpl; try done.
  - pose proof (start_written b seed) as E. unfold runStart. destruct (start _ _ b seed) as [b1 [err|]]; [|done].
    simpl. by rewrite Close_written.
  - unfold SendMessage. destruct (decide _); [done|]. apply sendFrame_written.
  - apply onProcess_written.
  - apply Close_written.
  - unfold handshake_timeout. destruct (Conn.handshakeTimer b); [apply Close_written|done].
Qed.

Lemma iteration_sends now c e c' x :
  iteration now c e = Some (c', x) ->
  exists w torn, sends c c' w torn /\ (x = None -> torn = []) /\ (working (conn c) -> working (conn c')).
Proof.
  assert (Hsame : forall b y, written b = written (baseConn c) -> Some (mkTCP b (conn c) (readBuffer c), y) = Some (c', x) ->
    exists w torn, sends c c' w torn /\ (x = None -> torn = []) /\ (working (conn c) -> working (conn c'))).
  { intros b y Hb [= <- <-]. exists [], []. split; [|done]. split; simpl; rewrite ?app_nil_r; done. }
  unfold iteration. destruct e as [|t|]; simpl.
  - destruct (cancelled _); [by apply Hsame|done].
  - destruct (checkHeartbeatTimeout _ _); by apply Hsame.
  - destruct (sendChannel (baseConn c)) as [|m q]; [done|].
    destruct (write_message now c m) as [s r] eqn:E. destruct (write_message_spec _ _ _ _ _ E) as (out & Hs & _ & He & Hw).
    destruct r as [err|]; intros [= <- <-]; simpl.
    + exists [], out. split; [|by split; [|intros Hk; apply Hw in Hk as []]].
      split; simpl; [done|by rewrite app_nil_r|]. intros Hk. by apply Hw in Hk as [].
    + exists [m], []. rewrite He in Hs by done. split; [|split; [done|intros Hk; by apply Hw]].
      split; simpl; [by rewrite Hs, !app_nil_r|done|done].
Qed.

Lemma drain_sends now c q : exists w torn, sends c (drain now c q) w torn /\ (working (conn c) -> w = q).
Proof.
  revert c. induction q as [|m q IH]; intros c; simpl.
  - exists [], []. split; [|done]. split; simpl; by rewrite ?app_nil_r.
  - destruct (write_message now c m) as [s r] eqn:E. destruct (write_message_spec _ _ _ _ _ E) as (out & Hs & _ & He & Hw).
    destruct r as [err|].
    + exists [], out. split; [|intros Hk; by apply Hw in Hk as []].
      split; simpl; [done|by rewrite app_nil_r|]. intros Hk. by apply Hw in Hk as [].
    + rewrite He in Hs by done. destruct (IH (mkTCP (wrote (baseConn c) m) s (readBuffer c))) as (w & torn & [S1 S2 S3] & Hq).
      exists (m :: w), torn. simpl in *. split.
      * split; simpl; [by rewrite S1, Hs, <- !app_assoc|by rewrite S2, <- app_assoc|]. intros Hk. by apply S3, Hw.
      * intros Hk. f_equal. by apply Hq, Hw.
Qed.

Lemma exit_sends now c err :
  exists w torn, sends c (write_loop_exit now c err) w torn /\ (working (conn c) -> w = sendChannel (baseConn c)).
Proof.
  destruct (drain_sends now c (sendChannel (baseConn c))) as (w & torn & [S1 S2 S3] & Hq). exists w, torn.
  split; [|done]. split; simpl; [done|by rewrite Close_written|done].
Qed.

(** What a TCP connection puts on the wire is the frames whose write succeeded, in
    order and each whole, and besides them at most two torn ones: the write that
    ended the loop and one of the drain after it, each only if the socket failed. *)
Theorem wire_is_whole_frames c acts :
  exists w1 torn1 w2 torn2, let c' := runWriteLoop c acts in
    sk_bytes (conn c') = sk_bytes (conn c) ++ concat w1 ++ torn1 ++ concat w2 ++ torn2 /\
    written (baseConn c') = written (baseConn c) ++ w1 ++ w2 /\
    (working (conn c) -> torn1 = [] /\ torn2 = []).
Proof.
  revert c. induction acts as [|[now e|o] acts IH]; intros c; cbn [runWriteLoop].
  - exists [], [], [], []. split_and!; by rewrite ?app_nil_r.
  - destruct (iteration now c e) as [[c1 x]|] eqn:Hit; [|apply IH].
    destruct (iteration_sends _ _ _ _ _ Hit) as (w & torn & Hs & Hx & Hw). destruct x as [err|].
    + destruct (exit_sends now c1 err) as (w2 & torn2 & Hs2 & _). exists w, torn, w2, torn2.
      destruct Hs as [S1 S2 S3], Hs2 as [U1 U2 U3]. split_and!; [|by rewrite U2, S2, app_assoc|auto].
      by rewrite U1, S1, <- !app_assoc.
    + rewrite Hx in Hs by done. destruct (IH c1) as (w1 & torn1 & w2 & torn2 & S1 & S2 & S3).
      destruct Hs as [U1 U2 U3]. exists (w ++ w1), torn1, w2, torn2. split_and!; [| |auto].
      * by rewrite S1, U1, concat_app, app_nil_r, <- !app_assoc.
      * by rewrite S2, U2, <- !app_assoc.
  - destruct (IH (mkTCP (others o (baseConn c)) (conn c) (readBuffer c))) as (w1 & torn1 & w2 & torn2 & S1 & S2 & S3).
    exists w1, torn1, w2, torn2. split_and!; [done| |done]. rewrite S2. simpl. by rewrite others_written.
Qed.

(** Closed at any moment, a working connection still writes what it has queued. *)
Lemma close_flushes k now now' err c :
  working (conn c) -> state (baseConn c) <> ConnectionStateClosed ->
  sk_bytes (conn (runWriteLoop c (replicate k (Iterate now WMessage) ++ [Meanwhile (COClose err); Iterate now' WDone])))
  = sk_bytes (conn c) ++ concat (sendChannel (baseConn c)).
Proof.
  revert c. induction k as [|k IH]; intros c Hw Hst; cbn [replicate app runWriteLoop].
  - unfold iteration. simpl. unfold Close at 1. rewrite decide_False by done. cbn [cancelled].
    destruct (exit_sends now' (mkTCP (Close (baseConn c) err) (conn c) (readBuffer c)) None) as (w & torn & [S1 _ S3] & Hq).
    simpl in *. rewrite S1, S3, Hq by done. unfold Close. rewrite decide_False by done. by rewrite app_nil_r.
  - destruct (iteration now c WMessage) as [[c1 x]|] eqn:E; [|by apply IH]. unfold iteration in E. simpl in E.
    destruct (sendChannel (baseConn c)) as [|m q] eqn:Eq; [done|].
    destruct (write_message now c m) as [s r] eqn:Em. destruct (write_message_spec _ _ _ _ _ Em) as (out & Hs & _ & He & Hk).
    destruct (Hk Hw) as [-> Hws]. rewrite He in Hs by done. simplify_eq/=.
    rewrite IH by done. simpl. by rewrite Hs, <- app_assoc.
Qed.

Lemma send_all_state A fs A' err : send_all select_done A fs = (A', err) -> state A' = state A.
Proof.
  revert A. induction fs as [|f fs IH]; intros A; simpl; [by intros [= <- <-]|].
  assert (Hs : state (SendMessage select_done A (Some f)).1 = state A).
  { unfold SendMessage. destruct (decide _); [done|]. apply (sendFrame_same select_done A (Some f)). }
  destruct (SendMessage _ _ _) as [A1 [e|]]; simpl in Hs; [by intros [= <- <-]|]. intros H1. by rewrite (IH _ H1).
Qed.

(** C4: Messages sent on a ready connection before it is closed are coded,
    encrypted, framed and written, wherever its write loop is when Close comes and
    in whatever pieces the socket takes them, and the other end's read loop, however
    the stream is cut, hands over every message in order with its original body. *)
Theorem sent_before_close_arrives config cap config' cap' A B fs A' s k now now' err peer_now chunks :
  TCPConfig_Normalize config cap = (config', cap') -> cap' < 2 ^ 62 -> 17 <= MaxInboundSize config' ->
  options B = config' -> peers A B ->
  Forall (fun f => carried A B f /\ IsInternalCommand (f_Cmd f) = false) fs ->
  (forall b f, OnMessage b f = None) -> sendChannel A = [] -> send_all select_done A fs = (A', None) ->
  working s -> sk_bytes s = [] -> Forall (fun w => zlen w <= MaxInboundSize config') (sendChannel A') ->
  Forall chunk_ok chunks ->
  concat chunks = sk_bytes (conn (runWriteLoop (mkTCP A' s (New cap' (Some cap')))
    (replicate k (Iterate now WMessage) ++ [Meanwhile (COClose err); Iterate now' WDone]))) ->
  exists B' buf' hs,
    readLoop OnConnected OnMessage select_done B peer_now (New cap' (Some cap')) chunks = Some (B', buf', None) /\
    delivered B' = delivered B ++ hs /\ content <$> hs = content <$> fs.
Proof.
  intros Hn Hcap Hmax HB Hp Hfs Hok Hq Hsend Hw Hs Hlim Hch Heq.
  destruct (sent_messages_arrive_in_order OnConnected OnMessage select_done _ _ _ _ A B fs A' Hn Hcap Hmax HB Hp Hfs Hok Hsend)
    as (wires & Hwires & Hrest).
  rewrite Hq in Hwires. simpl in Hwires. rewrite Hwires in Hlim.
  rewrite close_flushes in Heq; [|done|]; simpl in *.
  - rewrite Hs, Hwires in Heq. destruct (Hrest Hlim peer_now chunks Hch Heq) as (B' & buf' & hs & H1 & _ & H2 & H3).
    by exists B', buf', hs.
  - rewrite (send_all_state _ _ _ _ Hsend). by destruct Hp as (-> & _).
Qed.
End tcp.
