(* ===== verification/ConnDemo.v ===== *)
(** * Concrete connections: the theorems of Conn.v and of the wire formats at work *)

From S2P Require Import Prelude Protocol Codec Cipher Buffer Conn.

(** A toy key agreement with the Diffie-Hellman property. *)
Definition toy_derive (priv peer : list Z) : res eerr (list Z) :=
  match priv, peer with
  | [a], [b] => if decide (is_u 8 a /\ is_u 8 b) then Ok (replicate 32 (Z.lxor a b)) else Err ErrCrypto
  | _, _ => Err ErrCrypto
  end.
#[export] Instance toy_keys : KeyAgreement.
Proof.
  (** GenerateKey fails for negative randomness. *)
  refine {| ka_generate s := if s <? 0 then Err ErrCrypto else Ok ([u8 s], [u8 s]); ka_derive := toy_derive |}.
  - intros s1 s2 priv1 pub1 priv2 pub2. destruct (s1 <? 0), (s2 <? 0); try done. intros [= <- <-] [= <- <-].
    unfold toy_derive. rewrite Z.lxor_comm. by repeat destruct (decide _) as [[? ?]|?]; try tauto.
  - intros s priv pub. destruct (s <? 0); [done|]. intros [= <- <-]. repeat constructor; apply u8_range.
  - intros priv pub key. unfold toy_derive. destruct priv as [|a [|]], pub as [|b [|]]; try done.
    destruct (decide _) as [[Ha Hb]|]; [|done]. intros [= <-]. split; [done|].
    repeat constructor; by apply lxor_u8.
Defined.

Definition ok_connected (_ : Conn) : option nerr := None.
Definition ok_message (_ : Conn) (_ : MessageFrame) : option nerr := None.
Definition never (_ : Conn) : bool := false.

Definition config : CommonConfig * Z := TCPConfig_Normalize (mkConfig true 0 None 0 0 0 0 0) 0.

Lemma handshake_agrees_witness :
  exists C2 S2 : Conn, peers C2 S2 /\ readyCh_closed C2 = true /\ readyCh_closed S2 = true.
Proof.
  destruct (handshake_agrees ok_connected ok_message never config.1 3 5 (mkCipher [3] [3] []) (mkCipher [5] [5] [])
      (replicate 32 6) 0 1)
    as (C1 & S1 & S2 & C2 & k1 & k2 & _ & _ & _ & _ & _ & _ & _ & H1 & _ & H2 & H3).
  - reflexivity.
  - reflexivity.
  - reflexivity.
  - reflexivity.
  - vm_compute. repeat split; discriminate.
  - vm_compute. repeat split; discriminate.
  - reflexivity.
  - reflexivity.
  - exists C2, S2. split; [exact H1|split; [exact H2|exact H3]].
Defined.

(** Two ends after a handshake, and two messages. *)
Definition key : ECDHCipher := mkCipher [3] [3] (replicate 32 6).
Definition ready (r : ConnectionRole) : Conn :=
  mkConn r ConnectionStateReady config.1 [] (Some key) false None false true 0 true [] [].
Definition alice : Conn := ready ConnectionRoleClient.
Definition bob : Conn := ready ConnectionRoleServer.
Definition hello : MessageFrame := mkFrame 7 1 0 0 42 0 [104; 105].
Definition bye : MessageFrame := mkFrame 7 2 0 3 43 0 [].

Definition wires_of (fs : list MessageFrame) : list (list Z) := sendChannel (send_all never alice fs).1.

Lemma sent_messages_arrive_in_order_witness :
  exists wires,
    sendChannel (send_all never alice [hello; bye]).1 = wires /\
    (Forall (fun w => zlen w <= 32768) wires -> forall now chunks,
     Forall chunk_ok chunks -> concat chunks = concat wires ->
     exists B' buf' hs,
       readLoop ok_connected ok_message never bob now (New 40960 (Some 40960)) chunks = Some (B', buf', None) /\
       Bytes buf' = [] /\ delivered B' = hs /\
       content <$> hs = [content hello; content bye]).
Proof.
  destruct (send_all never alice [hello; bye]) as [A' err] eqn:E.
  assert (err = None) as -> by (apply (f_equal snd) in E; vm_compute in E; by subst err).
  destruct (sent_messages_arrive_in_order ok_connected ok_message never
              (mkConfig true 0 None 0 0 0 0 0) 0 config.1 40960 alice bob [hello; bye] A')
    as (wires & Hq & Hrest); try reflexivity.
  - discriminate.
  - split; [reflexivity|split; [reflexivity|]]. split; [reflexivity|]. intros _. exists key, key.
    split_and!; [reflexivity|reflexivity|reflexivity|].
    repeat constructor; unfold is_u; lia.
  - repeat constructor; unfold is_u; simpl; try lia; repeat constructor; unfold is_u; lia.
  - exact E.
  - exists wires. split; [exact Hq|exact Hrest].
Defined.

Definition first_wire : list Z := nth 0 (wires_of [hello; bye]) [].

(** Half a frame, then the rest with half of the next one. *)
Definition pieces : list (list Z) :=
  let all := concat (wires_of [hello; bye]) in [take 9 all; drop 9 (take 25 all); drop 25 all].

Example pieces_delivered :
  match readLoop ok_connected ok_message never bob 5 (New 40960 (Some 40960)) pieces with
  | Some (b, buf, None) => map content (delivered b) = [content hello; content bye] /\ Bytes buf = []
  | _ => False
  end.
Proof. vm_compute. done. Qed.

(** The same bytes, one at a time. *)
Definition single_bytes : list (list Z) := (fun x => [x]) <$> concat pieces.

Lemma segmentation_is_invisible_witness :
  exists b' err buf1 buf2,
    readLoop ok_connected ok_message never bob 5 (New 40960 (Some 40960)) pieces = Some (b', buf1, err) /\
    readLoop ok_connected ok_message never bob 5 (New 40960 (Some 40960)) single_bytes = Some (b', buf2, err) /\
    (err = None -> Bytes buf1 = Bytes buf2).
Proof.
  apply (segmentation_is_invisible ok_connected ok_message never (mkConfig true 0 None 0 0 0 0 0) 0 config.1 40960).
  - reflexivity.
  - lia.
  - discriminate.
  - reflexivity.
  - vm_compute. repeat constructor; discriminate.
  - vm_compute. repeat constructor; discriminate.
  - vm_compute. reflexivity.
Defined.
