(* ===== verification/TcpDemo.v ===== *)
(** * TCP connections on a socket: a flush on Close, and a torn frame

    Alice of ConnDemo.v writes [hello] and [bye] to a socket. *)

From S2P Require Import Prelude Protocol Codec Cipher Buffer Conn ConnDemo Tcp.

Definition sent : Conn := (send_all never alice [hello; bye]).1.
Definition on_socket (script : list (nat * option nerr)) : TCPConnection :=
  mkTCP sent (mkSocket [] 0 false script) (New 40960 (Some 40960)).

(** Close comes when one frame is written; the socket takes five bytes, then
    nothing, then the rest. *)
Definition closing : list life_act := [Iterate 1 WMessage] ++ [Meanwhile (COClose None); Iterate 2 WDone].
Definition flushed : TCPConnection :=
  runWriteLoop ok_connected ok_message never (on_socket [(5%nat, None); (0%nat, None)]) closing.

Lemma sent_before_close_arrives_witness :
  exists B' buf' hs,
    readLoop ok_connected ok_message never bob 7 (New 40960 (Some 40960)) [sk_bytes (conn flushed)] = Some (B', buf', None) /\
    delivered B' = delivered bob ++ hs /\ content <$> hs = content <$> [hello; bye].
Proof.
  apply (sent_before_close_arrives ok_connected ok_message never (mkConfig true 0 None 0 0 0 0 0) 0 config.1 40960
           alice bob [hello; bye] sent (mkSocket [] 0 false [(5%nat, None); (0%nat, None)]) 1 1 2 None 7
           [sk_bytes (conn flushed)]); try reflexivity.
  - discriminate.
  - split; [reflexivity|split; [reflexivity|]]. split; [reflexivity|]. intros _. exists key, key.
    split_and!; [reflexivity|reflexivity|reflexivity|].
    repeat constructor; unfold is_u; lia.
  - repeat constructor; unfold is_u; simpl; try lia; repeat constructor; unfold is_u; lia.
  - split; [reflexivity|repeat constructor].
  - vm_compute. repeat constructor; discriminate.
  - vm_compute. repeat constructor; discriminate.
Defined.

(** The write of [hello] times out after five bytes: the loop ends, but its drain
    still writes [bye], behind the torn frame. The peer takes its bytes for the
    rest of [hello], gets no message at all and gives the connection up. *)
Definition timed_out : nerr := NIO 2.
Definition torn : TCPConnection :=
  runWriteLoop ok_connected ok_message never (on_socket [(5%nat, Some timed_out)]) [Iterate 1 WMessage].

Lemma drain_writes_behind_a_torn_frame :
  match sendChannel sent with
  | [first; second] =>
    sk_bytes (conn torn) = take 5 first ++ second /\ written (baseConn torn) = [second]
  | _ => False
  end /\
  closeErr (baseConn torn) = Some timed_out /\ sk_closed (conn torn) = true /\
  match readLoop ok_connected ok_message never bob 5 (New 40960 (Some 40960)) [sk_bytes (conn torn)] with
  | Some (b, _, err) => delivered b = [] /\ err <> None
  | None => False
  end.
Proof. vm_compute. split_and!; try reflexivity. discriminate. Qed.
