(* ===== verification/WebSocket.v ===== *)
(** * network/websocket_connection.go and the servers of the stream transports

    The read loop of a WebSocket connection, whose messages carry the same byte
    stream as a TCP socket, and its closing handshake; then websocket_server.go,
    tcp_server.go and server_engine.go, which make the connections. Frames of the
    WebSocket protocol itself are gorilla/websocket's. *)

From S2P Require Import Prelude Protocol Codec Cipher Buffer Conn.

(** ** Reading *)

(** gorilla's message types. *)
Definition TextMessage : Z := 1.
Definition BinaryMessage : Z := 2.

(** What [reader.Read] returns beside the bytes, and what [NextReader] returns:
    a message with its type and the reads of it, or an error. *)
Inductive read_err := RNil | REOF | RErr (e : nerr).
Inductive next_reader := NextErr (e : nerr) | NextMessage (messageType : Z) (reads : list (list Z * read_err)).

(** [WebSocketConfig.Normalize] and the buffer of [newWebSocketConnection]. *)
Definition WebSocketConfig_Normalize (c : CommonConfig) : CommonConfig := Normalize c.
Definition readBufferCap (c : CommonConfig) : Z := MaxInboundSize c + tcpReadChunkSize.

Section ws.
Context `{KeyAgreement}.
Context (OnConnected : Conn -> option nerr) (OnMessage : Conn -> MessageFrame -> option nerr)
        (select_done : Conn -> bool).
Abbreviation processReadBuffer := (processReadBuffer OnConnected OnMessage select_done).
Abbreviation on_read := (on_read OnConnected OnMessage select_done).
Abbreviation tcp_readLoop := (Conn.readLoop OnConnected OnMessage select_done).

(** The inner loop over one message: it goes on to the next message ([None]), or
    readLoop returns with an error. *)
Fixpoint read_message (b : Conn) (now : Z) (buf : Buffer) (reads : list (list Z * read_err))
  : option (Conn * Buffer * option nerr) :=
  match reads with
  | [] => Some (b, buf, None)
  | (data, readErr) :: reads =>
    let processed :=
      if 0 <? zlen data
      then match Write buf data with
           | (buf, _, Some err) => Some (b, buf, Some (NBuffer err))
           | (buf, _, None) => processReadBuffer b now buf
           end
      else Some (b, buf, None) in
    match processed with
    | None => None
    | Some (b, buf, Some err) => Some (b, buf, Some err)
    | Some (b, buf, None) =>
      match readErr with
      | REOF => Some (b, buf, None)
      | RErr e => Some (b, buf, Some e)
      | RNil => read_message b now buf reads
      end
    end
  end.

(** [WebSocketConnection.readLoop] over what the socket gives. *)
Fixpoint readLoop (b : Conn) (now : Z) (buf : Buffer) (nexts : list next_reader)
  : option (Conn * Buffer * option nerr) :=
  match nexts with
  | [] => Some (b, buf, None)
  | NextErr e :: _ => Some (Close b (Some e), buf, Some e)
  | NextMessage messageType reads :: nexts =>
    if negb (messageType =? TextMessage) && negb (messageType =? BinaryMessage) then readLoop b now buf nexts
    else
      match read_message b now buf reads with
      | None => None
      | Some (b, buf, Some err) => Some (Close b (Some err), buf, Some err)
      | Some (b, buf, None) => readLoop b now buf nexts
      end
  end.
End ws.

(** ** Closing *)

(** [utf8.ValidString] of the standard library, on bytes. *)
Definition in_range (lo hi x : Z) : bool := (lo <=? x) && (x <=? hi).
Definition tail_byte : Z -> bool := in_range 128 191.
Definition two_bytes (x y : Z) : bool := in_range 194 223 x && tail_byte y.
Definition three_bytes (x y z : Z) : bool :=
  ((x =? 224) && in_range 160 191 y || in_range 225 236 x && tail_byte y ||
   (x =? 237) && in_range 128 159 y || in_range 238 239 x && tail_byte y) && tail_byte z.
Definition four_bytes (x y z w : Z) : bool :=
  ((x =? 240) && in_range 144 191 y || in_range 241 243 x && tail_byte y ||
   (x =? 244) && in_range 128 143 y) && tail_byte z && tail_byte w.
Fixpoint ValidString (s : list Z) : bool :=
  match s with
  | [] => true
  | x :: s1 =>
    if x <? 128 then ValidString s1 else
    match s1 with
    | [] => false
    | y :: s2 =>
      if two_bytes x y then ValidString s2 else
      match s2 with
      | [] => false
      | z :: s3 =>
        if three_bytes x y z then ValidString s3 else
        match s3 with
        | [] => false
        | w :: s4 => if four_bytes x y z w then ValidString s4 else false
        end
      end
    end
  end.

(** The loop that drops the last byte while the text is not valid; [None] when it
    would slice an empty text. *)
Fixpoint trim (fuel : nat) (reason : list Z) : option (list Z) :=
  if ValidString reason then Some reason
  else match fuel with
       | O => None
       | S fuel => trim fuel (take (length reason - 1) reason)
       end.
Definition max_reason : nat := 123.
Definition close_reason (reason : list Z) : option (list Z) :=
  let reason := if (max_reason <? length reason)%nat then take max_reason reason else reason in
  trim (length reason) reason.

Definition CloseNormalClosure : Z := 1000.
Definition CloseMessageTooBig : Z := 1009.
Definition CloseInternalServerErr : Z := 1011.

Section closing.
(** The text of an error, whether it is (or wraps) the peer's close frame, and
    whether it wraps ErrFrameTooLarge. *)
Context (Error : nerr -> list Z) (peerClose wraps_too_large : nerr -> bool).
Definition Is_too_large (err : nerr) : bool := bool_decide (err = NProto ErrFrameTooLarge) || wraps_too_large err.

(** The close frame that [closeSocket] writes before it closes the socket. *)
Definition closeSocket (closeErr : option nerr) : option (Z * list Z) :=
  match closeErr with
  | None => option_map (pair CloseNormalClosure) (close_reason [])
  | Some err =>
    if peerClose err then None
    else
      let code := if Is_too_large err then CloseMessageTooBig else CloseInternalServerErr in
      option_map (pair code) (close_reason (Error err))
  end.
End closing.

(** ** Servers *)

(** What [Accept] returns. *)
Inductive accepted := AcceptClosed | AcceptError | AcceptTCP (conn : N) | AcceptOther (conn : N).
(** What the server does: it starts a connection, or closes one it cannot use. *)
Inductive server_act := Started (conn : N) | Refused (conn : N).

(** The loop of [TCPServer.Run]. *)
Fixpoint accept_loop (accepts : list accepted) : list server_act :=
  match accepts with
  | [] | AcceptClosed :: _ => []
  | AcceptError :: accepts => accept_loop accepts
  | AcceptOther conn :: accepts => Refused conn :: accept_loop accepts
  | AcceptTCP conn :: accepts => Started conn :: accept_loop accepts
  end.

(** [runEngine]: what [run] does when [open] succeeds. *)
Definition runEngine {A} (open : option nerr) (run : list A) : list A * option nerr :=
  match open with Some err => ([], Some err) | None => (run, None) end.
Definition TCPServer_Run (listen : option nerr) (accepts : list accepted) : list server_act * option nerr :=
  runEngine listen (accept_loop accepts).

(** Requests to the WebSocket server: those it upgrades get a connection. *)
Definition upgrade (request : N * bool) : option server_act := if request.2 then Some (Started request.1) else None.
Definition WebSocketServer_Run (listen : option nerr) (requests : list (N * bool)) : list server_act * option nerr :=
  runEngine listen (omap upgrade requests).

(** ** Messages are one stream *)

Section ws_props.
Context `{KeyAgreement}.
Context (OnConnected : Conn -> option nerr) (OnMessage : Conn -> MessageFrame -> option nerr)
        (select_done : Conn -> bool).
Abbreviation tcp_readLoop := (Conn.readLoop OnConnected OnMessage select_done).
Abbreviation ws_readLoop := (readLoop OnConnected OnMessage select_done).
Abbreviation read_message := (read_message OnConnected OnMessage select_done).

(** A message read to its end: every read but the last goes on, none is longer
    than the read chunk. *)
Definition whole (reads : list (list Z * read_err)) : Prop :=
  exists init data, reads = init ++ [(data, REOF)] /\ Forall (fun x => x.2 = RNil) init /\
    Forall (fun x => zlen x.1 <= tcpReadChunkSize /\ bytes_ok x.1) reads.

Definition is_data (n : next_reader) : bool :=
  match n with NextMessage ty _ => (ty =? TextMessage) || (ty =? BinaryMessage) | NextErr _ => false end.
Definition reads_of (n : next_reader) : list (list Z * read_err) :=
  match n with NextMessage _ reads => if is_data n then reads else [] | NextErr _ => [] end.
(** The bytes of the data messages. *)
Definition payload (nexts : list next_reader) : list Z := concat ((fun n => concat (reads_of n).*1) <$> nexts).
Definition well_read (n : next_reader) : Prop :=
  exists ty reads, n = NextMessage ty reads /\ (is_data n = true -> whole reads).

(** The reads that brought something. *)
Definition chunks_of (reads : list (list Z * read_err)) : list (list Z) := filter (fun c => c <> []) reads.*1.

Lemma chunks_of_ok reads :
  Forall (fun x => zlen x.1 <= tcpReadChunkSize /\ bytes_ok x.1) reads -> Forall chunk_ok (chunks_of reads).
Proof.
  intros Hr. unfold chunks_of. apply Forall_forall. intros c [Hc Hin]%list_elem_of_filter.
  apply list_elem_of_fmap in Hin as (x & -> & Hx). rewrite Forall_forall in Hr. destruct (Hr x Hx) as [Hl Hb].
  split; [|done]. split; [|done]. destruct x.1; [done|]. rewrite zlen_cons. pose proof (zlen_nonneg l). lia.
Qed.

Lemma concat_chunks_of reads : concat (chunks_of reads) = concat reads.*1.
Proof.
  unfold chunks_of. induction reads.*1 as [|c l IH]; [done|]. rewrite filter_cons.
  destruct (decide (c <> [])) as [Hc|Hc]; simpl; [by rewrite IH|]. destruct c; [done|]. by destruct Hc.
Qed.

Lemma readLoop_app b now buf xs ys :
  tcp_readLoop b now buf (xs ++ ys) =
  match tcp_readLoop b now buf xs with Some (b, buf, None) => tcp_readLoop b now buf ys | x => x end.
Proof.
  revert b buf. induction xs as [|c xs IH]; intros b buf; [done|]. simpl.
  destruct (on_read _ _ _ b now buf c) as [[[b1 buf1] [e|]]|]; [done|apply IH|done].
Qed.

(** A message is read like its chunks from a socket. *)
Lemma read_message_chunks b now buf init data :
  Forall (fun x => x.2 = RNil) init ->
  tcp_readLoop b now buf (chunks_of (init ++ [(data, REOF)])) =
  match read_message b now buf (init ++ [(data, REOF)]) with
  | Some (b, buf, Some err) => Some (Close b (Some err), buf, Some err) | x => x end.
Proof.
  intros Hi. revert b buf. induction Hi as [|[c e] init He _ IH]; intros b buf.
  - unfold chunks_of. simpl. rewrite filter_cons. destruct data as [|x data]; [done|].
    rewrite decide_True by done. simpl. unfold on_read. rewrite zlen_cons. pose proof (zlen_nonneg data).
    rewrite (proj2 (Z.eqb_neq _ 0)) by lia.
    destruct (Write buf (x :: data)) as [[buf1 n] [e|]]; [done|].
    by destruct (processReadBuffer _ _ _ b now buf1) as [[[b1 buf2] [e|]]|].
  - simpl in He. subst e. unfold chunks_of in *. simpl. rewrite filter_cons. destruct c as [|x c]; [apply IH|].
    rewrite decide_True by done. simpl. unfold on_read. rewrite zlen_cons. pose proof (zlen_nonneg c).
    rewrite (proj2 (Z.eqb_neq _ 0)) by lia.
    destruct (Write buf (x :: c)) as [[buf1 n] [e|]]; [done|].
    destruct (processReadBuffer _ _ _ b now buf1) as [[[b1 buf2] [e|]]|]; [done|apply IH|done].
Qed.

Lemma ws_readLoop_chunks nexts b now buf :
  Forall well_read nexts ->
  ws_readLoop b now buf nexts = tcp_readLoop b now buf (concat ((fun n => chunks_of (reads_of n)) <$> nexts)).
Proof.
  intros Hw. revert b buf. induction Hw as [|n nexts (ty & reads & -> & Hr) _ IH]; intros b buf; [done|].
  simpl. unfold is_data in *. destruct (ty =? TextMessage) eqn:E1, (ty =? BinaryMessage) eqn:E2; cbn [orb negb andb] in *;
    try (rewrite readLoop_app; destruct (Hr eq_refl) as (init & data & -> & Hi & _);
      rewrite read_message_chunks by done; destruct (read_message b now buf _) as [[[b1 buf1] [e|]]|]; [done|apply IH|done]).
  apply IH.
Qed.

(** C25: The frames a WebSocket connection delivers, its state and the error its
    read loop ends with are those of a TCP connection that reads the payloads of the
    data messages: the borders of messages and of reads do not matter. *)
Theorem websocket_messages_are_a_stream c b now nexts chunks :
  options b = WebSocketConfig_Normalize c -> readBufferCap (options b) < 2 ^ 62 -> 17 <= MaxInboundSize (options b) ->
  Forall well_read nexts -> Forall chunk_ok chunks -> concat chunks = payload nexts ->
  let fresh := New (readBufferCap (options b)) (Some (readBufferCap (options b))) in
  exists b' err buf1 buf2,
    ws_readLoop b now fresh nexts = Some (b', buf1, err) /\ tcp_readLoop b now fresh chunks = Some (b', buf2, err) /\
    (err = None -> Bytes buf1 = Bytes buf2).
Proof.
  intros Ho Hint Hmax Hn Hc E fresh. set (chunks1 := concat ((fun n => chunks_of (reads_of n)) <$> nexts)).
  assert (H1 : Forall chunk_ok chunks1).
  { apply Forall_concat, Forall_fmap. eapply Forall_impl; [exact Hn|]. intros n (ty & reads & -> & Hr).
    unfold compose, reads_of. destruct (is_data _); [|constructor].
    destruct (Hr eq_refl) as (init & data & -> & _ & Hok). by apply chunks_of_ok. }
  assert (E1 : concat chunks1 = concat chunks).
  { rewrite E. unfold chunks1, payload. clear. induction nexts as [|n nexts IH]; [done|].
    rewrite !fmap_cons. simpl. by rewrite concat_app, IH, concat_chunks_of. }
  destruct (stream_total OnConnected OnMessage select_done now b (concat chunks) (chunks_bytes _ Hc)) as (b' & rest & err & Hs).
  destruct (fresh_readLoop_stream OnConnected OnMessage select_done now b (readBufferCap (options b)) chunks b' rest err)
    as (buf2 & F2 & R2); try done.
  rewrite <- E1 in Hs.
  destruct (fresh_readLoop_stream OnConnected OnMessage select_done now b (readBufferCap (options b)) chunks1 b' rest err)
    as (buf1 & F1 & R1); try done.
  exists (ended b' err), err, buf1, buf2. split_and!; [|done|intros He; by rewrite R1, R2].
  rewrite ws_readLoop_chunks by done. exact F1.
Qed.
End ws_props.

(** ** The close frame *)

(** The first rune of a valid text. *)
Lemma valid_first s :
  ValidString s = true -> s <> [] ->
  exists k, (1 <= k <= 4)%nat /\ (k <= length s)%nat /\ ValidString (drop k s) = true /\
    forall t, ValidString (take k s ++ t) = ValidString t.
Proof.
  destruct s as [|x s]; [done|]. intros Hv _. simpl in Hv. destruct (x <? 128) eqn:E1.
  { exists 1%nat. split_and!; [lia|lia|simpl; lia|done|]. intros t. simpl. by rewrite E1. }
  destruct s as [|y s]; [done|]. destruct (two_bytes x y) eqn:E2.
  { exists 2%nat. split_and!; [lia|lia|simpl; lia|done|]. intros t. simpl. by rewrite E1, E2. }
  destruct s as [|z s]; [done|]. destruct (three_bytes x y z) eqn:E3.
  { exists 3%nat. split_and!; [lia|lia|simpl; lia|done|]. intros t. simpl. by rewrite E1, E2, E3. }
  destruct s as [|w s]; [done|]. destruct (four_bytes x y z w) eqn:E4; [|done].
  exists 4%nat. split_and!; [lia|lia|simpl; lia|done|]. intros t. simpl. by rewrite E1, E2, E3, E4.
Qed.

(** A valid text cut anywhere has a valid prefix at most three bytes shorter. *)
Lemma valid_cut s n :
  ValidString s = true -> (n <= length s)%nat ->
  exists k, (n - 3 <= k <= n)%nat /\ ValidString (take k s) = true.
Proof.
  remember (length s) as l eqn:Hl. revert s n Hl. induction (lt_wf l) as [l _ IH]. intros s n Hl Hv Hn.
  destruct (decide (s = [])) as [->|Hs]; [exists 0%nat; simpl in Hl; split; [lia|done]|].
  destruct (valid_first s Hv Hs) as (k & Hk & Hkl & Hd & Ht).
  destruct (decide (n < k)%nat) as [Hnk|Hnk]; [exists 0%nat; split; [lia|done]|].
  destruct (IH (length (drop k s))) with (s := drop k s) (n := (n - k)%nat) as (k' & Hk' & Hv');
    [rewrite length_drop; lia|done|done|rewrite length_drop; lia|].
  exists (k + k')%nat. split; [lia|].
  replace (take (k + k') s) with (take k s ++ take k' (drop k s)); [by rewrite Ht|].
  rewrite <- (take_drop k (take (k + k') s)), take_take, take_drop_commute. f_equal. by rewrite Nat.min_l by lia.
Qed.

(** The loop ends with the longest valid prefix. *)
Lemma trim_longest fuel s :
  (length s <= fuel)%nat ->
  exists s', trim fuel s = Some s' /\ ValidString s' = true /\ s' `prefix_of` s /\
    forall p, p `prefix_of` s -> ValidString p = true -> (length p <= length s')%nat.
Proof.
  revert s. induction fuel as [|fuel IH]; intros s Hl; simpl.
  - destruct s; [|simpl in Hl; lia]. exists []. split_and!; try done. intros p Hp _. by apply prefix_nil_inv in Hp as ->.
  - destruct (ValidString s) eqn:Hv.
    + exists s. split_and!; try done. intros p Hp _. by apply prefix_length.
    + assert (Hne : s <> []) by (by intros ->). assert (0 < length s)%nat by (destruct s; [done|simpl; lia]).
      destruct (IH (take (length s - 1) s)) as (s' & E & Hv' & Hp & Hmax); [rewrite length_take; lia|].
      exists s'. split_and!; [done|done|etrans; [exact Hp|apply prefix_take]|].
      intros p Hp2 Hvp. apply Hmax; [|done]. destruct Hp2 as [t ->].
      destruct t as [|x t]; [by rewrite app_nil_r, Hvp in Hv|]. exists (take (length t) (x :: t)).
      rewrite length_app. cbn [length]. replace (length p + S (length t) - 1)%nat with (length p + length t)%nat by lia.
      apply take_app_add.
Qed.

(** C37: Whatever the error's text, the loop that shortens a close reason ends, with
    the longest valid UTF-8 prefix of at most 123 bytes, which loses at most three
    bytes of a valid text to the cut. *)
Theorem close_reason_is_legal text :
  exists reason, close_reason text = Some reason /\ ValidString reason = true /\ reason `prefix_of` text /\
    (length reason <= max_reason)%nat /\
    (forall p, p `prefix_of` text -> (length p <= max_reason)%nat -> ValidString p = true -> (length p <= length reason)%nat) /\
    (ValidString text = true -> (Nat.min (length text) (max_reason - 3) <= length reason)%nat).
Proof.
  unfold close_reason. set (cut := if (max_reason <? length text)%nat then _ else text).
  assert (Hcut : cut = take max_reason text).
  { unfold cut. destruct (max_reason <? length text)%nat eqn:E; [done|]. apply Nat.ltb_ge in E. by rewrite take_ge. }
  clearbody cut. subst cut. set (cut := take max_reason text).
  assert (Hl : length cut = Nat.min max_reason (length text)) by apply length_take.
  destruct (trim_longest (length cut) cut (le_n _)) as (reason & E & Hv & Hp & Hmax).
  assert (Hany : forall p, p `prefix_of` text -> (length p <= max_reason)%nat -> ValidString p = true ->
            (length p <= length reason)%nat).
  { intros p [t ->] Hlp Hvp. apply Hmax; [|done]. unfold cut. rewrite take_app_ge by done. by eexists. }
  exists reason. split_and!; [done|done|etrans; [exact Hp|apply prefix_take]| |done|].
  - apply prefix_length in Hp. lia.
  - intros Hvt. destruct (decide (length text <= max_reason)%nat) as [Hle|Hgt].
    { specialize (Hany text (reflexivity _) Hle Hvt). lia. }
    destruct (valid_cut text max_reason Hvt) as (k & Hk & Hvk); [lia|].
    specialize (Hany (take k text) (prefix_take _ _)). rewrite length_take in Hany.
    specialize (Hany ltac:(lia) Hvk). unfold max_reason in *. lia.
Qed.

(** ** Serving *)

(** What was accepted before the listener was closed. *)
Fixpoint before_close (accepts : list accepted) : list accepted :=
  match accepts with
  | [] | AcceptClosed :: _ => []
  | a :: accepts => a :: before_close accepts
  end.
Definition tcp_of (a : accepted) : option N := match a with AcceptTCP c => Some c | _ => None end.
Definition started_of (a : server_act) : option N := match a with Started c => Some c | _ => None end.

(** The server starts every TCP connection accepted before its listener is closed,
    in their order, whatever other accepts fail. *)
Theorem server_starts_what_it_accepts accepts :
  TCPServer_Run None accepts = (accept_loop accepts, None) /\
  omap started_of (accept_loop accepts) = omap tcp_of (before_close accepts).
Proof.
  split; [done|]. induction accepts as [|[| |c|c] accepts IH]; simpl; try done; by f_equal.
Qed.
