(* ===== verification/WebSocketDemo.v ===== *)
(** * A WebSocket connection at work

    The stream of ConnDemo.v in WebSocket messages, and close frames. *)

From S2P Require Import Prelude Protocol Codec Cipher Buffer Conn WebSocket ConnDemo.

(** A control message is dropped; the first data message has half a frame in two
    reads, the second the rest, its last read empty. *)
Definition messages : list next_reader :=
  [ NextMessage 9 []; NextMessage BinaryMessage [(take 9 (concat pieces), RNil); (take 3 (drop 9 (concat pieces)), REOF)];
    NextMessage TextMessage [(drop 12 (concat pieces), RNil); ([], REOF)] ].

Lemma websocket_messages_are_a_stream_witness :
  let fresh := New (readBufferCap config.1) (Some (readBufferCap config.1)) in
  exists b' err buf1 buf2,
    WebSocket.readLoop ok_connected ok_message never bob 5 fresh messages = Some (b', buf1, err) /\
    Conn.readLoop ok_connected ok_message never bob 5 fresh pieces = Some (b', buf2, err) /\
    (err = None -> Bytes buf1 = Bytes buf2).
Proof.
  apply (websocket_messages_are_a_stream ok_connected ok_message never (mkConfig true 0 None 0 0 0 0 0)).
  - reflexivity.
  - reflexivity.
  - discriminate.
  - repeat constructor.
    + do 2 eexists. split; [reflexivity|]. discriminate.
    + do 2 eexists. split; [reflexivity|]. intros _. exists [(take 9 (concat pieces), RNil)]. eexists. split; [reflexivity|].
      split; [repeat constructor|]. vm_compute. repeat constructor; discriminate.
    + do 2 eexists. split; [reflexivity|]. intros _. exists [(drop 12 (concat pieces), RNil)]. eexists. split; [reflexivity|].
      split; [repeat constructor|]. vm_compute. repeat constructor; discriminate.
  - vm_compute. repeat constructor; discriminate.
  - vm_compute. reflexivity.
Defined.

(** A frame of the stream that is too long, or a user's error that wraps that one,
    closes with 1009, another error with
    1011 and its text, cut before a rune that would not fit; the peer's own close
    is not answered. *)
Definition long_text : list Z := replicate 122 65 ++ [228; 189; 160].
Definition text_of (e : nerr) : list Z := match e with NIO _ => long_text | _ => [33] end.
Definition by_peer (e : nerr) : bool := match e with NIO 7 => true | _ => false end.
Definition wrapping (e : nerr) : bool := match e with NUser 3 => true | _ => false end.
Example close_frames :
  closeSocket text_of by_peer wrapping None = Some (1000, []) /\
  closeSocket text_of by_peer wrapping (Some (NProto ErrFrameTooLarge)) = Some (1009, [33]) /\
  closeSocket text_of by_peer wrapping (Some (NUser 3)) = Some (1009, [33]) /\
  closeSocket text_of by_peer wrapping (Some (NIO 2)) = Some (1011, replicate 122 65) /\
  closeSocket text_of by_peer wrapping (Some (NIO 7)) = None.
Proof. vm_compute. done. Qed.
