(* ===== verification/Placement.v ===== *)
(** * logicalactor/types.go and placement/round_robin.go: names and placement *)

From S2P Require Import Prelude.

(** ** Strings as the code uses them *)

Definition colon : Ascii.ascii := Ascii.ascii_of_N 58.
Definition contains (c : Ascii.ascii) (s : string) : bool :=
  existsb (Ascii.eqb c) (String.list_ascii_of_string s).

(** ASCII white space, which is what ids of nodes can hold. *)
Definition is_space (c : Ascii.ascii) : bool :=
  let n := Ascii.N_of_ascii c in (N.eqb n 32 || (N.leb 9 n && N.leb n 13))%N.
(** [strings.TrimSpace(s) == ""] *)
Definition blank (s : string) : bool := forallb is_space (String.list_ascii_of_string s).

(** [strings.TrimSpace], on ASCII white space *)
Fixpoint trim_left (s : string) : string :=
  match s with String c s' => if is_space c then trim_left s' else s | EmptyString => s end.
Fixpoint trim_right (s : string) : string :=
  match s with
  | String c s' => if blank s then EmptyString else String c (trim_right s')
  | EmptyString => s
  end.
Definition TrimSpace (s : string) : string := trim_right (trim_left s).

(** [a <= b] on strings, byte by byte. *)
Fixpoint str_leb (a b : string) : bool :=
  match a, b with
  | EmptyString, _ => true
  | String _ _, EmptyString => false
  | String c a, String d b =>
    let m := Ascii.N_of_ascii c in let n := Ascii.N_of_ascii d in
    N.ltb m n || (N.eqb m n && str_leb a b)
  end.

Lemma str_leb_refl a : str_leb a a = true.
Proof. induction a as [|c a IH]; [done|]. simpl. by rewrite N.eqb_refl, IH, orb_true_r. Qed.

Lemma str_leb_total a b : str_leb a b = true \/ str_leb b a = true.
Proof.
  revert b. induction a as [|c a IH]; intros [|d b]; simpl; auto.
  destruct (N.lt_total (Ascii.N_of_ascii c) (Ascii.N_of_ascii d)) as [H|[H|H]].
  - left. by rewrite (proj2 (N.ltb_lt _ _) H).
  - rewrite H, N.eqb_refl. destruct (IH b) as [-> | ->]; rewrite !orb_true_r; auto.
  - right. by rewrite (proj2 (N.ltb_lt _ _) H).
Qed.

Lemma str_leb_cases c d a b :
  str_leb (String c a) (String d b) = true <->
  (Ascii.N_of_ascii c < Ascii.N_of_ascii d)%N \/
  (Ascii.N_of_ascii c = Ascii.N_of_ascii d /\ str_leb a b = true).
Proof. simpl. rewrite orb_true_iff, andb_true_iff, N.ltb_lt, N.eqb_eq. done. Qed.

Lemma str_leb_trans a b c : str_leb a b = true -> str_leb b c = true -> str_leb a c = true.
Proof.
  revert b c. induction a as [|x a IH]; intros [|y b] [|z c]; try done.
  rewrite !str_leb_cases. intros [?|[? H1]] [?|[? H2]]; [left; lia|left; lia|left; lia|right].
  split; [lia|]. eauto.
Qed.

Lemma str_leb_antisym a b : str_leb a b = true -> str_leb b a = true -> a = b.
Proof.
  revert b. induction a as [|x a IH]; intros [|y b]; try done.
  rewrite !str_leb_cases. intros [?|[E H1]] [?|[? H2]]; try lia.
  f_equal; [|auto]. by rewrite <- (Ascii.ascii_N_embedding x), E, Ascii.ascii_N_embedding.
Qed.

(** ** types.go *)

Record ActorID := mkActorID { Kind : string; Key : string }.
#[export] Instance ActorID_eq_dec : EqDecision ActorID.
Proof. solve_decision. Defined.

Record NodeInfo := mkNodeInfo { NodeId : string; n_Kind : string; InstanceId : string }.
#[export] Instance NodeInfo_eq_dec : EqDecision NodeInfo.
Proof. solve_decision. Defined.
Definition no_node : NodeInfo := mkNodeInfo "" "" "".

Inductive lerr :=
| ErrInvalidKind | ErrInvalidKey | ErrNodeIdEmpty | ErrInstanceIdEmpty | ErrKindEmpty
| ErrNodeProviderNil | ErrNoAvailableNodes
| ErrActorFactoryNil | ErrActorFactoryReturnedNil | ErrFactoryNotFound | ErrFactoryAlreadyExist
| ErrRouteForwardLimit | ErrPlacementStrategyNil | ErrPlacementStrategyRegistered
| ErrPlacementStrategyNotFound | ErrRedis (code : Z).
#[export] Instance lerr_eq_dec : EqDecision lerr.
Proof. solve_decision. Defined.

Definition Validate (a : ActorID) : option lerr :=
  if bool_decide (Kind a = "") || contains colon (Kind a) then Some ErrInvalidKind
  else if bool_decide (Key a = "") || contains colon (Key a) then Some ErrInvalidKey
  else None.

Definition ActorID_String (a : ActorID) : string := Kind a +:+ String colon (Key a).
Definition Name (a : ActorID) : string := "$logical:" +:+ ActorID_String a.

Definition NodeInfo_Validate (n : NodeInfo) : option lerr :=
  if blank (NodeId n) then Some ErrNodeIdEmpty
  else if blank (InstanceId n) then Some ErrInstanceIdEmpty
  else if blank (n_Kind n) then Some ErrKindEmpty
  else None.

(** ** round_robin.go *)

(** [provider]: nil or the map the discovery returns for a kind. *)
Record RoundRobinStrategy := mkRR { nextIndex : Z (* atomic.Uint64 *) }.

Definition by_id (a b : NodeInfo) : Prop := str_leb (NodeId a) (NodeId b) = true.
#[export] Instance by_id_dec : RelDecision by_id.
Proof. intros a b. unfold by_id. apply _. Defined.

(** [currentNodes]: [nodes] are the values of the map in the order the runtime
    ranges over it; sort.Slice sorts them by id. *)
Definition currentNodes (nodes : list NodeInfo) : res lerr (list NodeInfo) :=
  match nodes with
  | [] => Err ErrNoAvailableNodes
  | _ => Ok (merge_sort by_id nodes)
  end.

Definition PickNode (s : RoundRobinStrategy) (provider : option (string -> list NodeInfo)) (a : ActorID)
  : RoundRobinStrategy * res lerr NodeInfo :=
  match provider with
  | None => (s, Err ErrNodeProviderNil)
  | Some members =>
    match currentNodes (members (Kind a)) with
    | Err err => (s, Err err)
    | Ok nodes =>
      let next := u64 (nextIndex s + 1) in
      let index := u64 (next - 1) in
      (mkRR next, Ok (nth (Z.to_nat (index mod zlen nodes)) nodes no_node))
    end
  end.

Fixpoint PickNodes (k : nat) (s : RoundRobinStrategy) (provider : option (string -> list NodeInfo)) (a : ActorID)
  : RoundRobinStrategy * list (res lerr NodeInfo) :=
  match k with
  | O => (s, [])
  | S k => let '(s, r) := PickNode s provider a in
           let '(s, rs) := PickNodes k s provider a in (s, r :: rs)
  end.

(** ** Properties *)

Lemma contains_app c a b : contains c (a +:+ b) = contains c a || contains c b.
Proof. unfold contains. induction a as [|x a IH]; [done|]. simpl. by rewrite IH, orb_assoc. Qed.

(** Splitting at the first separator is unambiguous. *)
Lemma separator_unique c a b a' b' :
  contains c a = false -> contains c a' = false ->
  a +:+ String c b = a' +:+ String c b' -> a = a' /\ b = b'.
Proof.
  revert a'. induction a as [|x a IH]; intros [|y a'] Ha Ha'; simpl; unfold contains in *; simpl in *.
  - by intros [= ->].
  - intros [= -> _]. by rewrite Ascii.eqb_refl in Ha'.
  - intros [= -> _]. by rewrite Ascii.eqb_refl in Ha.
  - apply orb_false_iff in Ha as [_ Ha], Ha' as [_ Ha']. intros [= -> E].
    destruct (IH a' Ha Ha' E) as [-> ->]. done.
Qed.

Lemma app_string_inj p a b : p +:+ a = p +:+ b -> a = b.
Proof. induction p as [|c p IH]; simpl; [done|]. intros [= E]. auto. Qed.

(** Distinct valid actor ids have distinct strings and distinct names. *)
Theorem names_identify_actors a b :
  Validate a = None -> Validate b = None ->
  (ActorID_String a = ActorID_String b <-> a = b) /\ (Name a = Name b <-> a = b).
Proof.
  intros Ha Hb. assert (Hi : ActorID_String a = ActorID_String b -> a = b).
  { unfold Validate in *. destruct (bool_decide (Kind a = "")), (bool_decide (Kind b = ""));
      destruct (contains colon (Kind a)) eqn:E1, (contains colon (Kind b)) eqn:E2; try done.
    intros E. apply separator_unique in E as [E3 E4]; try done. destruct a, b. simpl in *. congruence. }
  split; split; intros E; try congruence; [auto|]. apply Hi. unfold Name in E.
  by apply app_string_inj in E.
Qed.

#[local] Instance by_id_trans : Transitive by_id.
Proof. intros a b c. unfold by_id. apply str_leb_trans. Qed.
#[local] Instance by_id_total : Total by_id.
Proof. intros a b. apply str_leb_total. Qed.

(** Nodes are told apart by their ids. *)
Definition distinct_ids (nodes : list NodeInfo) : Prop := NoDup (NodeId <$> nodes).

Lemma sorted_unique_ids l k :
  StronglySorted by_id l -> StronglySorted by_id k -> l ≡ₚ k -> distinct_ids l -> l = k.
Proof.
  intros Hl. revert k. induction Hl as [|x l Hl IH Hx]; intros k Hk Hp Hd.
  - by apply Permutation_nil_l in Hp.
  - destruct Hk as [|y k Hk Hy]; [by apply Permutation_nil_r in Hp|].
    assert (x = y) as ->.
    { assert (Hxy : x ∈ y :: k) by (rewrite <- Hp; apply list_elem_of_here).
      assert (Hyx : y ∈ x :: l) by (rewrite Hp; apply list_elem_of_here).
      apply elem_of_cons in Hxy as [|Hxy]; [done|]. apply elem_of_cons in Hyx as [|Hyx]; [done|].
      rewrite Forall_forall in Hx, Hy. specialize (Hx y Hyx). specialize (Hy x Hxy).
      pose proof (str_leb_antisym _ _ Hx Hy) as E. unfold distinct_ids in Hd. rewrite fmap_cons in Hd.
      apply NoDup_cons in Hd as [Hd _]. exfalso. apply Hd. rewrite E. by apply list_elem_of_fmap_2. }
    apply Permutation_cons_inv in Hp. f_equal. apply IH; try done.
    unfold distinct_ids in *. rewrite fmap_cons in Hd. by apply NoDup_cons in Hd as [_ Hd].
Qed.

Lemma merge_sort_unique l k : l ≡ₚ k -> distinct_ids l -> merge_sort by_id l = merge_sort by_id k.
Proof.
  intros Hp Hd. apply sorted_unique_ids.
  - apply (StronglySorted_merge_sort by_id).
  - apply (StronglySorted_merge_sort by_id).
  - by rewrite !merge_sort_Permutation.
  - unfold distinct_ids. by rewrite merge_sort_Permutation.
Qed.

Lemma PickNode_Ok s members a :
  members (Kind a) <> [] -> is_u 64 (nextIndex s) ->
  let nodes := merge_sort by_id (members (Kind a)) in
  PickNode s (Some members) a =
  (mkRR (u64 (nextIndex s + 1)), Ok (nth (Z.to_nat (nextIndex s mod zlen nodes)) nodes no_node)).
Proof.
  intros Hm Hs nodes. assert (E : u64 (u64 (nextIndex s + 1) - 1) = nextIndex s).
  { unfold u64. rewrite Zminus_mod_idemp_l. replace (nextIndex s + 1 - 1) with (nextIndex s) by lia.
    by apply Z.mod_small. }
  unfold PickNode, currentNodes. unfold nodes. by destruct (members (Kind a)); [|rewrite E].
Qed.

Lemma nth_seq_id {A} (l : list A) d : (fun i => nth i l d) <$> seq 0 (length l) = l.
Proof.
  apply list_eq. intros i. rewrite list_lookup_fmap. destruct (decide (i < length l)%nat) as [Hi|Hi].
  - rewrite lookup_seq_lt by done. simpl. symmetry. destruct (lookup_lt_is_Some_2 _ _ Hi) as [x Hx].
    rewrite Hx. f_equal. by rewrite (nth_lookup_Some _ _ _ _ Hx).
  - rewrite lookup_seq_ge by lia. simpl. symmetry. apply lookup_ge_None. lia.
Qed.

(** The residues of [n] consecutive numbers are all the residues. *)
Lemma residues n m : 0 < n ->
  ((fun i => Z.to_nat ((m + Z.of_nat i) mod n)) <$> seq 0 (Z.to_nat n)) ≡ₚ seq 0 (Z.to_nat n).
Proof.
  intros Hn. apply submseteq_length_Permutation; [|by rewrite length_fmap].
  apply NoDup_submseteq.
  - apply NoDup_fmap_2_strong; [|apply NoDup_seq]. intros i j Hi Hj E. apply elem_of_seq in Hi, Hj.
    pose proof (Z.mod_pos_bound (m + Z.of_nat i) n Hn). pose proof (Z.mod_pos_bound (m + Z.of_nat j) n Hn).
    assert (E' : (m + Z.of_nat i) mod n = (m + Z.of_nat j) mod n) by lia.
    assert (Hd : (Z.of_nat i - Z.of_nat j) mod n = 0).
    { replace (Z.of_nat i - Z.of_nat j) with ((m + Z.of_nat i) - (m + Z.of_nat j)) by lia.
      by rewrite Zminus_mod, E', Z.sub_diag. }
    apply Z.mod_divide in Hd as [q Hq]; [|lia].
    assert (- 1 < q < 1) by (split; apply (Z.mul_lt_mono_pos_r n); lia). nia.
  - intros x Hx. apply list_elem_of_fmap in Hx as (i & -> & _). apply elem_of_seq.
    pose proof (Z.mod_pos_bound (m + Z.of_nat i) n Hn). lia.
Qed.

Lemma PickNodes_fixed k s members a :
  members (Kind a) <> [] -> 0 <= nextIndex s -> nextIndex s + Z.of_nat k < 2 ^ 64 ->
  let nodes := merge_sort by_id (members (Kind a)) in
  PickNodes k s (Some members) a =
  (mkRR (nextIndex s + Z.of_nat k),
   (fun i => Ok (nth (Z.to_nat ((nextIndex s + Z.of_nat i) mod zlen nodes)) nodes no_node)) <$> seq 0 k).
Proof.
  intros Hm. revert s. induction k as [|k IH]; intros s H0 H1 nodes.
  - simpl. f_equal. destruct s. simpl. f_equal. lia.
  - cbn [PickNodes seq]. rewrite fmap_cons, PickNode_Ok by (try done; unfold is_u; lia). fold nodes.
    rewrite u64_small by (unfold is_u; lia). rewrite IH by (cbn [nextIndex]; lia). fold nodes. cbn [nextIndex].
    replace (nextIndex s + Z.of_nat 0) with (nextIndex s) by lia. f_equal; [f_equal; lia|]. f_equal.
    rewrite <- (seq_shift k 0), <- list_fmap_compose. apply list_fmap_ext. intros i x Hx.
    unfold compose. replace (nextIndex s + 1 + Z.of_nat x) with (nextIndex s + Z.of_nat (S x)) by lia. done.
Qed.

(** As many successive picks as there are members choose each member once, in an
    order that does not depend on map iteration. *)
Theorem round_robin_is_fair s members ranged a n :
  members (Kind a) = n -> n <> [] -> distinct_ids n -> n ≡ₚ ranged (Kind a) ->
  0 <= nextIndex s -> nextIndex s + zlen n < 2 ^ 64 ->
  let '(s', picks) := PickNodes (length n) s (Some members) a in
  nextIndex s' = nextIndex s + zlen n /\ picks ≡ₚ Ok <$> n /\
  PickNodes (length n) s (Some ranged) a = (s', picks).
Proof.
  intros Hm Hn Hd Hp H0 H1.
  assert (Hl : zlen (merge_sort by_id n) = zlen n) by (unfold zlen; by rewrite merge_sort_Permutation).
  rewrite !PickNodes_fixed; unfold zlen in *; try done; try congruence;
    [|by intros E; rewrite E in Hp; apply Permutation_nil_r in Hp].
  rewrite <- (merge_sort_unique _ _ Hp Hd), Hm. split; [done|]. split; [|done].
  transitivity (Ok (E:=lerr) <$> merge_sort by_id n); [|by rewrite merge_sort_Permutation].
  set (l := merge_sort by_id n) in *.
  assert (Hlen : length n = length l) by lia. rewrite Hlen.
  rewrite (list_fmap_compose (fun i => Z.to_nat ((nextIndex s + Z.of_nat i) mod Z.of_nat (length l)))
             (fun j => Ok (E:=lerr) (nth j l no_node))).
  pose proof (residues (Z.of_nat (length l)) (nextIndex s)) as Hr. rewrite Nat2Z.id in Hr.
  rewrite Hr by (destruct n; [done|simpl in Hl; lia]).
  rewrite <- (nth_seq_id l no_node) at 2. by rewrite <- list_fmap_compose.
Qed.

(** ** Witnesses *)

Definition node_a : NodeInfo := mkNodeInfo "a" "player" "1".
Definition node_b : NodeInfo := mkNodeInfo "b" "player" "2".

Lemma names_identify_actors_witness :
  let x := mkActorID "player" "1001" in let y := mkActorID "player" "1002" in
  (ActorID_String x = ActorID_String y <-> x = y) /\ (Name x = Name y <-> x = y).
Proof. intros x y. apply (names_identify_actors x y); vm_compute; reflexivity. Defined.

Lemma round_robin_is_fair_witness :
  let '(s', picks) := PickNodes 2 (mkRR 7) (Some (fun _ => [node_b; node_a])) (mkActorID "player" "1") in
  nextIndex s' = 7 + zlen [node_b; node_a] /\ picks ≡ₚ Ok <$> [node_b; node_a] /\
  PickNodes 2 (mkRR 7) (Some (fun _ => [node_a; node_b])) (mkActorID "player" "1") = (s', picks).
Proof.
  apply (round_robin_is_fair (mkRR 7) (fun _ => [node_b; node_a]) (fun _ => [node_a; node_b])
           (mkActorID "player" "1") [node_b; node_a]).
  - reflexivity.
  - intros E. discriminate E.
  - apply (bool_decide_unpack _). vm_compute. exact I.
  - apply Permutation_swap.
  - vm_compute. discriminate.
  - vm_compute. reflexivity.
Defined.
