(* ===== verification/Effects.v ===== *)
(** * Programs with effects

    A program of a component that calls others is a tree of calls with their
    continuations, over the calls [Op] it makes; a run is the list of its calls
    with the answers they got. Used wherever code calls other components or
    shares state with other goroutines. *)

From S2P Require Import Prelude.

Inductive prog (Op : Set -> Type) (A : Type) : Type :=
| Ret (a : A)
| Do {R : Set} (o : Op R) (k : R -> prog Op A).
Arguments Ret {Op A} a.
Arguments Do {Op A R} o k.

Notation "x <-! o ; k" := (Do o (fun x => k))
  (at level 100, o at next level, k at level 200, right associativity) : go_scope.
Notation "'do!' o ; k" := (Do o (fun _ => k))
  (at level 100, o at next level, k at level 200, right associativity) : go_scope.

Fixpoint andThen {Op A B} (p : prog Op A) (k : A -> prog Op B) : prog Op B :=
  match p with
  | Ret a => k a
  | Do o f => Do o (fun r => andThen (f r) k)
  end.
Notation "x <~ p ; k" := (andThen p (fun x => k))
  (at level 100, p at next level, k at level 200, right associativity) : go_scope.

(** A call and its answer. *)
Inductive event (Op : Set -> Type) : Type :=
| Ev {R : Set} (o : Op R) (r : R).
Arguments Ev {Op R} o r.

(** [runs p t a]: [p] can make the calls of [t], with those answers, and return [a]. *)
Fixpoint runs {Op A} (p : prog Op A) (t : list (event Op)) (a : A) : Prop :=
  match p with
  | Ret b => t = [] /\ a = b
  | Do o k => exists r t', t = Ev o r :: t' /\ runs (k r) t' a
  end.

(** Running a program against a state that answers its calls. *)
Fixpoint interp {Op A S} (h : forall R : Set, Op R -> S -> S * R) (p : prog Op A) (s : S)
  : S * list (event Op) * A :=
  match p with
  | Ret a => (s, [], a)
  | Do o k => let '(s, r) := h _ o s in
              let '(s, t, a) := interp h (k r) s in (s, Ev o r :: t, a)
  end.

Lemma interp_runs {Op A S} (h : forall R : Set, Op R -> S -> S * R) (p : prog Op A) s s' t a :
  interp h p s = (s', t, a) -> runs p t a.
Proof.
  revert s t. induction p as [b|R o k IH]; intros s t; simpl.
  - by intros [= _ <- <-].
  - destruct (h R o s) as [s1 r]. destruct (interp h (k r) s1) as [[s2 t2] a2] eqn:E.
    intros [= -> <- ->]. eauto.
Qed.

Lemma runs_andThen {Op A B} (p : prog Op A) (k : A -> prog Op B) t b :
  runs (andThen p k) t b <-> exists t1 t2 a, t = t1 ++ t2 /\ runs p t1 a /\ runs (k a) t2 b.
Proof.
  revert t. induction p as [a|R o f IH]; intros t; simpl.
  - split.
    + intros H. by exists [], t, a.
    + by intros (t1 & t2 & a' & -> & [-> ->] & H).
  - split.
    + intros (r & t' & -> & H). apply IH in H as (t1 & t2 & a & -> & H1 & H2).
      exists (Ev o r :: t1), t2, a. split; [done|]. eauto.
    + intros (t1 & t2 & a & -> & (r & t' & -> & H1) & H2). exists r, (t' ++ t2). split; [done|].
      apply IH. eauto 10.
Qed.

Lemma interp_andThen {Op A B S} (h : forall R : Set, Op R -> S -> S * R) (p : prog Op A) (k : A -> prog Op B) s :
  interp h (andThen p k) s =
  let '(s, t1, a) := interp h p s in let '(s, t2, b) := interp h (k a) s in (s, t1 ++ t2, b).
Proof.
  revert s. induction p as [a|R o f IH]; intros s; simpl.
  - by destruct (interp h (k a) s) as [[? ?] ?].
  - destruct (h R o s) as [s1 r]. rewrite IH. destruct (interp h (f r) s1) as [[s2 t2] a2].
    by destruct (interp h (k a2) s2) as [[? ?] ?].
Qed.

(** What every operation keeps, a program keeps. *)
Lemma interp_keeps {Op A S} (h : forall R : Set, Op R -> S -> S * R) (I : S -> Prop) (p : prog Op A) s :
  (forall (R : Set) (o : Op R) s, I s -> I (h R o s).1) -> I s -> I (interp h p s).1.1.
Proof.
  intros Hh. revert s. induction p as [a|R o k IH]; intros s Hs; simpl; [done|].
  pose proof (Hh R o s Hs) as Ho. destruct (h R o s) as [s1 r]. specialize (IH r s1 Ho).
  by destruct (interp h (k r) s1) as [[s2 t] a].
Qed.

(** One step of inversion of [runs] through calls, with the answers named. *)
Ltac runs_inv :=
  repeat match goal with
  | H : runs (Ret _) _ _ |- _ => destruct H as [-> ->]
  | H : runs (Do _ _) _ _ |- _ => destruct H as (? & ? & -> & H); cbn [runs] in H
  | H : _ = [] /\ _ = _ |- _ => destruct H as [-> ->]
  | H : exists r t', _ = Ev _ r :: t' /\ _ |- _ => destruct H as (? & ? & -> & H)
  end.
