(* ===== verification/Threads.v ===== *)
(** * Programs that interleave

    A pool of threads, each a program of Effects.v, over a shared state: one
    operation of one thread at a time. The environment chooses the thread and
    what the operation leaves open ([O]). [safe] is the rely-guarantee
    condition of one thread, and [pool_step] the rule that composes them. Used
    by ConnThreads.v, Transport.v, Bridge.v and Udp.v. *)

From S2P Require Import Prelude Effects.

Section threads.
Context {Op : Set -> Type} {S I O : Type} `{Countable I}.

(** One operation of thread [i]; [None] blocks. *)
Variable exec : forall (i : I) (R : Set), Op R -> O -> S -> option (S * R).

Record pool := mkPool { shared : S; threads : gmap I (prog Op unit) }.

Definition finished (i : I) (w : pool) : bool :=
  match threads w !! i with Some (Do _ _) => false | _ => true end.

(** Thread [i] makes one operation, if it can. *)
Definition run_thread (i : I) (ora : O) (w : pool) : pool :=
  match threads w !! i with
  | Some (Do o k) =>
    match exec i _ o ora (shared w) with
    | Some (s, r) => mkPool s (<[i := k r]> (threads w))
    | None => w
    end
  | _ => w
  end.

Lemma run_thread_at i ora w q : threads w !! i = Some q ->
  run_thread i ora w =
  match q with
  | Do o k => match exec i _ o ora (shared w) with Some (s, r) => mkPool s (<[i := k r]> (threads w)) | None => w end
  | Ret _ => w
  end.
Proof.
  intros E. unfold run_thread. destruct (threads w !! i) as [x|]; [|done]. by injection E as ->.
Qed.
Lemma run_thread_none i ora w : threads w !! i = None -> run_thread i ora w = w.
Proof. intros E. unfold run_thread. by destruct (threads w !! i). Qed.

(** A new thread, with what its start changes in the state. *)
Definition start_thread (i : I) (s : S) (p : prog Op unit) (w : pool) : pool :=
  mkPool s (<[i := p]> (threads w)).

(** A program with no step of another thread in between; the environment
    answers every access in the same way. *)
Fixpoint alone {A} (i : I) (ora : O) (p : prog Op A) (s : S) : option (S * A) :=
  match p with
  | Ret a => Some (s, a)
  | Do o k => match exec i _ o ora s with Some (s', r) => alone i ora (k r) s' | None => None end
  end.

Lemma alone_bind {A B} i ora (p : prog Op A) (k : A -> prog Op B) s :
  alone i ora (andThen p k) s =
  match alone i ora p s with Some (s', a) => alone i ora (k a) s' | None => None end.
Proof.
  revert s. induction p as [a|T o f IH]; intros s; simpl; [done|]. destruct (exec _ _ o ora s) as [[s' r]|]; [apply IH|done].
Qed.

Section rely.
Variables (inv : S -> Prop) (rely : I -> S -> S -> Prop).
Hypothesis rely_refl : forall i s, rely i s s.
Hypothesis rely_trans : forall i s1 s2 s3, rely i s1 s2 -> rely i s2 s3 -> rely i s1 s3.

(** What thread [i] may do to a state: keep the invariant, and what the other
    threads rely on. *)
Definition allowed (i : I) (s s' : S) : Prop := inv s' /\ forall j, j <> i -> rely j s s'.

(** From [s] on, every operation of [p] is allowed, whatever the others do in
    between; [Q] holds of the state right after the last one, and the result. *)
Fixpoint safe {A} (i : I) (p : prog Op A) (Q : S -> A -> Prop) (s : S) : Prop :=
  match p with
  | Ret a => Q s a
  | Do o k => forall s1 ora s2 r, rely i s s1 -> inv s1 -> exec i _ o ora s1 = Some (s2, r) ->
      allowed i s1 s2 /\ safe i (k r) Q s2
  end.

Lemma safe_bind {A B} i (p : prog Op A) (k : A -> prog Op B) Q R s :
  safe i p Q s -> inv s -> (forall s a, inv s -> Q s a -> safe i (k a) R s) -> safe i (andThen p k) R s.
Proof.
  revert s. induction p as [a|T o f IH]; intros s Hs Hi Hk; simpl in *; [by apply Hk|].
  intros s1 ora s2 r Hr Hi1 He. destruct (Hs _ _ _ _ Hr Hi1 He) as [Ha Hf].
  split; [done|]. destruct Ha as [Hi2 _]. by apply IH.
Qed.

Lemma safe_conseq {A} i (p : prog Op A) (Q R : S -> A -> Prop) s :
  safe i p Q s -> (forall s a, Q s a -> R s a) -> safe i p R s.
Proof.
  intros Hs HQ. revert s Hs. induction p as [a|T o f IH]; intros s Hs; simpl in *; [auto|].
  intros s1 ora s2 r Hr Hi1 He. destruct (Hs _ _ _ _ Hr Hi1 He). eauto.
Qed.

Definition anything {A} (s : S) (a : A) : Prop := True.

Lemma safe_rely i (p : prog Op unit) s s' : rely i s s' -> safe i p anything s -> safe i p anything s'.
Proof. destruct p as [a|T o k]; simpl; [done|]. intros Hr Hs s1 ora s2 r Hr1. eauto. Qed.

Record pool_ok (w : pool) : Prop := {
  pool_inv : inv (shared w);
  pool_safe : forall i p, threads w !! i = Some p -> safe i p anything (shared w) }.

Lemma pool_step i ora w : pool_ok w -> pool_ok (run_thread i ora w).
Proof.
  intros [Hi Hs]. unfold run_thread. destruct (threads w !! i) as [[a|T o k]|] eqn:Ht; try by split.
  destruct (exec i T o ora (shared w)) as [[s r]|] eqn:He; [|by split].
  destruct (Hs _ _ Ht _ _ _ _ (rely_refl i (shared w)) Hi He) as [[Hi' Ho] Hk].
  split; [done|]. simpl. intros j p. rewrite lookup_insert_Some. intros [[<- <-]|[Hne Hj]]; [done|].
  eapply safe_rely; [by apply Ho|by apply Hs].
Qed.

(** The environment changes the state. *)
Lemma pool_env s w :
  pool_ok w -> inv s -> (forall j, finished j w = false -> rely j (shared w) s) ->
  pool_ok (mkPool s (threads w)).
Proof.
  intros [Hi Hs] Hi' Hr. split; [done|]. simpl. intros j p Hj. specialize (Hs j p Hj).
  destruct p as [a|T o k]; [done|]. eapply safe_rely; [|done].
  apply Hr. unfold finished. by rewrite Hj.
Qed.

(** A thread that finished, or was never there, starts. *)
Lemma pool_start i s p w :
  pool_ok w -> inv s -> (forall j, j <> i -> finished j w = false -> rely j (shared w) s) ->
  safe i p anything s -> pool_ok (start_thread i s p w).
Proof.
  intros [Hi Hs] Hi' Hr Hp. split; [done|]. simpl.
  intros j q. rewrite lookup_insert_Some. intros [[<- <-]|[Hne Hj]]; [done|].
  specialize (Hs j q Hj). destruct q as [a|T o k]; [done|]. eapply safe_rely; [|done].
  apply Hr; [done|]. unfold finished. by rewrite Hj.
Qed.
End rely.
End threads.
Arguments pool : clear implicits.
Arguments pool Op S I {_ _}.
