(* ===== verification/ConnThreads.v ===== *)
(** * network/base_connection.go: the goroutines of one connection

    Conn.v has the methods of a connection as functions; here they are the
    programs its goroutines run, one access to what they share at a time: the
    atomic state, the reason, the context, the timer, the cipher, the send
    queue and the handler. The goroutine that starts the connection, its read
    and write loops, the handshake timer, the goroutine of OnClose and any
    number of callers of SendMessage and Close interleave (Threads.v). *)

From S2P Require Import Prelude Protocol Codec Cipher Conn Effects Threads.

(** The calls of the handler, begun and ended. *)
Inductive call :=
| CConnecting | CConnected (err : option nerr)
| CMessage (f : MessageFrame) | CHandled (err : option nerr)
| CClosed (err : option nerr).

Inductive loop := NotStarted | Waiting | Working | Ended.
#[export] Instance loop_eq_dec : EqDecision loop.
Proof. solve_decision. Defined.

(** The goroutines. *)
Inductive tid := TStart | TRead | TWrite | TTimer | TNotify | TCaller (n : N).
#[export] Instance tid_eq_dec : EqDecision tid.
Proof. solve_decision. Defined.
#[export] Instance tid_countable : Countable tid.
Proof.
  refine (inj_countable'
    (fun t => match t with TStart => inl 0%N | TRead => inl 1%N | TWrite => inl 2%N
                         | TTimer => inl 3%N | TNotify => inl 4%N | TCaller n => inr n end)
    (fun s => match s with inl 0%N => TStart | inl 1%N => TRead | inl 2%N => TWrite
                         | inl 3%N => TTimer | inl _ => TNotify | inr n => TCaller n end) _).
  by intros [].
Defined.

(** A connection with its goroutines: [l_conn] as in Conn.v; whether the timer
    was stored; the two loops, and what the write loop left its select with; the
    goroutine of OnClose; whether the socket was closed; and what happened: the
    frames accepted by the queue, with their bytes, the messages taken from it,
    whether a write failed, the handler's calls, the success of the
    compare-and-swap to Ready, who closed the connection, and a run-time panic. *)
Record life := mkLife {
  l_conn : Conn;
  l_stored : bool;
  l_reader : loop;
  l_writer : loop;
  l_exit : option (option nerr);
  l_notify : loop;
  l_socket_closed : bool;
  l_accepted : list (MessageFrame * list Z);
  l_taken : list (list Z);
  l_failed : bool;
  l_calls : list call;
  l_ready : bool;
  l_closer : option tid;
  l_panicked : bool
}.

Definition with_conn (b : Conn) (s : life) : life :=
  mkLife b (l_stored s) (l_reader s) (l_writer s) (l_exit s) (l_notify s) (l_socket_closed s)
    (l_accepted s) (l_taken s) (l_failed s) (l_calls s) (l_ready s) (l_closer s) (l_panicked s).
Definition with_loops (r w : loop) (ex : option (option nerr)) (s : life) : life :=
  mkLife (l_conn s) (l_stored s) r w ex (l_notify s) (l_socket_closed s)
    (l_accepted s) (l_taken s) (l_failed s) (l_calls s) (l_ready s) (l_closer s) (l_panicked s).
Definition with_stored (s : life) : life :=
  mkLife (l_conn s) true (l_reader s) (l_writer s) (l_exit s) (l_notify s) (l_socket_closed s)
    (l_accepted s) (l_taken s) (l_failed s) (l_calls s) (l_ready s) (l_closer s) (l_panicked s).
Definition with_notify (n : loop) (s : life) : life :=
  mkLife (l_conn s) (l_stored s) (l_reader s) (l_writer s) (l_exit s) n (l_socket_closed s)
    (l_accepted s) (l_taken s) (l_failed s) (l_calls s) (l_ready s) (l_closer s) (l_panicked s).
Definition with_socket_closed (s : life) : life :=
  mkLife (l_conn s) (l_stored s) (l_reader s) (l_writer s) (l_exit s) (l_notify s) true
    (l_accepted s) (l_taken s) (l_failed s) (l_calls s) (l_ready s) (l_closer s) (l_panicked s).
Definition with_queue (b : Conn) (acc : list (MessageFrame * list Z)) (taken : list (list Z)) (failed : bool) (s : life) : life :=
  mkLife b (l_stored s) (l_reader s) (l_writer s) (l_exit s) (l_notify s) (l_socket_closed s)
    acc taken failed (l_calls s) (l_ready s) (l_closer s) (l_panicked s).
Definition with_call (b : Conn) (c : call) (s : life) : life :=
  mkLife b (l_stored s) (l_reader s) (l_writer s) (l_exit s) (l_notify s) (l_socket_closed s)
    (l_accepted s) (l_taken s) (l_failed s) (l_calls s ++ [c]) (l_ready s) (l_closer s) (l_panicked s).
Definition with_ready (b : Conn) (s : life) : life :=
  mkLife b (l_stored s) (l_reader s) (l_writer s) (l_exit s) (l_notify s) (l_socket_closed s)
    (l_accepted s) (l_taken s) (l_failed s) (l_calls s) true (l_closer s) (l_panicked s).
Definition with_panic (s : life) : life :=
  mkLife (l_conn s) (l_stored s) (l_reader s) (l_writer s) (l_exit s) (l_notify s) (l_socket_closed s)
    (l_accepted s) (l_taken s) (l_failed s) (l_calls s) (l_ready s) (l_closer s) true.

Definition with_closer (b : Conn) (i : tid) (s : life) : life :=
  mkLife b (l_stored s) (l_reader s) (l_writer s) (l_exit s) (l_notify s) (l_socket_closed s)
    (l_accepted s) (l_taken s) (l_failed s) (l_calls s) (l_ready s) (Some i) (l_panicked s).

Definition set_closeErr (b : Conn) (err : option nerr) : Conn :=
  mkConn (role b) (state b) (options b) (sendChannel b) (cipher b) (cancelled b) err
    (handshakeTimer b) (readyCh_closed b) (lastActive b) (connected b) (delivered b) (written b).
Definition set_cancelled (b : Conn) : Conn :=
  mkConn (role b) (state b) (options b) (sendChannel b) (cipher b) true (closeErr b)
    (handshakeTimer b) (readyCh_closed b) (lastActive b) (connected b) (delivered b) (written b).

(** ** The accesses *)

Inductive cop : Set -> Type :=
| LoadState : cop ConnectionState
| SwapClosed : cop ConnectionState                       (* state.Swap(Closed) *)
| CAS (old new : ConnectionState) : cop bool
| StoreCloseErr (err : option nerr) : cop unit
| LoadCloseErr : cop (option nerr)
| Cancel : cop unit
| AfterFunc : cop unit                                   (* timer.After *)
| StoreTimer : cop unit
| StopTimer : cop unit                                   (* of the stored timer, if any *)
| Touch (now : Z) : cop unit
| LoadActive : cop Z
| NewCipher (seed : Z) : cop (option nerr)
| PublicKey : cop (list Z)
| Derive (peer : list Z) : cop (option nerr)             (* cipher.GenerateSharedKey *)
| Crypt (dec : bool) (body : list Z) : cop (res nerr (list Z))
| PushQueue (f : MessageFrame) (message : list Z) : cop (option nerr)
| BeginConnected : cop unit
| EndConnected : cop (option nerr)
| CloseReady : cop unit                                  (* close(readyCh) *)
| BeginMessage (f : MessageFrame) : cop unit
| EndMessage : cop (option nerr)
| GoWrite : cop unit                                     (* group.Go(runWriteLoop) *)
| GoRead : cop unit
| AwaitRead : cop unit                                   (* the read loop reads again *)
| EndRead : cop unit
| Select : cop unit                                      (* the write loop's next select *)
| Receive : cop (option (list Z))                        (* from sendChannel, or the default case *)
| WriteRaw (message : list Z) : cop (option nerr)
| LeaveSelect (err : option nerr) : cop unit             (* the deferred function starts *)
| GoNotify : cop unit                                    (* SafeGo of OnClose *)
| CallClosed (err : option nerr) : cop unit
| CloseSocket : cop unit
| EndWrite : cop unit.

Section programs.
Context `{KeyAgreement}.
Variables (o : CommonConfig) (r : ConnectionRole).

Definition Close (err : option nerr) : prog cop unit :=
  old <-! SwapClosed;
  if decide (old = ConnectionStateClosed) then Ret tt
  else do! StoreCloseErr err; do! Cancel; do! StopTimer; Ret tt.

Definition encrypt (plaintext : list Z) : prog cop (res nerr (list Z)) :=
  st <-! LoadState;
  if negb (bool_decide (st = ConnectionStateReady)) then Ret (Err ErrHandshakeNotComplete)
  else if negb (EncryptEnable o) then Ret (Ok plaintext)
  else y <-! Crypt false plaintext; Ret y.

Definition decrypt (ciphertext : list Z) : prog cop (res nerr (list Z)) :=
  if negb (EncryptEnable o) then Ret (Ok ciphertext)
  else
    st <-! LoadState;
    if negb (bool_decide (st = ConnectionStateReady)) then Ret (Err ErrHandshakeNotComplete)
    else x <-! Crypt true ciphertext; Ret x.

(** What the codec does to a frame that is sent, and to one that is received. *)
Definition code_frame (frame : MessageFrame) : res nerr MessageFrame :=
  match o_Codec o with
  | None => Ok frame
  | Some codec =>
    match c_Encode codec (f_Body frame) with
    | Err e => Err (NCodec e)
    | Ok (body, flags) => Ok (with_Flags (with_Body frame body) flags)
    end
  end.
Definition decode_frame (frame : MessageFrame) : res nerr MessageFrame :=
  match o_Codec o with
  | None => Ok frame
  | Some codec =>
    match c_Decode codec (f_Body frame) (f_Flags frame) with
    | Err e => Err (NCodec e)
    | Ok body => Ok (with_Body frame body)
    end
  end.

Definition sendFrame (frame : option MessageFrame) : prog cop (option nerr) :=
  match frame with
  | None => Ret (Some ErrFrameNil)
  | Some frame =>
    match code_frame frame with
    | Err e => Ret (Some e)
    | Ok copyFrame =>
      body <~ (if negb (IsInternalCommand (f_Cmd copyFrame)) then encrypt (f_Body copyFrame)
               else Ret (Ok (f_Body copyFrame)));
      match body with
      | Err e => Ret (Some e)
      | Ok body =>
        match EncodeMessageFrameWithLimit (with_Body copyFrame body) (MaxOutboundSize o) with
        | Err e => Ret (Some (NProto e))
        | Ok bytes => err <-! PushQueue frame bytes; Ret err
        end
      end
    end
  end.

Definition SendMessage (frame : option MessageFrame) : prog cop (option nerr) :=
  st <-! LoadState;
  if decide (st = ConnectionStateClosed) then Ret (Some ErrConnectionClosed) else sendFrame frame.

Definition sendExchangeKey : prog cop (option nerr) :=
  pub <-! PublicKey;
  sendFrame (Some (mkFrame InternalCmd InternalKeyExchange 0 0 0 0 pub)).

Definition onReady : prog cop (option nerr) :=
  do! StopTimer; do! BeginConnected;
  err <-! EndConnected;
  match err with
  | Some err => Ret (Some err)
  | None => do! CloseReady; Ret None
  end.

Definition startHandshake (seed : Z) : prog cop (option nerr) :=
  err <-! NewCipher seed;
  match err with
  | Some err => Ret (Some err)
  | None =>
    err <~ (if decide (r = ConnectionRoleClient) then sendExchangeKey else Ret None);
    match err with
    | Some err => Ret (Some err)
    | None => do! AfterFunc; do! StoreTimer; Ret None
    end
  end.

Definition start (seed : Z) : prog cop (option nerr) :=
  ok <-! CAS ConnectionStateCreated ConnectionStateHandshaking;
  if negb ok then Ret (Some ErrInvalidConnectionState)
  else if negb (EncryptEnable o)
  then ok <-! CAS ConnectionStateHandshaking ConnectionStateReady;
       if negb ok then Ret (Some ErrInvalidConnectionState) else onReady
  else startHandshake seed.

Definition runStart (seed : Z) : prog cop unit :=
  do! GoWrite;
  err <~ start seed;
  match err with
  | Some err => Close (Some err)
  | None => do! GoRead; Ret tt
  end.

(** *** Receiving *)

Definition handleKeyExchange (frame : MessageFrame) : prog cop (option nerr) :=
  ok <-! CAS ConnectionStateHandshaking ConnectionStateReady;
  if negb ok then Ret None
  else
    err <~ (if decide (r = ConnectionRoleServer) then sendExchangeKey else Ret None);
    match err with
    | Some err => Ret (Some err)
    | None =>
      err <-! Derive (f_Body frame);
      match err with Some err => Ret (Some err) | None => onReady end
    end.

Definition prepareMessageFrame (frame : MessageFrame) : prog cop (res nerr MessageFrame) :=
  body <~ (if negb (IsInternalCommand (f_Cmd frame)) then decrypt (f_Body frame) else Ret (Ok (f_Body frame)));
  match body with
  | Err e => Ret (Err e)
  | Ok body => Ret (decode_frame (with_Body frame body))
  end.

Definition processFrame (frame : MessageFrame) : prog cop (option nerr) :=
  if IsInternalCommand (f_Cmd frame) then
    if f_Act frame =? InternalActClose then Ret (Some ErrInvalidConnectionState)
    else if f_Act frame =? InternalKeyExchange then handleKeyExchange frame
    else Ret (Some (NProto ErrUnknownInternalAct))
  else
    st <-! LoadState;
    if negb (bool_decide (st = ConnectionStateReady)) then Ret (Some ErrHandshakeNotComplete)
    else do! BeginMessage frame; err <-! EndMessage; Ret err.

(** [onProcess] of a frame that was decoded. *)
Definition onFrame (now : Z) (frame : MessageFrame) : prog cop (option nerr) :=
  do! Touch now;
  prepared <~ prepareMessageFrame frame;
  match prepared with
  | Err e => Ret (Some e)
  | Ok frame => processFrame frame
  end.

Definition read_end (err : option nerr) : prog cop unit := do! EndRead; Close err.

(** The read loop with the next frame of its stream, and when it ends. *)
Definition read_frame (now : Z) (frame : MessageFrame) : prog cop unit :=
  err <~ onFrame now frame;
  match err with
  | Some err => read_end (Some err)
  | None => do! AwaitRead; Ret tt
  end.

(** *** The write loop *)

Definition checkHeartbeatTimeout (now : Z) : prog cop (option nerr) :=
  st <-! LoadState;
  if decide (st = ConnectionStateHandshaking) then Ret None
  else
    last <-! LoadActive;
    if now - last >=? HeartbeatTimeout o then Ret (Some ErrHeartbeatTimeout) else Ret None.

(** An iteration of the select of [runWriteLoop]; an error leaves it. *)
Definition write_next (err : option nerr) : prog cop unit :=
  match err with
  | Some err => do! LeaveSelect (Some err); Ret tt
  | None => do! Select; Ret tt
  end.
Definition write_loop (e : write_event) : prog cop unit :=
  match e with
  | WDone => do! LeaveSelect None; Ret tt
  | WTick now => err <~ checkHeartbeatTimeout now; write_next err
  | WMessage =>
    message <-! Receive;
    match message with
    | None => do! LeaveSelect None; Ret tt
    | Some message => err <-! WriteRaw message; write_next err
    end
  end.

(** The deferred function after [drainMessages]. *)
Definition write_end (err : option nerr) : prog cop unit :=
  done <~ Close err; do! GoNotify; do! CloseSocket; do! EndWrite; Ret tt.

(** An iteration of [drainMessages], and what follows its last. *)
Definition write_drain (err : option nerr) : prog cop unit :=
  message <-! Receive;
  match message with
  | None => write_end err
  | Some message =>
    failed <-! WriteRaw message;
    match failed with
    | Some _ => write_end err
    | None => do! Select; Ret tt
    end
  end.

Definition notify : prog cop unit := err <-! LoadCloseErr; do! CallClosed err; Ret tt.
Definition send (frame : option MessageFrame) : prog cop unit := err <~ SendMessage frame; Ret tt.

(** ** One access *)

(** What the environment decides: the result of a handler or of a write, and
    which ready case a [select] takes. *)
Record oracle := mkOracle { o_err : option nerr; o_done : bool }.

(** A method of a nil cipher panics. *)
Definition use_cipher {R : Set} (s : life) (default : R) (f : ECDHCipher -> life * R) : option (life * R) :=
  match cipher (l_conn s) with
  | None => Some (with_panic s, default)
  | Some c => Some (f c)
  end.

Definition exec (i : tid) (R : Set) (op : cop R) (e : oracle) (s : life) : option (life * R) :=
  let b := l_conn s in
  match op in cop R return option (life * R) with
  | LoadState => Some (s, state b)
  | SwapClosed =>
    let b' := set_state b ConnectionStateClosed in
    Some ((if decide (state b = ConnectionStateClosed) then with_conn b' s else with_closer b' i s), state b)
  | CAS old new =>
    match CompareAndSwap b old new with
    | Some b => Some ((if decide (new = ConnectionStateReady) then with_ready b s else with_conn b s), true)
    | None => Some (s, false)
    end
  | StoreCloseErr err => Some (with_conn (set_closeErr b err) s, tt)
  | LoadCloseErr => Some (s, closeErr b)
  | Cancel => Some (with_conn (set_cancelled b) s, tt)
  | AfterFunc => Some (with_conn (set_timer b true) s, tt)
  | StoreTimer => Some (with_stored s, tt)
  | StopTimer => Some (if l_stored s then with_conn (set_timer b false) s else s, tt)
  | Touch now => Some (with_conn (touch b now) s, tt)
  | LoadActive => Some (s, lastActive b)
  | NewCipher seed =>
    match NewECDHCipher seed with
    | Err e => Some (with_conn (put_cipher b None) s, Some (NCipher e))
    | Ok c => Some (with_conn (set_cipher b c) s, None)
    end
  | PublicKey => use_cipher s [] (fun c => (s, publicKey c))
  | Derive peer =>
    use_cipher s None (fun c =>
      match GenerateSharedKey c peer with
      | Err e => (s, Some (NCipher e))
      | Ok c => (with_conn (set_cipher b c) s, None)
      end)
  | Crypt dec body =>
    use_cipher s (Err (NCipher ErrInvalidKey)) (fun c =>
      (s, match crypt c body dec with Ok x => Ok x | Err e => Err (NCipher e) end))
  | PushQueue f message =>
    match pushQueue (fun _ => o_done e) b message with
    | (b', None) => Some (with_queue b' (l_accepted s ++ [(f, message)]) (l_taken s) (l_failed s) s, None)
    | (_, err) => Some (s, err)
    end
  | BeginConnected => Some (with_call (set_ready b true (readyCh_closed b)) CConnecting s, tt)
  | EndConnected => Some (with_call b (CConnected (o_err e)) s, o_err e)
  | CloseReady =>
    if readyCh_closed b then Some (with_panic s, tt)
    else Some (with_conn (set_ready b (connected b) true) s, tt)
  | BeginMessage f => Some (with_call (deliver b f) (CMessage f) s, tt)
  | EndMessage => Some (with_call b (CHandled (o_err e)) s, o_err e)
  | GoWrite => Some (with_loops (l_reader s) Waiting (l_exit s) s, tt)
  | GoRead => Some (with_loops Waiting (l_writer s) (l_exit s) s, tt)
  | AwaitRead => Some (with_loops Waiting (l_writer s) (l_exit s) s, tt)
  | EndRead => Some (with_loops Ended (l_writer s) (l_exit s) s, tt)
  | Select => Some (with_loops (l_reader s) Waiting (l_exit s) s, tt)
  | Receive =>
    match sendChannel b with
    | [] => Some (s, None)
    | m :: q => Some (with_queue (set_send b q) (l_accepted s) (l_taken s ++ [m]) (l_failed s) s, Some m)
    end
  | WriteRaw m =>
    match o_err e with
    | Some err => Some (with_queue b (l_accepted s) (l_taken s) true s, Some err)
    | None => Some (with_conn (wrote b m) s, None)
    end
  | LeaveSelect err => Some (with_loops (l_reader s) Waiting (Some err) s, tt)
  | GoNotify => Some (with_notify Waiting s, tt)
  | CallClosed err => Some (with_notify Ended (with_call b (CClosed err) s), tt)
  | CloseSocket => Some (with_socket_closed s, tt)
  | EndWrite => Some (with_loops (l_reader s) Ended (l_exit s) s, tt)
  end.

(** ** The goroutines *)

Abbreviation conn_pool := (pool cop life tid).

(** What starts a goroutine or wakes a loop. [Select] takes a case that is ready:
    a done context, a tick, a message. *)
Inductive act :=
| Start (seed : Z)
| Frame (now : Z) (f : MessageFrame)       (* the read loop has a frame *)
| ReadEnds (err : option nerr)             (* its read fails, or its stream is malformed *)
| Writing (e : write_event)
| Draining
| TimerFires
| Notify                                   (* the goroutine of OnClose is scheduled *)
| CallSend (n : N) (f : option MessageFrame)
| CallClose (n : N) (err : option nerr)
| Step (i : tid) (e : oracle).

Definition write_ready (s : life) (e : write_event) : bool :=
  match e with
  | WDone => cancelled (l_conn s)
  | WTick _ => true
  | WMessage => negb (bool_decide (sendChannel (l_conn s) = []))
  end.

Definition step (w : conn_pool) (a : act) : conn_pool :=
  let s := shared w in
  let go i s p := if finished i w then start_thread i s p w else w in
  let reading := with_loops Working (l_writer s) (l_exit s) s in
  let writing := with_loops (l_reader s) Working (l_exit s) s in
  match a with
  | Start seed => if bool_decide (l_writer s = NotStarted) then go TStart s (runStart seed) else w
  | Frame now f => if bool_decide (l_reader s = Waiting) then go TRead reading (read_frame now f) else w
  | ReadEnds err => if bool_decide (l_reader s = Waiting) then go TRead reading (read_end err) else w
  | Writing e =>
    if bool_decide (l_writer s = Waiting /\ l_exit s = None) && write_ready s e
    then go TWrite writing (write_loop e) else w
  | Draining =>
    match l_exit s with
    | Some err => if bool_decide (l_writer s = Waiting) then go TWrite writing (write_drain err) else w
    | None => w
    end
  | TimerFires =>
    if handshakeTimer (l_conn s)
    then go TTimer (with_conn (set_timer (l_conn s) false) s) (Close (Some ErrHandshakeTimeout)) else w
  | Notify => if bool_decide (l_notify s = Waiting) then go TNotify (with_notify Working s) notify else w
  | CallSend n f => go (TCaller n) s (send f)
  | CallClose n err => go (TCaller n) s (Close err)
  | Step i e => run_thread exec i e w
  end.

Definition fresh (now : Z) : conn_pool :=
  mkPool (mkLife (newBaseConnWithRole o r now) false NotStarted NotStarted None NotStarted false [] [] false [] false None false) ∅.
Definition run (w : conn_pool) (acts : list act) : conn_pool := fold_left step acts w.
End programs.
