(* ===== verification/ConnSafety.v ===== *)
(** * What a connection guarantees under every interleaving

    The rely-guarantee proof over ConnThreads.v: the handler's calls come one
    after the other, the state only advances and the first reason stays, what is
    queued is written in order, and nothing leaves an encrypted connection in
    the clear. *)

From S2P Require Import Prelude Protocol Codec Cipher Conn Effects Threads ConnThreads.

(** ** The order of the handler's calls *)

Inductive hphase := HNone | HConnecting | HIdle | HBusy | HFailed | HBad.
#[export] Instance hphase_eq_dec : EqDecision hphase.
Proof. solve_decision. Defined.

Definition h_next (p : hphase) (c : call) : hphase :=
  match c, p with
  | CClosed _, _ => p
  | CConnecting, HNone => HConnecting
  | CConnected None, HConnecting => HIdle
  | CConnected (Some _), HConnecting => HFailed
  | CMessage _, HIdle => HBusy
  | CHandled None, HBusy => HIdle
  | CHandled (Some _), HBusy => HFailed
  | _, _ => HBad
  end.
Definition h_phase (cs : list call) : hphase := fold_left h_next cs HNone.

Definition message_of (c : call) : option MessageFrame := match c with CMessage f => Some f | _ => None end.
Definition closing_of (c : call) : option (option nerr) := match c with CClosed err => Some err | _ => None end.
Definition work_of (c : call) : option call := match c with CClosed _ => None | c => Some c end.

(** A connection that came up and handled [ms]. *)
Definition turns (ms : list MessageFrame) : list call :=
  [CConnecting; CConnected None] ++ concat ((fun f => [CMessage f; CHandled None]) <$> ms).

(** OnConnected first and once; then OnMessage, each after the one before it
    returned without an error. *)
Definition in_turn (cs : list call) : Prop :=
  cs = [] \/ cs = [CConnecting] \/ (exists e, cs = [CConnecting; CConnected (Some e)]) \/
  exists ms, cs = turns ms \/ (exists f, cs = turns ms ++ [CMessage f]) \/
             exists f e, cs = turns ms ++ [CMessage f; CHandled (Some e)].

Lemma h_phase_snoc cs c : h_phase (cs ++ [c]) = h_next (h_phase cs) c.
Proof. unfold h_phase. by rewrite fold_left_app. Qed.

Lemma turns_snoc ms f : turns (ms ++ [f]) = turns ms ++ [CMessage f; CHandled None].
Proof. unfold turns. by rewrite fmap_app, concat_app, app_assoc. Qed.

(** What the automaton has seen. *)
Definition seen (p : hphase) (cs : list call) : Prop :=
  match p with
  | HNone => cs = []
  | HConnecting => cs = [CConnecting]
  | HIdle => exists ms, cs = turns ms
  | HBusy => exists ms f, cs = turns ms ++ [CMessage f]
  | HFailed => (exists e, cs = [CConnecting; CConnected (Some e)]) \/
               exists ms f e, cs = turns ms ++ [CMessage f; CHandled (Some e)]
  | HBad => True
  end.

#[local] Opaque turns.

Lemma h_phase_seen cs : seen (h_phase cs) (omap work_of cs).
Proof.
  induction cs as [|c cs IH] using rev_ind; [done|]. rewrite h_phase_snoc, omap_app.
  destruct c as [|[e|]|f|[e|]|e]; simpl; [..|by rewrite app_nil_r];
    destruct (h_phase cs); simpl in *; try done.
  - by rewrite IH.
  - rewrite IH. left. by exists e.
  - rewrite IH. by exists [].
  - destruct IH as [ms ->]. by exists ms, f.
  - destruct IH as (ms & f & ->). right. exists ms, f, e. by rewrite <- app_assoc.
  - destruct IH as (ms & f & ->). exists (ms ++ [f]). by rewrite turns_snoc, <- app_assoc.
Qed.

Lemma h_phase_in_turn cs : h_phase cs <> HBad -> in_turn (omap work_of cs).
Proof.
  pose proof (h_phase_seen cs) as Hs. unfold in_turn. intros Hb.
  destruct (h_phase cs); simpl in Hs; [by left|right; by left| | | |done].
  - destruct Hs as [ms ->]. do 3 right. exists ms. by left.
  - destruct Hs as (ms & f & ->). do 3 right. exists ms. right. left. by exists f.
  - destruct Hs as [?|(ms & f & e & ->)]; [right; right; by left|]. do 3 right. exists ms. do 2 right. by exists f, e.
Qed.

Lemma closing_keeps_phase cs e : h_phase (cs ++ [CClosed e]) = h_phase cs.
Proof. by rewrite h_phase_snoc. Qed.

Section Safety.
Context `{KeyAgreement}.
Variables (o : CommonConfig) (r : ConnectionRole).
(** The frames of the reserved command that users send. *)
Variable given : list MessageFrame.
Implicit Types (s : life) (b : Conn) (i : tid).

(** ** The invariant *)

Definition has_shared b : Prop := exists c, cipher b = Some c /\ zlen (sharedKey c) = aesKeySize.

Definition business (x : MessageFrame * list Z) : Prop := IsInternalCommand (f_Cmd x.1) = false.
Definition key_frame (x : MessageFrame * list Z) : Prop :=
  f_Cmd x.1 = InternalCmd /\ f_Act x.1 = InternalKeyExchange.

(** The bytes are those of the frame with its body coded and enciphered. *)
Definition sealed (c : ECDHCipher) (x : MessageFrame * list Z) : Prop :=
  zlen (sharedKey c) = aesKeySize /\
  exists f y, code_frame o x.1 = Ok f /\ Encrypt c (f_Body f) = Ok y /\
    EncodeMessageFrameWithLimit (with_Body f y) (MaxOutboundSize o) = Ok x.2.

Definition key_first (l : list (MessageFrame * list Z)) : Prop :=
  l = [] \/ exists x l', l = x :: l' /\ key_frame x /\ Forall business l'.

(** The connection encrypts, and its users send frames of their own commands only. *)
Definition strict : Prop := EncryptEnable o = true /\ given = [].

Definition owner_state s := (h_phase (l_calls s), cipher (l_conn s), readyCh_closed (l_conn s), l_ready s).

Record inv s : Prop := {
  v_conf : options (l_conn s) = o /\ role (l_conn s) = r;
  v_calls : h_phase (l_calls s) <> HBad;
  v_delivered : delivered (l_conn s) = omap message_of (l_calls s);
  v_early : rank (state (l_conn s)) < 2 -> l_ready s = false;
  v_isready : state (l_conn s) = ConnectionStateReady -> l_ready s = true;
  v_fresh : l_ready s = false ->
    h_phase (l_calls s) = HNone /\ readyCh_closed (l_conn s) = false /\ ~ has_shared (l_conn s) /\
    (strict -> r = ConnectionRoleServer -> l_accepted s = []);
  v_settled : l_reader s = Waiting -> l_ready s = true -> h_phase (l_calls s) = HIdle;
  v_plain : EncryptEnable o = false -> l_reader s <> NotStarted -> l_ready s = true;
  v_cipher : EncryptEnable o = true -> l_ready s = true \/ l_reader s <> NotStarted -> is_Some (cipher (l_conn s));
  v_unstarted : EncryptEnable o = true -> l_reader s = NotStarted -> l_ready s = false;
  v_client : strict -> r = ConnectionRoleClient -> l_reader s <> NotStarted -> l_accepted s <> [];
  v_keys : strict -> key_first (l_accepted s);
  v_reserved : Forall (fun x => business x \/ key_frame x \/ x.1 ∈ given) (l_accepted s);
  v_sealed : EncryptEnable o = true ->
    Forall (fun x => business x -> exists c, cipher (l_conn s) = Some c /\ sealed c x) (l_accepted s);
  v_shared : strict -> has_shared (l_conn s) -> l_accepted s <> [];
  v_queue : l_taken s ++ sendChannel (l_conn s) = (l_accepted s).*2;
  v_room : zlen (sendChannel (l_conn s)) <= Z.max 0 (SendChanSize o);
  v_written : written (l_conn s) `sublist_of` l_taken s;
  v_prefix : l_failed s = false -> written (l_conn s) `prefix_of` l_taken s;
  v_clean : l_writer s = Waiting -> l_failed s = false -> written (l_conn s) = l_taken s;
  v_unwritten : l_writer s = NotStarted ->
    l_reader s = NotStarted /\ l_ready s = false /\ l_taken s = [] /\ written (l_conn s) = [] /\
    (strict -> l_accepted s = []);
  v_notified : omap closing_of (l_calls s) = [] \/
    l_notify s = Ended /\ exists e, omap closing_of (l_calls s) = [e] /\
      (l_exit s = Some None -> e = closeErr (l_conn s));
  v_told : l_writer s = NotStarted \/ l_writer s = Waiting -> l_notify s = NotStarted;
  v_over : l_notify s <> NotStarted -> state (l_conn s) = ConnectionStateClosed /\ l_exit s <> None;
  v_closer : l_closer s = None <-> state (l_conn s) <> ConnectionStateClosed;
  v_cancelled : cancelled (l_conn s) = true -> state (l_conn s) = ConnectionStateClosed;
  v_exit : l_exit s = Some None -> cancelled (l_conn s) = true;
  v_panicked : l_panicked s = false
}.

(** ** What goroutines rely on *)

(** The goroutine that starts the connection has the handler and the cipher until
    the read loop starts; then the read loop has them. *)
Definition owns i s : Prop :=
  match i with
  | TStart => l_reader s = NotStarted
  | TRead => l_reader s = Working
  | _ => False
  end.

Definition own i s s' : Prop :=
  match i with
  | TStart => l_writer s = NotStarted -> l_writer s' = NotStarted
  | TWrite => l_writer s = Working ->
      l_writer s' = Working /\ l_taken s' = l_taken s /\ written (l_conn s') = written (l_conn s) /\
      l_failed s' = l_failed s /\ l_exit s' = l_exit s /\ sendChannel (l_conn s) `prefix_of` sendChannel (l_conn s') /\
      (l_notify s = NotStarted -> l_notify s' = NotStarted)
  | TNotify => l_notify s = Working -> l_notify s' = Working
  | _ => True
  end.

Record rely i s s' : Prop := {
  r_rank : rank (state (l_conn s)) <= rank (state (l_conn s'));
  r_cancel : cancelled (l_conn s) = true ->
    cancelled (l_conn s') = true /\ closeErr (l_conn s') = closeErr (l_conn s);
  r_ready : l_ready s = true -> l_ready s' = true;
  r_accepted : l_accepted s `prefix_of` l_accepted s';
  r_shared : has_shared (l_conn s) -> cipher (l_conn s') = cipher (l_conn s);
  r_started : l_reader s <> NotStarted -> l_reader s' <> NotStarted;
  r_up : l_writer s <> NotStarted -> l_writer s' <> NotStarted;
  r_exit : l_exit s <> None -> l_exit s' = l_exit s;
  r_owner : owns i s -> owns i s' /\ owner_state s' = owner_state s /\
    (strict -> ~ has_shared (l_conn s) -> l_accepted s' = l_accepted s);
  r_closer : l_closer s = Some i ->
    l_closer s' = Some i /\ cancelled (l_conn s') = cancelled (l_conn s) /\ closeErr (l_conn s') = closeErr (l_conn s);
  r_own : own i s s'
}.

Lemma owner_others i j s : j <> i -> owns i s -> owns j s -> False.
Proof. destruct i, j; simpl; intros; congruence || done. Qed.

Lemma has_shared_eq b b' : cipher b' = cipher b -> has_shared b -> has_shared b'.
Proof. intros E (c & Hc & Hz). exists c. by rewrite E. Qed.

Lemma life_rely_refl i s : rely i s s.
Proof.
  split; try done. by destruct i; simpl.
Qed.

Lemma life_rely_trans i s1 s2 s3 : rely i s1 s2 -> rely i s2 s3 -> rely i s1 s3.
Proof.
  intros [A1 A2 A3 A4 A5 A6 Au A7 A8 A9 A10] [B1 B2 B3 B4 B5 B6 Bu B7 B8 B9 B10]. split; auto.
  - lia.
  - intros Hc. destruct (A2 Hc) as [H1 E1], (B2 H1) as [H2 E2]. split; [done|congruence].
  - by etrans.
  - intros Hs. rewrite <- (A5 Hs). apply B5. eapply has_shared_eq; [by apply A5|done].
  - intros He. rewrite <- (A7 He). apply B7. by rewrite A7.
  - intros Ho. destruct (A8 Ho) as (H1 & E1 & F1), (B8 H1) as (H2 & E2 & F2). split_and!; [done|congruence|].
    intros Hen Hs. rewrite F2, F1; try done. intros Hs2. apply Hs. eapply has_shared_eq; [|exact Hs2].
    unfold owner_state in E1. congruence.
  - intros Hc. destruct (A9 Hc) as (H1 & E1 & F1), (B9 H1) as (H2 & E2 & F2). split_and!; congruence.
  - destruct i; simpl in *; auto. intros Hw. destruct (A10 Hw) as (H1 & E1 & E2 & E3 & E4 & P1 & N1).
    destruct (B10 H1) as (H2 & F1 & F2 & F3 & F4 & P2 & N2). split_and!; try congruence; [by etrans|auto].
Qed.

Abbreviation allowed := (allowed inv rely).
Abbreviation safe := (safe exec inv rely).

(** ** Accesses that change nothing these speak of *)

(** [s'] differs from [s] in the timer, the time of the last frame, the fact of
    OnConnected or the socket only. *)
Record quiet s s' : Prop := {
  q_conf : options (l_conn s') = options (l_conn s) /\ role (l_conn s') = role (l_conn s);
  q_state : state (l_conn s') = state (l_conn s);
  q_owner : l_calls s' = l_calls s /\ cipher (l_conn s') = cipher (l_conn s) /\
    readyCh_closed (l_conn s') = readyCh_closed (l_conn s) /\ l_ready s' = l_ready s;
  q_closing : cancelled (l_conn s') = cancelled (l_conn s) /\ closeErr (l_conn s') = closeErr (l_conn s) /\
    l_closer s' = l_closer s;
  q_delivered : delivered (l_conn s') = delivered (l_conn s);
  q_queue : sendChannel (l_conn s') = sendChannel (l_conn s) /\ written (l_conn s') = written (l_conn s) /\
    l_accepted s' = l_accepted s /\ l_taken s' = l_taken s /\ l_failed s' = l_failed s;
  q_loops : l_reader s' = l_reader s /\ l_writer s' = l_writer s /\ l_exit s' = l_exit s /\ l_notify s' = l_notify s;
  q_panicked : l_panicked s' = l_panicked s
}.

Lemma quiet_rely i s s' : quiet s s' -> rely i s s'.
Proof.
  intros [[A1 A2] A3 (A4 & A5 & A6 & A7) (A8 & A9 & A10) A11 (B1 & B2 & B3 & B4 & B5) (B6 & B7 & B8 & B9) B10].
  split; rewrite ?A3, ?A7, ?A8, ?A9, ?A10, ?B3, ?B6, ?B7, ?B8; try done.
  - unfold owns, owner_state. rewrite ?A4, ?A5, ?A6, ?A7, ?B6. done.
  - unfold own. rewrite ?B1, ?B2, ?B4, ?B5, ?B7, ?B8, ?B9. by destruct i; split_and?.
Qed.

Lemma quiet_inv s s' : quiet s s' -> inv s -> inv s'.
Proof.
  intros [[A1 A2] A3 (A4 & A5 & A6 & A7) (A8 & A9 & A10) A11 (B1 & B2 & B3 & B4 & B5) (B6 & B7 & B8 & B9) B10] [].
  unfold has_shared in *.
  split; rewrite ?A1, ?A2, ?A3, ?A4, ?A5, ?A6, ?A7, ?A8, ?A9, ?A10, ?A11, ?B1, ?B2, ?B3, ?B4, ?B5, ?B6, ?B7, ?B8, ?B9, ?B10;
    unfold has_shared; rewrite ?A5; done.
Qed.

Lemma life_quiet_allowed i s s' : inv s -> quiet s s' -> allowed i s s'.
Proof. intros Hi Hq. split; [by eapply quiet_inv|]. intros j _. by apply quiet_rely. Qed.

(** ** Closing *)

(** Goals about a state with some fields changed, from the invariant's facts
    about it before. *)
Ltac life_facts Hi := pose proof Hi as []; simpl in *.
Ltac life_other := let j := fresh "j" in let Hj := fresh "Hj" in
  intros j Hj; split; simpl; try done; try lia; try (by destruct j; simpl; intros; split_and?).

Lemma swap_allowed i s :
  inv s -> state (l_conn s) <> ConnectionStateClosed ->
  allowed i s (with_closer (set_state (l_conn s) ConnectionStateClosed) i s).
Proof.
  intros Hi Hs. life_facts Hi. split.
  - split; simpl; try done; try lia. intros Hn. by destruct (v_over0 Hn).
  - life_other; [by destruct (state (l_conn s)); simpl; lia|].
    intros Hc. apply v_closer0 in Hs. congruence.
Qed.

Lemma store_allowed i s err :
  inv s -> l_closer s = Some i -> cancelled (l_conn s) = false ->
  allowed i s (with_conn (set_closeErr (l_conn s) err) s).
Proof.
  intros Hi Hc Hk. life_facts Hi. split.
  - split; simpl; try done. destruct v_notified0 as [?|(Hn & e & He & Hx)]; [by left|right].
    split; [done|]. exists e. split; [done|]. intros Hx'. rewrite v_exit0 in Hk; done.
  - life_other; congruence.
Qed.

Lemma cancel_allowed i s :
  inv s -> l_closer s = Some i -> allowed i s (with_conn (set_cancelled (l_conn s)) s).
Proof.
  intros Hi Hc. life_facts Hi. split.
  - split; simpl; try done. intros _. destruct (decide (state (l_conn s) = ConnectionStateClosed)) as [|Hne]; [done|].
    apply v_closer0 in Hne. congruence.
  - life_other. congruence.
Qed.

(** What Close leaves alone. *)
Record apart s s' : Prop := {
  a_loops : l_reader s' = l_reader s /\ l_writer s' = l_writer s /\ l_exit s' = l_exit s /\ l_notify s' = l_notify s;
  a_queue : l_taken s' = l_taken s /\ l_failed s' = l_failed s /\ written (l_conn s') = written (l_conn s)
}.

Definition shut s : Prop := state (l_conn s) = ConnectionStateClosed.
Lemma life_shut_rely i s s' : rely i s s' -> shut s -> shut s'.
Proof. intros [Hr]. unfold shut. intros E. rewrite E in Hr. destruct (state (l_conn s')); simpl in Hr; done || lia. Qed.

(** This goroutine closes the connection. *)
Definition closer i s : Prop := l_closer s = Some i /\ cancelled (l_conn s) = false.
Lemma closer_rely i s s' : rely i s s' -> closer i s -> closer i s'.
Proof. intros R [H1 H2]. destruct (r_closer _ _ _ R H1) as (H3 & H4 & _). split; congruence. Qed.

Lemma life_safe_Close i err (P : life -> Prop) s :
  (forall s s', rely i s s' -> P s -> P s') -> (forall s s', apart s s' -> P s -> P s') -> P s ->
  safe i (Close err) (fun s _ => shut s /\ P s) s.
Proof.
  intros Hr Ha HP s1 e s2 old R1 I1 E1. pose proof (Hr _ _ R1 HP) as HP1. simpl in E1. injection E1 as <- <-.
  destruct (decide (state (l_conn s1) = ConnectionStateClosed)) as [Hc|Hc].
  { split; [|by split; [|eapply Ha; [|exact HP1]]]. apply life_quiet_allowed; [done|]. by split. }
  split; [by apply swap_allowed|].
  assert (H2 : closer i (with_closer (set_state (l_conn s1) ConnectionStateClosed) i s1)).
  { split; [done|]. simpl. destruct (cancelled (l_conn s1)) eqn:E; [|done]. by destruct (Hc (v_cancelled _ I1 E)). }
  assert (HP2 : P (with_closer (set_state (l_conn s1) ConnectionStateClosed) i s1)) by (by eapply Ha; [|exact HP1]).
  assert (HS2 : shut (with_closer (set_state (l_conn s1) ConnectionStateClosed) i s1)) by done.
  intros s3 e3 s4 [] R3 I3 E3. simpl in E3. injection E3 as <-. apply (closer_rely _ _ _ R3) in H2 as [H3 H3'].
  split; [by apply store_allowed|]. apply (Hr _ _ R3) in HP2. apply (life_shut_rely _ _ _ R3) in HS2.
  assert (H4 : closer i (with_conn (set_closeErr (l_conn s3) err) s3)) by done.
  intros s5 e5 s6 [] R5 I5 E5. simpl in E5. injection E5 as <-. destruct (closer_rely _ _ _ R5 H4) as [K5 K5'].
  split; [by apply cancel_allowed|]. apply (Ha _ (with_conn (set_closeErr (l_conn s3) err) s3)) in HP2; [|done].
  apply (Hr _ _ R5) in HP2. apply (life_shut_rely _ _ _ R5) in HS2.
  intros s7 e7 s8 [] R7 I7 E7. simpl in E7. injection E7 as <-.
  apply (Ha _ (with_conn (set_cancelled (l_conn s5)) s5)) in HP2; [|done]. apply (Hr _ _ R7) in HP2.
  assert (HS7 : shut s7) by (by eapply life_shut_rely; [exact R7|]).
  destruct (l_stored s7); (split; [apply life_quiet_allowed; [done|by split]|split; [done|by eapply Ha; [|exact HP2]]]).
Qed.

Lemma life_safe_just_Close i err s : safe i (Close err) anything s.
Proof. eapply safe_conseq; [by apply (life_safe_Close i err (fun _ => True))|done]. Qed.

(** ** Sending *)

(** A goroutine that saw the connection ready. *)
Definition saw_ready s : Prop := l_ready s = true.

Lemma pushQueue_ok d b bytes b' :
  pushQueue d b bytes = (b', None) ->
  b' = set_send b (sendChannel b ++ [bytes]) /\ zlen (sendChannel b) < SendChanSize (options b).
Proof.
  unfold pushQueue. destruct (SendChanSize (options b) <=? zlen (sendChannel b)) eqn:E; zbool.
  - rewrite orb_true_l, andb_true_r. by destruct (cancelled b).
  - destruct (_ && _); [done|]. by intros [= <-].
Qed.

Lemma key_not_business x : key_frame x -> ~ business x.
Proof. intros [Hk _] Hb. unfold business in Hb. rewrite Hk in Hb. done. Qed.

Lemma key_first_snoc l x : key_first l -> l <> [] -> business x -> key_first (l ++ [x]).
Proof.
  intros [->|(y & l' & -> & Hy & Hl)] Hne Hx; [done|]. right. exists y, (l' ++ [x]).
  split_and!; [done|done|]. apply Forall_app. by repeat constructor.
Qed.

Lemma strict_given f : strict -> f ∈ given -> False.
Proof. intros [_ ->]. apply not_elem_of_nil. Qed.

Lemma sealed_shared s x :
  strict -> (EncryptEnable o = true -> exists c, cipher (l_conn s) = Some c /\ sealed c x) -> has_shared (l_conn s).
Proof. intros [He _] Hc. destruct (Hc He) as (c & Hx & Hz & _). by exists c. Qed.

Lemma push_allowed i s e f bytes b' :
  inv s -> pushQueue (fun _ => o_done e) (l_conn s) bytes = (b', None) ->
  business (f, bytes) /\
    (EncryptEnable o = true -> exists c, cipher (l_conn s) = Some c /\ sealed c (f, bytes)) \/
  key_frame (f, bytes) /\ (strict -> l_accepted s = []) /\ owns i s /\ ~ has_shared (l_conn s) /\
    (r = ConnectionRoleServer -> l_ready s = true) /\ l_writer s <> NotStarted \/
  ~ business (f, bytes) /\ f ∈ given ->
  allowed i s (with_queue b' (l_accepted s ++ [(f, bytes)]) (l_taken s) (l_failed s) s).
Proof.
  intros Hi Hp Hf. apply pushQueue_ok in Hp as [-> Hroom]. life_facts Hi. destruct v_conf0 as [Ho Hr].
  rewrite Ho in Hroom. split.
  - split; simpl; try done.
    + intros Hl. destruct (v_fresh0 Hl) as (A1 & A2 & A3 & A4). split_and!; try done. intros He Hs.
      destruct Hf as [(_ & Hc)|[(_ & _ & _ & _ & Hr2 & _)|(_ & Hg)]]; [|rewrite Hr2 in Hl; done|].
      * destruct A3. by eapply sealed_shared.
      * by destruct (strict_given _ He Hg).
    + intros _ _ _ E. by apply app_eq_nil in E as [_ ?].
    + intros He. destruct Hf as [(Hb & Hc)|[(Hk & Hn & _)|(_ & Hg)]].
      * apply key_first_snoc; [auto|apply v_shared0; [done|]|done]. by eapply sealed_shared.
      * rewrite Hn by done. right. by exists (f, bytes), [].
      * by destruct (strict_given _ He Hg).
    + apply Forall_app. split; [done|]. constructor; [|done].
      destruct Hf as [(Hb & _)|[(Hk & _)|(_ & Hg)]]; [by left|by right; left|by right; right].
    + intros He. apply Forall_app. split; [auto|]. constructor; [|done]. intros Hb.
      destruct Hf as [(_ & Hx)|[(Hk & _)|(Hx & _)]]; [auto|by apply key_not_business in Hk|done].
    + intros He _ E. by apply app_eq_nil in E as [_ ?].
    + rewrite app_assoc, fmap_app. by rewrite v_queue0.
    + rewrite zlen_app. change (zlen [bytes]) with 1. lia.
    + intros Hw. destruct (v_unwritten0 Hw) as (A1 & A2 & A3 & A4 & A5). split_and!; try done. intros He.
      destruct Hf as [(_ & Hc)|[(_ & _ & _ & _ & _ & Hn)|(_ & Hg)]]; [|done|by destruct (strict_given _ He Hg)].
      destruct (v_fresh0 A2) as (_ & _ & [] & _). by eapply sealed_shared.
  - life_other.
    + by exists [(f, bytes)].
    + intros Hj2. split_and!; try done. intros He Hs.
      destruct Hf as [(_ & Hc)|[(_ & _ & Hi2 & _)|(_ & Hg)]].
      * destruct Hs. by eapply sealed_shared.
      * destruct (owner_others _ _ _ Hj Hi2 Hj2).
      * by destruct (strict_given _ He Hg).
    + destruct j; simpl; intros; split_and?; try done. by exists [bytes].
Qed.

(** An access that changes nothing. *)
Lemma look_allowed i s : inv s -> allowed i s s.
Proof. intros Hi. split; [done|]. intros j _. apply life_rely_refl. Qed.

Lemma code_frame_Cmd f g : code_frame o f = Ok g -> f_Cmd g = f_Cmd f.
Proof. unfold code_frame. repeat case_match; intros; by simplify_eq. Qed.

(** What a goroutine that enciphered [x] knows. *)
Definition enciphered (x y : list Z) s : Prop :=
  EncryptEnable o = true ->
  exists c, cipher (l_conn s) = Some c /\ zlen (sharedKey c) = aesKeySize /\ Encrypt c x = Ok y.

Lemma enciphered_rely i x y s s' : rely i s s' -> enciphered x y s -> enciphered x y s'.
Proof.
  intros R Hx He. destruct (Hx He) as (c & Hc & Hz & Hy). exists c. rewrite (r_shared _ _ _ R); [done|]. by exists c.
Qed.

Lemma safe_encrypt i x s :
  safe i (encrypt o x) (fun s y => match y with Ok y => enciphered x y s | Err _ => True end) s.
Proof.
  intros s1 e s2 st R1 I1 E1. simpl in E1. injection E1 as <- <-. split; [by apply look_allowed|].
  case_bool_decide as Hst; [|done]. cbn [negb]. destruct (EncryptEnable o) eqn:He; cbn [negb]; [|intros Ht; congruence].
  assert (Hl : l_ready s1 = true) by (by apply (v_isready _ I1)).
  intros s3 e3 s4 y R3 I3 E3. simpl in E3. unfold use_cipher in E3.
  destruct (v_cipher _ I3 He) as [c Hc]; [left; by apply (r_ready _ _ _ R3)|]. rewrite Hc in E3. injection E3 as <- <-.
  split; [by apply look_allowed|]. destruct (crypt c x false) as [y|] eqn:Ey; [|done].
  intros _. exists c. split_and!; [done| |done]. unfold crypt in Ey. by destruct (zlen (sharedKey c) =? aesKeySize) eqn:E; zbool.
Qed.

Lemma safe_send_business i f s :
  IsInternalCommand (f_Cmd f) = false -> inv s -> safe i (sendFrame o (Some f)) anything s.
Proof.
  intros Hb Hi. unfold sendFrame. destruct (code_frame o f) as [g|e] eqn:Eg; [|done].
  rewrite (code_frame_Cmd _ _ Eg), Hb. cbn [negb].
  eapply safe_bind; [apply safe_encrypt|done|]. clear s Hi. intros s [y|e] Hi Hy; [|done].
  destruct (EncodeMessageFrameWithLimit _ _) as [bytes|e] eqn:Eb; [|done].
  intros s1 e s2 err R1 I1 E1. apply (enciphered_rely _ _ _ _ _ R1) in Hy. simpl in E1.
  destruct (pushQueue _ _ _) as [b' [x|]] eqn:Ep; injection E1 as <- <-; (split; [|done]); [by apply look_allowed|].
  eapply push_allowed; [done|exact Ep|]. left. split; [done|]. intros He.
  destruct (Hy He) as (c & Hc & Hz & Hx). exists c. split; [done|]. split; [done|]. by exists g, y.
Qed.

(** A frame of the reserved command is sent as it is coded. *)
Lemma safe_send_reserved i f s :
  IsInternalCommand (f_Cmd f) = true -> f ∈ given -> safe i (sendFrame o (Some f)) anything s.
Proof.
  intros Hb Hg. unfold sendFrame. destruct (code_frame o f) as [g|e] eqn:Eg; [|done].
  rewrite (code_frame_Cmd _ _ Eg), Hb. simpl andThen.
  destruct (EncodeMessageFrameWithLimit _ _) as [bytes|e] eqn:Eb; [|done].
  intros s1 e s2 err R1 I1 E1. simpl in E1.
  destruct (pushQueue _ _ _) as [b' [x|]] eqn:Ep; injection E1 as <- <-; (split; [|done]); [by apply look_allowed|].
  eapply push_allowed; [done|exact Ep|]. right. right. split; [|done]. unfold business. simpl. by rewrite Hb.
Qed.

Lemma safe_send i frame s :
  (forall f, frame = Some f -> IsInternalCommand (f_Cmd f) = true -> f ∈ given) -> safe i (send o frame) anything s.
Proof.
  intros Hf s1 e s2 st R1 I1 E1. simpl in E1. injection E1 as <- <-. split; [by apply look_allowed|].
  destruct (decide _); [done|]. destruct frame as [f|]; [|done].
  eapply safe_bind; [|done|done].
  destruct (IsInternalCommand (f_Cmd f)) eqn:Eb; [apply safe_send_reserved|apply safe_send_business]; auto.
Qed.

(** ** The write loop *)

(** Between two accesses: the loop works, left its select with [ex] if it did,
    and OnClose was not started. *)
Record at_work (ex : option (option nerr)) s : Prop := {
  w_writer : l_writer s = Working; w_exit : l_exit s = ex; w_notify : l_notify s = NotStarted }.
(** ... and wrote what it took, unless a write failed; *)
Definition between ex s : Prop := at_work ex s /\ (l_failed s = false -> written (l_conn s) = l_taken s).
(** ... or has taken [m]. *)
Definition holding ex m s : Prop := at_work ex s /\ exists init, l_taken s = init ++ [m] /\
  written (l_conn s) `sublist_of` init /\ (l_failed s = false -> written (l_conn s) = init).

Lemma at_work_rely ex s s' : rely TWrite s s' -> at_work ex s -> at_work ex s'.
Proof. intros R [A1 A2 A3]. destruct (r_own _ _ _ R A1) as (B1 & _ & _ & _ & B2 & _ & B3). split; [done|congruence|auto]. Qed.
Lemma between_rely ex s s' : rely TWrite s s' -> between ex s -> between ex s'.
Proof.
  intros R [A B]. split; [by eapply at_work_rely|].
  destruct (r_own _ _ _ R (w_writer _ _ A)) as (_ & -> & -> & -> & _). done.
Qed.
Lemma holding_rely ex m s s' : rely TWrite s s' -> holding ex m s -> holding ex m s'.
Proof.
  intros R [A (init & B)]. split; [by eapply at_work_rely|]. exists init.
  destruct (r_own _ _ _ R (w_writer _ _ A)) as (_ & -> & -> & -> & _). done.
Qed.
Lemma between_apart ex s s' : apart s s' -> between ex s -> between ex s'.
Proof.
  intros [(A1 & A2 & A3 & A4) (B1 & B2 & B3)] [[C1 C2 C3] D]. split; [split; congruence|]. by rewrite B1, B2, B3.
Qed.

(** What the other goroutines see of the write loop. *)
Lemma writer_allowed s s' :
  inv s -> l_writer s = Working -> l_writer s' <> NotStarted ->
  (l_notify s = Working -> l_notify s' = Working) -> inv s' ->
  state (l_conn s') = state (l_conn s) -> cancelled (l_conn s') = cancelled (l_conn s) ->
  closeErr (l_conn s') = closeErr (l_conn s) -> owner_state s' = owner_state s ->
  l_reader s' = l_reader s -> l_accepted s' = l_accepted s -> l_closer s' = l_closer s ->
  (l_exit s <> None -> l_exit s' = l_exit s) ->
  allowed TWrite s s'.
Proof.
  intros Hi Hw Hw' Hn Hi' E1 E2 E3 E4 E5 E6 E7 Hx. pose proof E4 as [= F1 F2 F3 F4]. split; [done|]. intros j Hj.
  split; rewrite ?E1, ?E2, ?E3, ?E5, ?E6, ?E7; try done.
  - by rewrite F4.
  - unfold owns. rewrite ?E5. done.
  - destruct j; simpl; try done. congruence.
Qed.

Lemma receive_step ex s m q :
  inv s -> between ex s -> sendChannel (l_conn s) = m :: q ->
  let s' := with_queue (set_send (l_conn s) q) (l_accepted s) (l_taken s ++ [m]) (l_failed s) s in
  allowed TWrite s s' /\ holding ex m s'.
Proof.
  intros Hi [[A1 A2 A3] B] Hq s'. pose proof Hi as []. split.
  - apply writer_allowed; try done; try (simpl; congruence). unfold s'. split; simpl; try done; try congruence.
    + by rewrite <- app_assoc, <- v_queue0, Hq.
    + rewrite Hq, zlen_cons in v_room0. lia.
    + by apply sublist_inserts_r.
    + intros Hf. rewrite (B Hf). by exists [m].
  - split; [done|]. exists (l_taken s). done.
Qed.

Lemma write_step ex s m (err : option nerr) :
  inv s -> holding ex m s ->
  match err with
  | Some _ => let s' := with_queue (l_conn s) (l_accepted s) (l_taken s) true s in allowed TWrite s s' /\ between ex s'
  | None => let s' := with_conn (wrote (l_conn s) m) s in allowed TWrite s s' /\ between ex s'
  end.
Proof.
  intros Hi [[A1 A2 A3] (init & B1 & B2 & B3)]. pose proof Hi as []. destruct err as [err|]; intros s'; split; try done.
  - apply writer_allowed; try done. unfold s'. simpl. congruence.
  - apply writer_allowed; try done; try (simpl; congruence). unfold s'. split; simpl; try done; try congruence.
    + rewrite B1. by apply sublist_app.
    + intros Hf. by rewrite B1, (B3 Hf).
  - split; [done|]. simpl. intros Hf. by rewrite B1, (B3 Hf).
Qed.

Lemma loop_step ex s w ex' :
  inv s -> between ex s -> w = Waiting \/ w = Ended ->
  (ex' = ex \/ ex = None /\ (ex' = Some None -> cancelled (l_conn s) = true)) ->
  allowed TWrite s (with_loops (l_reader s) w ex' s).
Proof.
  intros Hi [[A1 A2 A3] B] Hw Hx. pose proof Hi as []. apply writer_allowed; simpl; try done.
  - by destruct Hw as [-> | ->].
  - split; simpl; try done.
    + intros ->. by destruct Hw.
    + destruct v_notified0 as [?|(Hn & _)]; [by left|congruence].
    + intros E. destruct Hx as [->|[_ Hx]]; [|auto]. apply v_exit0. by rewrite A2.
  - rewrite A2. destruct Hx as [->|[-> _]]; done.
Qed.
Lemma safe_Select ex s : inv s -> between ex s -> safe TWrite (do! Select; Ret tt) anything s.
Proof.
  intros Hi Hb s1 e s2 [] R1 I1 E1. simpl in E1. injection E1 as <-. apply (between_rely _ _ _ R1) in Hb.
  split; [|done]. apply (loop_step ex); auto. left. apply Hb.
Qed.

Lemma safe_LeaveSelect err s :
  inv s -> between None s -> (err = None -> cancelled (l_conn s) = true) ->
  safe TWrite (do! LeaveSelect err; Ret tt) anything s.
Proof.
  intros Hi Hb Hd s1 e s2 [] R1 I1 E1. simpl in E1. injection E1 as <-. apply (between_rely _ _ _ R1) in Hb.
  split; [|done]. apply (loop_step None); auto. right. split; [done|]. intros [= ->]. by apply (r_cancel _ _ _ R1), Hd.
Qed.

Lemma safe_write_next err s : inv s -> between None s -> safe TWrite (write_next err) anything s.
Proof. intros Hi Hb. destruct err; [by apply safe_LeaveSelect|by eapply safe_Select]. Qed.

(** A message is taken, and written or not. *)
Lemma safe_take ex s (k : option (list Z) -> prog cop unit) (k' : option nerr -> prog cop unit) :
  (forall m, k (Some m) = Do (WriteRaw m) k') ->
  between ex s ->
  (forall s', sendChannel (l_conn s) = [] -> inv s' -> between ex s' -> safe TWrite (k None) anything s') ->
  (forall err s', inv s' -> between ex s' -> safe TWrite (k' err) anything s') ->
  safe TWrite (Do Receive k) anything s.
Proof.
  intros Hk Hb Hnone Hsome s1 e s2 m R1 I1 E1. simpl in E1. pose proof (between_rely _ _ _ R1 Hb) as Hb1.
  destruct (sendChannel (l_conn s1)) as [|m' q] eqn:Hq; injection E1 as <- <-.
  - split; [by apply look_allowed|]. apply Hnone; [|done|done].
    destruct (r_own _ _ _ R1 (w_writer _ _ (proj1 Hb))) as (_ & _ & _ & _ & _ & Hp & _).
    rewrite Hq in Hp. by apply prefix_nil_inv in Hp.
  - destruct (receive_step ex s1 m' q I1 Hb1 Hq) as [Ha Hh]. split; [done|]. rewrite Hk.
    intros s3 e3 s4 err R3 I3 E3. apply (holding_rely _ _ _ _ R3) in Hh. simpl in E3.
    pose proof (write_step ex s3 m' (o_err e3) I3 Hh) as Hw.
    destruct (o_err e3); injection E3 as <- <-; destruct Hw as [Hw1 Hw2]; (split; [done|]); by apply Hsome, Hw2; apply Hw1.
Qed.

Lemma safe_write_loop e s :
  inv s -> between None s -> write_ready s e = true -> safe TWrite (write_loop o e) anything s.
Proof.
  intros Hi Hb Hd. destruct e as [|now|]; cbn [write_loop].
  - by apply safe_LeaveSelect.
  - eapply (safe_bind _ _ _ _ _ _ (fun s _ => between None s)); [|done|intros; by apply safe_write_next].
    intros s1 e s2 st R1 I1 E1. injection E1 as <- <-. apply (between_rely _ _ _ R1) in Hb.
    split; [by apply look_allowed|]. destruct (decide _); [done|].
    intros s3 e3 s4 last R3 I3 E3. injection E3 as <- <-. apply (between_rely _ _ _ R3) in Hb.
    split; [by apply look_allowed|]. by destruct (_ >=? _).
  - simpl in Hd. apply negb_true_iff, bool_decide_eq_false in Hd.
    by apply (safe_take None s _ write_next); [|done| |intros; apply safe_write_next].
Qed.

(** *** The end of the write loop *)

Lemma GoNotify_step ex s :
  inv s -> between (Some ex) s -> shut s -> allowed TWrite s (with_notify Waiting s).
Proof.
  intros Hi [[A1 A2 A3] B] Hs. pose proof Hi as []. apply writer_allowed; try done; try (simpl; congruence).
  split; simpl; try done.
  - destruct v_notified0 as [?|(Hn & _)]; [by left|congruence].
  - intros [E|E]; congruence.
  - intros _. split; [done|congruence].
Qed.

Lemma EndWrite_step s :
  inv s -> l_writer s = Working -> allowed TWrite s (with_loops (l_reader s) Ended (l_exit s) s).
Proof.
  intros Hi Hw. pose proof Hi as []. apply writer_allowed; try done; try (simpl; congruence). split; simpl; try done. by intros [?|?].
Qed.

Lemma life_safe_write_end err ex s : inv s -> between (Some ex) s -> safe TWrite (write_end err) anything s.
Proof.
  intros Hi Hb. unfold write_end.
  eapply safe_bind; [apply (life_safe_Close TWrite err (between (Some ex))); [apply between_rely|apply between_apart|done]|done|].
  clear s Hi Hb. intros s _ _ [Hs Hb] s1 e s2 [] R1 I1 E1. simpl in E1. injection E1 as <-.
  apply (between_rely _ _ _ R1) in Hb. apply (life_shut_rely _ _ _ R1) in Hs. split; [by apply (GoNotify_step ex)|].
  assert (Hw : l_writer (with_notify Waiting s1) = Working) by apply Hb.
  intros s3 e3 s4 [] R3 I3 E3. simpl in E3. injection E3 as <-. destruct (r_own _ _ _ R3 Hw) as [Hw3 _].
  split; [apply life_quiet_allowed; [done|by split]|].
  intros s5 e5 s6 [] R5 I5 E5. simpl in E5. injection E5 as <-. destruct (r_own _ _ _ R5 Hw3) as [Hw5 _].
  split; [by apply EndWrite_step|done].
Qed.

Lemma safe_write_drain err s : inv s -> between (Some err) s -> safe TWrite (write_drain err) anything s.
Proof.
  intros Hi Hb. apply (safe_take (Some err) s _ (fun failed => match failed with Some _ => write_end err | None => do! Select; Ret tt end)).
  - done.
  - done.
  - intros s' _ Hi' Hb'. by apply (life_safe_write_end err err).
  - intros [x|] s' Hi' Hb'; [by apply (life_safe_write_end err err)|by eapply safe_Select].
Qed.

(** *** OnClose *)

Lemma CallClosed_step err s :
  inv s -> l_notify s = Working -> (l_exit s = Some None -> err = closeErr (l_conn s)) ->
  allowed TNotify s (with_notify Ended (with_call (l_conn s) (CClosed err) s)).
Proof.
  intros Hi Hn He. pose proof Hi as []. assert (Hp := closing_keeps_phase (l_calls s) err). split.
  - split; simpl; rewrite ?Hp; try done.
    + by rewrite omap_app, app_nil_r.
    + destruct v_notified0 as [Hc|(Hn' & _)]; [|congruence]. right. split; [done|]. exists err. by rewrite omap_app, Hc.
    + intros Hw. specialize (v_told0 Hw). congruence.
    + intros _. apply v_over0. congruence.
  - life_other.
    + unfold owner_state. simpl. by rewrite Hp.
    + destruct j; simpl; try done. intros Hw. split_and!; try done. congruence.
Qed.

Lemma safe_notify s : l_notify s = Working -> safe TNotify notify anything s.
Proof.
  intros Hn s1 e s2 err R1 I1 E1. simpl in E1. injection E1 as <- <-. apply (r_own _ _ _ R1) in Hn.
  split; [by apply look_allowed|]. destruct (v_over _ I1) as [_ Hx]; [congruence|].
  intros s3 e3 s4 [] R3 I3 E3. simpl in E3. injection E3 as <-. pose proof (r_own _ _ _ R3 Hn) as Hn3.
  split; [|done]. apply CallClosed_step; [done|done|]. rewrite (r_exit _ _ _ R3 Hx). intros He.
  symmetry. by apply (r_cancel _ _ _ R3), (v_exit _ I1).
Qed.

(** ** The handler and the cipher *)

(** What stays when an owner acts. *)
Record held s s' : Prop := {
  h_state : state (l_conn s') = state (l_conn s);
  h_conf : options (l_conn s') = options (l_conn s) /\ role (l_conn s') = role (l_conn s);
  h_closing : cancelled (l_conn s') = cancelled (l_conn s) /\ closeErr (l_conn s') = closeErr (l_conn s) /\
    l_closer s' = l_closer s;
  h_writer : l_writer s' = l_writer s /\ l_exit s' = l_exit s /\ l_notify s' = l_notify s;
  h_queue : sendChannel (l_conn s') = sendChannel (l_conn s) /\ written (l_conn s') = written (l_conn s) /\
    l_taken s' = l_taken s /\ l_failed s' = l_failed s /\ l_accepted s' = l_accepted s;
  h_panicked : l_panicked s' = l_panicked s
}.

Lemma owner_allowed i s s' :
  owns i s -> held s s' -> inv s' ->
  (l_ready s = true -> l_ready s' = true) ->
  (has_shared (l_conn s) -> cipher (l_conn s') = cipher (l_conn s)) ->
  (l_reader s <> NotStarted -> l_reader s' <> NotStarted) ->
  allowed i s s'.
Proof.
  intros Ho [A1 _ (A2 & A3 & A4) (A5 & A6 & A7) (B1 & B2 & B3 & B4 & B5) _] Hi' Hr Hs Hn. split; [done|].
  intros j Hj. split; rewrite ?A1, ?A2, ?A3, ?A4, ?A5, ?A6, ?B5; try done.
  - intros Hj2. by destruct (owner_others _ _ _ Hj Ho Hj2).
  - unfold own. rewrite A5, A6, A7, B1, B2, B3, B4. by destruct j; split_and?.
Qed.

(** What the owner of the handler knows: the calls so far, whether the connection
    came up, and whether readyCh is closed. *)
Record knows i (p : hphase) (rd rc : bool) s : Prop := {
  k_owns : owns i s; k_phase : h_phase (l_calls s) = p; k_ready : l_ready s = rd;
  k_chan : readyCh_closed (l_conn s) = rc; k_up : l_writer s <> NotStarted }.

Lemma knows_rely i p rd rc s s' : rely i s s' -> knows i p rd rc s -> knows i p rd rc s'.
Proof.
  intros R [A1 A2 A3 A4 A5]. destruct (r_owner _ _ _ R A1) as (B1 & [= E1 E2 E3 E4] & _).
  split; try congruence. by apply (r_up _ _ _ R).
Qed.

Lemma key_frame_still i s s' :
  rely i s s' -> owns i s -> ~ has_shared (l_conn s) ->
  ~ has_shared (l_conn s') /\ (strict -> l_accepted s' = l_accepted s).
Proof.
  intros R Ho Hs. destruct (r_owner _ _ _ R Ho) as (_ & [= _ E _ _] & Ha). split; [|auto].
  intros Hs'. apply Hs. by eapply has_shared_eq.
Qed.

(** A call of the handler begins or ends. *)
Lemma call_allowed i p rc c s b' :
  inv s -> knows i p true rc s -> h_next p c <> HBad ->
  delivered b' = delivered (l_conn s) ++ omap message_of [c] ->
  b' = set_ready (l_conn s) true (readyCh_closed (l_conn s)) \/ b' = l_conn s \/ (exists f, b' = deliver (l_conn s) f) ->
  omap closing_of [c] = [] ->
  let s' := with_call b' c s in
  allowed i s s' /\ knows i (h_next p c) true rc s'.
Proof.
  intros Hi [K1 K2 K3 K4 K5] Hn Hd Hb Hc s'. pose proof Hi as [].
  assert (Hh : held s s') by (by destruct Hb as [->|[->|[f ->]]]).
  assert (Hci : cipher b' = cipher (l_conn s)) by (by destruct Hb as [->|[->|[f ->]]]).
  assert (Hrc : readyCh_closed b' = readyCh_closed (l_conn s)) by (by destruct Hb as [->|[->|[f ->]]]).
  assert (Hp : h_phase (l_calls s') = h_next p c) by (simpl; by rewrite h_phase_snoc, K2).
  split; [|split; try done; simpl; congruence].
  destruct Hh as [A1 [A2 A3] (A4 & A5 & A6) (A7 & A8 & A9) (B1 & B2 & B3 & B4 & B5) B6].
  apply owner_allowed; try done; [].
  split; rewrite ?A1, ?A2, ?A3, ?A4, ?A5, ?A6, ?A7, ?A8, ?A9, ?B1, ?B2, ?B3, ?B4, ?B5, ?B6, ?Hp; try done; simpl;
    rewrite ?Hci, ?Hrc; try done; try congruence.
  - rewrite Hd, v_delivered0. by rewrite omap_app.
  - intros Hw. destruct i; simpl in K1; congruence || done.
  - intros He Hs. apply v_shared0; [done|]. by eapply has_shared_eq.
  - by rewrite omap_app, Hc, app_nil_r.
Qed.

Lemma safe_onReady i s :
  knows i HNone true false s ->
  safe i onReady (fun s err => match err with None => knows i HIdle true true s | Some _ => owns i s end) s.
Proof.
  intros Hk s1 e s2 [] R1 I1 E1. simpl in E1. injection E1 as <-. apply (knows_rely _ _ _ _ _ _ R1) in Hk.
  assert (Hq : quiet s1 (if l_stored s1 then with_conn (set_timer (l_conn s1) false) s1 else s1)) by (by destruct (l_stored s1)).
  split; [by apply life_quiet_allowed|].
  assert (Hk2 : knows i HNone true false (if l_stored s1 then with_conn (set_timer (l_conn s1) false) s1 else s1)).
  { destruct Hk, (l_stored s1); by split. }
  intros s3 e3 s4 [] R3 I3 E3. simpl in E3. injection E3 as <-. apply (knows_rely _ _ _ _ _ _ R3) in Hk2 as K3.
  destruct (call_allowed i HNone false CConnecting s3 (set_ready (l_conn s3) true (readyCh_closed (l_conn s3))) I3 K3)
    as [A4 K4]; [done|by rewrite app_nil_r|by left|done|]. split; [done|].
  intros s5 e5 s6 err R5 I5 E5. simpl in E5. injection E5 as <- <-. apply (knows_rely _ _ _ _ _ _ R5) in K4 as K5.
  destruct (call_allowed i HConnecting false (CConnected (o_err e5)) s5 (l_conn s5) I5 K5) as [A6 K6];
    [by destruct (o_err e5)|by rewrite app_nil_r|by right; left|done|].
  split; [done|]. destruct (o_err e5) as [err|]; [apply K6|].
  intros s7 e7 s8 [] R7 I7 E7. simpl in E7. apply (knows_rely _ _ _ _ _ _ R7) in K6 as K7.
  rewrite (k_chan _ _ _ _ _ K7) in E7. injection E7 as <-. destruct K7 as [A1 A2 A3 _ A5]. split; [|by split].
  pose proof I7 as []. apply owner_allowed; try done. split; simpl; try done. congruence.
Qed.

(** ** The key exchange *)

(** The owner knows that no key was agreed yet. *)
Record keyless i (rd : bool) s : Prop := {
  y_knows : knows i HNone rd false s; y_shared : ~ has_shared (l_conn s); y_cipher : is_Some (cipher (l_conn s)) }.

Lemma keyless_rely i rd s s' : rely i s s' -> keyless i rd s -> keyless i rd s'.
Proof.
  intros R [A1 A2 A3]. split; [by eapply knows_rely|by apply (key_frame_still _ _ _ R (k_owns _ _ _ _ _ A1))|].
  destruct (r_owner _ _ _ R (k_owns _ _ _ _ _ A1)) as (_ & [= _ E _ _] & _). by rewrite E.
Qed.

Lemma unsent_rely i rd s s' :
  rely i s s' -> keyless i rd s -> (strict -> l_accepted s = []) -> strict -> l_accepted s' = [].
Proof.
  intros R [A1 A2 _] Hn He. destruct (key_frame_still _ _ _ R (k_owns _ _ _ _ _ A1) A2) as [_ E]. rewrite E; auto.
Qed.

Lemma sent_rely i s s' : rely i s s' -> l_accepted s <> [] -> l_accepted s' <> [].
Proof. intros R Hn E. pose proof (r_accepted _ _ _ R) as Hp. rewrite E in Hp. by apply prefix_nil_inv in Hp. Qed.

Lemma safe_sendExchangeKey i rd s :
  keyless i rd s -> (strict -> l_accepted s = []) -> (r = ConnectionRoleServer -> rd = true) ->
  safe i (sendExchangeKey o) (fun s err => match err with
    | None => keyless i rd s /\ l_accepted s <> [] | Some _ => owns i s end) s.
Proof.
  intros Hk Hn Hr s1 e s2 pub R1 I1 E1. simpl in E1. pose proof (unsent_rely _ _ _ _ R1 Hk Hn) as Hn1. clear Hn.
  apply (keyless_rely _ _ _ _ R1) in Hk. destruct (y_cipher _ _ _ Hk) as [c Hc]. unfold use_cipher in E1. rewrite Hc in E1.
  injection E1 as <- <-. split; [by apply look_allowed|]. unfold sendFrame.
  set (f := mkFrame InternalCmd InternalKeyExchange 0 0 0 0 (publicKey c)).
  assert (Ho : owns i s1) by apply Hk. destruct (code_frame o f) as [g|x] eqn:Eg; [|done].
  rewrite (code_frame_Cmd _ _ Eg). cbn [negb IsInternalCommand]. cbn.
  destruct (EncodeMessageFrameWithLimit _ _) as [bytes|x] eqn:Eb; [|done].
  intros s3 e3 s4 err R3 I3 E3. pose proof (unsent_rely _ _ _ _ R3 Hk Hn1) as Hn. apply (keyless_rely _ _ _ _ R3) in Hk.
  simpl in E3. destruct (pushQueue _ _ _) as [b' [x|]] eqn:Ep; injection E3 as <- <-.
  - split; [by apply look_allowed|]. apply Hk.
  - split.
    + eapply push_allowed; [done|exact Ep|]. right. left. split_and!; [done|done|apply Hk|apply Hk| |apply Hk].
      intros Hs. rewrite (k_ready _ _ _ _ _ (y_knows _ _ _ Hk)). auto.
    + apply pushQueue_ok in Ep as [-> _]. simpl. split; [|by destruct (l_accepted s3)].
      destruct Hk as [[A1 A2 A3 A4 A5] B C]. by split.
Qed.

Lemma came_up i s :
  inv s -> owns i s -> l_writer s <> NotStarted -> state (l_conn s) = ConnectionStateHandshaking ->
  (i = TStart -> EncryptEnable o = false) ->
  let s' := with_ready (set_state (l_conn s) ConnectionStateReady) s in
  allowed i s s' /\ knows i HNone true false s'.
Proof.
  intros Hi Ho Hw Hst He s'. pose proof Hi as []. rewrite Hst in *.
  assert (Hl : l_ready s = false) by (apply v_early0; simpl; lia).
  destruct (v_fresh0 Hl) as (F1 & F2 & F3 & F4). split; [|by split].
  assert (Hrd : EncryptEnable o = true -> i = TRead) by (destruct i; simpl in Ho; try done; intros E; rewrite He in E; done).
  split.
  - split; simpl; try done; try lia.
    + intros Hr. destruct i; simpl in Ho; congruence || done.
    + intros E _. apply v_cipher0; [done|]. right. rewrite (Hrd E) in Ho. simpl in Ho. congruence.
    + intros E Hr. rewrite (Hrd E) in Ho. simpl in Ho. congruence.
    + intros Hn. by destruct (v_over0 Hn).
    + destruct v_closer0 as [_ Hc]. split; [done|]. intros _. by apply Hc.
    + intros Hc. by specialize (v_cancelled0 Hc).
  - intros j Hj. split; simpl; try done; [rewrite Hst; simpl; lia| |].
    + intros Hj2. by destruct (owner_others _ _ _ Hj Ho Hj2).
    + by destruct j; simpl; intros; split_and?.
Qed.

Lemma handshakes i s :
  inv s -> state (l_conn s) = ConnectionStateCreated ->
  allowed i s (with_conn (set_state (l_conn s) ConnectionStateHandshaking) s).
Proof.
  intros Hi Hst. pose proof Hi as []. rewrite Hst in *. assert (Hl : l_ready s = false) by (apply v_early0; simpl; lia).
  split.
  - split; simpl; try done.
    + intros Hn. by destruct (v_over0 Hn).
    + destruct v_closer0 as [_ Hc]. split; [done|]. intros _. by apply Hc.
    + intros Hc. by specialize (v_cancelled0 Hc).
  - intros j Hj. split; simpl; try done; [rewrite Hst; simpl; lia|].
    by destruct j; simpl; intros; split_and?.
Qed.

(** The read loop between two frames, and while it handles one. *)
Definition settled s : Prop := exists p rd rc, knows TRead p rd rc s /\ (rd = true -> p = HIdle).

Lemma settled_rely s s' : rely TRead s s' -> settled s -> settled s'.
Proof. intros R (p & rd & rc & Hk & Hp). exists p, rd, rc. split; [by eapply knows_rely|done]. Qed.

Lemma settled_owns s : settled s -> owns TRead s.
Proof. intros (p & rd & rc & Hk & _). apply Hk. Qed.

Definition handled s (err : option nerr) : Prop :=
  match err with None => settled s | Some _ => owns TRead s end.

Lemma knows_settled s : knows TRead HIdle true true s -> settled s.
Proof. intros Hk. by exists HIdle, true, true. Qed.

Lemma derive_step c s :
  inv s -> keyless TRead true s -> zlen (sharedKey c) = aesKeySize ->
  (strict -> l_accepted s <> []) ->
  let s' := with_conn (set_cipher (l_conn s) c) s in
  allowed TRead s s' /\ knows TRead HNone true false s'.
Proof.
  intros Hi [[K1 K2 K3 K4 K5] Y2 Y3] Hz Ha s'. pose proof Hi as []. split; [|by split].
  apply owner_allowed; try done.
  - split; simpl; try done; try congruence; auto.
    intros He. specialize (v_sealed0 He). eapply Forall_impl; [exact v_sealed0|]. intros x Hx Hb.
    destruct (Hx Hb) as (c' & Hc & Hs & _). destruct Y2. by exists c'.
Qed.

Lemma safe_handleKeyExchange f s : settled s -> safe TRead (handleKeyExchange o r f) handled s.
Proof.
  intros Hs s1 e s2 ok R1 I1 E1. apply (settled_rely _ _ R1) in Hs. simpl in E1. unfold CompareAndSwap in E1.
  destruct (decide (state (l_conn s1) = _)) as [Hh|]; [|injection E1 as <- <-; split; [by apply look_allowed|done]].
  injection E1 as <- <-. pose proof (settled_owns _ Hs) as Ho.
  assert (Hw : l_writer s1 <> NotStarted) by (by destruct Hs as (? & ? & ? & [] & _)).
  destruct (came_up TRead s1 I1 Ho Hw Hh ltac:(done)) as [Ha Hk]. split; [done|].
  assert (Hl : l_ready s1 = false) by (apply (v_early _ I1); rewrite Hh; simpl; lia).
  assert (Hn : l_reader s1 <> NotStarted) by (simpl in Ho; congruence).
  assert (He : EncryptEnable o = true).
  { destruct (EncryptEnable o) eqn:E; [done|]. rewrite (v_plain _ I1 E Hn) in Hl. done. }
  destruct (v_fresh _ I1 Hl) as (_ & _ & Hsh & Hacc).
  set (s2 := with_ready _ s1) in *.
  assert (Hy : keyless TRead true s2) by (split; [done|exact Hsh|by apply (v_cipher _ I1); [|right]]).
  assert (Hrole : r = ConnectionRoleServer -> strict -> l_accepted s2 = []) by auto.
  assert (Hcl : r <> ConnectionRoleServer -> strict -> l_accepted s2 <> []).
  { intros Hr Ht. apply (v_client _ I1 Ht); [|done]. by destruct r. }
  cbn [negb].
  eapply (safe_bind _ _ _ _ _ _ (fun s err => match err with None => keyless TRead true s /\ (strict -> l_accepted s <> []) | Some _ => owns TRead s end));
    [|apply Ha|].
  - destruct (decide (r = ConnectionRoleServer)) as [Hr|Hr]; [|split; [done|by apply Hcl]].
    eapply safe_conseq; [apply (safe_sendExchangeKey TRead true); auto|]. intros s3 [err|]; [done|]. by intros [? ?].
  - clear -He. intros s [err|] Hi Hp; [done|]. destruct Hp as [Hy Hn].
    intros s1 e s2 err R1 I1 E1. apply (keyless_rely _ _ _ _ R1) in Hy.
    assert (Hn1 : strict -> l_accepted s1 <> []) by (intros Ht; apply (sent_rely _ _ _ R1); auto). simpl in E1.
    destruct (y_cipher _ _ _ Hy) as [c Hc]. unfold use_cipher in E1. rewrite Hc in E1. unfold GenerateSharedKey in E1.
    destruct (ka_derive _ _) as [key|x] eqn:Ek; injection E1 as <- <-.
    + destruct (derive_step (mkCipher (privateKey c) (publicKey c) key) s1 I1 Hy) as [Ha Hk]; [by apply ka_size in Ek as [??]|done|].
      split; [done|]. eapply safe_conseq; [by apply safe_onReady|]. intros s3 [err|]; [done|apply knows_settled].
    + split; [by apply look_allowed|]. apply Hy.
Qed.

(** ** The read loop *)

Lemma safe_decrypt x s : settled s -> safe TRead (decrypt o x) (fun s _ => settled s) s.
Proof.
  intros Hs. unfold decrypt. destruct (EncryptEnable o) eqn:He; cbn [negb]; [|done].
  intros s1 e s2 st R1 I1 E1. simpl in E1. injection E1 as <- <-. apply (settled_rely _ _ R1) in Hs.
  split; [by apply look_allowed|]. case_bool_decide as Hst; [|done]. cbn [negb].
  intros s3 e3 s4 y R3 I3 E3. apply (settled_rely _ _ R3) in Hs. simpl in E3. unfold use_cipher in E3.
  destruct (v_cipher _ I3 He) as [c Hc]; [right; apply settled_owns in Hs; simpl in Hs; congruence|].
  rewrite Hc in E3. injection E3 as <- <-. split; [by apply look_allowed|done].
Qed.

Lemma safe_processFrame f s : settled s -> safe TRead (processFrame o r f) handled s.
Proof.
  intros Hs. unfold processFrame. pose proof (settled_owns _ Hs) as Ho.
  destruct (IsInternalCommand (f_Cmd f)).
  { destruct (_ =? _); [done|]. destruct (_ =? _); [by apply safe_handleKeyExchange|done]. }
  intros s1 e s2 st R1 I1 E1. simpl in E1. injection E1 as <- <-. apply (settled_rely _ _ R1) in Hs.
  split; [by apply look_allowed|]. case_bool_decide as Hst; cbn [negb]; [|by apply settled_owns].
  destruct Hs as (p & rd & rc & Hk & Hp).
  assert (rd = true) as -> by (rewrite <- (k_ready _ _ _ _ _ Hk); by apply (v_isready _ I1)).
  rewrite (Hp eq_refl) in Hk. clear p Hp.
  intros s3 e3 s4 [] R3 I3 E3. simpl in E3. injection E3 as <-. apply (knows_rely _ _ _ _ _ _ R3) in Hk.
  destruct (call_allowed TRead HIdle rc (CMessage f) s3 (deliver (l_conn s3) f) I3 Hk) as [A4 K4];
    [done|done|by right; right; exists f|done|]. split; [done|]. clear Hk.
  intros s5 e5 s6 err R5 I5 E5. simpl in E5. injection E5 as <- <-. apply (knows_rely _ _ _ _ _ _ R5) in K4.
  destruct (call_allowed TRead HBusy rc (CHandled (o_err e5)) s5 (l_conn s5) I5 K4) as [A6 K6];
    [by destruct (o_err e5)|by rewrite app_nil_r|by right; left|done|].
  split; [done|]. destruct (o_err e5); [apply K6|]. by exists HIdle, true, rc.
Qed.

Lemma safe_onFrame now f s : settled s -> safe TRead (onFrame o r now f) handled s.
Proof.
  intros Hs s1 e s2 [] R1 I1 E1. simpl in E1. injection E1 as <-. apply (settled_rely _ _ R1) in Hs.
  assert (Hq : quiet s1 (with_conn (touch (l_conn s1) now) s1)) by (by split).
  split; [by apply life_quiet_allowed|].
  assert (Hs2 : settled (with_conn (touch (l_conn s1) now) s1)).
  { destruct Hs as (p & rd & rc & [] & Hp). exists p, rd, rc. split; [by split|done]. }
  assert (I2 : inv (with_conn (touch (l_conn s1) now) s1)) by (by eapply quiet_inv).
  unfold prepareMessageFrame.
  eapply (safe_bind _ _ _ _ _ _ (fun s _ => settled s)); [|done|].
  - eapply (safe_bind _ _ _ _ _ _ (fun s _ => settled s)); [|done|].
    + destruct (negb _); [by apply safe_decrypt|done].
    + by intros ? [y|x] _ H1.
  - intros s3 [g|x] _ H1; [by apply safe_processFrame|by apply settled_owns].
Qed.

Lemma EndRead_step s :
  inv s -> owns TRead s -> allowed TRead s (with_loops Ended (l_writer s) (l_exit s) s).
Proof.
  intros Hi Ho. pose proof Hi as []. simpl in Ho. assert (Hn : l_reader s <> NotStarted) by congruence.
  apply owner_allowed; try done. split; simpl; try done; auto; try congruence.
  intros Hw. by destruct (v_unwritten0 Hw) as [? _].
Qed.

Lemma safe_read_end err s : owns TRead s -> safe TRead (read_end err) anything s.
Proof.
  intros Ho s1 e s2 [] R1 I1 E1. simpl in E1. injection E1 as <-. destruct (r_owner _ _ _ R1 Ho) as [Ho1 _].
  split; [by apply EndRead_step|apply life_safe_just_Close].
Qed.

Lemma AwaitRead_step s : inv s -> settled s -> allowed TRead s (with_loops Waiting (l_writer s) (l_exit s) s).
Proof.
  intros Hi (p & rd & rc & [K1 K2 K3 K4 K5] & Hp). pose proof Hi as []. simpl in K1.
  assert (Hn : l_reader s <> NotStarted) by congruence.
  apply owner_allowed; try done. split; simpl; try done; auto.
  intros _ Hl. rewrite K2. apply Hp. congruence.
Qed.

Lemma safe_read_frame now f s : inv s -> settled s -> safe TRead (read_frame o r now f) anything s.
Proof.
  intros Hi Hs. eapply safe_bind; [by apply safe_onFrame|done|]. clear s Hi Hs.
  intros s [err|] Hi Hp; [by apply safe_read_end|]. simpl in Hp.
  intros s1 e s2 [] R1 I1 E1. simpl in E1. injection E1 as <-. apply (settled_rely _ _ R1) in Hp.
  split; [by apply AwaitRead_step|done].
Qed.

(** ** Starting *)

(** What must hold when the read loop starts. *)
Record started s : Prop := {
  s_owns : owns TStart s; s_up : l_writer s <> NotStarted;
  s_phase : l_ready s = true -> h_phase (l_calls s) = HIdle;
  s_plain : EncryptEnable o = false -> l_ready s = true;
  s_cipher : EncryptEnable o = true -> is_Some (cipher (l_conn s));
  s_sent : strict -> r = ConnectionRoleClient -> l_accepted s <> [] }.

Lemma started_rely s s' : rely TStart s s' -> started s -> started s'.
Proof.
  intros R [A1 A2 A3 A4 A5 A6]. destruct (r_owner _ _ _ R A1) as (B1 & [= E1 E2 E3 E4] & _).
  split; [done|by apply (r_up _ _ _ R)|rewrite E1, E4; done|rewrite E4; done|rewrite E2; done|].
  intros He Hr. apply (sent_rely _ _ _ R). auto.
Qed.

Lemma GoRead_step s : inv s -> started s -> allowed TStart s (with_loops Waiting (l_writer s) (l_exit s) s).
Proof.
  intros Hi [A1 A2 A3 A4 A5 A6]. pose proof Hi as []. apply owner_allowed; try done.
  split; simpl; try done; auto.
Qed.

Lemma GoWrite_step s :
  inv s -> owns TStart s -> l_writer s = NotStarted ->
  allowed TStart s (with_loops (l_reader s) Waiting (l_exit s) s).
Proof.
  intros Hi Ho Hw. pose proof Hi as []. destruct (v_unwritten0 Hw) as (U1 & U2 & U3 & U4 & U5). split.
  - split; simpl; try done; [congruence|]. intros _. apply v_told0. by left.
  - intros j Hj. split; simpl; try done. destruct j; simpl; try done; congruence.
Qed.

(** A cipher without a shared key, or none. *)
Lemma put_cipher_step oc s :
  inv s -> owns TStart s -> l_ready s = false -> l_writer s <> NotStarted ->
  (forall c, oc = Some c -> sharedKey c = []) ->
  let s' := with_conn (put_cipher (l_conn s) oc) s in
  allowed TStart s s' /\ (is_Some oc -> keyless TStart false s').
Proof.
  intros Hi Ho Hl Hw Hoc s'. pose proof Hi as []. destruct (v_fresh0 Hl) as (F1 & F2 & F3 & F4).
  assert (Hs : ~ has_shared (put_cipher (l_conn s) oc)).
  { intros (c & Hc & Hz). simpl in Hc. by rewrite (Hoc _ Hc) in Hz. }
  split; [|intros Hsome; split; [by split|done|done]].
  apply owner_allowed; try done. split; simpl; try done.
  { intros _ [E|E]; [congruence|done]. }
  intros He. specialize (v_sealed0 He). eapply Forall_impl; [exact v_sealed0|]. intros x Hx Hb.
  destruct (Hx Hb) as (c' & Hc & Hz & _). destruct F3. by exists c'.
Qed.

Definition start_done s (err : option nerr) : Prop := match err with None => started s | Some _ => True end.

Lemma safe_startHandshake seed s :
  EncryptEnable o = true -> owns TStart s -> l_ready s = false -> l_writer s <> NotStarted -> (strict -> l_accepted s = []) ->
  safe TStart (startHandshake o r seed) start_done s.
Proof.
  intros He Ho Hl Hw Hn s1 e s2 res R1 I1 E1. simpl in E1.
  destruct (r_owner _ _ _ R1 Ho) as (Ho1 & [= _ _ _ Hl1] & Ha). apply (r_up _ _ _ R1) in Hw. rewrite Hl in Hl1.
  assert (Hn1 : strict -> l_accepted s1 = []).
  { intros Ht. rewrite Ha; [auto|done|]. intros Hs. destruct (v_fresh _ I1 Hl1) as (_ & _ & [] & _). eapply has_shared_eq; [by apply (r_shared _ _ _ R1)|done]. }
  revert E1. destruct (NewECDHCipher seed) as [c|e2] eqn:En; intros [= <- <-].
  2:{ split; [|done]. by apply (put_cipher_step None s1). }
  destruct (put_cipher_step (Some c) s1 I1 Ho1 Hl1 Hw) as [A2 K2].
  { intros c' [= <-]. by eapply NewECDHCipher_new. }
  specialize (K2 ltac:(by eexists)). split; [done|]. cbn match.
  eapply (safe_bind _ _ _ _ _ _ (fun s err => match err with
    | None => keyless TStart false s /\ (strict -> r = ConnectionRoleClient -> l_accepted s <> []) | Some _ => True end)); [|apply A2|].
  - destruct (decide (r = ConnectionRoleClient)) as [Hr|Hr]; [|by split].
    eapply safe_conseq; [apply (safe_sendExchangeKey TStart false); try done; congruence|].
    intros s3 [err|]; [done|]. by intros [? ?].
  - clear -He. intros s [err|] Hi Hp; [done|]. destruct Hp as [Hk Hs].
    intros s1 e s2 [] R1 I1 E1. simpl in E1. injection E1 as <-. apply (keyless_rely _ _ _ _ R1) in Hk.
    assert (Hs1 : strict -> r = ConnectionRoleClient -> l_accepted s1 <> []) by (intros Ht Hr; apply (sent_rely _ _ _ R1); auto).
    split; [apply life_quiet_allowed; [done|by split]|].
    assert (Hk2 : keyless TStart false (with_conn (set_timer (l_conn s1) true) s1)) by (by destruct Hk as [[] ? ?]).
    intros s3 e3 s4 [] R3 I3 E3. simpl in E3. injection E3 as <-. apply (keyless_rely _ _ _ _ R3) in Hk2.
    assert (Hs3 : strict -> r = ConnectionRoleClient -> l_accepted s3 <> []) by (intros Ht Hr; apply (sent_rely _ _ _ R3); auto).
    split; [apply life_quiet_allowed; [done|by split]|]. destruct Hk2 as [[A1 B2 A3 A4 A5] B C].
    split; simpl; try done; congruence.
Qed.

Lemma safe_start seed s :
  owns TStart s -> l_ready s = false -> l_writer s <> NotStarted -> (strict -> l_accepted s = []) ->
  safe TStart (start o r seed) start_done s.
Proof.
  intros Ho Hl Hw Hn s1 e s2 ok R1 I1 E1. simpl in E1. unfold CompareAndSwap in E1.
  destruct (r_owner _ _ _ R1 Ho) as (Ho1 & [= Ep _ _ Hl1] & Ha). apply (r_up _ _ _ R1) in Hw as Hw1. rewrite Hl in Hl1.
  assert (Hn1 : strict -> l_accepted s1 = []).
  { intros He. rewrite Ha; [auto|done|]. intros Hs. destruct (v_fresh _ I1 Hl1) as (_ & _ & [] & _).
    eapply has_shared_eq; [by apply (r_shared _ _ _ R1)|done]. }
  destruct (decide (state (l_conn s1) = _)) as [Hc|]; [|injection E1 as <- <-; split; [by apply look_allowed|done]].
  injection E1 as <- <-. split; [by apply handshakes|]. cbn [negb].
  destruct (EncryptEnable o) eqn:He; cbn [negb]; [apply safe_startHandshake; auto|].
  intros s3 e3 s4 ok R3 I3 E3. simpl in E3. unfold CompareAndSwap in E3.
  destruct (r_owner _ _ _ R3 Ho1) as (Ho3 & _). apply (r_up _ _ _ R3) in Hw1 as Hw3.
  destruct (decide (state (l_conn s3) = _)) as [Hh|]; [|injection E3 as <- <-; split; [by apply look_allowed|done]].
  injection E3 as <- <-. destruct (came_up TStart s3 I3 Ho3 Hw3 Hh ltac:(done)) as [A4 K4]. split; [done|]. cbn [negb].
  eapply safe_conseq; [by apply safe_onReady|]. intros s5 [err|]; [done|]. intros [A1 A2 A3 A5 A6].
  split; try done; try congruence. intros [? _]. congruence.
Qed.

Lemma life_safe_runStart seed s :
  inv s -> l_writer s = NotStarted -> safe TStart (runStart o r seed) anything s.
Proof.
  intros Hi Hw s1 e s2 [] R1 I1 E1. simpl in E1. injection E1 as <-. apply (r_own _ _ _ R1) in Hw as Hw1.
  destruct (v_unwritten _ I1 Hw1) as (U1 & U2 & U3 & U4 & U5).
  split; [by apply GoWrite_step|]. eapply safe_bind; [by apply safe_start|by apply GoWrite_step|].
  clear. intros s [err|] Hi Hp; [apply life_safe_just_Close|].
  intros s1 e s2 [] R1 I1 E1. simpl in E1. injection E1 as <-. apply (started_rely _ _ R1) in Hp.
  split; [by apply GoRead_step|done].
Qed.

(** ** Every run *)

Abbreviation pool_ok := (pool_ok exec inv rely).

Definition proper (a : act) : Prop :=
  match a with CallSend _ (Some f) => IsInternalCommand (f_Cmd f) = true -> f ∈ given | _ => True end.

Lemma fresh_ok now : pool_ok (fresh o r now).
Proof.
  split; [|done]. split; simpl; try done; try (by left); try lia.
  - intros _. split_and!; try done. by intros (c & ? & _).
  - by intros _ [?|?].
  - by intros _ (c & ? & _).
  - rewrite zlen_nil. lia.
Qed.

(** A goroutine starts, or a loop goes on, from a state it may change to. *)
Lemma go_ok i s p w :
  pool_ok w -> allowed i (shared w) s -> safe i p anything s -> pool_ok (start_thread i s p w).
Proof. intros Hw [Hi Hr] Hp. apply pool_start; try done; [apply life_rely_trans|]. intros j Hj _. by apply Hr. Qed.

Lemma wake_reader s :
  inv s -> l_reader s = Waiting ->
  let s' := with_loops Working (l_writer s) (l_exit s) s in allowed TRead s s' /\ settled s'.
Proof.
  intros Hi Hr s'. pose proof Hi as []. assert (Hn : l_reader s <> NotStarted) by congruence.
  assert (Hw : l_writer s <> NotStarted) by (intros E; destruct (v_unwritten0 E) as [? _]; done).
  split; [split|].
  - split; simpl; try done; auto.
  - intros j Hj. split; simpl; try done; destruct j; simpl; try done; intros E; exfalso; congruence.
  - exists (h_phase (l_calls s)), (l_ready s), (readyCh_closed (l_conn s)). split; [by split|auto].
Qed.

Lemma wake_writer ex s :
  inv s -> l_writer s = Waiting -> l_exit s = ex ->
  let s' := with_loops (l_reader s) Working (l_exit s) s in allowed TWrite s s' /\ between ex s'.
Proof.
  intros Hi Hw <- s'. pose proof Hi as []. split; [split|].
  - split; simpl; try done. by intros [?|?].
  - intros j Hj. split; simpl; try done. destruct j; simpl; try done. congruence.
  - split; [split; simpl; auto|]. auto.
Qed.

Lemma wake_notify s :
  inv s -> l_notify s = Waiting -> allowed TNotify s (with_notify Working s).
Proof.
  intros Hi Hn. pose proof Hi as []. split.
  - split; simpl; try done.
    + destruct v_notified0 as [?|[? _]]; [by left|congruence].
    + intros Hw. specialize (v_told0 Hw). congruence.
    + intros _. apply v_over0. congruence.
  - intros j Hj. split; simpl; try done. destruct j; simpl; try done. intros Hw. split_and!; try done. congruence.
Qed.

Lemma life_step_ok w a : proper a -> pool_ok w -> pool_ok (step o r w a).
Proof.
  intros Hp Hw. pose proof (pool_inv _ _ _ _ Hw) as Hi. set (s := shared w) in *.
  destruct a as [seed|now f|err|e| | | |n f|n err|i e]; simpl; fold s.
  - case_bool_decide as Hn; [|done]. destruct (finished _ _); [|done].
    apply go_ok; [done|by apply look_allowed|by apply life_safe_runStart].
  - case_bool_decide as Hn; [|done]. destruct (finished _ _); [|done]. destruct (wake_reader s Hi Hn) as [Ha Hs].
    apply go_ok; [done|done|]. apply safe_read_frame; [apply Ha|done].
  - case_bool_decide as Hn; [|done]. destruct (finished _ _); [|done]. destruct (wake_reader s Hi Hn) as [Ha Hs].
    apply go_ok; [done|done|]. by apply safe_read_end, settled_owns.
  - case_bool_decide as Hn; [|done]. destruct (write_ready s e) eqn:He; [|done]. destruct (finished _ _); [|done].
    destruct Hn as [Hn Hx]. destruct (wake_writer None s Hi Hn Hx) as [Ha Hs].
    apply go_ok; [done|done|]. apply safe_write_loop; [apply Ha|done|destruct e; exact He].
  - destruct (l_exit s) as [err|] eqn:Hx; [|done]. case_bool_decide as Hn; [|done]. destruct (finished _ _); [|done].
    destruct (wake_writer (Some err) s Hi Hn Hx) as [Ha Hs]. rewrite Hx in Ha, Hs.
    apply go_ok; [done|done|]. apply safe_write_drain; [apply Ha|done].
  - destruct (handshakeTimer (l_conn s)); [|done]. destruct (finished _ _); [|done].
    apply go_ok; [done|by apply life_quiet_allowed|apply life_safe_just_Close].
  - case_bool_decide as Hn; [|done]. destruct (finished _ _); [|done].
    apply go_ok; [done|by apply wake_notify|by apply safe_notify].
  - destruct (finished _ _); [|done]. apply go_ok; [done|by apply look_allowed|].
    apply safe_send. intros g ->. exact Hp.
  - destruct (finished _ _); [|done]. apply go_ok; [done|by apply look_allowed|apply life_safe_just_Close].
  - apply pool_step; [apply life_rely_refl|apply life_rely_trans|done].
Qed.

Lemma life_run_ok acts w : Forall proper acts -> pool_ok w -> pool_ok (run o r w acts).
Proof. intros Ha. revert w. induction Ha as [|a acts Hp _ IH]; intros w Hw; [done|]. by apply IH, life_step_ok. Qed.

Lemma life_run_inv now acts : Forall proper acts -> inv (shared (run o r (fresh o r now) acts)).
Proof. intros Ha. apply (pool_inv _ _ _ _ (life_run_ok acts _ Ha (fresh_ok now))). Qed.

(** *** What time keeps *)

Record later s s' : Prop := {
  t_rank : rank (state (l_conn s)) <= rank (state (l_conn s'));
  t_reason : cancelled (l_conn s) = true ->
    cancelled (l_conn s') = true /\ closeErr (l_conn s') = closeErr (l_conn s);
  t_accepted : l_accepted s `prefix_of` l_accepted s' }.

Lemma rely_later i s s' : rely i s s' -> later s s'.
Proof. intros R. split; [apply R|apply R|apply R]. Qed.

Lemma allowed_later i s s' : allowed i s s' -> later s s'.
Proof.
  intros [_ Hr]. destruct (decide (i = TTimer)) as [->|Hne];
    [apply (rely_later TNotify)|apply (rely_later TTimer)]; by apply Hr.
Qed.

Lemma step_later w a : proper a -> pool_ok w -> later (shared w) (shared (step o r w a)).
Proof.
  intros Hp Hw. pose proof (pool_inv _ _ _ _ Hw) as Hi. set (s := shared w) in *.
  assert (Hrefl : later s s) by (apply (rely_later TTimer), life_rely_refl).
  assert (Hq : forall s', quiet s s' -> later s s') by (intros s' Hq; by apply (rely_later TTimer), quiet_rely).
  destruct a as [seed|now f|err|e| | | |n f|n err|i e]; simpl; fold s.
  - case_bool_decide; [|done]. by destruct (finished _ _).
  - case_bool_decide; [|done]. destruct (finished _ _); [|done]. by split.
  - case_bool_decide; [|done]. destruct (finished _ _); [|done]. by split.
  - destruct (_ && _); [|done]. destruct (finished _ _); [|done]. by split.
  - destruct (l_exit s); [|done]. case_bool_decide; [|done]. destruct (finished _ _); [|done]. by split.
  - destruct (handshakeTimer (l_conn s)); [|done]. destruct (finished _ _); [|done]. by split.
  - case_bool_decide; [|done]. destruct (finished _ _); [|done]. by split.
  - by destruct (finished _ _).
  - by destruct (finished _ _).
  - unfold run_thread. destruct (threads w !! i) as [[a|T op k]|] eqn:Ht; [done| |done].
    fold s. destruct (exec i T op e s) as [[s' x]|] eqn:He; [|done].
    destruct (pool_safe _ _ _ _ Hw _ _ Ht s e s' x (life_rely_refl i s) Hi He) as [Hal _].
    by apply (allowed_later i).
Qed.

Lemma run_later acts w : Forall proper acts -> pool_ok w -> later (shared w) (shared (run o r w acts)).
Proof.
  intros Ha. revert w. induction Ha as [|a acts Hp _ IH]; intros w Hw; [apply (rely_later TTimer), life_rely_refl|].
  simpl. destruct (step_later w a Hp Hw) as [A1 A2 A3].
  destruct (IH (step o r w a) (life_step_ok w a Hp Hw)) as [B1 B2 B3]. split; [lia| |by etrans].
  intros Hc. destruct (A2 Hc) as [H1 E1], (B2 H1) as [H2 E2]. split; [done|congruence].
Qed.

End Safety.

(** ** What every run guarantees *)

(** The frames of the reserved command that users pass to SendMessage. *)
Definition reserved_frame (a : act) : option MessageFrame :=
  match a with CallSend _ (Some f) => if IsInternalCommand (f_Cmd f) then Some f else None | _ => None end.
Definition reserved (acts : list act) : list MessageFrame := omap reserved_frame acts.

Section Guarantees.
Context `{KeyAgreement}.
Variables (o : CommonConfig) (r : ConnectionRole).

Lemma reserved_proper acts1 acts2 :
  Forall (proper (reserved (acts1 ++ acts2))) acts1 /\ Forall (proper (reserved (acts1 ++ acts2))) acts2.
Proof.
  apply Forall_app, Forall_forall. intros a Ha. destruct a as [| | | | | | |n [f|]| |]; try done. intros Hf.
  apply list_elem_of_omap. exists (CallSend n (Some f)). split; [done|]. simpl. by rewrite Hf.
Qed.

Lemma run_keeps_inv now acts : inv o r (reserved acts) (shared (run o r (fresh o r now) acts)).
Proof. apply life_run_inv. pose proof (proj1 (reserved_proper acts [])) as Hp. by rewrite app_nil_r in Hp. Qed.

(** C6: However the goroutines of a connection and its users interleave, the handler
    gets OnConnected at most once and first, then one OnMessage at a time while each
    succeeds, and OnClose at most once, of a closed connection and with its reason
    when the context ended the write loop; no goroutine panics. *)
Theorem handler_is_called_in_turn now acts :
  let s := shared (run o r (fresh o r now) acts) in
  in_turn (omap work_of (l_calls s)) /\ omap message_of (l_calls s) = delivered (l_conn s) /\
  (omap closing_of (l_calls s) = [] \/
   state (l_conn s) = ConnectionStateClosed /\ exists e, omap closing_of (l_calls s) = [e] /\
     (l_exit s = Some None -> e = closeErr (l_conn s))) /\
  l_panicked s = false.
Proof.
  intros s. pose proof (run_keeps_inv now acts) as Hi. fold s in Hi. destruct Hi.
  split_and!; [by apply h_phase_in_turn|done| |done].
  destruct v_notified0 as [?|(Hn & e & He)]; [by left|right]. split; [|by exists e].
  apply v_over0. congruence.
Qed.

(** C7: When encryption is on, whatever users send and however goroutines
    interleave, every business frame carries its body coded and enciphered with the
    agreed key, and every other frame is a key exchange or one of the reserved
    command that a user passed to SendMessage; if no user did that, the key frame is
    the first frame and the only one not enciphered. *)
Theorem nothing_leaves_in_the_clear now acts :
  EncryptEnable o = true ->
  let s := shared (run o r (fresh o r now) acts) in
  (forall x, x ∈ l_accepted s ->
    if IsInternalCommand (f_Cmd x.1) then key_frame x \/ x.1 ∈ reserved acts
    else exists c, cipher (l_conn s) = Some c /\ sealed o c x) /\
  (reserved acts = [] -> key_first (l_accepted s)).
Proof.
  intros He s. pose proof (run_keeps_inv now acts) as Hi. fold s in Hi. split.
  - intros x Hx. pose proof (v_sealed _ _ _ _ Hi He) as Hs. pose proof (v_reserved _ _ _ _ Hi) as Hr.
    rewrite Forall_forall in Hs, Hr. specialize (Hs x Hx). specialize (Hr x Hx). unfold business in *.
    destruct (IsInternalCommand (f_Cmd x.1)); [|auto]. by destruct Hr.
  - intros Hg. by apply (v_keys _ _ _ _ Hi).
Qed.

(** The socket gets the bytes of accepted frames in their order, all of those taken
    while no write fails, and the queue keeps its capacity. *)
Theorem queue_is_written_in_order now acts :
  let s := shared (run o r (fresh o r now) acts) in
  written (l_conn s) `sublist_of` (l_accepted s).*2 /\
  (l_failed s = false -> written (l_conn s) `prefix_of` (l_accepted s).*2) /\
  zlen (sendChannel (l_conn s)) <= Z.max 0 (SendChanSize o).
Proof.
  intros s. pose proof (run_keeps_inv now acts) as Hi. fold s in Hi. destruct Hi. rewrite <- v_queue0.
  split_and!; [|intros Hf|done].
  - by apply sublist_inserts_r.
  - by apply prefix_app_r, v_prefix0.
Qed.

(** The state only advances, a cancelled connection keeps its reason, and what was
    accepted stays accepted. *)
Theorem connection_only_advances now acts1 acts2 :
  let w := run o r (fresh o r now) acts1 in later (shared w) (shared (run o r w acts2)).
Proof.
  destruct (reserved_proper acts1 acts2) as [Ha1 Ha2]. intros w.
  eapply run_later; [done|]. by apply life_run_ok, fresh_ok.
Qed.

End Guarantees.
