(* ===== verification/ConnAlone.v ===== *)
(** * A connection's methods, undisturbed, are the functions of Conn.v

    The programs of ConnThreads.v run by one goroutine while no other moves do to
    the connection what the functions of Conn.v say: what Conn.v proves about
    frames, keys and streams holds of the code's methods. *)

From S2P Require Import Prelude Protocol Codec Cipher Conn ConnDemo Effects Threads ConnThreads ConnSafety.

Section Alone.
Context `{KeyAgreement}.
Variables (o : CommonConfig) (r : ConnectionRole) (e : oracle) (i : tid).

Abbreviation alone := (Threads.alone exec i e).
Abbreviation alone_bind := (Threads.alone_bind exec i e).

(** What it does to the connection, and its result. *)
Definition effect {A} (p : prog cop A) (s : life) : option (Conn * A) :=
  option_map (fun x => (l_conn x.1, x.2)) (alone p s).

Abbreviation OnConnected := (fun _ : Conn => o_err e).
Abbreviation OnMessage := (fun (_ : Conn) (_ : MessageFrame) => o_err e).
Abbreviation select_done := (fun _ : Conn => o_done e).

(** The options and the role are those of the connection; an armed timer was
    stored; a handshake has a cipher. *)
Record usual (s : life) : Prop := {
  u_options : options (l_conn s) = o; u_role : role (l_conn s) = r;
  u_stored : handshakeTimer (l_conn s) = true -> l_stored s = true;
  u_cipher : state (l_conn s) = ConnectionStateHandshaking -> is_Some (cipher (l_conn s)) }.

Definition does {A} (p : prog cop A) (s : life) (b : Conn) (a : A) : Prop :=
  exists s', alone p s = Some (s', a) /\ l_conn s' = b /\ l_stored s' = l_stored s.

Lemma does_effect {A} (p : prog cop A) s b a : does p s b a -> effect p s = Some (b, a).
Proof. intros (s' & E & <- & _). unfold effect. by rewrite E. Qed.

Lemma does_bind {A B} (p : prog cop A) (k : A -> prog cop B) s b a (Q : Prop) :
  does p s b a -> (forall s', alone p s = Some (s', a) -> l_conn s' = b -> l_stored s' = l_stored s -> Q) -> Q.
Proof. intros (s' & E1 & E2 & E3) HQ. eauto. Qed.

Lemma set_timer_same b t : handshakeTimer b = t -> set_timer b t = b.
Proof. intros <-. by destruct b. Qed.

(** StopTimer disarms the timer. *)
Lemma stop_timer s :
  usual s -> l_conn (if l_stored s then with_conn (set_timer (l_conn s) false) s else s) = set_timer (l_conn s) false.
Proof.
  intros [_ _ Hs _]. destruct (l_stored s) eqn:E; [done|]. symmetry. apply set_timer_same.
  destruct (handshakeTimer (l_conn s)); [by specialize (Hs eq_refl)|done].
Qed.

Lemma stop_stored s :
  l_stored (if l_stored s then with_conn (set_timer (l_conn s) false) s else s) = l_stored s.
Proof. by destruct (l_stored s) eqn:E. Qed.

Lemma close_alone err s :
  usual s -> does (Close err) s (Conn.Close (l_conn s) err) tt.
Proof.
  intros Hu. unfold does, Close, Conn.Close. simpl.
  destruct (decide (state (l_conn s) = ConnectionStateClosed)) as [Hc|Hc].
  - eexists. split; [reflexivity|]. split; [|done]. simpl. destruct (l_conn s); simpl in *; by subst.
  - eexists. split; [reflexivity|]. simpl. destruct (l_stored s) eqn:E; [done|]. split; [|done]. simpl.
    unfold set_cancelled, set_closeErr, set_state. simpl. f_equal.
    destruct (handshakeTimer (l_conn s)) eqn:Ht; [|done]. destruct Hu as [_ _ Hs _]. rewrite Hs in E; done.
Qed.


(** The codec's part of Conn's functions. *)
Lemma encode_body_code b f :
  options b = o ->
  encode_body b f =
  match code_frame o f with
  | Err x => Err x
  | Ok g => if negb (IsInternalCommand (f_Cmd g))
            then match Conn.encrypt b (f_Body g) with Err x => Err x | Ok y => Ok (with_Body g y) end else Ok g
  end.
Proof.
  intros <-. unfold encode_body, code_frame. destruct (o_Codec (options b)) as [c|]; [|done].
  by destruct (c_Encode c (f_Body f)) as [[? ?]|].
Qed.

Lemma encrypt_alone x s :
  options (l_conn s) = o -> does (encrypt o x) s (l_conn s) (Conn.encrypt (l_conn s) x).
Proof.
  intros Ho. unfold does, encrypt, Conn.encrypt. simpl. rewrite Ho.
  destruct (negb (bool_decide _)); [by eexists|]. destruct (negb (EncryptEnable o)); [by eexists|]. simpl.
  unfold use_cipher, run_cipher. destruct (cipher (l_conn s)); by eexists.
Qed.

Lemma with_Body_same f : with_Body f (f_Body f) = f.
Proof. by destruct f. Qed.

Lemma sendFrame_alone f s :
  options (l_conn s) = o ->
  let '(b, err) := Conn.sendFrame select_done (l_conn s) f in does (sendFrame o f) s b err.
Proof.
  intros Ho. destruct f as [f|]; [|by exists s]. unfold Conn.sendFrame, sendFrame. rewrite encode_body_code by done.
  destruct (code_frame o f) as [g|x]; [|by exists s].
  set (p := if negb _ then encrypt o (f_Body g) else _).
  set (y := if negb _ then _ else Ok g).
  assert (Hp : exists s', alone p s = Some (s', match y with Ok h => Ok (f_Body h) | Err x => Err x end) /\
            l_conn s' = l_conn s /\ l_stored s' = l_stored s /\ (forall h, y = Ok h -> with_Body g (f_Body h) = h)).
  { unfold p, y. destruct (negb _).
    - destruct (encrypt_alone (f_Body g) s Ho) as (s' & E & E1 & E2). exists s'. rewrite E.
      destruct (Conn.encrypt (l_conn s) (f_Body g)); split_and!; try done. by intros h [= <-].
    - exists s. split_and!; try done. intros h [= <-]. apply with_Body_same. }
  destruct Hp as (s' & E & Ec & Es & Ey).
  assert (Hd : forall p', p' = (body <~ p; match body with Err x => Ret (Some x) | Ok body =>
     match EncodeMessageFrameWithLimit (with_Body g body) (MaxOutboundSize o) with
     | Err x => Ret (Some (NProto x)) | Ok bytes => err <-! PushQueue f bytes; Ret err end end) ->
     let '(b, err) := match y with Err x => (l_conn s, Some x) | Ok h =>
       match EncodeMessageFrameWithLimit h (MaxOutboundSize (options (l_conn s))) with
       | Err x => (l_conn s, Some (NProto x)) | Ok bytes => pushQueue select_done (l_conn s) bytes end end in does p' s b err).
  { intros p' ->. unfold does. rewrite alone_bind, E. destruct y as [h|x]; [|exists s'; by rewrite Ec].
    rewrite (Ey h eq_refl), Ho. destruct (EncodeMessageFrameWithLimit h _) as [bytes|x]; [|exists s'; by rewrite Ec].
    simpl. rewrite Ec. destruct (pushQueue _ (l_conn s) bytes) as [b [x|]] eqn:Ep; eexists; (split; [reflexivity|]); [|done].
    split; [|done]. rewrite Ec. unfold pushQueue in Ep. repeat case_match; by simplify_eq. }
  by apply Hd.
Qed.

Lemma SendMessage_alone f s :
  options (l_conn s) = o ->
  let '(b, err) := Conn.SendMessage select_done (l_conn s) f in does (SendMessage o f) s b err.
Proof.
  intros Ho. unfold Conn.SendMessage, SendMessage, does. simpl. destruct (decide _); [by exists s|].
  by apply sendFrame_alone.
Qed.

Lemma onReady_alone s :
  usual s -> let '(b, err) := Conn.onReady OnConnected (l_conn s) in does onReady s b err.
Proof.
  intros Hu. unfold Conn.onReady, does. destruct (o_err e) as [err|] eqn:He; simpl; rewrite He; simpl.
  - eexists. split; [reflexivity|]. simpl. by rewrite stop_timer, stop_stored by done.
  - rewrite stop_timer by done. destruct (readyCh_closed (l_conn s)) eqn:Hc; simpl; rewrite ?Hc;
      eexists; (split; [reflexivity|]); simpl; rewrite ?stop_timer by done; split; try apply stop_stored; try done.
Qed.

Lemma sendExchangeKey_alone s :
  options (l_conn s) = o -> is_Some (cipher (l_conn s)) ->
  let '(b, err) := Conn.sendExchangeKey select_done (l_conn s) in does (sendExchangeKey o) s b err.
Proof.
  intros Ho [c Hc]. unfold Conn.sendExchangeKey, sendExchangeKey, public_key, does. rewrite Hc. simpl.
  unfold use_cipher. rewrite Hc. by apply (sendFrame_alone (Some _)).
Qed.

Lemma sendFrame_keeps f b : let b' := (Conn.sendFrame select_done b f).1 in
  options b' = options b /\ role b' = role b /\ cipher b' = cipher b /\ handshakeTimer b' = handshakeTimer b.
Proof. unfold Conn.sendFrame, pushQueue. by repeat case_match. Qed.

Lemma handleKeyExchange_alone f s :
  usual s ->
  let '(b, err) := Conn.handleKeyExchange OnConnected select_done (l_conn s) f in does (handleKeyExchange o r f) s b err.
Proof.
  intros [U1 U2 U3 U4]. unfold Conn.handleKeyExchange, handleKeyExchange, does. simpl. unfold CompareAndSwap.
  destruct (decide (state (l_conn s) = _)) as [Hh|]; [|by exists s]. specialize (U4 Hh) as Hc. cbn [role set_state]. rewrite U2.
  set (s1 := with_ready (set_state (l_conn s) ConnectionStateReady) s).
  change (set_state (l_conn s) ConnectionStateReady) with (l_conn s1). simpl. rewrite alone_bind.
  set (p := if decide (r = ConnectionRoleServer) then sendExchangeKey o else Ret None).
  set (q := if decide (r = ConnectionRoleServer) then _ else _).
  assert (Hp : does p s1 q.1 q.2 /\ options q.1 = o /\ role q.1 = r /\ is_Some (cipher q.1) /\
            handshakeTimer q.1 = handshakeTimer (l_conn s)).
  { unfold p, q. destruct (decide (r = ConnectionRoleServer)); [|split; [by exists s1|done]].
    pose proof (sendExchangeKey_alone s1 U1 Hc) as Hd. unfold Conn.sendExchangeKey in *.
    pose proof (sendFrame_keeps (Some (mkFrame InternalCmd InternalKeyExchange 0 0 0 0 (public_key (l_conn s1)))) (l_conn s1)) as (E1 & E2 & E3 & E4).
    destruct (Conn.sendFrame _ _ _) as [b err]. simpl in *. split; [done|]. rewrite E1, E2, E3, E4. done. }
  destruct Hp as [(s2 & E & Ec & Es) (Q1 & Q2 & [c Q3] & Q4)]. destruct q as [b [err|]]; simpl in *; rewrite E; [by exists s2|].
  simpl. unfold use_cipher. rewrite Ec, Q3. destruct (GenerateSharedKey c (f_Body f)) as [c'|x]; [|by exists s2].
  pose proof (onReady_alone (with_conn (set_cipher b c') s2)) as Hr. simpl in Hr.
  destruct (Conn.onReady OnConnected (set_cipher b c')) as [b' err].
  destruct Hr as (s3 & F1 & F2 & F3); [split; simpl; [done|done|rewrite Q4, Es; exact U3|by eexists]|].
  exists s3. rewrite F1. split_and!; [done|done|by rewrite F3].
Qed.

Lemma prepare_alone f s :
  options (l_conn s) = o ->
  does (prepareMessageFrame o f) s (l_conn s) (Conn.prepareMessageFrame (l_conn s) f).
Proof.
  intros Ho. unfold prepareMessageFrame, Conn.prepareMessageFrame, does. rewrite alone_bind, Ho.
  assert (Hd : does (decrypt o (f_Body f)) s (l_conn s) (Conn.decrypt (l_conn s) (f_Body f))).
  { unfold does, decrypt, Conn.decrypt. rewrite Ho. destruct (negb (EncryptEnable o)); [by eexists|]. simpl.
    destruct (negb (bool_decide _)); [by eexists|]. simpl. unfold use_cipher, run_cipher.
    destruct (cipher (l_conn s)); by eexists. }
  unfold decode_frame. destruct (negb (IsInternalCommand (f_Cmd f))).
  - destruct Hd as (s' & -> & Ec & Es). exists s'. destruct (Conn.decrypt _ _); [|done].
    split; [|done]. simpl. by destruct (o_Codec o).
  - exists s. simpl. rewrite with_Body_same. split; [|done]. by destruct (o_Codec o).
Qed.

Lemma processFrame_alone f s :
  usual s ->
  let '(b, err) := Conn.processFrame OnConnected OnMessage select_done (l_conn s) f in does (processFrame o r f) s b err.
Proof.
  intros Hu. unfold Conn.processFrame, processFrame. destruct (IsInternalCommand (f_Cmd f)).
  - destruct (_ =? _); [by exists s|]. destruct (_ =? _); [|by exists s]. by apply handleKeyExchange_alone.
  - unfold does. simpl. destruct (negb _); [by exists s|]. simpl. by eexists.
Qed.

(** A decoded frame. *)
Lemma onFrame_alone now data f n s :
  usual s ->
  DecodeMessageFrameWithLimit data (MaxInboundSize o) = (Some f, n, None) -> n <> 0 ->
  exists b err, does (onFrame o r now f) s b err /\
    Conn.onProcess OnConnected OnMessage select_done (l_conn s) now data = (b, n, err).
Proof.
  intros [U1 U2 U3 U4] Hd Hn. unfold Conn.onProcess. rewrite U1, Hd, (proj2 (Z.eqb_neq n 0)) by done.
  set (s1 := with_conn (touch (l_conn s) now) s). destruct (prepare_alone f s1 U1) as (s2 & E & Ec & Es).
  unfold onFrame, does. simpl. fold s1. rewrite alone_bind, E. change (touch (l_conn s) now) with (l_conn s1).
  destruct (Conn.prepareMessageFrame (l_conn s1) f) as [g|x] eqn:Ep; [|do 2 eexists; split; [by exists s2|done]].
  pose proof (processFrame_alone g s2) as Hp. rewrite Ec in Hp.
  destruct (Conn.processFrame _ _ _ (l_conn s1) g) as [b err]. exists b, err. split; [|done].
  destruct Hp as (s3 & F1 & F2 & F3); [split; rewrite ?Ec, ?Es; done|].
  exists s3. rewrite F1. split_and!; [done|done|by rewrite F3].
Qed.

Lemma start_alone seed s :
  usual s ->
  effect (start o r seed) s = Some (Conn.start OnConnected select_done (l_conn s) seed).
Proof.
  intros [U1 U2 U3 U4]. unfold effect, start. pose proof onReady_alone as Hup. revert Hup. generalize onReady. intros up Hup.
  unfold Conn.start. simpl. unfold CompareAndSwap.
  destruct (decide (state (l_conn s) = _)); [|done]. simpl. rewrite U1. destruct (EncryptEnable o); simpl.
  - unfold startHandshake, Conn.startHandshake. simpl. destruct (NewECDHCipher seed) as [c|e1]; [|done]. simpl. rewrite U2, alone_bind.
    set (s1 := with_conn _ _). destruct (decide (r = ConnectionRoleClient)); simpl; [|done].
    pose proof (sendExchangeKey_alone s1 U1 ltac:(by eexists)) as Hd. simpl in Hd.
    destruct (Conn.sendExchangeKey _ _) as [b err]. destruct Hd as (s2 & E & <- & _).
    simpl in E. rewrite E. by destruct err.
  - set (s1 := with_ready _ _). pose proof (Hup s1) as Hd. simpl in Hd.
    destruct (Conn.onReady _ _) as [b err]. destruct Hd as (s2 & E & <- & _); [by split|]. by rewrite E.
Qed.

(** The methods of a connection, run without another goroutine in between, do and
    return what Conn.v's functions say: sending, starting, processing the next
    frame, closing. *)
Theorem methods_alone_are_functions s :
  usual s ->
  (forall f, effect (SendMessage o f) s = Some (Conn.SendMessage select_done (l_conn s) f)) /\
  (forall seed, effect (start o r seed) s = Some (Conn.start OnConnected select_done (l_conn s) seed)) /\
  (forall now data f n,
     DecodeMessageFrameWithLimit data (MaxInboundSize o) = (Some f, n, None) -> n <> 0 ->
     exists b err, effect (onFrame o r now f) s = Some (b, err) /\
       Conn.onProcess OnConnected OnMessage select_done (l_conn s) now data = (b, n, err)) /\
  (forall err, effect (Close err) s = Some (Conn.Close (l_conn s) err, tt)).
Proof.
  intros Hu. split_and!.
  - intros f. pose proof (SendMessage_alone f s (u_options _ Hu)) as Hd.
    destruct (Conn.SendMessage _ _ _) as [b err]. by apply does_effect.
  - intros seed. by apply start_alone.
  - intros now data f n Hd Hn. destruct (onFrame_alone now data f n s Hu Hd Hn) as (b & err & H1 & H2).
    exists b, err. split; [by apply does_effect|done].
  - intros err. by apply does_effect, close_alone.
Qed.
End Alone.
