(* ===== verification/ConnRaces.v ===== *)
(** * The goroutines of a connection at work

    A server that comes up, handles a frame and is closed; a client that agrees
    on a key, and one whose user sends a frame of the reserved command; and three
    orders that the code does not exclude: OnMessage that begins after OnClose,
    OnClose without the reason, and messages written after a write that failed. *)

From S2P Require Import Prelude Protocol Codec Cipher Conn ConnDemo Effects Threads ConnThreads ConnSafety ConnAlone.

Definition good : oracle := mkOracle None false.
Definition bad (code : Z) : oracle := mkOracle (Some (NIO code)) false.
Definition go (i : tid) (n : nat) : list act := repeat (Step i good) n.

Definition plain_config : CommonConfig := (TCPConfig_Normalize (mkConfig false 0 None 0 0 0 0 0) 0).1.
Definition serve (acts : list act) : life :=
  shared (run plain_config ConnectionRoleServer (fresh plain_config ConnectionRoleServer 0) acts).

(** A frame of command 7, and its bytes. *)
Definition frame (n : Z) : MessageFrame := mkFrame 7 n 0 0 0 0 [n].
Definition bytes (n : Z) : list Z :=
  match EncodeMessageFrame (frame n) with Ok l => l | Err _ => [] end.

(** *** A server's connection *)

Definition comes_up : list act := Start 1 :: go TStart 8.
Definition handles (n : Z) : list act := Frame n (frame n) :: go TRead 5.
Definition sends (c : N) (n : Z) : list act := CallSend c (Some (frame n)) :: go (TCaller c) 3.
Definition writes : list act := Writing WMessage :: go TWrite 3.
Definition closes (c : N) (err : option nerr) : list act := CallClose c err :: go (TCaller c) 4.
(** The context is done: drain one message each, then close and notify. *)
Definition winds_up (n : nat) : list act :=
  Writing WDone :: go TWrite 1 ++ concat (replicate n (Draining :: go TWrite 3)) ++ Draining :: go TWrite 8 ++ Notify :: go TNotify 2.

Definition a_life : list act :=
  comes_up ++ handles 1 ++ sends 0 5 ++ sends 0 6 ++ writes ++ handles 2 ++ closes 1 (Some (NUser 9)) ++ winds_up 1 ++ sends 0 7.

Example a_life_state :
  let s := serve a_life in
  l_calls s = [CConnecting; CConnected None; CMessage (frame 1); CHandled None; CMessage (frame 2); CHandled None;
               CClosed (Some (NUser 9))] /\
  written (l_conn s) = [bytes 5; bytes 6] /\ l_writer s = Ended /\ l_socket_closed s = true /\
  state (l_conn s) = ConnectionStateClosed /\ readyCh_closed (l_conn s) = true.
Proof. vm_compute. done. Qed.

(** *** A client that agrees on a key *)

Definition dial (acts : list act) : life :=
  shared (run config.1 ConnectionRoleClient (fresh config.1 ConnectionRoleClient 0) acts).

(** It sends its key, gets the server's, and then sends a message; the one before
    the key was refused. *)
Definition key_of (seed : Z) : MessageFrame := mkFrame InternalCmd InternalKeyExchange 0 0 0 0 [u8 seed].
Definition agrees : list act :=
  Start 3 :: go TStart 10 ++ sends 0 4 ++ Frame 1 (key_of 5) :: go TRead 8 ++ CallSend 0 (Some (frame 5)) :: go (TCaller 0) 4.

Example agrees_state :
  let s := dial agrees in
  state (l_conn s) = ConnectionStateReady /\ sharedKey <$> cipher (l_conn s) = Some (replicate 32 6) /\
  f_Body ∘ fst <$> l_accepted s = [[3]; [5]] /\ (snd <$> l_accepted s) !! 1%nat <> Some (bytes 5).
Proof. vm_compute. split_and!; done. Qed.

Lemma nothing_leaves_in_the_clear_witness :
  EncryptEnable config.1 = true /\ reserved agrees = [] /\ key_first (l_accepted (dial agrees)).
Proof.
  split_and!; [reflexivity|reflexivity|].
  unfold dial. exact (proj2 (nothing_leaves_in_the_clear config.1 ConnectionRoleClient 0 agrees eq_refl) eq_refl).
Defined.

(** SendMessage takes a frame of the reserved command from a user: it is queued
    before the key, and its body is not enciphered. *)
Definition intrudes : list act :=
  CallSend 0 (Some (mkFrame InternalCmd InternalActClose 0 0 0 0 [104; 105])) :: go (TCaller 0) 3 ++ agrees.
Example reserved_frame_in_the_clear :
  let s := dial intrudes in
  f_Cmd ∘ fst <$> l_accepted s = [0; 0; 7] /\ f_Act ∘ fst <$> l_accepted s = [2; 1; 5] /\
  (drop 17 <$> (snd <$> l_accepted s) !! 0%nat) = Some [104; 105] /\ state (l_conn s) = ConnectionStateReady.
Proof. vm_compute. split_and!; done. Qed.

(** No key pair: the connection closes with the error of GenerateKey. *)
Example no_key_pair :
  let s := dial (Start (-1) :: go TStart 10) in
  state (l_conn s) = ConnectionStateClosed /\ closeErr (l_conn s) = Some (NCipher ErrCrypto) /\
  l_accepted s = [] /\ l_reader s = NotStarted.
Proof. vm_compute. done. Qed.

(** *** What the order of goroutines may do *)

(** The read loop saw the connection ready; then it is closed and OnClose runs;
    then OnMessage begins. *)
Definition late_message : list act :=
  comes_up ++ Frame 1 (frame 1) :: go TRead 2 ++ closes 0 None ++ winds_up 0 ++ go TRead 2.
Example message_after_close :
  l_calls (serve late_message) = [CConnecting; CConnected None; CClosed None; CMessage (frame 1); CHandled None].
Proof. vm_compute. done. Qed.

(** A caller has swapped the state but not yet stored its reason when the write
    loop fails, loses the swap, and tells the handler. *)
Definition lost_reason : list act :=
  comes_up ++ sends 0 5 ++ CallClose 1 (Some (NUser 9)) :: go (TCaller 1) 1 ++
  Writing WMessage :: go TWrite 1 ++ [Step TWrite (bad 2)] ++ go TWrite 1 ++ Draining :: go TWrite 5 ++ Notify :: go TNotify 2 ++
  go (TCaller 1) 3.
Example closed_without_reason :
  let s := serve lost_reason in
  omap closing_of (l_calls s) = [None] /\ closeErr (l_conn s) = Some (NUser 9) /\ l_failed s = true.
Proof. vm_compute. done. Qed.

(** The write of the first message fails, maybe halfway; the second is written. *)
Definition failed_write : list act :=
  comes_up ++ sends 0 5 ++ sends 0 6 ++ Writing WMessage :: go TWrite 1 ++ [Step TWrite (bad 2)] ++ go TWrite 1 ++
  Draining :: go TWrite 3.
Example writes_after_failure :
  let s := serve failed_write in l_taken s = [bytes 5; bytes 6] /\ written (l_conn s) = [bytes 6].
Proof. vm_compute. done. Qed.

(** *** The methods on their own *)

Lemma methods_alone_are_functions_witness :
  let s := serve comes_up in
  usual plain_config ConnectionRoleServer s /\
  effect good (TCaller 0) (SendMessage plain_config (Some (frame 5))) s =
    Some (Conn.SendMessage (fun _ => false) (l_conn s) (Some (frame 5))).
Proof.
  cbv zeta. assert (Hu : usual plain_config ConnectionRoleServer (serve comes_up)) by (split; vm_compute; done).
  split; [exact Hu|].
  exact (proj1 (methods_alone_are_functions plain_config ConnectionRoleServer good (TCaller 0) _ Hu) (Some (frame 5))).
Defined.
