(* ===== verification/Directory.v ===== *)
(** * logicalactor/directory: who owns a logical actor

    storage.go (the Lua scripts, which Redis runs atomically, and the Go code
    around them), redis.go (the directory of one node with its cache and its
    subscription) and types.go (the keys), then the whole system: one Redis,
    the directories of several nodes, and calls that interleave at every access
    to Redis and to a cache. *)

From S2P Require Import Prelude Effects Placement.

(** ** types.go *)

Record Owner := mkOwner { o_Node : NodeInfo; o_Epoch : Z (* uint64 *) }.
Record ownerEvent := mkOwnerEvent { ActorId : ActorID; e_Epoch : Z (* uint64 *) }.

(** [genRedisKey(prefix, redisOwnerKey, id)] and [genRedisKey(prefix, redisEpochKey, id)] *)
Definition genRedisKey (prefix s : string) : string := "{directory}." +:+ prefix +:+ s.
Definition redisOwnerKey (prefix id : string) : string := genRedisKey prefix id.
Definition redisEpochKey (prefix id : string) : string := genRedisKey prefix (id +:+ ".epoch").

Definition redis_unavailable : lerr := ErrRedis 1.
Definition redis_script_error : lerr := ErrRedis 2.
Definition redis_bad_result : lerr := ErrRedis 3.

(** ** Redis *)

(** A Redis string: a decimal number, or the JSON object of a node. *)
Inductive sval := SNum (n : Z) | SOwner (n : NodeInfo).
Record entry := mkEntry { e_val : sval; e_deadline : option Z }.
Abbreviation store := (gmap string entry).

(** A value of a script's result: an integer, or a string. *)
Inductive rvalue := VInt (n : Z) | VStr (v : option sval).

Definition live (now : Z) (e : entry) : bool :=
  match e_deadline e with None => true | Some d => bool_decide (now < d) end.

(** [GET] *)
Definition redis_get (now : Z) (st : store) (k : string) : option sval :=
  match st !! k with Some e => if live now e then Some (e_val e) else None | None => None end.

(** [INCR]: a missing key counts as 0; a value that is no number, or the
    largest one, is an error; the key keeps its expiry. *)
Definition redis_incr (now : Z) (st : store) (k : string) : res lerr (store * Z) :=
  match redis_get now st k with
  | None => Ok (<[k := mkEntry (SNum 1) None]> st, 1)
  | Some (SNum n) =>
    if bool_decide (n < 2 ^ 63 - 1)
    then Ok (<[k := mkEntry (SNum (n + 1)) (st !! k ≫= e_deadline)]> st, n + 1)
    else Err redis_script_error
  | Some (SOwner _) => Err redis_script_error
  end.

(** [SET], with [PX ttl] when [ttl > 0]. *)
Definition redis_set (now : Z) (st : store) (k : string) (v : sval) (ttl : Z) : store :=
  <[k := mkEntry v (if bool_decide (0 < ttl) then Some (now + ttl) else None)]> st.

Definition or_zero (v : option sval) : rvalue := VStr (Some (default (SNum 0) v)).

(** [getOwnerScript] *)
Definition getOwnerScript (now : Z) (st : store) (k1 k2 : string) : list rvalue :=
  [or_zero (redis_get now st k2); VStr (redis_get now st k1)].

(** [acquireOwnerScript]; [cjson.decode] of a number has no field [node_id],
    so the script fails on it. *)
Definition acquireOwnerScript (now : Z) (st : store) (k1 k2 : string) (candidate : NodeInfo) (ttl : Z)
  : store * res lerr (list rvalue) :=
  let current := redis_get now st k1 in
  let epoch := or_zero (redis_get now st k2) in
  let take :=
    match redis_incr now st k2 with
    | Err err => (st, Err err)
    | Ok (st, epoch) =>
      (redis_set now st k1 (SOwner candidate) ttl, Ok [VInt 1; VInt epoch; VStr (Some (SOwner candidate))])
    end in
  match current with
  | None => take
  | Some (SNum _) => (st, Err redis_script_error)
  | Some (SOwner owner) =>
    if negb (bool_decide (NodeId owner = NodeId candidate))
    then (st, Ok [VInt 0; epoch; VStr current])
    else take
  end.

(** [renewOwnerScript] *)
Definition renewOwnerScript (now : Z) (st : store) (k1 : string) (expected : NodeInfo) (ttl : Z)
  : store * res lerr Z :=
  match redis_get now st k1 with
  | None => (st, Ok 0)
  | Some (SNum _) => (st, Err redis_script_error)
  | Some (SOwner current) =>
    if negb (bool_decide (NodeId current = NodeId expected))
       || negb (bool_decide (InstanceId current = InstanceId expected))
    then (st, Ok 0)
    else if bool_decide (ttl <= 0) then (st, Ok 1)
    else (<[k1 := mkEntry (SOwner current) (Some (now + ttl))]> st, Ok 1)
  end.

(** [deleteOwnerScript] *)
Definition deleteOwnerScript (now : Z) (st : store) (k1 k2 : string) (expected : NodeInfo)
  : store * res lerr (list rvalue) :=
  let epoch := or_zero (redis_get now st k2) in
  match redis_get now st k1 with
  | None => (st, Ok [VInt 0; epoch])
  | Some (SNum _) => (st, Err redis_script_error)
  | Some (SOwner current) =>
    if bool_decide (NodeId current = NodeId expected) && bool_decide (InstanceId current = InstanceId expected)
    then let st := delete k1 st in
         match redis_incr now st k2 with
         | Err err => (st, Err err)
         | Ok (st, epoch) => (st, Ok [VInt 1; VInt epoch])
         end
    else (st, Ok [VInt 0; epoch])
  end.

(** ** storage.go around the scripts *)

Definition redisResultUint64 (v : rvalue) : res lerr Z :=
  match v with
  | VInt n => if bool_decide (n < 0) then Err redis_bad_result else Ok n
  | VStr (Some (SNum n)) => if bool_decide (0 <= n < 2 ^ 64) then Ok n else Err redis_bad_result
  | VStr (Some (SOwner _)) | VStr None => Err redis_bad_result
  end.
Definition redisResultBool (v : rvalue) : res lerr bool :=
  n ← redisResultUint64 v; Ok (bool_decide (n = 1)).

Definition check_node (n : NodeInfo) : res lerr NodeInfo :=
  match NodeInfo_Validate n with Some err => Err err | None => Ok n end.

(** [acquireOwnerFromRedis] on the script's result *)
Definition acquired_result (result : list rvalue) : res lerr (Owner * bool) :=
  match result with
  | [r0; r1; r2] =>
    acquire ← redisResultBool r0;
    epoch ← redisResultUint64 r1;
    match r2 with
    | VStr (Some (SOwner node)) => node ← check_node node; Ok (mkOwner node epoch, acquire)
    | _ => Err redis_bad_result
    end
  | _ => Err redis_bad_result
  end.

(** [getOwnerFromRedis] on the script's result *)
Definition got_result (result : list rvalue) : res lerr (option Owner) :=
  match result with
  | [r0; r1] =>
    match r1 with
    | VInt _ | VStr None => Ok None
    | VStr (Some v) =>
      epoch ← redisResultUint64 r0;
      match v with
      | SOwner node => node ← check_node node; Ok (Some (mkOwner node epoch))
      | SNum _ => Err redis_bad_result
      end
    end
  | _ => Err redis_bad_result
  end.

(** [deleteOwnerFromRedis] on the script's result *)
Definition deleted_result (result : list rvalue) : res lerr (bool * Z) :=
  match result with
  | [r0; r1] => deleted ← redisResultBool r0; epoch ← redisResultUint64 r1; Ok (deleted, epoch)
  | _ => Err redis_bad_result
  end.

(** ** redis.go: the cache of one directory *)

(** The expirable LRU: what it holds; it may drop any entry at any time. *)
Abbreviation cache := (gmap string Owner).

Definition tryDelCached (key : string) (epoch : Z) (c : cache) : cache :=
  match c !! key with
  | Some current => if bool_decide (epoch < o_Epoch current) then c else delete key c
  | None => delete key c
  end.

Definition getCached (key : string) (c : cache) : option Owner := c !! key.

Definition trySetCached (key : string) (owner : Owner) (c : cache) : cache :=
  match c !! key with
  | Some current => if bool_decide (o_Epoch owner <= o_Epoch current) then c else <[key := owner]> c
  | None => <[key := owner]> c
  end.

Definition refreshCached (key : string) (expected : NodeInfo) (c : cache) : cache :=
  match c !! key with
  | Some current => if bool_decide (o_Node current = expected) then <[key := current]> c else c
  | None => c
  end.

(** ** redis.go: the operations, as programs over Redis and the cache

    A program stops at every access to what other calls share: a script run by
    Redis, a method of the cache under cacheMu, a message published. *)

Inductive op : Set -> Type :=
| RunGet (id : string) : op (res lerr (list rvalue))
| RunAcquire (id : string) (candidate : NodeInfo) : op (res lerr (list rvalue))
| RunRenew (id : string) (expected : NodeInfo) : op (res lerr Z)
| RunDelete (id : string) (expected : NodeInfo) : op (res lerr (list rvalue))
| CacheGet (key : string) : op (option Owner)
| CacheSet (key : string) (owner : Owner) : op unit
| CacheDel (key : string) (epoch : Z) : op unit
| CacheRefresh (key : string) (expected : NodeInfo) : op unit
| Publish (event : ownerEvent) : op unit.

Definition notifyOwnerUpdate {A} (actorId : ActorID) (epoch : Z) (k : prog op A) : prog op A :=
  do! Publish (mkOwnerEvent actorId epoch); k.

(** The results of the four operations: [(NodeInfo, bool, error)] or [(bool, error)]. *)
Inductive answer := AOwner (node : NodeInfo) (b : bool) | ABool (b : bool).

Definition AcquireOwner (actorId : ActorID) (candidate : NodeInfo) : prog op (res lerr answer) :=
  match Validate actorId with Some err => Ret (Err err) | None =>
  match NodeInfo_Validate candidate with Some err => Ret (Err err) | None =>
    result <-! RunAcquire (ActorID_String actorId) candidate;
    match mbind (M:=res lerr) acquired_result result with
    | Err err => Ret (Err err)
    | Ok (owner, acquire) =>
      do! CacheSet (ActorID_String actorId) owner;
      if acquire
      then notifyOwnerUpdate actorId (o_Epoch owner) (Ret (Ok (AOwner (o_Node owner) acquire)))
      else Ret (Ok (AOwner (o_Node owner) acquire))
    end
  end end.

Definition RenewOwner (actorId : ActorID) (expectedOwner : NodeInfo) : prog op (res lerr answer) :=
  match Validate actorId with Some err => Ret (Err err) | None =>
  match NodeInfo_Validate expectedOwner with Some err => Ret (Err err) | None =>
    result <-! RunRenew (ActorID_String actorId) expectedOwner;
    match result with
    | Err err => Ret (Err err)
    | Ok n =>
      if bool_decide (n = 1)
      then do! CacheRefresh (ActorID_String actorId) expectedOwner; Ret (Ok (ABool true))
      else Ret (Ok (ABool false))
    end
  end end.

Definition GetOwner (actorId : ActorID) : prog op (res lerr answer) :=
  match Validate actorId with Some err => Ret (Err err) | None =>
    found <-! CacheGet (ActorID_String actorId);
    match found with
    | Some owner => Ret (Ok (AOwner (o_Node owner) true))
    | None =>
      result <-! RunGet (ActorID_String actorId);
      match mbind (M:=res lerr) got_result result with
      | Err err => Ret (Err err)
      | Ok None => Ret (Ok (AOwner no_node false))
      | Ok (Some owner) =>
        do! CacheSet (ActorID_String actorId) owner; Ret (Ok (AOwner (o_Node owner) true))
      end
    end
  end.

Definition DeleteOwner (actorId : ActorID) (expectedOwner : NodeInfo) : prog op (res lerr answer) :=
  match Validate actorId with Some err => Ret (Err err) | None =>
  match NodeInfo_Validate expectedOwner with Some err => Ret (Err err) | None =>
    result <-! RunDelete (ActorID_String actorId) expectedOwner;
    match mbind (M:=res lerr) deleted_result result with
    | Err err => Ret (Err err)
    | Ok (deleted, epoch) =>
      if deleted
      then do! CacheDel (ActorID_String actorId) epoch;
           notifyOwnerUpdate actorId epoch (Ret (Ok (ABool deleted)))
      else Ret (Ok (ABool deleted))
    end
  end end.

(** [NewRedisDirectory]: the options it settles on; [None] is a nil client. *)
Record Options := mkOptions { LeaseTTL : Z (* ns *); CacheSize : Z; CacheTTL : Z (* ns *) }.
Definition Second : Z := 1000000000.
Definition defaultLeaseTTL : Z := 30 * Second.
Definition defaultCacheSize : Z := 100000.
Definition NewRedisDirectory (o : Options) : Options :=
  let lease := if bool_decide (LeaseTTL o <= 0) then defaultLeaseTTL else LeaseTTL o in
  mkOptions lease
    (if bool_decide (CacheSize o <= 0) then defaultCacheSize else CacheSize o)
    (if bool_decide (CacheTTL o <= 0) then lease else CacheTTL o).
(** [leaseTTL.Milliseconds()] *)
Definition lease_ms (o : Options) : Z := Z.quot (LeaseTTL o) 1000000.

(** ** The system *)

(** The directory of one node; [events]: published messages it has not yet read. *)
Record Directory := mkDirectory {
  d_cache : cache; d_subscribed : bool; d_events : list ownerEvent }.
Definition new_directory : Directory := mkDirectory ∅ true [].

(** What happened to the ownership of one actor id, the newest first. *)
Inductive deed := Granted (epoch : Z) (node : NodeInfo) | Released (epoch : Z) (node : NodeInfo).

Inductive request :=
| RGet (a : ActorID) | RAcquire (a : ActorID) (n : NodeInfo)
| RRenew (a : ActorID) (n : NodeInfo) | RDelete (a : ActorID) (n : NodeInfo).
Definition request_actor (r : request) : ActorID :=
  match r with RGet a | RAcquire a _ | RRenew a _ | RDelete a _ => a end.
Definition handler (r : request) : prog op (res lerr answer) :=
  match r with
  | RGet a => GetOwner a | RAcquire a n => AcquireOwner a n
  | RRenew a n => RenewOwner a n | RDelete a n => DeleteOwner a n
  end.

(** A call in progress at a directory, or its result. *)
Record call := mkCall { c_dir : nat; c_request : request; c_prog : prog op (res lerr answer) }.

Record World := mkWorld {
  now : Z; (* ms *)
  redis : store;
  dirs : gmap nat Directory;
  calls : list call;
  history : gmap string (list deed) }.

Definition deeds (w : World) (id : string) : list deed := default [] (history w !! id).

(** What becomes of a command sent to Redis: it may never arrive, or the
    reply may be lost. *)
Inductive fate := Delivered | NotSent | ReplyLost.

Inductive act :=
| Tick (d : Z)
| Call (c : nat) (r : request)
| Run (t : nat) (f : fate)
| ReceiveEvent (c : nat)
| LoseEvent (c : nat)
| Evict (c : nat) (key : string)
| CloseDirectory (c : nat).

Section System.
(** Every directory of the cluster is configured alike. *)
Variables (prefix : string) (ttl : Z).

Definition upd_redis (f : store -> store) (w : World) : World :=
  mkWorld (now w) (f (redis w)) (dirs w) (calls w) (history w).
Definition set_redis (st : store) : World -> World := upd_redis (fun _ => st).
Definition upd_dir (c : nat) (f : Directory -> Directory) (w : World) : World :=
  mkWorld (now w) (redis w) (alter f c (dirs w)) (calls w) (history w).
Definition upd_cache (c : nat) (f : cache -> cache) : World -> World :=
  upd_dir c (fun d => mkDirectory (f (d_cache d)) (d_subscribed d) (d_events d)).
Definition record_deed (id : string) (d : deed) (w : World) : World :=
  mkWorld (now w) (redis w) (dirs w) (calls w) (<[id := d :: deeds w id]> (history w)).
Definition set_calls (cs : list call) (w : World) : World :=
  mkWorld (now w) (redis w) (dirs w) cs (history w).

(** Every subscribed directory receives what is published. *)
Definition publish (e : ownerEvent) (w : World) : World :=
  mkWorld (now w) (redis w)
    ((fun d => if d_subscribed d then mkDirectory (d_cache d) true (d_events d ++ [e]) else d) <$> dirs w)
    (calls w) (history w).

Definition owner_key (id : string) : string := redisOwnerKey prefix id.
Definition epoch_key (id : string) : string := redisEpochKey prefix id.

(** One access, by a call at the directory [c]. *)
Definition do_op (w : World) (c : nat) {R : Set} (o : op R) : World * R :=
  match o in op R return World * R with
  | RunGet id => (w, Ok (getOwnerScript (now w) (redis w) (owner_key id) (epoch_key id)))
  | RunAcquire id n =>
    let '(st, r) := acquireOwnerScript (now w) (redis w) (owner_key id) (epoch_key id) n ttl in
    let w := set_redis st w in
    (match r with Ok [VInt 1; VInt e; _] => record_deed id (Granted e n) w | _ => w end, r)
  | RunRenew id n =>
    let '(st, r) := renewOwnerScript (now w) (redis w) (owner_key id) n ttl in (set_redis st w, r)
  | RunDelete id n =>
    let '(st, r) := deleteOwnerScript (now w) (redis w) (owner_key id) (epoch_key id) n in
    let w := set_redis st w in
    (match r with Ok [VInt 1; VInt e] => record_deed id (Released e n) w | _ => w end, r)
  | CacheGet key => (w, dirs w !! c ≫= fun d => getCached key (d_cache d))
  | CacheSet key owner => (upd_cache c (trySetCached key owner) w, tt)
  | CacheDel key epoch => (upd_cache c (tryDelCached key epoch) w, tt)
  | CacheRefresh key n => (upd_cache c (refreshCached key n) w, tt)
  | Publish e => (publish e w, tt)
  end.

(** What an operation on Redis answers when the connection fails. *)
Definition unavailable {R : Set} (o : op R) : option R :=
  match o in op R return option R with
  | RunGet _ => Some (Err redis_unavailable)
  | RunAcquire _ _ => Some (Err redis_unavailable)
  | RunRenew _ _ => Some (Err redis_unavailable)
  | RunDelete _ _ => Some (Err redis_unavailable)
  | Publish _ => Some tt
  | _ => None
  end.

Definition do_fated (w : World) (c : nat) (f : fate) {R : Set} (o : op R) : World * R :=
  match f, unavailable o with
  | NotSent, Some r => (w, r)
  | ReplyLost, Some r => ((do_op w c o).1, r)
  | _, _ => do_op w c o
  end.

(** [handleOwnerEvent] *)
Definition handleOwnerEvent (e : ownerEvent) (c : cache) : cache :=
  tryDelCached (ActorID_String (ActorId e)) (e_Epoch e) c.

Definition step (w : World) (a : act) : World :=
  match a with
  | Tick d => mkWorld (now w + Z.max 0 d) (redis w) (dirs w) (calls w) (history w)
  | Call c r => set_calls (calls w ++ [mkCall c r (handler r)]) w
  | Run t f =>
    match calls w !! t with
    | Some (mkCall c r (Do o k)) =>
      let '(w, reply) := do_fated w c f o in
      set_calls (<[t := mkCall c r (k reply)]> (calls w)) w
    | _ => w
    end
  | ReceiveEvent c =>
    upd_dir c (fun d => match d_events d with
                        | e :: es => mkDirectory (handleOwnerEvent e (d_cache d)) (d_subscribed d) es
                        | [] => d
                        end) w
  | LoseEvent c =>
    upd_dir c (fun d => mkDirectory (d_cache d) (d_subscribed d) (tail (d_events d))) w
  | Evict c key => upd_cache c (delete key) w
  | CloseDirectory c => upd_dir c (fun d => mkDirectory ∅ false []) w
  end.

Fixpoint run (w : World) (acts : list act) : World :=
  match acts with [] => w | a :: acts => run (step w a) acts end.

(** [n] nodes, each with a fresh directory, and an empty Redis. *)
Definition fresh (n : nat) : World :=
  mkWorld 0 ∅ (list_to_map ((fun i => (i, new_directory)) <$> seq 0 n)) [] ∅.
End System.

(** ** Keys *)

Fixpoint ends_with (suffix s : string) : bool :=
  bool_decide (s = suffix) || match s with EmptyString => false | String _ s => ends_with suffix s end.

(** An id whose owner key is no id's epoch key. *)
Definition plain (id : string) : bool := negb (ends_with ".epoch" id).

Lemma ends_with_app suffix s : ends_with suffix (s +:+ suffix) = true.
Proof.
  induction s as [|c s IH].
  - change ("" +:+ suffix) with suffix. destruct suffix; unfold ends_with; by rewrite bool_decide_eq_true_2.
  - change (String c s +:+ suffix) with (String c (s +:+ suffix)). cbn [ends_with].
    by rewrite IH, orb_true_r.
Qed.

Lemma string_length_app (a b : string) : String.length (a +:+ b) = (String.length a + String.length b)%nat.
Proof.
  induction a as [|c a IH]; [done|]. exact (f_equal S IH).
Qed.

Lemma app_string_inj_r a b s : a +:+ s = b +:+ s -> a = b.
Proof.
  revert b. induction a as [|c a IH]; intros [|d b]; [done| | |].
  - intros E. apply (f_equal String.length) in E. rewrite !string_length_app in E. simpl in E. lia.
  - intros E. apply (f_equal String.length) in E. rewrite !string_length_app in E. simpl in E. lia.
  - change (String c a +:+ s = String d b +:+ s) with (String c (a +:+ s) = String d (b +:+ s)).
    intros [= -> E]. f_equal. auto.
Qed.

Section Keys.
Variable prefix : string.

Lemma owner_key_inj a b : owner_key prefix a = owner_key prefix b -> a = b.
Proof.
  unfold owner_key, redisOwnerKey, genRedisKey. intros E. do 2 apply app_string_inj in E. done.
Qed.

Lemma epoch_key_inj a b : epoch_key prefix a = epoch_key prefix b -> a = b.
Proof.
  unfold epoch_key, redisEpochKey, genRedisKey. intros E. do 2 apply app_string_inj in E.
  by apply app_string_inj_r in E.
Qed.

Lemma owner_epoch_key a b : plain a = true -> owner_key prefix a <> epoch_key prefix b.
Proof.
  unfold owner_key, epoch_key, redisOwnerKey, redisEpochKey, genRedisKey. intros Hp E.
  do 2 apply app_string_inj in E. unfold plain in Hp. subst a. by rewrite ends_with_app in Hp.
Qed.
End Keys.

(** ** What an access can do to one actor id *)

Definition deed_epoch (d : deed) : Z := match d with Granted e _ | Released e _ => e end.
Definition deed_node (d : deed) : NodeInfo := match d with Granted _ n | Released _ n => n end.
Definition head_epoch (ds : list deed) : Z := match ds with [] => 0 | d :: _ => deed_epoch d end.
Definition newer (d d' : deed) : Prop := deed_epoch d' < deed_epoch d.

(** The state of an id in Redis agrees with its history. *)
Record agree (nw ttl : Z) (o ep : option entry) (ds : list deed) : Prop := {
  ag_sorted : StronglySorted newer ds;
  ag_range : Forall (fun d => 1 <= deed_epoch d < 2 ^ 63) ds;
  ag_epoch : ep = match ds with [] => None | d :: _ => Some (mkEntry (SNum (deed_epoch d)) None) end;
  ag_owner : forall e, o = Some e -> exists n k l, e_val e = SOwner n /\ ds = Granted k n :: l;
  ag_lease : forall e d, o = Some e -> e_deadline e = Some d -> d <= nw + ttl }.

(** The abstract life of an ownership: granted when free, lapsed or held by
    the same node; renewed by its holder; released; or dropped when the
    epochs are exhausted. *)
Inductive change (nw ttl : Z) (o : option entry) (ds : list deed) : option entry -> list deed -> Prop :=
| unchanged : change nw ttl o ds o ds
| granted n :
    (forall e c, o = Some e -> live nw e = true -> e_val e = SOwner c -> NodeId c = NodeId n) ->
    head_epoch ds < 2 ^ 63 - 1 ->
    change nw ttl o ds
      (Some (mkEntry (SOwner n) (if bool_decide (0 < ttl) then Some (nw + ttl) else None)))
      (Granted (head_epoch ds + 1) n :: ds)
| renewed c d :
    o = Some (mkEntry (SOwner c) d) -> 0 < ttl ->
    change nw ttl o ds (Some (mkEntry (SOwner c) (Some (nw + ttl)))) ds
| released n :
    o <> None -> head_epoch ds < 2 ^ 63 - 1 ->
    change nw ttl o ds None (Released (head_epoch ds + 1) n :: ds)
| dropped : 2 ^ 63 - 1 <= head_epoch ds -> change nw ttl o ds None ds.

Lemma head_epoch_max ds : StronglySorted newer ds -> Forall (fun d => deed_epoch d < head_epoch ds + 1) ds.
Proof.
  intros Hs. destruct ds as [|d ds]; constructor; simpl; [lia|].
  apply StronglySorted_inv in Hs as [_ Hs]. eapply Forall_impl; [exact Hs|]. unfold newer. simpl. lia.
Qed.

Lemma agree_push nw ttl o ep ds d o' :
  agree nw ttl o ep ds -> deed_epoch d = head_epoch ds + 1 -> head_epoch ds < 2 ^ 63 - 1 ->
  (forall e, o' = Some e -> exists n k, e_val e = SOwner n /\ d = Granted k n) ->
  (forall e t, o' = Some e -> e_deadline e = Some t -> t <= nw + ttl) ->
  agree nw ttl o' (Some (mkEntry (SNum (head_epoch ds + 1)) None)) (d :: ds).
Proof.
  intros H Hd Hlt Ho Hl. pose proof (ag_sorted _ _ _ _ _ H) as Hs. pose proof (ag_range _ _ _ _ _ H) as Hr.
  split; [| | |intros e He; destruct (Ho e He) as (n & k & ? & ->); eauto|done].
  - constructor; [done|]. eapply Forall_impl; [exact (head_epoch_max _ Hs)|]. unfold newer. lia.
  - constructor; [|done]. rewrite Hd. destruct ds as [|d' ds]; simpl in *; [lia|].
    apply Forall_cons in Hr as [Hr _]. lia.
  - by rewrite Hd.
Qed.

(** The epoch key after a change. *)
Definition epoch_entry (ds : list deed) : option entry :=
  match ds with [] => None | d :: _ => Some (mkEntry (SNum (deed_epoch d)) None) end.

Lemma agree_change nw ttl o ep ds o' ds' :
  agree nw ttl o ep ds -> change nw ttl o ds o' ds' -> agree nw ttl o' (epoch_entry ds') ds'.
Proof.
  intros H [|n Hn Hlt|c d -> Ht|n Hn Hlt|Hlt].
  - destruct H as [? ? -> ? ?]. done.
  - apply (agree_push _ _ _ _ _ _ _ H); [done|done|intros ? [= <-]; eauto|].
    intros e t [= <-]. simpl. case_bool_decide; intros [= <-]. lia.
  - destruct H as [? ? -> Ho ?]. split; try done.
    + intros e [= <-]. exact (Ho _ eq_refl).
    + intros e t [= <-] [= <-]. lia.
  - by apply (agree_push _ _ _ _ _ _ _ H).
  - destruct H as [? ? -> Ho ?]. by split.
Qed.

Lemma agree_later nw nw' ttl o ep ds : nw <= nw' -> agree nw ttl o ep ds -> agree nw' ttl o ep ds.
Proof.
  intros Hle [? ? ? ? Hl]. split; try done. intros e d He Hd. specialize (Hl e d He Hd). lia.
Qed.

(** ** The scripts *)

Section Scripts.
Variables (nw ttl : Z) (st : store) (k1 k2 : string) (ds : list deed).
Hypothesis (Hk : k1 <> k2) (Hag : agree nw ttl (st !! k1) (st !! k2) ds).

Lemma get_epoch : or_zero (redis_get nw st k2) = VStr (Some (SNum (head_epoch ds))).
Proof. unfold redis_get. rewrite (ag_epoch _ _ _ _ _ Hag). by destruct ds. Qed.

Lemma get_owner v : redis_get nw st k1 = Some v ->
  exists e n k l, st !! k1 = Some e /\ live nw e = true /\ e_val e = v /\ v = SOwner n /\ ds = Granted k n :: l.
Proof.
  unfold redis_get. destruct (st !! k1) as [e|] eqn:E; [|done]. destruct (live nw e) eqn:El; [|done].
  intros [= <-]. destruct (ag_owner _ _ _ _ _ Hag e eq_refl) as (n & k & l & ? & ?). eauto 10.
Qed.

Lemma get_owner_None e c : redis_get nw st k1 = None -> st !! k1 = Some e -> live nw e = true ->
  e_val e = SOwner c -> False.
Proof. unfold redis_get. intros H E Hl _. by rewrite E, Hl in H. Qed.

Lemma incr_epoch s : s !! k2 = st !! k2 ->
  redis_incr nw s k2 =
  if bool_decide (head_epoch ds < 2 ^ 63 - 1)
  then Ok (<[k2 := mkEntry (SNum (head_epoch ds + 1)) None]> s, head_epoch ds + 1)
  else Err redis_script_error.
Proof.
  intros Hs. unfold redis_incr, redis_get. rewrite Hs, (ag_epoch _ _ _ _ _ Hag).
  destruct ds as [|d l]; [done|]. simpl. done.
Qed.

Lemma head_epoch_u64 : redisResultUint64 (VStr (Some (SNum (head_epoch ds)))) = Ok (head_epoch ds).
Proof.
  simpl. rewrite bool_decide_eq_true_2; [done|]. pose proof (ag_range _ _ _ _ _ Hag) as H.
  destruct ds as [|d l]; simpl; [lia|]. apply Forall_cons in H as [H _]. lia.
Qed.

Lemma head_epoch_nonneg : 0 <= head_epoch ds.
Proof.
  pose proof (ag_range _ _ _ _ _ Hag) as H. destruct ds as [|d l]; simpl; [lia|].
  apply Forall_cons in H as [H _]. lia.
Qed.

Definition other_keys_kept (st' : store) : Prop := forall k, k <> k1 -> k <> k2 -> st' !! k = st !! k.

Lemma check_node_Ok n m : check_node n = Ok m -> m = n.
Proof. unfold check_node. destruct (NodeInfo_Validate n); congruence. Qed.

Definition acquire_deeds (n : NodeInfo) (r : res lerr (list rvalue)) : list deed :=
  match r with Ok [VInt 1; VInt e; _] => Granted e n :: ds | _ => ds end.

Lemma acquire_change n st' r : acquireOwnerScript nw st k1 k2 n ttl = (st', r) ->
  other_keys_kept st' /\ st' !! k2 = epoch_entry (acquire_deeds n r) /\
  change nw ttl (st !! k1) ds (st' !! k1) (acquire_deeds n r) /\
  (forall owner b, (r ≫= acquired_result) = Ok (owner, b) ->
     Granted (o_Epoch owner) (o_Node owner) ∈ acquire_deeds n r /\ (b = true -> o_Node owner = n)).
Proof.
  unfold acquireOwnerScript. rewrite get_epoch.
  assert (Hsame : st !! k2 = epoch_entry ds) by apply (ag_epoch _ _ _ _ _ Hag).
  assert (Htake : forall st' r,
    (forall e c, st !! k1 = Some e -> live nw e = true -> e_val e = SOwner c -> NodeId c = NodeId n) ->
    match redis_incr nw st k2 with
    | Err err => (st, Err err)
    | Ok (st, epoch) =>
      (redis_set nw st k1 (SOwner n) ttl, Ok [VInt 1; VInt epoch; VStr (Some (SOwner n))])
    end = (st', r) ->
    other_keys_kept st' /\ st' !! k2 = epoch_entry (acquire_deeds n r) /\
    change nw ttl (st !! k1) ds (st' !! k1) (acquire_deeds n r) /\
    (forall owner b, (r ≫= acquired_result) = Ok (owner, b) ->
     Granted (o_Epoch owner) (o_Node owner) ∈ acquire_deeds n r /\ (b = true -> o_Node owner = n))).
  { clear st' r. intros st' r Hc. rewrite incr_epoch by done. unfold redis_set. case_bool_decide; intros [= <- <-].
    - split; [|split; [|split]].
      + intros k ? ?. by rewrite !lookup_insert_ne by done.
      + by rewrite lookup_insert_ne, lookup_insert_eq by done.
      + rewrite lookup_insert_eq. by apply granted.
      + intros owner b. pose proof head_epoch_nonneg. simpl.
        rewrite bool_decide_eq_false_2 by lia. simpl. destruct (check_node n) eqn:En; simpl; [|done].
        apply check_node_Ok in En as ->. intros [= <- <-]. simpl. split; [apply list_elem_of_here|done].
    - split; [done|]. split; [done|]. split; [apply unchanged|]. done. }
  destruct (redis_get nw st k1) as [v|] eqn:E.
  - destruct (get_owner v E) as (e & c & k & l & E1 & El & Ev & -> & Hds). case_bool_decide as Hid; simpl.
    + apply Htake. intros e' c' E' _ Ev'. rewrite E1 in E'. injection E' as <-. congruence.
    + intros [= <- <-]. split; [done|]. split; [done|]. split; [apply unchanged|].
      intros owner b. pose proof head_epoch_u64 as Hu. cbn [mbind res_bind acquired_result redisResultBool].
      rewrite Hu. simpl. destruct (check_node c) eqn:En; simpl; [|done].
      apply check_node_Ok in En as ->. intros [= <- <-]. rewrite Hds. split; [apply list_elem_of_here|done].
  - apply Htake. intros e c E' El Ev. exfalso. eauto using get_owner_None.
Qed.

Lemma get_result owner :
  got_result (getOwnerScript nw st k1 k2) = Ok (Some owner) ->
  Granted (o_Epoch owner) (o_Node owner) ∈ ds.
Proof.
  unfold getOwnerScript. rewrite get_epoch. unfold got_result. rewrite head_epoch_u64.
  destruct (redis_get nw st k1) as [v|] eqn:E; [|done].
  destruct (get_owner v E) as (e & c & k & l & E1 & El & Ev & -> & Hds). simpl.
  destruct (check_node c) eqn:En; simpl; [|done].
  apply check_node_Ok in En as ->. intros [= <-]. rewrite Hds. apply list_elem_of_here.
Qed.

Lemma renew_change n st' r : renewOwnerScript nw st k1 n ttl = (st', r) ->
  other_keys_kept st' /\ st' !! k2 = epoch_entry ds /\ change nw ttl (st !! k1) ds (st' !! k1) ds.
Proof.
  unfold renewOwnerScript.
  assert (Hsame : st !! k2 = epoch_entry ds) by apply (ag_epoch _ _ _ _ _ Hag).
  destruct (redis_get nw st k1) as [v|] eqn:E; [|by intros [= <- <-]; split; [|split; [|apply unchanged]]].
  destruct (get_owner v E) as (e & c & k & l & E1 & El & Ev & -> & Hds).
  destruct (_ || _); [by intros [= <- <-]; split; [|split; [|apply unchanged]]|].
  case_bool_decide; intros [= <- <-]; [by split; [|split; [|apply unchanged]]|].
  split; [|split].
  - intros k' ? ?. by rewrite lookup_insert_ne.
  - by rewrite lookup_insert_ne.
  - rewrite lookup_insert_eq, E1. destruct e as [v d]. simpl in Ev. subst v. eapply renewed; [done|lia].
Qed.

Definition delete_deeds (n : NodeInfo) (r : res lerr (list rvalue)) : list deed :=
  match r with Ok [VInt 1; VInt e] => Released e n :: ds | _ => ds end.

Lemma delete_change n st' r : deleteOwnerScript nw st k1 k2 n = (st', r) ->
  other_keys_kept st' /\ st' !! k2 = epoch_entry (delete_deeds n r) /\
  change nw ttl (st !! k1) ds (st' !! k1) (delete_deeds n r) /\
  (forall e, (r ≫= deleted_result) = Ok (true, e) -> Released e n ∈ delete_deeds n r).
Proof.
  unfold deleteOwnerScript. rewrite get_epoch.
  assert (Hsame : st !! k2 = epoch_entry ds) by apply (ag_epoch _ _ _ _ _ Hag).
  assert (Hno : forall e, (Ok [VInt 0; VStr (Some (SNum (head_epoch ds)))] ≫= deleted_result) = Ok (true, e) ->
    Released e n ∈ ds).
  { intros e. cbn [mbind res_bind deleted_result]. rewrite head_epoch_u64. done. }
  destruct (redis_get nw st k1) as [v|] eqn:E;
    [|by intros [= <- <-]; split; [|split; [|split; [apply unchanged|]]]].
  destruct (get_owner v E) as (e & c & k & l & E1 & El & Ev & -> & Hds).
  destruct (_ && _); [|by intros [= <- <-]; split; [|split; [|split; [apply unchanged|]]]].
  rewrite incr_epoch by by rewrite lookup_delete_ne.
  pose proof head_epoch_nonneg. case_bool_decide; intros [= <- <-]; (split; [|split; [|split]]); simpl.
  - intros k' ? ?. by rewrite lookup_insert_ne, lookup_delete_ne by done.
  - by rewrite lookup_insert_eq.
  - rewrite lookup_insert_ne, lookup_delete_eq, E1 by done. by apply released.
  - intros e'. simpl. rewrite bool_decide_eq_false_2 by lia. simpl. intros [= <-]. apply list_elem_of_here.
  - intros k' ? ?. by rewrite lookup_delete_ne by done.
  - by rewrite lookup_delete_ne.
  - rewrite lookup_delete_eq. apply dropped. lia.
  - done.
Qed.
End Scripts.

(** ** Programs that only use what Redis granted *)

Definition past := string -> list deed.
Definition extends (h h' : past) : Prop := forall id d, d ∈ h id -> d ∈ h' id.
Definition held (h : past) (id : string) (o : Owner) : Prop := Granted (o_Epoch o) (o_Node o) ∈ h id.

Definition op_pre (h : past) {R : Set} (o : op R) : Prop :=
  match o with
  | RunGet id | RunAcquire id _ | RunRenew id _ | RunDelete id _ => plain id = true
  | CacheSet key owner => held h key owner
  | _ => True
  end.

Definition op_post (h : past) {R : Set} (o : op R) : R -> Prop :=
  match o in op R return R -> Prop with
  | RunGet id => fun r => forall owner, (r ≫= got_result) = Ok (Some owner) -> held h id owner
  | RunAcquire id n => fun r => forall owner b, (r ≫= acquired_result) = Ok (owner, b) ->
      held h id owner /\ (b = true -> o_Node owner = n)
  | RunDelete id n => fun r => forall e, (r ≫= deleted_result) = Ok (true, e) -> Released e n ∈ h id
  | CacheGet key => fun r => forall owner, r = Some owner -> held h key owner
  | _ => fun _ => True
  end.

Fixpoint good {A} (Q : past -> A -> Prop) (h : past) (p : prog op A) : Prop :=
  match p with
  | Ret a => Q h a
  | Do o k => op_pre h o /\ forall h' r, extends h h' -> op_post h' o r -> good Q h' (k r)
  end.

(** What a result says about the past. *)
Definition answer_ok (q : request) (h : past) (r : res lerr answer) : Prop :=
  match q, r with
  | RGet a, Ok (AOwner n true) => exists e, Granted e n ∈ h (ActorID_String a)
  | RAcquire a c, Ok (AOwner n b) =>
    exists e, Granted e n ∈ h (ActorID_String a) /\ (b = true -> n = c)
  | RDelete a n, Ok (ABool true) => exists e, Released e n ∈ h (ActorID_String a)
  | _, _ => True
  end.

Lemma extends_refl h : extends h h.
Proof. by intros id d. Qed.
Lemma extends_trans h1 h2 h3 : extends h1 h2 -> extends h2 h3 -> extends h1 h3.
Proof. unfold extends. auto. Qed.

Lemma op_pre_extends h h' {R : Set} (o : op R) : extends h h' -> op_pre h o -> op_pre h' o.
Proof. intros He. destruct o; simpl; try done. apply He. Qed.

Lemma good_extends q h h' p : extends h h' -> good (answer_ok q) h p -> good (answer_ok q) h' p.
Proof.
  intros He. destruct p as [a|R o k]; simpl.
  - destruct q, a as [[m b|b]|]; simpl; try done; try destruct b; try done.
    1,4: intros [e H]; exists e; by apply He.
    1,2: intros (e & H & ?); exists e; split; [by apply He|done].
  - intros [Hp Hk]. split; [by apply (op_pre_extends h)|]. intros h2 r He2. apply Hk.
    by apply (extends_trans _ h').
Qed.

Lemma handler_good q h : plain (ActorID_String (request_actor q)) = true -> good (answer_ok q) h (handler q).
Proof.
  intros Hp. destruct q as [a|a n|a n|a n]; simpl in *.
  - unfold GetOwner. destruct (Validate a); [done|]. simpl. split; [done|]. intros h1 [o|] He Ho.
    + specialize (Ho o eq_refl). simpl. eauto.
    + simpl. split; [done|]. intros h2 r He2 Hr.
      destruct (r ≫= got_result) as [[o|]|]; [|done|done]. specialize (Hr o eq_refl). simpl.
      split; [done|]. intros h3 _ He3 _. exists (o_Epoch o). by apply He3.
  - unfold AcquireOwner. destruct (Validate a); [done|]. destruct (NodeInfo_Validate n); [done|].
    simpl. split; [done|]. intros h1 r He Hr.
    destruct (r ≫= acquired_result) as [[o b]|]; [|done]. destruct (Hr o b eq_refl) as [Ho Hb].
    simpl. split; [done|]. intros h3 _ He3 _. destruct b; simpl.
    + split; [done|]. intros h4 _ He4 _. exists (o_Epoch o). split; [by apply He4, He3|done].
    + exists (o_Epoch o). split; [by apply He3|done].
  - unfold RenewOwner. destruct (Validate a); [done|]. destruct (NodeInfo_Validate n); [done|].
    simpl. split; [done|]. intros h1 [m|] He Hr; [|done]. by case_bool_decide.
  - unfold DeleteOwner. destruct (Validate a); [done|]. destruct (NodeInfo_Validate n); [done|].
    simpl. split; [done|]. intros h1 r He Hr.
    destruct (r ≫= deleted_result) as [[[|] e]|]; [|done|done].
    simpl. split; [done|]. intros h3 _ He3 _. split; [done|]. intros h4 _ He4 _. exists e.
    by apply He4, He3, Hr.
Qed.

(** ** The invariant of the system *)

Section Invariant.
Variables (prefix : string) (ttl : Z).

Definition id_agrees (w : World) (id : string) : Prop :=
  agree (now w) ttl (redis w !! owner_key prefix id) (redis w !! epoch_key prefix id) (deeds w id).

Record inv (w : World) : Prop := {
  inv_ids : forall id, plain id = true -> id_agrees w id;
  inv_caches : forall c d key o, dirs w !! c = Some d -> d_cache d !! key = Some o -> held (deeds w) key o;
  inv_calls : Forall (fun cl => good (answer_ok (c_request cl)) (deeds w) (c_prog cl)) (calls w) }.

(** What one step does to every id. *)
Definition moves (w w' : World) : Prop :=
  now w <= now w' /\
  forall id, plain id = true ->
    change (now w) ttl (redis w !! owner_key prefix id) (deeds w id)
      (redis w' !! owner_key prefix id) (deeds w' id) /\
    redis w' !! epoch_key prefix id = epoch_entry (deeds w' id).

Lemma change_extends nw o ds o' ds' : change nw ttl o ds o' ds' -> forall d, d ∈ ds -> d ∈ ds'.
Proof. intros Hc d Hd. destruct Hc; try done; by apply list_elem_of_further. Qed.

Lemma moves_agree w w' id : moves w w' -> plain id = true -> id_agrees w id -> id_agrees w' id.
Proof.
  intros [Hn Hm] Hp Hi. destruct (Hm id Hp) as [Hc He]. unfold id_agrees. rewrite He.
  eapply agree_later; [exact Hn|]. by eapply agree_change.
Qed.

Lemma moves_refl w : inv w -> moves w w.
Proof.
  intros Hi. split; [lia|]. intros id Hp. split; [apply unchanged|].
  apply (ag_epoch _ _ _ _ _ (inv_ids _ Hi id Hp)).
Qed.

(** A change of one id leaves the others alone. *)
Lemma moves_one w st id ds' o' :
  inv w -> plain id = true ->
  other_keys_kept (redis w) (owner_key prefix id) (epoch_key prefix id) st ->
  st !! epoch_key prefix id = epoch_entry ds' ->
  st !! owner_key prefix id = o' ->
  change (now w) ttl (redis w !! owner_key prefix id) (deeds w id) o' ds' ->
  moves w (mkWorld (now w) st (dirs w) (calls w) (<[id := ds']> (history w))).
Proof.
  intros Hi Hp Hk He Ho Hc. split; [simpl; lia|]. intros id' Hp'. unfold deeds at 2 3. simpl.
  destruct (decide (id' = id)) as [->|Hne].
  - rewrite lookup_insert_eq, Ho. done.
  - rewrite lookup_insert_ne by done. fold (deeds w id').
    rewrite Hk; [|intros E; by apply owner_key_inj in E|by apply owner_epoch_key].
    rewrite Hk; [|intros E; symmetry in E; by apply owner_epoch_key in E
                 |intros E; by apply epoch_key_inj in E].
    split; [apply unchanged|]. apply (ag_epoch _ _ _ _ _ (inv_ids _ Hi id' Hp')).
Qed.

Lemma deeds_insert w st ds id : 
  deeds (mkWorld (now w) st (dirs w) (calls w) (<[id := ds]> (history w))) id = ds.
Proof. unfold deeds. simpl. by rewrite lookup_insert_eq. Qed.

Lemma deeds_same w nw st ds cs : deeds (mkWorld nw st ds cs (history w)) = deeds w.
Proof. done. Qed.

Lemma owner_epoch_ne id : plain id = true -> owner_key prefix id <> epoch_key prefix id.
Proof. apply owner_epoch_key. Qed.

(** Writing the history back unchanged. *)
Lemma moves_same_deeds w st id o' :
  inv w -> plain id = true ->
  other_keys_kept (redis w) (owner_key prefix id) (epoch_key prefix id) st ->
  st !! epoch_key prefix id = epoch_entry (deeds w id) ->
  st !! owner_key prefix id = o' ->
  change (now w) ttl (redis w !! owner_key prefix id) (deeds w id) o' (deeds w id) ->
  moves w (set_redis st w).
Proof.
  intros Hi Hp Hk He Ho Hc. destruct (moves_one _ _ _ _ _ Hi Hp Hk He Ho Hc) as [Hn Hm].
  split; [done|]. intros id' Hp'. specialize (Hm id' Hp').
  assert (E : forall cs, deeds (mkWorld (now w) st (dirs w) cs (<[id := deeds w id]> (history w))) id' = deeds w id').
  { intros cs. unfold deeds at 1. simpl. destruct (decide (id' = id)) as [->|Hne].
    - by rewrite lookup_insert_eq.
    - by rewrite lookup_insert_ne. }
  rewrite E in Hm. exact Hm.
Qed.

Definition caches_ok (w : World) : Prop :=
  forall c d key o, dirs w !! c = Some d -> d_cache d !! key = Some o -> held (deeds w) key o.

(** What an access to what the calls share does. *)
Record accessed (w w' : World) : Prop := {
  acc_moves : moves w w';
  acc_calls : calls w' = calls w;
  acc_extends : extends (deeds w) (deeds w');
  acc_caches : caches_ok w' }.

Lemma extends_caches w w' :
  extends (deeds w) (deeds w') -> dirs w' = dirs w -> caches_ok w -> caches_ok w'.
Proof. intros He Hd Hc c d key o Hl Hk. rewrite Hd in Hl. eapply He, Hc; eauto. Qed.

Lemma accessed_same w st id :
  inv w -> plain id = true ->
  other_keys_kept (redis w) (owner_key prefix id) (epoch_key prefix id) st ->
  st !! epoch_key prefix id = epoch_entry (deeds w id) ->
  change (now w) ttl (redis w !! owner_key prefix id) (deeds w id) (st !! owner_key prefix id) (deeds w id) ->
  accessed w (set_redis st w).
Proof.
  intros Hi Hp Hk He Hc. split; [by eapply moves_same_deeds|done|by intros ? ?|].
  apply (extends_caches w); [|done|exact (inv_caches _ Hi)]. by intros ? ?.
Qed.

Lemma accessed_push w st id d :
  inv w -> plain id = true ->
  other_keys_kept (redis w) (owner_key prefix id) (epoch_key prefix id) st ->
  st !! epoch_key prefix id = epoch_entry (d :: deeds w id) ->
  change (now w) ttl (redis w !! owner_key prefix id) (deeds w id) (st !! owner_key prefix id) (d :: deeds w id) ->
  accessed w (record_deed id d (set_redis st w)).
Proof.
  intros Hi Hp Hk He Hc.
  assert (Hx : extends (deeds w) (deeds (record_deed id d (set_redis st w)))).
  { intros id' d' Hd. unfold record_deed. unfold deeds at 1. simpl.
    destruct (decide (id' = id)) as [->|Hne].
    - rewrite lookup_insert_eq. by apply list_elem_of_further.
    - by rewrite lookup_insert_ne. }
  split; [exact (moves_one _ st _ _ _ Hi Hp Hk He eq_refl Hc)|done|exact Hx|].
  apply (extends_caches w); [exact Hx|done|exact (inv_caches _ Hi)].
Qed.

Lemma accessed_dirs w ds :
  inv w -> (forall c d key o, ds !! c = Some d -> d_cache d !! key = Some o -> held (deeds w) key o) ->
  accessed w (mkWorld (now w) (redis w) ds (calls w) (history w)).
Proof. intros Hi Hc. split; [|done|by intros ? ?|done]. destruct (moves_refl _ Hi) as [H1 H2]. by split. Qed.

Lemma accessed_upd_cache w c f :
  inv w ->
  (forall d key o, dirs w !! c = Some d -> f (d_cache d) !! key = Some o -> held (deeds w) key o) ->
  accessed w (upd_cache c f w).
Proof.
  intros Hi Hf. apply accessed_dirs; [done|]. intros c' d key o Hl Hk.
  apply lookup_alter_Some in Hl as [(-> & d0 & Hd & ->)|[Hne Hl]].
  - by eapply Hf.
  - eapply (inv_caches _ Hi); eauto.
Qed.

Lemma tryDelCached_sub key e ca k o : tryDelCached key e ca !! k = Some o -> ca !! k = Some o.
Proof. unfold tryDelCached. repeat case_match; try done; by intros [_ ?]%lookup_delete_Some. Qed.

Lemma refreshCached_same key n ca : refreshCached key n ca = ca.
Proof. unfold refreshCached. repeat case_match; try done. by apply insert_id. Qed.

Lemma trySetCached_cases key ow ca k o :
  trySetCached key ow ca !! k = Some o -> (k = key /\ o = ow) \/ ca !! k = Some o.
Proof.
  unfold trySetCached. repeat case_match; auto;
    (intros [[<- <-]|[_ ?]]%lookup_insert_Some; auto).
Qed.

Lemma acquire_match ds n r :
  (exists e v, r = Ok [VInt 1; VInt e; v]) \/
  (acquire_deeds ds n r = ds /\
   forall X (f : Z -> X) x, match r with Ok [VInt 1; VInt e; _] => f e | _ => x end = x).
Proof. unfold acquire_deeds. repeat case_match; subst; eauto. Qed.

Lemma delete_match ds n r :
  (exists e, r = Ok [VInt 1; VInt e]) \/
  (delete_deeds ds n r = ds /\
   forall X (f : Z -> X) x, match r with Ok [VInt 1; VInt e] => f e | _ => x end = x).
Proof. unfold delete_deeds. repeat case_match; subst; eauto. Qed.

Lemma do_op_accessed w c {R : Set} (o : op R) :
  inv w -> op_pre (deeds w) o ->
  accessed w (do_op prefix ttl w c o).1 /\ op_post (deeds (do_op prefix ttl w c o).1) o (do_op prefix ttl w c o).2.
Proof.
  intros Hi Hp. assert (Hno : accessed w w) by (split; [by apply moves_refl|done|by intros ? ?|exact (inv_caches _ Hi)]).
  destruct o as [id|id n|id n|id n|key|key ow|key e|key n|ev]; simpl in *.
  - split; [done|]. intros ow. simpl.
    exact (get_result _ _ _ _ _ _ (inv_ids _ Hi id Hp) ow).
  - destruct (acquireOwnerScript _ _ _ _ _ _) as [st r] eqn:E.
    destruct (acquire_change _ _ _ _ _ _ (owner_epoch_ne id Hp) (inv_ids _ Hi id Hp) _ _ _ E) as (Hk & He & Hc & Hr).
    destruct (acquire_match (deeds w id) n r) as [(e & v & ->)|[Hd Hm]]; simpl in *.
    + split; [by apply accessed_push|]. intros ow b Hb. apply Hr in Hb as [Hb ?].
      split; [|done]. unfold held, deeds, record_deed. simpl. by rewrite lookup_insert_eq.
    + rewrite Hm. rewrite Hd in *. split; [by eapply accessed_same|]. done.
  - destruct (renewOwnerScript _ _ _ _ _) as [st r] eqn:E.
    destruct (renew_change _ _ _ _ _ _ (owner_epoch_ne id Hp) (inv_ids _ Hi id Hp) _ _ _ E) as (Hk & He & Hc).
    split; [|done]. by eapply accessed_same.
  - destruct (deleteOwnerScript _ _ _ _ _) as [st r] eqn:E.
    destruct (delete_change _ _ _ _ _ _ (owner_epoch_ne id Hp) (inv_ids _ Hi id Hp) _ _ _ E) as (Hk & He & Hc & Hr).
    destruct (delete_match (deeds w id) n r) as [(e & ->)|[Hd Hm]]; simpl in *.
    + split; [by apply accessed_push|]. intros e' Hb. apply Hr in Hb.
      unfold deeds, record_deed. simpl. by rewrite lookup_insert_eq.
    + rewrite Hm. rewrite Hd in *. split; [by eapply accessed_same|]. done.
  - split; [done|]. intros ow Hl. apply bind_Some in Hl as (d & Hd & Hl). by eapply (inv_caches _ Hi).
  - split; [|done]. apply accessed_upd_cache; [done|]. intros d k o' Hd Hl.
    apply trySetCached_cases in Hl as [[-> ->]|Hl]; [done|by eapply (inv_caches _ Hi)].
  - split; [|done]. apply accessed_upd_cache; [done|]. intros d k o' Hd Hl.
    apply tryDelCached_sub in Hl. by eapply (inv_caches _ Hi).
  - split; [|done]. apply accessed_upd_cache; [done|]. intros d k o' Hd Hl.
    rewrite refreshCached_same in Hl. by eapply (inv_caches _ Hi).
  - split; [|done]. apply accessed_dirs; [done|]. intros c' d k o' Hd Hl.
    apply lookup_fmap_Some in Hd as (d0 & <- & Hd). destruct (d_subscribed d0); by eapply (inv_caches _ Hi).
Qed.

Lemma unavailable_post h {R : Set} (o : op R) r : unavailable o = Some r -> op_post h o r.
Proof. destruct o; simpl; try done; intros [= <-]; done. Qed.

Lemma do_fated_accessed w c f {R : Set} (o : op R) :
  inv w -> op_pre (deeds w) o ->
  accessed w (do_fated prefix ttl w c f o).1 /\
  op_post (deeds (do_fated prefix ttl w c f o).1) o (do_fated prefix ttl w c f o).2.
Proof.
  intros Hi Hp. destruct (do_op_accessed w c o Hi Hp) as [Ha Hpost].
  unfold do_fated. destruct f; [done| |]; destruct (unavailable o) as [r|] eqn:Hu; try done; simpl.
  - split; [|by apply unavailable_post].
    split; [by apply moves_refl|done|by intros ? ?|exact (inv_caches _ Hi)].
  - split; [done|by apply unavailable_post].
Qed.

Lemma accessed_inv w w' : inv w -> accessed w w' -> inv w'.
Proof.
  intros Hi [Hm Hcs He Hc]. split; [|exact Hc|].
  - intros id Hid. eapply moves_agree; [exact Hm|done|by apply Hi].
  - rewrite Hcs. eapply Forall_impl; [exact (inv_calls _ Hi)|]. intros cl. by apply good_extends.
Qed.

Definition plain_act (a : act) : bool :=
  match a with Call _ r => plain (ActorID_String (request_actor r)) | _ => true end.

(** Steps that touch neither Redis nor calls. *)
Lemma inv_dirs w ds : inv w ->
  (forall c d key o, ds !! c = Some d -> d_cache d !! key = Some o -> held (deeds w) key o) ->
  inv (mkWorld (now w) (redis w) ds (calls w) (history w)).
Proof. intros Hi Hd. split; [exact (inv_ids _ Hi)|exact Hd|exact (inv_calls _ Hi)]. Qed.

Lemma inv_upd_dir w c f : inv w ->
  (forall d key o, dirs w !! c = Some d -> d_cache (f d) !! key = Some o -> d_cache d !! key = Some o) ->
  inv (upd_dir c f w).
Proof.
  intros Hi Hf. apply inv_dirs; [done|]. intros c' d key o Hd Hk.
  apply lookup_alter_Some in Hd as [(-> & d0 & Hd & ->)|[_ Hd]]; eapply (inv_caches _ Hi); eauto.
Qed.

Lemma dir_step_inv w a : inv w -> plain_act a = true ->
  inv (step prefix ttl w a) /\ moves w (step prefix ttl w a) /\
  extends (deeds w) (deeds (step prefix ttl w a)).
Proof.
  intros Hi Hp. destruct (moves_refl w Hi) as [Hmn Hmi].
  assert (Hdirs : forall c f, 
    (forall d key o, dirs w !! c = Some d -> d_cache (f d) !! key = Some o -> d_cache d !! key = Some o) ->
    inv (upd_dir c f w) /\ moves w (upd_dir c f w) /\ extends (deeds w) (deeds (upd_dir c f w))).
  { intros c f Hf. split; [by apply inv_upd_dir|]. split; [by split|by intros ? ?]. }
  assert (Hsame : inv w /\ moves w w /\ extends (deeds w) (deeds w))
    by (split; [done|]; split; [by split|by intros ? ?]).
  destruct a as [d|c q|t f|c|c|c key|c]; simpl in *.
  - assert (Hm : moves w (mkWorld (now w + Z.max 0 d) (redis w) (dirs w) (calls w) (history w)))
      by (split; [simpl; lia|exact Hmi]).
    split; [|split; [exact Hm|by intros ? ?]]. split; [|exact (inv_caches _ Hi)|exact (inv_calls _ Hi)].
    intros id Hid. eapply moves_agree; [exact Hm|done|by apply Hi].
  - split; [|split; [by split|by intros ? ?]]. split; [exact (inv_ids _ Hi)|exact (inv_caches _ Hi)|].
    apply Forall_app. split; [exact (inv_calls _ Hi)|]. constructor; [|done]. by apply handler_good.
  - destruct (calls w !! t) as [[c q [r|R o k]]|] eqn:Ht; [exact Hsame| |exact Hsame].
    pose proof (Forall_lookup_1 _ _ _ _ (inv_calls _ Hi) Ht) as [Hpre Hk]. simpl in *.
    destruct (do_fated_accessed w c f o Hi Hpre) as [Ha Hpost].
    destruct (do_fated prefix ttl w c f o) as [w' r]. simpl in *.
    pose proof (accessed_inv w w' Hi Ha) as Hi'. destruct Ha as [Hm _ He _].
    split; [|split; [exact Hm|exact He]]. split; [exact (inv_ids _ Hi')|exact (inv_caches _ Hi')|].
    apply Forall_insert; [exact (inv_calls _ Hi')|by apply Hk].
  - apply Hdirs. intros d key o _. destruct (d_events d); [done|]. apply tryDelCached_sub.
  - by apply Hdirs.
  - apply Hdirs. intros d k o _. simpl. by intros [_ ?]%lookup_delete_Some.
  - by apply Hdirs.
Qed.

Lemma run_inv acts w : inv w -> forallb plain_act acts = true -> inv (run prefix ttl w acts).
Proof.
  revert w. induction acts as [|a acts IH]; intros w Hi Hp; [done|]. simpl in *.
  apply andb_true_iff in Hp as [H1 H2]. apply IH; [|done]. by apply dir_step_inv.
Qed.

Lemma fresh_inv n : inv (fresh n).
Proof.
  split; [|intros c d key o Hd Hk|by constructor].
  - intros id _. split; try done; by constructor.
  - apply elem_of_list_to_map_2, list_elem_of_fmap in Hd as (i & [= _ ->] & _). done.
Qed.

Lemma newer_unique ds d d' : StronglySorted newer ds -> d ∈ ds -> d' ∈ ds -> deed_epoch d = deed_epoch d' -> d = d'.
Proof.
  induction 1 as [|x l Hl IH Hx]; [by intros ?%not_elem_of_nil|].
  rewrite !elem_of_cons. rewrite Forall_forall in Hx. unfold newer in Hx.
  intros [->|H1] [->|H2] E; [done| | |by apply IH].
  - specialize (Hx _ H2). lia.
  - specialize (Hx _ H1). lia.
Qed.

(** C11: With any number of directories whose calls, lost commands, cache evictions
    and events interleave, each epoch of an actor id has one owner, epochs only
    grow, and Redis, every cache and every answer only ever name nodes that were
    granted the id. *)
Theorem ownership_is_fenced n acts id :
  forallb plain_act acts = true -> plain id = true ->
  let w := run prefix ttl (fresh n) acts in
  StronglySorted newer (deeds w id) /\
  (forall e n1 n2, Granted e n1 ∈ deeds w id -> Granted e n2 ∈ deeds w id -> n1 = n2) /\
  (forall v, redis_get (now w) (redis w) (owner_key prefix id) = Some v ->
     exists owner e l, v = SOwner owner /\ deeds w id = Granted e owner :: l) /\
  (forall c d owner, dirs w !! c = Some d -> getCached id (d_cache d) = Some owner ->
     Granted (o_Epoch owner) (o_Node owner) ∈ deeds w id) /\
  (forall cl r, cl ∈ calls w -> c_prog cl = Ret r -> answer_ok (c_request cl) (deeds w) r).
Proof.
  intros Hp Hid w. pose proof (run_inv acts _ (fresh_inv n) Hp) as Hi. fold w in Hi.
  pose proof (inv_ids _ Hi id Hid) as Ha. pose proof (ag_sorted _ _ _ _ _ Ha) as Hs.
  split; [done|]. split; [|split; [|split]].
  - intros e n1 n2 H1 H2. by assert (Granted e n1 = Granted e n2) as [= ->] by by eapply newer_unique.
  - intros v Hv. destruct (get_owner _ _ _ _ _ _ Ha v Hv) as (en & owner & e & l & _ & _ & _ & -> & E). eauto.
  - intros c d owner Hd Ho. by eapply (inv_caches _ Hi).
  - intros cl r Hcl Hr. pose proof (inv_calls _ Hi) as Hc. rewrite Forall_forall in Hc.
    specialize (Hc cl Hcl). by rewrite Hr in Hc.
Qed.

(** *** Leases *)

Definition is_grant (d : deed) : Prop := match d with Granted _ _ => True | Released _ _ => False end.

(** The node [o] still holds the lease until [d], or no epoch is left. *)
Definition holds (w : World) (id : string) (o : NodeInfo) (d : Z) : Prop :=
  d <= now w + ttl /\
  ((exists o' dl, redis w !! owner_key prefix id = Some (mkEntry (SOwner o') dl) /\
      NodeId o' = NodeId o /\ match dl with Some d' => d <= d' | None => True end) \/
   2 ^ 63 - 1 <= head_epoch (deeds w id)).

Lemma moves_holds w w' id o d :
  moves w w' -> inv w -> plain id = true -> holds w id o d -> now w' < d ->
  (exists l, deeds w' id = l ++ deeds w id /\
     (Forall is_grant l -> holds w' id o d /\ Forall (fun x => NodeId (deed_node x) = NodeId o) l)).
Proof.
  intros [Hn Hm] Hi Hp [Hd H] Hlt. destruct (Hm id Hp) as [Hc He].
  unfold holds. clear He Hm. revert Hc. generalize (deeds w' id) as ds'.
  generalize (redis w' !! owner_key prefix id) as o2. intros o2 ds' Hc.
  destruct Hc as [|n Hfree Hmax|c dl Hold Ht|n Hold Hmax|Hmax].
  - exists []. split; [done|]. intros _. split; [|done]. split; [lia|done].
  - exists [Granted (head_epoch (deeds w id) + 1) n]. split; [done|]. intros _.
    destruct H as [(o' & dl & Ho & Hid & Hdl)|]; [|lia].
    assert (Hnode : NodeId o' = NodeId n).
    { eapply Hfree; [exact Ho| |done]. unfold live. simpl. destruct dl; [|done].
      apply bool_decide_eq_true_2. lia. }
    split; [|constructor; [simpl; congruence|done]]. split; [lia|]. left. eexists n, _.
    split; [done|]. split; [congruence|]. case_bool_decide; [lia|done].
  - exists []. split; [done|]. intros _. split; [|done]. split; [lia|].
    destruct H as [(o' & dl' & Ho & Hid & Hdl)|]; [|by right]. rewrite Hold in Ho.
    injection Ho as <- _. left. eexists c, _. split; [done|]. split; [done|]. lia.
  - exists [Released (head_epoch (deeds w id) + 1) n]. split; [done|]. intros Hg.
    by apply Forall_cons in Hg as [[] _].
  - exists []. split; [done|]. intros _. split; [|done]. split; [lia|]. by right.
Qed.

Lemma run_moves acts w : inv w -> forallb plain_act acts = true ->
  now w <= now (run prefix ttl w acts) /\
  forall id, plain id = true -> exists l, deeds (run prefix ttl w acts) id = l ++ deeds w id.
Proof.
  revert w. induction acts as [|a acts IH]; intros w Hi Hp; simpl in *.
  - split; [lia|]. intros id _. by exists [].
  - apply andb_true_iff in Hp as [H1 H2]. destruct (dir_step_inv w a Hi H1) as (Hi' & [Hn Hm] & _).
    destruct (IH _ Hi' H2) as [Hn' Hl]. split; [lia|]. intros id Hid.
    destruct (Hl id Hid) as [l ->]. destruct (Hm id Hid) as [[] _];
      try (by exists l); eexists (l ++ [_]); by rewrite <- app_assoc.
Qed.

Lemma run_holds acts w id o d new :
  inv w -> forallb plain_act acts = true -> plain id = true -> holds w id o d ->
  now (run prefix ttl w acts) < d ->
  deeds (run prefix ttl w acts) id = new ++ deeds w id -> Forall is_grant new ->
  Forall (fun x => NodeId (deed_node x) = NodeId o) new /\ holds (run prefix ttl w acts) id o d.
Proof.
  revert w new. induction acts as [|a acts IH]; intros w new Hi Hp Hid Hh Hlt Hnew Hg; simpl in *.
  - assert (new = []) as ->; [|done]. apply (app_inv_tail (deeds w id)). by rewrite <- Hnew.
  - apply andb_true_iff in Hp as [H1 H2]. destruct (dir_step_inv w a Hi H1) as (Hi' & Hm & _).
    destruct (run_moves acts _ Hi' H2) as [Hn' Hl]. destruct (Hl id Hid) as [l2 E2].
    destruct (moves_holds _ _ id o d Hm Hi Hid Hh) as (l1 & E1 & Hh1); [lia|].
    assert (new = l2 ++ l1) as ->.
    { apply (app_inv_tail (deeds w id)). by rewrite <- Hnew, E2, E1, app_assoc. }
    apply Forall_app in Hg as [Hg2 Hg1]. destruct (Hh1 Hg1) as [Hh' Hf].
    destruct (IH _ l2 Hi' H2 Hid Hh' Hlt E2 Hg2) as [Hf2 Hend]. split; [by apply Forall_app|done].
Qed.

(** C12: While the lease of an owner runs and the ownership is not released, no
    grant goes to another node, whatever the directories do. *)
Theorem lease_excludes_other_nodes n acts1 acts2 id o d new :
  let w1 := run prefix ttl (fresh n) acts1 in
  let w2 := run prefix ttl w1 acts2 in
  forallb plain_act acts1 = true -> forallb plain_act acts2 = true -> plain id = true ->
  redis w1 !! owner_key prefix id = Some (mkEntry (SOwner o) (Some d)) -> now w2 < d ->
  deeds w2 id = new ++ deeds w1 id -> Forall is_grant new ->
  Forall (fun x => NodeId (deed_node x) = NodeId o) new.
Proof.
  intros w1 w2 Hp1 Hp2 Hid Ho Hlt Hnew Hg.
  pose proof (run_inv acts1 _ (fresh_inv n) Hp1) as Hi. fold w1 in Hi.
  eapply (run_holds acts2 w1 id o d); try done. split.
  - by eapply (ag_lease _ _ _ _ _ (inv_ids _ Hi id Hid)).
  - left. eexists o, _. split; [exact Ho|]. split; [done|]. simpl. lia.
Qed.
(** A renewal that Redis granted keeps the ownership with its node for a whole
    lease, unless it is released: whatever else happens, Redis still names a node
    with that id. *)
Theorem renewal_lasts_a_lease n acts1 acts2 c id o w1' new :
  let w1 := run prefix ttl (fresh n) acts1 in
  let w2 := run prefix ttl w1' acts2 in
  forallb plain_act acts1 = true -> forallb plain_act acts2 = true -> plain id = true -> 0 < ttl ->
  do_op prefix ttl w1 c (RunRenew id o) = (w1', Ok 1) -> now w2 < now w1 + ttl ->
  deeds w2 id = new ++ deeds w1 id -> Forall is_grant new -> head_epoch (deeds w2 id) < 2 ^ 63 - 1 ->
  exists o', redis_get (now w2) (redis w2) (owner_key prefix id) = Some (SOwner o') /\ NodeId o' = NodeId o.
Proof.
  intros w1 w2 Hp1 Hp2 Hid Httl Hop Hlt Hnew Hg Hmax.
  pose proof (run_inv acts1 _ (fresh_inv n) Hp1) as Hi. fold w1 in Hi.
  destruct (do_op_accessed w1 c (RunRenew id o) Hi Hid) as [Ha _]. rewrite Hop in Ha. simpl in Ha.
  pose proof (accessed_inv _ _ Hi Ha) as Hi'.
  assert (Hh : holds w1' id o (now w1 + ttl) /\ deeds w1' = deeds w1 /\ now w1' = now w1).
  { revert Hop. simpl. unfold renewOwnerScript.
    destruct (redis_get (now w1) (redis w1) (owner_key prefix id)) as [[k|cur]|]; [done| |done].
    case_bool_decide as Hn; simpl; [|done]. case_bool_decide; simpl; [|done].
    rewrite bool_decide_eq_false_2 by lia. intros [= <-]. split; [|done]. split; simpl; [lia|]. left.
    exists cur, (Some (now w1 + ttl)). rewrite lookup_insert_eq. split_and!; [done|done|lia]. }
  destruct Hh as (Hh & Ed & En). rewrite <- Ed in Hnew.
  destruct (run_holds acts2 w1' id o (now w1 + ttl) new Hi' Hp2 Hid Hh Hlt Hnew Hg) as [_ [_ [H|H]]]; fold w2 in H; [|lia].
  destruct H as (o' & dl & Hl & Hn & Hdl). exists o'. split; [|done]. unfold redis_get. rewrite Hl.
  unfold live. simpl. destruct dl as [d|]; [|done]. by rewrite bool_decide_eq_true_2 by lia.
Qed.
End Invariant.

(** ** Examples *)

Module Example.
Definition ttl : Z := lease_ms (NewRedisDirectory (mkOptions 0 0 0)).
Definition pl : ActorID := mkActorID "player" "1".
Definition id : string := ActorID_String pl.

(** A call at directory [c], the [t]-th of the run, executed to its end. *)
Definition complete (c t : nat) (q : request) : list act :=
  [Call c q; Run t Delivered; Run t Delivered; Run t Delivered].

(** Node a takes the actor at directory 0; directory 1 reads the owner. *)
Definition taken : list act := complete 0 0 (RAcquire pl node_a) ++ complete 1 1 (RGet pl).
(** Node b asks for it in vain while the lease runs, and gets it afterwards. *)
Definition lapse : list act :=
  [Tick 20000] ++ complete 1 2 (RAcquire pl node_b) ++ [Tick 20000] ++ complete 1 3 (RAcquire pl node_b).

Definition w1 : World := run "" ttl (fresh 2) taken.

Example node_b_waits : c_prog <$> calls (run "" ttl w1 lapse) =
  [Ret (Ok (AOwner node_a true)); Ret (Ok (AOwner node_a true)); Ret (Ok (AOwner node_a false));
   Ret (Ok (AOwner node_b true))].
Proof. vm_compute. reflexivity. Qed.

Example deeds_of_lapse : deeds (run "" ttl w1 lapse) id = [Granted 2 node_b; Granted 1 node_a].
Proof. vm_compute. reflexivity. Qed.

(** Directory 1 cached the owner 29 s after the lease was granted; when the
    lease has lapsed, deleting the dead owner reports that nothing was
    deleted, and the cache keeps naming the dead owner. *)
Definition dead_owner : list act :=
  complete 0 0 (RAcquire pl node_a) ++ [Tick 29000] ++ complete 1 1 (RGet pl) ++ [Tick 2000] ++
  complete 1 2 (RDelete pl node_a) ++ complete 1 3 (RGet pl).

Lemma dead_owner_stays_cached :
  let w := run "" ttl (fresh 2) dead_owner in
  redis_get (now w) (redis w) (owner_key "" id) = None /\
  c_prog <$> drop 2 (calls w) = [Ret (Ok (ABool false)); Ret (Ok (AOwner node_a true))].
Proof. vm_compute. split; reflexivity. Qed.

(** The key of one valid actor's owner is the key of another's epoch. *)
Definition shadow : ActorID := mkActorID "player" "1.epoch".
Lemma keys_collide :
  Validate pl = None /\ Validate shadow = None /\
  owner_key "" (ActorID_String shadow) = epoch_key "" (ActorID_String pl) /\
  c_prog <$> calls (run "" ttl (fresh 1) (complete 0 0 (RAcquire pl node_a) ++ complete 0 1 (RAcquire shadow node_a)))
  = [Ret (Ok (AOwner node_a true)); Ret (Err redis_script_error)].
Proof. vm_compute. repeat split; reflexivity. Qed.
End Example.

Lemma ownership_is_fenced_witness :
  let w := run "" Example.ttl (fresh 2) (Example.taken ++ Example.lapse) in
  StronglySorted newer (deeds w Example.id) /\
  (forall e n1 n2, Granted e n1 ∈ deeds w Example.id -> Granted e n2 ∈ deeds w Example.id -> n1 = n2) /\
  (forall v, redis_get (now w) (redis w) (owner_key "" Example.id) = Some v ->
     exists owner e l, v = SOwner owner /\ deeds w Example.id = Granted e owner :: l) /\
  (forall c d owner, dirs w !! c = Some d -> getCached Example.id (d_cache d) = Some owner ->
     Granted (o_Epoch owner) (o_Node owner) ∈ deeds w Example.id) /\
  (forall cl r, cl ∈ calls w -> c_prog cl = Ret r -> answer_ok (c_request cl) (deeds w) r).
Proof.
  apply (ownership_is_fenced "" Example.ttl 2 (Example.taken ++ Example.lapse) Example.id);
    vm_compute; reflexivity.
Defined.

Lemma lease_excludes_other_nodes_witness :
  Forall (fun x => NodeId (deed_node x) = NodeId node_a) [Granted 2 node_a].
Proof.
  apply (lease_excludes_other_nodes "" Example.ttl 2 Example.taken
           (Example.complete 1 2 (RAcquire Example.pl node_b) ++ Example.complete 0 3 (RAcquire Example.pl node_a))
           Example.id node_a 30000 [Granted 2 node_a]); try (vm_compute; reflexivity).
  constructor; [exact I|constructor].
Defined.

(** Node a renews 20 s after it was granted the actor; another 20 s later node b
    asks in vain. *)
Lemma renewal_lasts_a_lease_witness :
  let w1 := run "" Example.ttl (fresh 2) (Example.taken ++ [Tick 20000]) in
  let w1' := (do_op "" Example.ttl w1 0 (RunRenew Example.id node_a)).1 in
  let w2 := run "" Example.ttl w1' ([Tick 20000] ++ Example.complete 1 2 (RAcquire Example.pl node_b)) in
  exists o', redis_get (now w2) (redis w2) (owner_key "" Example.id) = Some (SOwner o') /\ NodeId o' = NodeId node_a.
Proof.
  apply (renewal_lasts_a_lease "" Example.ttl 2 (Example.taken ++ [Tick 20000])
           ([Tick 20000] ++ Example.complete 1 2 (RAcquire Example.pl node_b)) 0 Example.id node_a _ []);
    try (vm_compute; reflexivity). constructor.
Defined.
