(* ===== verification/Router.v ===== *)
(** * logicalactor/router.go and router_actor.go: routing to logical actors

    The router finds the node that owns a logical actor and sends the message to
    the router actor there, which delivers it, activates the actor, or forwards
    it to the node that owns it by now. Owner directory, discovery, placement
    strategies, actor system and context are interfaces in the code: here they
    are the calls [rop] that the programs make. *)

From S2P Require Import Prelude Errors Actor Component Effects Placement.

Definition maxOwnerResolveAttempts : nat := 3.
Definition RouterActorName : string := "$logical-router".
Definition maxRouteForwards : Z := 3.

Definition ErrDiscoveryNil := ESentinel "discovery not initialized".
Definition ErrLogicalActorRouterNotStarted := ESentinel "logical actor router is not started".
Definition ErrActorSystemNil := ESentinel "logical actor system is nil".
Definition ErrOwnerDirectoryNil := ESentinel "logical actor owner directory is nil".
Definition ErrActorContextNil := ESentinel "logical actor context is nil".

(** The text of the package's own errors. *)
Definition lerr_text (e : lerr) : string :=
  match e with
  | ErrInvalidKind => "actor id invalid  kind" | ErrInvalidKey => "actor id invalid  key"
  | ErrNodeIdEmpty => "node info id is empty" | ErrInstanceIdEmpty => "node info instance id is empty"
  | ErrKindEmpty => "node info kind is empty"
  | ErrNodeProviderNil => "dynamic round robin requires node provider"
  | ErrNoAvailableNodes => "dynamic round robin has no available nodes"
  | ErrActorFactoryNil => "logical actor factory is nil"
  | ErrActorFactoryReturnedNil => "logical actor factory returned nil actor"
  | ErrFactoryNotFound => "logical actor factory not found"
  | ErrFactoryAlreadyExist => "logical actor factory already registered"
  | ErrRouteForwardLimit => "logical actor route forward limit exceeded"
  | ErrPlacementStrategyNil => "placement strategy is nil"
  | ErrPlacementStrategyRegistered => "placement strategy already registered"
  | ErrPlacementStrategyNotFound => "placement strategy not found"
  | ErrRedis _ => "redis"
  end.
Definition fail (e : lerr) : gerr := ESentinel (lerr_text e).

(** [M] are protobuf messages, [P] messages packed into an [anypb.Any], [St]
    placement strategies, [F] factories, [A] actors. *)
Class AnyPB (M P : Set) := {
  MessageToAny : option M -> res gerr P; (* None: a nil message *)
  UnmarshalNew : P -> res gerr M }.
Class LawfulAnyPB (M P : Set) `{AnyPB M P} := {
  any_roundtrip m p : MessageToAny (Some m) = Ok p -> UnmarshalNew p = Ok m }.

Section Router.
Context {M P St F A : Set} `{AnyPB M P}.
(** [%v] of a [*PID] *)
Variable pid_text : PID -> string.

(** logicalactorpb.RouteRequest; the Owner message has no kind. *)
Record RouteRequest := mkRouteRequest {
  rq_ActorId : option ActorID;
  rq_Owner : option (string * string);
  rq_Message : option P;
  rq_ForwardCount : Z (* uint32 *) }.

Definition actorIDFromProto (a : option ActorID) : ActorID := default (mkActorID "" "") a.
Definition ownerToProto (n : NodeInfo) : option (string * string) := Some (NodeId n, InstanceId n).

(** What is sent through the context: a request for a router actor, or a
    message for an actor. *)
Inductive outgoing := MRoute (r : RouteRequest) | MPlain (m : M).

(** [&ownedActor{...}] *)
Record ownedActor := mkOwned { actorInstance : A; ow_actorId : ActorID; ow_owner : NodeInfo }.

Inductive rop : Set -> Type :=
(* OwnerDirectory *)
| GetOwner (a : ActorID) : rop (res gerr (NodeInfo * bool))
| AcquireOwner (a : ActorID) (candidate : NodeInfo) : rop (res gerr (NodeInfo * bool))
| DeleteOwner (a : ActorID) (expected : NodeInfo) : rop (res gerr bool)
(* PlacementStrategy, Discovery *)
| PickNode (s : St) (a : ActorID) : rop (res gerr NodeInfo)
| MemberById (id : string) : rop (NodeInfo * bool)
(* actor.Context, ActorFactory, actor.RouterRuntime *)
| CtxTell (target : PID) (m : outgoing) : rop (option gerr)
| CtxAsk (target : PID) (m : outgoing) : rop (res gerr M)
| CtxForward (target : PID) (m : outgoing) : rop (option gerr)
| Has (target : PID) : rop bool
| CallFactory (f : F) (a : ActorID) : rop (option A * SpawnOptions ActorID)
| SpawnActor (handler : ownedActor) (options : SpawnOptions ActorID) : rop (res gerr PID)
| LogError (message : string) : rop unit.

Record Router := mkRouter {
  local : NodeInfo;
  system_node : string; (* actorSystem.GetNodeID() *)
  placements : gmap string St;
  factories : gmap string F;
  routerPID : option PID;
  lifecycle : Controller }.

Definition isLocal (rt : Router) (owner : NodeInfo) : bool := bool_decide (NodeId owner = NodeId (local rt)).

(** ** Registration and lifecycle *)

Definition RegisterFactory (rt : Router) (kind : string) (factory : option F) : Router * option gerr :=
  match Validate (mkActorID kind "validate") with
  | Some err => (rt, Some (fail err))
  | None =>
    match factory with
    | None => (rt, Some (fail ErrActorFactoryNil))
    | Some f =>
      match factories rt !! kind with
      | Some _ => (rt, Some (EWrap ("kind " +:+ kind +:+ ":") (fail ErrFactoryAlreadyExist) ""))
      | None => (mkRouter (local rt) (system_node rt) (placements rt) (<[kind := f]> (factories rt))
                   (routerPID rt) (lifecycle rt), None)
      end
    end
  end.

Definition RegisterPlacement (rt : Router) (kind : string) (strategy : option St) : Router * option gerr :=
  let kind := TrimSpace kind in
  match Validate (mkActorID kind "validate") with
  | Some err => (rt, Some (fail err))
  | None =>
    match strategy with
    | None => (rt, Some (fail ErrPlacementStrategyNil))
    | Some s =>
      match placements rt !! kind with
      | Some _ => (rt, Some (EWrap "" (fail ErrPlacementStrategyRegistered) (": " +:+ kind)))
      | None => (mkRouter (local rt) (system_node rt) (<[kind := s]> (placements rt)) (factories rt)
                   (routerPID rt) (lifecycle rt), None)
      end
    end
  end.

(** [New] *)
Definition New (local : NodeInfo) (system_node : string) : Router :=
  mkRouter local system_node ∅ ∅ None zeroController.

Section Lifecycle.
(** The actor system: spawning the router actor and stopping it. *)
Variables (Sys : Type) (spawn : string -> Sys -> Sys * res gerr PID) (stop : PID -> Sys -> Sys).

(** [startRouter] on [routerPID] and the system *)
Definition startRouter (w : option PID * Sys) : (option PID * Sys) * option gerr :=
  match w with
  | (Some pid, sys) => (w, None)
  | (None, sys) =>
    match spawn RouterActorName sys with
    | (sys, Err err) => ((None, sys), Some (wrap "logical actor router spawn err:" err))
    | (sys, Ok pid) => ((Some pid, sys), None)
    end
  end.

Definition with_lifecycle (rt : Router) (c : Controller) (pid : option PID) : Router :=
  mkRouter (local rt) (system_node rt) (placements rt) (factories rt) pid c.

(** [Router.Start]; the three flags say which dependencies are nil. *)
Definition Router_Start (rt : Router) (system_nil directory_nil discovery_nil : bool) (sys : Sys)
  : Router * Sys * option (lcerr gerr) :=
  let run := fun w =>
    if system_nil : bool then (w, Some ErrActorSystemNil)
    else if directory_nil : bool then (w, Some ErrOwnerDirectoryNil)
    else if discovery_nil : bool then (w, Some ErrDiscoveryNil)
    else startRouter w in
  let '(c, (pid, sys), err) := Start (lifecycle rt) (Some run) (routerPID rt, sys) in
  (with_lifecycle rt c pid, sys, err).

(** [Router.Stop] *)
Definition Router_Stop (rt : Router) (system_nil : bool) (sys : Sys) : Router * Sys * option (lcerr gerr) :=
  let run := fun w : option PID * Sys =>
    match w with
    | (Some pid, sys) => if system_nil then (w, None) else ((None, stop pid sys), @None gerr)
    | (None, _) => (w, None)
    end in
  let '(c, (pid, sys), err) := Stop (lifecycle rt) (Some run) (routerPID rt, sys) in
  (with_lifecycle rt c pid, sys, err).
End Lifecycle.

(** ** Finding the owner *)

Definition isNodeAlive (candidate : NodeInfo) : prog rop bool :=
  owner <-! MemberById (NodeId candidate); Ret (bool_decide (fst owner = candidate)).

Definition pickNode (rt : Router) (a : ActorID) : prog rop (res gerr NodeInfo) :=
  match placements rt !! Kind a with
  | None => Ret (Err (EWrap ("kind:" +:+ Kind a +:+ " ") (fail ErrPlacementStrategyNotFound) ""))
  | Some strategy =>
    candidate <-! PickNode strategy a;
    match candidate with
    | Err err => Ret (Err (wrap "strategy pick node:" err))
    | Ok candidate => Ret (Ok candidate)
    end
  end.

Definition placementFor (rt : Router) (a : ActorID) : prog rop (res gerr NodeInfo) :=
  candidate <~ pickNode rt a;
  match candidate with
  | Err err => Ret (Err err)
  | Ok candidate =>
    owner <-! AcquireOwner a candidate;
    match owner with
    | Err err => Ret (Err (wrap "directory acquire owner :" err))
    | Ok (owner, _) => Ret (Ok owner)
    end
  end.

(** [fmt.Errorf("owner %s is dead", owner)] *)
Definition owner_is_dead (n : NodeInfo) : gerr :=
  ESentinel ("owner {" +:+ NodeId n +:+ " " +:+ n_Kind n +:+ " " +:+ InstanceId n +:+ "} is dead").

(** The loop of [resolveOwner], from the values its variables have; it returns
    [(owner, err)]. *)
Fixpoint resolve_attempts (rt : Router) (n : nat) (a : ActorID) (owner : NodeInfo) (err : option gerr)
  : prog rop (NodeInfo * option gerr) :=
  match n with
  | O => Ret (owner, err)
  | S n =>
    let tryOwner (owner : NodeInfo) : prog rop (NodeInfo * option gerr) :=
      alive <~ isNodeAlive owner;
      if negb alive then
        deleted <-! DeleteOwner a owner;
        match deleted with
        | Err err => resolve_attempts rt n a owner (Some (wrap "directory delete owner :" err))
        | Ok _ => resolve_attempts rt n a owner (Some (owner_is_dead owner))
        end
      else Ret (owner, None) in
    r <-! GetOwner a;
    match r with
    | Err err => resolve_attempts rt n a no_node (Some (wrap "directory get owner :" err))
    | Ok (owner, true) => tryOwner owner
    | Ok (_, false) =>
      placed <~ placementFor rt a;
      match placed with
      | Err err => resolve_attempts rt n a no_node (Some (wrap "placement for :" err))
      | Ok owner => tryOwner owner
      end
    end
  end.

Definition resolveOwner (rt : Router) (a : ActorID) : prog rop (NodeInfo * option gerr) :=
  resolve_attempts rt maxOwnerResolveAttempts a no_node None.

Definition newRouteRequest (rt : Router) (a : ActorID) (message : option M)
  : prog rop (res gerr (NodeInfo * RouteRequest)) :=
  match Validate a with
  | Some err => Ret (Err (fail err))
  | None =>
    resolved <~ resolveOwner rt a;
    match resolved with
    | (_, Some err) => Ret (Err err)
    | (owner, None) =>
      match MessageToAny message with
      | Err err => Ret (Err err)
      | Ok payload => Ret (Ok (owner, mkRouteRequest (Some a) (ownerToProto owner) (Some payload) 0))
      end
    end
  end.

(** [ctx_nil]: whether the context passed is nil. *)
Definition prepareRoute (rt : Router) (ctx_nil : bool) (a : ActorID) (message : option M)
  : prog rop (res gerr (PID * RouteRequest)) :=
  if negb (bool_decide (state (lifecycle rt) = StateStarted)) then Ret (Err ErrLogicalActorRouterNotStarted)
  else if ctx_nil then Ret (Err ErrActorContextNil)
  else
    prepared <~ newRouteRequest rt a message;
    match prepared with
    | Err err => Ret (Err err)
    | Ok (owner, request) => Ret (Ok (NewPID 0 RouterActorName (NodeId owner), request))
    end.

Definition Tell (rt : Router) (ctx_nil : bool) (a : ActorID) (message : option M) : prog rop (option gerr) :=
  prepared <~ prepareRoute rt ctx_nil a message;
  match prepared with
  | Err err => Ret (Some (wrap "logical tell :" err))
  | Ok (target, request) =>
    err <-! CtxTell target (MRoute request);
    match err with
    | Some err => Ret (Some (wrap "logical tell :" err))
    | None => Ret None
    end
  end.

Definition Ask (rt : Router) (ctx_nil : bool) (a : ActorID) (message : option M) : prog rop (res gerr M) :=
  prepared <~ prepareRoute rt ctx_nil a message;
  match prepared with
  | Err err => Ret (Err (wrap "logical ask :" err))
  | Ok (target, request) =>
    value <-! CtxAsk target (MRoute request);
    match value with
    | Err err => Ret (Err (wrap "logical ask :" err))
    | Ok value => Ret (Ok value)
    end
  end.

Definition Forward (rt : Router) (ctx_nil : bool) (a : ActorID) (message : option M) : prog rop (option gerr) :=
  prepared <~ prepareRoute rt ctx_nil a message;
  match prepared with
  | Err err => Ret (Some (wrap "logical forward :" err))
  | Ok (target, request) =>
    err <-! CtxForward target (MRoute request);
    match err with
    | Some err => Ret (Some (wrap "logical forward :" err))
    | None => Ret None
    end
  end.

(** ** router_actor.go: the router actor of a node *)

Definition forwardToOwner (request : RouteRequest) (owner : NodeInfo) : prog rop (option gerr) :=
  let forwardRequest := mkRouteRequest (rq_ActorId request) (ownerToProto owner) (rq_Message request)
                          (u32 (rq_ForwardCount request + 1)) in
  let target := NewPID 0 RouterActorName (NodeId owner) in
  err <-! CtxForward target (MRoute forwardRequest);
  match err with
  | Some err => Ret (Some (wrap ("forward to remote owner " +:+ NodeId owner +:+ ": ") err))
  | None => Ret None
  end.

Definition activateActor (rt : Router) (a : ActorID) (owner : NodeInfo) : prog rop (res gerr PID) :=
  match factories rt !! Kind a with
  | None => Ret (Err (fail ErrFactoryNotFound))
  | Some factory =>
    made <-! CallFactory factory a;
    match made with
    | (None, _) => Ret (Err (fail ErrActorFactoryReturnedNil))
    | (Some handler, options) =>
      spawned <-! SpawnActor (mkOwned handler a owner)
                    (mkSpawnOptions (Name a) (o_InitArgs options ++ [a]) (o_MailboxSize options));
      Ret spawned
    end
  end.

Definition routeMessage (rt : Router) (request : option RouteRequest) : prog rop (option gerr) :=
  match request with
  | None => Ret (Some (ESentinel "logical route request is nil"))
  | Some request =>
    let a := actorIDFromProto (rq_ActorId request) in
    match rq_Message request with
    | None => Ret (Some (ESentinel "logical route message is nil"))
    | Some packed =>
      match UnmarshalNew packed with
      | Err err => Ret (Some (wrap "decode logical route message: " err))
      | Ok payload =>
        if bool_decide (maxRouteForwards <= rq_ForwardCount request) then Ret (Some (fail ErrRouteForwardLimit))
        else
          let target := NewPID 0 (Name a) (system_node rt) in
          has <-! Has target;
          if (has : bool) then
            err <-! CtxForward target (MPlain payload);
            match err with
            | Some err => Ret (Some (wrap ("target:" +:+ pid_text target +:+ " local forward: ") err))
            | None => Ret None
            end
          else
            acquired <-! AcquireOwner a (local rt);
            match acquired with
            | Err err => Ret (Some (wrap "acquire owner: " err))
            | Ok (owner, acquired) =>
              if negb acquired && negb (isLocal rt owner) then forwardToOwner request owner
              else
                activated <~ activateActor rt a owner;
                match activated with
                | Err err =>
                  deleted <-! DeleteOwner a owner;
                  match deleted with
                  | Err _ => do! LogError "logical actor owner cleanup failed";
                             Ret (Some (wrap "activate actor :" err))
                  | Ok _ => Ret (Some (wrap "activate actor :" err))
                  end
                | Ok actorPID =>
                  err <-! CtxForward actorPID (MPlain payload);
                  match err with
                  | Some err => Ret (Some (wrap ("forward activate actor" +:+ pid_text actorPID +:+ " :") err))
                  | None => Ret None
                  end
                end
            end
      end
    end
  end.

(** A message the router actor receives: a request, or something else. *)
Inductive incoming := IRoute (r : option RouteRequest) | IOther (type : string).

Definition handleMessage (rt : Router) (message : incoming) : prog rop (option gerr) :=
  match message with
  | IRoute msg =>
    err <~ routeMessage rt msg;
    match err with
    | Some err => Ret (Some (wrap "route message: " err))
    | None => Ret None
    end
  | IOther type => Ret (Some (ESentinel ("unknown msg type: " +:+ type)))
  end.

Definition HandleTell (rt : Router) (message : incoming) : prog rop unit :=
  err <~ handleMessage rt message;
  match err with
  | Some _ => do! LogError "logical route actor handle tell message error"; Ret tt
  | None => Ret tt
  end.

(** [(nil, err)] *)
Definition HandleAsk (rt : Router) (message : incoming) : prog rop (option gerr) := handleMessage rt message.
End Router.
Arguments RouteRequest P : clear implicits.
Arguments outgoing M P : clear implicits.
Arguments rop M P St F A : clear implicits.
Arguments Router St F : clear implicits.

(** ** ownedActor: an activated actor keeps its lease *)

Module Owned.
Definition Second : Z := 1000000000.

Inductive oop : Set -> Type :=
| LeaseTTL : oop Z
| RenewOwner (a : ActorID) (expected : NodeInfo) : oop (res gerr bool)
| DeleteOwner (a : ActorID) (expected : NodeInfo) : oop (res gerr bool)
| CtxTicker (interval : Z) : oop Z (* the timer's id *)
| CtxStopTimer (id : Z) : oop unit
| Log (message : string) : oop unit
| InnerInit : oop unit
| InnerDestroy : oop unit.

Section Owned.
Context {A : Set}.

(** [tryStartRenew]: [leaseTimerID] after it *)
Definition tryStartRenew (leaseTimerID : Z) : prog oop Z :=
  lease <-! LeaseTTL;
  if bool_decide (lease <= 0) then Ret leaseTimerID
  else
    let interval := Z.quot lease 3 in
    let interval := if bool_decide (interval < Second) then Second else interval in
    id <-! CtxTicker interval; Ret id.

(** The ticker's callback *)
Definition on_tick (owned : ownedActor (A:=A)) (leaseTimerID : Z) : prog oop unit :=
  renewed <-! RenewOwner (ow_actorId owned) (ow_owner owned);
  match renewed with
  | Err _ => do! Log "renew logical actor owner failed"; Ret tt
  | Ok renewed =>
    if negb renewed
    then do! Log "logical actor owner lease lost"; do! CtxStopTimer leaseTimerID; Ret tt
    else Ret tt
  end.

Definition Init : prog oop Z :=
  id <~ tryStartRenew 0; do! InnerInit; Ret id.

Definition Destroy (owned : ownedActor (A:=A)) : prog oop unit :=
  deleted <-! DeleteOwner (ow_actorId owned) (ow_owner owned);
  match deleted with
  | Err _ => do! Log "delete owner failed"; do! InnerDestroy; Ret tt
  | Ok _ => do! InnerDestroy; Ret tt
  end.
End Owned.
End Owned.

(** ** Runs seen from their calls *)

Section Traces.
Context {M P St F A : Set} `{AnyPB M P}.
Local Abbreviation rop := (rop M P St F A).
Variable pid_text : PID -> string.

(** [each_after C past t]: every call of [t] satisfies [C], which may look at
    the calls before it (the latest first). *)
Fixpoint each_after (C : list (event rop) -> event rop -> Prop) (past t : list (event rop)) : Prop :=
  match t with
  | [] => True
  | e :: t => C past e /\ each_after C (e :: past) t
  end.

(** What justifies the calls of the router actor of [rt] on a request. *)
Definition justified (rt : Router St F) (request : RouteRequest P) (past : list (event rop)) (e : event rop) : Prop :=
  let a := actorIDFromProto (rq_ActorId request) in
  match e with
  | Ev (CtxForward target (MPlain m)) _ =>
    (exists packed, rq_Message request = Some packed /\ UnmarshalNew packed = Ok m) /\
    rq_ForwardCount request < maxRouteForwards /\
    ((target = NewPID 0 (Name a) (system_node rt) /\ past = [Ev (Has target) true]) \/
     (exists handler options past', past = Ev (SpawnActor handler options) (Ok target) :: past'))
  | Ev (CtxForward target (MRoute r)) _ =>
    exists owner, past = [Ev (AcquireOwner a (local rt)) (Ok (owner, false));
                          Ev (Has (NewPID 0 (Name a) (system_node rt))) false] /\
      NodeId owner <> NodeId (local rt) /\ target = NewPID 0 RouterActorName (NodeId owner) /\
      rq_ActorId r = rq_ActorId request /\ rq_Message r = rq_Message request /\
      rq_ForwardCount r = u32 (rq_ForwardCount request + 1) /\ rq_ForwardCount request < maxRouteForwards
  | Ev (SpawnActor handler options) _ =>
    exists acquired past' factory opts,
      past = Ev (CallFactory factory a) (Some (actorInstance handler), opts) ::
             Ev (AcquireOwner a (local rt)) (Ok (ow_owner handler, acquired)) :: past' /\
      factories rt !! Kind a = Some factory /\
      (acquired = true \/ NodeId (ow_owner handler) = NodeId (local rt)) /\
      ow_actorId handler = a /\ o_Name options = Name a /\ o_InitArgs options = o_InitArgs opts ++ [a]
  | Ev (DeleteOwner b owner) _ =>
    b = a /\ exists acquired, Ev (AcquireOwner a (local rt)) (Ok (owner, acquired)) ∈ past
  | Ev (CtxTell _ _) _ | Ev (CtxAsk _ _) _ => False
  | _ => True
  end.

(** The request that a call passes on to another router actor. *)
Definition forwarded (e : event rop) : option (RouteRequest P) :=
  match e with Ev (CtxForward _ (MRoute r)) _ => Some r | _ => None end.

(** Calls that deliver or forward the message, and were accepted. *)
Definition handed_over (e : event rop) : bool :=
  match e with Ev (CtxForward _ _) None => true | _ => false end.

Definition delivers (t : list (event rop)) (err : option gerr) : Prop :=
  err = None -> exists t' e, t = t' ++ [e] /\ handed_over e = true /\ Forall (fun e => handed_over e = false) t'.

Lemma delivers_cons e t err : handed_over e = false -> delivers t err -> delivers (e :: t) err.
Proof.
  intros He Hd Herr. destruct (Hd Herr) as (t' & x & -> & Hx & Ht'). exists (e :: t'), x.
  split; [done|]. split; [done|]. by constructor.
Qed.

Lemma delivers_last target m : delivers [Ev (CtxForward target m) None] None.
Proof. intros _. eexists [], _. by repeat split. Qed.

(** What routeMessage does when the actor is to run here. *)
Lemma activation_runs rt request payload packed owner acquired past t err :
  let a := actorIDFromProto (rq_ActorId request) in
  rq_Message request = Some packed -> UnmarshalNew packed = Ok payload ->
  rq_ForwardCount request < maxRouteForwards ->
  (acquired = true \/ NodeId owner = NodeId (local rt)) ->
  runs (activated <~ activateActor rt a owner;
        match activated with
        | Err err =>
          deleted <-! DeleteOwner a owner;
          match deleted with
          | Err _ => do! LogError "logical actor owner cleanup failed"; Ret (Some (wrap "activate actor :" err))
          | Ok _ => Ret (Some (wrap "activate actor :" err))
          end
        | Ok actorPID =>
          err <-! CtxForward actorPID (MPlain payload);
          match err with
          | Some err => Ret (Some (wrap ("forward activate actor" +:+ pid_text actorPID +:+ " :") err))
          | None => Ret None
          end
        end) t err ->
  each_after (justified rt request) (Ev (AcquireOwner a (local rt)) (Ok (owner, acquired)) :: past) t /\
  delivers t err.
Proof.
  intros a Em Eu Hlt Hown Hr. apply runs_andThen in Hr as (t3 & t4 & activated & -> & Hact & Hr).
  assert (Hfail : forall e past', Ev (AcquireOwner a (local rt)) (Ok (owner, acquired)) ∈ past' ->
    runs (deleted <-! DeleteOwner a owner;
          match deleted with
          | Err _ => do! LogError "logical actor owner cleanup failed"; Ret (Some (wrap "activate actor :" e))
          | Ok _ => Ret (Some (wrap "activate actor :" e))
          end) t4 err ->
    each_after (justified rt request) past' t4 /\ delivers t4 err).
  { intros e past' Hin (d & t5 & -> & Hd).
    destruct d; [destruct Hd as [-> ->]|destruct Hd as (? & ? & -> & -> & ->)]; simpl;
      (split; [|done]); repeat split; by eexists. }
  unfold activateActor in Hact. destruct (factories rt !! Kind a) as [factory|] eqn:Ef.
  2:{ destruct Hact as [-> ->]. apply (Hfail (fail ErrFactoryNotFound)); [|exact Hr]. apply list_elem_of_here. }
  destruct Hact as ([[handler|] options] & t5 & -> & Hact).
  2:{ destruct Hact as [-> ->].
      eapply (Hfail _ (_ :: _)) in Hr as [H1 H2]; [|apply list_elem_of_further, list_elem_of_here].
      split; [by split|by apply delivers_cons]. }
  destruct Hact as (spawned & t6 & -> & -> & ->).
  set (ev_a := Ev (AcquireOwner a (local rt)) (Ok (owner, acquired))) in *.
  set (ev_f := Ev (CallFactory factory a) (Some handler, options)).
  set (ev_s := Ev (SpawnActor _ _) spawned).
  assert (Hs : justified rt request (ev_f :: ev_a :: past) ev_s).
  { simpl. exists acquired, past, factory, options. split_and!; (exact Ef || done). }
  destruct spawned as [pid|e].
  - destruct Hr as (e & t7 & -> & Hr).
    assert (Hf : justified rt request (ev_s :: ev_f :: ev_a :: past) (Ev (CtxForward pid (MPlain payload)) e)).
    { simpl. split; [eauto|]. split; [done|]. right. unfold ev_s. eauto. }
    destruct e as [e|]; destruct Hr as [-> ->];
      (split; [split; [exact I|split; [exact Hs|split; [exact Hf|exact I]]]|]); [done|].
    do 2 (apply delivers_cons; [done|]). apply delivers_last.
  - eapply (Hfail _ (ev_s :: ev_f :: ev_a :: past)) in Hr as [H1 H2];
      [|do 2 apply list_elem_of_further; apply list_elem_of_here].
    split; [split; [exact I|split; [exact Hs|exact H1]]|]. by do 2 (apply delivers_cons; [done|]).
Qed.

Lemma forwardToOwner_runs rt request owner t err :
  let a := actorIDFromProto (rq_ActorId request) in
  rq_ForwardCount request < maxRouteForwards -> NodeId owner <> NodeId (local rt) ->
  runs (forwardToOwner request owner) t err ->
  each_after (justified rt request)
    [Ev (AcquireOwner a (local rt)) (Ok (owner, false));
     Ev (Has (NewPID 0 (Name a) (system_node rt))) false] t /\ delivers t err.
Proof.
  intros a Hlt Hne (e & t3 & -> & Hr). simpl.
  destruct e as [e|]; destruct Hr as [-> ->]; (split; [split; [|done]; exists owner; by repeat split|]); [done|].
  apply delivers_last.
Qed.

Lemma routeMessage_runs rt request t err :
  runs (routeMessage (A:=A) pid_text rt (Some request)) t err ->
  each_after (justified rt request) [] t /\ delivers t err.
Proof.
  unfold routeMessage. destruct (rq_Message request) as [packed|] eqn:Em; [|by intros [-> ->]].
  destruct (UnmarshalNew packed) as [payload|] eqn:Eu; [|by intros [-> ->]].
  case_bool_decide as Hc; [by intros [-> ->]|].
  assert (Hlt : rq_ForwardCount request < maxRouteForwards) by lia.
  intros (has & t1 & -> & Hr). destruct has.
  - destruct Hr as (e & t2 & -> & Hr).
    destruct e as [e|]; destruct Hr as [-> ->]; 
      (split; [split; [exact I|split; [simpl; eauto 10|exact I]]|]); [done|].
    apply delivers_cons; [done|]. apply delivers_last.
  - destruct Hr as (acq & t2 & -> & Hr). destruct acq as [[owner acquired]|]; [|by destruct Hr as [-> ->]].
    destruct (negb acquired && negb (isLocal rt owner)) eqn:Ec; unfold isLocal in Ec.
    + apply andb_true_iff in Ec as [Ea El]. apply negb_true_iff, bool_decide_eq_false in El.
      destruct acquired; [done|].
      apply (forwardToOwner_runs rt) in Hr as [H1 H2]; [|done|done].
      split; [by split|]. by do 2 (apply delivers_cons; [done|]).
    + assert (Hown : acquired = true \/ NodeId owner = NodeId (local rt)).
      { destruct acquired; [by left|]. right. by apply negb_false_iff, bool_decide_eq_true in Ec. }
      eapply activation_runs in Hr as [H1 H2]; [|exact Em|exact Eu|exact Hlt|exact Hown].
      split; [by split|]. by do 2 (apply delivers_cons; [done|]).
Qed.

(** C14: Every call the router actor makes for a request is justified by the answers
    before it: the message goes to the local actor, to an actor spawned after the
    directory granted it to this node, or on to the owner with one more forward; and
    success means exactly one accepted hand-over, made last. *)
Theorem routeMessage_is_justified rt request t err :
  runs (routeMessage (A:=A) pid_text rt (Some request)) t err ->
  each_after (justified rt request) [] t /\
  (err = None -> exists t' e, t = t' ++ [e] /\ handed_over e = true /\ Forall (fun e => handed_over e = false) t').
Proof. apply routeMessage_runs. Qed.

(** *** Forwarding from router actor to router actor *)

Definition forwards (r r' : RouteRequest P) : Prop :=
  exists (rt : Router St F) t err,
    runs (routeMessage (A:=A) pid_text rt (Some r)) t err /\ r' ∈ omap forwarded t.

Inductive hops : nat -> RouteRequest P -> RouteRequest P -> Prop :=
| hops_O r : hops 0 r r
| hops_S n r1 r2 r3 : forwards r1 r2 -> hops n r2 r3 -> hops (S n) r1 r3.

Lemma each_after_omap {B} (f : event rop -> option B) C past t b :
  each_after C past t -> b ∈ omap f t -> exists past' e, C past' e /\ f e = Some b.
Proof.
  revert past. induction t as [|e t IH]; intros past; [by intros _ ?%not_elem_of_nil|].
  intros [He Ht]. rewrite Prelude.omap_cons. destruct (f e) as [b'|] eqn:E; [|exact (IH _ Ht)].
  rewrite elem_of_cons. intros [->|Hb]; [eauto|exact (IH _ Ht Hb)].
Qed.

Lemma forwards_spec r r' : forwards r r' ->
  rq_ActorId r' = rq_ActorId r /\ rq_Message r' = rq_Message r /\
  rq_ForwardCount r' = u32 (rq_ForwardCount r + 1) /\ rq_ForwardCount r < maxRouteForwards.
Proof.
  intros (rt & t & err & Hr & Hin). apply routeMessage_runs in Hr as [Hj _].
  destruct (each_after_omap _ _ _ _ _ Hj Hin) as (past & [R o re] & He & Hf).
  destruct o; try done. destruct m; try done. simpl in Hf. injection Hf as ->.
  destruct He as (owner & _ & _ & _ & H1 & H2 & H3 & H4). done.
Qed.

Lemma hops_spec n r r' : hops n r r' -> 0 <= rq_ForwardCount r ->
  rq_ActorId r' = rq_ActorId r /\ rq_Message r' = rq_Message r /\
  rq_ForwardCount r' = rq_ForwardCount r + Z.of_nat n /\
  (n <> O -> rq_ForwardCount r' <= maxRouteForwards).
Proof.
  induction 1 as [r|n r1 r2 r3 Hf Hh IH]; intros H0; [repeat split; [lia|done]|].
  destruct (forwards_spec _ _ Hf) as (E1 & E2 & E3 & E4). unfold maxRouteForwards in *.
  rewrite u32_small in E3 by (unfold is_u; lia).
  destruct IH as (I1 & I2 & I3 & I4); [lia|]. split; [congruence|]. split; [congruence|].
  split; [lia|]. intros _. destruct n; [lia|]. by apply I4.
Qed.

(** A request is forwarded from router actor to router actor at most three times,
    unchanged but for its count and owner. *)
Theorem forwarding_is_bounded n r r' :
  hops n r r' -> 0 <= rq_ForwardCount r ->
  (n <= 3)%nat /\ rq_ForwardCount r' = rq_ForwardCount r + Z.of_nat n /\
  rq_ActorId r' = rq_ActorId r /\ rq_Message r' = rq_Message r.
Proof.
  intros Hh H0. destruct (hops_spec _ _ _ Hh H0) as (E1 & E2 & E3 & E4). split; [|done].
  unfold maxRouteForwards in E4. destruct n; [lia|]. specialize (E4 ltac:(done)). lia.
Qed.

(** *** Finding the owner *)

Definition is_get (e : event rop) : bool := match e with Ev (GetOwner _) _ => true | _ => false end.
Fixpoint gets (t : list (event rop)) : nat :=
  match t with [] => O | e :: t => ((if is_get e then 1 else 0) + gets t)%nat end.

Lemma gets_app t1 t2 : gets (t1 ++ t2) = (gets t1 + gets t2)%nat.
Proof. induction t1 as [|e t1 IH]; simpl; [done|]. lia. Qed.

Lemma placementFor_gets rt a t r : runs (A:=res gerr NodeInfo) (Op:=rop) (placementFor rt a) t r -> gets t = O.
Proof.
  unfold placementFor, pickNode. intros (t1 & t2 & cand & -> & H1 & H2)%runs_andThen.
  rewrite gets_app. assert (gets t1 = O) as ->.
  { destruct (placements rt !! Kind a); [|by destruct H1 as [-> _]].
    destruct H1 as (c & t' & -> & H1). destruct c; by destruct H1 as [-> _]. }
  destruct cand; [|by destruct H2 as [-> _]]. destruct H2 as (o & t' & -> & H2).
  destruct o as [[? ?]|]; by destruct H2 as [-> _].
Qed.

(** The last call of a run that found an owner: the owner is a member. *)
Definition resolved_alive (t : list (event rop)) (owner : NodeInfo) : Prop :=
  exists t' b, t = t' ++ [Ev (MemberById (NodeId owner)) (owner, b)].

Lemma resolve_attempts_runs rt n a o0 e0 t owner err :
  runs (Op:=rop) (resolve_attempts rt n a o0 e0) t (owner, err) ->
  match err with
  | None => (gets t <= n)%nat /\ (resolved_alive t owner \/ (n = O /\ e0 = None))
  | Some _ => gets t = n
  end.
Proof.
  revert o0 e0 t. induction n as [|n IH]; intros o0 e0 t; cbn [resolve_attempts].
  - intros [-> [= -> ->]]. destruct e0; [done|]. simpl. auto.
  - assert (Hstep : forall t1 t2, gets t1 = 1%nat ->
      match err with
      | None => (gets t2 <= n)%nat /\ (resolved_alive t2 owner \/ (n = O /\ False))
      | Some _ => gets t2 = n
      end ->
      match err with
      | None => (gets (t1 ++ t2) <= S n)%nat /\ (resolved_alive (t1 ++ t2) owner \/ (S n = O /\ e0 = None))
      | Some _ => gets (t1 ++ t2) = S n
      end).
    { intros t1 t2 E. rewrite gets_app, E. destruct err; [lia|]. intros [Hg [(t' & b & ->)|[_ []]]].
      split; [lia|]. left. exists (t1 ++ t'), b. by rewrite app_assoc. }
    assert (Hrec : forall o e t2, runs (Op:=rop) (resolve_attempts rt n a o (Some e)) t2 (owner, err) ->
      match err with
      | None => (gets t2 <= n)%nat /\ (resolved_alive t2 owner \/ (n = O /\ False))
      | Some _ => gets t2 = n
      end).
    { intros o e t2 Hr. apply IH in Hr. destruct err; [done|].
      destruct Hr as [? [?|[_ ?]]]; [auto|done]. }
    assert (Htry : forall t1 o t2, gets t1 = 1%nat ->
      runs (Op:=rop) (alive <~ isNodeAlive o;
        if negb alive then
          deleted <-! DeleteOwner a o;
          match deleted with
          | Err err => resolve_attempts rt n a o (Some (wrap "directory delete owner :" err))
          | Ok _ => resolve_attempts rt n a o (Some (owner_is_dead o))
          end
        else Ret (o, None)) t2 (owner, err) ->
      match err with
      | None => (gets (t1 ++ t2) <= S n)%nat /\ (resolved_alive (t1 ++ t2) owner \/ (S n = O /\ e0 = None))
      | Some _ => gets (t1 ++ t2) = S n
      end).
    { intros t1 o t2 Hg ([m b] & t3 & -> & Hr). case_bool_decide as Hm; simpl in Hr.
      - destruct Hr as [-> [= -> ->]]. simpl in Hm. subst m. rewrite gets_app, Hg. split; [simpl; lia|].
        left. by exists t1, b.
      - destruct Hr as (d & t4 & -> & Hr).
        set (t5 := [Ev (MemberById (NodeId o) : rop _) (m, b); Ev (DeleteOwner a o : rop _) d]).
        match goal with |- context [t1 ++ ?l] => change l with (t5 ++ t4) end.
        rewrite app_assoc. apply Hstep; [rewrite gets_app, Hg; done|]. destruct d; by eapply Hrec. }
    intros (r & t1 & -> & Hr). change (Ev (GetOwner a) r :: t1) with ([Ev (GetOwner a) r] ++ t1).
    destruct r as [[o [|]]|e].
    + eapply Htry; [|exact Hr]. done.
    + apply runs_andThen in Hr as (t2 & t3 & [o'|e] & -> & Hp & Hr); apply placementFor_gets in Hp; rewrite app_assoc.
      * eapply Htry; [|exact Hr]. by rewrite gets_app, Hp.
      * apply Hstep; [by rewrite gets_app, Hp|by eapply Hrec].
    + apply Hstep; [done|by eapply Hrec].
Qed.

(** resolveOwner returns an owner only if discovery's last answer was that very
    node, after at most three lookups, and an error only after three. *)
Theorem resolved_owner_is_alive rt a t owner err :
  runs (Op:=rop) (resolveOwner rt a) t (owner, err) ->
  match err with
  | None => (1 <= gets t <= 3)%nat /\
            exists t' b, t = t' ++ [Ev (MemberById (NodeId owner)) (owner, b)]
  | Some _ => gets t = 3%nat
  end.
Proof.
  intros Hr. assert (H1 : (1 <= gets t)%nat) by (destruct Hr as (r & t1 & -> & _); simpl; lia).
  apply resolve_attempts_runs in Hr. unfold maxOwnerResolveAttempts in Hr. destruct err; [done|].
  destruct Hr as [Hg [(t' & b & ->)|[? _]]]; [|done]. split; [lia|]. by exists t', b.
Qed.

(** *** What arrives is what was sent *)

Definition delivered (e : event rop) : option M :=
  match e with Ev (CtxForward _ (MPlain m)) _ => Some m | _ => None end.
Definition told (e : event rop) : option (PID * RouteRequest P) :=
  match e with
  | Ev (CtxTell target (MRoute r)) _ => Some (target, r)
  | _ => None
  end.

Lemma quiet_omap {B} (f : event rop -> option B) t :
  Forall (fun e => f e = None) t -> omap f t = [].
Proof. induction 1 as [|e t He Ht IH]; [done|]. by rewrite Prelude.omap_cons, He. Qed.

(** Finding the owner tells nothing to anybody. *)
Lemma pickNode_told rt a t r : runs (Op:=rop) (pickNode rt a) t r -> Forall (fun e => told e = None) t.
Proof.
  unfold pickNode. destruct (placements rt !! Kind a); [|by intros [-> _]].
  intros (c & t' & -> & H'). destruct c; destruct H' as [-> _]; by repeat constructor.
Qed.

Lemma placementFor_told rt a t r : runs (Op:=rop) (placementFor rt a) t r -> Forall (fun e => told e = None) t.
Proof.
  unfold placementFor. intros (t1 & t2 & c & -> & H1%pickNode_told & H2)%runs_andThen.
  apply Forall_app. split; [done|]. destruct c; [|by destruct H2 as [-> _]].
  destruct H2 as (o & t' & -> & H2). destruct o as [[? ?]|]; destruct H2 as [-> _]; by repeat constructor.
Qed.

Lemma resolve_attempts_told rt n a o0 e0 t r :
  runs (Op:=rop) (resolve_attempts rt n a o0 e0) t r -> Forall (fun e => told e = None) t.
Proof.
  revert o0 e0 t. induction n as [|n IH]; intros o0 e0 t; cbn [resolve_attempts]; [by intros [-> _]|].
  assert (Htry : forall o t2,
      runs (Op:=rop) (alive <~ isNodeAlive o;
        if negb alive then
          deleted <-! DeleteOwner a o;
          match deleted with
          | Err err => resolve_attempts rt n a o (Some (wrap "directory delete owner :" err))
          | Ok _ => resolve_attempts rt n a o (Some (owner_is_dead o))
          end
        else Ret (o, None)) t2 r -> Forall (fun e => told e = None) t2).
  { intros o t2 (m & t3 & -> & Hr). constructor; [done|]. case_bool_decide; simpl in Hr.
    - by destruct Hr as [-> _].
    - destruct Hr as (d & t4 & -> & Hr). constructor; [done|]. destruct d; by eapply IH. }
  intros (g & t1 & -> & Hr). constructor; [done|]. destruct g as [[o [|]]|e].
  - by eapply Htry.
  - apply runs_andThen in Hr as (t2 & t3 & p & -> & Hp%placementFor_told & Hr).
    apply Forall_app. split; [done|]. destruct p; [by eapply Htry|by eapply IH].
  - by eapply IH.
Qed.

(** The request that the router of a node prepares. *)
Lemma prepareRoute_runs rt cn a m t r :
  runs (Op:=rop) (prepareRoute rt cn a m) t r ->
  Forall (fun e => told e = None) t /\
  forall target request, r = Ok (target, request) ->
    state (lifecycle rt) = StateStarted /\ cn = false /\ Validate a = None /\
    exists owner payload, resolved_alive t owner /\ MessageToAny m = Ok payload /\
      target = NewPID 0 RouterActorName (NodeId owner) /\
      request = mkRouteRequest (Some a) (ownerToProto owner) (Some payload) 0.
Proof.
  unfold prepareRoute. case_bool_decide as Hst; simpl; [|by intros [-> ->]].
  destruct cn; [by intros [-> ->]|]. intros (t1 & t2 & q & -> & H1 & H2)%runs_andThen.
  unfold newRouteRequest in H1. destruct (Validate a) eqn:Ev.
  { destruct H1 as [-> ->]. destruct H2 as [-> ->]. done. }
  apply runs_andThen in H1 as (t3 & t4 & [owner oerr] & -> & Hres & H1).
  assert (Hq : Forall (fun e => told e = None) t3) by by eapply resolve_attempts_told.
  assert (Hend : t4 = [] /\ t2 = []).
  { destruct oerr; [destruct H1 as [-> ->]; by destruct H2 as [-> ->]|].
    destruct (MessageToAny m); destruct H1 as [-> ->]; by destruct H2 as [-> ->]. }
  destruct Hend as [-> ->]. rewrite !app_nil_r. split; [done|]. intros target request ->.
  destruct oerr as [e|]; [destruct H1 as [_ ->]; by destruct H2|].
  destruct (MessageToAny m) as [payload|] eqn:Em; [|destruct H1 as [_ ->]; by destruct H2].
  destruct H1 as [_ ->]. destruct H2 as [_ [= -> ->]].
  split; [done|]. split; [done|]. split; [done|]. exists owner, payload.
  apply resolve_attempts_runs in Hres as [_ [Hal|[? _]]]; [|done]. done.
Qed.

(** C17: What any router actor on any chain of forwards hands to an actor for a
    request of Tell is the message that was told, addressed to the same actor id. *)
Theorem told_message_is_what_is_delivered `{!LawfulAnyPB M P} rt cn a m t target request n r' rt' t' err' m' :
  runs (Op:=rop) (Tell rt cn a (Some m)) t None ->
  (target, request) ∈ omap told t ->
  hops n request r' ->
  runs (routeMessage (A:=A) pid_text rt' (Some r')) t' err' ->
  m' ∈ omap delivered t' ->
  m' = m /\ actorIDFromProto (rq_ActorId r') = a /\ Validate a = None /\
  state (lifecycle rt) = StateStarted /\
  exists owner t0, target = NewPID 0 RouterActorName (NodeId owner) /\
    resolved_alive t0 owner /\ t = t0 ++ [Ev (CtxTell target (MRoute request)) None].
Proof.
  intros Ht Hin Hh Hr Hm. unfold Tell in Ht.
  apply runs_andThen in Ht as (t1 & t2 & q & -> & Hp & Ht).
  destruct q as [[target0 request0]|]; [|by destruct Ht].
  destruct Ht as (e & t3 & -> & Ht). destruct e; [by destruct Ht|]. destruct Ht as [-> _].
  apply prepareRoute_runs in Hp as [Hquiet Hp].
  destruct (Hp _ _ eq_refl) as (Hst & _ & Hv & owner & payload & Hal & Hpay & -> & ->).
  rewrite omap_app, (quiet_omap _ _ Hquiet) in Hin. simpl in Hin. apply list_elem_of_singleton in Hin as [= -> ->].
  destruct (hops_spec _ _ _ Hh) as (E1 & E2 & _); [done|]. simpl in E1, E2.
  apply routeMessage_runs in Hr as [Hj _].
  destruct (each_after_omap _ _ _ _ _ Hj Hm) as (past & [R o re] & He & Hf).
  destruct o; try done. destruct m0; try done. simpl in Hf. injection Hf as ->.
  destruct He as ((packed & Hpk & Hu) & _). rewrite E2 in Hpk. injection Hpk as <-.
  apply any_roundtrip in Hpay. split; [congruence|]. split; [by rewrite E1|]. split; [done|]. split; [done|].
  exists owner, t1. done.
Qed.

(** *** A directory that keeps no stale owners *)

(** One actor's owner in the directory, the members discovery knows, and what
    the placement strategy picks. *)
Section Honest.
Variables (members : string -> NodeInfo * bool) (pick : NodeInfo).

Definition honest (R : Set) (o : rop R) (s : option NodeInfo) : option NodeInfo * R :=
  match o in Router.rop _ _ _ _ _ R return option NodeInfo * R with
  | GetOwner _ => (s, match s with Some owner => Ok (owner, true) | None => Ok (no_node, false) end)
  | AcquireOwner _ candidate =>
    match s with
    | Some owner =>
      if bool_decide (NodeId owner = NodeId candidate) then (Some candidate, Ok (candidate, true))
      else (s, Ok (owner, false))
    | None => (Some candidate, Ok (candidate, true))
    end
  | DeleteOwner _ expected =>
    match s with
    | Some owner =>
      if bool_decide (NodeId owner = NodeId expected /\ InstanceId owner = InstanceId expected)
      then (None, Ok true) else (s, Ok false)
    | None => (s, Ok false)
    end
  | PickNode _ _ => (s, Ok pick)
  | MemberById id => (s, members id)
  | CtxTell _ _ => (s, None)
  | CtxAsk _ _ => (s, Err ErrActorContextNil)
  | CtxForward _ _ => (s, None)
  | Has _ => (s, false)
  | CallFactory _ _ => (s, (None, mkSpawnOptions "" [] 0))
  | SpawnActor _ _ => (s, Err ErrActorSystemNil)
  | LogError _ => (s, tt)
  end.

Definition is_alive (n : NodeInfo) : bool := bool_decide ((members (NodeId n)).1 = n).

Lemma placed_at_once rt strategy a n o e :
  placements rt !! Kind a = Some strategy -> is_alive pick = true ->
  exists t, interp honest (resolve_attempts rt (S n) a o e) None = (Some pick, t, (pick, None)).
Proof.
  intros Hp Ha. unfold is_alive in Ha. cbn -[bool_decide placementFor]. unfold placementFor, pickNode.
  rewrite Hp. cbn -[bool_decide]. rewrite Ha. eexists. reflexivity.
Qed.

(** Against a directory without stale owners resolveOwner always finds a live
    owner, replacing a dead one by the node placement picks. *)
Theorem resolveOwner_heals rt strategy a s :
  placements rt !! Kind a = Some strategy -> is_alive pick = true ->
  let expected := match s with Some owner => if is_alive owner then owner else pick | None => pick end in
  (interp honest (resolveOwner rt a) s).2 = (expected, None) /\
  (interp honest (resolveOwner rt a) s).1.1 = Some expected.
Proof.
  intros Hp Ha. unfold resolveOwner, maxOwnerResolveAttempts. destruct s as [owner|].
  - assert (E : forall n, resolve_attempts (P:=P) (F:=F) (A:=A) rt (S n) a no_node None =
      ltac:(let t := eval cbn [resolve_attempts] in (resolve_attempts (M:=M) (P:=P) (F:=F) (A:=A) rt (S n) a no_node None) in exact t)) by done.
    rewrite E. clear E. cbn -[bool_decide resolve_attempts]. unfold is_alive. destruct (bool_decide _); [done|].
    cbn -[bool_decide resolve_attempts]. rewrite (bool_decide_eq_true_2 (_ /\ _)) by done.
    cbn -[bool_decide resolve_attempts].
    destruct (placed_at_once rt strategy a 1 owner (Some (owner_is_dead owner)) Hp Ha) as [t ->]. done.
  - by destruct (placed_at_once rt strategy a 2 no_node None Hp Ha) as [t ->].
Qed.
End Honest.
End Traces.

(** ** Keeping the lease *)

Module Lease.
Import Owned.
Section Lease.
Context {A : Set}.

Definition timer_started (e : event oop) : option Z :=
  match e with Ev (CtxTicker interval) _ => Some interval | _ => None end.

(** The renewal timer of an owned actor starts once, at a third of the lease but no less than a second; without a lease there is none. *)
Theorem owner_renews_before_the_lease_lapses lease t id :
  runs Init (Ev LeaseTTL lease :: t) id ->
  (0 < lease -> exists interval, omap timer_started t = [interval] /\ Owned.Second <= interval /\
     (Owned.Second < lease -> interval < lease) /\
     (3 * Owned.Second <= lease -> 3 * interval <= lease < 3 * interval + 3)) /\
  (lease <= 0 -> omap timer_started t = []).
Proof.
  unfold Init, tryStartRenew. simpl. intros (r & t' & Heq & Hr).
  assert (lease = r /\ t = t') as [<- <-].
  { pose (f := fun e : event oop => match e with Ev LeaseTTL l => l | _ => 0 end).
    split; [by apply (f_equal (fun l => from_option f 0 (head l))) in Heq|by apply (f_equal tail) in Heq]. }
  case_bool_decide as Hl; simpl in Hr.
  - destruct Hr as (u & t2 & -> & -> & ->). split; [lia|done].
  - destruct Hr as (i & t2 & -> & u & t3 & -> & -> & ->). split; [intros _|lia]. simpl.
    eexists. split; [reflexivity|]. unfold Owned.Second in *. pose proof (Z.quot_div_nonneg lease 3).
    rewrite H by lia. clear H. pose proof (Z.div_mod lease 3 ltac:(lia)). pose proof (Z.mod_pos_bound lease 3 ltac:(lia)).
    destruct (decide (lease / 3 < 1000000000)); [rewrite bool_decide_eq_true_2 by done|rewrite bool_decide_eq_false_2 by done];
      split_and!; lia.
Qed.
End Lease.
End Lease.
