(* ===== verification/Activation.v ===== *)
(** * Routers, Redis and the actors they activate

    Router.v's router actors, one on every node, over the directories and the
    Redis of Directory.v: a call of the directory becomes the accesses it makes,
    the other calls act on the table of activated actors. Everything else that
    uses the directories (routers that look for owners, owned actors that renew
    or give up their lease, crashed nodes that do neither) and time go on in
    between. *)

From S2P Require Import Prelude Errors Actor Component Effects Placement Directory Router.

Section activation.
Context {M P St F A : Set} `{AnyPB M P}.
Abbreviation rop := (Router.rop M P St F A).
Abbreviation owned := (ownedActor (A := A)).
Variable pid_text : PID -> string.
Variables (prefix : string) (ttl : Z).
(** The routers of the nodes; node [c] uses the directory [c]. *)
Variable rt : nat -> Router St F.

(** ** Router actors over directories *)

Inductive aop : Set -> Type :=
| AtDirectory {R : Set} (o : Directory.op R) : aop R
| AtRouter {R : Set} (o : rop R) : aop R.

(** The interface OwnerDirectory, as RedisDirectory implements it; its first two
    methods answer with a node, the others with a bool. *)
Definition node_answer (r : res lerr answer) : res gerr (NodeInfo * bool) :=
  match r with
  | Ok (AOwner n b) => Ok (n, b)
  | Ok (ABool _) => Err (fail ErrNodeIdEmpty)
  | Err e => Err (fail e)
  end.
Definition bool_answer (r : res lerr answer) : res gerr bool :=
  match r with Ok (ABool b) | Ok (AOwner _ b) => Ok b | Err e => Err (fail e) end.

Fixpoint embed {B} (p : prog Directory.op B) : prog aop B :=
  match p with Ret b => Ret b | Do o k => Do (AtDirectory o) (fun r => embed (k r)) end.

Fixpoint lower {B} (p : prog rop B) : prog aop B :=
  match p with
  | Ret b => Ret b
  | Do o k =>
    match o in Router.rop _ _ _ _ _ R return (R -> prog aop B) -> prog aop B with
    | Router.GetOwner a => fun k => r <~ embed (Directory.GetOwner a); k (node_answer r)
    | Router.AcquireOwner a n => fun k => r <~ embed (Directory.AcquireOwner a n); k (node_answer r)
    | Router.DeleteOwner a n => fun k => r <~ embed (Directory.DeleteOwner a n); k (bool_answer r)
    | o => fun k => Do (AtRouter o) k
    end (fun r => lower (k r))
  end.

(** ** The cluster *)

(** What runs on the nodes, by node and name; the request that the router actor
    of a node is handling. *)
Record cluster := mkCluster {
  a_dir : World;
  active : gmap (nat * string) owned;
  routing : gmap nat (prog aop (option gerr)) }.
Definition start (n : nat) : cluster := mkCluster (fresh n) ∅ ∅.

(** What actor system, context and factories answer. *)
Record oracle := mkOracle { or_err : option gerr; or_pid : PID; or_made : option A * SpawnOptions ActorID }.



Definition router_op (c : nat) (e : oracle) {R : Set} (o : rop R) (t : gmap (nat * string) owned)
  : gmap (nat * string) owned * R :=
  match o in Router.rop _ _ _ _ _ R return gmap (nat * string) owned * R with
  | Has target => (t, bool_decide (is_Some (t !! (c, ActorName target))))
  | SpawnActor h options =>
    match or_err e, t !! (c, o_Name options) with
    | Some err, _ => (t, Err err)
    | None, Some _ => (t, Err (wrap (o_Name options +:+ ":") ErrNameExists))
    | None, None => (<[(c, o_Name options) := h]> t, Ok (or_pid e))
    end
  | CallFactory _ _ => (t, or_made e)
  | CtxTell _ _ => (t, or_err e)
  | CtxForward _ _ => (t, or_err e)
  | CtxAsk _ _ => (t, Err (default ErrActorContextNil (or_err e)))
  | PickNode _ _ => (t, Err (default ErrDiscoveryNil (or_err e)))
  | MemberById _ => (t, (no_node, false))
  | Router.GetOwner _ => (t, Err ErrOwnerDirectoryNil)
  | Router.AcquireOwner _ _ => (t, Err ErrOwnerDirectoryNil)
  | Router.DeleteOwner _ _ => (t, Err ErrOwnerDirectoryNil)
  | LogError _ => (t, tt)
  end.

Inductive act :=
| Other (a : Directory.act)                            (* anyone at a directory, and time *)
| Receive (c : nat) (request : option (RouteRequest P)) (* a request for a router actor *)
| Proceed (c : nat) (f : fate) (e : oracle)            (* its router actor makes one access *)
| Ends (c : nat) (name : string).                      (* an actor stops *)

Definition idle (w : cluster) (c : nat) : bool :=
  match routing w !! c with Some (Do _ _) => false | _ => true end.

Definition access (w : cluster) (c : nat) (f : fate) (e : oracle) {R : Set} (o : aop R)
  : World * gmap (nat * string) owned * R :=
  match o in aop R return World * gmap (nat * string) owned * R with
  | AtDirectory o => let '(d, r) := do_fated prefix ttl (a_dir w) c f o in (d, active w, r)
  | AtRouter o => let '(t, r) := router_op c e o (active w) in (a_dir w, t, r)
  end.

Definition step (w : cluster) (a : act) : cluster :=
  match a with
  | Other a => mkCluster (Directory.step prefix ttl (a_dir w) a) (active w) (routing w)
  | Receive c request =>
    if idle w c
    then mkCluster (a_dir w) (active w) (<[c := lower (routeMessage pid_text (rt c) request)]> (routing w))
    else w
  | Proceed c f e =>
    match routing w !! c with
    | Some (Do o k) => let '(d, t, r) := access w c f e o in mkCluster d t (<[c := k r]> (routing w))
    | _ => w
    end
  | Ends c name => mkCluster (a_dir w) (delete (c, name) (active w)) (routing w)
  end.
Definition run (w : cluster) (acts : list act) : cluster := fold_left step acts w.

(** Ids whose keys are not those of another id's epoch. *)
Definition proper (a : act) : bool :=
  match a with
  | Other a => plain_act a
  | Receive c (Some r) => plain (ActorID_String (actorIDFromProto (rq_ActorId r)))
  | _ => true
  end.

(** ** What a router actor may do *)

(** An actor on node [c] runs for an owner on that node to which its id was granted. *)
Definition entitled (c : nat) (h : past) (o : owned) : Prop :=
  (exists e, Granted e (ow_owner o) ∈ h (ActorID_String (ow_actorId o))) /\
  NodeId (ow_owner o) = NodeId (local (rt c)).

Definition may (c : nat) (h : past) {R : Set} (o : aop R) : Prop :=
  match o with
  | AtDirectory o => op_pre h o
  | AtRouter (SpawnActor o options) => o_Name options = Name (ow_actorId o) /\ entitled c h o
  | AtRouter _ => True
  end.
Definition heard (h : past) {R : Set} (o : aop R) : R -> Prop :=
  match o in aop R return R -> Prop with AtDirectory o => op_post h o | AtRouter _ => fun _ => True end.

Fixpoint sane {B} (c : nat) (h : past) (p : prog aop B) : Prop :=
  match p with
  | Ret _ => True
  | Do o k => may c h o /\ forall h' r, extends h h' -> heard h' o r -> sane c h' (k r)
  end.

Lemma entitled_extends c h h' o : extends h h' -> entitled c h o -> entitled c h' o.
Proof. intros He [(e & Hg) Hn]. split; [|done]. exists e. by apply He. Qed.

Lemma may_extends c h h' {R : Set} (o : aop R) : extends h h' -> may c h o -> may c h' o.
Proof.
  intros He. destruct o as [R o|R o]; simpl; [by apply op_pre_extends|].
  destruct o; try done. intros [Hn Ho]. split; [done|by eapply entitled_extends].
Qed.

Lemma sane_extends {B} c h h' (p : prog aop B) : extends h h' -> sane c h p -> sane c h' p.
Proof.
  intros He. destruct p as [b|R o k]; [done|]. intros [Hm Hk]. split; [by eapply may_extends|].
  intros h2 r He2. apply Hk. by apply (extends_trans _ h').
Qed.

Lemma sane_embed {B B'} c h (p : prog Directory.op B) (Q : past -> B -> Prop) (k : B -> prog aop B') :
  good Q h p -> (forall h' b, extends h h' -> Q h' b -> sane c h' (k b)) -> sane c h (andThen (embed p) k).
Proof.
  revert h. induction p as [b|R o f IH]; intros h Hg Hk; simpl in *.
  - apply Hk; [apply extends_refl|done].
  - destruct Hg as [Hp Hf]. split; [done|]. intros h' r He Hr. apply IH; [by apply Hf|].
    intros h2 b He2. apply Hk. by apply (extends_trans _ h').
Qed.
Lemma sane_delete {B} c h a owner (k : res lerr answer -> prog aop B) :
  plain (ActorID_String a) = true -> (forall h' r, sane c h' (k r)) -> sane c h (andThen (embed (Directory.DeleteOwner a owner)) k).
Proof. intros Hp Hk. eapply sane_embed; [by apply (handler_good (RDelete a owner))|]. auto. Qed.

(** The router actor activates only actors granted to its node. *)
Lemma activation_sane c h a owner payload :
  plain (ActorID_String a) = true -> (exists e, Granted e owner ∈ h (ActorID_String a)) ->
  NodeId owner = NodeId (local (rt c)) ->
  sane c h (lower (activated <~ activateActor (rt c) a owner;
        match activated with
        | Err err =>
          deleted <-! Router.DeleteOwner a owner;
          match deleted with
          | Err _ => do! LogError "logical actor owner cleanup failed"; Ret (Some (wrap "activate actor :" err))
          | Ok _ => Ret (Some (wrap "activate actor :" err))
          end
        | Ok actorPID =>
          err <-! CtxForward actorPID (MPlain payload);
          match err with
          | Some err => Ret (Some (wrap ("forward activate actor" +:+ pid_text actorPID +:+ " :") err))
          | None => Ret None
          end
        end)).
Proof.
  intros Hp Hg Hn.
  assert (Hfail : forall h err, sane c h (lower (deleted <-! Router.DeleteOwner a owner;
          match deleted with
          | Err _ => do! LogError "logical actor owner cleanup failed"; Ret (Some (wrap "activate actor :" err))
          | Ok _ => Ret (Some (wrap "activate actor :" err))
          end))).
  { intros h0 err. cbn [lower]. apply sane_delete; [done|]. intros h' r. by destruct (bool_answer r). }
  unfold activateActor. destruct (factories (rt c) !! Kind a) as [factory|]; [|apply Hfail].
  cbn [andThen lower sane may]. split; [done|]. intros h1 [[handler|] options] He1 _; [|apply Hfail].
  cbn [andThen lower sane may]. split.
  { split; [done|]. split; [|done]. destruct Hg as [e Hg]. exists e. by apply He1. }
  intros h2 [pid|err] He2 _; [|apply Hfail]. cbn [andThen lower sane may]. split; [done|]. by intros h3 [err|] _ _.
Qed.

Lemma route_sane c h request :
  proper (Receive c request) = true -> sane c h (lower (routeMessage pid_text (rt c) request)).
Proof.
  destruct request as [request|]; [|done]. simpl. intros Hp. set (a := actorIDFromProto (rq_ActorId request)) in *.
  destruct (rq_Message request) as [packed|]; [|done]. destruct (UnmarshalNew packed) as [payload|]; [|done].
  case_bool_decide; [done|]. cbn [lower sane may]. split; [done|]. intros h1 has _ _. destruct has.
  { cbn [lower sane may]. split; [done|]. by intros h2 [err|] _ _. }
  cbn [lower]. eapply sane_embed; [by apply (handler_good (RAcquire a (local (rt c))))|].
  intros h2 r He2 Hr. destruct r as [[owner acquired|]|]; cbn [node_answer]; try done.
  destruct Hr as (e & Hg & Hown).
  destruct (negb acquired && negb (isLocal (rt c) owner)) eqn:Ec.
  - unfold forwardToOwner. cbn [lower sane may]. split; [done|]. by intros h3 [err|] _ _.
  - apply activation_sane; [done|by exists e|]. destruct acquired; [by rewrite Hown|].
    by apply negb_false_iff, bool_decide_eq_true in Ec.
Qed.

(** ** The invariant of the cluster *)

Record activation_inv (w : cluster) : Prop := {
  av_dir : inv prefix ttl (a_dir w);
  av_active : forall c name o, active w !! (c, name) = Some o ->
    name = Name (ow_actorId o) /\ entitled c (deeds (a_dir w)) o;
  av_routing : forall c p, routing w !! c = Some p -> sane c (deeds (a_dir w)) p }.

Lemma activation_start n : activation_inv (start n).
Proof. split; [apply fresh_inv|done|done]. Qed.

(** Later deeds keep what the routers may do. *)
Lemma activation_extends w d :
  activation_inv w -> inv prefix ttl d -> extends (deeds (a_dir w)) (deeds d) ->
  activation_inv (mkCluster d (active w) (routing w)).
Proof.
  intros Hi Hd He. split; [done| |].
  - intros c name o Ho. destruct (av_active _ Hi c name o Ho). split; [done|by eapply entitled_extends].
  - intros c p Hp. eapply sane_extends; [exact He|by apply (av_routing _ Hi)].
Qed.

Lemma router_op_inv w c e {R : Set} (o : rop R) :
  activation_inv w -> may c (deeds (a_dir w)) (AtRouter o) ->
  activation_inv (mkCluster (a_dir w) (router_op c e o (active w)).1 (routing w)).
Proof.
  intros Hi Hm. destruct o; try (by split; apply Hi). simpl. destruct (or_err e); [by split; apply Hi|].
  destruct (active w !! _); [by split; apply Hi|]. split; [apply Hi| |apply Hi].
  intros c' name o'. simpl. intros [[[= <- <-] <-]|[_ Ho]]%lookup_insert_Some; [done|].
  by apply (av_active _ Hi).
Qed.

(** One access keeps the invariant and moves the directory as Directory.v says. *)
Lemma access_inv w c f e {R : Set} (o : aop R) :
  activation_inv w -> may c (deeds (a_dir w)) o ->
  let '(d, t, r) := access w c f e o in
  activation_inv (mkCluster d t (routing w)) /\ moves prefix ttl (a_dir w) d /\
  extends (deeds (a_dir w)) (deeds d) /\ heard (deeds d) o r.
Proof.
  intros Hi Hm. destruct o as [R o|R o]; simpl in *.
  - destruct (do_fated_accessed prefix ttl (a_dir w) c f o (av_dir _ Hi) Hm) as [Ha Hpost].
    destruct (do_fated _ _ _ _ _ _) as [d r]. simpl in *. destruct (Ha) as [Hmv _ He _].
    split; [|done]. apply activation_extends; [done| |done]. by eapply accessed_inv; [apply Hi|].
  - pose proof (router_op_inv w c e o Hi Hm) as Hi'. destruct (router_op c e o (active w)) as [t r].
    split; [done|]. split; [by apply moves_refl, Hi|]. split; [apply extends_refl|done].
Qed.

Lemma activation_routing w c p :
  activation_inv w -> sane c (deeds (a_dir w)) p ->
  activation_inv (mkCluster (a_dir w) (active w) (<[c := p]> (routing w))).
Proof.
  intros Hi Hp. split; [apply Hi|apply Hi|]. intros c' p'. simpl.
  intros [[<- <-]|[_ Hl]]%lookup_insert_Some; [done|by apply (av_routing _ Hi)].
Qed.

Lemma activation_step w a :
  activation_inv w -> proper a = true ->
  activation_inv (step w a) /\ moves prefix ttl (a_dir w) (a_dir (step w a)).
Proof.
  intros Hi Hp. pose proof (moves_refl prefix ttl _ (av_dir _ Hi)) as Hsame.
  destruct a as [a|c request|c f e|c name]; cbn [step].
  - destruct (dir_step_inv prefix ttl (a_dir w) a (av_dir _ Hi) Hp) as (Hd & Hm & He).
    split; [by apply activation_extends|done].
  - destruct (idle w c); [|by split]. split; [|done]. apply activation_routing; [done|by apply route_sane].
  - destruct (routing w !! c) as [[b|R o k]|] eqn:Hc; [by split| |by split].
    destruct (av_routing _ Hi c _ Hc) as [Hm Hk]. pose proof (access_inv w c f e o Hi Hm) as Ha.
    destruct (access w c f e o) as [[d t] r]. destruct Ha as (Hi' & Hmv & He & Hr). split; [|done].
    apply (activation_routing _ c (k r)) in Hi'; [done|by apply Hk].
  - split; [|done]. split; [apply Hi| |apply Hi]. intros c' n o. simpl. intros [_ Ho]%lookup_delete_Some.
    by apply (av_active _ Hi).
Qed.

Lemma activation_run w acts :
  activation_inv w -> forallb proper acts = true -> activation_inv (run w acts).
Proof.
  revert w. induction acts as [|a acts IH]; intros w Hi Hp; [done|]. simpl in *.
  apply andb_true_iff in Hp as [H1 H2]. apply IH; [|done]. by apply activation_step.
Qed.

(** ** Ownership without a gap *)

(** Once granted, the ownership of the id neither lapses nor is released. *)
Definition kept_now (id : string) (w : cluster) : bool :=
  match deeds (a_dir w) id with
  | [] => true
  | _ => bool_decide (is_Some (redis_get (now (a_dir w)) (redis (a_dir w)) (owner_key prefix id)))
  end.
Fixpoint kept (id : string) (w : cluster) (acts : list act) : bool :=
  kept_now id w && match acts with [] => true | a :: acts => kept id (step w a) acts end.

(** All that was ever granted went to one node. *)
Definition one_node (ds : list deed) : Prop :=
  forall d d', d ∈ ds -> d' ∈ ds -> NodeId (deed_node d) = NodeId (deed_node d').

Lemma one_node_push d ds :
  (forall d', d' ∈ ds -> NodeId (deed_node d') = NodeId (deed_node d)) -> one_node (d :: ds).
Proof.
  intros Hd d1 d2. rewrite !elem_of_cons. intros [->|H1] [->|H2]; try done.
  - symmetry. by apply Hd.
  - by apply Hd.
  - by rewrite (Hd _ H1), (Hd _ H2).
Qed.

Lemma kept_one_node w w' id :
  activation_inv w -> moves prefix ttl (a_dir w) (a_dir w') -> plain id = true ->
  kept_now id w = true -> kept_now id w' = true ->
  one_node (deeds (a_dir w) id) -> one_node (deeds (a_dir w') id).
Proof.
  intros Hi [Hn Hm] Hid Hk Hk' Hone. destruct (Hm id Hid) as [Hc _].
  pose proof (inv_ids _ _ _ (av_dir _ Hi) id Hid) as Hag. unfold kept_now in Hk, Hk'.
  assert (Hown : deeds (a_dir w') id = [] \/ redis (a_dir w') !! owner_key prefix id <> None).
  { destruct (deeds (a_dir w') id); [by left|right]. apply bool_decide_eq_true in Hk' as [v Hv].
    intros E. unfold redis_get in Hv. by rewrite E in Hv. }
  clear Hk'. destruct Hc as [|n Hfree Hlt|c dl Ho Ht|n Ho Hlt|Hlt]; try done;
    [|by destruct Hown].
  destruct (deeds (a_dir w) id) as [|d ds] eqn:Eds.
  { apply one_node_push. by intros d' ?%not_elem_of_nil. }
  apply bool_decide_eq_true in Hk as [v Hv].
  destruct (get_owner _ _ _ _ _ _ Hag v Hv) as (en & o & e & l & Hen & Hl & Hval & -> & Hds).
  apply one_node_push. intros d' Hd'. change (NodeId (deed_node d') = NodeId n).
  rewrite <- (Hfree en o Hen Hl Hval). rewrite Eds in Hds. injection Hds as -> ->.
  by rewrite (Hone d' (Granted e o)) by (done || apply list_elem_of_here).
Qed.

Lemma kept_run_one_node w acts id :
  activation_inv w -> forallb proper acts = true -> plain id = true -> kept id w acts = true ->
  one_node (deeds (a_dir w) id) -> one_node (deeds (a_dir (run w acts)) id).
Proof.
  revert w. induction acts as [|a acts IH]; intros w Hi Hp Hid Hk Hone; [done|]. simpl in *.
  apply andb_true_iff in Hp as [H1 H2]. apply andb_true_iff in Hk as [Hk1 Hk2].
  destruct (activation_step w a Hi H1) as [Hi' Hm]. apply IH; try done. apply (kept_one_node w); try done.
  by destruct acts; apply andb_true_iff in Hk2 as [? _].
Qed.

(** Every running logical actor was granted to its node: the router of a node starts
    an actor only for an owner on that node to which Redis granted the id, whatever
    other routers, lost commands, caches and leases do. *)
Theorem activated_actors_were_granted n acts c name o :
  forallb proper acts = true -> active (run (start n) acts) !! (c, name) = Some o ->
  name = Name (ow_actorId o) /\ NodeId (ow_owner o) = NodeId (local (rt c)) /\
  exists e, Granted e (ow_owner o) ∈ deeds (a_dir (run (start n) acts)) (ActorID_String (ow_actorId o)).
Proof.
  intros Hp Ho. pose proof (activation_run _ acts (activation_start n) Hp) as Hi.
  destruct (av_active _ Hi c name o Ho) as (Hn & Hg & Hl). done.
Qed.

(** While the ownership of a logical actor neither lapses nor is released, a node
    that runs the actor is the only one: however the router actors' requests, their
    accesses to Redis, lost commands and other calls of the directories interleave,
    no node with another id runs it. *)
Theorem one_activation_while_owned n acts a c1 c2 o :
  forallb proper acts = true -> plain (ActorID_String a) = true ->
  kept (ActorID_String a) (start n) acts = true ->
  active (run (start n) acts) !! (c1, Name a) = Some o ->
  NodeId (local (rt c1)) <> NodeId (local (rt c2)) ->
  active (run (start n) acts) !! (c2, Name a) = None.
Proof.
  intros Hp Hid Hk H1 Hne. pose proof (activation_run _ acts (activation_start n) Hp) as Hi.
  destruct (active _ !! (c2, Name a)) as [o2|] eqn:H2; [|done]. destruct Hne.
  destruct (av_active _ Hi _ _ _ H1) as (E1%app_string_inj & [e1 G1] & <-).
  destruct (av_active _ Hi _ _ _ H2) as (E2%app_string_inj & [e2 G2] & <-).
  rewrite <- E1 in G1. rewrite <- E2 in G2.
  exact (kept_run_one_node _ acts _ (activation_start n) Hp Hid Hk
    (fun d d' Hd => match not_elem_of_nil d Hd with end) _ _ G1 G2).
Qed.
End activation.
