(* ===== verification/RouterDemo.v ===== *)
(** * The router at concrete inputs

    Messages are numbers packed as they are; the router of node "b" runs against
    the directory that keeps no stale owners, and against the Redis directory of
    Directory.v. *)

From S2P Require Import Prelude Errors Actor Component Effects Placement Directory Router.

#[export] Instance demo_pb : AnyPB nat nat :=
  { MessageToAny m := match m with Some m => Ok m | None => Err (ESentinel "nil") end; UnmarshalNew p := Ok p }.
#[export] Instance demo_pb_lawful : LawfulAnyPB nat nat.
Proof. split. intros m p. simpl. congruence. Qed.

Definition started : Controller := mkController StateStarted true true false.
Definition player : ActorID := mkActorID "player" "1".

(** The router of node b; its only strategy and factory are number 0. *)
Definition router_b : Router nat nat :=
  mkRouter node_b "b" {["player" := 0%nat]} {["player" := 0%nat]} (Some (NewPID 1 RouterActorName "b")) started.

Definition members (id : string) : NodeInfo * bool :=
  if bool_decide (id = "a") then (node_a, true)
  else if bool_decide (id = "b") then (node_b, true) else (no_node, false).

Definition no_text (_ : PID) : string := "".
Definition demo_honest := honest (M:=nat) (P:=nat) (St:=nat) (F:=nat) (A:=nat) members node_b.

Definition request0 : RouteRequest nat := mkRouteRequest (Some player) (Some ("a", "1")) (Some 42%nat) 0.

(** Node a owns the actor: node b forwards the request. *)
Definition forwarding := interp demo_honest (routeMessage no_text router_b (Some request0)) (Some node_a).

Lemma routeMessage_is_justified_witness :
  each_after (justified router_b request0) [] forwarding.1.2 /\
  (forwarding.2 = None -> exists t' e, forwarding.1.2 = t' ++ [e] /\ handed_over e = true /\
     Forall (fun e => handed_over e = false) t').
Proof.
  apply (routeMessage_is_justified no_text router_b request0).
  apply (interp_runs demo_honest _ (Some node_a) forwarding.1.1). vm_compute. reflexivity.
Defined.

Definition request1 : RouteRequest nat := mkRouteRequest (Some player) (Some ("a", "1")) (Some 42%nat) 1.

Lemma one_hop : hops (St:=nat) (F:=nat) (A:=nat) no_text 1 request0 request1.
Proof.
  apply (hops_S _ _ _ request1); [|apply hops_O].
  exists router_b, forwarding.1.2, forwarding.2. split.
  - apply (interp_runs demo_honest _ (Some node_a) forwarding.1.1). vm_compute. reflexivity.
  - vm_compute. apply list_elem_of_here.
Qed.

Lemma forwarding_is_bounded_witness :
  (1 <= 3)%nat /\ rq_ForwardCount request1 = rq_ForwardCount request0 + Z.of_nat 1 /\
  rq_ActorId request1 = rq_ActorId request0 /\ rq_Message request1 = rq_Message request0.
Proof.
  apply (forwarding_is_bounded (St:=nat) (F:=nat) (A:=nat) no_text 1 request0 request1).
  - exact one_hop.
  - vm_compute. discriminate.
Defined.

(** A dead owner is replaced. *)
Definition dead : NodeInfo := mkNodeInfo "a" "player" "0".
Definition resolving := interp demo_honest (resolveOwner router_b player) (Some dead).

Lemma resolved_owner_is_alive_witness :
  (1 <= gets resolving.1.2 <= 3)%nat /\
  exists t' b, resolving.1.2 = t' ++ [Ev (MemberById (NodeId node_b)) (node_b, b)].
Proof.
  apply (resolved_owner_is_alive router_b player resolving.1.2 node_b None).
  apply (interp_runs demo_honest _ (Some dead) resolving.1.1). vm_compute. reflexivity.
Defined.

Lemma resolveOwner_heals_witness :
  (interp demo_honest (resolveOwner router_b player) (Some dead)).2 = (node_b, None) /\
  (interp demo_honest (resolveOwner router_b player) (Some dead)).1.1 = Some node_b.
Proof.
  apply (resolveOwner_heals (M:=nat) (P:=nat) (F:=nat) (A:=nat) members node_b router_b 0%nat player (Some dead));
    vm_compute; reflexivity.
Defined.

(** Node b tells the actor 42, node a's router actor gets it forwarded. *)
Definition telling := interp demo_honest (Tell router_b false player (Some 42%nat)) None.
Definition request_b : RouteRequest nat := mkRouteRequest (Some player) (Some ("b", "2")) (Some 42%nat) 0.
Definition actor_here (R : Set) (o : rop nat nat nat nat nat R) (s : option NodeInfo) : option NodeInfo * R :=
  match o in rop _ _ _ _ _ R return option NodeInfo * R with
  | Has _ => (s, true)
  | o => demo_honest _ o s
  end.
Definition local_delivery := interp actor_here (routeMessage no_text router_b (Some request_b)) None.

Lemma told_message_is_what_is_delivered_witness :
  42%nat = 42%nat /\ actorIDFromProto (rq_ActorId request_b) = player /\ Validate player = None /\
  state (lifecycle router_b) = StateStarted /\
  exists owner t0, NewPID 0 RouterActorName "b" = NewPID 0 RouterActorName (NodeId owner) /\
    resolved_alive t0 owner /\
    telling.1.2 = t0 ++ [Ev (CtxTell (NewPID 0 RouterActorName "b") (MRoute request_b)) None].
Proof.
  apply (told_message_is_what_is_delivered no_text router_b false player 42%nat telling.1.2
           (NewPID 0 RouterActorName "b") request_b 0 request_b router_b local_delivery.1.2 local_delivery.2 42%nat).
  - apply (interp_runs demo_honest _ None telling.1.1). vm_compute. reflexivity.
  - vm_compute. apply list_elem_of_here.
  - apply hops_O.
  - apply (interp_runs actor_here _ None local_delivery.1.1). vm_compute. reflexivity.
  - vm_compute. apply list_elem_of_here.
Defined.

Definition lease_30s (R : Set) (o : Owned.oop R) (s : unit) : unit * R :=
  match o in Owned.oop R return unit * R with
  | Owned.LeaseTTL => (s, 30000000000)
  | Owned.RenewOwner _ _ | Owned.DeleteOwner _ _ => (s, Ok true)
  | Owned.CtxTicker _ => (s, 7)
  | Owned.CtxStopTimer _ | Owned.Log _ | Owned.InnerInit | Owned.InnerDestroy => (s, tt)
  end.

Lemma owner_renews_before_the_lease_lapses_witness :
  (0 < 30000000000 -> exists interval,
     omap Lease.timer_started [Ev (Owned.CtxTicker 10000000000) 7; Ev Owned.InnerInit tt] = [interval] /\
     Owned.Second <= interval /\ (Owned.Second < 30000000000 -> interval < 30000000000) /\
     (3 * Owned.Second <= 30000000000 -> 3 * interval <= 30000000000 < 3 * interval + 3)) /\
  (30000000000 <= 0 -> omap Lease.timer_started [Ev (Owned.CtxTicker 10000000000) 7; Ev Owned.InnerInit tt] = []).
Proof.
  apply (Lease.owner_renews_before_the_lease_lapses 30000000000
           [Ev (Owned.CtxTicker 10000000000) 7; Ev Owned.InnerInit tt] 7).
  apply (interp_runs lease_30s _ tt tt). vm_compute. reflexivity.
Defined.

(** ** The router over the Redis directory *)

(** Node [c]'s directory: its operations run on the shared world. *)
Definition on_dir {B} (c : nat) (ttl : Z) (p : prog Directory.op (res lerr answer)) (view : answer -> B) (w : World)
  : World * res gerr B :=
  let '(w, _, r) := interp (fun (R : Set) (o : Directory.op R) w => do_op "" ttl w c o) p w in
  (w, match r with Ok a => Ok (view a) | Err e => Err (fail e) end).

Definition as_owner (a : answer) : NodeInfo * bool := match a with AOwner n b => (n, b) | ABool b => (no_node, b) end.
Definition as_bool (a : answer) : bool := match a with AOwner _ b | ABool b => b end.

Definition over_redis (c : nat) (ttl : Z) (alive : string -> NodeInfo * bool) (pick : NodeInfo)
  (R : Set) (o : rop nat nat nat nat nat R) (w : World) : World * R :=
  match o in rop _ _ _ _ _ R return World * R with
  | GetOwner a => on_dir c ttl (Directory.GetOwner a) as_owner w
  | AcquireOwner a n => on_dir c ttl (Directory.AcquireOwner a n) as_owner w
  | DeleteOwner a n => on_dir c ttl (Directory.DeleteOwner a n) as_bool w
  | PickNode _ _ => (w, Ok pick)
  | MemberById id => (w, alive id)
  | o => (w, (honest alive pick _ o None).2)
  end.

(** Node a took the actor, node b cached that owner 29 s later, node a died;
    its lease has lapsed. *)
Definition lapsed : World :=
  run "" Example.ttl (fresh 2)
    (Example.complete 0 0 (RAcquire player node_a) ++ [Tick 29000] ++
     Example.complete 1 1 (RGet player) ++ [Tick 2000]).
Definition only_b (id : string) : NodeInfo * bool :=
  if bool_decide (id = "b") then (node_b, true) else (no_node, false).

(** Nobody owns the actor and node b is there to take it, but all three
    attempts of node b read the dead owner from its cache. *)
Lemma lapsed_owner_is_not_replaced :
  redis_get (now lapsed) (redis lapsed) (owner_key "" (ActorID_String player)) = None /\
  (interp (over_redis 1 Example.ttl only_b node_b) (resolveOwner router_b player) lapsed).2
  = (node_a, Some (owner_is_dead node_a)).
Proof. vm_compute. split; reflexivity. Qed.

(** While the lease still runs, the same router replaces the dead owner. *)
Definition unlapsed : World :=
  run "" Example.ttl (fresh 2)
    (Example.complete 0 0 (RAcquire player node_a) ++ Example.complete 1 1 (RGet player)).
Lemma leased_dead_owner_is_replaced :
  (interp (over_redis 1 Example.ttl only_b node_b) (resolveOwner router_b player) unlapsed).2 = (node_b, None).
Proof. vm_compute. reflexivity. Qed.
