(* ===== verification/ActivationDemo.v ===== *)
(** * Activation at concrete inputs

    The routers of nodes "a" and "b" of RouterDemo.v over one Redis: both get a
    request for the same logical actor. *)

From S2P Require Import Prelude Errors Actor Component Effects Placement Directory Router Activation RouterDemo.

Definition router_a : Router nat nat :=
  mkRouter node_a "a" {["player" := 0%nat]} {["player" := 0%nat]} (Some (NewPID 1 RouterActorName "a")) started.
Definition routers (c : nat) : Router nat nat := if bool_decide (c = 0%nat) then router_a else router_b.

(** The factory makes an actor; the actor system starts it. *)
Definition willing : oracle (A:=nat) :=
  mkOracle None (NewPID 2 (Name player) "a") (Some 7%nat, mkSpawnOptions "" [] 0).
(** A router actor handles [request0] to its end. *)
Definition served (c : nat) : list (Activation.act (P:=nat) (A:=nat)) :=
  Receive c (Some request0) :: replicate 8 (Proceed c Delivered willing).

Definition after (acts : list (Activation.act (P:=nat) (A:=nat))) :=
  Activation.run (M:=nat) (St:=nat) no_text "" Example.ttl routers (start 2) acts.
Definition running (acts : list (Activation.act (P:=nat) (A:=nat))) : list (nat * string) :=
  (map_to_list (active (after acts))).*1.

(** The routers' accesses alternate; node a's script runs first, and node b
    forwards what it was sent. *)
Definition race : list (Activation.act (P:=nat) (A:=nat)) :=
  [Receive 0 (Some request0); Receive 1 (Some request0)] ++
  concat (replicate 8 [Proceed 0 Delivered willing; Proceed 1 Delivered willing]).

Example race_ends : running race = [(0%nat, Name player)] /\ idle (after race) 0 = true /\ idle (after race) 1 = true.
Proof. vm_compute. repeat split; reflexivity. Qed.

Lemma one_activation_while_owned_witness :
  active (after race) !! (1%nat, Name player) = None.
Proof.
  apply (one_activation_while_owned (M:=nat) (St:=nat) no_text "" Example.ttl routers 2 race player 0 1
           (mkOwned 7%nat player node_a)); [vm_compute; reflexivity..|vm_compute; discriminate].
Defined.

Lemma activated_actors_were_granted_witness :
  Name player = Name player /\ "a" = NodeId node_a /\
  exists e, Granted e node_a ∈ deeds (a_dir (after race)) (ActorID_String player).
Proof.
  apply (activated_actors_were_granted (M:=nat) (St:=nat) no_text "" Example.ttl routers 2 race 0 (Name player)
           (mkOwned 7%nat player node_a)); vm_compute; reflexivity.
Defined.

(** Nobody renews the lease: once it has lapsed node b is granted the actor and
    starts it, and node a still runs its own. *)
Definition lapse : list (Activation.act (P:=nat) (A:=nat)) := served 0 ++ [Other (Tick 30000)] ++ served 1.

Lemma lapsed_lease_two_activations :
  active (after lapse) !! (0%nat, Name player) = Some (mkOwned 7%nat player node_a) /\
  active (after lapse) !! (1%nat, Name player) = Some (mkOwned 7%nat player node_b) /\
  kept no_text "" Example.ttl routers (ActorID_String player) (start 2) lapse = false.
Proof. vm_compute. repeat split; reflexivity. Qed.
