(* ===== verification/Transport.v ===== *)
(** * cluster/transport/nettransport: the node-to-node transport

    handler.go, peer.go, peer_manager.go and transport.go, with DialTCP of
    network/tcp_client.go. Every method is a program that stops at each access
    to what the goroutines of one node share: a peer's atomic state, its fields
    under its mutex, the peer table under its lock, a connection. [exec] makes
    one such access, and the pool of Threads.v interleaves the goroutines of
    all connections, of their OnClose callbacks, and of all callers. *)

From stdpp Require Import pretty.
From S2P Require Import Prelude Protocol Conn Errors Effects Threads.

(** ** transport/typs.go *)

Inductive PeerState := PeerStateIdle | PeerStateHandshaking | PeerStateConnected.
#[export] Instance PeerState_eq_dec : EqDecision PeerState.
Proof. solve_decision. Defined.
Definition PeerState_num (s : PeerState) : Z :=
  match s with PeerStateIdle => 0 | PeerStateHandshaking => 1 | PeerStateConnected => 2 end.

(** ** handler.go: the constants and errors *)

Definition clusterMessageCommand : Z := 1.
Definition clusterMessageActHello : Z := 1.
Definition clusterMessageActData : Z := 2.
Definition clusterMessageActHeartbeat : Z := 3.

Definition ErrPeerState : gerr := ESentinel "remote peer state error".
Definition ErrConnHelperNil : gerr := ESentinel "conn peer is nil".
Definition ErrHandlerIsNil : gerr := ESentinel "rpc business handler is nil".
Definition ErrPeerNotConnected : gerr := ESentinel "rpc peer is not connected".
Definition ErrNetConnectionClosed : gerr := ESentinel "connection is closed".
Definition ErrCanceled : gerr := ESentinel "context canceled".

(** [fmt.Errorf("...state:%v %w", state, ErrPeerState)] *)
Definition state_error (prefix : string) (s : PeerState) : gerr :=
  wrap (prefix +:+ "state:" +:+ pretty (PeerState_num s) +:+ " ") ErrPeerState.

Definition hello_frame (id : string) : MessageFrame :=
  NewMessageFrame clusterMessageCommand clusterMessageActHello 0 (bytes_of_string id).
Definition data_frame (data : list Z) : MessageFrame :=
  NewMessageFrame clusterMessageCommand clusterMessageActData 0 data.
Definition heartbeat_frame : MessageFrame :=
  NewMessageFrame clusterMessageCommand clusterMessageActHeartbeat 0 [].

Definition is_hello (f : MessageFrame) : bool :=
  frame_ID f =? CmdAct clusterMessageCommand clusterMessageActHello.
Definition is_data (f : MessageFrame) : bool :=
  frame_ID f =? CmdAct clusterMessageCommand clusterMessageActData.
Definition is_heartbeat (f : MessageFrame) : bool :=
  frame_ID f =? CmdAct clusterMessageCommand clusterMessageActHeartbeat.

(** ** The state of one node's transport *)

(** peer.go *)
Record peer := mkPeer {
  remoteId : string;
  expected : string;
  p_state : PeerState; (* atomic *)
  p_conn : option N
}.
Definition newPeer : peer := mkPeer "" "" PeerStateIdle None.
Definition newPeerWithId (expected : string) : peer := mkPeer "" expected PeerStateIdle None.
Definition getRemoteId (p : peer) : string :=
  if bool_decide (remoteId p = "") then expected p else remoteId p.
Definition bindRemoteId (p : peer) (id : string) : peer * option gerr :=
  if negb (bool_decide (expected p = "")) && negb (bool_decide (id = expected p))
  then (p, Some (ESentinel "remote peer id mismatch"))
  else (mkPeer id (expected p) (p_state p) (p_conn p), None).
Definition setConn (p : peer) (c : N) : peer := mkPeer (remoteId p) (expected p) (p_state p) (Some c).
Definition set_peer_state (p : peer) (s : PeerState) : peer := mkPeer (remoteId p) (expected p) s (p_conn p).

(** What a node sees of a [network.Connection]: its role, its user data, whether
    runStart returned, how far its callbacks are, and whether it is closed. The
    last two lists record the frames given to OnMessage and what the business
    handler was called with. *)
Record connection := mkConnection {
  c_role : ConnectionRole;
  c_user : option N;
  c_running : bool;
  c_started : bool; (* OnConnected was called *)
  c_ready : bool;   (* ... and returned nil *)
  c_busy : bool;    (* a callback runs *)
  c_closed : bool;
  c_err : option gerr;
  c_retired : bool; (* OnClose was called *)
  c_forgot : bool;  (* ... and returned *)
  c_received : list MessageFrame;
  c_delivered : list (string * list Z)
}.
Definition new_connection (r : ConnectionRole) (user : option N) (running : bool) : connection :=
  mkConnection r user running false false false false None false false [] [].

Definition with_user (c : connection) (p : N) : connection :=
  mkConnection (c_role c) (Some p) (c_running c) (c_started c) (c_ready c) (c_busy c) (c_closed c)
    (c_err c) (c_retired c) (c_forgot c) (c_received c) (c_delivered c).
Definition set_running (c : connection) : connection :=
  mkConnection (c_role c) (c_user c) true (c_started c) (c_ready c) (c_busy c) (c_closed c)
    (c_err c) (c_retired c) (c_forgot c) (c_received c) (c_delivered c).
(** [Close(err)]: the first one counts. *)
Definition close_connection (err : option gerr) (c : connection) : connection :=
  if c_closed c then c else
  mkConnection (c_role c) (c_user c) (c_running c) (c_started c) (c_ready c) (c_busy c) true
    err (c_retired c) (c_forgot c) (c_received c) (c_delivered c).
Definition set_busy (c : connection) (started ready busy : bool) (received : list MessageFrame) : connection :=
  mkConnection (c_role c) (c_user c) (c_running c) started ready busy (c_closed c)
    (c_err c) (c_retired c) (c_forgot c) received (c_delivered c).
Definition set_retired (c : connection) (forgot : bool) : connection :=
  mkConnection (c_role c) (c_user c) (c_running c) (c_started c) (c_ready c) (c_busy c) (c_closed c)
    (c_err c) true forgot (c_received c) (c_delivered c).
Definition set_delivered (c : connection) (d : list (string * list Z)) : connection :=
  mkConnection (c_role c) (c_user c) (c_running c) (c_started c) (c_ready c) (c_busy c) (c_closed c)
    (c_err c) (c_retired c) (c_forgot c) (c_received c) d.

Inductive answer := AErr (err : option gerr) | AState (s : PeerState).

(** [reserved] notes which call of Connect made which peer. *)
Record transport := mkTransport {
  heap : gmap N peer;
  remoteToConn : gmap string N;
  conns : gmap N connection;
  reserved : gmap N N;
  sent : gmap N (list MessageFrame);
  beats : gset N;
  answers : gmap N answer;
  listening : bool;
  cancelled : bool
}.
Definition new_transport : transport := mkTransport ∅ ∅ ∅ ∅ ∅ ∅ ∅ false false.

Definition upd_heap (f : gmap N peer -> gmap N peer) (t : transport) : transport :=
  mkTransport (f (heap t)) (remoteToConn t) (conns t) (reserved t) (sent t) (beats t) (answers t) (listening t) (cancelled t).
Definition upd_table (f : gmap string N -> gmap string N) (t : transport) : transport :=
  mkTransport (heap t) (f (remoteToConn t)) (conns t) (reserved t) (sent t) (beats t) (answers t) (listening t) (cancelled t).
Definition upd_conns (f : gmap N connection -> gmap N connection) (t : transport) : transport :=
  mkTransport (heap t) (remoteToConn t) (f (conns t)) (reserved t) (sent t) (beats t) (answers t) (listening t) (cancelled t).
Definition reserve (h n : N) (t : transport) : transport :=
  mkTransport (heap t) (remoteToConn t) (conns t) (<[h := n]> (reserved t)) (sent t) (beats t) (answers t) (listening t) (cancelled t).
Definition with_rest (t : transport) (s : gmap N (list MessageFrame)) (b : gset N) (a : gmap N answer)
    (l k : bool) : transport :=
  mkTransport (heap t) (remoteToConn t) (conns t) (reserved t) s b a l k.
Definition log_sent (c : N) (f : MessageFrame) (t : transport) : transport :=
  with_rest t (<[c := default [] (sent t !! c) ++ [f]]> (sent t)) (beats t) (answers t) (listening t) (cancelled t).

Definition close_conn (c : N) (err : option gerr) : transport -> transport :=
  upd_conns (alter (close_connection err) c).

(** ** peer_manager.go and the peers *)

(** [remove]: only if the entry is still this peer. *)
Definition remove (id : string) (p : N) (t : transport) : transport :=
  if bool_decide (remoteToConn t !! id = Some p) then upd_table (delete id) t else t.

Definition swapState (p : N) (old new : PeerState) (t : transport) : transport * bool :=
  match heap t !! p with
  | Some P => if bool_decide (p_state P = old)
              then (upd_heap <[p := set_peer_state P new]> t, true) else (t, false)
  | None => (t, false)
  end.

(** [peer.close]: [conn.Close(nil)] if there is a connection. *)
Definition peer_close (p : N) (t : transport) : transport :=
  match heap t !! p ≫= p_conn with Some c => close_conn c None t | None => t end.

(** handleHello under the table's lock. *)
Definition hello_locked (current : N) (id : string) (t : transport) : transport * bool :=
  let '(t, ok) := swapState current PeerStateHandshaking PeerStateConnected t in
  if ok then
    let t := match remoteToConn t !! id with
             | Some old => if bool_decide (old = current) then t else peer_close old t
             | None => t
             end in
    (upd_table <[id := current]> t, true)
  else (t, false).

(** Connect under the table's lock; [h] is where the new peer is allocated. *)
Definition connect_locked (n h : N) (id : string) (t : transport) : transport * option N :=
  match remoteToConn t !! id with
  | Some _ => (t, None)
  | None => (upd_table <[id := h]> (reserve h n (upd_heap <[h := newPeerWithId id]> t)), Some h)
  end.

(** ** The operations *)

Inductive tid := THandler (c : N) | TCloser (c : N) | TBeat (c : N) | TApi (n : N).
#[export] Instance tid_eq_dec : EqDecision tid.
Proof. solve_decision. Defined.
#[export] Instance tid_countable : Countable tid.
Proof.
  refine (inj_countable'
    (fun t => match t with THandler c => inl (inl c) | TCloser c => inl (inr c)
                         | TBeat c => inr (inl c) | TApi n => inr (inr n) end)
    (fun s => match s with inl (inl c) => THandler c | inl (inr c) => TCloser c
                         | inr (inl c) => TBeat c | inr (inr n) => TApi n end) _).
  by intros [].
Defined.

Inductive top : Set -> Type :=
| Role (c : N) : top ConnectionRole
| SetNewPeer (c : N) : top unit
| UserData (c : N) : top (option N)
| SetConn (p c : N) : top unit
| SwapState (p : N) (old new : PeerState) : top bool
| GetState (p : N) : top PeerState
| GetRemoteId (p : N) : top string
| GetConn (p : N) : top (option N)
| BindRemoteId (p : N) (id : string) : top (option gerr)
| HelloLocked (p : N) (id : string) : top bool
| SendMessage (c : N) (f : MessageFrame) : top (option gerr)
| Business (c : N) (id : string) (data : list Z) : top (option gerr)
| CloseConn (c : N) (err : option gerr) : top unit
| ClosePeer (p : N) : top unit
| Remove (id : string) (p : N) : top unit
| RunHeartbeatLoop (c : N) : top unit
| Finish (c : N) (err : option gerr) : top unit
| Forget (c : N) : top unit
| Lookup (id : string) : top (option N)
| Snapshot : top (list (string * N))
| ConnectLocked (id : string) : top (option N)
| Dial (address : string) (h : N) : top (res gerr N)
| RunStart (c : N) : top (option gerr)
| WaitReady (c : N) : top (option gerr)
| IsClosed (c : N) : top bool
| CtxErr : top (option gerr)
| Cancel : top unit
| Listen : top unit
| Answer (a : answer) : top unit
| LogError (what : string) : top unit.

(** What the environment decides: failures, addresses of new objects, the order
    in which a map is ranged over, which ready case a select takes. *)
Record oracle := mkOracle {
  o_err : option gerr;
  o_addr : N;
  o_order : list (string * N)
}.

Section Transport.
Variables (localNodeID : string) (handler_nil : bool) (heartbeatInterval : Z).

(** ** handler.go *)

Definition getPeer (c : N) : prog top (res gerr N) :=
  data <-! UserData c;
  match data with
  | None => Ret (Err ErrConnHelperNil)
  | Some p => Ret (Ok p)
  end.

Definition OnConnected (c : N) : prog top (option gerr) :=
  role <-! Role c;
  let rest :=
    found <~ getPeer c;
    match found with
    | Err err => Ret (Some (wrap "rpc connected  " err))
    | Ok p =>
      do! SetConn p c;
      swapped <-! SwapState p PeerStateIdle PeerStateHandshaking;
      if (swapped : bool) then
        err <-! SendMessage c (hello_frame localNodeID);
        match err with
        | Some err => do! LogError "rpc send hello"; Ret (Some err)
        | None => Ret None
        end
      else
        state <-! GetState p;
        Ret (Some (state_error "rpc connected " state))
    end in
  if decide (role = ConnectionRoleServer) then do! SetNewPeer c; rest else rest.

Definition handleHello (c : N) (message : MessageFrame) : prog top (option gerr) :=
  let remoteId := string_of_bytes (f_Body message) in
  if bool_decide (remoteId = "") then Ret (Some (ESentinel "remote id can not be empty"))
  else
    found <~ getPeer c;
    match found with
    | Err err => Ret (Some err)
    | Ok current =>
      err <-! BindRemoteId current remoteId;
      match err with
      | Some err => Ret (Some err)
      | None =>
        connected <-! HelloLocked current remoteId;
        if (connected : bool) then do! RunHeartbeatLoop c; Ret None
        else
          state <-! GetState current;
          Ret (Some (state_error "" state))
      end
    end.

Definition handleData (c : N) (message : MessageFrame) : prog top (option gerr) :=
  found <~ getPeer c;
  match found with
  | Err err => Ret (Some err)
  | Ok p =>
    state <-! GetState p;
    if negb (bool_decide (state = PeerStateConnected)) then
      state <-! GetState p; Ret (Some (state_error "" state))
    else
      remoteId <-! GetRemoteId p;
      err <-! Business c remoteId (f_Body message);
      match err with
      | Some _ => do! LogError "rpc handle data"; Ret None
      | None => Ret None
      end
  end.

Definition handleHeartbeat (c : N) : prog top (option gerr) :=
  found <~ getPeer c;
  match found with
  | Err err => Ret (Some err)
  | Ok p =>
    state <-! GetState p;
    if negb (bool_decide (state = PeerStateConnected)) then
      state <-! GetState p; Ret (Some (state_error "" state))
    else Ret None
  end.

Definition OnMessage (c : N) (frame : MessageFrame) : prog top (option gerr) :=
  let wrapped prefix body :=
    err <~ body; Ret match err with Some err => Some (wrap prefix err) | None => None end in
  if is_hello frame then wrapped "handle hello err:" (handleHello c frame)
  else if is_data frame then wrapped "handle data err:" (handleData c frame)
  else if is_heartbeat frame then wrapped "handle heartbeat err:" (handleHeartbeat c)
  else do! LogError "rpc invalid msgId"; Ret None.

Definition OnClose (c : N) : prog top unit :=
  found <~ getPeer c;
  match found with
  | Err _ => Ret tt
  | Ok p => remoteId <-! GetRemoteId p; do! Remove remoteId p; Ret tt
  end.

(** One tick of runHeartbeatLoop. *)
Definition heartbeat_tick (c : N) : prog top unit :=
  err <-! SendMessage c heartbeat_frame;
  match err with
  | Some _ => do! LogError "rpc send heartbeat"; Ret tt
  | None => Ret tt
  end.

(** ** network/tcp_client.go

    [Dial] connects the socket, makes the connection and sets its user data;
    OnConnected runs on a goroutine of the connection, which DialTCP waits for:
    without encryption the caller's own, in runStart. *)
Definition DialTCP (address : string) (userdata : N) : prog top (res gerr N) :=
  dialed <-! Dial address userdata;
  match dialed with
  | Err err => Ret (Err err)
  | Ok conn =>
    err <-! RunStart conn;
    match err with
    | Some err => Ret (Err err)
    | None =>
      err <-! WaitReady conn;
      match err with
      | Some err => Ret (Err err)
      | None =>
        closed <-! IsClosed conn;
        if (closed : bool) then Ret (Err ErrNetConnectionClosed) else Ret (Ok conn)
      end
    end
  end.

(** ** transport.go *)

Definition Run : prog top (option gerr) :=
  if handler_nil then Ret (Some ErrHandlerIsNil) else do! Listen; Ret None.

Definition ConnectionState (nodeId : string) : prog top PeerState :=
  found <-! Lookup nodeId;
  match found with
  | None => Ret PeerStateIdle
  | Some p => state <-! GetState p; Ret state
  end.

Definition Connect (remoteId address : string) : prog top (option gerr) :=
  if bool_decide (localNodeID = remoteId)
  then Ret (Some (ESentinel ("rpc connect connect local:" +:+ remoteId)))
  else if handler_nil then Ret (Some ErrHandlerIsNil)
  else
    made <-! ConnectLocked remoteId;
    match made with
    | None => Ret None
    | Some h =>
      dialed <~ DialTCP address h;
      match dialed with
      | Err err => do! Remove remoteId h; do! LogError "rpc connect"; Ret (Some err)
      | Ok conn =>
        err <-! CtxErr;
        match err with
        | Some err => do! CloseConn conn (Some err); do! Remove remoteId h; Ret (Some err)
        | None => Ret None
        end
      end
    end.

Definition Disconnect (nodeId : string) : prog top (option gerr) :=
  found <-! Lookup nodeId;
  match found with
  | None => Ret (Some (ESentinel ("rpc peer not exist:" +:+ nodeId)))
  | Some h => do! ClosePeer h; Ret None
  end.

(** [Transport.send] and [peer.send] *)
Definition send (p : N) (data : list Z) : prog top (option gerr) :=
  con <-! GetConn p;
  match con with
  | None => Ret (Some (ESentinel "peer conn nil "))
  | Some con =>
    state <-! GetState p;
    if negb (bool_decide (state = PeerStateConnected)) then Ret (Some (ESentinel "peer is not connected"))
    else err <-! SendMessage con (data_frame data); Ret err
  end.

Definition Send (nodeId : string) (data : list Z) : prog top (option gerr) :=
  found <-! Lookup nodeId;
  match found with
  | None => Ret (Some ErrPeerNotConnected)
  | Some p =>
    state <-! GetState p;
    if negb (bool_decide (state = PeerStateConnected)) then Ret (Some ErrPeerNotConnected)
    else send p data
  end.

Fixpoint broadcast_loop (helpers : list (string * N)) (data : list Z) (sent : nat) : prog top nat :=
  match helpers with
  | [] => Ret sent
  | (_, h) :: helpers =>
    err <~ send h data;
    broadcast_loop helpers data (match err with Some _ => sent | None => S sent end)
  end.

(** Broadcast returns nil however many sends fail. *)
Definition Broadcast (data : list Z) : prog top (option gerr) :=
  helpers <-! Snapshot;
  sent <~ broadcast_loop helpers data 0;
  if negb (sent =? length helpers)%nat then do! LogError "rpc broadcast incomplete"; Ret None
  else Ret None.

Fixpoint close_loop (helpers : list (string * N)) : prog top unit :=
  match helpers with
  | [] => Ret tt
  | (_, h) :: helpers => do! ClosePeer h; close_loop helpers
  end.

Definition Close : prog top unit :=
  do! Cancel;
  helpers <-! Snapshot;
  close_loop helpers.

(** ** One access to the shared state, by thread [i] *)

Definition upd_conn (c : N) (f : connection -> connection) : transport -> transport := upd_conns (alter f c).

Definition exec (i : tid) (R : Set) (o : top R) (e : oracle) (t : transport) : option (transport * R) :=
  match o in top R return option (transport * R) with
  | Role c => C ← conns t !! c; Some (t, c_role C)
  | SetNewPeer c =>
    match heap t !! o_addr e with
    | Some _ => None
    | None => Some (upd_conn c (fun C => with_user C (o_addr e)) (upd_heap <[o_addr e := newPeer]> t), tt)
    end
  | UserData c => C ← conns t !! c; Some (t, c_user C)
  | SetConn p c => Some (upd_heap (alter (fun P => setConn P c) p) t, tt)
  | SwapState p old new => Some (swapState p old new t)
  | GetState p => P ← heap t !! p; Some (t, p_state P)
  | GetRemoteId p => P ← heap t !! p; Some (t, getRemoteId P)
  | GetConn p => P ← heap t !! p; Some (t, p_conn P)
  | BindRemoteId p id =>
    P ← heap t !! p; let '(P, err) := bindRemoteId P id in Some (upd_heap <[p := P]> t, err)
  | HelloLocked p id => Some (hello_locked p id t)
  | SendMessage c f =>
    C ← conns t !! c;
    if c_closed C then Some (t, Some ErrNetConnectionClosed)
    else match o_err e with Some err => Some (t, Some err) | None => Some (log_sent c f t, None) end
  | Business c id data => Some (upd_conn c (fun C => set_delivered C (c_delivered C ++ [(id, data)])) t, o_err e)
  | CloseConn c err => Some (close_conn c err t, tt)
  | ClosePeer p => Some (peer_close p t, tt)
  | Remove id p => Some (remove id p t, tt)
  | RunHeartbeatLoop c =>
    Some (if heartbeatInterval <=? 0 then t
          else with_rest t (sent t) ({[c]} ∪ beats t) (answers t) (listening t) (cancelled t), tt)
  | Finish c err =>
    let t := match err with Some err => close_conn c (Some err) t | None => t end in
    Some (upd_conn c (fun C => set_busy C (c_started C) (c_ready C || bool_decide (err = None)) false (c_received C)) t, tt)
  | Forget c => Some (upd_conn c (fun C => set_retired C true) t, tt)
  | Lookup id => Some (t, remoteToConn t !! id)
  | Snapshot => if decide (o_order e ≡ₚ map_to_list (remoteToConn t)) then Some (t, o_order e) else None
  | ConnectLocked id =>
    match heap t !! o_addr e, i with
    | None, TApi n => Some (connect_locked n (o_addr e) id t)
    | _, _ => None
    end
  | Dial _ h =>
    match o_err e with
    | Some err => Some (t, Err err)
    | None => match conns t !! o_addr e with
              | Some _ => None
              | None => Some (upd_conns <[o_addr e := new_connection ConnectionRoleClient (Some h) false]> t,
                              Ok (o_addr e))
              end
    end
  | RunStart c =>
    match o_err e with
    | Some err => Some (close_conn c (Some err) (upd_conn c set_running t), Some err)
    | None => Some (upd_conn c set_running t, None)
    end
  | WaitReady c => (* a select over three channels *)
    C ← conns t !! c;
    match o_addr e with
    | 0%N => if c_ready C then Some (t, None) else None
    | 1%N => if cancelled t then Some (close_conn c (Some ErrCanceled) t, Some ErrCanceled) else None
    | _ => if c_closed C then Some (t, c_err C) else None
    end
  | IsClosed c => C ← conns t !! c; Some (t, c_closed C)
  | CtxErr => Some (t, if cancelled t then Some ErrCanceled else None)
  | Cancel => Some (with_rest t (sent t) (beats t) (answers t) (listening t) true, tt)
  | Listen => Some (with_rest t (sent t) (beats t) (answers t) true (cancelled t), tt)
  | Answer a =>
    Some (match i with
          | TApi n => with_rest t (sent t) (beats t) (<[n := a]> (answers t)) (listening t) (cancelled t)
          | _ => t
          end, tt)
  | LogError _ => Some (t, tt)
  end.

(** ** The goroutines *)

(** A callback, and what its caller does with the error: the read loop (or
    runStart) closes the connection, and waitReady learns that it is ready. *)
Definition callback (c : N) (body : prog top (option gerr)) : prog top unit :=
  err <~ body; do! Finish c err; Ret tt.
Definition closer (c : N) : prog top unit := done <~ OnClose c; do! Forget c; Ret tt.

Inductive api :=
| ARun | AConnect (remoteId address : string) | AConnectionState (nodeId : string)
| ADisconnect (nodeId : string) | ASend (nodeId : string) (data : list Z) | ABroadcast (data : list Z) | AClose.
Definition api_thread (a : api) : prog top unit :=
  let answered p := err <~ p; do! Answer (AErr err); Ret tt in
  match a with
  | ARun => answered Run
  | AConnect id address => answered (Connect id address)
  | AConnectionState id => s <~ ConnectionState id; do! Answer (AState s); Ret tt
  | ADisconnect id => answered (Disconnect id)
  | ASend id data => answered (Send id data)
  | ABroadcast data => answered (Broadcast data)
  | AClose => Close
  end.

Abbreviation node := (pool top transport tid).

Inductive act :=
| Accept (c : N)                   (* the listener accepts a connection *)
| Connected (c : N)                (* a connection becomes ready *)
| Frame (c : N) (f : MessageFrame) (* a connection receives a frame *)
| Break (c : N) (err : gerr)       (* a connection fails *)
| Closed (c : N)                   (* the write loop of a closed connection ends *)
| Tick (c : N)                     (* a heartbeat ticks *)
| Call (n : N) (a : api)
| Step (i : tid) (e : oracle).

(** Whether OnClose waits for a running callback of its connection: it does not,
    but see [closed_connections_are_forgotten]. *)
Variable orderly : bool.

Definition set_shared (f : transport -> transport) (w : node) : node := mkPool (f (shared w)) (threads w).

Definition step (w : node) (a : act) : node :=
  let t := shared w in
  match a with
  | Accept c =>
    match conns t !! c with
    | Some _ => w
    | None => if listening t && negb (cancelled t)
              then set_shared (upd_conns <[c := new_connection ConnectionRoleServer None true]>) w else w
    end
  | Connected c =>
    match conns t !! c with
    | Some C =>
      if c_running C && negb (c_started C) && negb (c_busy C) && negb (c_closed C)
      then start_thread (THandler c)
             (upd_conn c (fun C => set_busy C true (c_ready C) true (c_received C)) t) (callback c (OnConnected c)) w
      else w
    | None => w
    end
  | Frame c f =>
    match conns t !! c with
    | Some C =>
      if c_ready C && negb (c_busy C) && negb (c_closed C)
      then start_thread (THandler c)
             (upd_conn c (fun C => set_busy C (c_started C) (c_ready C) true (c_received C ++ [f])) t)
             (callback c (OnMessage c f)) w
      else w
    | None => w
    end
  | Break c err =>
    match conns t !! c with
    | Some C => if c_running C then set_shared (close_conn c (Some err)) w else w
    | None => w
    end
  | Closed c =>
    match conns t !! c with
    | Some C =>
      if c_running C && c_closed C && negb (c_retired C) && negb (orderly && c_busy C)
      then start_thread (TCloser c) (upd_conn c (fun C => set_retired C false) t) (closer c) w
      else w
    | None => w
    end
  | Tick c =>
    match conns t !! c with
    | Some C => if bool_decide (c ∈ beats t) && negb (c_closed C) && finished (TBeat c) w
                then start_thread (TBeat c) t (heartbeat_tick c) w else w
    | None => w
    end
  | Call n a =>
    match threads w !! TApi n with
    | Some _ => w
    | None => start_thread (TApi n) t (api_thread a) w
    end
  | Step i e => run_thread exec i e w
  end.

Definition start : node := mkPool new_transport ∅.
Definition run (w : node) (acts : list act) : node := fold_left step acts w.
End Transport.
