(* ===== verification/TransportSafety.v ===== *)
(** * What the node-to-node transport guarantees

    The rely-guarantee proof over Transport.v: the invariant of a node's peers,
    connections and peer table, what each goroutine relies on, and the theorems
    for every interleaving. *)

From S2P Require Import Prelude Protocol Conn Errors Effects Threads Transport.

Section Safety.
Variables (localNodeID : string) (handler_nil : bool) (heartbeatInterval : Z) (orderly : bool).
(** The id that each connection says hello with. *)
Variable hello_of : N -> string.

Abbreviation exec := (exec heartbeatInterval).
Implicit Types (t : transport) (C : connection) (P : peer) (c p h n : N) (id : string).

(** ** The invariant *)

Definition datas (fs : list MessageFrame) : list (list Z) := f_Body <$> List.filter is_data fs.
Definition hello_got C id : Prop :=
  exists f, f ∈ c_received C /\ is_hello f = true /\ string_of_bytes (f_Body f) = id.

Record conn_ok c C : Prop := {
  k_hello : forall f, f ∈ c_received C -> is_hello f = true -> string_of_bytes (f_Body f) = hello_of c;
  k_prefix : (c_delivered C).*2 `prefix_of` datas (c_received C);
  k_order : c_busy C = false -> c_closed C = false -> (c_delivered C).*2 = datas (c_received C);
  k_from : Forall (fun x => hello_got C x.1) (c_delivered C);
  k_new : c_role C = ConnectionRoleServer -> c_started C = false -> c_user C = None;
  k_retired : c_retired C = true -> c_closed C = true;
  k_turn : orderly = true -> c_retired C = true -> c_busy C = false;
  k_forgot : c_forgot C = true -> c_retired C = true
}.

Definition closed_peer t p : Prop :=
  exists c C, conns t !! c = Some C /\ c_user C = Some p /\ c_closed C = true.

Record peer_ok t p P : Prop := {
  q_idle : p_state P <> PeerStateIdle -> p_conn P <> None;
  q_conn : forall c, p_conn P = Some c -> exists C, conns t !! c = Some C /\ c_user C = Some p;
  q_expected : remoteId P <> "" -> expected P = "" \/ expected P = remoteId P;
  q_remote : remoteId P <> "" ->
    exists c C, conns t !! c = Some C /\ c_user C = Some p /\ hello_got C (remoteId P);
  q_connected : p_state P = PeerStateConnected ->
    remoteId P <> "" /\ (remoteToConn t !! remoteId P = Some p \/ closed_peer t p)
}.

Record inv t : Prop := {
  i_conns : forall c C, conns t !! c = Some C -> conn_ok c C;
  i_peers : forall p P, heap t !! p = Some P -> peer_ok t p P;
  i_user : forall c C p, conns t !! c = Some C -> c_user C = Some p -> is_Some (heap t !! p);
  i_inj : forall c1 c2 C1 C2 p, conns t !! c1 = Some C1 -> conns t !! c2 = Some C2 ->
    c_user C1 = Some p -> c_user C2 = Some p -> c1 = c2;
  i_table : forall id p, remoteToConn t !! id = Some p ->
    id <> "" /\ exists P, heap t !! p = Some P /\ getRemoteId P = id;
  i_reserved : forall h n, reserved t !! h = Some n -> is_Some (heap t !! h);
  i_forgot : orderly = true -> forall c C p, conns t !! c = Some C -> c_forgot C = true ->
    c_user C = Some p -> forall id, remoteToConn t !! id <> Some p
}.

(** ** What threads rely on *)

Record conn_le C C' : Prop := {
  l_role : c_role C' = c_role C;
  l_user : forall p, c_user C = Some p -> c_user C' = Some p;
  l_closed : c_closed C = true -> c_closed C' = true;
  l_retired : c_retired C = true -> c_retired C' = true;
  l_received : forall f, f ∈ c_received C -> f ∈ c_received C'
}.

Record peer_le P P' : Prop := {
  l_expected : expected P' = expected P;
  l_conn : forall c, p_conn P = Some c -> p_conn P' = Some c;
  l_remote : remoteId P <> "" -> remoteId P' = remoteId P
}.

(** What only the handler of a connection changes. *)
Record kept C C' : Prop := {
  e_role : c_role C' = c_role C;
  e_user : c_user C' = c_user C;
  e_started : c_started C' = c_started C;
  e_busy : c_busy C' = c_busy C;
  e_received : c_received C' = c_received C;
  e_delivered : c_delivered C' = c_delivered C;
  e_retired : orderly = true -> c_retired C' = c_retired C
}.

Definition own (i : tid) t t' : Prop :=
  match i with
  | THandler c =>
    forall C, conns t !! c = Some C -> c_busy C = true ->
      (exists C', conns t' !! c = Some C' /\ kept C C') /\
      forall p, c_user C = Some p -> heap t' !! p = heap t !! p
  | TCloser c =>
    orderly = true -> forall C, conns t !! c = Some C -> c_retired C = true ->
      (exists C', conns t' !! c = Some C' /\ c_user C' = c_user C /\ c_retired C' = true) /\
      forall p, c_user C = Some p -> heap t' !! p = heap t !! p /\
        forall id, remoteToConn t' !! id = Some p -> remoteToConn t !! id = Some p
  | TApi n =>
    forall h, reserved t !! h = Some n -> forall c C', conns t' !! c = Some C' -> c_user C' = Some h ->
      exists C, conns t !! c = Some C /\ c_user C = Some h
  | TBeat _ => True
  end.

Record rely (i : tid) t t' : Prop := {
  r_heap : forall p P, heap t !! p = Some P -> exists P', heap t' !! p = Some P' /\ peer_le P P';
  r_conns : forall c C, conns t !! c = Some C -> exists C', conns t' !! c = Some C' /\ conn_le C C';
  r_reserved : forall h n, reserved t !! h = Some n -> reserved t' !! h = Some n;
  r_own : own i t t'
}.

Lemma conn_le_refl C : conn_le C C.
Proof. by split. Qed.
Lemma conn_le_trans C1 C2 C3 : conn_le C1 C2 -> conn_le C2 C3 -> conn_le C1 C3.
Proof. intros [] []. split; [congruence|auto..]. Qed.
Lemma peer_le_refl P : peer_le P P.
Proof. by split. Qed.
Lemma peer_le_trans P1 P2 P3 : peer_le P1 P2 -> peer_le P2 P3 -> peer_le P1 P3.
Proof.
  intros [E1 C1 R1] [E2 C2 R2]. split; [congruence|auto|].
  intros Hn. rewrite R2; [auto|]. by rewrite R1.
Qed.
Lemma kept_refl C : kept C C.
Proof. by split. Qed.
Lemma kept_trans C1 C2 C3 : kept C1 C2 -> kept C2 C3 -> kept C1 C3.
Proof. intros [] []. split; try congruence. intros Ho. rewrite e_retired1, e_retired0; done. Qed.

Lemma own_refl i t : own i t t.
Proof. destruct i; simpl; eauto using kept_refl. intros Ho C HC Hr. split; eauto. Qed.

Lemma own_trans i t1 t2 t3 : own i t1 t2 -> own i t2 t3 ->
  (forall h n, reserved t1 !! h = Some n -> reserved t2 !! h = Some n) -> own i t1 t3.
Proof.
  destruct i as [c|c|c|n]; simpl; [| |done|].
  - intros H1 H2 _ C HC Hb. destruct (H1 C HC Hb) as [(C2 & HC2 & K1) Hp1].
    destruct (H2 C2 HC2) as [(C3 & HC3 & K2) Hp2]; [by rewrite (e_busy _ _ K1)|].
    split; [exists C3; split; [done|by eapply kept_trans]|].
    intros p Hp. rewrite Hp2 by (by rewrite (e_user _ _ K1)). auto.
  - intros H1 H2 _ Ho C HC Hr. destruct (H1 Ho C HC Hr) as [(C2 & HC2 & U1 & R1) Hp1].
    destruct (H2 Ho C2 HC2 R1) as [(C3 & HC3 & U2 & R2) Hp2].
    split; [exists C3; split_and!; [done|congruence|done]|].
    intros p Hp. destruct (Hp1 p Hp) as [E1 T1]. rewrite <- U1 in Hp. destruct (Hp2 p Hp) as [E2 T2].
    split; [congruence|auto].
  - intros H1 H2 Hr h Hh c C3 HC3 Hu. destruct (H2 h (Hr _ _ Hh) c C3 HC3 Hu) as (C2 & HC2 & Hu2). eauto.
Qed.

Lemma rely_refl i t : rely i t t.
Proof. split; eauto using conn_le_refl, peer_le_refl, own_refl. Qed.
Lemma rely_trans i t1 t2 t3 : rely i t1 t2 -> rely i t2 t3 -> rely i t1 t3.
Proof.
  intros [H1 C1 R1 O1] [H2 C2 R2 O2]. split; [| |auto|by eapply own_trans].
  - intros p P HP. destruct (H1 p P HP) as (P2 & HP2 & L1), (H2 p P2 HP2) as (P3 & HP3 & L2).
    eauto using peer_le_trans.
  - intros c C HC. destruct (C1 c C HC) as (Ca & HCa & L1), (C2 c Ca HCa) as (Cb & HCb & L2).
    eauto using conn_le_trans.
Qed.

Abbreviation allowed := (allowed inv rely).

(** ** Steps that change nothing that matters *)

Lemma peer_ok_mono t t' p P :
  (forall c C, conns t !! c = Some C -> exists C', conns t' !! c = Some C' /\ conn_le C C') ->
  (forall id, remoteToConn t !! id = Some p -> remoteToConn t' !! id = Some p \/ closed_peer t' p) ->
  peer_ok t p P -> peer_ok t' p P.
Proof.
  intros Hc Ht [Q1 Q2 Q3 Q4 Q5]. split; try done.
  - intros c Hp. destruct (Q2 c Hp) as (C & HC & Hu). destruct (Hc c C HC) as (C' & HC' & L).
    exists C'. split; [done|]. by apply (l_user _ _ L).
  - intros Hn. destruct (Q4 Hn) as (c & C & HC & Hu & f & Hf & Hh & E).
    destruct (Hc c C HC) as (C' & HC' & L). exists c, C'. split_and!; [done|by apply (l_user _ _ L)|].
    exists f. split; [by apply (l_received _ _ L)|done].
  - intros Hs. destruct (Q5 Hs) as [Hn H5]. split; [done|]. destruct H5 as [H5|(c & C & HC & Hu & Hk)]; [auto|].
    right. destruct (Hc c C HC) as (C' & HC' & L). exists c, C'.
    split_and!; [done|by apply (l_user _ _ L)|by apply (l_closed _ _ L)].
Qed.

Record same t t' : Prop := {
  s_heap : heap t' = heap t; s_table : remoteToConn t' = remoteToConn t;
  s_conns : conns t' = conns t; s_reserved : reserved t' = reserved t }.

Lemma same_rely i t t' : same t t' -> rely i t t'.
Proof.
  intros [E1 E2 E3 E4]. split; rewrite ?E1, ?E3, ?E4; eauto using conn_le_refl, peer_le_refl.
  destruct i; simpl; rewrite ?E1, ?E2, ?E3, ?E4; eauto using kept_refl.
  intros Ho C HC Hr. split; eauto.
Qed.

Lemma same_inv t t' : same t t' -> inv t -> inv t'.
Proof.
  intros [E1 E2 E3 E4] [I1 I2 I3 I4 I5 I6 I7]. split; rewrite ?E1, ?E2, ?E3, ?E4; try done.
  intros p P HP. apply (peer_ok_mono t); [|rewrite E2; auto|auto].
  rewrite E3. eauto using conn_le_refl.
Qed.

Lemma same_allowed i t t' : inv t -> same t t' -> allowed i t t'.
Proof. intros Hi Hs. split; [by eapply same_inv|]. intros j _. by apply same_rely. Qed.

Lemma same_refl t : same t t.
Proof. done. Qed.

(** ** Closing connections: anybody may *)

Definition maybe_closed C C' : Prop := C' = C \/ exists err, C' = close_connection err C.

Record closing t t' : Prop := {
  cl_heap : heap t' = heap t; cl_table : remoteToConn t' = remoteToConn t;
  cl_reserved : reserved t' = reserved t;
  cl_to : forall c C, conns t !! c = Some C -> exists C', conns t' !! c = Some C' /\ maybe_closed C C';
  cl_from : forall c C', conns t' !! c = Some C' -> exists C, conns t !! c = Some C /\ maybe_closed C C' }.

Lemma closing_refl t : closing t t.
Proof. split; try done; unfold maybe_closed; eauto. Qed.

Lemma closing_close_conn t c err : closing t (close_conn c err t).
Proof.
  split; try done; simpl; intros c' C' HC.
  - destruct (decide (c = c')) as [<-|Hne].
    + rewrite lookup_alter_eq, HC. simpl. eexists. split; [done|]. right. eauto.
    + rewrite lookup_alter_ne by done. exists C'. split; [done|by left].
  - destruct (decide (c = c')) as [<-|Hne].
    + rewrite lookup_alter_eq in HC. destruct (conns t !! c) as [C|]; [|done]. simpl in HC.
      injection HC as <-. exists C. split; [done|]. right. eauto.
    + rewrite lookup_alter_ne in HC by done. exists C'. split; [done|by left].
Qed.

Lemma closing_peer_close t p : closing t (peer_close p t).
Proof. unfold peer_close. destruct (_ ≫= _); [apply closing_close_conn|apply closing_refl]. Qed.

Lemma maybe_closed_fields C C' : maybe_closed C C' ->
  kept C C' /\ conn_le C C' /\ c_role C' = c_role C /\ c_forgot C' = c_forgot C /\ c_retired C' = c_retired C.
Proof.
  intros [->|[err ->]]; unfold close_connection; [|destruct (c_closed C)]; split_and!; (done || by split).
Qed.

Lemma conn_ok_closed c C C' : maybe_closed C C' -> conn_ok c C -> conn_ok c C'.
Proof.
  intros [->|[err ->]]; [done|]. unfold close_connection. destruct (c_closed C) eqn:E; [done|].
  intros []. split; simpl; done || (intros; discriminate) || auto.
Qed.

Lemma closing_inv t t' : closing t t' -> inv t -> inv t'.
Proof.
  intros [E1 E2 E3 Hto Hfrom] [I1 I2 I3 I4 I5 I6 I7]. split; rewrite ?E1, ?E2, ?E3; try done.
  - intros c C' HC. destruct (Hfrom c C' HC) as (C & HC0 & M). eapply conn_ok_closed; eauto.
  - intros p P HP. apply (peer_ok_mono t); [|rewrite E2; auto|auto].
    intros c C HC. destruct (Hto c C HC) as (C' & HC' & M). exists C'. split; [done|].
    apply (maybe_closed_fields _ _ M).
  - intros c C' p HC Hu. destruct (Hfrom c C' HC) as (C & HC0 & M).
    destruct (maybe_closed_fields _ _ M) as (K & _). rewrite (e_user _ _ K) in Hu. eauto.
  - intros c1 c2 C1 C2 p H1 H2 U1 U2.
    destruct (Hfrom _ _ H1) as (D1 & G1 & M1), (Hfrom _ _ H2) as (D2 & G2 & M2).
    destruct (maybe_closed_fields _ _ M1) as (K1 & _), (maybe_closed_fields _ _ M2) as (K2 & _).
    rewrite (e_user _ _ K1) in U1. rewrite (e_user _ _ K2) in U2. eauto.
  - intros Ho c C' p HC Hf Hu. destruct (Hfrom c C' HC) as (C & HC0 & M).
    destruct (maybe_closed_fields _ _ M) as (K & _ & _ & F & _).
    rewrite (e_user _ _ K) in Hu. rewrite F in Hf. eauto.
Qed.

Lemma closing_rely i t t' : closing t t' -> rely i t t'.
Proof.
  intros [E1 E2 E3 Hto Hfrom]. split; rewrite ?E1, ?E3; eauto using peer_le_refl.
  - intros c C HC. destruct (Hto c C HC) as (C' & HC' & M). exists C'. split; [done|].
    apply (maybe_closed_fields _ _ M).
  - destruct i; simpl; [| |done|].
    + intros C HC _. destruct (Hto c C HC) as (C' & HC' & M). rewrite E1. split; [|done]. exists C'.
      split; [done|]. apply (maybe_closed_fields _ _ M).
    + intros _ C HC Hr. destruct (Hto c C HC) as (C' & HC' & M). rewrite E1, E2. split; [|done].
      exists C'. destruct (maybe_closed_fields _ _ M) as (K & _ & _ & _ & R).
      split_and!; [done|apply (e_user _ _ K)|congruence].
    + intros h _ c C' HC Hu. destruct (Hfrom c C' HC) as (C & HC0 & M). exists C. split; [done|].
      destruct (maybe_closed_fields _ _ M) as (K & _). by rewrite <- (e_user _ _ K).
Qed.

Lemma closing_allowed i t t' : inv t -> closing t t' -> allowed i t t'.
Proof. intros Hi Hc. split; [by eapply closing_inv|]. intros j _. by apply closing_rely. Qed.

(** ** What the handler of a connection does to its peer *)

(** The handler of [c] runs and [p] is its peer. *)
Definition mine c p t : Prop :=
  exists C, conns t !! c = Some C /\ c_busy C = true /\ c_user C = Some p.

Lemma peer_write c p P P' t :
  inv t -> mine c p t -> heap t !! p = Some P -> peer_le P P' -> peer_ok t p P' ->
  (forall id, remoteToConn t !! id = Some p -> getRemoteId P' = id) ->
  allowed (THandler c) t (upd_heap <[p := P']> t).
Proof.
  intros [I1 I2 I3 I4 I5 I6 I7] (C & HC & Hb & Hu) HP Hle Hok Htab. split.
  - split; simpl; try done.
    + intros q Q. rewrite lookup_insert_Some. intros [[<- <-]|[Hne HQ]].
      * apply (peer_ok_mono t); [eauto using conn_le_refl|by auto|done].
      * apply (peer_ok_mono t); [eauto using conn_le_refl|by auto|auto].
    + intros c' C' q HC' Hq. rewrite lookup_insert. case_decide; [eauto|by eapply I3].
    + intros id q Hq. destruct (I5 id q Hq) as (Hn & Q & HQ & E). split; [done|].
      destruct (decide (p = q)) as [<-|Hne].
      * exists P'. rewrite lookup_insert_eq. auto.
      * exists Q. by rewrite lookup_insert_ne.
    + intros h n Hh. rewrite lookup_insert. case_decide; [eauto|by eapply I6].
  - intros j Hj. split; simpl; eauto using conn_le_refl.
    + intros q Q HQ. rewrite lookup_insert. case_decide as Hq; [subst q|eauto using peer_le_refl].
      exists P'. split; [done|]. congruence.
    + destruct j as [c'|c'|c'|n]; simpl; [| |done|].
      * intros C' HC' Hb'. split; [eauto using kept_refl|]. intros q Hq. apply lookup_insert_ne.
        intros ->. apply Hj. f_equal. eauto.
      * intros Ho C' HC' Hr. split; [eauto|]. intros q Hq. split; [|done]. apply lookup_insert_ne.
        intros ->. assert (c' = c) as -> by eauto. assert (C' = C) as -> by congruence.
        destruct (I1 c C HC) as [_ _ _ _ _ _ Hturn _]. rewrite Hturn in Hb; done.
      * eauto.
Qed.

(** ** Writing a connection's record *)

Lemma conns_write_le c C C' t :
  conns t !! c = Some C -> conn_le C C' ->
  forall c0 C0, conns t !! c0 = Some C0 -> exists C1, <[c := C']> (conns t) !! c0 = Some C1 /\ conn_le C0 C1.
Proof.
  intros HC Hle c0 C0 H0. rewrite lookup_insert. case_decide as Hd; [subst c0|eauto using conn_le_refl].
  exists C'. split; [done|]. by assert (C0 = C) as -> by congruence.
Qed.

Definition bystander (i : tid) c C C' : Prop := kept C C' \/ i = THandler c \/ c_busy C = false.

Lemma conn_write i c C C' t :
  inv t -> conns t !! c = Some C -> conn_ok c C' -> conn_le C C' -> c_user C' = c_user C ->
  (orderly = true -> c_forgot C' = true -> c_forgot C = false ->
     forall p, c_user C = Some p -> forall id, remoteToConn t !! id <> Some p) ->
  bystander i c C C' ->
  allowed i t (upd_conns <[c := C']> t).
Proof.
  intros [I1 I2 I3 I4 I5 I6 I7] HC Hok Hle Hu Hf Hby. split.
  - assert (Hback : forall c0 C0, <[c := C']> (conns t) !! c0 = Some C0 ->
               exists C1, conns t !! c0 = Some C1 /\ c_user C0 = c_user C1 /\ conn_ok c0 C0 /\
                 (C0 = C1 \/ c0 = c /\ C0 = C')).
    { intros c0 C0. rewrite lookup_insert. case_decide as Hd; [subst c0|].
      - intros [= <-]. exists C. auto 6.
      - intros H0. exists C0. auto 6. }
    split; simpl; try done.
    + intros c0 C0 H0. by destruct (Hback _ _ H0) as (? & _ & _ & ? & _).
    + intros p P HP. apply (peer_ok_mono t); simpl; [by apply (conns_write_le c C)|auto|auto].
    + intros c0 C0 p H0 Hp. destruct (Hback _ _ H0) as (C1 & H1 & E & _). rewrite E in Hp. eauto.
    + intros c1 c2 C1 C2 p H1 H2 U1 U2. destruct (Hback _ _ H1) as (D1 & G1 & E1 & _), (Hback _ _ H2) as (D2 & G2 & E2 & _).
      rewrite E1 in U1. rewrite E2 in U2. eauto.
    + intros Ho c0 C0 p H0 Hg Hp. destruct (Hback _ _ H0) as (C1 & H1 & E & _ & [->|[-> ->]]); [eauto|].
      assert (C1 = C) as -> by congruence. rewrite E in Hp. destruct (c_forgot C) eqn:Ef; [eauto|].
      by apply Hf.
  - intros j Hj. split; simpl; eauto using peer_le_refl.
    + intros c0 C0 H0. by apply (conns_write_le c C C' t).
    + destruct j as [c'|c'|c'|n]; simpl; [| |done|].
      * intros C0 H0 Hb. split; [|done]. rewrite lookup_insert. case_decide as Hd; [subst c'|eauto using kept_refl].
        assert (C0 = C) as -> by congruence. exists C'. split; [done|].
        destruct Hby as [?|[->|?]]; [done|done|congruence].
      * intros Ho C0 H0 Hr. split; [|auto]. rewrite lookup_insert. case_decide as Hd; [subst c'|eauto].
        assert (C0 = C) as -> by congruence. exists C'. split_and!; [done|done|by apply (l_retired _ _ Hle)].
      * intros h _ c0 C0. rewrite lookup_insert. case_decide as Hd; [subst c0|eauto].
        intros [= <-] Hh. exists C. by rewrite <- Hu.
Qed.

Lemma upd_conns_alter f c C t :
  conns t !! c = Some C -> upd_conns (alter f c) t = upd_conns <[c := f C]> t.
Proof. intros HC. unfold upd_conns. by rewrite (alter_Some_insert _ _ c C). Qed.

(** A connection that was not there before. *)
Definition unused h t : Prop := forall c C, conns t !! c = Some C -> c_user C <> Some h.

Definition introduces (i : tid) C t : Prop :=
  match c_user C with
  | None => True
  | Some h => is_Some (heap t !! h) /\ unused h t /\ exists n, i = TApi n /\ reserved t !! h = Some n
  end.

Lemma conn_new i c C t :
  inv t -> conns t !! c = None -> conn_ok c C -> c_forgot C = false -> introduces i C t ->
  allowed i t (upd_conns <[c := C]> t).
Proof.
  intros [I1 I2 I3 I4 I5 I6 I7] Hc Hok Hf Hin. unfold introduces in Hin.
  assert (Hfwd : forall c0 C0, conns t !! c0 = Some C0 -> <[c := C]> (conns t) !! c0 = Some C0).
  { intros c0 C0 H0. rewrite lookup_insert_ne; [done|]. intros ->. congruence. }
  split.
  - split; simpl; try done.
    + intros c0 C0. rewrite lookup_insert. case_decide as Hd; [by subst; intros [= <-]|auto].
    + intros p P HP. apply (peer_ok_mono t); simpl; [eauto using conn_le_refl|auto|auto].
    + intros c0 C0 p. rewrite lookup_insert. case_decide as Hd; [subst c0|eauto].
      intros [= <-] Hp. rewrite Hp in Hin. apply Hin.
    + intros c1 c2 C1 C2 p. rewrite !lookup_insert.
      case_decide as H1; case_decide as H2; subst; intros; simplify_eq; try done.
      * rewrite H1 in Hin. destruct Hin as (_ & Hun & _). by destruct (Hun _ _ H0).
      * rewrite H3 in Hin. destruct Hin as (_ & Hun & _). by destruct (Hun _ _ H).
      * eauto.
    + intros Ho c0 C0 p. rewrite lookup_insert. case_decide as Hd; [subst c0|eauto].
      intros [= <-] Hg. congruence.
  - intros j Hj. split; simpl; eauto using peer_le_refl, conn_le_refl.
    destruct j as [c'|c'|c'|n]; simpl; [| |done|].
    + intros C0 H0 _. split; [|done]. eauto using kept_refl.
    + intros _ C0 H0 Hr. split; [eauto|auto].
    + intros h Hh c0 C0. rewrite lookup_insert. case_decide as Hd; [subst c0|eauto].
      intros [= <-] Hu. rewrite Hu in Hin. destruct Hin as (_ & _ & n' & -> & Hh').
      exfalso. apply Hj. f_equal. congruence.
Qed.

Lemma new_connection_ok c r u b : (r = ConnectionRoleServer -> u = None) -> conn_ok c (new_connection r u b).
Proof.
  intros Hr. split; simpl; try done; [|auto].
  intros f Hf. by apply not_elem_of_nil in Hf.
Qed.

(** OnConnected gives a server connection a new peer. *)
Lemma set_new_peer c C a t :
  inv t -> conns t !! c = Some C -> c_busy C = true -> c_started C = true -> c_user C = None -> heap t !! a = None ->
  allowed (THandler c) t (upd_conns (alter (fun C => with_user C a) c) (upd_heap <[a := newPeer]> t)) /\
  mine c a (upd_conns (alter (fun C => with_user C a) c) (upd_heap <[a := newPeer]> t)).
Proof.
  intros [I1 I2 I3 I4 I5 I6 I7] HC Hb Hst Hu Ha.
  assert (Hne : forall p P, heap t !! p = Some P -> a <> p) by (intros p P HP ->; congruence).
  assert (Hle : conn_le C (with_user C a)) by (split; simpl; congruence || done).
  assert (Hunused : unused a t).
  { intros c0 C0 H0 E. destruct (I3 _ _ _ H0 E). congruence. }
  assert (Hok : conn_ok c (with_user C a)).
  { destruct (I1 _ _ HC) as [H1 H2 H3 H4 H5 H6 H7 H8]. split; simpl; try done. intros Hr Hs. congruence. }
  assert (Hback : forall c0 C0, <[c := with_user C a]> (conns t) !! c0 = Some C0 ->
             conn_ok c0 C0 /\ exists C1, conns t !! c0 = Some C1 /\
               (c0 <> c /\ C0 = C1 \/ c0 = c /\ C0 = with_user C a)).
  { intros c0 C0. rewrite lookup_insert. case_decide as Hd; [subst c0|].
    - intros [= <-]. split; [done|]. exists C. auto.
    - intros H0. split; [auto|]. exists C0. auto. }
  rewrite (upd_conns_alter _ _ C) by done. unfold mine. simpl. split; [split|].
  - split; simpl; try done.
    + intros c0 C0 H0. apply (Hback _ _ H0).
    + intros p P. rewrite lookup_insert. case_decide as Hd; [subst p; intros [= <-]; by split|].
      intros HP. apply (peer_ok_mono t); simpl; [by apply (conns_write_le c C)|auto|auto].
    + intros c0 C0 p H0 Hp. rewrite lookup_insert. case_decide as Hd; [eauto|].
      destruct (Hback _ _ H0) as (_ & C1 & H1 & [[_ ->]|[-> ->]]); [eauto|]. simpl in Hp. congruence.
    + intros c1 c2 C1 C2 p H1 H2 U1 U2.
      destruct (Hback _ _ H1) as (_ & D1 & G1 & [[N1 ->]|[-> ->]]), (Hback _ _ H2) as (_ & D2 & G2 & [[N2 ->]|[-> ->]]);
        simpl in *; simplify_eq; [by eapply I4|by destruct (Hunused _ _ G1)|by destruct (Hunused _ _ G2)|done].
    + intros id p Hp. destruct (I5 _ _ Hp) as (Hn & P & HP & E). split; [done|]. exists P.
      rewrite lookup_insert_ne by eauto. done.
    + intros h n Hh. rewrite lookup_insert. case_decide; [eauto|by eapply I6].
    + intros Ho c0 C0 p H0 Hf Hp id Hid.
      destruct (Hback _ _ H0) as (_ & C1 & H1 & [[_ ->]|[-> ->]]); [by eapply I7|].
      simpl in Hp. injection Hp as <-. destruct (I5 _ _ Hid) as (_ & P & HP & _). congruence.
  - intros j Hj. split; simpl.
    + intros p P HP. exists P. rewrite lookup_insert_ne by eauto. eauto using peer_le_refl.
    + intros c0 C0 H0. by apply (conns_write_le c C).
    + done.
    + destruct j as [c'|c'|c'|n]; simpl; [| |done|].
      * intros C0 H0 Hb0. split.
        -- exists C0. rewrite lookup_insert_ne by (intros ->; done). eauto using kept_refl.
        -- intros p Hp. rewrite lookup_insert_ne; [done|]. intros ->. by destruct (Hunused _ _ H0).
      * intros Ho C0 H0 Hr. assert (c' <> c) as Hcc.
        { intros ->. assert (C0 = C) as -> by congruence. destruct (I1 _ _ HC) as [_ _ _ _ _ _ Ht _].
          rewrite Ht in Hb; done. }
        split.
        -- exists C0. by rewrite lookup_insert_ne by done.
        -- intros p Hp. split; [|done]. rewrite lookup_insert_ne; [done|]. intros ->. by destruct (Hunused _ _ H0).
      * intros h Hh c0 C0 H0 Hp. destruct (Hback _ _ H0) as (_ & C1 & H1 & [[_ ->]|[-> ->]]); [eauto|].
        simpl in Hp. injection Hp as <-. destruct (I6 _ _ Hh). congruence.
  - exists (with_user C a). rewrite lookup_insert_eq. done.
Qed.

(** ** The peer table *)

(** The peer's connections, if any, are closed. *)
Definition gone p t : Prop := forall c C, conns t !! c = Some C -> c_user C = Some p -> c_closed C = true.

Lemma remove_allowed i id p t : inv t -> gone p t -> allowed i t (remove id p t).
Proof.
  intros Hi Hg. pose proof Hi as [I1 I2 I3 I4 I5 I6 I7]. unfold remove.
  case_bool_decide as Hid; [|by apply same_allowed].
  assert (Hsub : forall id0 q, delete id (remoteToConn t) !! id0 = Some q -> remoteToConn t !! id0 = Some q).
  { intros id0 q. rewrite lookup_delete_Some. by intros []. }
  split.
  - split; simpl; try done; eauto.
    + intros q Q HQ. destruct (I2 q Q HQ) as [Q1 Q2 Q3 Q4 Q5]. split; simpl; try done.
      intros Hs. destruct (Q5 Hs) as [Hn [Ht|Hc]]; split; [done| |done|by right].
      destruct (decide (id = remoteId Q)) as [->|Hne]; [|left; by rewrite lookup_delete_ne].
      right. assert (q = p) as -> by congruence. destruct (Q4 Hn) as (c & C & HC & Hu & _).
      exists c, C. eauto.
    + intros Ho c C q HC Hf Hu id0 H0. by eapply I7; eauto.
  - intros j _. split; simpl; eauto using peer_le_refl, conn_le_refl.
    destruct j; simpl; eauto using kept_refl. intros Ho C HC Hr. split; [eauto|]. intros q Hq. split; [done|auto].
Qed.

Lemma connect_allowed n h id t :
  inv t -> id <> "" -> heap t !! h = None -> allowed (TApi n) t (connect_locked n h id t).1.
Proof.
  intros Hi Hid Hh. pose proof Hi as [I1 I2 I3 I4 I5 I6 I7]. unfold connect_locked.
  destruct (remoteToConn t !! id) as [q|] eqn:Eq; [by apply same_allowed|]. simpl.
  assert (Hne : forall p P, heap t !! p = Some P -> h <> p) by (intros p P HP ->; congruence).
  assert (Hkeep : forall p P, heap t !! p = Some P -> <[h := newPeerWithId id]> (heap t) !! p = Some P).
  { intros p P HP. rewrite lookup_insert_ne; eauto. }
  assert (Htab : forall id0 p, remoteToConn t !! id0 = Some p -> <[id := h]> (remoteToConn t) !! id0 = Some p).
  { intros id0 p Hp. rewrite lookup_insert_ne; [done|]. intros ->. congruence. }
  split.
  - split; simpl; try done.
    + intros p P. rewrite lookup_insert. case_decide as Hd; [subst p; intros [= <-]; by split|].
      intros HP. apply (peer_ok_mono t); simpl; [eauto using conn_le_refl|eauto|auto].
    + intros c C p HC Hu. destruct (I3 _ _ _ HC Hu) as [P HP]. rewrite (Hkeep _ _ HP). eauto.
    + intros id0 p. rewrite lookup_insert. case_decide as Hd; [subst id0; intros [= <-]|].
      * split; [done|]. exists (newPeerWithId id). by rewrite lookup_insert_eq.
      * intros Hp. destruct (I5 _ _ Hp) as (? & P & HP & E). eauto.
    + intros h0 n0. rewrite !lookup_insert. case_decide as Hd; [eauto|apply I6].
    + intros Ho c C p HC Hf Hu id0. rewrite lookup_insert. case_decide as Hd; [|by eapply I7; eauto].
      intros [= <-]. destruct (I3 _ _ _ HC Hu). congruence.
  - intros j Hj. split; simpl; eauto using conn_le_refl, peer_le_refl.
    + intros h0 n0 H0. rewrite lookup_insert_ne; [done|]. intros <-. destruct (I6 _ _ H0). congruence.
    + destruct j as [c|c|c|n0]; simpl; [| |done|eauto].
      * intros C HC _. split; [eauto using kept_refl|]. intros p Hu. apply lookup_insert_ne.
        destruct (I3 _ _ _ HC Hu). eauto.
      * intros Ho C HC Hr. split; [eauto|]. intros p Hu. destruct (I3 _ _ _ HC Hu) as [P HP]. split.
        -- rewrite lookup_insert_ne; eauto.
        -- intros id0. rewrite lookup_insert. case_decide; [|done]. intros [= <-]. by destruct (Hne _ _ HP).
Qed.

Lemma connect_reserves n h id t t' :
  inv t -> heap t !! h = None -> connect_locked n h id t = (t', Some h) ->
  reserved t' !! h = Some n /\ unused h t' /\ is_Some (heap t' !! h).
Proof.
  intros Hi Hh. unfold connect_locked. destruct (remoteToConn t !! id); [done|]. intros [= <-]. simpl.
  split_and!; [apply lookup_insert_eq| |rewrite lookup_insert_eq; eauto].
  intros c C HC Hu. simpl in HC. destruct (i_user _ Hi _ _ _ HC Hu). congruence.
Qed.

(** handleHello enters the peer in the table in place of another one, which is closed. *)
Lemma hello_enters c p P id t :
  inv t -> mine c p t -> heap t !! p = Some P -> remoteId P = id -> id <> "" -> p_conn P <> None ->
  (forall old Q, remoteToConn t !! id = Some old -> old <> p -> heap t !! old = Some Q ->
     p_state Q = PeerStateConnected -> closed_peer t old) ->
  allowed (THandler c) t (upd_table <[id := p]> (upd_heap <[p := set_peer_state P PeerStateConnected]> t)).
Proof.
  intros Hi Hm HP Hr Hid Hconn Hold. set (P' := set_peer_state P PeerStateConnected).
  pose proof Hi as [I1 I2 I3 I4 I5 I6 I7]. destruct Hm as (C & HC & Hb & Hu).
  assert (Hg : getRemoteId P' = id).
  { unfold getRemoteId. simpl. rewrite Hr. by rewrite bool_decide_false. }
  split.
  - split; simpl; try done.
    + intros q Q. rewrite lookup_insert. case_decide as Hd; [subst q; intros [= <-]|].
      * destruct (I2 _ _ HP) as [Q1 Q2 Q3 Q4 Q5]. split; simpl; try done.
        intros _. split; [congruence|]. left. rewrite Hr. apply lookup_insert_eq.
      * intros HQ. destruct (I2 _ _ HQ) as [Q1 Q2 Q3 Q4 Q5]. split; simpl; try done.
        intros Hs. destruct (Q5 Hs) as [Hn [Ht|Hcl]]; split; [done| |done|by right].
        rewrite lookup_insert. case_decide as Hd'; [right|by left]. subst id. eapply Hold; eauto; congruence.
    + intros c0 C0 q H0 Hq. rewrite lookup_insert. case_decide; [eauto|by eapply I3].
    + intros id0 q. rewrite lookup_insert. case_decide as Hd; [subst id0; intros [= <-]|].
      * split; [done|]. exists P'. by rewrite lookup_insert_eq.
      * intros Hq. destruct (I5 _ _ Hq) as (Hn & Q & HQ & E). split; [done|]. exists Q.
        rewrite lookup_insert_ne; [done|]. intros ->. assert (Q = P) as -> by congruence.
        apply Hd. rewrite <- E, <- Hg. unfold getRemoteId. done.
    + intros h n Hh. rewrite lookup_insert. case_decide; [eauto|by eapply I6].
    + intros Ho c0 C0 q H0 Hf Hq id0. rewrite lookup_insert. case_decide as Hd; [|by eapply I7].
      intros [= ->]. assert (c0 = c) as -> by eauto. assert (C0 = C) as -> by congruence.
      destruct (I1 _ _ HC) as [_ _ _ _ _ _ Ht Hf']. rewrite (Ht Ho (Hf' Hf)) in Hb. done.
  - intros j Hj. split; simpl; eauto using conn_le_refl.
    + intros q Q HQ. rewrite lookup_insert. case_decide as Hd; [subst q|eauto using peer_le_refl].
      exists P'. split; [done|]. assert (Q = P) as -> by congruence. by split.
    + destruct j as [c'|c'|c'|n]; simpl; [| |done|eauto].
      * intros C0 H0 Hb0. split; [eauto using kept_refl|]. intros q Hq. apply lookup_insert_ne.
        intros ->. apply Hj. f_equal. eauto.
      * intros Ho C0 H0 Hret. split; [eauto|]. intros q Hq. assert (q <> p) as Hqp.
        { intros ->. assert (c' = c) as -> by eauto. assert (C0 = C) as -> by congruence.
          destruct (I1 _ _ HC) as [_ _ _ _ _ _ Ht _]. rewrite Ht in Hb; done. }
        split; [by rewrite lookup_insert_ne|]. intros id0. rewrite lookup_insert. case_decide; [|done]. congruence.
Qed.

Lemma allowed_trans i t1 t2 t3 : allowed i t1 t2 -> allowed i t2 t3 -> allowed i t1 t3.
Proof. intros [_ R1] [I2 R2]. split; [done|]. intros j Hj. eapply rely_trans; eauto. Qed.

Lemma closing_mine t t' c p : closing t t' -> mine c p t -> mine c p t'.
Proof.
  intros Hcl (C & HC & Hb & Hu). destruct (cl_to _ _ Hcl c C HC) as (C' & HC' & M).
  destruct (maybe_closed_fields _ _ M) as (K & _). exists C'.
  split_and!; [done|by rewrite (e_busy _ _ K)|by rewrite (e_user _ _ K)].
Qed.

Lemma peer_close_closes t old :
  inv t -> (exists P, heap t !! old = Some P /\ p_conn P <> None) -> closed_peer (peer_close old t) old.
Proof.
  intros Hi (P & HP & Hc). unfold peer_close. rewrite HP. simpl. destruct (p_conn P) as [c|] eqn:Ec; [|done].
  destruct (q_conn _ _ _ (i_peers _ Hi _ _ HP) c Ec) as (C & HC & Hu).
  exists c, (close_connection None C). split; [|unfold close_connection; by destruct (c_closed C) eqn:E].
  simpl. by rewrite lookup_alter_eq, HC.
Qed.
Lemma hello_allowed c p P id t t' ok :
  inv t -> mine c p t -> heap t !! p = Some P -> remoteId P = id -> id <> "" ->
  hello_locked p id t = (t', ok) ->
  allowed (THandler c) t t' /\ mine c p t'.
Proof.
  intros Hi Hm HP Hr Hid. unfold hello_locked, swapState. rewrite HP. case_bool_decide as Hst.
  2:{ intros [= <- _]. split; [by apply same_allowed|done]. }
  set (P' := set_peer_state P PeerStateConnected).
  assert (Hconn : p_conn P <> None).
  { apply (q_idle _ _ _ (i_peers _ Hi _ _ HP)). by rewrite Hst. }
  intros [= <- _]. simpl. destruct (remoteToConn t !! id) as [old|] eqn:Eo; [case_bool_decide as Hop|].
  1,3: split; [|done]; apply (hello_enters c p P id); try done; intros old' Q; congruence.
  assert (E : peer_close old (upd_heap <[p:=P']> t) = upd_heap <[p:=P']> (peer_close old t)).
  { unfold peer_close. simpl. rewrite lookup_insert_ne by done. by destruct (_ ≫= _). }
  rewrite E. pose proof (closing_peer_close t old) as Hcl.
  pose proof (closing_inv _ _ Hcl Hi) as Hi2. pose proof (closing_mine _ _ _ _ Hcl Hm) as Hm2.
  split; [|done]. eapply allowed_trans; [by apply closing_allowed|].
  apply (hello_enters c p P id); try done; [by rewrite (cl_heap _ _ Hcl)|].
  intros old' Q. rewrite (cl_table _ _ Hcl), (cl_heap _ _ Hcl), Eo. intros [= <-] _ HQ HQs.
  apply peer_close_closes; [done|]. exists Q. split; [done|].
  apply (q_idle _ _ _ (i_peers _ Hi _ _ HQ)). by rewrite HQs.
Qed.

(** ** The programs *)

Abbreviation safe := (safe exec inv rely).

(** Operations that nobody needs to know anything for. *)
Definition harmless {R} (o : top R) : bool :=
  match o with
  | SendMessage _ _ | CloseConn _ _ | ClosePeer _ | RunHeartbeatLoop _ | Lookup _ | Snapshot | WaitReady _
  | IsClosed _ | CtxErr | Cancel | Listen | Answer _ | LogError _ | Role _ | UserData _ | GetState _
  | GetRemoteId _ | GetConn _ => true
  | _ => false
  end.

Lemma harmless_closing {R : Set} (o : top R) i e t t' r :
  harmless o = true -> exec i R o e t = Some (t', r) -> closing t t'.
Proof.
  assert (Hsame : forall t1 t2, same t1 t2 -> closing t1 t2).
  { intros t1 t2 [E1 E2 E3 E4]. split; try done; rewrite E3; unfold maybe_closed; eauto. }
  destruct o; simpl; try done; intros _ He; simplify_option_eq; repeat case_match; simplify_eq; try done;
    try (by apply Hsame); try apply closing_refl; try apply closing_close_conn; try apply closing_peer_close.
Qed.

Lemma harmless_allowed {R : Set} (o : top R) i e t t' r :
  harmless o = true -> inv t -> exec i R o e t = Some (t', r) -> allowed i t t'.
Proof. intros Ho Hi He. apply closing_allowed; [done|]. by eapply harmless_closing. Qed.

Fixpoint all_harmless {A} (p : prog top A) : Prop :=
  match p with
  | Ret _ => True
  | Do o k => harmless o = true /\ forall r, all_harmless (k r)
  end.

Lemma all_harmless_andThen {A B} (p : prog top A) (k : A -> prog top B) :
  all_harmless p -> (forall a, all_harmless (k a)) -> all_harmless (andThen p k).
Proof. induction p as [a|R o f IH]; simpl; [auto|]. intros [Ho Hf] Hk. split; [done|]. auto. Qed.

Lemma safe_harmless i (p : prog top unit) t : all_harmless p -> safe i p anything t.
Proof.
  revert t. induction p as [a|R o k IH]; intros t; simpl; [done|].
  intros [Ho Hk] t1 e t2 r _ Hi He. split; [by eapply harmless_allowed|auto].
Qed.

Ltac harmless_tac :=
  repeat (simpl; first
    [ done
    | match goal with
      | |- all_harmless (andThen _ _) => apply all_harmless_andThen
      | |- _ /\ _ => split
      | |- forall _, _ => intros ?
      | |- all_harmless (match ?x with _ => _ end) => destruct x
      | |- all_harmless (if ?x then _ else _) => destruct x
      end ]).

Lemma send_harmless p data : all_harmless (send p data).
Proof. unfold send. harmless_tac. Qed.

Lemma broadcast_harmless l data k : all_harmless (broadcast_loop l data k).
Proof.
  revert k. induction l as [|[id h] l IH]; intros k; [done|]. cbn [broadcast_loop].
  apply all_harmless_andThen; [apply send_harmless|intros [err|]; apply IH].
Qed.

Lemma close_loop_harmless l : all_harmless (close_loop l).
Proof. induction l as [|[id h] l IH]; simpl; [done|]. auto. Qed.

(** *** The callbacks of a connection *)

(** The handler of [c] runs, and [C] is what it left in the connection. *)
Definition serving c C t : Prop := c_busy C = true /\ exists C', conns t !! c = Some C' /\ kept C C'.
Definition holds_peer c C p P t : Prop := serving c C t /\ c_user C = Some p /\ heap t !! p = Some P.

Lemma serving_rely c C t t' : rely (THandler c) t t' -> serving c C t -> serving c C t'.
Proof.
  intros R (Hb & C' & HC & K). split; [done|].
  destruct (r_own _ _ _ R C' HC) as [(C2 & H2 & K2) _]; [by rewrite (e_busy _ _ K)|].
  exists C2. split; [done|by eapply kept_trans].
Qed.

Lemma holds_peer_rely c C p P t t' : rely (THandler c) t t' -> holds_peer c C p P t -> holds_peer c C p P t'.
Proof.
  intros R (Hs & Hu & HP). split_and!; [by eapply serving_rely|done|].
  destruct Hs as (Hb & C' & HC & K). destruct (r_own _ _ _ R C' HC) as [_ Hh]; [by rewrite (e_busy _ _ K)|].
  rewrite Hh; [done|]. by rewrite (e_user _ _ K).
Qed.

Lemma serving_mine c C p t : serving c C t -> c_user C = Some p -> mine c p t.
Proof.
  intros (Hb & C' & HC & K) Hu. exists C'. split_and!; [done|by rewrite (e_busy _ _ K)|by rewrite (e_user _ _ K)].
Qed.

Lemma serving_start c C t : conns t !! c = Some C -> c_busy C = true -> serving c C t.
Proof. intros HC Hb. split; [done|]. exists C. split; [done|apply kept_refl]. Qed.

Lemma serving_peer c C p t : inv t -> serving c C t -> c_user C = Some p -> exists P, holds_peer c C p P t.
Proof.
  intros Hi Hs Hu. destruct (serving_mine _ _ _ _ Hs Hu) as (C' & HC & _ & Hu').
  destruct (i_user _ Hi _ _ _ HC Hu') as [P HP]. by exists P.
Qed.

(** A harmless operation keeps what the handler knows. *)
Lemma harmless_serving {R : Set} (o : top R) c C i e t t' r :
  harmless o = true -> exec i R o e t = Some (t', r) -> serving c C t -> serving c C t'.
Proof.
  intros Ho He (Hb & C' & HC & K). split; [done|]. destruct (cl_to _ _ (harmless_closing _ _ _ _ _ _ Ho He) _ _ HC) as (C2 & H2 & M).
  exists C2. split; [done|]. eapply kept_trans; [done|]. apply (maybe_closed_fields _ _ M).
Qed.
Lemma harmless_heap {R : Set} (o : top R) i e t t' r :
  harmless o = true -> exec i R o e t = Some (t', r) -> heap t' = heap t.
Proof. intros Ho He. apply (cl_heap _ _ (harmless_closing _ _ _ _ _ _ Ho He)). Qed.
Lemma harmless_holds_peer {R : Set} (o : top R) c C p P i e t t' r :
  harmless o = true -> exec i R o e t = Some (t', r) -> holds_peer c C p P t -> holds_peer c C p P t'.
Proof.
  intros Ho He (Hs & Hu & HP). split_and!; [by eapply harmless_serving|done|].
  by rewrite (harmless_heap _ _ _ _ _ _ Ho He).
Qed.

(** The rules for one harmless operation at the head of a callback. *)
Lemma step_serving {R : Set} {A} (o : top R) (k : R -> prog top A) c C Q t :
  harmless o = true -> serving c C t ->
  (forall t1 e t2 r, inv t1 -> serving c C t1 -> exec (THandler c) R o e t1 = Some (t2, r) ->
     serving c C t2 -> safe (THandler c) (k r) Q t2) ->
  safe (THandler c) (Do o k) Q t.
Proof.
  intros Ho Hs Hk t1 e t2 r Hr Hi He. split; [by eapply harmless_allowed|].
  pose proof (serving_rely _ _ _ _ Hr Hs). eapply Hk; eauto. by eapply harmless_serving.
Qed.

Lemma step_holds {R : Set} {A} (o : top R) (k : R -> prog top A) c C p P Q t :
  harmless o = true -> holds_peer c C p P t ->
  (forall t1 e t2 r, inv t1 -> holds_peer c C p P t1 -> exec (THandler c) R o e t1 = Some (t2, r) ->
     holds_peer c C p P t2 -> safe (THandler c) (k r) Q t2) ->
  safe (THandler c) (Do o k) Q t.
Proof.
  intros Ho Hs Hk t1 e t2 r Hr Hi He. split; [by eapply harmless_allowed|].
  pose proof (holds_peer_rely _ _ _ _ _ _ Hr Hs). eapply Hk; eauto. by eapply harmless_holds_peer.
Qed.

Lemma safe_getPeer c C t :
  serving c C t ->
  safe (THandler c) (getPeer c) (fun t r =>
    serving c C t /\ match r with Ok p => c_user C = Some p | Err _ => True end) t.
Proof.
  intros Hs. unfold getPeer. eapply step_serving; [done..|]. clear t Hs.
  intros t1 e t2 r Hi (Hb & C' & HC & K) He Hs. simpl in He. simplify_option_eq.
  rewrite (e_user _ _ K). by destruct (c_user C).
Qed.

(** Writing the peer of the running handler. *)
Lemma holds_write c C p P P' t :
  inv t -> holds_peer c C p P t -> peer_le P P' -> peer_ok t p P' ->
  (forall id, remoteToConn t !! id = Some p -> getRemoteId P' = id) ->
  allowed (THandler c) t (upd_heap <[p := P']> t) /\ holds_peer c C p P' (upd_heap <[p := P']> t).
Proof.
  intros Hi (Hs & Hu & HP) Hle Hok Ht. split.
  - apply (peer_write c p P); try done. by eapply serving_mine.
  - split_and!; [done|done|simpl; apply lookup_insert_eq].
Qed.

Lemma peer_table t p P : inv t -> heap t !! p = Some P ->
  forall id, remoteToConn t !! id = Some p -> id <> "" /\ getRemoteId P = id.
Proof.
  intros Hi HP id Hid. destruct (i_table _ Hi _ _ Hid) as (Hn & P' & HP' & E).
  split; [done|]. congruence.
Qed.

(** What a callback leaves: the business handler was called for every data
    frame, unless it fails. *)
Definition served c t (err : option gerr) : Prop :=
  exists C, serving c C t /\ (err = None -> (c_delivered C).*2 = datas (c_received C)).

Lemma served_intro c C t err :
  serving c C t -> (c_delivered C).*2 = datas (c_received C) -> served c t err.
Proof. intros. by exists C. Qed.
Lemma served_failed c C t e : serving c C t -> served c t (Some e).
Proof. intros. by exists C. Qed.
Lemma holds_failed c C p P t e : holds_peer c C p P t -> served c t (Some e).
Proof. intros [Hs _]. by eapply served_failed. Qed.

(** *** OnConnected *)

Definition handshake_rest (c : N) (found : res gerr N) : prog top (option gerr) :=
  match found with
  | Err err => Ret (Some (wrap "rpc connected  " err))
  | Ok p =>
    do! SetConn p c;
    swapped <-! SwapState p PeerStateIdle PeerStateHandshaking;
    if (swapped : bool) then
      err <-! SendMessage c (hello_frame localNodeID);
      match err with
      | Some err => do! LogError "rpc send hello"; Ret (Some err)
      | None => Ret None
      end
    else
      state <-! GetState p;
      Ret (Some (state_error "rpc connected " state))
  end.

Lemma set_conn_write c C p P t :
  inv t -> holds_peer c C p P t ->
  let t' := upd_heap (alter (fun P => setConn P c) p) t in
  allowed (THandler c) t t' /\ holds_peer c C p (setConn P c) t'.
Proof.
  intros Hi Hh. pose proof Hh as (Hs & Hu & HP). simpl.
  assert (E : upd_heap (alter (fun P => setConn P c) p) t = upd_heap <[p := setConn P c]> t).
  { unfold upd_heap. by rewrite (alter_Some_insert _ _ p P). }
  rewrite E. destruct (serving_mine _ _ _ _ Hs Hu) as (C' & HC & Hb & Hu').
  pose proof (i_peers _ Hi _ _ HP) as [Q1 Q2 Q3 Q4 Q5].
  apply (holds_write c C p P); try done.
  - split; simpl; try done. intros c0 Hc0. destruct (Q2 _ Hc0) as (C0 & H0 & U0). f_equal.
    by eapply (i_inj _ Hi).
  - split; simpl; try done. intros c0 [= <-]. eauto.
  - intros id Hid. apply (peer_table _ _ _ Hi HP _ Hid).
Qed.

Lemma swap_handshaking c C p P t t' ok :
  inv t -> holds_peer c C p P t -> p_conn P <> None ->
  swapState p PeerStateIdle PeerStateHandshaking t = (t', ok) ->
  allowed (THandler c) t t' /\ exists P', holds_peer c C p P' t'.
Proof.
  intros Hi Hh Hc. pose proof Hh as (Hs & Hu & HP). unfold swapState. rewrite HP.
  case_bool_decide as Hst; intros [= <- <-]; [|split; [by apply same_allowed|eauto]].
  destruct (holds_write c C p P (set_peer_state P PeerStateHandshaking) t) as [Ha Hh'];
    [done|done|by split| | |split; [done|eauto]].
  - pose proof (i_peers _ Hi _ _ HP) as [Q1 Q2 Q3 Q4 Q5]. by split.
  - intros id Hid. apply (peer_table _ _ _ Hi HP _ Hid).
Qed.

Lemma safe_handshake_rest c C found t :
  inv t -> serving c C t -> (c_delivered C).*2 = datas (c_received C) ->
  match found with Ok p => c_user C = Some p | Err _ => True end ->
  safe (THandler c) (handshake_rest c found) (served c) t.
Proof.
  intros Hi Hs Hd Hf. destruct found as [p|e]; [|by apply (served_failed c C)].
  destruct (serving_peer _ _ _ _ Hi Hs Hf) as [P Hh]. clear Hs Hi.
  intros t1 e t2 r Hr Hi He. simpl in He. injection He as <- <-.
  apply (holds_peer_rely _ _ _ _ _ _ Hr) in Hh. clear t Hr.
  destruct (set_conn_write _ _ _ _ _ Hi Hh) as [Ha Hh2]. split; [done|]. clear Hh Hi Ha.
  intros t3 e3 t4 swapped Hr Hi He. apply (holds_peer_rely _ _ _ _ _ _ Hr) in Hh2. simpl in He. injection He as He.
  destruct (swap_handshaking _ _ _ _ _ _ _ Hi Hh2 ltac:(done) He) as [Ha (P' & Hh)]. split; [done|].
  clear - Hh Hd. destruct swapped.
  - eapply step_holds; [done..|]. clear - Hd. intros t1 e t2 err _ _ _ Hh. destruct err as [err|].
    + eapply step_holds; [done..|]. intros. by eapply holds_failed.
    + destruct Hh as [Hs _]. by apply (served_intro c C).
  - eapply step_holds; [done..|]. intros. by eapply holds_failed.
Qed.

Lemma safe_OnConnected c C t :
  inv t -> serving c C t -> (c_delivered C).*2 = datas (c_received C) -> c_started C = true ->
  (c_role C = ConnectionRoleServer -> c_user C = None) ->
  safe (THandler c) (OnConnected localNodeID c) (served c) t.
Proof.
  intros Hi Hs Hd Hst Hrole. unfold OnConnected. eapply step_serving; [done..|]. clear t Hi Hs.
  intros t1 e t2 role Hi1 (Hb & C1 & HC1 & K1) He Hs. simpl in He. rewrite HC1 in He. injection He as -> <-.
  rewrite (e_role _ _ K1).
  assert (Hrest : forall C t, inv t -> serving c C t -> (c_delivered C).*2 = datas (c_received C) ->
            safe (THandler c) (found <~ getPeer c; handshake_rest c found) (served c) t).
  { clear. intros C t Hi Hs Hd. eapply safe_bind; [by eapply (safe_getPeer c C)|done|].
    intros t' found Hi' [Hs' Hf]. by apply (safe_handshake_rest c C). }
  case_decide as Hsrv; [|by apply (Hrest C)].
  specialize (Hrole Hsrv). clear - Hs Hd Hst Hrole Hrest. intros t1 e t3 r Hr Hi He.
  apply (serving_rely _ _ _ _ Hr) in Hs. destruct Hs as (Hb & C1 & HC1 & K1). simpl in He.
  destruct (heap t1 !! o_addr e) eqn:Ha; [done|]. injection He as <- <-. unfold upd_conn.
  destruct (set_new_peer c C1 (o_addr e) t1) as [Hal (C2 & HC2 & Hb2 & Hu2)]; try done.
  { by rewrite (e_busy _ _ K1). } { by rewrite (e_started _ _ K1). } { by rewrite (e_user _ _ K1). }
  split; [done|].
  assert (C2 = with_user C1 (o_addr e)) as ->.
  { revert HC2. simpl. rewrite (alter_Some_insert _ _ c C1), lookup_insert_eq by done. congruence. }
  apply (Hrest (with_user C1 (o_addr e))); [apply Hal|by apply serving_start|].
  simpl. by rewrite (e_delivered _ _ K1), (e_received _ _ K1).
Qed.

(** *** OnMessage *)

Definition pending (f : MessageFrame) : list (list Z) := if is_data f then [f_Body f] else [].

Lemma bind_write c C p P id t P' err :
  inv t -> holds_peer c C p P t -> hello_got C id -> id <> "" -> bindRemoteId P id = (P', err) ->
  allowed (THandler c) t (upd_heap <[p := P']> t) /\ holds_peer c C p P' (upd_heap <[p := P']> t) /\
  (err = None -> remoteId P' = id).
Proof.
  intros Hi Hh Hg Hid. pose proof Hh as (Hs & Hu & HP). unfold bindRemoteId.
  pose proof (i_peers _ Hi _ _ HP) as Hok. pose proof Hok as [Q1 Q2 Q3 Q4 Q5].
  assert (Hrem : remoteId P <> "" -> remoteId P = id).
  { intros Hn. destruct (Q4 Hn) as (c0 & C0 & H0 & U0 & f & Hf & Hfh & E0).
    destruct Hs as (_ & C' & HC & K). assert (c_user C' = Some p) as Hu' by (by rewrite (e_user _ _ K)).
    assert (c0 = c) as -> by (by eapply (i_inj _ Hi)). assert (C0 = C') as -> by congruence.
    destruct Hg as (g & Hg & Hgh & <-). rewrite <- (e_received _ _ K) in Hg.
    pose proof (i_conns _ Hi _ _ HC) as OK. rewrite (k_hello _ _ OK g Hg Hgh), <- (k_hello _ _ OK f Hf Hfh). done. }
  destruct (negb (bool_decide (expected P = "")) && negb (bool_decide (id = expected P))) eqn:Eg.
  - intros [= <- <-]. destruct (holds_write c C p P P t) as [Ha Hh']; try done.
    intros id0 Hid0. apply (peer_table _ _ _ Hi HP _ Hid0).
  - apply andb_false_iff in Eg. rewrite !negb_false_iff, !bool_decide_eq_true in Eg.
    intros [= <- <-]. set (P' := mkPeer id (expected P) (p_state P) (p_conn P)).
    destruct (holds_write c C p P P' t) as [Ha Hh']; try done.
    + split; simpl; try done. intros Hn. by rewrite Hrem.
    + split; simpl; try done.
      * intros _. destruct Eg; auto.
      * intros _. destruct Hs as (_ & C' & HC & K). exists c, C'. split_and!; [done|by rewrite (e_user _ _ K)|].
        unfold hello_got. by rewrite (e_received _ _ K).
      * intros Hs'. destruct (Q5 Hs') as [Hn H5]. split; [done|]. rewrite <- (Hrem Hn). done.
    + intros id0 Hid0. destruct (peer_table _ _ _ Hi HP _ Hid0) as [Hn0 E0]. unfold getRemoteId in *. simpl.
      rewrite bool_decide_false by done. case_bool_decide as Hr; [|by rewrite <- E0, Hrem].
      destruct Eg as [Eg|Eg]; [congruence|]. congruence.
Qed.

Lemma hello_serving c C p id t t' ok :
  hello_locked p id t = (t', ok) -> serving c C t -> serving c C t'.
Proof.
  assert (Hclose : forall t1 t2, closing t1 t2 -> serving c C t1 -> serving c C t2).
  { intros t1 t2 Hcl (Hb & C' & HC & K). split; [done|]. destruct (cl_to _ _ Hcl _ _ HC) as (C2 & H2 & M).
    exists C2. split; [done|]. eapply kept_trans; [done|]. apply (maybe_closed_fields _ _ M). }
  unfold hello_locked, swapState. destruct (heap t !! p) as [P|]; [|by intros [= <- _]].
  case_bool_decide; [|by intros [= <- _]]. intros [= <- _] Hs. simpl.
  destruct (remoteToConn t !! id) as [old|]; [case_bool_decide|]; [done| |done].
  unfold serving. simpl. by eapply Hclose; [apply closing_peer_close|].
Qed.

Lemma safe_handleHello c C f t :
  inv t -> serving c C t -> f ∈ c_received C -> is_hello f = true -> (c_delivered C).*2 = datas (c_received C) ->
  safe (THandler c) (handleHello c f) (served c) t.
Proof.
  intros Hi Hs Hf Hh Hd. unfold handleHello. set (id := string_of_bytes (f_Body f)).
  assert (Hg : hello_got C id) by (by exists f).
  case_bool_decide as Hid; [by eapply served_failed|].
  eapply safe_bind; [by apply (safe_getPeer c C)|done|]. clear t Hi Hs.
  intros t found Hi [Hs Hu]. destruct found as [p|e]; [|by eapply served_failed].
  destruct (serving_peer _ _ _ _ Hi Hs Hu) as [P Hp]. clear Hs Hi.
  intros t1 e t2 err Hr Hi He. apply (holds_peer_rely _ _ _ _ _ _ Hr) in Hp. clear Hr.
  pose proof Hp as (_ & _ & HP). simpl in He. rewrite HP in He. simpl in He.
  destruct (bindRemoteId P id) as [P' err'] eqn:Eb. injection He as <- <-.
  destruct (bind_write _ _ _ _ _ _ _ _ Hi Hp Hg Hid Eb) as (Ha & Hp' & Hr). split; [done|]. clear t Hi Hp HP Eb Ha.
  destruct err' as [err|]; [by eapply holds_failed|]. specialize (Hr eq_refl).
  intros t2 e2 t3 ok Hrel Hi He. apply (holds_peer_rely _ _ _ _ _ _ Hrel) in Hp'. clear Hrel t1.
  simpl in He. injection He as He. pose proof Hp' as (Hs & _ & HP).
  destruct (hello_allowed c p P' id t2 t3 ok) as [Ha Hm]; try done; [by eapply serving_mine|]. split; [done|].
  pose proof (hello_serving _ _ _ _ _ _ _ He Hs) as Hs3. clear - Hs3 Hd. destruct ok.
  - eapply step_serving; [done..|]. intros. by apply (served_intro c C).
  - eapply step_serving; [done..|]. intros. by eapply served_failed.
Qed.

Lemma safe_handleData c C f t :
  inv t -> serving c C t -> (c_delivered C).*2 ++ [f_Body f] = datas (c_received C) ->
  safe (THandler c) (handleData c f) (served c) t.
Proof.
  intros Hi Hs Hd. unfold handleData.
  eapply safe_bind; [by apply (safe_getPeer c C)|done|]. clear t Hi Hs.
  intros t found Hi [Hs Hu]. destruct found as [p|e]; [|by eapply served_failed].
  destruct (serving_peer _ _ _ _ Hi Hs Hu) as [P Hp]. clear Hs Hi.
  eapply step_holds; [done..|]. clear t Hp. intros t1 e t2 st Hi (Hs1 & _ & HP1) He Hp. simpl in He.
  rewrite HP1 in He. injection He as <- <-. case_bool_decide as Hst; cbn [negb].
  2:{ eapply step_holds; [done..|]. intros. by eapply holds_failed. }
  assert (Hg : getRemoteId P = remoteId P /\ hello_got C (remoteId P)).
  { pose proof (i_peers _ Hi _ _ HP1) as [_ _ _ Q4 Q5]. destruct (Q5 Hst) as [Hn _].
    split; [unfold getRemoteId; by rewrite bool_decide_false|].
    destruct (Q4 Hn) as (c0 & C0 & H0 & U0 & Hg). destruct Hs1 as (_ & C' & HC & K).
    assert (c_user C' = Some p) as Hu' by (by rewrite (e_user _ _ K)).
    assert (c0 = c) as -> by (by eapply (i_inj _ Hi)). assert (C0 = C') as -> by congruence.
    revert Hg. unfold hello_got. by rewrite (e_received _ _ K). }
  destruct Hg as [Hid Hg]. clear Hi Hs1 HP1 Hst. eapply step_holds; [done..|]. clear t1 Hp.
  intros t1 e1 t2 rid Hi (_ & _ & HP1) He Hp. simpl in He. rewrite HP1 in He. injection He as <- <-.
  clear HP1 Hi. rewrite Hid. destruct Hp as [Hs _]. clear - Hs Hd Hg.
  intros t2 e t3 err Hrel Hi He. apply (serving_rely _ _ _ _ Hrel) in Hs. clear Hrel t1.
  simpl in He. injection He as <- <-. pose proof Hs as (Hb & C1 & HC1 & K1). unfold upd_conn.
  rewrite (upd_conns_alter _ _ C1) by done. set (C2 := set_delivered C1 _).
  assert (Hdel : (c_delivered C2).*2 = datas (c_received C2)).
  { simpl. rewrite fmap_app, (e_delivered _ _ K1), (e_received _ _ K1). done. }
  pose proof (i_conns _ Hi _ _ HC1) as Hok.
  assert (Hal : allowed (THandler c) t2 (upd_conns <[c:=C2]> t2)).
  { apply (conn_write _ c C1); try done; [|by intros ? Hf1 Hf2; simpl in Hf1; congruence|by right; left].
    destruct Hok as [H1 H2 H3 H4 H5 H6 H7 H8]. split; simpl; try done; [simpl in Hdel; by rewrite Hdel| ].
    apply Forall_app. split; [done|]. constructor; [|done]. simpl. revert Hg. unfold hello_got. simpl.
    by rewrite (e_received _ _ K1). }
  split; [done|].
  assert (Hs2 : serving c C2 (upd_conns <[c:=C2]> t2)).
  { apply serving_start; [simpl; apply lookup_insert_eq|]. simpl. by rewrite (e_busy _ _ K1). }
  clear - Hs2 Hdel. destruct (o_err e); [|by apply (served_intro c C2)].
  eapply step_serving; [done..|]. intros. by apply (served_intro c C2).
Qed.

Lemma safe_handleHeartbeat c C t :
  inv t -> serving c C t -> (c_delivered C).*2 = datas (c_received C) ->
  safe (THandler c) (handleHeartbeat c) (served c) t.
Proof.
  intros Hi Hs Hd. unfold handleHeartbeat.
  eapply safe_bind; [by apply (safe_getPeer c C)|done|]. clear t Hi Hs.
  intros t found Hi [Hs Hu]. destruct found as [p|e]; [|by eapply served_failed].
  eapply step_serving; [done..|]. intros. case_bool_decide; cbn [negb]; [by apply (served_intro c C)|].
  intros t3 e3 t4 r3 R3 I3 E3. assert (serving c C t3) as S3 by (by eapply serving_rely).
  split; [by eapply harmless_allowed; [|done|exact E3]|].
  eapply served_failed. by eapply harmless_serving; [|exact E3|].
Qed.

Lemma safe_OnMessage c C f t :
  inv t -> serving c C t -> f ∈ c_received C -> (c_delivered C).*2 ++ pending f = datas (c_received C) ->
  safe (THandler c) (OnMessage c f) (served c) t.
Proof.
  intros Hi Hs Hf Hd. unfold OnMessage, pending in *.
  assert (Hx : is_hello f = true -> is_data f = false).
  { unfold is_hello, is_data. intros E. apply Z.eqb_eq in E. rewrite E. reflexivity. }
  assert (Hw : forall prefix body, safe (THandler c) body (served c) t ->
    safe (THandler c) (err <~ body; Ret match err with Some err => Some (wrap prefix err) | None => None end)
      (served c) t).
  { intros prefix body Hb. eapply safe_bind; [done..|]. intros t' err _ (C' & HC' & H'). exists C'.
    split; [done|]. destruct err; [done|]. auto. }
  destruct (is_hello f) eqn:Eh.
  { rewrite (Hx eq_refl), app_nil_r in Hd. apply Hw. by apply (safe_handleHello c C). }
  destruct (is_data f) eqn:Ed; [apply Hw; by apply (safe_handleData c C)|]. rewrite app_nil_r in Hd.
  destruct (is_heartbeat f); [apply Hw; by apply (safe_handleHeartbeat c C)|].
  eapply step_serving; [done..|]. intros. by apply (served_intro c C).
Qed.

(** The caller of a callback takes note of its result. *)
Lemma safe_callback c body t :
  safe (THandler c) body (served c) t -> inv t -> safe (THandler c) (callback c body) anything t.
Proof.
  intros Hb Hi. unfold callback. eapply safe_bind; [done..|]. clear t Hb Hi.
  intros t err Hi (C & Hs & Hd). intros t1 e t2 r Hrel Hi1 He.
  apply (serving_rely _ _ _ _ Hrel) in Hs. clear Hrel Hi t. split; [|done].
  simpl in He. injection He as <- <-.
  set (t3 := match err with Some err => close_conn c (Some err) t1 | None => t1 end).
  assert (Hcl : closing t1 t3) by (destruct err; [apply closing_close_conn|apply closing_refl]).
  eapply allowed_trans; [by apply closing_allowed|]. pose proof (closing_inv _ _ Hcl Hi1) as Hi3.
  destruct Hs as (Hb & C1 & HC1 & K1). destruct (cl_to _ _ Hcl _ _ HC1) as (C3 & HC3 & M).
  destruct (maybe_closed_fields _ _ M) as (K3 & L3 & _). unfold upd_conn. rewrite (upd_conns_alter _ _ C3) by done.
  pose proof (i_conns _ Hi3 _ _ HC3) as [H1 H2 H3 H4 H5 H6 H7 H8].
  apply (conn_write _ c C3); try done; [|by intros ? Hf1 Hf2; simpl in Hf1; congruence|by right; left].
  - split; simpl; try done. intros _ Hopen. rewrite (e_delivered _ _ K3), (e_delivered _ _ K1), (e_received _ _ K3), (e_received _ _ K1).
    destruct err as [err|]; [|auto]. exfalso. subst t3. simpl in HC3. rewrite lookup_alter_eq, HC1 in HC3.
    injection HC3 as <-. unfold close_connection in Hopen. destruct (c_closed C1) eqn:E; simpl in Hopen; congruence.
Qed.

(** *** OnClose *)

(** OnClose of [c] runs; with [orderly], its user data is still [u]. *)
Definition retiring c (u : option N) t : Prop :=
  exists C, conns t !! c = Some C /\ c_retired C = true /\ (orderly = true -> c_user C = u).

Lemma retiring_rely c u t t' : rely (TCloser c) t t' -> retiring c u t -> retiring c u t'.
Proof.
  intros R (C & HC & Hr & Hu). destruct (r_conns _ _ _ R _ _ HC) as (C' & HC' & L).
  exists C'. split_and!; [done|by apply (l_retired _ _ L)|]. intros Ho.
  destruct (r_own _ _ _ R Ho C HC Hr) as [(C2 & H2 & U2 & _) _]. rewrite <- Hu by done. congruence.
Qed.

(** The user data is [p] for good. *)
Definition user_of c p t : Prop := exists C, conns t !! c = Some C /\ c_user C = Some p.
Definition user_closed c p t : Prop := exists C, conns t !! c = Some C /\ c_user C = Some p /\ c_closed C = true.

Lemma user_of_rely i c p t t' : rely i t t' -> user_of c p t -> user_of c p t'.
Proof.
  intros R (C & HC & Hu). destruct (r_conns _ _ _ R _ _ HC) as (C' & HC' & L).
  exists C'. split; [done|by apply (l_user _ _ L)].
Qed.
Lemma user_closed_rely i c p t t' : rely i t t' -> user_closed c p t -> user_closed c p t'.
Proof.
  intros R (C & HC & Hu & Hk). destruct (r_conns _ _ _ R _ _ HC) as (C' & HC' & L).
  exists C'. split_and!; [done|by apply (l_user _ _ L)|by apply (l_closed _ _ L)].
Qed.
Lemma user_closed_gone c p t : inv t -> user_closed c p t -> gone p t.
Proof.
  intros Hi (C & HC & Hu & Hk) c' C' HC' Hu'. assert (c' = c) as -> by (by eapply (i_inj _ Hi)).
  congruence.
Qed.

Lemma forget_allowed c t :
  inv t -> (exists C, conns t !! c = Some C /\ c_retired C = true /\
    (orderly = true -> forall p, c_user C = Some p -> forall id, remoteToConn t !! id <> Some p)) ->
  allowed (TCloser c) t (upd_conns (alter (fun C => set_retired C true) c) t).
Proof.
  intros Hi (C & HC & Hr & Hf). rewrite (upd_conns_alter _ _ C) by done.
  pose proof (i_conns _ Hi _ _ HC) as [H1 H2 H3 H4 H5 H6 H7 H8].
  apply (conn_write _ c C); try done; [split; simpl; auto; done|by intros Ho _ _; apply Hf|].
  left. by split.
Qed.

Lemma safe_closer c t :
  inv t -> (exists C, conns t !! c = Some C /\ c_retired C = true) -> safe (TCloser c) (closer c) anything t.
Proof.
  intros Hi (C & HC & Hr). assert (Hret : retiring c (c_user C) t) by (exists C; auto).
  unfold closer, OnClose, getPeer. cbn [andThen]. generalize (c_user C), Hret. clear C HC Hr Hret.
  intros u Hret t1 e t2 r R1 I1 E1. apply (retiring_rely _ _ _ _ R1) in Hret. clear t Hi R1. split; [by eapply harmless_allowed; [|done|exact E1]|].
  destruct Hret as (C & HC & Hr & Hu). simpl in E1. rewrite HC in E1. injection E1 as <- <-.
  assert (Hret : retiring c (c_user C) t1) by (exists C; auto).
  assert (Hk : c_closed C = true) by (by apply (k_retired _ _ (i_conns _ I1 _ _ HC))).
  destruct (c_user C) as [p|] eqn:Ep; cbn [andThen].
  2:{ intros t3 e3 t4 r3 R3 I3 E3. apply (retiring_rely _ _ _ _ R3) in Hret. simpl in E3. injection E3 as <- <-.
      split; [|done]. destruct Hret as (C3 & HC3 & Hr3 & Hu3). apply forget_allowed; [done|].
      exists C3. split_and!; [done|done|]. intros Ho p Hp. rewrite (Hu3 Ho) in Hp. done. }
  assert (Huc : user_closed c p t1) by (by exists C). clear u Hu C HC Hr Ep Hk I1.
  intros t3 e3 t4 id R3 I3 E3. apply (retiring_rely _ _ _ _ R3) in Hret. apply (user_closed_rely _ _ _ _ _ R3) in Huc.
  split; [by eapply harmless_allowed; [|done|exact E3]|]. clear t1 R3. simpl in E3.
  destruct (heap t3 !! p) as [P|] eqn:HP; [|done]. injection E3 as <- <-.
  intros t5 e5 t6 r5 R5 I5 E5. pose proof (retiring_rely _ _ _ _ R5 Hret) as Hret5.
  apply (user_closed_rely _ _ _ _ _ R5) in Huc. simpl in E5. injection E5 as <- <-.
  pose proof (remove_allowed (TCloser c) (getRemoteId P) p t5 I5 (user_closed_gone _ _ _ I5 Huc)) as Ha.
  split; [done|].
  assert (Hnone : orderly = true -> forall id, remoteToConn (remove (getRemoteId P) p t5) !! id <> Some p).
  { intros Ho id Hid. destruct Hret as (C & HC & Hr & Hu).
    destruct (r_own _ _ _ R5 Ho C HC Hr) as [_ Hq]. destruct (Hq p (Hu Ho)) as [Eh _].
    rewrite HP in Eh. assert (Hold : remoteToConn t5 !! id = Some p /\ id <> getRemoteId P).
    { revert Hid. unfold remove. case_bool_decide as Hb; simpl.
      - rewrite lookup_delete_Some. intros []. split; [done|congruence].
      - intros Hid. split; [done|]. intros ->. done. }
    destruct Hold as [Hold Hne]. apply Hne. symmetry. by apply (peer_table _ _ _ I5 Eh). }
  assert (Hret6 : retiring c (Some p) (remove (getRemoteId P) p t5)).
  { unfold remove. case_bool_decide; done. }
  clear - Hret6 Hnone. set (t := remove _ _ _) in *. clearbody t.
  intros t1 e t2 r R1 I1 E1. simpl in E1. injection E1 as <- <-. split; [|done].
  pose proof (retiring_rely _ _ _ _ R1 Hret6) as (C1 & HC1 & Hr1 & Hu1). apply forget_allowed; [done|].
  exists C1. split_and!; [done|done|]. intros Ho q Hq id Hid. rewrite (Hu1 Ho) in Hq. injection Hq as <-.
  destruct Hret6 as (C & HC & Hr & Hu). destruct (r_own _ _ _ R1 Ho C HC Hr) as [_ Hk].
  destruct (Hk p (Hu Ho)) as [_ Ht]. by apply (Hnone Ho id), Ht.
Qed.

(** *** Connect *)

(** The peer made by this call has no connection, or a closed one. *)
Definition lost n h t : Prop :=
  (reserved t !! h = Some n /\ unused h t) \/ exists c, user_closed c h t.

Lemma reserved_rely i n h t t' : rely i t t' -> reserved t !! h = Some n -> reserved t' !! h = Some n.
Proof. intros R. apply (r_reserved _ _ _ R). Qed.

Lemma unused_rely n h t t' : rely (TApi n) t t' -> reserved t !! h = Some n -> unused h t -> unused h t'.
Proof.
  intros R Hr Hu c C HC E. destruct (r_own _ _ _ R h Hr c C HC E) as (C0 & H0 & E0). by apply (Hu c C0).
Qed.

Lemma lost_rely n h t t' : rely (TApi n) t t' -> lost n h t -> lost n h t'.
Proof.
  intros R [[Hr Hu]|[c Hc]]; [left|right].
  - split; [by eapply reserved_rely|by eapply unused_rely].
  - exists c. by eapply user_closed_rely.
Qed.

Lemma lost_gone n h t : inv t -> lost n h t -> gone h t.
Proof.
  intros Hi [[_ Hu]|[c Hc]]; [|by eapply user_closed_gone]. intros c C HC E. by destruct (Hu c C).
Qed.

Lemma closing_user_of t t' c h : closing t t' -> user_of c h t -> user_of c h t'.
Proof.
  intros Hcl (C & HC & Hu). destruct (cl_to _ _ Hcl _ _ HC) as (C' & HC' & M).
  destruct (maybe_closed_fields _ _ M) as (K & _). exists C'. split; [done|]. by rewrite (e_user _ _ K).
Qed.

Lemma close_user_closed c h err t : user_of c h t -> user_closed c h (close_conn c err t).
Proof.
  intros (C & HC & Hu). exists (close_connection err C). simpl. rewrite lookup_alter_eq, HC.
  split; [done|]. unfold close_connection. by destruct (c_closed C) eqn:E.
Qed.

Lemma run_start_allowed i c h t :
  inv t -> user_of c h t -> allowed i t (upd_conns (alter set_running c) t) /\ user_of c h (upd_conns (alter set_running c) t).
Proof.
  intros Hi (C & HC & Hu). rewrite (upd_conns_alter _ _ C) by done. split.
  - apply (conn_write _ c C); try done; [|by intros ? Hf1 Hf2; simpl in Hf1; congruence|by left].
    by destruct (i_conns _ Hi _ _ HC).
  - exists (set_running C). simpl. by rewrite lookup_insert_eq.
Qed.

Lemma safe_DialTCP n h address t :
  inv t -> reserved t !! h = Some n -> unused h t ->
  safe (TApi n) (DialTCP address h)
    (fun t r => match r with Ok c => user_of c h t | Err _ => lost n h t end) t.
Proof.
  intros Hi Hr Hu. unfold DialTCP. intros t1 e t2 r R1 I1 E1.
  pose proof (reserved_rely _ _ _ _ _ R1 Hr) as Hr1. pose proof (unused_rely _ _ _ _ R1 Hr Hu) as Hu1.
  clear t Hi Hr Hu R1. simpl in E1. destruct (o_err e) as [err|].
  { injection E1 as <- <-. split; [by apply same_allowed|]. by left. }
  destruct (conns t1 !! o_addr e) eqn:Ec; [done|]. injection E1 as <- <-. split.
  { apply conn_new; try done; [by apply new_connection_ok|]. unfold introduces. simpl. split_and!; [by apply (i_reserved _ I1 _ n)|done|eauto]. }
  set (c := o_addr e). assert (Hc : user_of c h (upd_conns <[c := new_connection ConnectionRoleClient (Some h) false]> t1)).
  { eexists. simpl. by rewrite lookup_insert_eq. }
  clear Ec Hu1 Hr1 I1. clearbody c. generalize dependent (upd_conns <[c := new_connection ConnectionRoleClient (Some h) false]> t1).
  clear t1 e. intros t Hc t1 e t2 r R1 I1 E1. apply (user_of_rely _ _ _ _ _ R1) in Hc. clear t R1.
  destruct (run_start_allowed (TApi n) c h t1 I1 Hc) as [Ha Hc2]. simpl in E1. destruct (o_err e) as [err|].
  { injection E1 as <- <-. split.
    - eapply allowed_trans; [done|]. apply closing_allowed; [apply Ha|apply closing_close_conn].
    - right. exists c. by apply close_user_closed. }
  injection E1 as <- <-. split; [done|]. clear Hc Ha I1. unfold upd_conn. generalize dependent (upd_conns (alter set_running c) t1).
  clear t1 e. intros t Hc t1 e t2 r R1 I1 E1. apply (user_of_rely _ _ _ _ _ R1) in Hc. clear t R1.
  split; [by eapply harmless_allowed; [|done|exact E1]|].
  assert (H2 : user_of c h t2 /\ forall err, r = Some err -> user_closed c h t2).
  { split; [eapply closing_user_of; [by eapply harmless_closing; [|exact E1]|done]|].
    intros err ->. pose proof Hc as (C & HC & Hu). simpl in E1. rewrite HC in E1. simpl in E1.
    repeat case_match; simplify_eq; first [by exists C|by apply close_user_closed; exists C]. }
  clear E1 I1 Hc t1 e. destruct H2 as [Hc Herr]. destruct r as [err|]; [right; exists c; by apply (Herr err)|].
  clear Herr. intros t1 e t3 r R1 I1 E1. apply (user_of_rely _ _ _ _ _ R1) in Hc. clear t2 R1.
  split; [by eapply harmless_allowed; [|done|exact E1]|]. pose proof Hc as (C & HC & Hu). simpl in E1.
  rewrite HC in E1. injection E1 as <- <-. destruct (c_closed C) eqn:Ek; [right; by exists c, C|done].
Qed.

Lemma safe_remove {A} n h id (k : prog top A) t :
  (forall t, safe (TApi n) k anything t) -> lost n h t ->
  safe (TApi n) (Do (Remove id h) (fun _ => k)) anything t.
Proof.
  intros Hk Hl t1 e t2 r R1 I1 E1. apply (lost_rely _ _ _ _ R1) in Hl. simpl in E1. injection E1 as <- <-.
  split; [|done]. apply remove_allowed; [done|by eapply lost_gone].
Qed.

Lemma safe_Connect n id address t :
  inv t -> id <> "" -> safe (TApi n) (Connect localNodeID handler_nil id address) anything t.
Proof.
  intros Hi Hid. unfold Connect. case_bool_decide; [done|]. destruct handler_nil; [done|].
  intros t1 e t2 r R1 I1 E1. clear t Hi R1. simpl in E1.
  destruct (heap t1 !! o_addr e) eqn:Eh; [done|]. injection E1 as E1.
  pose proof (connect_allowed n (o_addr e) id t1 I1 Hid Eh) as Ha. rewrite E1 in Ha. split; [done|].
  destruct r as [h|]; [|done].
  assert (h = o_addr e) as ->.
  { revert E1. unfold connect_locked. by destruct (remoteToConn t1 !! id); intros [= ]. }
  destruct (connect_reserves _ _ _ _ _ I1 Eh E1) as (Hr & Hu & _). destruct Ha as [I2 _].
  eapply safe_bind; [by eapply safe_DialTCP|done|]. clear.
  intros t dialed Hi Hd. destruct dialed as [conn|err]; [|apply safe_remove; [|done]].
  2:{ intros t9 t1 e1 t2 r _ I1 E1. split; [by eapply harmless_allowed; [|done|exact E1]|done]. }
  intros t1 e1 t2 cerr R1 I1 E1. apply (user_of_rely _ _ _ _ _ R1) in Hd.
  simpl in E1. injection E1 as <- <-. split; [by apply same_allowed|]. clear t Hi R1.
  destruct (cancelled t1); [|done].
  intros t3 e3 t4 r R3 I3 E3. apply (user_of_rely _ _ _ _ _ R3) in Hd. simpl in E3. injection E3 as <- <-.
  split; [apply closing_allowed; [done|apply closing_close_conn]|].
  apply safe_remove; [done|]. right. exists conn. by apply close_user_closed.
Qed.

Lemma safe_api n a t :
  inv t -> (forall id address, a = AConnect id address -> id <> "") ->
  safe (TApi n) (api_thread localNodeID handler_nil a) anything t.
Proof.
  intros Hi Ha. destruct a as [|id address|id|id|id data|data|]; cbn [api_thread].
  2:{ eapply safe_bind; [apply safe_Connect; [done|by eapply Ha]|done|].
      intros t' err _ _. apply safe_harmless. simpl. auto. }
  all: apply safe_harmless; try (apply all_harmless_andThen; [|simpl; auto]).
  - unfold Run. destruct handler_nil; simpl; auto.
  - unfold ConnectionState. harmless_tac.
  - unfold Disconnect. harmless_tac.
  - unfold Send. harmless_tac.
  - unfold Broadcast. simpl. split; [done|]. intros l. apply all_harmless_andThen; [apply broadcast_harmless|].
    intros k. destruct (negb _); simpl; auto.
  - unfold Close. simpl. split_and!; [done|]. intros _. split; [done|]. apply close_loop_harmless.
Qed.

(** ** Every run *)

(** Connections say hello with one id each, and nobody connects to the empty id. *)
Definition proper (a : act) : Prop :=
  match a with
  | Frame c f => is_hello f = true -> string_of_bytes (f_Body f) = hello_of c
  | Call _ (AConnect id _) => id <> ""
  | _ => True
  end.

Abbreviation pool_ok := (pool_ok exec inv rely).
Abbreviation step := (step localNodeID handler_nil heartbeatInterval orderly).
Abbreviation run := (run localNodeID handler_nil heartbeatInterval orderly).

Lemma start_ok : pool_ok start.
Proof. split; [|done]. by split. Qed.

(** A change by the environment, with no part in any thread. *)
Definition other (j : tid) : tid := if decide (j = TBeat 0) then TBeat 1 else TBeat 0.
Lemma other_ne j : j <> other j.
Proof. unfold other. case_decide; congruence. Qed.

Lemma begin_callback c C C' body w :
  pool_ok w -> conns (shared w) !! c = Some C -> c_busy C = false -> conn_ok c C' -> conn_le C C' ->
  c_user C' = c_user C -> c_forgot C' = c_forgot C -> c_busy C' = true ->
  (forall t, inv t -> serving c C' t -> safe (THandler c) body (served c) t) ->
  pool_ok (start_thread (THandler c) (upd_conns <[c := C']> (shared w)) (callback c body) w).
Proof.
  intros Hw HC Hb Hok Hle Hu Hf Hb' Hbody. pose proof (pool_inv _ _ _ _ Hw) as Hi.
  destruct (conn_write (THandler c) c C C' (shared w)) as [Hi' Hr]; try done; [congruence|by right; right|].
  apply pool_start; [apply rely_trans|done|done|auto|]. apply safe_callback; [|done]. apply Hbody; [done|].
  apply serving_start; [simpl; apply lookup_insert_eq|done].
Qed.

Lemma step_ok w a : proper a -> pool_ok w -> pool_ok (step w a).
Proof.
  intros Hp Hw. pose proof (pool_inv _ _ _ _ Hw) as Hi. destruct a as [c|c|c f|c err|c|c|n a|i e]; simpl in *.
  - destruct (conns (shared w) !! c) eqn:HC; [done|]. destruct (_ && _); [|done].
    set (C := new_connection ConnectionRoleServer None true).
    assert (Ha : forall i, allowed i (shared w) (upd_conns <[c:=C]> (shared w))).
    { intros i. apply conn_new; try done. by apply new_connection_ok. }
    apply pool_env; [apply rely_trans|done|apply (Ha (TBeat 0))|]. intros j _. apply (Ha (other j)). apply other_ne.
  - destruct (conns (shared w) !! c) as [C|] eqn:HC; [|done]. destruct (_ && _) eqn:Eg; [|done].
    rewrite !andb_true_iff, !negb_true_iff in Eg. destruct Eg as [[[_ Hs] Hb] Hk].
    unfold upd_conn. rewrite (upd_conns_alter _ _ C) by done.
    pose proof (i_conns _ Hi _ _ HC) as [H1 H2 H3 H4 H5 H6 H7 H8].
    assert (Hret : c_retired C = false) by (destruct (c_retired C) eqn:E; [rewrite H6 in Hk; done|done]).
    eapply begin_callback; try done; [split; simpl; try done; congruence|].
    intros t It St. eapply safe_OnConnected; try done; simpl; auto.
  - destruct (conns (shared w) !! c) as [C|] eqn:HC; [|done]. destruct (_ && _) eqn:Eg; [|done].
    rewrite !andb_true_iff, !negb_true_iff in Eg. destruct Eg as [[Hrd Hb] Hk].
    unfold upd_conn. rewrite (upd_conns_alter _ _ C) by done.
    pose proof (i_conns _ Hi _ _ HC) as [H1 H2 H3 H4 H5 H6 H7 H8]. specialize (H3 Hb Hk).
    assert (Hret : c_retired C = false) by (destruct (c_retired C) eqn:E; [rewrite H6 in Hk; done|done]).
    assert (Hdat : datas (c_received C ++ [f]) = (c_delivered C).*2 ++ pending f).
    { rewrite H3. unfold datas, pending. rewrite List.filter_app, fmap_app. simpl. by destruct (is_data f). }
    eapply begin_callback; try done.
    + split; simpl; try done; try congruence.
      * intros g Hg. apply elem_of_app in Hg as [Hg|Hg]; [auto|]. apply list_elem_of_singleton in Hg as ->. done.
      * rewrite Hdat. by apply prefix_app_r.
      * eapply Forall_impl; [done|]. intros x (g & Hg & Hh). exists g. split; [|done]. apply elem_of_app. auto.
    + split; simpl; try done. intros g Hg. apply elem_of_app. auto.
    + intros t It St. eapply safe_OnMessage; try done. apply elem_of_app. right. by apply list_elem_of_singleton.
  - destruct (conns (shared w) !! c) as [C|] eqn:HC; [|done]. destruct (c_running C); [|done].
    apply pool_env; [apply rely_trans|done|eapply closing_inv; [apply closing_close_conn|done]|].
    intros j _. apply closing_rely, closing_close_conn.
  - destruct (conns (shared w) !! c) as [C|] eqn:HC; [|done]. destruct (_ && _) eqn:Eg; [|done].
    rewrite !andb_true_iff, !negb_true_iff in Eg. destruct Eg as [[[_ Hk] Hr] Ho].
    unfold upd_conn. rewrite (upd_conns_alter _ _ C) by done.
    pose proof (i_conns _ Hi _ _ HC) as [H1 H2 H3 H4 H5 H6 H7 H8].
    destruct (conn_write (TCloser c) c C (set_retired C false) (shared w)) as [Hi' Hrel]; try done.
    + split; simpl; try done. intros Ho' _. rewrite Ho' in Ho. done.
    + destruct orderly eqn:Eo; [right; right; done|left; split; try done; congruence].
    + apply pool_start; [apply rely_trans|done|done|auto|]. apply safe_closer; [done|].
      exists (set_retired C false). simpl. by rewrite lookup_insert_eq.
  - destruct (conns (shared w) !! c) as [C|] eqn:HC; [|done]. destruct (_ && _); [|done].
    apply pool_start; [apply rely_trans|done|done|intros; apply rely_refl|].
    apply safe_harmless. unfold heartbeat_tick. harmless_tac.
  - destruct (threads w !! TApi n); [done|].
    apply pool_start; [apply rely_trans|done|done|intros; apply rely_refl|]. apply safe_api; [done|].
    intros id address ->. done.
  - apply pool_step; [apply rely_refl|apply rely_trans|done].
Qed.

Lemma run_ok acts : Forall proper acts -> pool_ok (run start acts).
Proof.
  unfold run. generalize start, start_ok. induction acts as [|a acts IH]; intros w Hw Ha; [done|].
  inversion_clear Ha as [|? ? Hp Ha']. apply IH; [by apply step_ok|done].
Qed.

Lemma transport_run_inv acts : Forall proper acts -> inv (shared (run start acts)).
Proof. intros Ha. apply (pool_inv _ _ _ _ (run_ok acts Ha)). Qed.

(** ** What follows *)

(** An open connection over which the node talks to the node [id]. *)
Definition talks t c id : Prop :=
  exists C p P, conns t !! c = Some C /\ c_closed C = false /\ c_user C = Some p /\
    heap t !! p = Some P /\ p_state P = PeerStateConnected /\ remoteId P = id.

(** C15: However callbacks, dials, closes and heartbeats of a node interleave, when
    every connection says hello with one id, the node talks to another node over at
    most one open connection, and the peer table leads to it. *)
Theorem one_live_connection_per_node acts c1 c2 id :
  Forall proper acts ->
  let t := shared (run start acts) in
  talks t c1 id -> talks t c2 id ->
  c1 = c2 /\ id <> "" /\ exists p, remoteToConn t !! id = Some p /\ user_of c1 p t.
Proof.
  intros Ha t H1 H2. pose proof (transport_run_inv acts Ha) as Hi. fold t in Hi.
  assert (Hin : forall c, talks t c id -> id <> "" /\ exists p, remoteToConn t !! id = Some p /\ user_of c p t).
  { intros c (C & p & P & HC & Hk & Hu & HP & Hs & <-).
    destruct (q_connected _ _ _ (i_peers _ Hi _ _ HP) Hs) as [Hn [Ht|(c' & C' & HC' & Hu' & Hk')]].
    - split; [done|]. exists p. split; [done|]. by exists C.
    - assert (c' = c) as -> by (by eapply (i_inj _ Hi)). congruence. }
  destruct (Hin _ H1) as (Hn & p & Hp & Hu1), (Hin _ H2) as (_ & p' & Hp' & Hu2).
  assert (p' = p) as -> by congruence. split; [|eauto].
  destruct Hu1 as (C1 & HC1 & U1), Hu2 as (C2 & HC2 & U2). by eapply (i_inj _ Hi).
Qed.

(** When OnClose waits for the running callback of its connection, the peer of a
    connection whose OnClose has returned is in the peer table under no id. *)
Theorem closed_connections_are_forgotten acts c C p id :
  orderly = true -> Forall proper acts ->
  let t := shared (run start acts) in
  conns t !! c = Some C -> c_forgot C = true -> c_user C = Some p -> remoteToConn t !! id <> Some p.
Proof. intros Ho Ha t HC Hf Hu. by eapply (i_forgot _ (transport_run_inv acts Ha)). Qed.

(** The business handler gets every frame under the id of its connection. *)
Lemma delivered_ids c C :
  conn_ok c C -> c_delivered C = (fun data => (hello_of c, data)) <$> (c_delivered C).*2.
Proof.
  intros [H1 _ _ H4 _ _ _ _]. induction H4 as [|[id data] l (f & Hf & Hh & E) _ IH]; [done|].
  rewrite !fmap_cons, <- IH. f_equal. simpl in *. by rewrite <- E, (H1 f).
Qed.

Lemma idle_delivered acts c C :
  Forall proper acts -> conns (shared (run start acts)) !! c = Some C ->
  c_busy C = false -> c_closed C = false ->
  c_delivered C = (fun data => (hello_of c, data)) <$> datas (c_received C).
Proof.
  intros Ha HC Hb Hk. pose proof (i_conns _ (transport_run_inv acts Ha) _ _ HC) as Hok.
  by rewrite (delivered_ids _ _ Hok), (k_order _ _ Hok Hb Hk).
Qed.

(** C16: In every interleaving the business handler gets from a connection, under
    the id its hello named, a prefix in order of the data frames received, and all
    of them while the connection is open and idle. *)
Theorem data_arrives_in_order acts c C :
  Forall proper acts ->
  let expected := (fun data => (hello_of c, data)) <$> datas (c_received C) in
  conns (shared (run start acts)) !! c = Some C ->
  c_delivered C `prefix_of` expected /\
  (c_busy C = false -> c_closed C = false -> c_delivered C = expected).
Proof.
  intros Ha expected HC. split; [|by eapply idle_delivered].
  pose proof (i_conns _ (transport_run_inv acts Ha) _ _ HC) as Hok. destruct (k_prefix _ _ Hok) as [l E].
  subst expected. rewrite (delivered_ids _ _ Hok), E, fmap_app. by apply prefix_app_r.
Qed.
End Safety.
