(* ===== verification/Delivery.v ===== *)
(** * From an actor on one node to a mailbox on another

    The parts of a remote send put together: the actor system packs an envelope
    (System.v), the transport wraps it into a data frame (Transport.v), a
    connection codes, encrypts and cuts it into bytes (Conn.v), and the other
    node undoes all of this, down to the mailbox. *)

From S2P Require Import Prelude Protocol Codec Cipher Buffer Conn.
From S2P Require Import Errors Requests Proto Actor System Effects Threads Transport TransportSafety.

Section delivery.
Context {V U S K : Type} `{LawfulPayload V} `{LawfulRemote} `{KeyAgreement}.
Implicit Types (s A B : System V U S K).

(** ** What is sent *)

Record letter := mkLetter { lt_target : PID; lt_value : V; lt_sender : PID; lt_request : option RequestRef }.
Definition envelope (l : letter) : Envelope V U :=
  mkEnvelope (PUser (lt_value l)) (Some (lt_sender l)) (lt_request l).

(** One letter after the other, while none fails. *)
Fixpoint send_letters s (ls : list letter) : System V U S K * option gerr :=
  match ls with
  | [] => (s, None)
  | l :: ls =>
    match SendEnvelope s (Some (lt_target l)) (envelope l) with
    | (s, Some err) => (s, Some err)
    | (s, None) => send_letters s ls
    end
  end.

(** What the system has given to its sender since [s]. *)
Definition mail s s' : list (list Z) := (drop (length (System.sent s)) (System.sent s')).*2.

(** ** What is received *)

(** The system handles what the transport's business handler got, one after the
    other; before each one anything may happen to the system. *)
Fixpoint handle_all (between : list (System V U S K -> System V U S K)) s (got : list (string * list Z))
  : System V U S K :=
  match got with
  | [] => s
  | (source, data) :: got =>
    handle_all (tail between) (System.OnMessage (default id (head between) s) source data).1 got
  end.

(** The same letters sent by an actor of the node itself. A request that cannot
    be delivered is answered with the error. *)
Definition local_send s (l : letter) : System V U S K :=
  match SendEnvelope s (Some (lt_target l)) (envelope l) with
  | (s, None) => s
  | (s, Some err) => reject_with s (lt_target l) (lt_request l) err
  end.
Fixpoint local_all (between : list (System V U S K -> System V U S K)) s (ls : list letter) : System V U S K :=
  match ls with
  | [] => s
  | l :: ls => local_all (tail between) (local_send (default id (head between) s) l) ls
  end.

(** ** A node keeps its id *)

Definition keeps_node (f : System V U S K -> System V U S K) : Prop := forall s, nodeID (f s) = nodeID s.

Lemma sendRemoteMessage_node s m : nodeID (sendRemoteMessage s m).1 = nodeID s.
Proof. unfold sendRemoteMessage. by repeat case_match. Qed.

Lemma sendRemoteEnvelope_node s t env : nodeID (sendRemoteEnvelope s t env).1 = nodeID s.
Proof.
  unfold sendRemoteEnvelope. repeat case_match; try done; rewrite sendRemoteMessage_node; done.
Qed.

Lemma SendEnvelope_node s t env : nodeID (SendEnvelope s t env).1 = nodeID s.
Proof.
  unfold SendEnvelope, at_proc.
  repeat first [apply sendRemoteEnvelope_node | case_match; simplify_eq | done].
Qed.

Lemma reject_with_node s t ref err : nodeID (reject_with s t ref err) = nodeID s.
Proof.
  unfold reject_with, sendRemoteRequestError.
  repeat first [rewrite sendRemoteMessage_node | case_match; simplify_eq | done].
Qed.

Lemma local_send_node s l : nodeID (local_send s l) = nodeID s.
Proof.
  unfold local_send. pose proof (SendEnvelope_node s (Some (lt_target l)) (envelope l)) as Hn.
  destruct (SendEnvelope s (Some (lt_target l)) (envelope l)) as [s' [err|]]; simpl in Hn; [by rewrite reject_with_node|done].
Qed.

(** ** From system to system *)

(** A letter for another node that is sent is one message for that node, which
    is handled there as if the letter had been sent there. *)
Lemma letter_crosses A l A' source node :
  source <> "" -> node <> "" -> nodeID A <> node -> p_NodeID (lt_target l) = node ->
  SendEnvelope A (Some (lt_target l)) (envelope l) = (A', None) ->
  exists data, System.sent A' = System.sent A ++ [(node, data)] /\
    forall B, nodeID B = node -> (System.OnMessage B source data).1 = local_send B l.
Proof.
  intros Hs Hn HA Ht Hsend. unfold SendEnvelope in Hsend. simpl in Hsend.
  destruct (check_request (lt_request l)); [done|].
  rewrite bool_decide_eq_false_2 in Hsend by congruence. simpl in Hsend.
  destruct (remote_delivery_is_local_delivery A source (lt_target l) (lt_value l) (lt_sender l) (lt_request l) A')
    as (data & Hd & HB); [done|congruence|exact Hsend|].
  exists data. rewrite Hd, Ht. split; [done|]. intros B Hnode. rewrite HB by congruence.
  unfold local_send. fold (envelope l). by destruct (SendEnvelope B (Some (lt_target l)) (envelope l)) as [B' [err|]].
Qed.

Lemma letters_cross A ls A' source node :
  source <> "" -> node <> "" -> nodeID A <> node -> Forall (fun l => p_NodeID (lt_target l) = node) ls ->
  send_letters A ls = (A', None) ->
  System.sent A' = System.sent A ++ (pair node <$> mail A A') /\
  forall between B, nodeID B = node -> Forall keeps_node between ->
    handle_all between B (pair source <$> mail A A') = local_all between B ls.
Proof.
  intros Hs Hn HA Hls. revert A HA. induction Hls as [|l ls Ht _ IH]; intros A HA; cbn [send_letters local_all].
  - intros [= <-]. unfold mail. rewrite drop_all, app_nil_r. done.
  - destruct (SendEnvelope A (Some (lt_target l)) (envelope l)) as [A1 [err|]] eqn:E; [done|]. intros Hrest.
    destruct (letter_crosses A l A1 source node) as (data & Hd & HB); try done.
    pose proof (SendEnvelope_node A (Some (lt_target l)) (envelope l)) as Hnode. rewrite E in Hnode. simpl in Hnode.
    destruct (IH A1 ltac:(congruence) Hrest) as [HA1 Hloc].
    assert (Em : mail A A' = data :: mail A1 A').
    { unfold mail at 1. rewrite HA1, Hd, <- app_assoc, drop_app_length, fmap_app, <- list_fmap_compose.
      simpl. f_equal. apply list_fmap_id. }
    rewrite Em. split; [by rewrite HA1, Hd, <- app_assoc|].
    intros between B Hb Hbet. rewrite fmap_cons. cbn [handle_all].
    assert (Hb1 : nodeID (default id (head between) B) = node) by (destruct Hbet as [|f fs Hf _]; simpl; [done|by rewrite Hf]).
    rewrite HB by done. apply Hloc; [by rewrite local_send_node|]. by destruct Hbet.
Qed.

(** ** Posting the mail *)

(** The transport's table leads to a connected peer with an open connection. *)
Definition reaches (t : transport) (id : string) (c : N) : Prop :=
  exists p P C, remoteToConn t !! id = Some p /\ heap t !! p = Some P /\ p_state P = PeerStateConnected /\
    p_conn P = Some c /\ conns t !! c = Some C /\ c_closed C = false.
Definition sent_on (c : N) (t : transport) : list MessageFrame := default [] (Transport.sent t !! c).

Fixpoint post_all (interval : Z) (i : tid) (e : oracle) (id : string) (ds : list (list Z)) (t : transport) : option transport :=
  match ds with
  | [] => Some t
  | d :: ds => match alone (Transport.exec interval) i e (Send id d) t with
               | Some (t, None) => post_all interval i e id ds t
               | _ => None
               end
  end.

Lemma post_all_sent interval i e id c ds t :
  o_err e = None -> reaches t id c ->
  exists t', post_all interval i e id ds t = Some t' /\ reaches t' id c /\
    sent_on c t' = sent_on c t ++ (data_frame <$> ds).
Proof.
  intros He. revert t. induction ds as [|d ds IH]; intros t Ht.
  { exists t. by rewrite app_nil_r. }
  assert (Hone : alone (Transport.exec interval) i e (Send id d) t = Some (log_sent c (data_frame d) t, None)).
  { destruct Ht as (p & P & C & E1 & E2 & E3 & E4 & E5 & E6).
    unfold Send, send. cbn [alone Transport.exec]. rewrite E1.
    repeat (cbn [alone Transport.exec mbind option_bind]; rewrite ?E2, ?E3, ?E4, ?E5, ?E6, ?He;
            rewrite ?bool_decide_eq_true_2 by done; cbn [negb]). done. }
  destruct (IH (log_sent c (data_frame d) t) Ht) as (t' & E & Ht' & Hlog).
  exists t'. cbn [post_all]. rewrite Hone. split_and!; [done|done|]. rewrite Hlog, fmap_cons.
  assert (Hl : sent_on c (log_sent c (data_frame d) t) = sent_on c t ++ [data_frame d]).
  { unfold sent_on, log_sent. simpl. by rewrite lookup_insert_eq. }
  by rewrite Hl, <- app_assoc.
Qed.

Lemma datas_posted ds : datas (data_frame <$> ds) = ds.
Proof.
  unfold datas. induction ds as [|d ds IH]; [done|]. change (d :: (f_Body <$> List.filter is_data (data_frame <$> ds)) = d :: ds).
  by rewrite IH.
Qed.

(** ** Over a connection *)

Lemma content_datas hs fs : content <$> hs = content <$> fs -> datas hs = datas fs.
Proof.
  revert fs. induction hs as [|h hs IH]; intros [|f fs]; try done. rewrite !fmap_cons. intros [= ?? _ _ ? E].
  unfold datas in *. simpl. assert (is_data h = is_data f) as -> by (unfold is_data, frame_ID; congruence).
  destruct (is_data f); [|by apply IH]. rewrite !fmap_cons. f_equal; [done|by apply IH].
Qed.

Variables (OnConnected : Conn -> option nerr) (select_done : Conn -> bool).
Abbreviation OnMessage := (fun (_ : Conn) (_ : MessageFrame) => @None nerr).
Variables (localNodeID : string) (handler_nil : bool) (heartbeatInterval : Z) (orderly : bool).
Variable hello_of : N -> string.

(** C5: Envelopes an actor system sends to another node, packed into data frames,
    coded and encrypted over a ready connection, cut anyhow into reads and handed
    over by a transport in any interleaving, are handled there exactly as if they
    had been sent there, in order, whatever that node does in between. *)
Theorem remote_sends_are_local_sends A ls A' source node fs c cap c' cap' a b a' :
  source <> "" -> node <> "" -> nodeID A <> node -> Forall (fun l => p_NodeID (lt_target l) = node) ls ->
  send_letters A ls = (A', None) -> datas fs = mail A A' ->
  TCPConfig_Normalize c cap = (c', cap') -> cap' < 2 ^ 62 -> 17 <= MaxInboundSize c' -> options b = c' ->
  peers a b -> Forall (fun f => carried a b f /\ IsInternalCommand (f_Cmd f) = false) fs ->
  Conn.send_all select_done a fs = (a', None) ->
  exists wires, sendChannel a' = sendChannel a ++ wires /\
    (Forall (fun w => zlen w <= MaxInboundSize c') wires -> forall now chunks,
     Forall chunk_ok chunks -> concat chunks = concat wires ->
     exists b' buf hs,
       Conn.readLoop OnConnected OnMessage select_done b now (Buffer.New cap' (Some cap')) chunks = Some (b', buf, None) /\
       delivered b' = delivered b ++ hs /\
       forall acts n C,
         Forall (proper hello_of) acts -> hello_of n = source ->
         conns (shared (Transport.run localNodeID handler_nil heartbeatInterval orderly Transport.start acts)) !! n = Some C ->
         c_received C = hs -> c_busy C = false -> c_closed C = false ->
         forall between B, nodeID B = node -> Forall keeps_node between ->
           handle_all between B (c_delivered C) = local_all between B ls).
Proof.
  intros Hs Hn HA Hls Hsend Hmail Hnorm Hint Hmax Ho Hp Hfs Hall.
  destruct (letters_cross A ls A' source node) as [_ Hloc]; try done.
  destruct (send_all_stream OnConnected OnMessage select_done a b fs a' Hp Hfs ltac:(done) Hall) as (wires & Hq & Hstream).
  exists wires. split; [done|]. intros Hlim now chunks Hch Heq.
  destruct (Hstream ltac:(by eapply Forall_impl; [|intros w Hw; right; rewrite Ho; exact Hw]) now)
    as (b' & hs & Hst & Hdel & Hcs).
  destruct (TCPConfig_Normalize_room _ _ _ _ Hnorm) as (Hroom & _). rewrite <- Heq in Hst. rewrite <- Ho in Hroom, Hmax.
  destruct (fresh_readLoop_stream OnConnected OnMessage select_done now b cap' chunks b' [] None) as (buf & Hr & _); try done.
  exists b', buf, hs. split_and!; [done|done|]. intros acts n C Ha Hhello HC Hrec Hb Hk between B Hnode Hbet.
  rewrite (idle_delivered localNodeID handler_nil heartbeatInterval orderly hello_of acts n C) by done.
  rewrite Hrec, (content_datas hs fs Hcs), Hmail, Hhello. by apply Hloc.
Qed.
End delivery.
