(* ===== verification/TransportDemo.v ===== *)
(** * The transport at work

    Runs of one node's transport: the witnesses of TransportSafety.v, and two
    runs after which the peer table still names a connection that is gone. *)

From S2P Require Import Prelude Protocol Conn Errors Effects Threads Transport TransportSafety.

Definition plain_oracle (addr : N) : oracle := mkOracle None addr [].
(** Thread [i] makes [n] operations. *)
Definition go (i : tid) (n : nat) : list act := repeat (Step i (plain_oracle 0)) n.

Abbreviation run_a := (run "a" false 0).

(** Node b connects to node a: connection 7 is accepted, gets the peer 0, and
    the hellos are exchanged. *)
Definition listen : list act := Call 1 ARun :: go (TApi 1) 2.
Definition accepted : list act := [Accept 7; Connected 7] ++ go (THandler 7) 7.
Definition hello_from_b : list act := Frame 7 (hello_frame "b") :: go (THandler 7) 5.
Definition data_from_b (data : list Z) : list act := Frame 7 (data_frame data) :: go (THandler 7) 5.
Definition talking : list act := listen ++ accepted ++ hello_from_b ++ data_from_b [1] ++ data_from_b [2].
Definition says_b (c : N) : string := if (c =? 7)%N then "b" else "".

Example talking_state :
  let t := shared (run_a false start talking) in
  remoteToConn t = {["b" := 0%N]} /\
  (fun C => (c_ready C, c_busy C, c_delivered C)) <$> conns t !! 7%N = Some (true, false, [("b", [1]); ("b", [2])]) /\
  sent t !! 7%N = Some [hello_frame "a"].
Proof. vm_compute. done. Qed.

(** Node b connects a second time, over connection 8 with the peer 5: the first
    connection is closed, and forgotten once its OnClose ran. *)
Definition again : list act :=
  [Accept 8; Connected 8] ++ repeat (Step (THandler 8) (plain_oracle 5)) 7 ++
  Frame 8 (hello_frame "b") :: go (THandler 8) 5.
Definition replaced : list act := talking ++ again ++ Closed 7 :: go (TCloser 7) 4.
Definition says_b2 (c : N) : string := if (c =? 7)%N || (c =? 8)%N then "b" else "".

Lemma talking_proper : Forall (proper says_b) talking.
Proof. repeat constructor; vm_compute; done. Qed.
Lemma replaced_proper : Forall (proper says_b2) replaced.
Proof. repeat constructor; vm_compute; done. Qed.

Example data_arrives_in_order_witness :
  Forall (proper says_b) talking /\
  exists C, conns (shared (run_a false start talking)) !! 7%N = Some C /\
    c_delivered C = (fun data => ("b", data)) <$> datas (c_received C).
Proof.
  split; [exact talking_proper|]. eexists. split; [vm_compute; reflexivity|].
  apply (data_arrives_in_order "a" false 0 false says_b talking 7); [exact talking_proper|vm_compute; reflexivity..].
Defined.

Example one_live_connection_per_node_witness :
  Forall (proper says_b2) replaced /\ talks (shared (run_a true start replaced)) 8 "b" /\
  (8%N = 8%N /\ "b" <> "" /\
   exists p, remoteToConn (shared (run_a true start replaced)) !! "b" = Some p /\
     user_of 8 p (shared (run_a true start replaced))).
Proof.
  assert (Ht : talks (shared (run_a true start replaced)) 8 "b").
  { eexists _, _, _. split_and!; vm_compute; reflexivity. }
  split_and!; [exact replaced_proper|exact Ht|..].
  all: apply (one_live_connection_per_node "a" false 0 true says_b2 replaced 8 8 "b" replaced_proper Ht Ht).
Defined.

Example closed_connections_are_forgotten_witness :
  Forall (proper says_b2) replaced /\
  exists C, conns (shared (run_a true start replaced)) !! 7%N = Some C /\ c_forgot C = true /\
    forall id, remoteToConn (shared (run_a true start replaced)) !! id <> Some 0%N.
Proof.
  split; [exact replaced_proper|]. eexists. split_and!; [vm_compute; reflexivity..|].
  intros id. eapply (closed_connections_are_forgotten "a" false 0 true says_b2 replaced 7);
    [reflexivity|exact replaced_proper|vm_compute; reflexivity..].
Defined.

(** ** Connections that stay in the table *)

(** A node that says hello twice with two ids: handleHello binds the second id
    before it looks at the state, and OnClose removes that id, which is not in
    the table. From then on the node believes it is connected to b, does not
    connect again, and cannot send. *)
Definition two_hellos : list act :=
  talking ++ (Frame 7 (hello_frame "x") :: go (THandler 7) 5) ++ (Closed 7 :: go (TCloser 7) 4) ++
  (Call 2 (AConnectionState "b") :: go (TApi 2) 3) ++
  (Call 3 (AConnect "b" "") :: repeat (Step (TApi 3) (plain_oracle 9)) 3) ++
  (Call 4 (ASend "b" [9]) :: go (TApi 4) 6).
Example second_hello_leaves_entry :
  let t := shared (run_a true start two_hellos) in
  (fun C => (c_closed C, c_forgot C)) <$> conns t !! 7%N = Some (true, true) /\
  remoteToConn t !! "b" = Some 0%N /\
  answers t !! 2%N = Some (AState PeerStateConnected) /\
  answers t !! 3%N = Some (AErr None) /\
  answers t !! 4%N = Some (AErr (Some ErrNetConnectionClosed)).
Proof. vm_compute. done. Qed.

(** A connection that closes while its hello is handled: OnClose runs before the
    handler enters the peer in the table, and nobody removes it. *)
Definition closed_during_hello : list act :=
  listen ++ accepted ++ (Frame 7 (hello_frame "b") :: go (THandler 7) 2) ++
  [Break 7 ErrCanceled; Closed 7] ++ go (TCloser 7) 4 ++ go (THandler 7) 3 ++
  (Call 2 (AConnectionState "b") :: go (TApi 2) 3).
Example hello_after_close_leaves_entry :
  let t := shared (run_a false start closed_during_hello) in
  Forall (proper says_b) closed_during_hello /\
  (fun C => (c_closed C, c_busy C, c_forgot C)) <$> conns t !! 7%N = Some (true, false, true) /\
  remoteToConn t !! "b" = Some 0%N /\
  answers t !! 2%N = Some (AState PeerStateConnected).
Proof. split; [repeat constructor; vm_compute; done|]. vm_compute. done. Qed.

(** Broadcast reports success although nothing was sent. *)
Example broadcast_hides_failure :
  answers (shared (run_a true start
    (two_hellos ++ Call 5 (ABroadcast [9]) :: repeat (Step (TApi 5) (mkOracle None 0 [("b", 0%N)])) 8))) !! 5%N
  = Some (AErr None).
Proof. vm_compute. done. Qed.
