(* ===== verification/DeliveryDemo.v ===== *)
(** * Two letters from node a to node b

    The nodes of ActorDemo.v, the encrypted connection of ConnDemo.v, the
    transport of TransportDemo.v; messages between nodes are marshalled to bytes. *)

From stdpp Require Import countable.
From S2P Require Import Prelude Protocol Codec Cipher Buffer Conn ConnDemo.
From S2P Require Import Errors Requests Proto Actor System Process ActorDemo.
From S2P Require Import Effects Threads Transport TransportSafety TransportDemo Delivery.

(** Binary digits as bytes. *)
Fixpoint digits (p : positive) : list Z :=
  match p with xH => [] | xO p => 0 :: digits p | xI p => 1 :: digits p end.
Fixpoint number (l : list Z) : positive :=
  match l with [] => xH | x :: l => if x =? 0 then xO (number l) else xI (number l) end.
Lemma number_digits p : number (digits p) = p.
Proof. induction p; simpl; congruence. Qed.

Definition bytes_remote : RemoteRuntime := {|
  marshal_remote m := Ok (digits (encode (message_tuple m)));
  unmarshal_remote bs :=
    match decode (number bs) with Some t => Ok (tuple_message t) | None => Err (ESentinel "bad frame") end;
  SendToNode _ _ := None
|}.
#[local] Existing Instance bytes_remote.
#[local] Instance bytes_lawful : LawfulRemote.
Proof. split. intros m bs [= <-]. simpl. by rewrite number_digits, countable.decode_encode, tuple_message_tuple. Qed.

Definition letters : list (letter (V := Z)) :=
  [mkLetter actor7 5 client None; mkLetter actor7 6 client (Some ask_ref)].
Definition after : DSys := (send_letters node_a letters).1.
Definition posted : list MessageFrame := hello_frame "a" :: (data_frame <$> mail node_a after).


(** What alice sends, in pieces of 100 bytes; what bob's read loop delivers. *)
Definition wires : list (list Z) := sendChannel (Conn.send_all never alice posted).1.
Fixpoint cut (n : nat) (l : list Z) : list (list Z) :=
  match n with O => [l] | S n => take 100 l :: cut n (drop 100 l) end.
Definition chunks : list (list Z) := cut 3 (concat wires).
Definition reading := Conn.readLoop ok_connected ok_message never bob 5 (New 40960 (Some 40960)) chunks.
Definition heard : list MessageFrame := match reading with Some (b, _, _) => delivered b | None => [] end.

(** The transport of node b is handed those frames. *)
Definition says_a (c : N) : string := if (c =? 7)%N then "a" else "".
Definition hand_over : list act :=
  listen ++ accepted ++ concat ((fun f => Frame 7 f :: go (THandler 7) 6) <$> heard).
Abbreviation node_b_transport := (shared (Transport.run "b" false 0 false Transport.start hand_over)).

Lemma plain_carried (fs : list MessageFrame) :
  forallb (fun f => bool_decide (frame_typed f) && negb (IsInternalCommand (f_Cmd f))) fs = true ->
  Forall (fun f => carried alice bob f /\ IsInternalCommand (f_Cmd f) = false) fs.
Proof.
  rewrite forallb_forall, Forall_forall. intros Hd f Hf. apply list_elem_of_In, Hd, andb_true_iff in Hf as [H1 H2].
  split; [split; [by apply bool_decide_eq_true_1 in H1|exact I]|by apply negb_true_iff].
Qed.
Lemma posted_carried : Forall (fun f => carried alice bob f /\ IsInternalCommand (f_Cmd f) = false) posted.
Proof. apply plain_carried. vm_compute. reflexivity. Qed.

Lemma alice_bob : peers alice bob.
Proof.
  split; [reflexivity|split; [reflexivity|]]. split; [reflexivity|]. intros _. exists key, key.
  split_and!; [reflexivity|reflexivity|reflexivity|]. repeat constructor; unfold is_u; lia.
Qed.
Lemma wires_fit : Forall (fun w => zlen w <= MaxInboundSize config.1) wires.
Proof. vm_compute. repeat constructor; discriminate. Qed.
Lemma chunks_fit : Forall chunk_ok chunks.
Proof. apply (bool_decide_unpack _). vm_compute. exact I. Qed.
Lemma chunks_cut : concat chunks = concat wires.
Proof. vm_compute. reflexivity. Qed.

Definition act_fine (a : act) : bool :=
  match a with
  | Frame c f => negb (is_hello f) || bool_decide (string_of_bytes (f_Body f) = says_a c)
  | Call _ (AConnect id _) => negb (bool_decide (id = ""))
  | _ => true
  end.
Lemma fine_proper (acts : list act) : forallb act_fine acts = true -> Forall (proper says_a) acts.
Proof.
  rewrite forallb_forall, Forall_forall. intros Hf a Ha. apply list_elem_of_In, Hf in Ha.
  destruct a as [| |c f| | | |n [| | | | | |]|]; try done; simpl in *.
  - intros Hh. rewrite Hh in Ha. by apply bool_decide_eq_true_1 in Ha.
  - by apply negb_true_iff, bool_decide_eq_false_1 in Ha.
Qed.
Lemma hand_over_proper : Forall (proper says_a) hand_over.
Proof. apply fine_proper. vm_compute. reflexivity. Qed.

Lemma seen_idle (found : option connection) h :
  (fun C => (c_received C, c_busy C, c_closed C)) <$> found = Some (h, false, false) ->
  exists C, found = Some C /\ c_received C = h /\ c_busy C = false /\ c_closed C = false.
Proof. destruct found as [C|]; [|done]. intros [= E1 E2 E3]. by exists C. Qed.
Lemma handed_over : exists C, conns node_b_transport !! 7%N = Some C /\ c_received C = heard /\
  c_busy C = false /\ c_closed C = false.
Proof. apply (seen_idle (conns node_b_transport !! 7%N) heard). vm_compute. reflexivity. Qed.

Lemma remote_sends_are_local_sends_witness :
  exists C, conns node_b_transport !! 7%N = Some C /\ c_received C = heard /\
    handle_all [] node_b (c_delivered C) = local_all [] node_b letters.
Proof.
  destruct handed_over as (C & EC & HC1 & HC2 & HC3).
  destruct (remote_sends_are_local_sends ok_connected never "b" false 0 false says_a node_a letters after "a" "b"
              posted (mkConfig true 0 None 0 0 0 0 0) 0 config.1 40960 alice bob (Conn.send_all never alice posted).1)
    as (ws & Hw & Hrest).
  - discriminate.
  - discriminate.
  - discriminate.
  - repeat constructor.
  - vm_compute. reflexivity.
  - vm_compute. reflexivity.
  - reflexivity.
  - lia.
  - discriminate.
  - reflexivity.
  - exact alice_bob.
  - exact posted_carried.
  - vm_compute. reflexivity.
  - assert (Ew : ws = wires) by (symmetry; exact Hw). rewrite Ew in Hrest.
    destruct (Hrest wires_fit 5 chunks chunks_fit chunks_cut) as (b' & buf & hs & Hread & Hdel & Hall).
    assert (Hread' : reading = Some (b', buf, None)) by exact Hread.
    assert (Eh : hs = heard) by (unfold heard; rewrite Hread', Hdel; reflexivity).
    exists C. split; [exact EC|split; [exact HC1|]].
    apply (Hall hand_over 7%N C hand_over_proper);
      [reflexivity|exact EC|rewrite Eh; exact HC1|exact HC2|exact HC3|reflexivity|constructor].
Defined.

(** Both letters are in the actor's mailbox, in order. *)
Example letters_arrive :
  (fun p => Payload <$> mailbox p) <$> procs (local_all [] node_b letters) !! 1%N =
  Some [PInit; PUser 5; PUser 6].
Proof. vm_compute. reflexivity. Qed.
