(* ===== verification/Cluster.v ===== *)
(** * cluster/cluster.go, cluster/member/typs.go, node/adapter.go: membership

    The cluster component over its transport and registry, the connector that
    dials the other members, and what logical actors see of the members. *)

From S2P Require Import Prelude Component Errors Effects Placement Transport.
From stdpp Require Import pretty.

(** ** member/typs.go *)

Record Member := mkMember {
  ID : string; Name : string; Address : string; Status : string;
  StartedAt : Z; Version : string;
  Meta : option (gmap string string) (* nil map: None *)
}.

Definition Member_Validate (m : Member) : option gerr :=
  if bool_decide (ID m = "") then Some (ESentinel "node id is required")
  else if bool_decide (Name m = "") then Some (ESentinel "node name is required")
  else None.

(** ** node/adapter.go *)

Definition newLogicalActorNode (m : Member) : NodeInfo := mkNodeInfo (ID m) (Name m) (pretty (StartedAt m)).
Definition adapter_Members (members : gmap string Member) : gmap string NodeInfo := newLogicalActorNode <$> members.
Definition zero_member : Member := mkMember "" "" "" "" 0 "" None.
Definition adapter_MemberById (found : option Member) : NodeInfo * bool :=
  (newLogicalActorNode (default zero_member found), bool_decide (is_Some found)).

(** ** cluster.go: the component *)

(** The transport and the registry, acting on a world. *)
Class ClusterDeps (W : Type) := {
  transport_Run : W -> W * option gerr;
  transport_Close : W -> W;
  transport_Send : string -> list Z -> W -> W * option gerr;
  transport_Broadcast : list Z -> W -> W * option gerr;
  registry_Run : W -> W * option gerr;
  registry_Join : Member -> W -> W * option gerr;
  registry_Leave : string -> W -> W * option gerr;
  go_runConnector : W -> W;
  ctx_cancel : W -> W
}.

Section Cluster.
Context {W : Type} `{ClusterDeps W}.

Record Cluster := mkCluster {
  node : Member; has_registry : bool; has_transport : bool; has_handler : bool; lifecycle : Controller }.

(** [NewWithOptions] *)
Definition NewWithOptions (n : Member) (reg tr hd : bool) : Cluster := mkCluster n reg tr hd zeroController.

Definition with_lifecycle (c : Cluster) (l : Controller) : Cluster :=
  mkCluster (node c) (has_registry c) (has_transport c) (has_handler c) l.

Definition init_checks (c : Cluster) : option gerr :=
  match Member_Validate (node c) with
  | Some err => Some err
  | None =>
    if negb (has_registry c) then Some (ESentinel "cluster registry is nil")
    else if negb (has_transport c) then Some (ESentinel "cluster transport is nil")
    else if negb (has_handler c) then Some (ESentinel "cluster handler is nil")
    else None
  end.

Definition Cluster_Init (c : Cluster) (w : W) : Cluster * W * option (lcerr gerr) :=
  let '(l, w, err) := Init (lifecycle c) (Some (fun w => (w, init_checks c))) w in (with_lifecycle c l, w, err).

Definition Join (c : Cluster) (w : W) : W * option gerr := registry_Join (node c) w.
Definition Leave (c : Cluster) (w : W) : W * option gerr := registry_Leave (ID (node c)) w.
Definition SendToNode (nodeID : string) (data : list Z) (w : W) : W * option gerr := transport_Send nodeID data w.
Definition Cluster_Broadcast (data : list Z) (w : W) : W * option gerr := transport_Broadcast data w.

Definition start_body (c : Cluster) (w : W) : W * option gerr :=
  match transport_Run w with
  | (w, Some err) => (w, Some err)
  | (w, None) =>
    match registry_Run w with
    | (w, Some err) => (w, Some err)
    | (w, None) => Join c (go_runConnector w)
    end
  end.

Definition Cluster_Start (c : Cluster) (w : W) : Cluster * W * option (lcerr gerr) :=
  let '(l, w, err) := Start (lifecycle c) (Some (start_body c)) w in (with_lifecycle c l, w, err).

Definition stop_body (c : Cluster) (w : W) : W * option gerr :=
  let w := ctx_cancel w in (if has_transport c then transport_Close w else w, None).

Definition Cluster_Stop (c : Cluster) (w : W) : Cluster * W * option (lcerr gerr) :=
  let '(l, w, err) := Stop (lifecycle c) (Some (stop_body c)) w in (with_lifecycle c l, w, err).
End Cluster.

(** ** cluster.go: the connector *)

Inductive cop : Set -> Type :=
| ConnectionState (id : string) : cop PeerState
| GoConnect (id address : string) : cop unit
| AllMembers : cop (list (string * string)) (* ids and addresses *).

(** [a >= b] on Go strings. *)
Definition str_geb (a b : string) : bool := str_leb b a.

Definition connectMember (self id address : string) : prog cop unit :=
  if str_geb self id then Ret tt
  else
    state <-! ConnectionState id;
    if bool_decide (state = PeerStateConnected) || bool_decide (state = PeerStateHandshaking) then Ret tt
    else do! GoConnect id address; Ret tt.

Fixpoint connect_members (self : string) (members : list (string * string)) : prog cop unit :=
  match members with
  | [] => Ret tt
  | (id, address) :: members => done <~ connectMember self id address; connect_members self members
  end.

(** One tick of runConnector. *)
Definition connector_tick (self : string) : prog cop unit :=
  members <-! AllMembers; connect_members self members.

(** ** Which members are dialed *)

Definition dialed (e : event cop) : option (string * string) :=
  match e with Ev (GoConnect id address) _ => Some (id, address) | _ => None end.

Section Tick.
(** The members and the states of the connections to them at a tick. *)
Variables (members : list (string * string)) (state : string -> PeerState).

Definition at_tick (R : Set) (o : cop R) (s : unit) : unit * R :=
  match o in cop R return unit * R with
  | ConnectionState id => (s, state id)
  | GoConnect _ _ => (s, tt)
  | AllMembers => (s, members)
  end.

Definition wants (self : string) (m : string * string) : bool :=
  negb (str_geb self m.1) && bool_decide (state m.1 = PeerStateIdle).

Lemma connectMember_dials self m :
  omap dialed (interp at_tick (connectMember self m.1 m.2) tt).1.2 = if wants self m then [m] else [].
Proof.
  unfold connectMember, wants. destruct (str_geb self m.1); [done|]. simpl.
  destruct (state m.1) eqn:E; simpl; rewrite ?E; simpl; by destruct m.
Qed.

Lemma connect_members_dials self l :
  omap dialed (interp at_tick (connect_members self l) tt).1.2 = List.filter (wants self) l.
Proof.
  induction l as [|[id address] l IH]; [done|]. cbn [connect_members]. rewrite interp_andThen.
  pose proof (connectMember_dials self (id, address)) as Hm. simpl in Hm.
  destruct (interp at_tick (connectMember self id address) tt) as [[[] t1] []].
  destruct (interp at_tick (connect_members self l) tt) as [[[] t2] []]. simpl in *.
  rewrite omap_app, Hm, IH. by destruct (wants self (id, address)).
Qed.
End Tick.

Definition dials (members : list (string * string)) (state : string -> PeerState) (self : string) : list (string * string) :=
  omap dialed (interp (at_tick members state) (connector_tick self) tt).1.2.

Lemma dials_spec members state self : dials members state self = List.filter (wants state self) members.
Proof.
  unfold dials, connector_tick. cbn [interp at_tick].
  pose proof (connect_members_dials members state self members) as E.
  destruct (interp (at_tick members state) (connect_members self members) tt) as [[[] t] []]. simpl in *.
  by rewrite <- E.
Qed.

(** Of two idle members exactly one dials the other at a tick, the one with the
    smaller id, and a tick dials only other members to which there is no connection,
    each once. *)
Theorem each_pair_is_dialed_once members state_a state_b a b :
  a ∈ members -> b ∈ members -> a.1 <> b.1 ->
  state_a b.1 = PeerStateIdle -> state_b a.1 = PeerStateIdle ->
  (b ∈ dials members state_a a.1 <-> a ∉ dials members state_b b.1) /\
  (forall m, m ∈ dials members state_a a.1 -> m ∈ members /\ m.1 <> a.1 /\ state_a m.1 = PeerStateIdle) /\
  (NoDup members -> NoDup (dials members state_a a.1)).
Proof.
  intros Ha Hb Hne Hsa Hsb. rewrite !dials_spec.
  assert (Hin : forall st self m, m ∈ List.filter (wants st self) members <->
            m ∈ members /\ str_leb m.1 self = false /\ st m.1 = PeerStateIdle).
  { intros st self m. rewrite !list_elem_of_In, List.filter_In. unfold wants, str_geb.
    rewrite andb_true_iff, negb_true_iff, bool_decide_eq_true. done. }
  split_and!.
  - rewrite !Hin. destruct (str_leb b.1 a.1) eqn:E1, (str_leb a.1 b.1) eqn:E2.
    + destruct Hne. by apply str_leb_antisym.
    + split; [naive_solver|]. intros Hn. destruct Hn. done.
    + split; [naive_solver|done].
    + destruct (str_leb_total a.1 b.1); congruence.
  - intros m Hm. apply Hin in Hm as (Hm & Hl & Hs). split_and!; [done| |done].
    intros E. rewrite E, str_leb_refl in Hl. done.
  - intros Hnd. rewrite !NoDup_ListNoDup in *. by apply List.NoDup_filter.
Qed.

Example each_pair_is_dialed_once_witness :
  let members := [("a", "10.0.0.1:1"); ("b", "10.0.0.2:1")] in
  let idle := fun _ => PeerStateIdle in
  dials members idle "a" = [("b", "10.0.0.2:1")] /\
  (("b", "10.0.0.2:1") ∈ dials members idle "a" <-> ("a", "10.0.0.1:1") ∉ dials members idle "b").
Proof.
  intros members idle. split; [vm_compute; reflexivity|].
  apply (each_pair_is_dialed_once members idle idle ("a", "10.0.0.1:1") ("b", "10.0.0.2:1")); try reflexivity.
  - apply list_elem_of_here.
  - apply list_elem_of_further, list_elem_of_here.
  - discriminate.
Defined.

(** The node's name in logical actors' eyes: members with different ids or
    different start times are different nodes. *)
Lemma newLogicalActorNode_inj m m' :
  newLogicalActorNode m = newLogicalActorNode m' -> ID m = ID m' /\ Name m = Name m' /\ StartedAt m = StartedAt m'.
Proof. intros [= H1 H2 H3]. split_and!; [done|done|]. by apply (inj pretty). Qed.
