(* ===== verification/Agent.v ===== *)
(** * gateway: client agents and their routes

    gateway/route (the tables of client commands and pushed messages),
    gateway/agent.go (the actor that stands for one client connection) and
    gateway/error.go. An agent is one goroutine (Mailbox.v, Process.v), so its
    methods run one after the other; user code is a program over the agent. *)

From S2P Require Import Prelude Protocol Errors Proto Actor Effects.

(** ** error.go *)

Definition ErrAgentRequestNil : gerr := ESentinel "gateway agent has no active client request".
Definition ErrClientPushMessageNil : gerr := ESentinel "gateway client push message is nil".
Definition ErrRouteNotFound : gerr := ESentinel "gateway client route not found".
Definition ErrOutboundRouteNotFound : gerr := ESentinel "gateway outbound route not found".

Definition ClientErrorNone : Z := 0.
Definition ClientErrorInternal : Z := 1.

(** Codes are uint32, client codes uint16. *)
Definition mapToClientCode (err : gerr) : Z :=
  let '(code, ok) := CodeOf err in
  if negb ok || (code =? ErrorCodeUnknown) || (code >? 2 ^ 16 - 1) then ClientErrorInternal else u16 code.

Section Agent.
(** [M], [T]: messages and their types; [H]: names of route handlers; [B]:
    values of other messages, for the business actor; [P]: packed messages. *)
Context {M T H B P : Set} `{ProtoRuntime M T}.
Variable message_type : M -> T. (* request.ProtoReflect().Type() *)
Variable UnmarshalNew : P -> res gerr M.

(** ** route/inbound_route.go *)

Abbreviation InboundRoute := (gmap Z (H * T)).
Definition NewInboundRoute : InboundRoute := ∅.

Definition inbound_Register (cmd act : Z) (handler : option H) (request : option M) (r : InboundRoute) : InboundRoute :=
  match handler, request with
  | Some handler, Some request =>
    let id := CmdAct cmd act in
    match r !! id with Some _ => r | None => <[id := (handler, message_type request)]> r end
  | _, _ => r
  end.

Definition Registered (r : InboundRoute) (message : option MessageFrame) : bool :=
  match message with
  | None => false
  | Some message => bool_decide (is_Some (r !! frame_ID message))
  end.

(** ** route/outbound_route.go *)

Abbreviation OutboundRoute := (gmap string Z).
Definition NewOutboundRoute : OutboundRoute := ∅.

Definition outbound_Register (cmd act : Z) (message : option M) (r : OutboundRoute) : OutboundRoute :=
  match message with
  | None => r
  | Some message =>
    let name := FullName message in
    match r !! name with Some _ => r | None => <[name := CmdAct cmd act]> r end
  end.

Definition Resolve (r : OutboundRoute) (message : option M) : Z * Z * bool :=
  match message with
  | None => (0, 0, false)
  | Some message =>
    match r !! FullName message with
    | None => (0, 0, false)
    | Some id => (u8 (Z.shiftr id 8), u8 id, true)
    end
  end.

Definition Encode (r : OutboundRoute) (message : option M) : res gerr MessageFrame :=
  let '(cmd, act, found) := Resolve r message in
  match found, message with
  | true, Some message =>
    match Marshal (AMessage message) with
    | Err err => Err (wrap "agent marshal s2c err:" err)
    | Ok body => Ok (NewMessageFrame cmd act 0 body)
    end
  | _, _ => Err ErrOutboundRouteNotFound
  end.

(** ** route/route.go *)

Record Route := mkRoute { InboundRouter : InboundRoute; OutboundRouter : OutboundRoute }.
Definition NewRoute : Route := mkRoute NewInboundRoute NewOutboundRoute.

Record registration := mkRegistration {
  g_cmd : Z; g_act : Z; g_handler : option H; g_c2s : option M; g_s2c : option M }.

Definition Register (r : Route) (g : registration) : Route :=
  mkRoute (inbound_Register (g_cmd g) (g_act g) (g_handler g) (g_c2s g) (InboundRouter r))
          (outbound_Register (g_cmd g) (g_act g) (g_s2c g) (OutboundRouter r)).
Definition Register_all (gs : list registration) : Route := fold_left Register gs NewRoute.

(** ** agent.go *)

(** What user code may ask of its agent. *)
Inductive uop : Set -> Type :=
| UReply (message : any M) : uop (option gerr)
| UReplyError (cause : option gerr) : uop (option gerr)
| UForward (target : PID) (message : M) : uop (option gerr)
| UPush (message : option M) : uop (option gerr).

(** How a handler ends. *)
Inductive outcome := Returned (err : option gerr) | Panicked.

(** The code of the route handlers and of the business actor. *)
Class UserCode := {
  run_handler : H -> M -> prog uop outcome;
  business_Init : prog uop outcome;
  business_HandleTell : B -> prog uop outcome;
  business_HandleAsk : B -> prog uop (option (any M) * outcome);
  business_Destroy : prog uop outcome;
  business_Panic : prog uop outcome
}.
Context `{UserCode}.

(** What [Connection.SendMessage] answers, after the frames it accepted, and
    [AskAsync]'s answer to the n-th call. *)
Variables (send_answer : list MessageFrame -> MessageFrame -> option gerr) (ask_answer : nat -> option gerr).

(** [forwards]: the closures given to AskAsync, by the number of the call, each
    with the request it captured. *)
Record agent := mkAgent {
  route : Route;
  currentRequest : option MessageFrame;
  client : list MessageFrame; (* frames the connection accepted *)
  asked : nat;
  forwards : gmap nat MessageFrame;
  closed : bool (* Connection.Close was called *)
}.
Definition newAgent (r : Route) : agent := mkAgent r None [] 0 ∅ false.

Definition set_request (a : agent) (r : option MessageFrame) : agent :=
  mkAgent (route a) r (client a) (asked a) (forwards a) (closed a).

Definition SendMessage (a : agent) (f : MessageFrame) : agent * option gerr :=
  match send_answer (client a) f with
  | Some err => (a, Some err)
  | None => (mkAgent (route a) (currentRequest a) (client a ++ [f]) (asked a) (forwards a) (closed a), None)
  end.

Definition with_Error (f : MessageFrame) (code : Z) : MessageFrame :=
  mkFrame (f_Cmd f) (f_Act f) (f_Flags f) code (f_Index f) (f_crc f) (f_Body f).

Definition reply (a : agent) (request : option MessageFrame) (msg : any M) (err : option gerr) : agent * option gerr :=
  match request with
  | None => (a, Some ErrAgentRequestNil)
  | Some request =>
    let response := with_Flags request 0 in
    let response := match err with Some err => with_Error response (mapToClientCode err) | None => response end in
    match msg with
    | ANil => SendMessage a response
    | _ =>
      match Marshal msg with
      | Err err => (a, Some (wrap "encode client reply: " err))
      | Ok data => SendMessage a (with_Body response data)
      end
    end
  end.

Definition Reply (a : agent) (message : any M) : agent * option gerr :=
  match currentRequest a with
  | None => (a, Some ErrAgentRequestNil)
  | Some _ => reply a (currentRequest a) message None
  end.

Definition ReplyError (a : agent) (cause : option gerr) : agent * option gerr :=
  match currentRequest a with
  | None => (a, Some ErrAgentRequestNil)
  | Some _ =>
    match cause with
    | None => (a, Some ErrRespondErrorNil)
    | Some _ => reply a (currentRequest a) ANil cause
    end
  end.

(** [Forward] up to its completion, [complete_forward]. *)
Definition Forward (a : agent) (target : PID) (message : M) : agent * option gerr :=
  match currentRequest a with
  | None => (a, Some ErrAgentRequestNil)
  | Some request =>
    let n := asked a in
    let a := mkAgent (route a) (currentRequest a) (client a) (S n) (<[n := request]> (forwards a)) (closed a) in
    match ask_answer n with
    | Some err => (a, Some (wrap "submit forwarded client request: " err))
    | None => (a, None)
    end
  end.

(** The n-th closure given to AskAsync, at each of its calls (Requests.v and
    Forwarding.v: there is at most one); its error is only logged. *)
Definition complete_forward (a : agent) (n : nat) (value : any M) (e : option gerr) : agent :=
  match forwards a !! n with
  | None => a (* no such closure *)
  | Some request => fst (reply a (Some request) value e)
  end.

Definition push (a : agent) (message : option M) : agent * option gerr :=
  let '(_, _, found) := Resolve (OutboundRouter (route a)) message in
  if negb found then (a, Some (wrap "resolve client push: " ErrOutboundRouteNotFound))
  else
    match Encode (OutboundRouter (route a)) message with
    | Err err => (a, Some (wrap "encode client push: " err))
    | Ok frame =>
      match SendMessage a frame with
      | (a, Some err) => (a, Some (wrap "send client push: " err))
      | (a, None) => (a, None)
      end
    end.
Definition Push (a : agent) (message : option M) : agent * option gerr := push a message.

(** [handlePushToClient]: the command may be nil, or its message. *)
Definition handlePushToClient (a : agent) (command : option (option P)) : agent * option gerr :=
  match command with
  | Some (Some packed) =>
    match UnmarshalNew packed with
    | Err err => (a, Some (wrap "decode client push message: " err))
    | Ok message => push a (Some message)
    end
  | _ => (a, Some ErrClientPushMessageNil)
  end.

Definition user_op (R : Set) (o : uop R) (a : agent) : agent * R :=
  match o in uop R return agent * R with
  | UReply message => Reply a message
  | UReplyError cause => ReplyError a cause
  | UForward target message => Forward a target message
  | UPush message => Push a message
  end.

Definition run_user {A} (p : prog uop A) (a : agent) : agent * A :=
  let '(a, _, r) := interp user_op p a in (a, r).

(** [Dispatch] of inbound_route.go *)
Definition Dispatch (a : agent) (message : option MessageFrame) : agent * outcome :=
  match message with
  | None => (a, Returned (Some ErrRouteNotFound))
  | Some message =>
    match InboundRouter (route a) !! frame_ID message with
    | None => (a, Returned (Some ErrRouteNotFound))
    | Some (handler, t) =>
      match Unmarshal (f_Body message) (VMessage t) with
      | Err err => (a, Returned (Some (wrap "agent route unmarshal body err:" err)))
      | Ok request =>
        match run_user (run_handler handler request) a with
        | (a, Returned (Some err)) => (a, Returned (Some (wrap "agent route handle err:" err)))
        | r => r
        end
      end
    end
  end.

(** The deferred function forgets the request, also when the handler panics. *)
Definition handleInbound (a : agent) (message : option MessageFrame) : agent * outcome :=
  let '(a, r) :=
    match message with
    | None => (a, Returned (Some ErrAgentRequestNil))
    | Some _ =>
      if negb (Registered (InboundRouter (route a)) message) then (a, Returned (Some ErrRouteNotFound))
      else Dispatch (set_request a message) message
    end in
  (set_request a None, r).

(** The messages of an agent's mailbox, and the completions of its asks. *)
Inductive agent_message :=
| AFrame (message : option MessageFrame)
| APush (command : option (option P))
| AOtherMessage (m : B)
| AComplete (n : nat) (value : any M) (err : option gerr).

(** A panic ends the message; the process recovers it and calls [Panic]
    (actor/process.go, Process.v), which the agent hands to the business actor. *)
Definition Panic (a : agent) : agent := fst (run_user business_Panic a).
Definition recovered (r : agent * outcome) : agent :=
  match r with (a, Panicked) => Panic a | (a, Returned _) => a end.

Definition HandleTell (a : agent) (m : agent_message) : agent :=
  match m with
  | AFrame message => recovered (handleInbound a message)
  | APush command => fst (handlePushToClient a command)
  | AOtherMessage m => recovered (run_user (business_HandleTell m) a)
  | AComplete n value err => complete_forward a n value err
  end.

(** Init, HandleAsk and Destroy of the agent. *)
Definition Init (a : agent) : agent * outcome := run_user business_Init a.
Definition HandleAsk (a : agent) (m : B) : agent * (option (any M) * outcome) := run_user (business_HandleAsk m) a.
Definition Destroy (a : agent) : agent * outcome :=
  match run_user business_Destroy a with
  | (a, Panicked) => (a, Panicked)
  | (a, Returned _) => (mkAgent (route a) (currentRequest a) (client a) (asked a) (forwards a) true, Returned None)
  end.

Definition handle_all (a : agent) (ms : list agent_message) : agent := fold_left HandleTell ms a.

(** [PushTo] from another actor, up to its Tell. *)
Definition PushTo (anypb_New : M -> res gerr P) (tell : option (option P) -> option gerr) (message : M) : option gerr :=
  match anypb_New message with
  | Err err => Some err
  | Ok payload => tell (Some (Some payload))
  end.

(** ** What a client sees *)

Definition answers (req f : MessageFrame) : Prop :=
  f_Cmd f = f_Cmd req /\ f_Act f = f_Act req /\ f_Index f = f_Index req /\ f_Flags f = 0 /\
  (f_Body f = f_Body req \/ exists v, Marshal v = Ok (f_Body f)) /\
  (f_Error f = f_Error req \/ exists e, f_Error f = mapToClientCode e).

Definition pushed (r : Route) (f : MessageFrame) : Prop := exists m, Encode (OutboundRouter r) (Some m) = Ok f.

(** The requests a list of messages holds, as far as the routes know them. *)
Definition requests (r : Route) (ms : list agent_message) : list MessageFrame :=
  omap (fun m => match m with
                 | AFrame (Some f) => if Registered (InboundRouter r) (Some f) then Some f else None
                 | _ => None
                 end) ms.

(** The connection accepted each of the frames after those before it. *)
Definition accepted (fs : list MessageFrame) : Prop :=
  forall fs1 f fs2, fs = fs1 ++ f :: fs2 -> send_answer fs1 f = None.

Lemma accepted_snoc fs f : accepted fs -> send_answer fs f = None -> accepted (fs ++ [f]).
Proof.
  intros Ha Hf fs1 g fs2 E. destruct fs2 as [|x fs2 _] using rev_ind.
  - by apply app_inj_tail in E as [<- <-].
  - rewrite app_comm_cons, app_assoc in E. apply app_inj_tail in E as [-> _]. by eapply Ha.
Qed.

(** What holds at every moment, also while user code runs. *)
Record agent_ok (r : Route) (reqs : list MessageFrame) (a : agent) : Prop := {
  a_route : route a = r;
  a_client : Forall (fun f => (exists req, req ∈ reqs /\ answers req f) \/ pushed r f) (client a);
  a_forwards : forall n req, forwards a !! n = Some req -> req ∈ reqs /\ (n < asked a)%nat;
  a_current : forall req, currentRequest a = Some req -> req ∈ reqs;
  a_accepted : accepted (client a)
}.

Lemma agent_ok_mono r reqs reqs' a : (forall x, x ∈ reqs -> x ∈ reqs') -> agent_ok r reqs a -> agent_ok r reqs' a.
Proof.
  intros Hs [R C F Q A]. split; [done| | |eauto|done].
  - eapply Forall_impl; [done|]. intros f [(q & ? & ?)|?]; [left|right]; eauto.
  - intros n req Hn. destruct (F n req Hn). auto.
Qed.

Lemma SendMessage_ok r reqs a f :
  agent_ok r reqs a -> (exists req, req ∈ reqs /\ answers req f) \/ pushed r f ->
  agent_ok r reqs (SendMessage a f).1.
Proof.
  intros [R C F Q A] Hf. unfold SendMessage. destruct (send_answer _ _) eqn:E; [by split|]. split; simpl; try done.
  - apply Forall_app. auto.
  - by apply accepted_snoc.
Qed.

(** The frame that [reply] sends for a request. *)
Definition reply_frame (req : MessageFrame) (err : option gerr) : MessageFrame :=
  match err with Some e => with_Error (with_Flags req 0) (mapToClientCode e) | None => with_Flags req 0 end.

Lemma reply_frame_answers req err : answers req (reply_frame req err).
Proof. destruct err; repeat split; simpl; eauto. Qed.
Lemma reply_body_answers req err v body : Marshal v = Ok body -> answers req (with_Body (reply_frame req err) body).
Proof. intros Hv. destruct err; repeat split; simpl; eauto. Qed.

Lemma reply_sends a req v err :
  reply a (Some req) v err =
  match v with
  | ANil => SendMessage a (reply_frame req err)
  | _ => match Marshal v with
         | Err e => (a, Some (wrap "encode client reply: " e))
         | Ok data => SendMessage a (with_Body (reply_frame req err) data)
         end
  end.
Proof. done. Qed.

Lemma reply_ok r reqs a req v err : agent_ok r reqs a -> req ∈ reqs -> agent_ok r reqs (reply a (Some req) v err).1.
Proof.
  intros Ha Hr. rewrite reply_sends. destruct v as [|m| |s].
  1: apply SendMessage_ok; [done|left; exists req; split; [done|apply reply_frame_answers]].
  all: match goal with |- context [Marshal ?v] => destruct (Marshal v) as [data|e] eqn:E end; [|done];
       apply SendMessage_ok; [done|left; exists req; split; [done|by eapply reply_body_answers]].
Qed.

Lemma push_ok r reqs a m : agent_ok r reqs a -> agent_ok r reqs (push a m).1.
Proof.
  intros Ha. unfold push. pose proof (a_route _ _ _ Ha) as Hr.
  destruct (Resolve (OutboundRouter (route a)) m) as [[cmd act] found]. destruct (negb found); [done|].
  destruct (Encode (OutboundRouter (route a)) m) as [frame|e] eqn:E; [|done].
  assert (Hp : pushed r frame).
  { rewrite Hr in E. destruct m as [m|]; [by exists m|]. by unfold Encode in E. }
  pose proof (SendMessage_ok r reqs a frame Ha (or_intror Hp)) as Hs.
  by destruct (SendMessage a frame) as [a' [e|]].
Qed.

Lemma user_op_ok r reqs (R : Set) (o : uop R) a : agent_ok r reqs a -> agent_ok r reqs (user_op R o a).1.
Proof.
  intros Ha. destruct o as [v|cause|t m|m]; simpl.
  - unfold Reply. destruct (currentRequest a) as [req|] eqn:E; [|done].
    apply reply_ok; [done|]. by apply (a_current _ _ _ Ha).
  - unfold ReplyError. destruct (currentRequest a) as [req|] eqn:E; [|done]. destruct cause; [|done].
    apply reply_ok; [done|]. by apply (a_current _ _ _ Ha).
  - unfold Forward. destruct (currentRequest a) as [req|] eqn:E; [|done]. destruct Ha as [R0 C F Q A].
    destruct (ask_answer (asked a)); (split; simpl; [done|done| |by rewrite <- E|done]).
    all: intros n q; rewrite lookup_insert_Some; intros [[<- <-]|[Hne Hn]]; [split; [auto|lia]|].
    all: destruct (F n q Hn); split; [done|lia].
  - by apply push_ok.
Qed.

Lemma run_user_ok {A} r reqs (p : prog uop A) a : agent_ok r reqs a -> agent_ok r reqs (run_user p a).1.
Proof.
  intros Ha. unfold run_user. pose proof (interp_keeps user_op (agent_ok r reqs) p a (user_op_ok r reqs) Ha) as Hi.
  by destruct (interp user_op p a) as [[a' t] x].
Qed.

Lemma set_request_ok r reqs a q :
  agent_ok r reqs a -> (forall req, q = Some req -> req ∈ reqs) -> agent_ok r reqs (set_request a q).
Proof. intros [] Hq. by split. Qed.

Lemma Dispatch_ok r reqs a q : agent_ok r reqs a -> agent_ok r reqs (Dispatch a q).1.
Proof.
  intros Ha. unfold Dispatch. destruct q as [f|]; [|done].
  destruct (InboundRouter (route a) !! frame_ID f) as [[h t]|]; [|done].
  destruct (Unmarshal (f_Body f) (VMessage t)) as [m|e]; [|done].
  pose proof (run_user_ok r reqs (run_handler h m) a Ha) as Hu.
  by destruct (run_user (run_handler h m) a) as [a' [[e|]|]].
Qed.

Lemma handleInbound_ok r reqs a q :
  agent_ok r reqs a -> (forall f, q = Some f -> Registered (InboundRouter r) q = true -> f ∈ reqs) ->
  agent_ok r reqs (handleInbound a q).1 /\ currentRequest (handleInbound a q).1 = None.
Proof.
  intros Ha Hq. pose proof (a_route _ _ _ Ha) as Hr. unfold handleInbound.
  match goal with |- context [let '(_, _) := ?x in _] => assert (Hx : agent_ok r reqs x.1); [|destruct x as [a' o]] end.
  - destruct q as [f|]; [|done]. destruct (negb _) eqn:E; [done|]. apply negb_false_iff in E.
    apply Dispatch_ok, set_request_ok; [done|]. intros req [= <-]. apply Hq; [done|]. by rewrite <- Hr.
  - split; [by apply set_request_ok|done].
Qed.

Lemma user_op_current (R : Set) (o : uop R) a q : currentRequest a = q -> currentRequest (user_op R o a).1 = q.
Proof.
  assert (Hs : forall a f, currentRequest (SendMessage a f).1 = currentRequest a)
    by (intros; unfold SendMessage; by destruct (send_answer _ _)).
  assert (Hrep : forall a req v err, currentRequest (reply a (Some req) v err).1 = currentRequest a).
  { intros a0 req v err. rewrite reply_sends. destruct v; [apply Hs| | |];
      match goal with |- context [Marshal ?v] => destruct (Marshal v) end; (apply Hs || done). }
  intros <-. destruct o; simpl.
  - unfold Reply. destruct (currentRequest a) eqn:E; [by rewrite Hrep|done].
  - unfold ReplyError. destruct (currentRequest a) eqn:E; [|done]. destruct cause; [by rewrite Hrep|done].
  - unfold Forward. destruct (currentRequest a) eqn:E; [|done]. by destruct (ask_answer _).
  - unfold Push, push. destruct (Resolve _ _) as [[? ?] found]. destruct (negb found); [done|].
    destruct (Encode _ _) as [f|]; [|done]. specialize (Hs a f). by destruct (SendMessage a f) as [? [|]].
Qed.

Lemma run_user_current {A} (p : prog uop A) a : currentRequest (run_user p a).1 = currentRequest a.
Proof.
  unfold run_user. pose proof (interp_keeps user_op (fun b => currentRequest b = currentRequest a) p a
    (fun R o s => user_op_current R o s (currentRequest a)) eq_refl) as Hi.
  by destruct (interp user_op p a) as [[a' t] x].
Qed.

Lemma recovered_ok r reqs (x : agent * outcome) :
  agent_ok r reqs x.1 /\ currentRequest x.1 = None ->
  agent_ok r reqs (recovered x) /\ currentRequest (recovered x) = None.
Proof.
  destruct x as [a [err|]]; [done|]. simpl. intros [Ha Hc].
  split; [by apply run_user_ok|]. unfold Panic. by rewrite run_user_current.
Qed.

Lemma HandleTell_ok r reqs a m :
  agent_ok r reqs a -> currentRequest a = None -> (forall f, f ∈ requests r [m] -> f ∈ reqs) ->
  agent_ok r reqs (HandleTell a m) /\ currentRequest (HandleTell a m) = None.
Proof.
  intros Ha Hc Hm. destruct m as [q|c|b|n v e]; simpl.
  - apply recovered_ok, handleInbound_ok; [done|]. intros f -> Hf. apply Hm. unfold requests. rewrite omap_cons, Hf. apply list_elem_of_here.
  - unfold handlePushToClient. destruct c as [[p|]|]; [|done..]. destruct (UnmarshalNew p) as [m|]; [|done].
    split; [by apply push_ok|]. by apply (user_op_current _ (UPush (Some m)) a None).
  - apply recovered_ok. split; [by apply run_user_ok|by rewrite run_user_current].
  - unfold complete_forward. destruct (forwards a !! n) as [req|] eqn:E; [|done].
    destruct (a_forwards _ _ _ Ha n req E) as [Hr _].
    split; [by apply reply_ok|]. rewrite reply_sends.
    assert (Hs : forall a f, currentRequest (SendMessage a f).1 = currentRequest a)
      by (intros; unfold SendMessage; by destruct (send_answer _ _)).
    destruct v; [by rewrite Hs|..]; match goal with |- context [Marshal ?v] => destruct (Marshal v) end; (by rewrite Hs) || done.
Qed.

Lemma handle_all_ok r ms :
  agent_ok r (requests r ms) (handle_all (newAgent r) ms) /\ currentRequest (handle_all (newAgent r) ms) = None.
Proof.
  assert (Hgo : forall ms' a', (forall f, f ∈ requests r ms' -> f ∈ requests r ms) ->
    agent_ok r (requests r ms) a' -> currentRequest a' = None ->
    agent_ok r (requests r ms) (handle_all a' ms') /\ currentRequest (handle_all a' ms') = None).
  { induction ms' as [|m ms' IH]; intros a' Hsub Ha Hc; [done|]. cbn [handle_all fold_left].
    unfold requests in Hsub. rewrite omap_cons in Hsub.
    destruct (HandleTell_ok r (requests r ms) a' m) as [Ha' Hc']; [done|done| |].
    { intros f. unfold requests. rewrite omap_cons. cbn [omap list_omap]. intros Hf. apply Hsub. case_match; [|set_solver]. set_solver. }
    apply IH; [|done|done]. intros f Hf. apply Hsub. case_match; [by right|done]. }
  apply Hgo; [done| |done]. split; try done. by intros [|? ?] ? ?.
Qed.

(** Whatever the route handlers and the business actor do, every frame a client gets
    answers a request the client sent, with its command and index, or is a push of a
    registered message, and between messages no request is current. *)
Theorem every_frame_answers_or_pushes r ms :
  let a := handle_all (newAgent r) ms in
  currentRequest a = None /\
  Forall (fun f => (exists req, req ∈ requests r ms /\ answers req f) \/ pushed r f) (client a) /\
  forall n req, forwards a !! n = Some req -> req ∈ requests r ms.
Proof.
  destruct (handle_all_ok r ms) as [[_ C F _ _] Hc]. split_and!; [done|done|]. intros n req Hn. by apply (F n req).
Qed.

(** ** Invariants of the agent's data *)

(** What every call of user code and every reply keeps, every message keeps. *)
Lemma HandleTell_keeps (I : agent -> Prop) a m :
  (forall (R : Set) (o : uop R) a, I a -> I (user_op R o a).1) ->
  (forall a q, I a -> I (set_request a q)) -> (forall a req v e, I a -> I (reply a (Some req) v e).1) ->
  I a -> I (HandleTell a m).
Proof.
  intros Hop Hset Hrep Ha.
  assert (Hrun : forall A (p : prog uop A) a, I a -> I (run_user p a).1).
  { intros A p b Hb. unfold run_user. pose proof (interp_keeps user_op I p b Hop Hb). by destruct (interp user_op p b) as [[? ?] ?]. }
  assert (Hrec : forall r : agent * outcome, I r.1 -> I (recovered r)) by (intros [b [|]] Hb; [done|by apply Hrun]).
  destruct m as [q|c|b|k v e]; simpl.
  - apply Hrec. unfold handleInbound.
    assert (Hd : I (Dispatch (set_request a q) q).1).
    { unfold Dispatch. destruct q as [f|]; [|by apply Hset]. destruct (InboundRouter _ !! _) as [[h t]|]; [|by apply Hset].
      destruct (Unmarshal _ _) as [x|]; [|by apply Hset].
      pose proof (Hrun _ (run_handler h x) _ (Hset a (Some f) Ha)). by destruct (run_user _ _) as [a' [[|]|]]. }
    destruct q as [f|]; [|by apply Hset]. destruct (negb _); [by apply Hset|].
    destruct (Dispatch _ _) as [a' o]. by apply Hset.
  - unfold handlePushToClient. destruct c as [[p|]|]; try done. destruct (UnmarshalNew p) as [x|]; [|done].
    by apply (Hop _ (UPush (Some x))).
  - apply Hrec. by apply Hrun.
  - unfold complete_forward. destruct (forwards a !! k); [|done]. by apply Hrep.
Qed.

Lemma SendMessage_data a f :
  asked (SendMessage a f).1 = asked a /\ forwards (SendMessage a f).1 = forwards a.
Proof. unfold SendMessage. by destruct (send_answer _ _). Qed.

Lemma reply_data a q v err : asked (reply a q v err).1 = asked a /\ forwards (reply a q v err).1 = forwards a.
Proof.
  destruct q as [q|]; [|done]. rewrite reply_sends.
  destruct v; [apply SendMessage_data|..]; match goal with |- context [Marshal ?v] => destruct (Marshal v) end;
    done || apply SendMessage_data.
Qed.

(** Calls of the agent are counted, and each Forward keeps its request for good. *)
Definition grown (a0 a : agent) : Prop :=
  (asked a0 <= asked a)%nat /\ (forall n, (n < asked a)%nat <-> is_Some (forwards a !! n)) /\
  forall n req, forwards a0 !! n = Some req -> forwards a !! n = Some req.

Lemma user_op_data (R : Set) (o : uop R) a :
  (asked (user_op R o a).1 = asked a /\ forwards (user_op R o a).1 = forwards a) \/
  exists req, currentRequest a = Some req /\ asked (user_op R o a).1 = S (asked a) /\
    forwards (user_op R o a).1 = <[asked a := req]> (forwards a).
Proof.
  destruct o; simpl.
  - left. unfold Reply. destruct (currentRequest a); [apply reply_data|done].
  - left. unfold ReplyError. destruct (currentRequest a); [|done]. destruct cause; [apply reply_data|done].
  - unfold Forward. destruct (currentRequest a) as [q|]; [right|by left]. exists q. by destruct (ask_answer _).
  - left. unfold Push, push. destruct (Resolve _ _) as [[? ?] found]. destruct (negb found); [done|].
    destruct (Encode _ _) as [f|]; [|done]. pose proof (SendMessage_data a f).
    by destruct (SendMessage a f) as [? [|]].
Qed.

Lemma HandleTell_grown a0 a m : grown a0 a -> grown a0 (HandleTell a m).
Proof.
  intros Hg. apply (HandleTell_keeps (grown a0)); [|done| |done].
  - intros R o b (G1 & G2 & G3). unfold grown.
    destruct (user_op_data R o b) as [[-> ->]|(req & _ & -> & ->)]; [done|]. split; [lia|]. split.
    + intros n. destruct (decide (n = asked b)) as [->|Hne].
      * rewrite lookup_insert_eq. split; [by eexists|lia].
      * rewrite lookup_insert_ne by done. rewrite <- G2. lia.
    + intros n q Hn. apply G3 in Hn. rewrite lookup_insert_ne; [done|].
      intros <-. assert (asked b < asked b)%nat by (apply G2; eauto). lia.
  - intros b req v e (G1 & G2 & G3). unfold grown. by destruct (reply_data b (Some req) v e) as [-> ->].
Qed.

(** ** The route tables *)

Definition reg_c2s (id : Z) (g : registration) : bool :=
  match g_handler g, g_c2s g with Some _, Some _ => CmdAct (g_cmd g) (g_act g) =? id | _, _ => false end.
Definition reg_s2c (name : string) (g : registration) : bool :=
  match g_s2c g with Some m => bool_decide (FullName m = name) | None => false end.

Lemma Register_all_snoc gs g : Register_all (gs ++ [g]) = Register (Register_all gs) g.
Proof. unfold Register_all. by rewrite fold_left_app. Qed.

Lemma find_app {A} (f : A -> bool) l1 l2 :
  List.find f (l1 ++ l2) = match List.find f l1 with Some x => Some x | None => List.find f l2 end.
Proof. induction l1 as [|x l1 IH]; simpl; [done|]. by destruct (f x). Qed.

Lemma CmdAct_bytes cmd act : is_u 8 cmd -> is_u 8 act ->
  u8 (Z.shiftr (CmdAct cmd act) 8) = cmd /\ u8 (CmdAct cmd act) = act.
Proof.
  intros Hc Ha. unfold CmdAct. unfold is_u in *.
  assert (E : u16 (Z.shiftl (u16 cmd) 8) = cmd * 256).
  { rewrite Z.shiftl_mul_pow2 by lia. unfold u16. rewrite (Z.mod_small cmd) by lia. apply Z.mod_small. lia. }
  assert (E2 : Z.lor (u16 (Z.shiftl (u16 cmd) 8)) (u16 act) = cmd * 2 ^ 8 + act).
  { rewrite E. replace (u16 act) with act by (unfold u16; rewrite Z.mod_small; lia).
    replace (cmd * 256) with (Z.shiftl cmd 8) by (rewrite Z.shiftl_mul_pow2; lia).
    apply lor_shift; lia. }
  rewrite E2. unfold u8. rewrite Z.shiftr_div_pow2 by lia. split.
  - rewrite Z.div_add_l, (Z.div_small act) by lia. rewrite Z.add_0_r. apply Z.mod_small. lia.
  - rewrite Z.add_comm, Z.mod_add by lia. apply Z.mod_small. lia.
Qed.

(** The route tables hold, for each command and for each pushed message, exactly the
    first registration that names it. *)
Theorem first_registration_wins gs :
  let r := Register_all gs in
  (forall f, Registered (InboundRouter r) (Some f) = true <-> exists g, g ∈ gs /\ reg_c2s (frame_ID f) g = true) /\
  (forall id, InboundRouter r !! id =
     match List.find (reg_c2s id) gs with
     | Some g => match g_handler g, g_c2s g with Some h, Some m => Some (h, message_type m) | _, _ => None end
     | None => None
     end) /\
  (forall m, (forall g, g ∈ gs -> is_u 8 (g_cmd g) /\ is_u 8 (g_act g)) ->
     Resolve (OutboundRouter r) (Some m) =
     match List.find (reg_s2c (FullName m)) gs with
     | Some g => (g_cmd g, g_act g, true)
     | None => (0, 0, false)
     end).
Proof.
  intros r.
  assert (Hin : forall id, InboundRouter r !! id =
     match List.find (reg_c2s id) gs with
     | Some g => match g_handler g, g_c2s g with Some h, Some m => Some (h, message_type m) | _, _ => None end
     | None => None
     end).
  { subst r. intros id. induction gs as [|g gs IH] using rev_ind; [done|].
    rewrite Register_all_snoc, find_app. cbn [Register InboundRouter List.find]. unfold inbound_Register, reg_c2s in *. cbn zeta.
    destruct (g_handler g) as [h|] eqn:Eh; [destruct (g_c2s g) as [m|] eqn:Em|].
    2,3: rewrite IH; by destruct (List.find _ gs).
    destruct (InboundRouter (Register_all gs) !! CmdAct (g_cmd g) (g_act g)) eqn:El.
    - rewrite IH. destruct (List.find _ gs) eqn:Ef; [done|]. destruct (CmdAct _ _ =? id) eqn:Ei; [|done].
      apply Z.eqb_eq in Ei. subst id. congruence.
    - rewrite lookup_insert. case_decide as Hd.
      + subst id. rewrite El in IH. rewrite Z.eqb_refl.
        destruct (List.find _ gs) as [g'|] eqn:Ef; [|by rewrite Eh, Em].
        apply List.find_some in Ef as [_ Ef]. destruct (g_handler g'), (g_c2s g'); done.
      + rewrite IH. destruct (List.find _ gs) eqn:Ef; [done|]. by rewrite (proj2 (Z.eqb_neq _ _)). }
  split_and!; [|exact Hin|].
  - intros f. unfold Registered. rewrite bool_decide_eq_true, Hin. split.
    + destruct (List.find _ gs) as [g|] eqn:Ef; [|by intros []]. intros _. exists g.
      apply List.find_some in Ef. by rewrite list_elem_of_In.
    + intros (g & Hg & Hr). destruct (List.find _ gs) as [g'|] eqn:Ef.
      * apply List.find_some in Ef as [_ Ef]. unfold reg_c2s in Ef. destruct (g_handler g'), (g_c2s g'); done.
      * apply list_elem_of_In in Hg. by rewrite (List.find_none _ _ Ef g Hg) in Hr.
  - intros m Hty. unfold Resolve.
    assert (Hout : OutboundRouter r !! FullName m =
              match List.find (reg_s2c (FullName m)) gs with
              | Some g => Some (CmdAct (g_cmd g) (g_act g)) | None => None end).
    { subst r. clear Hin Hty. induction gs as [|g gs IH] using rev_ind; [done|].
      rewrite Register_all_snoc, find_app. cbn [Register OutboundRouter List.find]. unfold outbound_Register, reg_s2c in *. cbn zeta.
      destruct (g_s2c g) as [x|] eqn:Ex; [|rewrite IH; by destruct (List.find _ gs)].
      destruct (OutboundRouter (Register_all gs) !! FullName x) eqn:El.
      - rewrite IH. destruct (List.find _ gs) eqn:Ef; [done|]. case_bool_decide as Hn; [|done]. congruence.
      - rewrite lookup_insert. case_decide as Hn.
        + rewrite Hn in El. rewrite El in IH. rewrite bool_decide_true by done. by destruct (List.find _ gs).
        + rewrite IH. destruct (List.find _ gs) eqn:Ef; [done|]. by rewrite bool_decide_false. }
    rewrite Hout. destruct (List.find _ gs) as [g|] eqn:Ef; [|done].
    apply List.find_some in Ef as [Hg _]. apply list_elem_of_In in Hg. destruct (Hty g Hg) as [Hb1 Hb2].
    by destruct (CmdAct_bytes _ _ Hb1 Hb2) as [-> ->].
Qed.
End Agent.

(** An error never reaches a client as success, fits 16 bits, and keeps its own code where it fits. *)
Theorem client_codes_report_failure e :
  0 <= (CodeOf e).1 ->
  mapToClientCode e <> ClientErrorNone /\ is_u 16 (mapToClientCode e) /\
  ((CodeOf e).2 = true -> (CodeOf e).1 < 2 ^ 16 -> mapToClientCode e = (CodeOf e).1).
Proof.
  unfold mapToClientCode, is_u, ClientErrorNone, ClientErrorInternal, ErrorCodeUnknown.
  assert (Hz : (CodeOf e).2 = true -> (CodeOf e).1 <> 0).
  { unfold CodeOf. destruct (errors_As e) as [[c m]|]; [|done]. unfold ErrorCodeUnknown.
    destruct (c =? 0) eqn:E; zbool; done. }
  destruct (CodeOf e) as [c ok]. simpl in *. intros Hc. destruct ok; simpl; [|split_and!; (lia || done)].
  specialize (Hz eq_refl). rewrite (proj2 (Z.eqb_neq _ _)) by done. simpl.
  destruct (c >? 2 ^ 16 - 1) eqn:E; zbool; [split_and!; (lia || done)|].
  rewrite u16_small by (unfold is_u; lia). split_and!; (lia || done).
Qed.
