(* ===== verification/Forwarding.v ===== *)
(** * Forwarded client requests and the table of pending asks

    [Forward] of gateway/agent.go gives AskAsync a closure that answers the client
    each time it is called; that it is called at most once is the work of
    actor/request_manager.go. An agent (Agent.v) runs over the node's table
    (Requests.v): while the agent works and between its messages anything may
    happen to the table, and the closures it calls come back as tasks in the
    agent's mailbox, unless the mailbox refuses them. *)

From S2P Require Import Prelude Protocol Errors Requests Proto Actor Effects Agent.

Section Forwarding.
Context {M T H B P : Set} `{ProtoRuntime M T}.
Variable UnmarshalNew : P -> res gerr M.
Context `{UserCode M H B}.
Variable send_answer : list MessageFrame -> MessageFrame -> option gerr.

Abbreviation agent := (agent (T:=T) (H:=H)).
Abbreviation agent_message := (agent_message (M:=M) (B:=B) (P:=P)).
Abbreviation handle := (HandleTell UnmarshalNew send_answer).

(** Callbacks of the table: the agent's n-th closure, or somebody else's. *)
Abbreviation callback := (option nat).
Abbreviation table := (history (any M) callback).

Record world := mkWorld {
  w_agent : agent;
  w_table : table;
  w_mail : list agent_message;
  w_handled : list agent_message (* from the first on *)
}.

Definition start_world (r : Route) (maxPending seed : Z) : world :=
  mkWorld (newAgent r) (start maxPending seed) [] [].

(** The calls of closures in a list of messages, and those of the agent's
    closures among calls of callbacks. *)
Definition completion_of (m : agent_message) : option nat :=
  match m with AComplete n _ _ => Some n | _ => None end.
Definition completions (ms : list agent_message) : list nat := omap completion_of ms.

Definition task_of (c : completion (any M) callback) : option agent_message :=
  match c_cb c with Some n => Some (AComplete n (default ANil (c_value c)) (c_err c)) | None => None end.

Definition issued_since (h h' : table) : list (Z * callback) := drop (length (issued h)) (issued h').
Definition fired_since (h h' : table) : list (completion (any M) callback) := drop (length (fired h)) (fired h').

(** Operations of the table, fewer than 2^64 requests in all; the messages that
    arrive meanwhile. *)
Definition table_runs (os : list (op (any M) callback)) (h h' : table) : Prop :=
  steps os h h' /\ zlen (issued h) + Z.of_nat (adds os) <= 2 ^ 64.
Definition arrive (h h' : table) (ins : list agent_message) : Prop :=
  filter (fun m => completion_of m <> None) ins `sublist_of` omap task_of (fired_since h h').

Inductive wstep : world -> world -> Prop :=
| w_message m rest ask os h' ins w : (* the agent handles a message, asking with its closures *)
    w_mail w = m :: rest ->
    table_runs os (w_table w) h' ->
    omap snd (issued_since (w_table w) h') `sublist_of`
      seq (asked (w_agent w)) (asked (handle ask (w_agent w) m) - asked (w_agent w)) ->
    arrive (w_table w) h' ins ->
    wstep w (mkWorld (handle ask (w_agent w) m) h' (rest ++ ins) (w_handled w ++ [m]))
| w_others os h' ins w : (* the rest of the node, and what comes from clients *)
    table_runs os (w_table w) h' ->
    omap snd (issued_since (w_table w) h') = [] ->
    arrive (w_table w) h' ins ->
    wstep w (mkWorld (w_agent w) h' (w_mail w ++ ins) (w_handled w)).

Inductive wsteps : world -> world -> Prop :=
| ws_nil w : wsteps w w
| ws_snoc w1 w2 w3 : wsteps w1 w2 -> wstep w2 w3 -> wsteps w1 w3.

(** ** The invariant *)

Record forward_ok (r : Route) (seed : Z) (w : world) : Prop := {
  fo_table : inv seed (w_table w);
  fo_own : NoDup (omap snd (issued (w_table w)));
  fo_asked : forall n, n ∈ omap snd (issued (w_table w)) -> (n < asked (w_agent w))%nat;
  fo_tasks : completions (w_handled w ++ w_mail w) ⊆+ omap c_cb (fired (w_table w));
  fo_closures : forall n, (n < asked (w_agent w))%nat <-> is_Some (forwards (w_agent w) !! n);
  fo_agent : agent_ok send_answer r (requests r (w_handled w)) (w_agent w) /\ currentRequest (w_agent w) = None
}.

Lemma step_grows (o : op (any M) callback) h h' :
  step o h h' -> issued h `prefix_of` issued h' /\ fired h `prefix_of` fired h'.
Proof.
  destruct 1; simpl; try done.
  - unfold add. repeat case_match; simplify_eq; simpl; split; try done. by apply prefix_app_r.
  - unfold complete, remove. repeat case_match; simplify_eq; simpl; split; try done; by apply prefix_app_r.
  - unfold stop. repeat case_match; simplify_eq; simpl; split; try done; by apply prefix_app_r.
Qed.

Lemma steps_grow (os : list (op (any M) callback)) h h' :
  steps os h h' -> issued h' = issued h ++ issued_since h h' /\ fired h' = fired h ++ fired_since h h'.
Proof.
  intros Hs. assert (Hg : issued h `prefix_of` issued h' /\ fired h `prefix_of` fired h').
  { induction Hs as [|o os h1 h2 h3 Ho _ [IH1 IH2]]; [done|]. apply step_grows in Ho as [G1 G2].
    split; by etrans. }
  destruct Hg as [[k1 E1] [k2 E2]]. unfold issued_since, fired_since. by rewrite E1, E2, !drop_app_length.
Qed.

Lemma fired_own (seed : Z) (h : table) : inv seed h -> omap c_cb (fired h) ⊆+ omap snd (issued h).
Proof.
  intros I. rewrite (inv_conserve _ _ I), omap_app.
  replace (omap snd (called <$> fired h)) with (omap c_cb (fired h)); [apply submseteq_inserts_r, reflexivity|].
  induction (fired h) as [|c cs IH]; [done|]. by rewrite fmap_cons, !omap_cons, IH.
Qed.

(** Each closure of the agent runs at most once. *)
Lemma completions_NoDup r seed w : forward_ok r seed w -> NoDup (completions (w_handled w ++ w_mail w)).
Proof.
  intros I.
  pose proof (transitivity (fo_tasks _ _ _ I) (fired_own _ _ (fo_table _ _ _ I))) as Hsub.
  apply submseteq_Permutation in Hsub as [k Hk].
  pose proof (fo_own _ _ _ I) as Hn. rewrite Hk in Hn. by apply NoDup_app in Hn as [Hn _].
Qed.

Lemma arrive_tasks (h h' : table) ins :
  arrive h h' ins -> completions ins `sublist_of` omap c_cb (fired_since h h').
Proof.
  unfold arrive, completions. intros Ha.
  replace (omap completion_of ins) with (omap completion_of (filter (fun m => completion_of m <> None) ins)).
  - replace (omap c_cb (fired_since h h')) with (omap completion_of (omap task_of (fired_since h h'))).
    + clear -Ha. induction Ha as [|x l1 l2 _ IH|x l1 l2 _ IH]; simpl; [done|..].
      * destruct (completion_of x); [by apply sublist_skip|done].
      * destruct (completion_of x); [by apply sublist_cons|done].
    + clear. induction (fired_since h h') as [|c cs IH]; [done|]. rewrite !omap_cons, <- IH. unfold task_of at 1.
      by destruct (c_cb c).
  - clear. induction ins as [|m ins IH]; [done|]. rewrite filter_cons, omap_cons.
    case_decide as Hd; rewrite ?omap_cons, IH; destruct (completion_of m); done.
Qed.

Lemma table_keeps os (seed : Z) (h h' : table) : table_runs os h h' -> inv seed h -> inv seed h'.
Proof. intros [Hs Hb] I. by eapply steps_inv. Qed.

(** The ids of the closures issued meanwhile are new. *)
Lemma own_grows os (h h' : table) n k :
  table_runs os h h' -> omap snd (issued_since h h') `sublist_of` seq n k ->
  (forall x, x ∈ omap snd (issued h) -> (x < n)%nat) -> NoDup (omap snd (issued h)) ->
  NoDup (omap snd (issued h')) /\ forall x, x ∈ omap snd (issued h') -> (x < n + k)%nat.
Proof.
  intros [Hs _] Hsub Hlt Hnd. destruct (steps_grow _ _ _ Hs) as [-> _]. rewrite omap_app.
  assert (Hin : forall x, x ∈ omap snd (issued_since h h') -> (n <= x < n + k)%nat)
    by (intros x Hx; apply elem_of_seq; by eapply elem_of_sublist).
  split.
  - apply NoDup_app. split_and!; [done| |eapply sublist_NoDup; [apply NoDup_seq|exact Hsub]].
    intros x Hx Hx'. apply Hlt in Hx. apply Hin in Hx'. lia.
  - intros x [Hx|Hx]%elem_of_app; [apply Hlt in Hx|apply Hin in Hx]; lia.
Qed.

Lemma tasks_grow os (h h' : table) ins l :
  table_runs os h h' -> arrive h h' ins -> completions l ⊆+ omap c_cb (fired h) ->
  completions (l ++ ins) ⊆+ omap c_cb (fired h').
Proof.
  intros [Hs _] Ha Hl. destruct (steps_grow _ _ _ Hs) as [_ ->]. unfold completions in *. rewrite !omap_app.
  apply submseteq_app; [done|]. apply sublist_submseteq. by apply arrive_tasks.
Qed.

Lemma start_world_ok r maxPending seed : forward_ok r seed (start_world r maxPending seed).
Proof.
  split; simpl; try done.
  - apply start_inv.
  - constructor.
  - intros n Hn. by apply elem_of_nil in Hn.
  - intros n. split; [lia|]. intros [x Hx]. by rewrite lookup_empty in Hx.
  - split; [|done]. split; try done. intros [|? ?] ? ?; done.
Qed.

Lemma wstep_ok r seed w w' : wstep w w' -> forward_ok r seed w -> forward_ok r seed w'.
Proof.
  intros [m rest ask os h' ins w0 Hm Hruns Hown Harr|os h' ins w0 Hruns Hown Harr] [F1 F2 F3 F4 F5 [F6 F7]].
  - destruct (HandleTell_grown UnmarshalNew send_answer ask (w_agent w0) (w_agent w0) m) as (G1 & G2 & _); [done|].
    destruct (own_grows _ _ _ _ _ Hruns Hown F3 F2) as [O1 O2]. split; simpl; try done.
    + by eapply table_keeps.
    + intros n Hn. apply O2 in Hn. lia.
    + rewrite Hm in F4.
      replace ((w_handled w0 ++ [m]) ++ rest ++ ins) with ((w_handled w0 ++ m :: rest) ++ ins) by (by rewrite <- !app_assoc).
      by eapply tasks_grow.
    + apply HandleTell_ok; [|done|].
      * eapply agent_ok_mono; [|exact F6]. intros x Hx. unfold requests. rewrite omap_app. apply elem_of_app. by left.
      * intros f Hf. unfold requests in *. rewrite omap_app. apply elem_of_app. by right.
  - destruct (own_grows _ _ _ (asked (w_agent w0)) 0 Hruns) as [O1 O2]; [by rewrite Hown|done|done|]. split; simpl; try done.
    + by eapply table_keeps.
    + intros n Hn. apply O2 in Hn. lia.
    + rewrite app_assoc. by eapply tasks_grow.
Qed.

Lemma wsteps_ok r seed w w' : wsteps w w' -> forward_ok r seed w -> forward_ok r seed w'.
Proof. induction 1 as [|w1 w2 w3 _ IH Hs]; [done|]. intros I. eapply wstep_ok; eauto. Qed.

Lemma wsteps_forwards r seed w w' n req :
  wsteps w w' -> forward_ok r seed w -> forwards (w_agent w) !! n = Some req -> forwards (w_agent w') !! n = Some req.
Proof.
  induction 1 as [|w1 w2 w3 H12 IH Hs]; [done|]. intros I Hn. specialize (IH I Hn).
  pose proof (wsteps_ok _ _ _ _ H12 I) as I2. destruct Hs as [m rest ask os h' ins w0 Hm _ _ _|]; simpl; [|done].
  destruct (HandleTell_grown UnmarshalNew send_answer ask (w_agent w0) (w_agent w0) m) as (_ & _ & G3); [|auto].
  split; [done|]. split; [apply I2|done].
Qed.

(** The frame a completion sends for the request, when its value can be encoded. *)
Definition completion_frame (req : MessageFrame) (value : any M) (err : option gerr) (frame : MessageFrame) : Prop :=
  value = ANil /\ frame = reply_frame req err \/
  exists data, Marshal value = Ok data /\ frame = with_Body (reply_frame req err) data.

Lemma complete_answers (a : agent) n req value err frame :
  forwards a !! n = Some req -> completion_frame req value err frame -> send_answer (client a) frame = None ->
  client (complete_forward send_answer a n value err) = client a ++ [frame] /\ answers (M:=M) req frame.
Proof.
  intros Hf Hv Hs. unfold complete_forward. rewrite Hf, reply_sends.
  destruct Hv as [[-> ->]|(data & Hd & ->)].
  - unfold SendMessage. rewrite Hs. split; [done|apply reply_frame_answers].
  - split; [|by eapply reply_body_answers].
    destruct value; [done|..]; rewrite Hd; unfold SendMessage; by rewrite Hs.
Qed.

(** C27: Forward keeps the request that was current, whatever the agent does later;
    when the node's request table calls the closure back, the client gets the frame
    of that request with the value or the error; and over every run of the agent and
    the table each closure is called back at most once, counting the calls still in
    the mailbox. *)
Theorem forwarded_request_is_answered_once r maxPending seed w w' :
  wsteps (start_world r maxPending seed) w -> wsteps w w' ->
  NoDup (completions (w_handled w' ++ w_mail w')) /\
  (forall ask (a : agent) target (message : M) req, currentRequest a = Some req ->
     forwards (Forward ask a target message).1 !! asked a = Some req) /\
  forall n req, forwards (w_agent w) !! n = Some req ->
    req ∈ requests r (w_handled w) /\ forwards (w_agent w') !! n = Some req /\
    forall ask value err rest frame, w_mail w' = AComplete n value err :: rest ->
      completion_frame req value err frame -> send_answer (client (w_agent w')) frame = None ->
      client (handle ask (w_agent w') (AComplete n value err)) = client (w_agent w') ++ [frame] /\
      answers (M:=M) req frame /\ n ∉ completions (w_handled w' ++ rest).
Proof.
  intros Hw Hw'. pose proof (wsteps_ok r seed _ _ Hw (start_world_ok r maxPending seed)) as I.
  pose proof (wsteps_ok r seed _ _ Hw' I) as I'. pose proof (completions_NoDup _ _ _ I') as Hnd.
  split; [done|]. split.
  - intros ask a t m req Hc. unfold Forward. rewrite Hc. destruct (ask _); apply lookup_insert_eq.
  - intros n req Hn. pose proof (wsteps_forwards _ _ _ _ _ _ Hw' I Hn) as Hn'.
    split_and!; [by eapply (a_forwards _ _ _ _ (proj1 (fo_agent _ _ _ I)) n)|done|].
    intros ask value err rest frame Hm Hv Hs. destruct (complete_answers _ _ _ _ _ _ Hn' Hv Hs) as [Hc Ha].
    split_and!; [done|done|]. unfold completions in *. rewrite Hm, omap_app in Hnd. simpl in Hnd.
    rewrite omap_app. intros Hin. rewrite <- Permutation_middle in Hnd. by apply NoDup_cons in Hnd as [Hnd _].
Qed.
End Forwarding.
