(* ===== verification/Session.v ===== *)
(** * A client of the gateway, from its socket to its agent and back

    A client's requests go over its connection (Conn.v) to the agent that stands
    for it (Agent.v); what the agent sends goes back over the connection. *)

From S2P Require Import Prelude Protocol Codec Cipher Buffer Conn Errors Proto Actor Effects Agent.

Section session.
Context {M T H Business P : Set} `{ProtoRuntime M T} (UnmarshalNew : P -> res gerr M)
  `{!UserCode (M:=M) (H:=H) (B:=Business)} (ask_answer : nat -> option gerr) `{KeyAgreement}.
Context (OnConnected : Conn -> option nerr) (OnMessage : Conn -> MessageFrame -> option nerr)
        (select_done : Conn -> bool) (as_gerr : nerr -> gerr).

(** What [SendMessage] of the connection [W] answers an agent that sent frames on
    it before. *)
Definition conn_answer (W : Conn) (before : list MessageFrame) (f : MessageFrame) : option gerr :=
  as_gerr <$> (Conn.SendMessage select_done (send_all select_done W before).1 (Some f)).2.

(** The frames among an agent's messages: bridge.go's OnMessage tells them to it. *)
Definition frame_in (m : agent_message (M:=M) (B:=Business) (P:=P)) : option MessageFrame :=
  match m with AFrame f => f | _ => None end.

(** The frames sent on [A], cut into these chunks, are what the read loop of [B]
    gets: both are ready ends of one connection, configured as the code does. *)
Record link (A B : Conn) (cap : Z) (fs : list MessageFrame) (chunks : list (list Z)) : Prop := {
  ln_config : exists c0 cap0, TCPConfig_Normalize c0 cap0 = (options B, cap);
  ln_cap : cap < 2 ^ 62;
  ln_limit : 17 <= MaxInboundSize (options B);
  ln_peers : peers A B;
  ln_empty : sendChannel A = [] /\ delivered B = [];
  ln_frames : Forall (fun f => carried A B f /\ IsInternalCommand (f_Cmd f) = false) fs;
  ln_fit : Forall (fun w => zlen w <= MaxInboundSize (options B)) (sendChannel (send_all select_done A fs).1);
  ln_chunks : Forall chunk_ok chunks;
  ln_cut : concat chunks = concat (sendChannel (send_all select_done A fs).1) }.

Lemma send_all_app A fs gs A1 : 
  send_all select_done A fs = (A1, None) -> send_all select_done A (fs ++ gs) = send_all select_done A1 gs.
Proof.
  revert A. induction fs as [|f fs IH]; intros A; simpl; [by intros [= ->]|].
  destruct (Conn.SendMessage _ _ _) as [A2 [e|]]; [done|]. apply IH.
Qed.

Lemma accepted_sends W fs : accepted (conn_answer W) fs -> (send_all select_done W fs).2 = None.
Proof.
  induction fs as [|f fs IH] using rev_ind; intros Ha; [done|].
  assert (Hfs : (send_all select_done W fs).2 = None).
  { apply IH. intros fs1 g fs2 ->. apply (Ha fs1 g (fs2 ++ [f])). by rewrite <- app_assoc. }
  specialize (Ha fs f [] eq_refl). unfold conn_answer in Ha.
  destruct (send_all select_done W fs) as [W1 err] eqn:E. simpl in *. subst err.
  rewrite (send_all_app _ _ _ _ E). simpl. destruct (Conn.SendMessage _ _ _) as [W2 [e|]]; done.
Qed.

Lemma link_delivers A B cap fs chunks now :
  (forall b f, OnMessage b f = None) -> link A B cap fs chunks -> (send_all select_done A fs).2 = None ->
  exists B' buf', readLoop OnConnected OnMessage select_done B now (New cap (Some cap)) chunks = Some (B', buf', None) /\
    content <$> delivered B' = content <$> fs.
Proof.
  intros Hok [[c0 [cap0 Hn]] Hcap Hlim Hp [HA HB] Hfs Hfit Hch Hcut] Hsent.
  destruct (send_all select_done A fs) as [A1 err] eqn:E. simpl in *. subst err.
  destruct (sent_messages_arrive_in_order OnConnected OnMessage select_done _ _ _ _ A B fs A1 Hn Hcap Hlim eq_refl Hp Hfs Hok E)
    as (wires & Hw & Hrest).
  rewrite HA in Hw. simpl in Hw. rewrite Hw in Hfit, Hcut.
  destruct (Hrest Hfit now chunks Hch Hcut) as (B' & buf' & hs & Hr & _ & Hd & Hc).
  exists B', buf'. split; [done|]. by rewrite Hd, HB.
Qed.

Lemma content_answers f f' x : content f = content f' -> answers (M:=M) (T:=T) f x -> answers (M:=M) (T:=T) f' x.
Proof. unfold content, answers. by intros [= -> -> -> -> ->]. Qed.

Lemma requests_told (r : Route (T:=T) (H:=H)) ms f : f ∈ requests r ms -> f ∈ omap frame_in ms.
Proof.
  unfold requests. rewrite !list_elem_of_omap. intros (m & Hm & Hf). exists m. split; [done|].
  destruct m as [[g|]| | |]; try done. simpl. by destruct (Registered _ _).
Qed.

(** C26: What a client of the gateway reads from its socket, whatever the cuts of
    the streams, is exactly what its agent sent, in order, and each of it answers a
    request that the client itself sent, with its command and index, or is a push of
    a registered message; whatever route handlers and business actor do. *)
Theorem client_reads_answers_and_pushes C R W D cap cap' fs up down R' ubuf r ms now now' :
  (forall b f, OnMessage b f = None) ->
  (send_all select_done C fs).2 = None -> link C R cap fs up ->
  readLoop OnConnected OnMessage select_done R now (New cap (Some cap)) up = Some (R', ubuf, None) ->
  omap frame_in ms `sublist_of` delivered R' ->
  let a := handle_all UnmarshalNew (conn_answer W) ask_answer (newAgent r) ms in
  link W D cap' (client a) down ->
  exists D' buf', readLoop OnConnected OnMessage select_done D now' (New cap' (Some cap')) down = Some (D', buf', None) /\
    content <$> delivered D' = content <$> client a /\
    Forall (fun x => (exists f, f ∈ fs /\ answers (M:=M) (T:=T) f x) \/ pushed r x) (client a).
Proof.
  intros Hok Hsent Hup Hread Hms a Hdown.
  destruct (link_delivers C R cap fs up now Hok Hup Hsent) as (R1 & buf1 & Hr & Hc).
  rewrite Hr in Hread. injection Hread as <- <-.
  destruct (handle_all_ok UnmarshalNew (conn_answer W) ask_answer r ms) as [[_ Hcl _ _ Hacc] _].
  destruct (link_delivers W D cap' _ down now' Hok Hdown (accepted_sends _ _ Hacc)) as (D' & buf' & Hd & Hdc).
  exists D', buf'. split; [done|]. split; [done|]. eapply Forall_impl; [exact Hcl|].
  intros x [(req & Hreq & Ha)|Hp]; [left|by right].
  apply requests_told in Hreq. pose proof (elem_of_sublist _ _ _ Hreq Hms) as Hin.
  assert (Hcin : content req ∈ content <$> delivered R1) by (by apply list_elem_of_fmap_2).
  rewrite Hc in Hcin. apply list_elem_of_fmap in Hcin as (f & Ef & Hf). exists f. split; [done|].
  by eapply content_answers.
Qed.
End session.
