(* ===== verification/AgentDemo.v ===== *)
(** * A gateway agent at work

    Messages are a name and a number. The route of command (2, 1) answers, the
    one of (2, 2) forwards, the one of (2, 3) answers twice. *)

From S2P Require Import Prelude Protocol Errors Requests Proto Actor Effects Agent Forwarding.

Definition msg : Set := string * Z.
#[export] Instance msg_runtime : ProtoRuntime msg string := {
  FullName m := m.1;
  name_IsValid _ := true;
  proto_Marshal m := Ok [m.2];
  FindMessageByName name := Some name;
  proto_Unmarshal t bs := match bs with [v] => Ok (t, v) | _ => Err (ESentinel "bad message") end;
  type_name t := t
}.

Definition player : PID := NewPID 9 "player" "a".
Inductive handlers : Set := Answer | Pass | Twice | Refuse.

#[export] Instance demo_code : UserCode (M:=msg) (H:=handlers) (B:=Z) := {
  run_handler h m :=
    match h with
    | Answer => err <-! UReply (AMessage ("reply", m.2 + 1)); Ret (Returned err)
    | Pass => err <-! UForward player ("load", m.2); Ret (Returned err)
    | Twice => do! UReply (AMessage ("reply", 1)); err <-! UReply (AMessage ("reply", 2)); Ret (Returned err)
    | Refuse => err <-! UReplyError (Some ErrNotFound); Ret (Returned err)
    end;
  business_Init := Ret (Returned None);
  business_HandleTell b := do! UPush (Some ("news", b)); Ret (Returned None);
  business_HandleAsk b := Ret (None, Returned None);
  business_Destroy := Ret Panicked;
  business_Panic := Ret (Returned None)
}.

Definition regs : list (registration (M:=msg) (H:=handlers)) :=
  [mkRegistration 2 1 (Some Answer) (Some ("q", 0)) (Some ("reply", 0));
   mkRegistration 2 2 (Some Pass) (Some ("q", 0)) None;
   mkRegistration 2 3 (Some Twice) (Some ("q", 0)) None;
   mkRegistration 2 4 (Some Refuse) (Some ("q", 0)) None;
   mkRegistration 2 1 (Some Twice) (Some ("q", 0)) (Some ("reply", 0));
   mkRegistration 5 7 None None (Some ("news", 0))].
Definition routes : Route (T:=string) (H:=handlers) := Register_all fst regs.

Definition always_sends (sent : list MessageFrame) (f : MessageFrame) : option gerr := None.
Definition always_asks (n : nat) : option gerr := None.
Definition unpack (p : msg) : res gerr msg := Ok p.
Abbreviation handle := (handle_all unpack always_sends always_asks).

Definition request (act index v : Z) : MessageFrame := mkFrame 2 act 0 0 index 0 [v].
Definition alice_agent := handle (newAgent routes)
  [AFrame (Some (request 1 10 5)); AFrame (Some (request 2 11 6)); AFrame (Some (request 9 12 0));
   AOtherMessage 3; AComplete 0 (AMessage ("loaded", 60)) None].

Example alice_sees :
  client alice_agent = [mkFrame 2 1 0 0 10 0 [6]; mkFrame 5 7 0 0 0 0 [3]; mkFrame 2 2 0 0 11 0 [60]] /\
  currentRequest alice_agent = None.
Proof. vm_compute. done. Qed.

Example first_registration_wins_witness :
  (forall g, g ∈ regs -> is_u 8 (g_cmd g) /\ is_u 8 (g_act g)) /\
  Resolve (OutboundRouter routes) (Some ("reply", 4)) = (2, 1, true) /\
  InboundRouter routes !! CmdAct 2 1 = Some (Answer, "q").
Proof.
  assert (Hty : forall g, g ∈ regs -> is_u 8 (g_cmd g) /\ is_u 8 (g_act g)).
  { apply Forall_forall. repeat constructor; vm_compute; done. }
  destruct (first_registration_wins fst regs) as (_ & Hin & Hout).
  split_and!; [exact Hty|exact (Hout ("reply", 4) Hty)|exact (Hin (CmdAct 2 1))].
Defined.

(** *** A forwarded request

    The client's request arrives, its handler forwards it, and the answer comes
    back through the table of pending asks. *)
Abbreviation moves := (wstep unpack always_sends).
Abbreviation demo_world := (world (M:=msg) (T:=string) (H:=handlers) (B:=Z) (P:=msg)).

Definition question : agent_message (M:=msg) (B:=Z) (P:=msg) := AFrame (Some (request 2 11 6)).
Definition loaded : any msg := AMessage ("loaded", 60).
Definition table0 : history (any msg) (option nat) := start 0 7.
Definition table1 : history (any msg) (option nat) :=
  let '(m, _) := add (mgr table0) "a" "a" 5 (Some 0%nat) in mkHistory m [(8, Some 0%nat)] [] [].
Definition table2 : history (any msg) (option nat) :=
  let '(m, cs, _) := complete (mgr table1) 8 (Some loaded) None in mkHistory m [(8, Some 0%nat)] cs [].

Definition world0 : demo_world := start_world routes 0 7.
Definition world1 : demo_world := mkWorld (w_agent world0) table0 [question] [].
Definition world2 : demo_world :=
  mkWorld (HandleTell unpack always_sends always_asks (w_agent world1) question) table1 [] [question].
Definition world3 : demo_world := mkWorld (w_agent world2) table2 [AComplete 0 loaded None] [question].

Lemma world1_reached : moves world0 world1.
Proof.
  apply (w_others unpack always_sends [] table0 [question] world0); [|done|apply sublist_nil_l].
  split; [constructor|done].
Qed.
Lemma world2_reached : moves world1 world2.
Proof.
  apply (w_message unpack always_sends question [] always_asks [OAdd "a" "a" 5 (Some 0%nat)] table1 [] world1);
    [done| | |apply sublist_nil_l].
  - split; [|done]. eapply steps_cons; [apply (step_add "a" "a" 5 (Some 0%nat) table0)|constructor].
  - vm_compute. by repeat constructor.
Qed.
Lemma world3_reached : moves world2 world3.
Proof.
  apply (w_others unpack always_sends [OComplete 8 (Some loaded) None] table2 [AComplete 0 loaded None] world2);
    [|done|].
  - split; [|done]. eapply steps_cons; [apply (step_complete 8 (Some loaded) None table1)|constructor].
  - vm_compute. by repeat constructor.
Qed.

Example forwarded_request_is_answered_once_witness :
  forwards (w_agent world2) !! 0%nat = Some (request 2 11 6) /\
  client (HandleTell unpack always_sends always_asks (w_agent world3) (AComplete 0 loaded None)) =
  [mkFrame 2 2 0 0 11 0 [60]].
Proof.
  assert (Hf : forwards (w_agent world2) !! 0%nat = Some (request 2 11 6)) by (vm_compute; reflexivity).
  split; [exact Hf|].
  assert (H2 : wsteps unpack always_sends world0 world2)
    by (eapply ws_snoc; [eapply ws_snoc; [apply ws_nil|exact world1_reached]|exact world2_reached]).
  assert (H3 : wsteps unpack always_sends world2 world3) by (eapply ws_snoc; [apply ws_nil|exact world3_reached]).
  destruct (forwarded_request_is_answered_once unpack always_sends routes 0 7 world2 world3 H2 H3) as (_ & _ & Hall).
  destruct (Hall 0%nat _ Hf) as (_ & _ & Hc).
  refine (proj1 (Hc always_asks loaded None [] (mkFrame 2 2 0 0 11 0 [60]) eq_refl _ eq_refl)).
  right. exists [60]. split; reflexivity.
Defined.

(** A closure that were called twice would answer twice: the agent does not look. *)
Example second_completion_is_sent :
  let a := w_agent world2 in
  client (HandleTell unpack always_sends always_asks
    (HandleTell unpack always_sends always_asks a (AComplete 0 loaded None)) (AComplete 0 loaded None)) =
  [mkFrame 2 2 0 0 11 0 [60]; mkFrame 2 2 0 0 11 0 [60]].
Proof. vm_compute. done. Qed.

Example client_codes_report_failure_witness : mapToClientCode ErrNotFound = 1001.
Proof. apply (client_codes_report_failure ErrNotFound); vm_compute; congruence. Defined.

(** ** What the documentation says otherwise *)

(** A handler that replies twice sends two frames for one request. *)
Example second_reply_is_sent :
  client (handle (newAgent routes) [AFrame (Some (request 3 10 5))]) =
  [mkFrame 2 3 0 0 10 0 [1]; mkFrame 2 3 0 0 10 0 [2]].
Proof. vm_compute. done. Qed.

(** A successful reply to a request whose Error field is set reports that error. *)
Example reply_keeps_request_error :
  client (handle (newAgent routes) [AFrame (Some (mkFrame 2 1 0 77 10 0 [5]))]) = [mkFrame 2 1 0 77 10 0 [6]].
Proof. vm_compute. done. Qed.

(** An error reply carries the body of the request. *)
Example error_reply_echoes_request :
  client (handle (newAgent routes) [AFrame (Some (request 4 10 5))]) = [mkFrame 2 4 0 1001 10 0 [5]].
Proof. vm_compute. done. Qed.

(** The connection stays open when the business actor's Destroy panics. *)
Example destroy_panic_leaves_connection :
  closed (Destroy always_sends always_asks (newAgent routes)).1 = false.
Proof. vm_compute. done. Qed.
