(* ===== verification/SessionDemo.v ===== *)
(** * A client's session at concrete inputs

    Alice of ConnDemo.v is the client, Bob the gateway's end of the connection;
    the agent is that of AgentDemo.v. *)

From S2P Require Import Prelude Protocol Codec Cipher Buffer Conn ConnDemo Errors Proto Actor Effects Agent AgentDemo Session.

Definition asked_for : list MessageFrame := [request 1 10 5; request 2 11 6].
Definition upstream : list (list Z) := sendChannel (send_all never alice asked_for).1.
(** Bytes cut into reads of three. *)
Fixpoint pieces_of (n : nat) (bytes : list Z) : list (list Z) :=
  match n with O => [] | S n => match bytes with [] => [] | _ => take 3 bytes :: pieces_of n (drop 3 bytes) end end.

Abbreviation gateway_read :=
  (readLoop ok_connected ok_message never bob 1 (New 40960 (Some 40960)) (pieces_of 99 (concat upstream))).
Definition gateway_end : Conn := match gateway_read with Some (b, _, _) => b | None => bob end.

(** Both requests, a message to the business actor, and the answer to the request
    that was forwarded. *)
Definition told_to_agent : list (agent_message (M:=msg) (B:=Z) (P:=msg)) :=
  ((fun f => AFrame (Some f)) <$> delivered gateway_end) ++ [AOtherMessage 3; AComplete 0 (AMessage ("loaded", 60)) None].
Definition no_detail (e : nerr) : gerr := ESentinel "network".
Abbreviation served := (handle_all unpack (conn_answer never no_detail bob) always_asks (newAgent routes) told_to_agent).
Definition downstream : list (list Z) := sendChannel (send_all never bob (client served)).1.

(** The answers to both requests, and the push in between. *)
Example served_frames : client served =
  [mkFrame 2 1 0 0 10 2897449776 [6]; mkFrame 5 7 0 0 0 0 [3]; mkFrame 2 2 0 0 11 852952723 [60]].
Proof. vm_compute. reflexivity. Qed.

Lemma demo_link A B fs chunks :
  options B = config.1 -> peers A B -> sendChannel A = [] /\ delivered B = [] ->
  Forall (fun f => frame_typed f /\ IsInternalCommand (f_Cmd f) = false) fs ->
  o_Codec (options A) = None ->
  Forall (fun w => zlen w <= 32768) (sendChannel (send_all never A fs).1) ->
  Forall chunk_ok chunks ->
  concat chunks = concat (sendChannel (send_all never A fs).1) ->
  link never A B 40960 fs chunks.
Proof.
  intros Ho Hp He Hf Hc Hfit Hch Hcut. split; try done; rewrite ?Ho; try done.
  - exists (mkConfig true 0 None 0 0 0 0 0), 0. reflexivity.
  - eapply Forall_impl; [exact Hf|]. intros f [Ht Hi]. split; [|done]. split; [done|]. by rewrite Ho, Hc.
Qed.

Lemma peers_of A B : state A = ConnectionStateReady -> state B = ConnectionStateReady ->
  options A = config.1 -> options B = config.1 -> cipher A = Some key -> cipher B = Some key -> peers A B.
Proof.
  intros SA SB OA OB CA CB. split; [done|]. split; [done|]. unfold same_key. rewrite OA, OB. split; [done|].
  intros _. exists key, key. split_and!; [done|done|done|]. repeat constructor; unfold is_u; lia.
Qed.

Lemma client_reads_answers_and_pushes_witness :
  exists D' buf',
    readLoop ok_connected ok_message never alice 2 (New 40960 (Some 40960)) (pieces_of 99 (concat downstream)) = Some (D', buf', None) /\
    content <$> delivered D' = content <$> client served /\
    Forall (fun x => (exists f, f ∈ asked_for /\ answers (M:=msg) f x) \/ pushed routes x) (client served).
Proof.
  assert (Hread : match gateway_read with Some (_, _, None) => true | _ => false end = true) by (vm_compute; reflexivity).
  destruct gateway_read as [[[R' ubuf] [e|]]|] eqn:E; [discriminate Hread| |discriminate Hread].
  assert (HR : R' = gateway_end) by (unfold gateway_end; by rewrite E).
  pose proof (client_reads_answers_and_pushes unpack always_asks ok_connected ok_message never no_detail alice bob bob alice
    40960 40960 asked_for (pieces_of 99 (concat upstream)) (pieces_of 99 (concat downstream)) R' ubuf routes told_to_agent 1 2)
    as Hth. cbv zeta in Hth.
  apply Hth; clear Hth.
  - reflexivity.
  - vm_compute. reflexivity.
  - apply demo_link; [reflexivity|apply peers_of; reflexivity|split; reflexivity| |reflexivity| | |].
    + repeat constructor; vm_compute; done.
    + vm_compute. repeat constructor; discriminate.
    + vm_compute. repeat constructor; discriminate.
    + vm_compute. reflexivity.
  - exact E.
  - rewrite HR. vm_compute. reflexivity.
  - apply demo_link; [reflexivity|apply peers_of; reflexivity|split; reflexivity| |reflexivity| | |].
    + rewrite served_frames. repeat constructor; vm_compute; done.
    + vm_compute. repeat constructor; discriminate.
    + vm_compute. repeat constructor; discriminate.
    + vm_compute. reflexivity.
Defined.
