(* ===== verification/Bridge.v ===== *)
(** * gateway/bridge.go and gateway.go: connections and their agents

    The bridge spawns an agent for every connection, stops it when the
    connection closes, and waits for all of them when the gateway stops. Its
    methods are programs over what they share: the read-write lock, the closing
    flag, the table of agents, the wait group; the pool of Threads.v interleaves
    the callbacks of all connections with Close. *)

From S2P Require Import Prelude Component Errors Actor Effects Threads.

Definition ErrClientAgentNotFound : gerr := ESentinel "gateway client agent not found".
Definition ErrGatewayClosing : gerr := ESentinel "gateway is closing".
Definition ErrWaitTimeout : gerr := ESentinel "wait group timeout".

(** The write lock is held for one assignment only, so it is one step that waits
    for all readers. What the bridge sees of a connection, and how far its callbacks are. *)
Record bconn := mkBconn {
  b_user : option PID;
  b_started : bool; (* OnConnected was called *)
  b_ready : bool;   (* ... and returned nil *)
  b_busy : bool;    (* a callback other than OnClose runs *)
  b_closed : bool;
  b_retired : bool; (* OnClose was called *)
  b_forgot : bool   (* ... and returned *)
}.
Definition new_bconn : bconn := mkBconn None false false false false false false.

Inductive tid := THandler (c : N) | TCloser (c : N) | TStop (n : N).
#[export] Instance tid_eq_dec : EqDecision tid.
Proof. solve_decision. Defined.
#[export] Instance tid_countable : Countable tid.
Proof.
  refine (inj_countable'
    (fun t => match t with THandler c => inl (inl c) | TCloser c => inl (inr c) | TStop n => inr n end)
    (fun s => match s with inl (inl c) => THandler c | inl (inr c) => TCloser c | inr n => TStop n end) _).
  by intros [].
Defined.

(** [adding] and [removing] note the connections between the two updates of the
    wait group and the table; [waits] whether a Wait began, [late] the Adds after it. *)
Record bridge := mkBridge {
  conns : gmap N bconn;
  readers : gset tid;     (* who holds mu for reading *)
  closing : bool;
  pids : gmap N PID;
  group : Z;              (* the wait group's counter *)
  adding : gset N;
  removing : gset N;
  waits : bool;
  late : Z;
  spawned : list PID;
  stopped : list PID;     (* what StopProcess was called with *)
  delivered : list (PID * list Z) (* envelopes given to the system *)
}.
Definition new_bridge : bridge := mkBridge ∅ ∅ false ∅ 0 ∅ ∅ false 0 [] [] [].

(** [NewGatewayBridge] checks nothing; [Validate] does. *)
Definition Validate (has_system has_spawner has_route : bool) : option gerr :=
  if negb has_system then Some (ESentinel "gateway actor system is nil")
  else if negb has_spawner then Some (ESentinel "gateway agent spawner is nil")
  else if negb has_route then Some (ESentinel "gateway route nil")
  else None.

Inductive bop : Set -> Type :=
| RLock : bop unit
| RUnlock : bop unit
| Closing : bop bool
| Spawn (c : N) : bop (res gerr PID)
| SetUserData (c : N) (p : PID) : bop unit
| GroupAdd (c : N) : bop unit
| PidsSet (c : N) (p : PID) : bop unit
| UserData (c : N) : bop (option PID)
| SendEnvelope (p : PID) (packet : list Z) : bop (option gerr)
| GetAndDelete (c : N) : bop bool
| StopProcess (p : PID) : bop unit
| GroupDone (c : N) : bop unit
| RejectNewConnections : bop unit (* Lock; closing = true; Unlock *)
| Range : bop (list (N * PID))
| StartWait : bop unit
| WaitWithTimeout : bop (option gerr)
| Finish (c : N) (err : option gerr) : bop unit
| Forget (c : N) : bop unit.

(** ** The methods *)

Definition OnConnected (c : N) : prog bop (option gerr) :=
  do! RLock;
  closing <-! Closing;
  if (closing : bool) then do! RUnlock; Ret (Some ErrGatewayClosing)
  else
    spawned <-! Spawn c;
    match spawned with
    | Err err => do! RUnlock; Ret (Some (wrap "agent handle connected spawn err:" err))
    | Ok pid =>
      do! SetUserData c pid;
      do! GroupAdd c;
      do! PidsSet c pid;
      do! RUnlock; Ret None
    end.

Definition OnMessage (c : N) (packet : list Z) : prog bop (option gerr) :=
  do! RLock;
  closing <-! Closing;
  if (closing : bool) then do! RUnlock; Ret None
  else
    user <-! UserData c;
    match user with
    | None => do! RUnlock; Ret (Some (wrap "agent handle message err:" ErrClientAgentNotFound))
    | Some agentPID => err <-! SendEnvelope agentPID packet; do! RUnlock; Ret err
    end.

Definition OnClose (c : N) : prog bop unit :=
  user <-! UserData c;
  match user with
  | None => Ret tt
  | Some agentPID =>
    tracked <-! GetAndDelete c;
    if negb (tracked : bool) then Ret tt
    else do! StopProcess agentPID; do! GroupDone c; Ret tt
  end.

Fixpoint stop_agents_loop (l : list (N * PID)) : prog bop unit :=
  match l with
  | [] => Ret tt
  | (_, pid) :: l => do! StopProcess pid; stop_agents_loop l
  end.

(** [grs.WaitWithTimeout] starts to wait, and gives up after the timeout. *)
Definition stopAgents : prog bop (option gerr) :=
  agents <-! Range;
  done <~ stop_agents_loop agents;
  do! StartWait;
  err <-! WaitWithTimeout;
  Ret err.

Definition Close : prog bop (option gerr) := do! RejectNewConnections; stopAgents.

(** ** One access *)

Record oracle := mkOracle { o_err : option gerr; o_pid : PID; o_order : list (N * PID) }.

Definition upd_conns (f : gmap N bconn -> gmap N bconn) (b : bridge) : bridge :=
  mkBridge (f (conns b)) (readers b) (closing b) (pids b) (group b) (adding b) (removing b)
    (waits b) (late b) (spawned b) (stopped b) (delivered b).
Definition upd_conn (c : N) (f : bconn -> bconn) : bridge -> bridge := upd_conns (alter f c).
Definition set_lock (b : bridge) (r : gset tid) (k : bool) : bridge :=
  mkBridge (conns b) r k (pids b) (group b) (adding b) (removing b)
    (waits b) (late b) (spawned b) (stopped b) (delivered b).
Definition set_group (b : bridge) (p : gmap N PID) (g : Z) (a r : gset N) : bridge :=
  mkBridge (conns b) (readers b) (closing b) p g a r
    (waits b) (late b) (spawned b) (stopped b) (delivered b).
Definition set_waits (b : bridge) (w : bool) (l : Z) : bridge :=
  mkBridge (conns b) (readers b) (closing b) (pids b) (group b) (adding b) (removing b)
    w l (spawned b) (stopped b) (delivered b).
Definition set_logs (b : bridge) (sp st : list PID) (d : list (PID * list Z)) : bridge :=
  mkBridge (conns b) (readers b) (closing b) (pids b) (group b) (adding b) (removing b)
    (waits b) (late b) sp st d.

Definition with_user (p : PID) (C : bconn) : bconn :=
  mkBconn (Some p) (b_started C) (b_ready C) (b_busy C) (b_closed C) (b_retired C) (b_forgot C).
Definition set_closed (C : bconn) : bconn :=
  mkBconn (b_user C) (b_started C) (b_ready C) (b_busy C) true (b_retired C) (b_forgot C).
Definition set_busy (started ready busy : bool) (C : bconn) : bconn :=
  mkBconn (b_user C) started ready busy (b_closed C) (b_retired C) (b_forgot C).
Definition set_retired (forgot : bool) (C : bconn) : bconn :=
  mkBconn (b_user C) (b_started C) (b_ready C) (b_busy C) (b_closed C) true forgot.

Definition exec (i : tid) (R : Set) (o : bop R) (e : oracle) (b : bridge) : option (bridge * R) :=
  match o in bop R return option (bridge * R) with
  | RLock => Some (set_lock b ({[i]} ∪ readers b) (closing b), tt)
  | RUnlock => Some (set_lock b (readers b ∖ {[i]}) (closing b), tt)
  | Closing => Some (b, closing b)
  | Spawn c =>
    match o_err e with
    | Some err => Some (b, Err err)
    | None => Some (set_logs b (spawned b ++ [o_pid e]) (stopped b) (delivered b), Ok (o_pid e))
    end
  | SetUserData c p => Some (upd_conn c (with_user p) b, tt)
  | GroupAdd c =>
    Some (set_waits (set_group b (pids b) (group b + 1) ({[c]} ∪ adding b) (removing b))
            (waits b) (if waits b then late b + 1 else late b), tt)
  | PidsSet c p => Some (set_group b (<[c := p]> (pids b)) (group b) (adding b ∖ {[c]}) (removing b), tt)
  | UserData c => C ← conns b !! c; Some (b, b_user C)
  | SendEnvelope p packet =>
    match o_err e with
    | Some err => Some (b, Some err)
    | None => Some (set_logs b (spawned b) (stopped b) (delivered b ++ [(p, packet)]), None)
    end
  | GetAndDelete c =>
    match pids b !! c with
    | None => Some (b, false)
    | Some _ => Some (set_group b (delete c (pids b)) (group b) (adding b) ({[c]} ∪ removing b), true)
    end
  | StopProcess p => Some (set_logs b (spawned b) (stopped b ++ [p]) (delivered b), tt)
  | GroupDone c => Some (set_group b (pids b) (group b - 1) (adding b) (removing b ∖ {[c]}), tt)
  | RejectNewConnections =>
    if decide (readers b = ∅) then Some (set_lock b ∅ true, tt) else None
  | Range => if decide (o_order e ≡ₚ map_to_list (pids b)) then Some (b, o_order e) else None
  | StartWait => Some (set_waits b true (late b), tt)
  | WaitWithTimeout =>
    match o_err e with
    | Some _ => Some (b, Some ErrWaitTimeout)
    | None => if decide (group b = 0) then Some (b, None) else None
    end
  | Finish c err =>
    let b := match err with Some _ => upd_conn c set_closed b | None => b end in
    Some (upd_conn c (fun C => set_busy (b_started C) (b_ready C || bool_decide (err = None)) false C) b, tt)
  | Forget c => Some (upd_conn c (set_retired true) b, tt)
  end.

(** ** The goroutines *)

Definition callback (c : N) (body : prog bop (option gerr)) : prog bop unit :=
  err <~ body; do! Finish c err; Ret tt.
Definition closer (c : N) : prog bop unit := done <~ OnClose c; do! Forget c; Ret tt.
Definition stopper : prog bop unit := err <~ Close; Ret tt.

Abbreviation node := (pool bop bridge tid).

Inductive act :=
| Accept (c : N)
| Connected (c : N)
| Message (c : N) (packet : list Z)
| Break (c : N)  (* the connection closes, whoever closes it *)
| Closed (c : N) (* its write loop ends *)
| CallClose (n : N)
| Step (i : tid) (e : oracle).

(** As in Transport.v: whether OnClose waits for a running callback. *)
Definition step (orderly : bool) (w : node) (a : act) : node :=
  let b := shared w in
  match a with
  | Accept c =>
    match conns b !! c with
    | Some _ => w
    | None => mkPool (upd_conns <[c := new_bconn]> b) (threads w)
    end
  | Connected c =>
    match conns b !! c with
    | Some C =>
      if negb (b_started C) && negb (b_busy C) && negb (b_closed C)
      then start_thread (THandler c) (upd_conn c (fun C => set_busy true (b_ready C) true C) b) (callback c (OnConnected c)) w
      else w
    | None => w
    end
  | Message c packet =>
    match conns b !! c with
    | Some C =>
      if b_ready C && negb (b_busy C) && negb (b_closed C)
      then start_thread (THandler c) (upd_conn c (fun C => set_busy (b_started C) (b_ready C) true C) b)
             (callback c (OnMessage c packet)) w
      else w
    | None => w
    end
  | Break c => mkPool (upd_conn c set_closed b) (threads w)
  | Closed c =>
    match conns b !! c with
    | Some C =>
      if b_closed C && negb (b_retired C) && negb (orderly && b_busy C)
      then start_thread (TCloser c) (upd_conn c (set_retired false) b) (closer c) w
      else w
    | None => w
    end
  | CallClose n =>
    match threads w !! TStop n with
    | Some _ => w
    | None => start_thread (TStop n) b stopper w
    end
  | Step i e => run_thread exec i e w
  end.

Definition start : node := mkPool new_bridge ∅.
Definition run (orderly : bool) (w : node) (acts : list act) : node := fold_left (step orderly) acts w.

(** ** gateway.go: the component *)

Section Gateway.
(** Starting the server on its goroutine, cancelling it, and the bridge's two
    steps of stopping. *)
Context {W : Type} (go_server cancel rejectNewConnections : W -> W) (stop_agents : W -> W * option gerr).

Record Gateway := mkGateway { has_system : bool; has_spawner : bool; has_route : bool; lifecycle : Controller }.
Definition New (system spawner route : bool) : Gateway := mkGateway system spawner route zeroController.
Definition with_lifecycle (g : Gateway) (l : Controller) : Gateway :=
  mkGateway (has_system g) (has_spawner g) (has_route g) l.

Definition Gateway_Init (g : Gateway) (w : W) : Gateway * W * option (lcerr gerr) :=
  let '(l, w, err) := Init (lifecycle g)
    (Some (fun w => (w, Validate (has_system g) (has_spawner g) (has_route g)))) w in (with_lifecycle g l, w, err).
Definition Gateway_Start (g : Gateway) (w : W) : Gateway * W * option (lcerr gerr) :=
  let '(l, w, err) := Start (lifecycle g) (Some (fun w => (go_server w, None))) w in (with_lifecycle g l, w, err).
Definition Gateway_Stop (g : Gateway) (w : W) : Gateway * W * option (lcerr gerr) :=
  let '(l, w, err) := Stop (lifecycle g)
    (Some (fun w => stop_agents (cancel (rejectNewConnections w)))) w in (with_lifecycle g l, w, err).
End Gateway.
