(* ===== verification/BridgeSafety.v ===== *)
(** * What the gateway's bridge guarantees

    The rely-guarantee proof over Bridge.v: the wait group counts the agents, no
    connection is added once Close waits, and every agent is stopped. *)

From S2P Require Import Prelude Component Errors Actor Effects Threads Bridge.

Section Safety.
Variable orderly : bool.
Implicit Types (b : bridge) (C : bconn) (c : N).

(** ** The invariant *)

Record conn_ok b c C : Prop := {
  k_new : b_started C = false -> b_user C = None /\ pids b !! c = None /\ c ∉ adding b;
  k_ready : b_ready C = true -> b_started C = true;
  k_retired : b_retired C = true -> b_closed C = true;
  k_turn : orderly = true -> b_retired C = true -> b_busy C = false;
  k_forgot : b_forgot C = true -> b_retired C = true;
  k_adding : c ∈ adding b -> b_busy C = true;
  k_removing : c ∈ removing b -> b_retired C = true /\ b_forgot C = false;
  k_tracked : orderly = true -> b_ready C = true -> b_retired C = false ->
    exists p, b_user C = Some p /\ pids b !! c = Some p;
  k_failed : b_busy C = false -> b_ready C = false -> pids b !! c = None;
  k_stopped : orderly = true -> b_forgot C = true -> pids b !! c = None /\
    (b_ready C = true -> exists p, b_user C = Some p /\ p ∈ stopped b)
}.

Record inv b : Prop := {
  i_conns : forall c C, conns b !! c = Some C -> conn_ok b c C;
  i_dom : forall c, is_Some (pids b !! c) \/ c ∈ adding b \/ c ∈ removing b -> is_Some (conns b !! c);
  i_group : group b = Z.of_nat (size (pids b)) + Z.of_nat (size (adding b)) + Z.of_nat (size (removing b));
  i_waits : waits b = true -> closing b = true;
  i_late : late b = 0
}.

(** ** What threads rely on *)

Definition handler_own c b b' C C' : Prop :=
  b_busy C = true ->
  b_user C' = b_user C /\ b_started C' = b_started C /\ b_ready C' = b_ready C /\ b_busy C' = true /\
  (orderly = true -> b_retired C' = b_retired C /\ pids b' !! c = pids b !! c) /\
  (c ∈ adding b' <-> c ∈ adding b) /\ (pids b !! c = None -> pids b' !! c = None).

Definition closer_own c b b' C C' : Prop :=
  b_retired C = true -> b_forgot C = false ->
  b_retired C' = true /\ b_forgot C' = false /\ (c ∈ removing b' <-> c ∈ removing b) /\
  (orderly = true -> b_user C' = b_user C /\ b_ready C' = b_ready C /\ pids b' !! c = pids b !! c).

Definition own (i : tid) b b' : Prop :=
  match i with
  | THandler c =>
    (THandler c ∈ readers b <-> THandler c ∈ readers b') /\
    (THandler c ∈ readers b -> closing b' = closing b) /\
    forall C, conns b !! c = Some C -> exists C', conns b' !! c = Some C' /\ handler_own c b b' C C'
  | TCloser c => forall C, conns b !! c = Some C -> exists C', conns b' !! c = Some C' /\ closer_own c b b' C C'
  | TStop _ => True
  end.

Record rely (i : tid) b b' : Prop := {
  r_closing : closing b = true -> closing b' = true;
  r_stopped : forall p, p ∈ stopped b -> p ∈ stopped b';
  r_own : own i b b'
}.

Lemma handler_own_refl c b C : handler_own c b b C C.
Proof. intros Hb. by split_and!. Qed.
Lemma closer_own_refl c b C : closer_own c b b C C.
Proof. intros Hr Hf. by split_and!. Qed.

Lemma bridge_rely_refl i b : rely i b b.
Proof.
  split; [done|done|]. destruct i; simpl; [|eauto using closer_own_refl|done].
  split_and!; [done|done|eauto using handler_own_refl].
Qed.

Lemma bridge_rely_trans i b1 b2 b3 : rely i b1 b2 -> rely i b2 b3 -> rely i b1 b3.
Proof.
  intros [K1 S1 O1] [K2 S2 O2]. split; [auto|auto|]. destruct i as [c|c|n]; simpl in *; [| |done].
  - destruct O1 as (R1 & L1 & C1), O2 as (R2 & L2 & C2). split_and!; [tauto| |].
    + intros Hr. rewrite L2 by tauto. auto.
    + intros C HC. destruct (C1 C HC) as (Ca & HCa & H1), (C2 Ca HCa) as (Cb & HCb & H2).
      exists Cb. split; [done|]. intros Hb. destruct (H1 Hb) as (U1 & St1 & Rd1 & B1 & Or1 & A1 & P1).
      destruct (H2 B1) as (U2 & St2 & Rd2 & B2 & Or2 & A2 & P2).
      split_and!; try congruence; try tauto. intros Ho. destruct (Or1 Ho), (Or2 Ho). split; congruence.
  - intros C HC. destruct (O1 C HC) as (Ca & HCa & H1), (O2 Ca HCa) as (Cb & HCb & H2).
    exists Cb. split; [done|]. intros Hr Hf. destruct (H1 Hr Hf) as (R1 & F1 & M1 & Or1).
    destruct (H2 R1 F1) as (R2 & F2 & M2 & Or2). split_and!; try done; try tauto.
    intros Ho. destruct (Or1 Ho) as (? & ? & ?), (Or2 Ho) as (? & ? & ?). split_and!; congruence.
Qed.

Abbreviation allowed := (allowed inv rely).
Abbreviation safe := (safe exec inv rely).

(** ** Steps at one connection *)

Record only_at (c : N) (i : tid) b b' : Prop := {
  o_conns : forall c', c' <> c -> conns b' !! c' = conns b !! c';
  o_pids : forall c', c' <> c -> pids b' !! c' = pids b !! c';
  o_adding : forall c', c' <> c -> c' ∈ adding b' <-> c' ∈ adding b;
  o_removing : forall c', c' <> c -> c' ∈ removing b' <-> c' ∈ removing b;
  o_readers : forall j, j <> i -> j ∈ readers b' <-> j ∈ readers b;
  o_closing : closing b' = closing b;
  o_waits : waits b' = waits b;
  o_stopped : forall p, p ∈ stopped b -> p ∈ stopped b'
}.

Lemma conn_ok_frame b b' c C :
  pids b' !! c = pids b !! c -> (c ∈ adding b' <-> c ∈ adding b) -> (c ∈ removing b' <-> c ∈ removing b) ->
  (forall p, p ∈ stopped b -> p ∈ stopped b') -> conn_ok b c C -> conn_ok b' c C.
Proof.
  intros Hp Ha Hr Hs [K1 K2 K3 K4 K5 K6 K7 K8 K9 K10]. split; rewrite ?Hp, ?Ha, ?Hr; try done.
  intros Ho Hf. destruct (K10 Ho Hf) as [Hn Hst]. split; [done|]. intros Hrd. destruct (Hst Hrd) as (p & ? & ?). eauto.
Qed.

Lemma local_allowed i c b b' C C' :
  inv b -> only_at c i b b' -> conns b !! c = Some C -> conns b' !! c = Some C' -> conn_ok b' c C' ->
  group b' = Z.of_nat (size (pids b')) + Z.of_nat (size (adding b')) + Z.of_nat (size (removing b')) ->
  late b' = 0 ->
  (i <> THandler c -> handler_own c b b' C C') -> (i <> TCloser c -> closer_own c b b' C C') ->
  allowed i b b'.
Proof.
  intros [I1 I2 I3 I4 I5] [O1 O2 O3 O4 O5 O6 O7 O8] HC HC' Hok Hg Hl Hh Hc. split.
  - split; try done; [| |by rewrite O6, O7].
    + intros c0 C0 H0. destruct (decide (c0 = c)) as [->|Hne]; [congruence|].
      rewrite O1 in H0 by done. by apply (conn_ok_frame b); auto.
    + intros c0 H0. destruct (decide (c0 = c)) as [->|Hne]; [eauto|].
      rewrite O1 by done. apply I2. rewrite O2, O3, O4 in H0; done.
  - intros j Hj. split; [by rewrite O6|done|]. destruct j as [c0|c0|n]; simpl; [| |done].
    + split_and!; [symmetry; by apply O5|by rewrite O6|]. intros C0 H0.
      destruct (decide (c0 = c)) as [->|Hne].
      * exists C'. assert (C0 = C) as -> by congruence. split; [done|]. by apply Hh.
      * exists C0. rewrite O1 by done. split; [done|]. intros Hb. rewrite O2, O3 by done. by split_and!.
    + intros C0 H0. destruct (decide (c0 = c)) as [->|Hne].
      * exists C'. assert (C0 = C) as -> by congruence. split; [done|]. by apply Hc.
      * exists C0. rewrite O1 by done. split; [done|]. intros Hr Hf. rewrite O2, O4 by done. by split_and!.
Qed.

(** Nothing but the connections changed. *)
Record same_rest b b' : Prop := {
  sr_pids : pids b' = pids b; sr_adding : adding b' = adding b; sr_removing : removing b' = removing b;
  sr_readers : readers b' = readers b; sr_closing : closing b' = closing b; sr_waits : waits b' = waits b;
  sr_group : group b' = group b; sr_late : late b' = late b; sr_stopped : stopped b' = stopped b }.

(** Steps that change no connection and no table. *)
Lemma quiet_allowed i b b' :
  inv b -> conns b' = conns b -> pids b' = pids b -> adding b' = adding b -> removing b' = removing b ->
  (forall j, j <> i -> j ∈ readers b' <-> j ∈ readers b) -> closing b' = closing b ->
  (waits b' = true -> closing b = true) -> group b' = group b -> late b' = late b ->
  (forall p, p ∈ stopped b -> p ∈ stopped b') -> allowed i b b'.
Proof.
  intros [I1 I2 I3 I4 I5] E1 E2 E3 E4 Hr E6 E7 E8 E9 Hs. split.
  - split; rewrite ?E1, ?E2, ?E3, ?E4, ?E6, ?E8, ?E9; try done.
    intros c C HC. apply (conn_ok_frame b); rewrite ?E2, ?E3, ?E4; auto.
  - intros j Hj. split; [by rewrite E6|done|]. destruct j as [c|c|n]; simpl; rewrite ?E1; [| |done].
    + split_and!; [symmetry; by apply Hr|by rewrite E6|]. intros C HC. exists C. split; [done|].
      unfold handler_own. rewrite E2, E3. intros Hb. by split_and!.
    + intros C HC. exists C. split; [done|]. unfold closer_own. rewrite E2, E4. intros Hb Hf. by split_and!.
Qed.

(** ** The callbacks of a connection *)

Record kept C C' : Prop := {
  e_user : b_user C' = b_user C; e_started : b_started C' = b_started C; e_ready : b_ready C' = b_ready C;
  e_busy : b_busy C' = b_busy C; e_retired : orderly = true -> b_retired C' = b_retired C }.

(** The handler of [c] runs, [C] is what it left in the connection; it is or is
    not between its two updates. *)
Record serving (c : N) C (mid : bool) b : Prop := {
  v_busy : b_busy C = true;
  v_conn : exists C', conns b !! c = Some C' /\ kept C C';
  v_mid : c ∈ adding b <-> mid = true }.

Lemma bridge_serving_rely c C mid b b' : rely (THandler c) b b' -> serving c C mid b -> serving c C mid b'.
Proof.
  intros R [Hb (C' & HC & [U S Rd B Rt]) Hm]. destruct (r_own _ _ _ R) as (_ & _ & Hown).
  destruct (Hown C' HC) as (C2 & HC2 & H2). destruct H2 as (U2 & S2 & R2 & B2 & O2 & A2 & _); [congruence|].
  split; [done| |by rewrite A2]. exists C2. split; [done|]. split; try congruence.
  intros Ho. destruct (O2 Ho) as [-> _]. auto.
Qed.

(** ... and holds the lock, having seen the gateway open. *)
Definition inside (c : N) b : Prop := THandler c ∈ readers b /\ closing b = false.
Lemma inside_rely c b b' : rely (THandler c) b b' -> inside c b -> inside c b'.
Proof. intros R [Hr Hk]. destruct (r_own _ _ _ R) as (Hi & Hc & _). split; [tauto|]. by rewrite Hc. Qed.

Lemma untracked_rely c C mid b b' :
  rely (THandler c) b b' -> serving c C mid b -> pids b !! c = None -> pids b' !! c = None.
Proof.
  intros R [Hb (C' & HC & [U S Rd B Rt]) _] Hp. destruct (r_own _ _ _ R) as (_ & _ & Hown).
  destruct (Hown C' HC) as (C2 & _ & H2). destruct H2 as (_ & _ & _ & _ & _ & _ & Hn); [congruence|]. auto.
Qed.

Lemma tracked_rely c C mid p b b' :
  rely (THandler c) b b' -> serving c C mid b -> (orderly = true -> pids b !! c = Some p) ->
  orderly = true -> pids b' !! c = Some p.
Proof.
  intros R [Hb (C' & HC & [U S Rd B Rt]) _] Hp Ho. destruct (r_own _ _ _ R) as (_ & _ & Hown).
  destruct (Hown C' HC) as (C2 & _ & H2). destruct H2 as (_ & _ & _ & _ & O2 & _); [congruence|].
  destruct (O2 Ho) as [_ ->]. auto.
Qed.

Lemma quiet_serving c C mid b b' :
  conns b' = conns b -> adding b' = adding b -> serving c C mid b -> serving c C mid b'.
Proof. intros E1 E2 [Hb Hc Hm]. split; [done|by rewrite E1|by rewrite E2]. Qed.

(** Operations that change no connection and no table, but maybe the lock. *)
Definition quiet_op {R} (o : bop R) : bool :=
  match o with
  | RLock | RUnlock | Closing | Spawn _ | UserData _ | SendEnvelope _ _ | StopProcess _ | Range | WaitWithTimeout => true
  | _ => false
  end.

Record quiet_step (i : tid) b b' : Prop := {
  qs_conns : conns b' = conns b; qs_pids : pids b' = pids b; qs_adding : adding b' = adding b;
  qs_removing : removing b' = removing b; qs_readers : forall j, j <> i -> j ∈ readers b' <-> j ∈ readers b;
  qs_closing : closing b' = closing b; qs_waits : waits b' = waits b; qs_group : group b' = group b;
  qs_late : late b' = late b; qs_stopped : forall p, p ∈ stopped b -> p ∈ stopped b' }.

Lemma quiet_exec {R : Set} (o : bop R) i e b b' r :
  quiet_op o = true -> exec i R o e b = Some (b', r) -> quiet_step i b b'.
Proof.
  destruct o; simpl; try done; intros _ He; simplify_option_eq; repeat case_match; simplify_eq; split; simpl; try done;
    intros; set_solver.
Qed.

Lemma quiet_step_allowed i b b' : inv b -> quiet_step i b b' -> allowed i b b'.
Proof.
  intros Hi [E1 E2 E3 E4 E5 E6 E7 E8 E9 E10]. apply quiet_allowed; try done.
  rewrite E7. by apply (i_waits _ Hi).
Qed.

(** The rule for a quiet operation at the head of a handler. *)
Lemma bridge_step_serving {R : Set} {A} (o : bop R) (k : R -> prog bop A) c C mid Q b :
  quiet_op o = true -> serving c C mid b ->
  (forall b1 e b2 r, inv b1 -> rely (THandler c) b b1 -> serving c C mid b1 ->
     exec (THandler c) R o e b1 = Some (b2, r) -> quiet_step (THandler c) b1 b2 ->
     serving c C mid b2 -> safe (THandler c) (k r) Q b2) ->
  safe (THandler c) (Do o k) Q b.
Proof.
  intros Ho Hs Hk b1 e b2 r Hr Hi He. pose proof (quiet_exec _ _ _ _ _ _ Ho He) as Hq.
  pose proof (bridge_serving_rely _ _ _ _ _ Hr Hs) as Hs1. split; [by apply quiet_step_allowed|].
  eapply Hk; eauto. eapply quiet_serving; [apply Hq|apply Hq|done].
Qed.

(** What a callback leaves. *)
Definition served c b (err : option gerr) : Prop :=
  exists C, serving c C false b /\ b_started C = true /\
    (b_ready C = false ->
     match err with
     | None => exists p, b_user C = Some p /\ (orderly = true -> pids b !! c = Some p)
     | Some _ => pids b !! c = None
     end).

Lemma served_message c C b err :
  serving c C false b -> b_started C = true -> b_ready C = true -> served c b err.
Proof. intros Hs Hst Hr. exists C. split_and!; [done|done|congruence]. Qed.

Lemma bridge_safe_OnMessage c C packet b :
  serving c C false b -> b_started C = true -> b_ready C = true ->
  safe (THandler c) (OnMessage c packet) (served c) b.
Proof.
  intros Hs Hst Hr. unfold OnMessage.
  assert (Hun : forall b (x : option gerr), serving c C false b ->
            safe (THandler c) (do! RUnlock; Ret x) (served c) b).
  { intros b1 x H1. eapply bridge_step_serving; [done..|]. intros. by apply (served_message c C). }
  eapply bridge_step_serving; [done..|]. intros ? ? ? ? _ _ _ _ _ H1.
  eapply bridge_step_serving; [done..|]. intros ? ? ? k _ _ _ _ _ H2. destruct k; [by apply Hun|].
  eapply bridge_step_serving; [done..|]. intros ? ? ? user _ _ _ _ _ H3. destruct user; [|by apply Hun].
  eapply bridge_step_serving; [done..|]. intros ? ? ? err _ _ _ _ _ H4. by apply Hun.
Qed.

(** *** The updates of OnConnected *)

Lemma in_order c C b : inv b -> conns b !! c = Some C -> b_busy C = true -> orderly = true ->
  b_retired C = false /\ b_forgot C = false.
Proof.
  intros Hi HC Hb Ho. pose proof (i_conns _ Hi _ _ HC) as K.
  assert (b_retired C = false) as Hr.
  { destruct (b_retired C) eqn:E; [|done]. rewrite (k_turn _ _ _ K) in Hb; done. }
  split; [done|]. destruct (b_forgot C) eqn:E; [|done]. rewrite (k_forgot _ _ _ K) in Hr; done.
Qed.

Lemma upd_conn_lookup c f b C c' :
  conns b !! c = Some C -> conns (upd_conn c f b) !! c' = if decide (c' = c) then Some (f C) else conns b !! c'.
Proof.
  intros HC. simpl. case_decide as Hd; [subst; by rewrite lookup_alter_eq, HC|by rewrite lookup_alter_ne].
Qed.

Lemma set_user_step c C p b :
  inv b -> serving c C false b -> b_started C = true -> b_ready C = false -> pids b !! c = None ->
  let b' := upd_conn c (with_user p) b in
  allowed (THandler c) b b' /\ serving c (with_user p C) false b'.
Proof.
  intros Hi [Hb (C1 & HC & [U S Rd B Rt]) Hm] Hst Hrd Hp b'.
  assert (HC' : conns b' !! c = Some (with_user p C1)).
  { unfold b'. erewrite upd_conn_lookup by done. by rewrite decide_True. }
  pose proof (i_conns _ Hi _ _ HC) as [K1 K2 K3 K4 K5 K6 K7 K8 K9 K10]. split.
  - apply (local_allowed _ c b b' C1 (with_user p C1)); try done; try apply Hi.
    + split; try done. intros c' Hne. unfold b'. erewrite upd_conn_lookup by done. by rewrite decide_False.
    + split; simpl; try done; try congruence. intros Ho Hf.
      destruct (in_order _ _ _ Hi HC) as [_ H2]; congruence.
    + intros _ Hr Hf. simpl. split_and!; try done. intros Ho. destruct (in_order _ _ _ Hi HC) as [H1 _]; congruence.
  - split; [done| |done]. exists (with_user p C1). split; [done|]. split; simpl; done.
Qed.

Lemma group_add_step c C b :
  inv b -> serving c C false b -> b_started C = true -> inside c b ->
  let b' := set_waits (set_group b (pids b) (group b + 1) ({[c]} ∪ adding b) (removing b))
              (waits b) (if waits b then late b + 1 else late b) in
  allowed (THandler c) b b' /\ serving c C true b'.
Proof.
  intros Hi [Hb (C1 & HC & [U S Rd B Rt]) Hm] Hst [Hlk Hop] b'.
  assert (Hn : c ∉ adding b) by (rewrite Hm; done).
  assert (Hw : waits b = false).
  { destruct (waits b) eqn:E; [|done]. rewrite (i_waits _ Hi E) in Hop. done. }
  pose proof (i_conns _ Hi _ _ HC) as [K1 K2 K3 K4 K5 K6 K7 K8 K9 K10]. split.
  - apply (local_allowed _ c b b' C1 C1); try done.
    + split; try done; simpl; intros; set_solver.
    + split; simpl; try done; congruence.
    + simpl. rewrite size_union, size_singleton by set_solver. rewrite (i_group _ Hi). lia.
    + simpl. rewrite Hw. apply Hi.
  - split; [done| |simpl; set_solver]. by exists C1.
Qed.

Lemma pids_set_step c C p b :
  inv b -> serving c C true b -> b_started C = true -> b_ready C = false -> b_user C = Some p ->
  pids b !! c = None ->
  let b' := set_group b (<[c := p]> (pids b)) (group b) (adding b ∖ {[c]}) (removing b) in
  allowed (THandler c) b b' /\ serving c C false b' /\ pids b' !! c = Some p.
Proof.
  intros Hi [Hb (C1 & HC & [U S Rd B Rt]) Hm] Hst Hrd Hu Hp b'.
  assert (Hn : c ∈ adding b) by (by apply Hm).
  pose proof (i_conns _ Hi _ _ HC) as [K1 K2 K3 K4 K5 K6 K7 K8 K9 K10]. split_and!.
  - apply (local_allowed _ c b b' C1 C1); try done; try apply Hi.
    + split; try done; simpl; intros; [by rewrite lookup_insert_ne|set_solver].
    + split; simpl; try done; [congruence|intros _; congruence|congruence|congruence|].
      * intros Ho Hf. destruct (in_order _ _ _ Hi HC) as [_ H2]; congruence.
    + simpl. rewrite map_size_insert_None by done. rewrite size_difference by set_solver.
      rewrite size_singleton, (i_group _ Hi).
      assert (Hz : size (adding b) <> 0%nat); [|lia]. intros Hz. apply size_empty_inv in Hz. set_solver.
    + intros _ Hr Hf. simpl. split_and!; try done. intros Ho.
      destruct (in_order _ _ _ Hi HC) as [H1 _]; congruence.
  - split; [done| |simpl; set_solver]. by exists C1.
  - simpl. by rewrite lookup_insert_eq.
Qed.

(** What OnConnected knows until it tracks the agent. *)
Record opening (c : N) C (mid : bool) b : Prop := {
  n_serving : serving c C mid b;
  n_inside : inside c b;
  n_untracked : pids b !! c = None }.

Lemma opening_rely c C mid b b' : rely (THandler c) b b' -> opening c C mid b -> opening c C mid b'.
Proof.
  intros R [H1 H2 H3]. split; [by eapply bridge_serving_rely|by eapply inside_rely|by eapply untracked_rely].
Qed.

Lemma safe_fails c C err b :
  serving c C false b -> b_started C = true -> pids b !! c = None ->
  safe (THandler c) (do! RUnlock; Ret (Some err)) (served c) b.
Proof.
  intros Hs Hst Hp. eapply bridge_step_serving; [done..|]. intros b1 e b2 r I1 R1 S1 _ Q S2.
  exists C. split_and!; [done|done|]. intros _. rewrite (qs_pids _ _ _ Q). by eapply untracked_rely.
Qed.

Lemma safe_tracks c C pid b :
  opening c C false b -> b_started C = true -> b_ready C = false ->
  safe (THandler c) (do! SetUserData c pid; do! GroupAdd c; do! PidsSet c pid; do! RUnlock; Ret None) (served c) b.
Proof.
  intros Ho Hst Hrd b1 e b2 r R1 I1 E1. destruct (opening_rely _ _ _ _ _ R1 Ho) as [S1 L1 P1]. clear Ho.
  simpl in E1. injection E1 as <- <-.
  destruct (set_user_step c C pid b1 I1 S1 Hst Hrd P1) as [Ha1 S2]. split; [done|]. clear b R1 S1 Ha1.
  assert (Ho : opening c (with_user pid C) false (upd_conn c (with_user pid) b1)) by (by split).
  intros b3 e3 b4 r R3 I3 E3. destruct (opening_rely _ _ _ _ _ R3 Ho) as [S3 L3 P3]. clear Ho.
  simpl in E3. injection E3 as <- <-.
  destruct (group_add_step c _ b3 I3 S3) as [Ha3 S4]; [done|done|]. split; [done|].
  match type of S4 with serving _ _ _ ?x => assert (Ho : opening c (with_user pid C) true x) by (by split) end.
  clear b1 I1 L1 P1 S2 R3 S3 L3 P3 S4 Ha3.
  intros b5 e5 b6 r R5 I5 E5. destruct (opening_rely _ _ _ _ _ R5 Ho) as [S5 L5 P5]. clear Ho.
  simpl in E5. injection E5 as <- <-.
  destruct (pids_set_step c _ pid b5 I5 S5) as (Ha5 & S6 & P6); [done..|]. split; [done|].
  eapply bridge_step_serving; [done|exact S6|]. intros b7 e7 b8 r _ R7 S7 _ Q7 S8.
  exists (with_user pid C). split_and!; [done|done|]. intros _. exists pid. split; [done|].
  intros Hor. rewrite (qs_pids _ _ _ Q7). by eapply tracked_rely.
Qed.

Lemma bridge_safe_OnConnected c C b :
  serving c C false b -> b_started C = true -> b_ready C = false -> pids b !! c = None ->
  safe (THandler c) (OnConnected c) (served c) b.
Proof.
  intros Hs Hst Hrd Hp. unfold OnConnected.
  eapply bridge_step_serving; [done|exact Hs|]. intros b1 e b2 r _ R1 S1 E1 Q1 S2.
  assert (P2 : pids b2 !! c = None) by (rewrite (qs_pids _ _ _ Q1); by eapply untracked_rely).
  assert (L2 : THandler c ∈ readers b2) by (injection E1 as <- _; simpl; set_solver).
  clear b b1 e r R1 S1 E1 Q1 Hs Hp.
  eapply bridge_step_serving; [done|exact S2|]. intros b3 e b4 k _ R3 S3 E3 Q3 S4.
  assert (P4 : pids b4 !! c = None) by (rewrite (qs_pids _ _ _ Q3); by eapply untracked_rely).
  injection E3 as <- <-. destruct (closing b3) eqn:Hk; [by eapply safe_fails|].
  assert (Ho : opening c C false b3).
  { split; [done| |done]. split; [|done]. destruct (r_own _ _ _ R3) as [Hiff _]. by apply Hiff. }
  clear b2 L2 P2 S2 e R3 S3 Q3 Hk S4 P4.
  eapply bridge_step_serving; [done|apply Ho|]. intros b4 e b5 spawned _ R4 S4 E4 Q4 S5.
  destruct (opening_rely _ _ _ _ _ R4 Ho) as [_ L4 P4]. clear Ho.
  assert (P5 : pids b5 !! c = None) by (by rewrite (qs_pids _ _ _ Q4)).
  destruct spawned as [pid|err]; [|by eapply safe_fails]. eapply safe_tracks; [|done|done]. split; [done| |done].
  simpl in E4. destruct (o_err e); [done|]. by injection E4 as <- _.
Qed.

(** *** The end of a callback *)

Definition finish (ready closed : bool) (C : bconn) : bconn :=
  mkBconn (b_user C) (b_started C) ready false closed (b_retired C) (b_forgot C).

Lemma finish_step c b b' C ready closed :
  inv b -> conns b !! c = Some C -> b_busy C = true -> b_started C = true -> c ∉ adding b ->
  conns b' = <[c := finish ready closed C]> (conns b) -> same_rest b b' ->
  (b_closed C = true -> closed = true) -> (b_ready C = true -> ready = true) ->
  (ready = false -> pids b !! c = None) ->
  (b_ready C = false -> ready = true -> orderly = true -> exists p, b_user C = Some p /\ pids b !! c = Some p) ->
  allowed (THandler c) b b'.
Proof.
  intros Hi HC Hb Hst Ha Ec Hs Hcl Hrd Hfail Htr. destruct Hs as [E1 E2 E3 E4 E5 E6 E7 E8 E9].
  pose proof (i_conns _ Hi _ _ HC) as [K1 K2 K3 K4 K5 K6 K7 K8 K9 K10].
  apply (local_allowed _ c b b' C (finish ready closed C)); try done.
  - split; intros; rewrite ?Ec, ?E1, ?E2, ?E3, ?E4, ?E5, ?E6, ?E7, ?E8, ?E9; try done. by rewrite lookup_insert_ne.
  - by rewrite Ec, lookup_insert_eq.
  - split; simpl; rewrite ?E1, ?E2, ?E3; try done; try congruence; auto.
    + intros Ho Hr Hret. destruct (b_ready C) eqn:E; auto.
    + intros Ho Hf. destruct (in_order _ _ _ Hi HC Hb Ho). congruence.
  - rewrite E1, E2, E3, E7. apply Hi.
  - rewrite E8. apply Hi.
  - intros _ Hr Hf. simpl. rewrite E1, E3. split_and!; try done. intros Ho.
    destruct (in_order _ _ _ Hi HC Hb Ho). congruence.
Qed.

Lemma bridge_safe_callback c body b :
  inv b -> safe (THandler c) body (served c) b -> safe (THandler c) (callback c body) anything b.
Proof.
  intros Hi Hs. unfold callback. eapply safe_bind; [done|done|]. clear b Hi Hs.
  intros b err Hi (C & Hs & Hst & Hend) b1 e b2 r R1 I1 E1. split; [|done].
  assert (Hend1 : b_ready C = false ->
     match err with
     | None => exists p, b_user C = Some p /\ (orderly = true -> pids b1 !! c = Some p)
     | Some _ => pids b1 !! c = None
     end).
  { intros Hr. specialize (Hend Hr). destruct err; [by eapply untracked_rely|].
    destruct Hend as (p & Hu & Hp). exists p. split; [done|]. intros Ho. by eapply tracked_rely. }
  pose proof (bridge_serving_rely _ _ _ _ _ R1 Hs) as [Hb (C1 & HC & [U S Rd B Rt]) Hm]. clear Hend Hs Hi R1 b.
  simpl in E1. injection E1 as <- <-.
  apply (finish_step c b1 _ C1 (b_ready C1 || bool_decide (err = None)) (match err with Some _ => true | None => b_closed C1 end));
    try congruence; try done.
  - by rewrite Hm.
  - destruct err; simpl.
    + rewrite (alter_Some_insert set_closed _ _ C1) by done.
      rewrite (alter_Some_insert _ _ _ (set_closed C1)) by apply lookup_insert_eq. by rewrite insert_insert_eq.
    + by rewrite (alter_Some_insert _ _ _ C1).
  - destruct err; by split.
  - by destruct err.
  - by intros ->.
  - rewrite orb_false_iff. intros [Hr He]. rewrite Rd in Hr. specialize (Hend1 Hr). by destruct err.
  - intros Hr He Ho. rewrite Rd in Hr. specialize (Hend1 Hr). rewrite Rd, Hr in He. destruct err; [done|].
    destruct Hend1 as (p & Hu & Hp). exists p. split; [congruence|auto].
Qed.

(** *** The closer *)

(** OnClose runs for [c], with [C] in the connection; [mid] between the removal
    of the agent and [Done]. What it knows of the agent holds in order only. *)
Record leaving (c : N) C (mid : bool) b : Prop := {
  x_retired : b_retired C = true;
  x_forgot : b_forgot C = false;
  x_conn : exists C', conns b !! c = Some C' /\ b_retired C' = true /\ b_forgot C' = false /\
    (orderly = true -> b_user C' = b_user C /\ b_ready C' = b_ready C);
  x_mid : c ∈ removing b <-> mid = true }.

Lemma leaving_own c C mid b b' :
  rely (TCloser c) b b' -> leaving c C mid b ->
  leaving c C mid b' /\ (orderly = true -> pids b' !! c = pids b !! c).
Proof.
  intros R [Hr Hf (C1 & HC & R1 & F1 & O1) Hm].
  destruct (r_own _ _ _ R C1 HC) as (C2 & HC2 & H2). destruct (H2 R1 F1) as (R2 & F2 & M2 & O2).
  split; [|intros Ho; apply (O2 Ho)]. split; [done|done| |by rewrite M2].
  exists C2. split_and!; [done|done|done|]. intros Ho. destruct (O1 Ho), (O2 Ho) as (? & ? & _). split; congruence.
Qed.

Lemma quiet_leaving c C mid b b' :
  conns b' = conns b -> removing b' = removing b -> leaving c C mid b -> leaving c C mid b'.
Proof. intros E1 E2 [Hr Hf Hc Hm]. split; [done|done|by rewrite E1|by rewrite E2]. Qed.

(** What OnClose leaves. *)
Definition left c b : Prop :=
  exists C, leaving c C false b /\
    (orderly = true -> pids b !! c = None /\
       (b_ready C = true -> exists p, b_user C = Some p /\ p ∈ stopped b)).

Lemma closer_other c C b b' : orderly = true -> conn_ok b c C -> b_retired C = true -> handler_own c b b' C C.
Proof. intros Ho K Hr Hb. rewrite (k_turn _ _ _ K) in Hb; done. Qed.

Lemma delete_step c C b q :
  inv b -> leaving c C false b -> pids b !! c = Some q ->
  let b' := set_group b (delete c (pids b)) (group b) (adding b) ({[c]} ∪ removing b) in
  allowed (TCloser c) b b' /\ leaving c C true b' /\ pids b' !! c = None.
Proof.
  intros Hi [Hr Hf (C1 & HC & R1 & F1 & O1) Hm] Hp b'.
  assert (Hn : c ∉ removing b) by (rewrite Hm; done).
  pose proof (i_conns _ Hi _ _ HC) as [K1 K2 K3 K4 K5 K6 K7 K8 K9 K10].
  assert (Hd : delete c (pids b) !! c = None) by apply lookup_delete_eq. split_and!.
  - apply (local_allowed _ c b b' C1 C1); try done; try apply Hi.
    + split; try done; simpl; intros; [by rewrite lookup_delete_ne|set_solver].
    + split; simpl; rewrite ?Hd; try done; try congruence. intros Hs. destruct (K1 Hs) as (_ & ? & _). congruence.
    + simpl. rewrite size_union, size_singleton by set_solver. rewrite (i_group _ Hi), map_size_delete, Hp.
      assert (size (pids b) <> 0%nat); [|lia]. intros Hz. apply map_size_empty_inv in Hz. rewrite Hz in Hp. done.
    + intros _ Hb. simpl. split_and!; try done. intros Ho. rewrite K4 in Hb; done.
  - split; [done|done|by exists C1|simpl; set_solver].
  - done.
Qed.

Lemma done_step c C b :
  inv b -> leaving c C true b ->
  let b' := set_group b (pids b) (group b - 1) (adding b) (removing b ∖ {[c]}) in
  allowed (TCloser c) b b' /\ leaving c C false b'.
Proof.
  intros Hi [Hr Hf (C1 & HC & R1 & F1 & O1) Hm] b'. assert (Hin : c ∈ removing b) by (by apply Hm).
  pose proof (i_conns _ Hi _ _ HC) as [K1 K2 K3 K4 K5 K6 K7 K8 K9 K10]. split.
  - apply (local_allowed _ c b b' C1 C1); try done; try apply Hi.
    + split; try done; simpl; intros; set_solver.
    + simpl. rewrite size_difference, size_singleton, (i_group _ Hi) by set_solver.
      assert (size (removing b) <> 0%nat); [|lia]. intros Hz. apply size_empty_inv in Hz. set_solver.
  - split; [done|done|by exists C1|simpl; set_solver].
Qed.

Lemma forget_step c b :
  inv b -> left c b -> allowed (TCloser c) b (upd_conn c (set_retired true) b).
Proof.
  intros Hi (C & [Hr Hf (C1 & HC & R1 & F1 & O1) Hm] & Hend).
  pose proof (i_conns _ Hi _ _ HC) as [K1 K2 K3 K4 K5 K6 K7 K8 K9 K10].
  assert (HC' : conns (upd_conn c (set_retired true) b) !! c = Some (set_retired true C1)).
  { erewrite upd_conn_lookup by done. by rewrite decide_True. }
  apply (local_allowed _ c b _ C1 (set_retired true C1)); try done; try apply Hi.
  - split; try done. intros c' Hne. erewrite upd_conn_lookup by done. by rewrite decide_False.
  - assert (Hn : c ∉ removing b) by (rewrite Hm; done). split; simpl; try done; try congruence; auto.
    intros Ho _. destruct (Hend Ho) as [Hp Hst]. destruct (O1 Ho) as [-> ->]. auto.
Qed.

Lemma safe_forget c b : left c b -> inv b -> safe (TCloser c) (do! Forget c; Ret tt) anything b.
Proof.
  intros (C & Hl & Hend) _ b1 e b2 r R1 I1 E1. split; [|done]. simpl in E1. injection E1 as <- <-.
  destruct (leaving_own _ _ _ _ _ R1 Hl) as [Hl1 Hp1]. apply forget_step; [done|]. exists C. split; [done|].
  intros Ho. destruct (Hend Ho) as [Hp Hst]. rewrite Hp1 by done. split; [done|]. intros Hr.
  destruct (Hst Hr) as (p & Hu & Hin). exists p. split; [done|]. by apply (r_stopped _ _ _ R1).
Qed.

Lemma safe_stop_tracked c C p b :
  leaving c C true b -> pids b !! c = None -> (orderly = true -> b_ready C = true -> b_user C = Some p) ->
  safe (TCloser c) (do! StopProcess p; do! GroupDone c; Ret tt) (fun b _ => left c b) b.
Proof.
  intros Hl Hp Hu b1 e b2 r R1 I1 E1. destruct (leaving_own _ _ _ _ _ R1 Hl) as [Hl1 Hp1]. clear Hl.
  pose proof (quiet_exec (StopProcess p) _ _ _ _ _ eq_refl E1) as Q1. split; [by apply quiet_step_allowed|].
  simpl in E1. injection E1 as <- <-.
  apply (quiet_leaving c C true b1 _ (qs_conns _ _ _ Q1) (qs_removing _ _ _ Q1)) in Hl1.
  assert (Hst : p ∈ stopped b1 ++ [p]) by (apply elem_of_app; right; by apply list_elem_of_singleton).
  intros b3 e3 b4 r R3 I3 E3. destruct (leaving_own _ _ _ _ _ R3 Hl1) as [Hl3 Hp3]. simpl in E3. injection E3 as <- <-.
  destruct (done_step c C b3 I3 Hl3) as [Ha Hl4]. split; [done|]. exists C. split; [done|]. simpl in *.
  intros Ho. rewrite Hp3, Hp1 by done. split; [done|]. intros Hr. exists p. split; [auto|].
  by apply (r_stopped _ _ _ R3).
Qed.

(** When nothing was tracked: OnConnected failed, or was never called. *)
Lemma left_untracked c C b : inv b -> leaving c C false b ->
  (orderly = true -> b_ready C = true -> exists p, b_user C = Some p /\ pids b !! c = Some p) ->
  (orderly = true -> b_user C = None \/ pids b !! c = None) -> left c b.
Proof.
  intros Hi Hl Htr Hno. exists C. split; [done|]. intros Ho.
  destruct Hl as [Hr Hf (C1 & HC & R1 & F1 & O1) Hm]. destruct (O1 Ho) as [U1 Rd1].
  assert (Hrd : b_ready C = false).
  { destruct (b_ready C) eqn:E; [|done]. destruct (Htr Ho eq_refl) as (p & Hu & Hp).
    destruct (Hno Ho); congruence. }
  split; [|congruence]. pose proof (i_conns _ Hi _ _ HC) as K.
  apply (k_failed _ _ _ K); [by apply (k_turn _ _ _ K)|congruence].
Qed.

Lemma safe_OnClose c C b :
  leaving c C false b ->
  (orderly = true -> b_ready C = true -> exists p, b_user C = Some p /\ pids b !! c = Some p) ->
  safe (TCloser c) (OnClose c) (fun b _ => left c b) b.
Proof.
  intros Hl Htr b1 e b2 user R1 I1 E1. destruct (leaving_own _ _ _ _ _ R1 Hl) as [Hl1 Hp1].
  pose proof (quiet_exec (UserData c) _ _ _ _ _ eq_refl E1) as Q1. split; [by apply quiet_step_allowed|].
  assert (b2 = b1 /\ (orderly = true -> user = b_user C)) as [-> Hu].
  { simpl in E1. destruct Hl1 as [_ _ (C1 & HC & _ & _ & O1) _]. rewrite HC in E1. injection E1 as <- <-.
    split; [done|]. intros Ho. apply (O1 Ho). }
  assert (Htr1 : orderly = true -> b_ready C = true -> exists p, b_user C = Some p /\ pids b1 !! c = Some p).
  { intros Ho Hr. rewrite Hp1 by done. auto. }
  clear b R1 Hl Htr Hp1 Q1 E1 e.
  destruct user as [p|]; [|eapply left_untracked; [done..|intros Ho; left; by rewrite <- Hu]].
  intros b2 e b3 tracked R2 I2 E2. destruct (leaving_own _ _ _ _ _ R2 Hl1) as [Hl2 Hp2].
  assert (Htr2 : orderly = true -> b_ready C = true -> exists p, b_user C = Some p /\ pids b2 !! c = Some p).
  { intros Ho Hr. rewrite Hp2 by done. auto. }
  simpl in E2. destruct (pids b2 !! c) as [q|] eqn:Hq; injection E2 as <- <-.
  - destruct (delete_step c C b2 q I2 Hl2 Hq) as (Ha & Hl3 & Hp3). split; [done|]. simpl.
    apply (safe_stop_tracked c C); [done|done|]. intros Ho _. by rewrite <- Hu.
  - split; [apply quiet_step_allowed; [done|]; by split|]. simpl. eapply left_untracked; [done..| |auto].
    rewrite Hq. done.
Qed.

Lemma bridge_safe_closer c C b :
  inv b -> leaving c C false b ->
  (orderly = true -> b_ready C = true -> exists p, b_user C = Some p /\ pids b !! c = Some p) ->
  safe (TCloser c) (closer c) anything b.
Proof.
  intros Hi Hl Htr. unfold closer. eapply safe_bind; [by eapply safe_OnClose|done|].
  intros b1 [] I1 H1. by apply safe_forget.
Qed.

(** *** Close *)

Lemma closed_rely i b b' : rely i b b' -> closing b = true -> closing b' = true.
Proof. intros R. apply (r_closing _ _ _ R). Qed.

Lemma safe_stop_loop i l Q b :
  closing b = true -> (forall b, closing b = true -> Q b tt) -> safe i (stop_agents_loop l) Q b.
Proof.
  intros Hk HQ. revert b Hk. induction l as [|[c p] l IH]; intros b Hk; simpl; [auto|].
  intros b1 _ b2 r R1 I1 [= <- <-]. split; [by apply quiet_step_allowed, (quiet_exec (StopProcess p) i (mkOracle None p []) _ _ tt)|].
  apply IH. simpl. by eapply closed_rely.
Qed.

Lemma reject_allowed i b : inv b -> readers b = ∅ -> allowed i b (set_lock b ∅ true).
Proof.
  intros [I1 I2 I3 I4 I5] Hr. split.
  - split; try done. intros c C HC. by apply (conn_ok_frame b), I1.
  - intros j _. split; simpl; [done|done|]. destruct j as [c|c|n]; simpl; [| |done].
    + rewrite Hr. split_and!; [done|set_solver|]. intros C HC. exists C. split; [done|]. intros Hb. by split_and!.
    + intros C HC. exists C. split; [done|]. intros Hret Hf. by split_and!.
Qed.

(** Waiting, once nothing can be added. *)
Lemma safe_wait {A} n b (k : option gerr -> A) :
  closing b = true -> safe (TStop n) (do! StartWait; err <-! WaitWithTimeout; Ret (k err)) anything b.
Proof.
  intros Hk b1 e b2 r R1 I1 E1. apply (closed_rely _ _ _ R1) in Hk. simpl in E1. injection E1 as <- <-.
  split; [apply quiet_allowed; try done; apply I1|].
  intros b3 e3 b4 err _ I3 E3. split; [|done].
  by apply quiet_step_allowed, (quiet_exec WaitWithTimeout _ _ _ _ _ eq_refl E3).
Qed.

Lemma safe_stop_agents n b : inv b -> closing b = true -> safe (TStop n) stopAgents anything b.
Proof.
  intros _ Hk b1 e b2 l R1 I1 E1. apply (closed_rely _ _ _ R1) in Hk.
  pose proof (quiet_exec Range _ _ _ _ _ eq_refl E1) as Q1.
  destruct (quiet_step_allowed _ _ _ I1 Q1) as [I2 H2]. split; [done|].
  eapply (safe_bind _ _ _ _ _ _ (fun b _ => closing b = true)); [|done|intros; by apply safe_wait].
  apply safe_stop_loop; [|done]. by rewrite (qs_closing _ _ _ Q1).
Qed.

Lemma safe_stopper n b : inv b -> safe (TStop n) stopper anything b.
Proof.
  intros Hi. unfold stopper. eapply safe_bind; [|done|done].
  intros b1 e b2 r R1 I1 E1. simpl in E1. case_decide as Hr; [|done]. injection E1 as <- <-.
  destruct (reject_allowed (TStop n) b1 I1 Hr) as [I2 H2]. split; [done|]. by apply safe_stop_agents.
Qed.

(** ** Every run *)

Abbreviation pool_ok := (pool_ok exec inv rely).
Abbreviation step := (step orderly).
Abbreviation run := (run orderly).

Lemma bridge_start_ok : pool_ok start.
Proof.
  split; [|done]. split; try done. intros c [[p Hp]|[Hc|Hc]]; [done|set_solver..].
Qed.

(** A change of one connection by a new thread. *)
Lemma begin_thread i c C C' p w :
  pool_ok w -> conns (shared w) !! c = Some C -> let b' := upd_conns <[c := C']> (shared w) in
  conn_ok b' c C' ->
  (i <> THandler c -> handler_own c (shared w) b' C C') -> (i <> TCloser c -> closer_own c (shared w) b' C C') ->
  (inv b' -> safe i p anything b') -> pool_ok (start_thread i b' p w).
Proof.
  intros Hw HC b' Hok Hh Hc Hp. pose proof (pool_inv _ _ _ _ Hw) as Hi.
  destruct (local_allowed i c (shared w) b' C C') as [I' R']; try done; try apply Hi.
  - split; try done. intros c' Hne. simpl. by rewrite lookup_insert_ne.
  - simpl. apply lookup_insert_eq.
  - apply pool_start; [apply bridge_rely_trans|done|done|auto|auto].
Qed.

Lemma start_serving c C b :
  b_busy C = true -> conns b !! c = Some C -> c ∉ adding b -> serving c C false b.
Proof. intros Hb HC Ha. split; [done| |done]. exists C. by split. Qed.

Lemma connected_ok c w : pool_ok w -> pool_ok (step w (Connected c)).
Proof.
  intros Hw. pose proof (pool_inv _ _ _ _ Hw) as Hi. simpl.
  destruct (conns (shared w) !! c) as [C|] eqn:HC; [|done]. destruct (_ && _) eqn:Eg; [|done].
  rewrite !andb_true_iff, !negb_true_iff in Eg. destruct Eg as [[Hs Hb] Hk].
  pose proof (i_conns _ Hi _ _ HC) as [K1 K2 K3 K4 K5 K6 K7 K8 K9 K10].
  destruct (K1 Hs) as (Hu & Hp & Ha). unfold upd_conn, upd_conns. rewrite (alter_Some_insert _ _ _ C) by done.
  assert (Hrd : b_ready C = false) by (destruct (b_ready C); [rewrite K2 in Hs; done|done]).
  assert (Hret : b_retired C = false) by (destruct (b_retired C); [rewrite K3 in Hk; done|done]).
  assert (Hfg : b_forgot C = false) by (destruct (b_forgot C); [rewrite K5 in Hret; done|done]).
  set (C' := set_busy true (b_ready C) true C). apply (begin_thread _ _ C C'); try done.
  - split; simpl; try done; congruence.
  - intros I'. apply bridge_safe_callback; [done|]. apply (bridge_safe_OnConnected c C'); try done.
    apply start_serving; [done|apply lookup_insert_eq|done].
Qed.

Lemma message_ok c packet w : pool_ok w -> pool_ok (step w (Message c packet)).
Proof.
  intros Hw. pose proof (pool_inv _ _ _ _ Hw) as Hi. simpl.
  destruct (conns (shared w) !! c) as [C|] eqn:HC; [|done]. destruct (_ && _) eqn:Eg; [|done].
  rewrite !andb_true_iff, !negb_true_iff in Eg. destruct Eg as [[Hrd Hb] Hk].
  pose proof (i_conns _ Hi _ _ HC) as [K1 K2 K3 K4 K5 K6 K7 K8 K9 K10].
  unfold upd_conn, upd_conns. rewrite (alter_Some_insert _ _ _ C) by done.
  assert (Hret : b_retired C = false) by (destruct (b_retired C); [rewrite K3 in Hk; done|done]).
  assert (Hfg : b_forgot C = false) by (destruct (b_forgot C); [rewrite K5 in Hret; done|done]).
  assert (Ha : c ∉ adding (shared w)) by (intros Ha; rewrite K6 in Hb; done).
  set (C' := set_busy (b_started C) (b_ready C) true C). apply (begin_thread _ _ C C'); try done.
  - split; simpl; try done; congruence.
  - intros I'. apply bridge_safe_callback; [done|]. apply (bridge_safe_OnMessage c C'); simpl; auto.
    apply start_serving; [done|apply lookup_insert_eq|done].
Qed.

Lemma closed_ok c w : pool_ok w -> pool_ok (step w (Closed c)).
Proof.
  intros Hw. pose proof (pool_inv _ _ _ _ Hw) as Hi. simpl.
  destruct (conns (shared w) !! c) as [C|] eqn:HC; [|done]. destruct (_ && _) eqn:Eg; [|done].
  rewrite !andb_true_iff, !negb_true_iff in Eg. destruct Eg as [[Hk Hret] Ho].
  pose proof (i_conns _ Hi _ _ HC) as [K1 K2 K3 K4 K5 K6 K7 K8 K9 K10].
  unfold upd_conn, upd_conns. rewrite (alter_Some_insert _ _ _ C) by done.
  assert (Hrem : c ∉ removing (shared w)) by (intros Hc; destruct (K7 Hc); congruence).
  assert (Hturn : orderly = true -> b_busy C = false) by (intros E; by rewrite E in Ho).
  set (C' := set_retired false C). apply (begin_thread _ _ C C'); try done.
  - split; simpl; try done; auto.
  - intros _ Hb. split_and!; try done. intros E. rewrite Hturn in Hb; done.
  - intros I'. apply (bridge_safe_closer c C'); [done| |simpl; intros E Hr; by apply K8].
    split; [done|done| |simpl; done]. exists C'. simpl. by rewrite lookup_insert_eq.
Qed.

(** A change by the environment, with no part in any thread. *)
Lemma env_ok b' w :
  pool_ok w -> (forall n, allowed (TStop n) (shared w) b') -> pool_ok (mkPool b' (threads w)).
Proof.
  intros Hw Ha. apply pool_env; [apply bridge_rely_trans|done|apply (Ha 0%N)|]. intros j _.
  destruct (decide (j = TStop 0)) as [->|Hne]; [by apply (Ha 1%N)|by apply (Ha 0%N)].
Qed.

Lemma accept_ok c w : pool_ok w -> pool_ok (step w (Accept c)).
Proof.
  intros Hw. pose proof (pool_inv _ _ _ _ Hw) as Hi. simpl.
  destruct (conns (shared w) !! c) as [C|] eqn:HC; [done|]. apply env_ok; [done|]. intros n.
  assert (Hno : pids (shared w) !! c = None /\ c ∉ adding (shared w) /\ c ∉ removing (shared w)).
  { split_and!; [apply eq_None_not_Some|..]; intros Hc; destruct (i_dom _ Hi c); auto; congruence. }
  destruct Hno as (Hp & Ha & Hr). destruct Hi as [I1 I2 I3 I4 I5]. split.
  - split; try done.
    + intros c' C'. simpl. rewrite lookup_insert_Some. intros [[<- <-]|[_ HC']]; [by split|].
      apply (conn_ok_frame (shared w)); auto.
    + intros c' Hc. simpl. rewrite lookup_insert. case_decide; [eauto|auto].
  - intros j _. split; [done|done|]. destruct j as [c'|c'|?]; simpl; [| |done].
    + split_and!; [done|done|]. intros C' HC'. exists C'. rewrite lookup_insert_ne by congruence.
      split; [done|]. intros Hb. by split_and!.
    + intros C' HC'. exists C'. rewrite lookup_insert_ne by congruence. split; [done|].
      intros Hb Hf. by split_and!.
Qed.

Lemma break_ok c w : pool_ok w -> pool_ok (step w (Break c)).
Proof.
  intros Hw. pose proof (pool_inv _ _ _ _ Hw) as Hi. simpl. apply env_ok; [done|]. intros n.
  destruct (conns (shared w) !! c) as [C|] eqn:HC.
  - assert (HC' : conns (upd_conn c set_closed (shared w)) !! c = Some (set_closed C)).
    { erewrite upd_conn_lookup by done. by rewrite decide_True. }
    pose proof (i_conns _ Hi _ _ HC) as [K1 K2 K3 K4 K5 K6 K7 K8 K9 K10].
    apply (local_allowed _ c _ _ C (set_closed C)); try done; try apply Hi.
    split; try done. intros c' Hne. erewrite upd_conn_lookup by done. by rewrite decide_False.
  - apply quiet_allowed; try done; try apply Hi. simpl. by apply alter_None_id.
Qed.

Lemma bridge_step_ok w a : pool_ok w -> pool_ok (step w a).
Proof.
  intros Hw. pose proof (pool_inv _ _ _ _ Hw) as Hi.
  destruct a as [c|c|c packet|c|c|n|i e]; [by apply accept_ok|by apply connected_ok|by apply message_ok|
    by apply break_ok|by apply closed_ok|..]; simpl.
  - destruct (threads w !! TStop n); [done|].
    apply pool_start; [apply bridge_rely_trans|done|done|intros; apply bridge_rely_refl|by apply safe_stopper].
  - apply pool_step; [apply bridge_rely_refl|apply bridge_rely_trans|done].
Qed.

Lemma bridge_run_inv acts : inv (shared (run start acts)).
Proof.
  unfold run. assert (Hw := bridge_start_ok). revert Hw. generalize start.
  induction acts as [|a acts IH]; intros w Hw; [apply (pool_inv _ _ _ _ Hw)|]. by apply IH, bridge_step_ok.
Qed.

(** The agents tracked, and those between the wait group and the table. *)
Definition agents b : Z := Z.of_nat (size (pids b)) + Z.of_nat (size (adding b)) + Z.of_nat (size (removing b)).
(** OnClose has returned for every connection. *)
Definition all_forgotten b : Prop := forall c C, conns b !! c = Some C -> b_forgot C = true.
Definition agent_stopped b C : Prop := exists p, b_user C = Some p /\ p ∈ stopped b.

(** C19: In every interleaving of callbacks and Close the gateway's wait group is
    the number of agents tracked or being added or removed, never negative, and
    nothing is added once a Wait has begun. *)
Theorem wait_group_counts_agents acts :
  let b := shared (run start acts) in
  group b = agents b /\ 0 <= group b /\ late b = 0.
Proof. intros b. pose proof (bridge_run_inv acts) as [_ _ Hg _ Hl]. fold b in Hg, Hl. unfold agents. split_and!; [done|lia|done]. Qed.

(** C18: When OnClose waits for the running callback of its connection, once it has
    returned for every connection the wait group is zero, so Close returns, and
    every agent whose OnConnected succeeded was stopped. *)
Theorem closed_connections_release_agents acts :
  orderly = true ->
  let b := shared (run start acts) in
  all_forgotten b ->
  group b = 0 /\ forall c C, conns b !! c = Some C -> b_ready C = true -> agent_stopped b C.
Proof.
  intros Ho b Hall. pose proof (bridge_run_inv acts) as Hi. fold b in Hi. pose proof Hi as [I1 I2 I3 _ _]. split.
  - assert (Hno : forall c, ~ (is_Some (pids b !! c) \/ c ∈ adding b \/ c ∈ removing b)).
    { intros c Hc. destruct (I2 c Hc) as [C HC]. pose proof (I1 c C HC) as K. pose proof (Hall c C HC) as Hf.
      destruct (k_stopped _ _ _ K Ho Hf) as [Hp _]. destruct Hc as [[p Hc]|[Hc|Hc]]; [congruence| |].
      - pose proof (k_adding _ _ _ K Hc) as Hb. by rewrite (k_turn _ _ _ K Ho (k_forgot _ _ _ K Hf)) in Hb.
      - destruct (k_removing _ _ _ K Hc). congruence. }
    assert (Ep : pids b = ∅) by (apply map_empty; intros c; apply eq_None_not_Some; intros H; apply (Hno c); auto).
    assert (Ea : size (adding b) = 0%nat) by (apply size_empty_iff; intros c; split; [|set_solver]; intros H; destruct (Hno c); auto).
    assert (Er : size (removing b) = 0%nat) by (apply size_empty_iff; intros c; split; [|set_solver]; intros H; destruct (Hno c); auto).
    rewrite I3, Ep, Ea, Er. by rewrite map_size_empty.
  - intros c C HC Hr. pose proof (I1 c C HC) as K. by apply (k_stopped _ _ _ K Ho (Hall c C HC)).
Qed.
End Safety.
