(* ===== verification/BridgeDemo.v ===== *)
(** * The gateway's bridge at work

    Two clients whose agents are stopped, and what OnClose leaves behind when it
    does not wait for OnConnected. *)

From S2P Require Import Prelude Component Errors Actor Effects Threads Bridge BridgeSafety.

Definition agent_pid (n : Z) : PID := NewPID n "" "a".
Definition by_agent (n : Z) : oracle := mkOracle None (agent_pid n) [].
Definition go (i : tid) (n : nat) : list act := repeat (Step i (by_agent 0)) n.

(** Client [c] connects and gets the agent [n]; it sends a packet; it leaves. *)
Definition connects (c : N) (n : Z) : list act :=
  [Accept c; Connected c] ++ repeat (Step (THandler c) (by_agent n)) 8.
Definition sends (c : N) (packet : list Z) : list act := Message c packet :: go (THandler c) 6.
Definition leaves (c : N) : list act := [Break c; Closed c] ++ go (TCloser c) 5.
(** Close waits for both clients. *)
Definition closes : list act :=
  [CallClose 0; Step (TStop 0) (by_agent 0);
   Step (TStop 0) (mkOracle None NoSender [(1%N, agent_pid 11); (2%N, agent_pid 12)])] ++ go (TStop 0) 3.

Definition visit : list act :=
  connects 1 11 ++ connects 2 12 ++ sends 1 [7] ++ closes ++ leaves 1 ++ leaves 2 ++ go (TStop 0) 1.

Example visit_ends :
  let w := run true start visit in let b := shared w in
  finished (TStop 0) w = true /\ group b = 0 /\ delivered b = [(agent_pid 11, [7])] /\
  stopped b = [agent_pid 11; agent_pid 12; agent_pid 11; agent_pid 12].
Proof. vm_compute. done. Qed.

(** Wait does not return while a client is left. *)
Example close_waits :
  let w := run true start (connects 1 11 ++ connects 2 12 ++ closes ++ leaves 1 ++ go (TStop 0) 1) in
  finished (TStop 0) w = false /\ group (shared w) = 1.
Proof. vm_compute. done. Qed.

Lemma visit_forgets : all_forgotten (shared (run true start visit)).
Proof.
  assert (Hall : map_Forall (fun _ C => b_forgot C = true) (conns (shared (run true start visit)))).
  { refine (bool_decide_unpack _ _). vm_compute. exact I. }
  intros c C. apply Hall.
Qed.

Example closed_connections_release_agents_witness :
  all_forgotten (shared (run true start visit)) /\
  group (shared (run true start visit)) = 0.
Proof.
  split; [exact visit_forgets|].
  apply (closed_connections_release_agents true visit eq_refl visit_forgets).
Defined.

(** Once the gateway is closing a client is turned away. *)
Example late_client_is_refused :
  let b := shared (run true start (CallClose 0 :: go (TStop 0) 1 ++ connects 1 11)) in
  (fun C => (b_user C, b_ready C, b_closed C)) <$> conns b !! 1%N = Some (None, false, true) /\
  spawned b = [] /\ group b = 0.
Proof. vm_compute. done. Qed.

(** The connection breaks while OnConnected runs, and its OnClose, on another
    goroutine, finds no agent yet: the agent stays in the table, is never stopped
    by its connection, and Close waits until its timeout. *)
Definition overtaken : list act :=
  [Accept 1; Connected 1] ++ repeat (Step (THandler 1) (by_agent 11)) 3 ++
  [Break 1; Closed 1] ++ go (TCloser 1) 2 ++ repeat (Step (THandler 1) (by_agent 11)) 5.

Example close_during_connected_leaks_agent :
  let w := run false start overtaken in let b := shared w in
  finished (THandler 1) w = true /\ finished (TCloser 1) w = true /\
  (fun C => (b_closed C, b_forgot C)) <$> conns b !! 1%N = Some (true, true) /\
  pids b !! 1%N = Some (agent_pid 11) /\ stopped b = [] /\ group b = 1.
Proof. vm_compute. done. Qed.
