(* ===== verification/Udp.v ===== *)
(** * network/udp_server.go and udp_connection.go: sessions over datagrams

    One goroutine reads datagrams and hands each to the connection of its
    session, which it makes when there is none; every connection has a read and
    a write loop, and anybody may close it. As in Transport.v the methods are
    programs over what the goroutines share, one access at a time. *)

From stdpp Require Import pretty.
From S2P Require Import Prelude Protocol Errors Effects Threads.

Definition ErrConnectionReset : gerr := ESentinel "connection reset".
Definition ErrSendChannelFull : gerr := ESentinel "send channel is full".
Definition ErrUdpChannelFull : gerr := ESentinel "connection  send channel full".
Definition ErrUdpHeader : gerr := ESentinel "invalid udp header".
Definition ErrUdpCanceled : gerr := ESentinel "context canceled".

(** An address is what its [String] method gives. *)
Definition udpConnectionKey (remoteAddr : string) (sessionID : Z) : string :=
  remoteAddr +:+ "/" +:+ pretty sessionID.

(** The state of a connection, and what it did: the datagrams [recv] queued, those
    the read loop took, the payloads it gave to [baseConn.onProcess], and the
    packets the server accepted from it with the number of each. *)
Record UDPConnection := mkUDPConnection {
  remoteAddr : string;
  sessionID : Z;
  u_closed : bool;
  closeErr : option gerr;
  reading : bool;
  writing : bool;
  sendSequence : Z; (* how often it was increased; on the wire it wraps *)
  receiveCh : list (list Z);
  queued : list (list Z);
  taken : list (list Z);
  processed : list (list Z);
  emitted : list (Z * list Z)
}.

(** [newUDPConnection] *)
Definition newUDPConnection (addr : string) (session : Z) : UDPConnection :=
  mkUDPConnection addr session false None false false 0 [] [] [] [] [].
Definition receive_capacity : nat := 2048.

Record udpPacket := mkPacket { p_data : list Z; p_remoteAddr : string }.

Record UDPServer := mkUDPServer {
  heap : gmap N UDPConnection;
  connections : gmap string N;
  remoteAddrDict : gmap string N;
  sendChannel : list udpPacket;
  arrived : list (string * list Z); (* datagrams read from the socket *)
  written : list udpPacket          (* packets written to it *)
}.
Definition NewUDPServer : UDPServer := mkUDPServer ∅ ∅ ∅ [] [] [].

Definition upd_udp (c : N) (f : UDPConnection -> UDPConnection) (s : UDPServer) : UDPServer :=
  mkUDPServer (alter f c (heap s)) (connections s) (remoteAddrDict s) (sendChannel s) (arrived s) (written s).

(** [baseConn.Close]: the first error counts. *)
Definition base_Close (err : option gerr) (c : UDPConnection) : UDPConnection :=
  if u_closed c then c else
  mkUDPConnection (remoteAddr c) (sessionID c) true err (reading c) (writing c) (sendSequence c)
    (receiveCh c) (queued c) (taken c) (processed c) (emitted c).
Definition set_loops (r w : bool) (c : UDPConnection) : UDPConnection :=
  mkUDPConnection (remoteAddr c) (sessionID c) (u_closed c) (closeErr c) r w (sendSequence c)
    (receiveCh c) (queued c) (taken c) (processed c) (emitted c).
Definition set_queue (q all tk : list (list Z)) (c : UDPConnection) : UDPConnection :=
  mkUDPConnection (remoteAddr c) (sessionID c) (u_closed c) (closeErr c) (reading c) (writing c) (sendSequence c)
    q all tk (processed c) (emitted c).
Definition set_processed (ps : list (list Z)) (c : UDPConnection) : UDPConnection :=
  mkUDPConnection (remoteAddr c) (sessionID c) (u_closed c) (closeErr c) (reading c) (writing c) (sendSequence c)
    (receiveCh c) (queued c) (taken c) ps (emitted c).
Definition set_sending (n : Z) (es : list (Z * list Z)) (c : UDPConnection) : UDPConnection :=
  mkUDPConnection (remoteAddr c) (sessionID c) (u_closed c) (closeErr c) (reading c) (writing c) n
    (receiveCh c) (queued c) (taken c) (processed c) es.

(** [recv]: a full queue drops the datagram. *)
Definition recv (data : list Z) (c : UDPConnection) : UDPConnection :=
  if (length (receiveCh c) <? receive_capacity)%nat
  then set_queue (receiveCh c ++ [data]) (queued c ++ [data]) (taken c) c else c.

(** [removeConnection]: the address only if it is still this connection's. *)
Definition removeConnection (c : N) (s : UDPServer) : UDPServer :=
  match heap s !! c with
  | None => s
  | Some C =>
    mkUDPServer (heap s) (delete (udpConnectionKey (remoteAddr C) (sessionID C)) (connections s))
      (if bool_decide (remoteAddrDict s !! remoteAddr C = Some c)
       then delete (remoteAddr C) (remoteAddrDict s) else remoteAddrDict s)
      (sendChannel s) (arrived s) (written s)
  end.

(** The new connection and its two entries, under the lock. *)
Definition insertConnection (c : N) (addr : string) (session : Z) (s : UDPServer) : UDPServer :=
  mkUDPServer (<[c := newUDPConnection addr session]> (heap s))
    (<[udpConnectionKey addr session := c]> (connections s)) (<[addr := c]> (remoteAddrDict s))
    (sendChannel s) (arrived s) (written s).

(** ** The operations *)

Inductive uop : Set -> Type :=
| ReadTables (key addr : string) : uop (option N * option N)
| Insert (addr : string) (session : Z) : uop N
| StartWrite (c : N) : uop unit
| OnConnected (c : N) : uop (option gerr)
| StartRead (c : N) : uop unit
| BaseClose (c : N) (err : option gerr) : uop unit
| RemoveConnection (c : N) : uop unit
| Recv (c : N) (data : list Z) : uop unit
| Receive (c : N) : uop (option (list Z))
| OnProcess (c : N) (payload : list Z) : uop (option gerr)
| EndRead (c : N) : uop unit
| EndWrite (c : N) : uop unit
| AddSequence (c : N) : uop (Z * Z) (* the count, and the session *)
| TrySend (c : N) (seq : Z) (data : list Z) : uop (option gerr)
| LogError (what : string) : uop unit.

Definition Close (c : N) (err : option gerr) : prog uop unit :=
  do! BaseClose c err; do! RemoveConnection c; Ret tt.

(** [baseConn.runStart]: a server's connection is ready at once. *)
Definition runStart (c : N) : prog uop (option gerr) :=
  do! StartWrite c;
  err <-! OnConnected c;
  match err with
  | Some err => done <~ Close c (Some err); Ret (Some err)
  | None => do! StartRead c; Ret None
  end.

Definition transmit (addr : string) (bytes : list Z) : prog uop unit :=
  match DecodeUDPHeader bytes with
  | Err _ => do! LogError "udp server decode header failed"; Ret tt
  | Ok header =>
    let session := u_SessionID header in
    tables <-! ReadTables (udpConnectionKey addr session) addr;
    match tables with
    | (Some conn, _) => do! Recv conn bytes; Ret tt
    | (None, current) =>
      done <~ match current with Some cur => Close cur (Some ErrConnectionReset) | None => Ret tt end;
      conn <-! Insert addr session;
      err <~ runStart conn;
      do! Recv conn bytes; Ret tt
    end
  end.

(** [UDPConnection.onProcess] *)
Definition onProcess (c : N) (data : list Z) : prog uop (option gerr) :=
  if zlen data <? UDPHeaderLen then Ret (Some ErrUdpHeader)
  else err <-! OnProcess c (drop (Z.to_nat UDPHeaderLen) data); Ret err.

(** One iteration of [readLoop], with the deferred Close when it is the last. *)
Definition readLoop (c : N) : prog uop unit :=
  data <-! Receive c;
  match data with
  | None => do! EndRead c; Close c (Some ErrUdpCanceled)
  | Some data =>
    err <~ onProcess c data;
    match err with
    | Some err => do! EndRead c; Close c (Some err)
    | None => Ret tt
    end
  end.

Definition writeRaw (c : N) (data : list Z) : prog uop (option gerr) :=
  drawn <-! AddSequence c;
  let '(seq, session) := (drawn : Z * Z) in
  match EncodeUDPHeader (mkUDPHeader session (u64 seq)) with
  | Err _ => do! LogError "send packet failed"; Ret (Some ErrUdpHeader)
  | Ok header =>
    err <-! TrySend c seq (header ++ data);
    match err with
    | Some _ => do! LogError "send packet failed"; Ret (Some ErrUdpChannelFull)
    | None => Ret None
    end
  end.

(** A write of the write loop (or of its draining), and the loop's end. *)
Definition write_one (c : N) (data : list Z) : prog uop unit := err <~ writeRaw c data; Ret tt.
Definition write_end (c : N) (err : option gerr) : prog uop unit := do! EndWrite c; Close c err.

(** ** One access *)

Inductive tid := TServer | TReader (c : N) | TWriter (c : N) | TCaller (n : N).
#[export] Instance tid_eq_dec : EqDecision tid.
Proof. solve_decision. Defined.
#[export] Instance tid_countable : Countable tid.
Proof.
  refine (inj_countable'
    (fun t => match t with TServer => inl (inl ()) | TReader c => inl (inr c)
                         | TWriter c => inr (inl c) | TCaller n => inr (inr n) end)
    (fun s => match s with inl (inl _) => TServer | inl (inr c) => TReader c
                         | inr (inl c) => TWriter c | inr (inr n) => TCaller n end) _).
  by intros [].
Defined.

Record oracle := mkOracle { o_err : option gerr; o_addr : N }.

Section Udp.
Variable ServerSendChanSize : nat.

Definition exec (i : tid) (R : Set) (o : uop R) (e : oracle) (s : UDPServer) : option (UDPServer * R) :=
  match o in uop R return option (UDPServer * R) with
  | ReadTables key addr => Some (s, (connections s !! key, remoteAddrDict s !! addr))
  | Insert addr session =>
    match heap s !! o_addr e with
    | Some _ => None
    | None => Some (insertConnection (o_addr e) addr session s, o_addr e)
    end
  | StartWrite c => C ← heap s !! c; Some (upd_udp c (set_loops (reading C) true) s, tt)
  | OnConnected c => Some (s, o_err e)
  | StartRead c => C ← heap s !! c; Some (upd_udp c (set_loops true (writing C)) s, tt)
  | BaseClose c err => Some (upd_udp c (base_Close err) s, tt)
  | RemoveConnection c => Some (removeConnection c s, tt)
  | Recv c data => Some (upd_udp c (recv data) s, tt)
  | Receive c => (* a select: the context, or the queue *)
    C ← heap s !! c;
    match o_addr e, receiveCh C with
    | 0%N, _ => if u_closed C then Some (s, None) else None
    | _, [] => None
    | _, data :: rest => Some (upd_udp c (set_queue rest (queued C) (taken C ++ [data])) s, Some data)
    end
  | OnProcess c payload => C ← heap s !! c; Some (upd_udp c (set_processed (processed C ++ [payload])) s, o_err e)
  | EndRead c => C ← heap s !! c; Some (upd_udp c (set_loops false (writing C)) s, tt)
  | EndWrite c => C ← heap s !! c; Some (upd_udp c (set_loops (reading C) false) s, tt)
  | AddSequence c =>
    C ← heap s !! c;
    Some (upd_udp c (set_sending (sendSequence C + 1) (emitted C)) s, (sendSequence C + 1, sessionID C))
  | TrySend c seq data =>
    C ← heap s !! c;
    if (length (sendChannel s) <? ServerSendChanSize)%nat then
      let s := upd_udp c (set_sending (sendSequence C) (emitted C ++ [(seq, data)])) s in
      Some (mkUDPServer (heap s) (connections s) (remoteAddrDict s)
              (sendChannel s ++ [mkPacket data (remoteAddr C)]) (arrived s) (written s), None)
    else Some (s, Some ErrSendChannelFull)
  | LogError _ => Some (s, tt)
  end.

(** ** The goroutines *)

Abbreviation node := (pool uop UDPServer tid).

Inductive act :=
| Datagram (addr : string) (bytes : list Z)
| Read (c : N)
| Write (c : N) (data : list Z)
| EndWriting (c : N) (err : option gerr) (* a failed write, a heartbeat timeout, the context *)
| CallClose (n c : N) (err : option gerr)
| Sent                                   (* the server's write loop writes a packet *)
| Step (i : tid) (e : oracle).

Definition idle (i : tid) (w : node) : bool := finished i w.

Definition step (w : node) (a : act) : node :=
  let s := shared w in
  match a with
  | Datagram addr bytes =>
    if idle TServer w
    then start_thread TServer
           (mkUDPServer (heap s) (connections s) (remoteAddrDict s) (sendChannel s) (arrived s ++ [(addr, bytes)]) (written s))
           (transmit addr bytes) w
    else w
  | Read c =>
    match heap s !! c with
    | Some C => if reading C && idle (TReader c) w then start_thread (TReader c) s (readLoop c) w else w
    | None => w
    end
  | Write c data =>
    match heap s !! c with
    | Some C => if writing C && idle (TWriter c) w then start_thread (TWriter c) s (write_one c data) w else w
    | None => w
    end
  | EndWriting c err =>
    match heap s !! c with
    | Some C => if writing C && idle (TWriter c) w then start_thread (TWriter c) s (write_end c err) w else w
    | None => w
    end
  | CallClose n c err =>
    match heap s !! c with
    | Some _ => if idle (TCaller n) w then start_thread (TCaller n) s (Close c err) w else w
    | None => w
    end
  | Sent =>
    match sendChannel s with
    | [] => w
    | p :: rest =>
      mkPool (mkUDPServer (heap s) (connections s) (remoteAddrDict s) rest (arrived s) (written s ++ [p])) (threads w)
    end
  | Step i e => run_thread exec i e w
  end.

Definition start : node := mkPool NewUDPServer ∅.
Definition run (w : node) (acts : list act) : node := fold_left step acts w.
End Udp.
