(* ===== verification/UdpSafety.v ===== *)
(** * What the UDP server guarantees

    The rely-guarantee proof over Udp.v: one open connection per address,
    datagrams in order to their session, and numbered packets. *)

From stdpp Require Import pretty.
From S2P Require Import Prelude Protocol Errors Effects Threads Udp.

(** ** Keys *)

Lemma last_separator {A} (x : A) (l1 l2 m1 m2 : list A) :
  x ∉ m1 -> x ∉ m2 -> l1 ++ x :: m1 = l2 ++ x :: m2 -> l1 = l2 /\ m1 = m2.
Proof.
  intros H1 H2. revert l2. induction l1 as [|y l1 IH]; intros [|z l2]; simpl.
  - by intros [= ->].
  - intros [= <- ->]. destruct H1. apply elem_of_app. right. apply list_elem_of_here.
  - intros [= -> <-]. destruct H2. apply elem_of_app. right. apply list_elem_of_here.
  - intros [= -> E]. by destruct (IH l2 E) as [-> ->].
Qed.

Definition slash : Ascii.ascii := Ascii.Ascii true true true true false true false false. (* 47 *)

Lemma digit_no_slash n : pretty_N_char n <> slash.
Proof. unfold pretty_N_char. by repeat case_match. Qed.

Lemma pretty_N_no_slash n s :
  slash ∉ String.list_ascii_of_string s -> slash ∉ String.list_ascii_of_string (pretty_N_go n s).
Proof.
  revert s. induction (N.lt_wf_0 n) as [n _ IH]. intros s Hs. destruct (decide (0 < n)%N) as [Hn|Hn].
  - rewrite pretty_N_go_step by done. apply IH; [by apply N.div_lt|].
    simpl. intros [E|Hin]%elem_of_cons; [|done]. by apply (digit_no_slash (n `mod` 10)).
  - assert (n = 0%N) as -> by lia. by rewrite pretty_N_go_0.
Qed.

Lemma pretty_no_slash (z : Z) : slash ∉ String.list_ascii_of_string (pretty z).
Proof.
  assert (HN : forall p, slash ∉ String.list_ascii_of_string (pretty (Npos p))).
  { intros p. change (pretty (Npos p)) with (pretty_N_go (Npos p) ""). by apply pretty_N_no_slash, not_elem_of_nil. }
  destruct z as [|p|p]; [|apply HN|].
  - change (pretty 0) with "0". simpl. by intros [?|?%not_elem_of_nil]%elem_of_cons.
  - change (pretty (Zneg p)) with ("-" +:+ pretty (Npos p)). simpl. by intros [?|?%HN]%elem_of_cons.
Qed.

Lemma list_ascii_app (a b : string) :
  String.list_ascii_of_string (a +:+ b) = String.list_ascii_of_string a ++ String.list_ascii_of_string b.
Proof. induction a as [|x a IH]; [done|]. simpl. by f_equal. Qed.

Lemma list_ascii_inj a b : String.list_ascii_of_string a = String.list_ascii_of_string b -> a = b.
Proof. intros E. by rewrite <- (String.string_of_list_ascii_of_string a), E, String.string_of_list_ascii_of_string. Qed.

Lemma udpConnectionKey_inj a1 a2 s1 s2 :
  udpConnectionKey a1 s1 = udpConnectionKey a2 s2 -> a1 = a2 /\ s1 = s2.
Proof.
  unfold udpConnectionKey. intros E%(f_equal String.list_ascii_of_string). rewrite !list_ascii_app in E.
  destruct (last_separator slash _ _ _ _ (pretty_no_slash s1) (pretty_no_slash s2) E) as [H1 H2].
  split; [by apply list_ascii_inj|]. apply (inj pretty). by apply list_ascii_inj.
Qed.

Section Safety.
Variable cap : nat.
Abbreviation exec := (exec cap).
Implicit Types (s : UDPServer) (C : UDPConnection) (c : N).

(** ** The invariant *)

(** The datagrams that arrived for a session. *)
Definition for_session (addr : string) (session : Z) (x : string * list Z) : option (list Z) :=
  match DecodeUDPHeader x.2 with
  | Ok h => if bool_decide (x.1 = addr) && (u_SessionID h =? session) then Some x.2 else None
  | Err _ => None
  end.
Definition datagrams addr session (l : list (string * list Z)) : list (list Z) := omap (for_session addr session) l.
Definition payload (data : list Z) : list Z := drop (Z.to_nat UDPHeaderLen) data.

Definition stamped (session : Z) (x : Z * list Z) : Prop :=
  exists h data, EncodeUDPHeader (mkUDPHeader session (u64 x.1)) = Ok h /\ x.2 = h ++ data.

Record conn_ok s C : Prop := {
  k_fifo : taken C ++ receiveCh C = queued C;
  k_cap : (length (receiveCh C) <= receive_capacity)%nat;
  k_from : queued C `sublist_of` datagrams (remoteAddr C) (sessionID C) (arrived s);
  k_seen : processed C `sublist_of` (payload <$> taken C);
  k_stamped : Forall (stamped (sessionID C)) (emitted C);
  k_sorted : StronglySorted Z.lt (emitted C).*1;
  k_bound : Forall (fun x => 0 < x.1 <= sendSequence C) (emitted C);
  k_count : 0 <= sendSequence C;
  k_session : is_u 64 (sessionID C)
}.

Record inv s : Prop := {
  i_conns : forall c C, heap s !! c = Some C -> conn_ok s C;
  i_table : forall k c, connections s !! k = Some c ->
    exists C, heap s !! c = Some C /\ k = udpConnectionKey (remoteAddr C) (sessionID C);
  i_dict : forall a c, remoteAddrDict s !! a = Some c -> exists C, heap s !! c = Some C /\ remoteAddr C = a;
  i_open : forall c C, heap s !! c = Some C -> u_closed C = false -> remoteAddrDict s !! remoteAddr C = Some c;
  i_send : (length (sendChannel s) <= cap)%nat
}.

Lemma conn_ok_arrived s s' C : arrived s' = arrived s -> conn_ok s C -> conn_ok s' C.
Proof. intros E []. split; try done. by rewrite E. Qed.

(** ** What threads rely on *)

Record conn_le C C' : Prop := {
  l_addr : remoteAddr C' = remoteAddr C;
  l_session : sessionID C' = sessionID C;
  l_closed : u_closed C = true -> u_closed C' = true }.

Definition own (i : tid) s s' : Prop :=
  match i with
  | TServer =>
    arrived s' = arrived s /\
    (forall a c, remoteAddrDict s' !! a = Some c -> remoteAddrDict s !! a = Some c) /\
    forall c C', heap s' !! c = Some C' -> exists C, heap s !! c = Some C /\ queued C' = queued C
  | TReader c => forall C C', heap s !! c = Some C -> heap s' !! c = Some C' ->
      taken C' = taken C /\ processed C' = processed C
  | TWriter c => forall C C', heap s !! c = Some C -> heap s' !! c = Some C' ->
      sendSequence C' = sendSequence C /\ emitted C' = emitted C
  | TCaller _ => True
  end.

Record rely (i : tid) s s' : Prop := {
  r_heap : forall c C, heap s !! c = Some C -> exists C', heap s' !! c = Some C' /\ conn_le C C';
  r_own : own i s s'
}.

Lemma udp_conn_le_refl C : conn_le C C.
Proof. by split. Qed.
Lemma udp_conn_le_trans C1 C2 C3 : conn_le C1 C2 -> conn_le C2 C3 -> conn_le C1 C3.
Proof. intros [A1 S1 K1] [A2 S2 K2]. split; [congruence|congruence|auto]. Qed.

Lemma udp_rely_refl i s : rely i s s.
Proof.
  split; [eauto using udp_conn_le_refl|]. destruct i; simpl; [split_and!; eauto| | |done]; intros C C' H1 H2; by simplify_eq.
Qed.

Lemma udp_rely_trans i s1 s2 s3 : rely i s1 s2 -> rely i s2 s3 -> rely i s1 s3.
Proof.
  intros [H1 O1] [H2 O2]. split.
  - intros c C HC. destruct (H1 c C HC) as (Ca & HCa & L1), (H2 c Ca HCa) as (Cb & HCb & L2). eauto using udp_conn_le_trans.
  - destruct i as [|c|c|n]; simpl in *; [| | |done].
    + destruct O1 as (E1 & D1 & Q1), O2 as (E2 & D2 & Q2). split_and!; [congruence|auto|].
      intros c C3 HC3. destruct (Q2 c C3 HC3) as (C2 & HC2 & ->). auto.
    + intros C C3 HC HC3. destruct (H1 c C HC) as (C2 & HC2 & _).
      destruct (O1 C C2 HC HC2), (O2 C2 C3 HC2 HC3). split; congruence.
    + intros C C3 HC HC3. destruct (H1 c C HC) as (C2 & HC2 & _).
      destruct (O1 C C2 HC HC2), (O2 C2 C3 HC2 HC3). split; congruence.
Qed.

Abbreviation allowed := (allowed inv rely).
Abbreviation safe := (safe exec inv rely).

(** ** Steps that change one connection *)

Definition with_heap (h : gmap N UDPConnection) s : UDPServer :=
  mkUDPServer h (connections s) (remoteAddrDict s) (sendChannel s) (arrived s) (written s).

Lemma upd_udp_Some c f C s : heap s !! c = Some C -> upd_udp c f s = with_heap (<[c := f C]> (heap s)) s.
Proof. intros HC. unfold upd_udp. by rewrite (alter_Some_insert f _ _ C). Qed.

Lemma upd_udp_None c f s : heap s !! c = None -> upd_udp c f s = s.
Proof. intros HC. unfold upd_udp. rewrite alter_None_id by done. by destruct s. Qed.

Lemma udp_conn_write i c C C' s :
  inv s -> heap s !! c = Some C -> conn_ok s C' -> conn_le C C' ->
  (i <> TServer -> queued C' = queued C) ->
  (i <> TReader c -> taken C' = taken C /\ processed C' = processed C) ->
  (i <> TWriter c -> sendSequence C' = sendSequence C /\ emitted C' = emitted C) ->
  allowed i s (with_heap (<[c := C']> (heap s)) s).
Proof.
  intros [I1 I2 I3 I4 I5] HC Hok Hle Hq Hr Hw. pose proof Hle as [La Ls Lk].
  assert (Hto : forall c0 C0, heap s !! c0 = Some C0 ->
            exists C1, <[c:=C']> (heap s) !! c0 = Some C1 /\ conn_le C0 C1).
  { intros c0 C0 H0. destruct (decide (c = c0)) as [<-|Hne].
    - exists C'. rewrite lookup_insert_eq. split; [done|]. congruence.
    - exists C0. rewrite lookup_insert_ne by done. split; [done|apply udp_conn_le_refl]. }
  split.
  - split; simpl; [| | | |done].
    + intros c0 C0. rewrite lookup_insert_Some. intros [[_ <-]|[_ H0]]; apply (conn_ok_arrived s); done || eauto.
    + intros k c0 Hk. destruct (I2 k c0 Hk) as (C0 & H0 & ->). destruct (Hto c0 C0 H0) as (C1 & H1 & L1).
      exists C1. split; [done|]. by rewrite (l_addr _ _ L1), (l_session _ _ L1).
    + intros a c0 Ha. destruct (I3 a c0 Ha) as (C0 & H0 & <-). destruct (Hto c0 C0 H0) as (C1 & H1 & L1).
      exists C1. split; [done|apply L1].
    + intros c0 C0. rewrite lookup_insert_Some. intros [[<- <-]|[_ H0]] Hop; [|auto]. rewrite La. apply I4; [done|].
      destruct (u_closed C) eqn:E; [|done]. rewrite Lk in Hop; done.
  - intros j Hj. split; [done|]. destruct j as [|c0|c0|n]; simpl; [| | |done].
    + split_and!; [done|done|]. intros c0 C0. rewrite lookup_insert_Some. intros [[<- <-]|[_ H0]]; [|eauto].
      exists C. split; [done|]. apply Hq. congruence.
    + intros C0 C1 H0. rewrite lookup_insert_Some. intros [[<- <-]|[_ H1]]; [|by simplify_eq].
      simplify_eq. apply Hr. congruence.
    + intros C0 C1 H0. rewrite lookup_insert_Some. intros [[<- <-]|[_ H1]]; [|by simplify_eq].
      simplify_eq. apply Hw. congruence.
Qed.

(** The rule for a step that changes no log: loops, closing. *)
Lemma conn_quiet i c f s :
  inv s ->
  (forall C, remoteAddr (f C) = remoteAddr C /\ sessionID (f C) = sessionID C /\
     (u_closed C = true -> u_closed (f C) = true) /\ sendSequence (f C) = sendSequence C /\
     receiveCh (f C) = receiveCh C /\ queued (f C) = queued C /\ taken (f C) = taken C /\
     processed (f C) = processed C /\ emitted (f C) = emitted C) ->
  allowed i s (upd_udp c f s).
Proof.
  intros Hi Hf. destruct (heap s !! c) as [C|] eqn:HC.
  - rewrite (upd_udp_Some c f C) by done. destruct (Hf C) as (E1 & E2 & E3 & E4 & E5 & E6 & E7 & E8 & E9).
    apply (udp_conn_write i c C (f C)); try done. destruct (i_conns _ Hi _ _ HC).
    split; rewrite ?E1, ?E2, ?E4, ?E5, ?E6, ?E7, ?E8, ?E9; done.
  - rewrite upd_udp_None by done. split; [done|]. intros j _. apply udp_rely_refl.
Qed.

Lemma close_quiet i c err s : inv s -> allowed i s (upd_udp c (base_Close err) s).
Proof. intros Hi. apply conn_quiet; [done|]. intros C. unfold base_Close. by destruct (u_closed C) eqn:E. Qed.
Lemma loops_quiet i c r w s : inv s -> allowed i s (upd_udp c (set_loops r w) s).
Proof. intros Hi. by apply conn_quiet. Qed.

(** ** Closing *)

Definition known c s : Prop := is_Some (heap s !! c).
Definition shut c s : Prop := exists C, heap s !! c = Some C /\ u_closed C = true.

Lemma known_rely i c s s' : rely i s s' -> known c s -> known c s'.
Proof. intros R [C HC]. destruct (r_heap _ _ _ R c C HC) as (C' & HC' & _). by exists C'. Qed.
Lemma shut_rely i c s s' : rely i s s' -> shut c s -> shut c s'.
Proof.
  intros R (C & HC & Hk). destruct (r_heap _ _ _ R c C HC) as (C' & HC' & L). exists C'. split; [done|by apply L].
Qed.

Lemma close_shut c err s : known c s -> shut c (upd_udp c (base_Close err) s).
Proof.
  intros [C HC]. rewrite (upd_udp_Some _ _ C) by done. exists (base_Close err C). simpl.
  rewrite lookup_insert_eq. split; [done|]. unfold base_Close. by destruct (u_closed C) eqn:E.
Qed.

(** Removing touches the tables only. *)
Record removed (c : N) s s' : Prop := {
  d_heap : heap s' = heap s; d_arrived : arrived s' = arrived s; d_send : sendChannel s' = sendChannel s;
  d_conns : forall k c', connections s' !! k = Some c' -> connections s !! k = Some c';
  d_dict : forall a c', remoteAddrDict s' !! a = Some c' -> remoteAddrDict s !! a = Some c';
  d_keep : forall a c', c' <> c -> remoteAddrDict s !! a = Some c' -> remoteAddrDict s' !! a = Some c' }.

Lemma removed_spec c s : removed c s (removeConnection c s).
Proof.
  unfold removeConnection. destruct (heap s !! c) as [C|]; [|by split]. split; simpl; try done.
  - intros k c'. rewrite lookup_delete_Some. tauto.
  - intros a c'. case_bool_decide; [|done]. rewrite lookup_delete_Some. tauto.
  - intros a c' Hne Ha. case_bool_decide as Hd; [|done]. rewrite lookup_delete_ne; [done|]. intros <-. congruence.
Qed.

Lemma removed_allowed i c s s' : inv s -> shut c s -> removed c s s' -> allowed i s s'.
Proof.
  intros [I1 I2 I3 I4 I5] (C & HC & Hk) [E1 E2 E3 Hc Hd Hkeep]. split.
  - split; rewrite ?E1, ?E3; try done; [|eauto|eauto|].
    + intros c0 C0 H0. apply (conn_ok_arrived s); [done|eauto].
    + intros c0 C0 H0 Hop. apply Hkeep; [congruence|]. by apply I4.
  - intros j _. split; [rewrite E1; eauto using udp_conn_le_refl|]. destruct j; simpl; rewrite ?E1; [split_and!; eauto| | |done];
      intros C1 C2 H1 H2; by simplify_eq.
Qed.

(** Close by any goroutine, with what else it knows. *)
Lemma safe_Close i c err (P : UDPServer -> Prop) s :
  (forall s s', rely i s s' -> P s -> P s') ->
  (forall s, inv s -> P s -> P (upd_udp c (base_Close err) s)) ->
  (forall s s', removed c s s' -> P s -> P s') ->
  known c s -> P s -> safe i (Close c err) (fun s _ => shut c s /\ P s) s.
Proof.
  intros Hr Hb Hd Hk HP s1 e s2 r R1 I1 E1. simpl in E1. injection E1 as <- <-.
  apply (known_rely _ _ _ _ R1) in Hk. split; [by apply close_quiet|].
  pose proof (close_shut c err s1 Hk) as Hs. assert (HP2 : P (upd_udp c (base_Close err) s1)) by eauto.
  intros s3 e3 s4 r R3 I3 E3. simpl in E3. injection E3 as <- <-. apply (shut_rely _ _ _ _ R3) in Hs.
  pose proof (removed_spec c s3) as Hrem. split; [by apply (removed_allowed _ c)|]. split; [|eauto].
  destruct Hs as (C & HC & Hc). exists C. by rewrite (d_heap _ _ _ Hrem).
Qed.

Lemma safe_just_Close i c err s : known c s -> safe i (Close c err) anything s.
Proof.
  intros Hk. eapply safe_conseq; [by apply (safe_Close i c err (fun _ => True))|done].
Qed.

(** ** The read loop *)

(** The read loop of [c] took [d] and has not processed it. *)
Definition took c (d : list Z) s : Prop :=
  exists C init, heap s !! c = Some C /\ taken C = init ++ [d] /\ processed C `sublist_of` (payload <$> init).

Lemma took_rely c d s s' : rely (TReader c) s s' -> took c d s -> took c d s'.
Proof.
  intros R (C & init & HC & Ht & Hp). destruct (r_heap _ _ _ R c C HC) as (C' & HC' & _).
  destruct (r_own _ _ _ R C C' HC HC') as [E1 E2]. exists C', init. by rewrite E1, E2.
Qed.
Lemma took_known c d s : took c d s -> known c s.
Proof. intros (C & _ & HC & _). by exists C. Qed.

Lemma receive_allowed c C d rest s :
  inv s -> heap s !! c = Some C -> receiveCh C = d :: rest ->
  let s' := upd_udp c (set_queue rest (queued C) (taken C ++ [d])) s in
  allowed (TReader c) s s' /\ took c d s'.
Proof.
  intros Hi HC Hq s'. pose proof (i_conns _ Hi _ _ HC) as [K1 K2 K3 K4 K5 K6 K7 K8 K9]. subst s'.
  rewrite (upd_udp_Some _ _ C) by done. split.
  - apply (udp_conn_write _ c C); try done. rewrite Hq in K1, K2. split; simpl; try done.
    + by rewrite <- K1, <- app_assoc.
    + simpl in K2. lia.
    + rewrite fmap_app. by apply sublist_inserts_r.
  - eexists _, (taken C). simpl. by rewrite lookup_insert_eq.
Qed.

Lemma process_allowed c C d s :
  inv s -> heap s !! c = Some C -> took c d s ->
  allowed (TReader c) s (upd_udp c (set_processed (processed C ++ [payload d])) s).
Proof.
  intros Hi HC (C0 & init & H0 & Ht & Hp). simplify_eq.
  pose proof (i_conns _ Hi _ _ HC) as [K1 K2 K3 K4 K5 K6 K7 K8 K9]. rewrite (upd_udp_Some _ _ C) by done.
  apply (udp_conn_write _ c C); try done. split; simpl; try done. rewrite Ht, fmap_app. by apply sublist_app.
Qed.

Lemma safe_end_read i c err s : known c s -> safe i (do! EndRead c; Close c err) anything s.
Proof.
  intros Hk s1 e s2 r R1 I1 E1. apply (known_rely _ _ _ _ R1) in Hk. destruct Hk as [C HC]. simpl in E1.
  rewrite HC in E1. injection E1 as <- <-. split; [by apply loops_quiet|]. apply safe_just_Close.
  rewrite (upd_udp_Some _ _ C) by done. exists (set_loops false (writing C) C). simpl. by rewrite lookup_insert_eq.
Qed.

Lemma safe_readLoop c s : known c s -> safe (TReader c) (readLoop c) anything s.
Proof.
  intros Hk s1 e s2 r R1 I1 E1. apply (known_rely _ _ _ _ R1) in Hk. destruct Hk as [C HC]. simpl in E1. rewrite HC in E1. simpl in E1.
  assert (Hsplit : r = None /\ s2 = s1 \/ exists d rest, receiveCh C = d :: rest /\ r = Some d /\
            s2 = upd_udp c (set_queue rest (queued C) (taken C ++ [d])) s1).
  { destruct (o_addr e); [destruct (u_closed C); [injection E1 as <- <-; by left|done]|].
    destruct (receiveCh C) as [|d rest]; [done|]. injection E1 as <- <-. right. eauto. }
  destruct Hsplit as [[-> ->]|(d & rest & Hq & -> & ->)].
  - split; [split; [done|intros j _; apply udp_rely_refl]|]. apply safe_end_read. by exists C.
  - destruct (receive_allowed c C d rest s1 I1 HC Hq) as [Ha Ht]. split; [done|]. unfold onProcess.
    destruct (zlen d <? UDPHeaderLen); [by eapply safe_end_read, took_known|].
    intros s3 e3 s4 err R3 I3 E3. apply (took_rely _ _ _ _ R3) in Ht. simpl in E3.
    destruct (heap s3 !! c) as [C3|] eqn:H3; [|done]. injection E3 as <- <-.
    split; [by apply (process_allowed c C3 d)|]. destruct (o_err e3) as [err|]; [|done].
    apply safe_end_read. rewrite (upd_udp_Some _ _ C3) by done. eexists. simpl. apply lookup_insert_eq.
Qed.

(** ** The write loop *)

(** The write loop of [c] drew the number [n]. *)
Definition drew c n session s : Prop :=
  exists C, heap s !! c = Some C /\ sessionID C = session /\ sendSequence C = n /\ 0 < n /\ Forall (fun x => x.1 < n) (emitted C).

Lemma drew_rely c n session s s' : rely (TWriter c) s s' -> drew c n session s -> drew c n session s'.
Proof.
  intros R (C & HC & Hs & Hn & Hp & Hf). destruct (r_heap _ _ _ R c C HC) as (C' & HC' & L).
  destruct (r_own _ _ _ R C C' HC HC') as [E1 E2]. exists C'. rewrite E1, E2, (l_session _ _ L). done.
Qed.

Lemma draw_allowed c C s :
  inv s -> heap s !! c = Some C -> let s' := upd_udp c (set_sending (sendSequence C + 1) (emitted C)) s in
  allowed (TWriter c) s s' /\ drew c (sendSequence C + 1) (sessionID C) s'.
Proof.
  intros Hi HC s'. pose proof (i_conns _ Hi _ _ HC) as [K1 K2 K3 K4 K5 K6 K7 K8 K9]. subst s'.
  rewrite (upd_udp_Some _ _ C) by done. split.
  - apply (udp_conn_write _ c C); try done. split; simpl; try done; [|lia].
    eapply Forall_impl; [done|]. simpl. lia.
  - eexists. simpl. rewrite lookup_insert_eq. split_and!; try done; simpl; [lia|].
    eapply Forall_impl; [exact K7|]. simpl. lia.
Qed.

Lemma StronglySorted_snoc (l : list Z) n :
  StronglySorted Z.lt l -> Forall (fun x => x < n) l -> StronglySorted Z.lt (l ++ [n]).
Proof.
  intros Hs Hf. induction Hs as [|x l Hs IH Hx]; simpl; [repeat constructor|].
  inversion_clear Hf as [|? ? Hxn Hf']. constructor; [auto|]. apply Forall_app. split; [done|]. by constructor.
Qed.

Lemma send_allowed c C n h data s :
  inv s -> heap s !! c = Some C -> drew c n (sessionID C) s ->
  EncodeUDPHeader (mkUDPHeader (sessionID C) (u64 n)) = Ok h -> (length (sendChannel s) < cap)%nat ->
  let s' := upd_udp c (set_sending (sendSequence C) (emitted C ++ [(n, h ++ data)])) s in
  allowed (TWriter c) s
    (mkUDPServer (heap s') (connections s') (remoteAddrDict s') (sendChannel s' ++ [mkPacket (h ++ data) (remoteAddr C)])
       (arrived s') (written s')).
Proof.
  intros Hi HC (C0 & H0 & _ & Hn & Hp & Hf) Hh Hl. simplify_eq. rewrite (upd_udp_Some _ _ C) by done. simpl.
  pose proof (i_conns _ Hi _ _ HC) as [K1 K2 K3 K4 K5 K6 K7 K8 K9].
  set (C' := set_sending (sendSequence C) (emitted C ++ [(sendSequence C, h ++ data)]) C).
  destruct (udp_conn_write (TWriter c) c C C' s) as [[J1 J2 J3 J4 J5] Hr]; try done.
  - split; simpl; try done.
    + apply Forall_app. split; [done|]. constructor; [|done]. by exists h, data.
    + rewrite fmap_app. apply StronglySorted_snoc; [done|]. by apply Forall_fmap.
    + apply Forall_app. split; [done|]. constructor; [simpl; lia|done].
  - split; [|intros j Hj; destruct (Hr j Hj) as [R1 R2]; split; [done|by destruct j]].
    split; simpl in *; try done; [|rewrite length_app; simpl; lia].
    intros c0 C0 H0. by apply (conn_ok_arrived (with_heap (<[c := C']> (heap s)) s)); [|apply J1 with c0].
Qed.

Lemma safe_write_one c data s : known c s -> safe (TWriter c) (write_one c data) anything s.
Proof.
  intros Hk s1 e s2 r R1 I1 E1. apply (known_rely _ _ _ _ R1) in Hk. destruct Hk as [C HC]. simpl in E1.
  rewrite HC in E1. injection E1 as <- <-. destruct (draw_allowed c C s1 I1 HC) as [Ha Hd]. split; [done|].
  revert Hd. generalize (sendSequence C + 1), (sessionID C). intros n session Hd. clear Ha. simpl.
  assert (Hlog : forall what s, safe (TWriter c) (do! LogError what; Ret tt) anything s).
  { intros what s3 s4 e4 s5 r _ I4 [= <- <-]. split; [|done]. split; [done|]. intros j _. apply udp_rely_refl. }
  destruct (EncodeUDPHeader _) as [h|err] eqn:Eh; [|apply Hlog].
  intros s3 e3 s4 err R3 I3 E3. apply (drew_rely _ _ _ _ _ R3) in Hd. pose proof Hd as (C3 & H3 & <- & _).
  simpl in E3. rewrite H3 in E3. simpl in E3. destruct (_ <? _)%nat eqn:El; injection E3 as <- <-; zbool.
  - split; [|done]. apply Nat.ltb_lt in El. by apply send_allowed.
  - split; [split; [done|intros j _; apply udp_rely_refl]|]. apply Hlog.
Qed.

Lemma safe_write_end c err s : known c s -> safe (TWriter c) (write_end c err) anything s.
Proof.
  intros Hk s1 e s2 r R1 I1 E1. apply (known_rely _ _ _ _ R1) in Hk. destruct Hk as [C HC]. simpl in E1.
  rewrite HC in E1. injection E1 as <- <-. split; [by apply loops_quiet|]. apply safe_just_Close.
  rewrite (upd_udp_Some _ _ C) by done. eexists. simpl. apply lookup_insert_eq.
Qed.

(** ** The server's goroutine *)

Section Transmit.
Variables (before : list (string * list Z)) (addr : string) (bytes : list Z) (header : UDPHeader).
Hypothesis decoded : DecodeUDPHeader bytes = Ok header.
Hypothesis session_range : is_u 64 (u_SessionID header).

(** The datagram has arrived and was not queued yet. *)
Definition handling s : Prop :=
  arrived s = before ++ [(addr, bytes)] /\
  forall c C, heap s !! c = Some C -> queued C `sublist_of` datagrams (remoteAddr C) (sessionID C) before.

Lemma handling_rely s s' : rely TServer s s' -> handling s -> handling s'.
Proof.
  intros R [Ha Hq]. destruct (r_own _ _ _ R) as (Ea & _ & Hh). split; [congruence|].
  intros c C' HC'. destruct (Hh c C' HC') as (C & HC & ->). destruct (r_heap _ _ _ R c C HC) as (C2 & HC2 & L).
  simplify_eq. rewrite (l_addr _ _ L), (l_session _ _ L). by apply (Hq c).
Qed.

(** Changes of loops and states keep it. *)
Lemma handling_upd c f s :
  (forall C, remoteAddr (f C) = remoteAddr C /\ sessionID (f C) = sessionID C /\ queued (f C) = queued C) ->
  handling s -> handling (upd_udp c f s).
Proof.
  intros Hf [Ha Hq]. split; [done|]. simpl. intros c' C'. destruct (decide (c = c')) as [<-|Hne].
  - rewrite lookup_alter_eq. destruct (heap s !! c) as [C|] eqn:HC; [|done]. intros [= <-].
    destruct (Hf C) as (-> & -> & ->). by apply (Hq c).
  - rewrite lookup_alter_ne by done. by apply Hq.
Qed.

Lemma base_Close_same err C :
  remoteAddr (base_Close err C) = remoteAddr C /\ sessionID (base_Close err C) = sessionID C /\
  queued (base_Close err C) = queued C.
Proof. unfold base_Close. by destruct (u_closed C). Qed.

Lemma handling_removed c s s' : removed c s s' -> handling s -> handling s'.
Proof. intros [E1 E2 _ _ _ _] [Ha Hq]. split; [by rewrite E2|by rewrite E1]. Qed.

(** The connection of the datagram's session. *)
Definition target c s : Prop :=
  exists C, heap s !! c = Some C /\ remoteAddr C = addr /\ sessionID C = u_SessionID header.
Lemma target_rely i c s s' : rely i s s' -> target c s -> target c s'.
Proof.
  intros R (C & HC & Ha & Hs). destruct (r_heap _ _ _ R c C HC) as (C' & HC' & L). exists C'.
  by rewrite (l_addr _ _ L), (l_session _ _ L).
Qed.
Lemma target_upd c c0 f s :
  (forall C, remoteAddr (f C) = remoteAddr C /\ sessionID (f C) = sessionID C /\ queued (f C) = queued C) ->
  target c s -> target c (upd_udp c0 f s).
Proof.
  intros Hf (C & HC & Ha & Hs). simpl. destruct (decide (c0 = c)) as [->|Hne].
  - exists (f C). simpl. rewrite lookup_alter_eq, HC. destruct (Hf C) as (-> & -> & _). done.
  - exists C. simpl. by rewrite lookup_alter_ne.
Qed.

Definition ready_for c s : Prop := handling s /\ target c s.
Lemma ready_rely c s s' : rely TServer s s' -> ready_for c s -> ready_for c s'.
Proof. intros R [H1 H2]. split; [by eapply handling_rely|by eapply target_rely]. Qed.
Lemma ready_upd c c0 f s :
  (forall C, remoteAddr (f C) = remoteAddr C /\ sessionID (f C) = sessionID C /\ queued (f C) = queued C) ->
  ready_for c s -> ready_for c (upd_udp c0 f s).
Proof. intros Hf [H1 H2]. split; [by apply handling_upd|by apply target_upd]. Qed.

Lemma datagrams_snoc a ss : datagrams a ss (before ++ [(addr, bytes)]) =
  datagrams a ss before ++ (if bool_decide (addr = a) && (u_SessionID header =? ss) then [bytes] else []).
Proof.
  unfold datagrams. rewrite omap_app. f_equal. unfold for_session. simpl. rewrite decoded. by destruct (_ && _).
Qed.

Lemma recv_allowed c s : inv s -> ready_for c s -> allowed TServer s (upd_udp c (recv bytes) s).
Proof.
  intros Hi [[Ha Hq] (C & HC & Hr & Hs)]. rewrite (upd_udp_Some _ _ C) by done.
  pose proof (i_conns _ Hi _ _ HC) as K. pose proof K as [K1 K2 K3 K4 K5 K6 K7 K8 K9].
  unfold recv. destruct (_ <? _)%nat eqn:El; [apply Nat.ltb_lt in El|].
  - apply (udp_conn_write _ c C); try done. split; simpl; try done.
    + by rewrite app_assoc, K1.
    + rewrite length_app. simpl. lia.
    + rewrite Ha, datagrams_snoc, bool_decide_true by done. rewrite Hs, Z.eqb_refl. simpl.
      apply sublist_app; [|done]. rewrite <- Hs. by apply (Hq c).
  - by apply (udp_conn_write _ c C).
Qed.

Lemma safe_recv c s : ready_for c s -> safe TServer (do! Recv c bytes; Ret tt) anything s.
Proof.
  intros Hr s1 e s2 r R1 I1 [= <- <-]. split; [|done]. apply recv_allowed; [done|]. by eapply ready_rely.
Qed.

(** runStart keeps what the server knows. *)
Lemma safe_runStart c s : ready_for c s -> safe TServer (runStart c) (fun s _ => ready_for c s) s.
Proof.
  intros Hr s1 e s2 r R1 I1 E1. apply (ready_rely _ _ _ R1) in Hr. simpl in E1.
  destruct (heap s1 !! c) as [C1|] eqn:H1; [|done]. injection E1 as <- <-. split; [by apply loops_quiet|].
  apply (ready_upd c c (set_loops (reading C1) true)) in Hr; [|done]. clear H1.
  intros s3 e3 s4 err R3 I3 E3. apply (ready_rely _ _ _ R3) in Hr. simpl in E3. injection E3 as <- <-.
  split; [split; [done|intros j _; apply udp_rely_refl]|]. clear R3 I1. destruct (o_err e3) as [err|].
  - eapply safe_bind; [apply (safe_Close _ _ _ (ready_for c))| |].
    + apply ready_rely.
    + intros s4 _. apply ready_upd, base_Close_same.
    + intros s4 s5 Hrem [Hh (C & HC & ?)]. split; [by eapply handling_removed|]. exists C. by rewrite (d_heap _ _ _ Hrem).
    + destruct Hr as [_ (C & HC & _)]. by exists C.
    + done.
    + done.
    + intros s4 [] _ [_ Hr4]. exact Hr4.
  - intros s5 e5 s6 r R5 I5 E5. apply (ready_rely _ _ _ R5) in Hr. simpl in E5.
    destruct (heap s5 !! c) as [C5|] eqn:H5; [|done]. injection E5 as <- <-. split; [by apply loops_quiet|].
    by apply (ready_upd c c (set_loops true (writing C5))).
Qed.

(** No open connection has the address. *)
Definition vacant s : Prop := forall c, remoteAddrDict s !! addr = Some c -> shut c s.
Lemma vacant_rely s s' : rely TServer s s' -> vacant s -> vacant s'.
Proof.
  intros R Hv c Hc. destruct (r_own _ _ _ R) as (_ & Hd & _). eapply shut_rely; [done|]. by apply Hv, Hd.
Qed.

Lemma insert_allowed c s :
  inv s -> vacant s -> handling s -> heap s !! c = None ->
  let s' := insertConnection c addr (u_SessionID header) s in allowed TServer s s' /\ ready_for c s'.
Proof.
  intros [I1 I2 I3 I4 I5] Hv [Ha Hq] Hc s'. assert (Hne : forall c' C', heap s !! c' = Some C' -> c <> c') by congruence.
  split; [split|split].
  - split; simpl; [| | | |done].
    + intros c' C'. rewrite lookup_insert_Some. intros [[_ <-]|[_ H']]; [|by apply (conn_ok_arrived s); [|eauto]].
      split; simpl; try done; [apply Nat.le_0_l|apply sublist_nil_l|constructor].
    + intros k c'. rewrite lookup_insert_Some. intros [[<- <-]|[_ Hk]].
      * eexists. by rewrite lookup_insert_eq.
      * destruct (I2 k c' Hk) as (C' & H' & E). exists C'. rewrite lookup_insert_ne by eauto. done.
    + intros a c'. rewrite lookup_insert_Some. intros [[<- <-]|[_ Hk]].
      * eexists. by rewrite lookup_insert_eq.
      * destruct (I3 a c' Hk) as (C' & H' & E). exists C'. rewrite lookup_insert_ne by eauto. done.
    + intros c' C'. rewrite lookup_insert_Some. intros [[<- <-]|[_ H']] Hop; [apply lookup_insert_eq|].
      specialize (I4 c' C' H' Hop). rewrite lookup_insert_ne; [done|]. intros E. rewrite <- E in I4.
      destruct (Hv c' I4) as (C2 & HC2 & Hk). congruence.
  - intros j Hj. split.
    + intros c' C' H'. exists C'. simpl. rewrite lookup_insert_ne by eauto. split; [done|apply udp_conn_le_refl].
    + destruct j as [|c'|c'|n]; simpl; [done| | |done]; intros C1 C2 H1; rewrite lookup_insert_ne by eauto; intros H2; by simplify_eq.
  - split; [done|]. simpl. intros c' C'. rewrite lookup_insert_Some. intros [[_ <-]|[_ H']]; [apply sublist_nil_l|by apply (Hq c')].
  - eexists. simpl. by rewrite lookup_insert_eq.
Qed.

Lemma safe_open s :
  vacant s -> handling s ->
  safe TServer (conn <-! Insert addr (u_SessionID header); err <~ runStart conn; do! Recv conn bytes; Ret tt) anything s.
Proof.
  intros Hv Hh s1 e s2 conn R1 I1 E1. apply (vacant_rely _ _ R1) in Hv. apply (handling_rely _ _ R1) in Hh.
  simpl in E1. destruct (heap s1 !! o_addr e) eqn:Hc; [done|]. injection E1 as <- <-.
  destruct (insert_allowed (o_addr e) s1 I1 Hv Hh Hc) as [Ha Hr]. split; [done|].
  eapply safe_bind; [by apply safe_runStart|apply Ha|]. intros s3 err _ Hr3. by apply safe_recv.
Qed.

Lemma safe_transmit s : handling s -> safe TServer (transmit addr bytes) anything s.
Proof.
  intros Hh. unfold transmit. rewrite decoded. cbn zeta. intros s1 e s2 tables R1 I1 E1.
  apply (handling_rely _ _ R1) in Hh. simpl in E1. injection E1 as <- <-.
  split; [split; [done|intros j _; apply udp_rely_refl]|].
  destruct (connections s1 !! _) as [conn|] eqn:Hc.
  - apply safe_recv. split; [done|]. destruct (i_table _ I1 _ _ Hc) as (C & HC & E).
    apply udpConnectionKey_inj in E as [Ea Es]. exists C. by split_and!.
  - destruct (remoteAddrDict s1 !! addr) as [cur|] eqn:Hcur.
    + set (P := fun s => handling s /\ forall c, remoteAddrDict s !! addr = Some c -> c = cur).
      eapply safe_bind; [apply (safe_Close _ _ _ P)|done|].
      * intros s3 s4 R [H1 H2]. split; [by eapply handling_rely|]. destruct (r_own _ _ _ R) as (_ & Hd & _). auto.
      * intros s3 _ [H1 H2]. split; [by apply handling_upd; [apply base_Close_same|]|done].
      * intros s3 s4 Hrem [H1 H2]. split; [by eapply handling_removed|]. intros c Hc'. by apply H2, (d_dict _ _ _ Hrem).
      * destruct (i_dict _ I1 _ _ Hcur) as (C & HC & _). by exists C.
      * split; [done|]. congruence.
      * intros s3 [] _ [Hs [H1 H2]]. apply safe_open; [|done]. intros c Hc'. by rewrite (H2 c Hc').
    + apply safe_open; [|done]. intros c. congruence.
Qed.
End Transmit.

(** ** Every run *)

Abbreviation pool_ok := (pool_ok exec inv rely).
Abbreviation step := (step cap).
Abbreviation run := (run cap).

(** What is read from a socket is bytes. *)
Definition proper (a : act) : Prop := match a with Datagram _ bytes => bytes_ok bytes | _ => True end.

Lemma header_session bytes h : bytes_ok bytes -> DecodeUDPHeader bytes = Ok h -> is_u 64 (u_SessionID h).
Proof.
  unfold DecodeUDPHeader. intros Hb. destruct (_ <? _) eqn:E; [done|]. zbool. cbn zeta.
  destruct (_ =? 0); [done|]. intros [= <-]. simpl. unfold is_u.
  assert (Hs : bytes_ok (slice 0 8 bytes)) by (by apply Forall_take, Forall_drop).
  pose proof (be_get_range _ Hs) as Hr. replace (zlen (slice 0 8 bytes)) with 8 in Hr; [done|].
  unfold slice, zlen, UDPHeaderLen in *. rewrite length_take, length_drop. lia.
Qed.

Lemma udp_start_ok : pool_ok start.
Proof. split; [|done]. split; simpl; try done. apply Nat.le_0_l. Qed.

Lemma arrive_inv s addr bytes :
  inv s -> inv (mkUDPServer (heap s) (connections s) (remoteAddrDict s) (sendChannel s) (arrived s ++ [(addr, bytes)]) (written s)).
Proof.
  intros [I1 I2 I3 I4 I5]. split; try done. intros c C HC. destruct (I1 c C HC). split; try done. simpl.
  unfold datagrams. rewrite omap_app. by apply sublist_inserts_r.
Qed.

Lemma udp_start_thread i s p w :
  pool_ok w -> heap s = heap (shared w) -> (i <> TServer -> s = shared w) -> inv s -> safe i p anything s ->
  pool_ok (start_thread i s p w).
Proof.
  intros Hw Eh Es Hi Hp. apply pool_start; [apply udp_rely_trans|done|done| |done].
  intros j Hj _. split; [rewrite Eh; eauto using udp_conn_le_refl|].
  destruct (decide (i = TServer)) as [->|Hne]; [|rewrite (Es Hne); apply udp_rely_refl].
  destruct j; simpl; [done| | |done]; rewrite Eh; intros C C' H1 H2; by simplify_eq.
Qed.

Lemma udp_step_ok w a : proper a -> pool_ok w -> pool_ok (step w a).
Proof.
  intros Hp Hw. pose proof (pool_inv _ _ _ _ Hw) as Hi.
  destruct a as [addr bytes|c|c data|c err|n c err| |i e]; simpl; unfold idle.
  - destruct (finished TServer w); [|done]. apply udp_start_thread; try done; [by apply arrive_inv|].
    destruct (DecodeUDPHeader bytes) as [h|err] eqn:Ed.
    + apply (safe_transmit (arrived (shared w)) addr bytes h); [done|by eapply header_session|].
      split; [done|]. intros c C HC. by apply (k_from _ _ (i_conns _ Hi c C HC)).
    + unfold transmit. rewrite Ed. intros s1 e1 s2 r _ I1 [= <- <-]. split; [|done]. split; [done|]. intros j _. apply udp_rely_refl.
  - destruct (heap (shared w) !! c) as [C|] eqn:HC; [|done]. destruct (_ && _); [|done].
    apply udp_start_thread; try done. apply safe_readLoop. by exists C.
  - destruct (heap (shared w) !! c) as [C|] eqn:HC; [|done]. destruct (_ && _); [|done].
    apply udp_start_thread; try done. apply safe_write_one. by exists C.
  - destruct (heap (shared w) !! c) as [C|] eqn:HC; [|done]. destruct (_ && _); [|done].
    apply udp_start_thread; try done. apply safe_write_end. by exists C.
  - destruct (heap (shared w) !! c) as [C|] eqn:HC; [|done]. destruct (finished (TCaller n) w); [|done].
    apply udp_start_thread; try done. apply safe_just_Close. by exists C.
  - destruct (sendChannel (shared w)) as [|p rest] eqn:Es; [done|]. apply pool_env; [apply udp_rely_trans|done| |].
    + destruct Hi as [I1 I2 I3 I4 I5]. rewrite Es in I5. split; simpl in *; try done; [|lia].
      intros c C HC. by apply (conn_ok_arrived (shared w)); [|eauto].
    + intros j _. split; [eauto using udp_conn_le_refl|].
      destruct j; simpl; [split_and!; eauto| | |done]; intros C C' H1 H2; by simplify_eq.
  - apply pool_step; [apply udp_rely_refl|apply udp_rely_trans|done].
Qed.

Lemma udp_run_inv acts : Forall proper acts -> inv (shared (run start acts)).
Proof.
  unfold run. assert (Hw := udp_start_ok). revert Hw. generalize start.
  induction acts as [|a acts IH]; intros w Hw Ha; [apply (pool_inv _ _ _ _ Hw)|].
  inversion_clear Ha as [|? ? Hp Ha']. by apply IH; [apply udp_step_ok|].
Qed.

(** C28: However datagrams, closes and the loops of all connections interleave, a
    UDP server has at most one open connection per remote address, and its address
    table leads to it. *)
Theorem one_open_connection_per_address acts c1 c2 C1 C2 :
  Forall proper acts ->
  let s := shared (run start acts) in
  heap s !! c1 = Some C1 -> heap s !! c2 = Some C2 -> u_closed C1 = false -> u_closed C2 = false ->
  remoteAddr C1 = remoteAddr C2 -> c1 = c2 /\ remoteAddrDict s !! remoteAddr C1 = Some c1.
Proof.
  intros Ha s H1 H2 O1 O2 E. pose proof (udp_run_inv acts Ha) as Hi. fold s in Hi.
  pose proof (i_open _ Hi _ _ H1 O1) as D1. pose proof (i_open _ Hi _ _ H2 O2) as D2. rewrite <- E in D2.
  split; [congruence|done].
Qed.

(** C29: Each UDP connection processes payloads of datagrams that came from its
    address for its session, in order and each at most once, and neither its queue
    nor the server's send queue exceeds its capacity. *)
Theorem datagrams_reach_their_session acts c C :
  Forall proper acts ->
  let s := shared (run start acts) in
  heap s !! c = Some C ->
  processed C `sublist_of` (payload <$> datagrams (remoteAddr C) (sessionID C) (arrived s)) /\
  (length (receiveCh C) <= receive_capacity)%nat /\ (length (sendChannel s) <= cap)%nat.
Proof.
  intros Ha s HC. pose proof (udp_run_inv acts Ha) as Hi. fold s in Hi.
  destruct (i_conns _ Hi _ _ HC) as [K1 K2 K3 K4 _ _ _ _ _]. split_and!; [|done|apply Hi].
  etrans; [exact K4|]. apply fmap_sublist. etrans; [|exact K3]. rewrite <- K1. by apply sublist_inserts_r.
Qed.

(** The packets of a connection carry its session and increasing numbers. *)
Theorem packets_are_numbered acts c C :
  Forall proper acts ->
  heap (shared (run start acts)) !! c = Some C ->
  StronglySorted Z.lt (emitted C).*1 /\
  forall n p, (n, p) ∈ emitted C -> 0 < n < 2 ^ 64 -> DecodeUDPHeader p = Ok (mkUDPHeader (sessionID C) n).
Proof.
  intros Ha HC. destruct (i_conns _ (udp_run_inv acts Ha) _ _ HC) as [_ _ _ _ K5 K6 _ _ K9]. split; [done|].
  intros n p Hin Hn. rewrite Forall_forall in K5. destruct (K5 _ Hin) as (h & data & Eh & Ep). simpl in Eh, Ep.
  assert (Hu : is_u 64 n) by (unfold is_u; lia). rewrite u64_small in Eh by done.
  pose proof (udp_header_roundtrip (mkUDPHeader (sessionID C) n) data K9 Hu) as Hrt. rewrite Eh in Hrt.
  rewrite Ep. apply Hrt.
Qed.
End Safety.
