(* ===== verification/UdpDemo.v ===== *)
(** * The UDP server at work

    One client with two sessions, and a connection that loses its entry to the
    late Close of the one before it. *)

From S2P Require Import Prelude Protocol Errors Effects Threads Udp UdpSafety.

Definition plain (addr : N) : oracle := mkOracle None addr.
Definition go (i : tid) (addr : N) (n : nat) : list act := repeat (Step i (plain addr)) n.

(** A datagram of a session, with its number and payload. *)
Definition datagram (session seq : Z) (data : list Z) : list Z := be_put 8 session ++ be_put 8 seq ++ data.
(** The server reads it; a new connection gets the address [c]. *)
Definition reads (c : N) (session : Z) (data : list Z) : list act :=
  Datagram "10.0.0.9:99" (datagram session 1 data) :: go TServer c 8.
Definition processes (c : N) : list act := Read c :: go (TReader c) 1 2.
Definition writes (c : N) (data : list Z) : list act := Write c data :: go (TWriter c) 0 2.

Definition two_sessions : list act :=
  reads 1 7 [10] ++ reads 1 7 [11] ++ processes 1 ++ processes 1 ++ writes 1 [20] ++ writes 1 [21] ++
  reads 2 8 [12] ++ processes 2 ++ [Sent].

Example two_sessions_state :
  let s := shared (run 4 start two_sessions) in
  (fun C => (u_closed C, processed C, (emitted C).*1)) <$> heap s !! 1%N = Some (true, [[10]; [11]], [1; 2]) /\
  (fun C => (u_closed C, processed C)) <$> heap s !! 2%N = Some (false, [[12]]) /\
  map_to_list (remoteAddrDict s) = [("10.0.0.9:99", 2%N)] /\ map_to_list (connections s) = [("10.0.0.9:99/8", 2%N)] /\
  p_data <$> written s = [datagram 7 1 [20]] /\ p_data <$> sendChannel s = [datagram 7 2 [21]].
Proof. vm_compute. done. Qed.

Lemma two_sessions_proper : Forall proper two_sessions.
Proof. repeat constructor; vm_compute; done. Qed.

Example one_open_connection_per_address_witness :
  Forall proper two_sessions /\
  exists C, heap (shared (run 4 start two_sessions)) !! 2%N = Some C /\ u_closed C = false /\
    remoteAddrDict (shared (run 4 start two_sessions)) !! remoteAddr C = Some 2%N.
Proof.
  split; [exact two_sessions_proper|]. eexists. split_and!; [vm_compute; reflexivity..|].
  eapply (one_open_connection_per_address 4 two_sessions 2 2); [exact two_sessions_proper|vm_compute; reflexivity..].
Defined.

Example datagrams_reach_their_session_witness :
  Forall proper two_sessions /\
  exists C, heap (shared (run 4 start two_sessions)) !! 1%N = Some C /\
    processed C `sublist_of` (payload <$> datagrams "10.0.0.9:99" 7 (arrived (shared (run 4 start two_sessions)))).
Proof.
  split; [exact two_sessions_proper|]. eexists. split; [vm_compute; reflexivity|].
  apply (datagrams_reach_their_session 4 two_sessions 1); [exact two_sessions_proper|vm_compute; reflexivity].
Defined.

Example packets_are_numbered_witness :
  Forall proper two_sessions /\
  exists C, heap (shared (run 4 start two_sessions)) !! 1%N = Some C /\
    (2, datagram 7 2 [21]) ∈ emitted C /\ DecodeUDPHeader (datagram 7 2 [21]) = Ok (mkUDPHeader (sessionID C) 2).
Proof.
  split; [exact two_sessions_proper|]. eexists. split; [vm_compute; reflexivity|].
  assert (Hin : (2, datagram 7 2 [21]) ∈ [(1, datagram 7 1 [20]); (2, datagram 7 2 [21])])
    by (apply list_elem_of_further, list_elem_of_here).
  split; [exact Hin|].
  eapply (fun H => proj2 (packets_are_numbered 4 two_sessions 1 _ two_sessions_proper H) 2); [vm_compute; reflexivity|exact Hin|lia].
Defined.

(** The handler closes connection 1; a datagram of the same session makes
    connection 2; then the write loop of 1 ends, and its Close deletes the entry
    of 2. The next datagram of the session resets 2 and makes 3. *)
Definition late_close : list act :=
  reads 1 7 [10] ++ CallClose 0 1 None :: go (TCaller 0) 0 2 ++ reads 2 7 [11] ++
  EndWriting 1 None :: go (TWriter 1) 0 3.

Example late_close_drops_successor :
  let s := shared (run 4 start late_close) in
  u_closed <$> heap s !! 2%N = Some false /\ remoteAddrDict s !! "10.0.0.9:99" = Some 2%N /\ map_to_list (connections s) = [] /\
  let s := shared (run 4 start (late_close ++ reads 3 7 [12])) in
  (fun C => (u_closed C, closeErr C)) <$> heap s !! 2%N = Some (true, Some ErrConnectionReset) /\
  map_to_list (connections s) = [("10.0.0.9:99/7", 3%N)].
Proof. vm_compute. done. Qed.
