(* ===== verification/Consul.v ===== *)
(** * cluster/member/consul: membership on Consul

    options.go and common.go (what a node registers and what is read back),
    registration.go (joining, leaving, keep-alive), watcher.go (the catalog
    watch, one worker per service, and the caches they fill), registry.go and
    subscription_center.go. Consul answers as it likes; encoding/json is a
    parameter with its round-trip law, and durations are nanoseconds. *)

From stdpp Require Import pretty.
From S2P Require Import Prelude Errors Effects Placement Cluster.

(** ** options.go *)

Definition defaultAddress : string := "127.0.0.1:8500".
Definition defaultTTL : Z := 5 * 10 ^ 9.
Definition defaultDeregisterAfter : Z := 30 * 10 ^ 9.

Definition defaultWatchWaitTime : Z := 10 * 10 ^ 9.
Definition defaultWatchRetryDelay : Z := 2 * 10 ^ 9.

Record Options := mkOptions {
  op_Address : string; op_Scheme : string; op_Token : string; op_Datacenter : string;
  op_TTL : Z; op_DeregisterAfter : Z }.
Definition normalizeOptions (o : Options) : Options :=
  mkOptions (if bool_decide (op_Address o = "") then defaultAddress else op_Address o)
    (op_Scheme o) (op_Token o) (op_Datacenter o)
    (if op_TTL o <=? 2 then defaultTTL else op_TTL o)
    (if op_DeregisterAfter o <=? 0 then defaultDeregisterAfter else op_DeregisterAfter o).
Definition DefaultOptions : Options := normalizeOptions (mkOptions "" "" "" "" 0 0).

(** ** Addresses: [net.SplitHostPort], [net.JoinHostPort], [strconv.Atoi] *)

Definition chr (n : N) : Ascii.ascii := Ascii.ascii_of_N n.
Definition str (l : list Ascii.ascii) : string := String.string_of_list_ascii l.

Definition addr_error (s reason : string) : gerr := ESentinel ("address " +:+ s +:+ ": " +:+ reason).

(** The part before the last [c] and the part after it. *)
Fixpoint split_last (c : Ascii.ascii) (l : list Ascii.ascii) : option (list Ascii.ascii * list Ascii.ascii) :=
  match l with
  | [] => None
  | x :: l =>
    match split_last c l with
    | Some (a, b) => Some (x :: a, b)
    | None => if bool_decide (x = c) then Some ([], l) else None
    end
  end.

Definition SplitHostPort (hostport : string) : res gerr (string * string) :=
  let l := String.list_ascii_of_string hostport in
  let colon := chr 58 in let open := chr 91 in let close := chr 93 in
  match split_last colon l with
  | None => Err (addr_error hostport "missing port in address")
  | Some (before, port) =>
    let found :=
      match before with
      | x :: inner =>
        if bool_decide (x = open) then
          (* the first ']' must be just before the last ':' *)
          match list_find (eq close) l with
          | None => Err (addr_error hostport "missing ']' in address")
          | Some (e, _) =>
            if (S e =? length l)%nat then Err (addr_error hostport "missing port in address")
            else if (S e =? length before)%nat then Ok (take (pred e) inner, drop 1 l, drop (S e) l)
            else if bool_decide (l !! S e = Some colon) then Err (addr_error hostport "too many colons in address")
            else Err (addr_error hostport "missing port in address")
          end
        else if bool_decide (colon ∈ before) then Err (addr_error hostport "too many colons in address")
        else Ok (before, l, l)
      | [] => Ok ([], l, l)
      end in
    match found with
    | Err e => Err e
    | Ok (host, j, k) =>
      if bool_decide (open ∈ j) then Err (addr_error hostport "unexpected '[' in address")
      else if bool_decide (close ∈ k) then Err (addr_error hostport "unexpected ']' in address")
      else Ok (str host, str port)
    end
  end.

Definition JoinHostPort (host port : string) : string :=
  if contains (chr 58) host then "[" +:+ host +:+ "]:" +:+ port else host +:+ ":" +:+ port.

(** Decimal with an optional sign, within an int64. *)
Definition digits (l : list Ascii.ascii) : option Z :=
  match l with
  | [] => None
  | _ => foldl (fun acc c => n ← acc; let d := Z.of_N (Ascii.N_of_ascii c) - 48 in
                            if (0 <=? d) && (d <=? 9) then Some (10 * n + d) else None) (Some 0) l
  end.
Definition Atoi (s : string) : option Z :=
  let l := String.list_ascii_of_string s in
  n ← match l with
      | x :: r => if bool_decide (x = chr 45) then Z.opp <$> digits r
                  else if bool_decide (x = chr 43) then digits r else digits l
      | [] => None
      end;
  if (- 2 ^ 63 <=? n) && (n <? 2 ^ 63) then Some n else None.

(** ** common.go *)

Definition nodeInfoMetaKey : string := "node_info".
Definition serviceCheckID (serviceID : string) : string := "service:" +:+ serviceID.

Definition splitAddress (address : string) : res gerr (string * Z) :=
  let address := TrimSpace address in
  if bool_decide (address = "") then Ok ("", 0)
  else
    match SplitHostPort address with
    | Err e => Err (wrap ("invalid node address " +:+ address +:+ ": ") e)
    | Ok (host, port) =>
      match Atoi port with
      | Some portNumber =>
        if (portNumber <? 0) || (portNumber >? 65535) then Err (ESentinel ("invalid node port " +:+ port))
        else Ok (host, portNumber)
      | None => Err (ESentinel ("invalid node port " +:+ port))
      end
    end.

(** The Consul API's records, as far as the code uses them. *)
Record AgentService := mkAgentService {
  s_ID : string; s_Service : string; s_Address : string; s_Port : Z; s_Meta : option (gmap string string) }.
Record ServiceEntry := mkServiceEntry {
  e_Service : option AgentService; e_Checks : list (option string) (* the checks' status *) }.
Record Registration := mkRegistration {
  r_ID : string; r_Name : string; r_Address : string; r_Port : Z; r_Meta : gmap string string;
  r_CheckID : string; r_TTL : Z; r_DeregisterAfter : Z }.

Definition HealthPassing : string := "passing".
Definition HealthWarning : string := "warning".
Definition HealthCritical : string := "critical".

Fixpoint status_loop (checks : list (option string)) (status : string) : string :=
  match checks with
  | [] => status
  | None :: checks => status_loop checks status
  | Some s :: checks =>
    if bool_decide (s = HealthCritical) then HealthCritical
    else if bool_decide (s = HealthWarning) then status_loop checks HealthWarning
    else if bool_decide (s = HealthPassing)
         then status_loop checks (if bool_decide (status = "") then HealthPassing else status)
    else status_loop checks status
  end.
Definition serviceStatus (entry : ServiceEntry) : string := status_loop (e_Checks entry) "".

(** encoding/json on a node: an empty map is omitted, and strings must be UTF-8. *)
Class NodeJson := {
  json_Marshal : Member -> res gerr string;
  json_Unmarshal : string -> res gerr Member
}.
Definition json_norm (m : Member) : Member :=
  mkMember (ID m) (Name m) (Address m) (Status m) (StartedAt m) (Version m)
    (match Meta m with Some meta => if decide (meta = ∅) then None else Some meta | None => None end).
Class LawfulNodeJson (utf8 : Member -> Prop) `{NodeJson} := {
  json_roundtrip m s : utf8 m -> json_Marshal m = Ok s -> s <> "" /\ json_Unmarshal s = Ok (json_norm m) }.

Definition with_Meta (m : Member) (meta : option (gmap string string)) : Member :=
  mkMember (ID m) (Name m) (Address m) (Status m) (StartedAt m) (Version m) meta.
Definition with_Address (m : Member) (a : string) : Member :=
  mkMember (ID m) (Name m) a (Status m) (StartedAt m) (Version m) (Meta m).
Definition with_Status (m : Member) (s : string) : Member :=
  mkMember (ID m) (Name m) (Address m) s (StartedAt m) (Version m) (Meta m).

Section Common.
Context `{NodeJson}.

Definition entry_instance (entry : ServiceEntry) (service : AgentService) : Member :=
  let address := if s_Port service >? 0 then JoinHostPort (s_Address service) (pretty (s_Port service))
                 else s_Address service in
  let node := mkMember (s_ID service) (s_Service service) address "" 0 "" (s_Meta service) in
  let node :=
    match default ∅ (s_Meta service) !! nodeInfoMetaKey with
    | Some encoded =>
      if bool_decide (encoded = "") then node
      else
        let node := match json_Unmarshal encoded with
                    | Ok stored => if bool_decide (Address stored = "") then with_Address stored address else stored
                    | Err _ => node
                    end in
        with_Meta node (delete nodeInfoMetaKey <$> Meta node)
    | None => node
    end in
  let status := serviceStatus entry in
  if bool_decide (status = "") then node else with_Status node status.

Fixpoint instances_loop (entries : list (option ServiceEntry)) (instances : gmap string Member) : gmap string Member :=
  match entries with
  | [] => instances
  | entry :: entries =>
    match entry with
    | Some e =>
      match e_Service e with
      | Some service => instances_loop entries (<[s_ID service := entry_instance e service]> instances)
      | None => instances_loop entries instances
      end
    | None => instances_loop entries instances
    end
  end.
Definition entriesToInstances (entries : list (option ServiceEntry)) : gmap string Member := instances_loop entries ∅.

Definition instanceToRegistration (service : Member) (options : Options) : res gerr Registration :=
  match splitAddress (Address service) with
  | Err err => Err err
  | Ok (address, port) =>
    let meta := delete nodeInfoMetaKey <$> Meta service in
    match json_Marshal (with_Meta service meta) with
    | Err err => Err (wrap "marshal node info: " err)
    | Ok payload =>
      Ok (mkRegistration (ID service) (Name service) address port (<[nodeInfoMetaKey := payload]> (default ∅ meta))
            (serviceCheckID (ID service)) (op_TTL options) (op_DeregisterAfter options))
    end
  end.
End Common.

(** ** registration.go *)

Inductive kop : Set -> Type :=
| ServiceRegister (reg : Registration) : kop (option gerr)
| ServiceDeregister (id : string) : kop (option gerr)
| StartKeeper (id : string) : kop bool (* under keepersLock: whether one was started *)
| StopKeeper (id : string) : kop bool  (* ... and stopped *)
| UpdateTTL (checkID : string) : kop (option gerr)
| Cancelled (id : string) : kop bool.

Definition join `{NodeJson} (options : Options) (instance : Member) : prog kop (option gerr) :=
  match Member_Validate instance with
  | Some err => Ret (Some (wrap "consul service join err:" err))
  | None =>
    match instanceToRegistration instance options with
    | Err err => Ret (Some (wrap "consul service join err:" err))
    | Ok serviceReg =>
      err <-! ServiceRegister serviceReg;
      match err with
      | Some err => Ret (Some (wrap "consul service join err:" err))
      | None => do! StartKeeper (ID instance); Ret None
      end
    end
  end.

Definition leave (serviceId : string) : prog kop (option gerr) :=
  stopped <-! StopKeeper serviceId;
  if negb (stopped : bool) then Ret None
  else err <-! ServiceDeregister serviceId; Ret err.

(** One tick of [runKeeper], every half TTL. *)
Definition keepAlive (serviceId : string) : prog kop unit :=
  if bool_decide (serviceId = "") then Ret tt
  else
    done <-! Cancelled serviceId;
    if (done : bool) then Ret tt else do! UpdateTTL (serviceCheckID serviceId); Ret tt.

(** The table of keepers; a keeper is the context of its goroutine, and [alive]
    are the contexts not cancelled. *)
Record registration := mkRegistrationTable { keepers : gmap string N; alive : gset N; k_next : N }.
Definition newRegistration : registration := mkRegistrationTable ∅ ∅ 0.

Definition start_keeper (id : string) (r : registration) : registration * bool :=
  match keepers r !! id with
  | Some _ => (r, false)
  | None => (mkRegistrationTable (<[id := k_next r]> (keepers r)) ({[k_next r]} ∪ alive r) (N.succ (k_next r)), true)
  end.
Definition stop_keeper (id : string) (r : registration) : registration * bool :=
  match keepers r !! id with
  | None => (r, false)
  | Some k => (mkRegistrationTable (delete id (keepers r)) (alive r ∖ {[k]}) (k_next r), true)
  end.

(** ** watcher.go *)

Abbreviation instances := (gmap string Member).

(** Where a loop is: at its select, in a query, sleeping after a failure, or gone. *)
Inductive phase := AtSelect | Querying | Sleeping | Ended.
#[export] Instance phase_eq_dec : EqDecision phase.
Proof. solve_decision. Defined.

(** [w_last] is the last answer of Consul to the worker. *)
Record worker := mkWorker {
  w_service : string; w_cancelled : bool; w_phase : phase; w_index : Z; w_last : option instances }.

Record watcher := mkWatcher {
  caches : gmap string instances;
  works : gmap string N;
  workers : gmap N worker;
  next : N;
  ctx_done : bool;
  c_phase : phase;
  c_index : Z;
  catalog : list string (* the last answer of the catalog *)
}.
Definition newWatcher : watcher := mkWatcher ∅ ∅ ∅ 0 false AtSelect 0 [].

Definition by_name (a b : string) : Prop := str_leb a b = true.
#[export] Instance by_name_dec : RelDecision by_name.
Proof. intros a b. unfold by_name. apply _. Defined.

(** [services], after the answer of the catalog: the keys of a map. *)
Definition services (answer : list string) : list string :=
  merge_sort by_name (List.filter (fun s => negb (bool_decide (s = "")) && negb (bool_decide (s = "consul"))) answer).

Definition start_worker (service : string) (w : watcher) : watcher :=
  match works w !! service with
  | Some _ => w
  | None =>
    mkWatcher (caches w) (<[service := next w]> (works w))
      (<[next w := mkWorker service false AtSelect 0 None]> (workers w)) (N.succ (next w))
      (ctx_done w) (c_phase w) (c_index w) (catalog w)
  end.
Definition cancel_worker (W : worker) : worker :=
  mkWorker (w_service W) true (w_phase W) (w_index W) (w_last W).

(** The services gone from the catalog. *)
Definition gone (current : list string) (w : watcher) : list (string * N) :=
  List.filter (fun x => negb (bool_decide (x.1 ∈ current))) (map_to_list (works w)).
Definition stop_worker (x : string * N) (w : watcher) : watcher :=
  mkWatcher (caches w) (delete x.1 (works w)) (alter cancel_worker x.2 (workers w)) (next w)
    (ctx_done w) (c_phase w) (c_index w) (catalog w).

Definition reconcileServices (current : list string) (w : watcher) : watcher :=
  let w := foldl (fun w service => start_worker service w) w current in
  foldl (fun w x => stop_worker x w) w (gone current w).

Definition at_phase (p : phase) (i : Z) (l : option instances) (W : worker) : worker :=
  mkWorker (w_service W) (w_cancelled W) p i l.
Definition set_worker (n : N) (W : worker) (c : gmap string instances) (w : watcher) : watcher :=
  mkWatcher c (works w) (<[n := W]> (workers w)) (next w) (ctx_done w) (c_phase w) (c_index w) (catalog w).
Definition set_catalog (p : phase) (i : Z) (l : list string) (w : watcher) : watcher :=
  mkWatcher (caches w) (works w) (workers w) (next w) (ctx_done w) p i l.

Definition stopped (w : watcher) (W : worker) : bool := w_cancelled W || ctx_done w.

(** The deferred function of watchService. *)
Definition end_worker (n : N) (W : worker) (w : watcher) : watcher :=
  set_worker n (at_phase Ended (w_index W) (w_last W) W) (delete (w_service W) (caches w)) w.

Inductive wact :=
| Cancel
| CatalogStep                                        (* select, then the query *)
| CatalogAnswer (a : res gerr (list string * option Z))
| CatalogWake (timer : bool)
| WorkerStep (n : N)
| WorkerAnswer (n : N) (a : res gerr (list (option ServiceEntry) * option Z))
| WorkerWake (n : N) (timer : bool).

Section Watcher.
Context `{NodeJson}.
(** Whether a new worker of a service waits for the former one to end: it does
    not, but see [caches_follow_consul]. *)
Variable orderly : bool.

Definition former_ended (w : watcher) (current : list string) : bool :=
  forallb (fun x : N * worker => bool_decide (w_phase x.2 = Ended) || bool_decide (is_Some (works w !! w_service x.2))
                                 || negb (bool_decide (w_service x.2 ∈ current)))
    (map_to_list (workers w)).

(** One step of each loop: its select (and the query), the answer, the sleep. *)
Definition watchCatalog (w : watcher) (a : wact) : watcher :=
  match a with
  | CatalogStep =>
    if bool_decide (c_phase w = AtSelect)
    then set_catalog (if ctx_done w then Ended else Querying) (c_index w) (catalog w) w else w
  | CatalogAnswer a =>
    if bool_decide (c_phase w = Querying) then
      match a with
      | Err _ => set_catalog Sleeping (c_index w) (catalog w) w
      | Ok (answer, index) =>
        let current := services answer in
        if orderly && negb (former_ended w current) then w
        else reconcileServices current (set_catalog AtSelect (default (c_index w) index) current w)
      end
    else w
  | CatalogWake timer =>
    if bool_decide (c_phase w = Sleeping) then
      if timer then set_catalog AtSelect (c_index w) (catalog w) w
      else if ctx_done w then set_catalog Ended (c_index w) (catalog w) w else w
    else w
  | _ => w
  end.

Definition watchService (n : N) (W : worker) (w : watcher) (a : wact) : watcher :=
  match a with
  | WorkerStep _ =>
    if bool_decide (w_phase W = AtSelect) then
      if stopped w W then end_worker n W w
      else set_worker n (at_phase Querying (w_index W) (w_last W) W) (caches w) w
    else w
  | WorkerAnswer _ a =>
    if bool_decide (w_phase W = Querying) then
      match a with
      | Err _ => set_worker n (at_phase Sleeping (w_index W) (w_last W) W) (caches w) w
      | Ok (entries, index) =>
        let answer := entriesToInstances entries in
        set_worker n (at_phase AtSelect (default (w_index W) index) (Some answer) W)
          (<[w_service W := answer]> (caches w)) w
      end
    else w
  | WorkerWake _ timer =>
    if bool_decide (w_phase W = Sleeping) then
      if timer then set_worker n (at_phase AtSelect (w_index W) (w_last W) W) (caches w) w
      else if stopped w W then end_worker n W w else w
    else w
  | _ => w
  end.

Definition watch_step (w : watcher) (a : wact) : watcher :=
  match a with
  | Cancel => mkWatcher (caches w) (works w) (workers w) (next w) true (c_phase w) (c_index w) (catalog w)
  | CatalogStep | CatalogAnswer _ | CatalogWake _ => watchCatalog w a
  | WorkerStep n | WorkerAnswer n _ | WorkerWake n _ =>
    match workers w !! n with Some W => watchService n W w a | None => w end
  end.
Definition watch_run (acts : list wact) : watcher := foldl watch_step newWatcher acts.
End Watcher.

(** ** registry.go *)

(** What a map is ranged over as: [order] lists its entries. *)
Definition Members (order : list (string * Member)) : gmap string Member :=
  foldl (fun ret x => <[ID x.2 := x.2]> ret) ∅ order.
Fixpoint MemberById (order : list (string * instances)) (serviceId : string) : Member * bool :=
  match order with
  | [] => (zero_member, false)
  | (_, value) :: order =>
    match value !! serviceId with Some m => (m, true) | None => MemberById order serviceId end
  end.
Definition AllMembers (order : list (string * list (string * Member))) : list Member := order ≫= fun x => x.2.*2.

(** ** subscription_center.go *)

Definition ErrSubscriptionCenterClosed : gerr := ESentinel "consul subscription center is closed".
Definition ErrSubscriberNil : gerr := ESentinel "consul subscriber is nil".

Section Subscriptions.
Context {S : Type}.

Record subscriptionEntry := mkSubscription { sub_id : Z; sub_service : string; subscriber : S }.
Record SubscriptionCenter := mkCenter { nextID : Z; sc_closed : bool; subscribers : gmap Z subscriptionEntry }.
Definition NewSubscriptionCenter : SubscriptionCenter := mkCenter 0 false ∅.

Definition Subscribe (c : SubscriptionCenter) (service : string) (s : option S) : SubscriptionCenter * res gerr Z :=
  match s with
  | None => (c, Err ErrSubscriberNil)
  | Some s =>
    if sc_closed c then (c, Err ErrSubscriptionCenterClosed)
    else
      let id := u64 (nextID c + 1) in
      (mkCenter id false (<[id := mkSubscription id service s]> (subscribers c)), Ok id)
  end.
Definition Unsubscribe (c : SubscriptionCenter) (id : Z) : SubscriptionCenter * bool :=
  match subscribers c !! id with
  | None => (c, false)
  | Some _ => (mkCenter (nextID c) (sc_closed c) (delete id (subscribers c)), true)
  end.
(** Whom Notify calls, each once, in the order of the range. *)
Definition Notify (order : list (Z * subscriptionEntry)) : list S := (fun x => subscriber x.2) <$> order.
Definition SubscriberCount (c : SubscriptionCenter) : nat := size (subscribers c).
Definition Close (c : SubscriptionCenter) : SubscriptionCenter := mkCenter (nextID c) true ∅.
End Subscriptions.
