(* ===== verification/Bootstrap.v ===== *)
(** * node/node.go, node/runtime.go, node/options.go, cluster/bootstrap: building a node

    [New] and what it calls. An object is described by what its constructor put
    into it: cluster.NewWithOptions, actor.NewSystemWithOptions, logicalactor.New,
    nettransport.NewTransportWithOptions and consul.NewWithOptions. Parts that the
    caller injects are of arbitrary types. Then actormesh.go's [Run]. *)

From S2P Require Import Prelude Support Component Node Placement Conn Cluster Consul.

Section bootstrap.
(** Zap's hooks, node behaviours, injected parts, directories, components. *)
Context {Hook Behavior GivenSystem GivenCluster GivenRouter Directory Comp : Type}.

(** ** Objects *)

(** [glog.Log()]; a logger that [glog.New] made; [With] a component's name. *)
Inductive logger := GlobalLog | Made (l : Logger Hook) | WithComponent (l : logger) (component : string).

(** The handlers given to transports: the closure of [initializeCluster], which
    reads [n.system] when it is called. *)
Inductive handler := ToSystem.

(** [Options.logger] of consul, nettransport and actor: the global logger when
    none is given. cluster.NewWithOptions takes the global logger with its name. *)
Definition consul_logger (given : option logger) : logger := match given with None => GlobalLog | Some l => l end.
Definition transport_logger (given : option logger) : logger := match given with None => GlobalLog | Some l => l end.
Definition actor_logger (given : option logger) : logger := match given with None => GlobalLog | Some l => l end.
Definition cluster_logger (given : option logger) : logger :=
  match given with None => WithComponent GlobalLog "cluster" | Some l => l end.

Record Registry := mkRegistry { r_options : Consul.Options; r_logger : logger }.
(** consul.NewWithOptions *)
Definition registry_NewWithOptions (o : Consul.Options) (lg : option logger) : Registry :=
  mkRegistry (normalizeOptions o) (consul_logger lg).

Record Transport := mkTransport {
  t_localNodeID : string; t_listenAddr : string; t_handler : option handler;
  t_config : CommonConfig * Z; t_logger : logger }.
(** nettransport.NewTransportWithOptions *)
Definition DefaultTCPConfig : CommonConfig * Z := (Conn.mkConfig false 0 None 0 0 0 0 0, 0).
Definition tcpConfig (given : option (CommonConfig * Z)) : CommonConfig * Z :=
  match given with None => DefaultTCPConfig | Some c => c end.
Definition NewTransportWithOptions (localNodeID listenAddr : string) (tcp : option (CommonConfig * Z))
    (h : option handler) (lg : option logger) : Transport :=
  mkTransport localNodeID listenAddr h
    (let '(c, cap) := tcpConfig tcp in TCPConfig_Normalize c cap) (transport_logger lg).

(** nettransport/transport.go: what a transport gives its server and its clients,
    an address with its configuration, and the handler of every connection. *)
Record transportHandler := mkHandler {
  localId : string; businessHandler : option handler; heartbeatInterval : Z; h_logger : logger }.
Definition newConfig (t : Transport) (address : string) : string * (CommonConfig * Z) := (address, t_config t).
Definition newHandler (t : Transport) (business : option handler) : transportHandler :=
  mkHandler (t_localNodeID t) business (Z.quot (HeartbeatTimeout (t_config t).1) 2) (t_logger t).
(** [listen]: the server it starts in a goroutine; it reports no error. *)
Definition listen (t : Transport) (address : string) (business : option handler)
  : (string * (CommonConfig * Z)) * transportHandler := (newConfig t address, newHandler t business).

Record Cluster := mkCluster {
  c_node : Member; c_registry : option Registry; c_transport : option Transport;
  c_handler : option handler; c_logger : logger }.
(** cluster.NewWithOptions *)
Definition cluster_NewWithOptions (info : Member) (reg : option Registry) (h : option handler)
    (tr : option Transport) (lg : option logger) : Cluster :=
  mkCluster info reg tr h (cluster_logger lg).

(** cluster/bootstrap/bootstrap.go *)
Definition NewDefaultRegistry (lg : option logger) : Registry := registry_NewWithOptions (Consul.mkOptions "" "" "" "" 0 0) lg.
Definition NewDefaultTransportAPI (nodeId address : string) (h : option handler) (lg : option logger) : Transport :=
  NewTransportWithOptions nodeId address None h lg.
Record BootOptions := mkBoot {
  b_NodeInfo : Member; b_Handler : option handler; b_Logger : option logger;
  b_Registry : option Registry; b_Transport : option Transport }.
Definition NewDefaultCluster (options : BootOptions) : Cluster :=
  let registry := match b_Registry options with Some r => r | None => NewDefaultRegistry (b_Logger options) end in
  let transportImpl := match b_Transport options with
                       | Some t => t
                       | None => NewDefaultTransportAPI (Cluster.ID (b_NodeInfo options)) (Address (b_NodeInfo options))
                                   (b_Handler options) (b_Logger options)
                       end in
  cluster_NewWithOptions (b_NodeInfo options) (Some registry) (b_Handler options) (Some transportImpl) (b_Logger options).

(** The interfaces ClusterAPI, SystemAPI, ActorRouterAPI. *)
Inductive ClusterAPI := GivenC (c : GivenCluster) | MadeC (c : Cluster).
Record System := mkSystem { s_nodeID : string; s_sender : option ClusterAPI; s_logger : logger }.
Inductive SystemAPI := GivenS (s : GivenSystem) | MadeS (s : System).
(** actor.NewSystemWithOptions *)
Definition NewSystemWithOptions (nodeID : string) (sender : option ClusterAPI) (lg : option logger) : System :=
  mkSystem nodeID sender (WithComponent (actor_logger lg) "actor").
Record Router := mkRouter {
  rt_local : NodeInfo; rt_system : option SystemAPI; rt_discovery : option ClusterAPI (* through ActorNodeAdapter *);
  rt_directory : option Directory; rt_logger : option logger }.
Inductive RouterAPI := GivenR (r : GivenRouter) | MadeR (r : Router).

(** ** options.go *)

Record Options := mkOptions {
  NodeInfo_ : Member; o_Logger : Config; o_Behavior : option Behavior; PanicHook : option Hook;
  o_System : option GivenSystem; o_Cluster : option GivenCluster; ActorRouter : option GivenRouter;
  ActorDirectory : option Directory; o_Components : list (option Comp) }.
Variable DefaultNodeBehavior : Behavior.

Definition normalize (o : Options) : Options :=
  mkOptions (NodeInfo_ o) (o_Logger o)
    (match o_Behavior o with None => Some DefaultNodeBehavior | b => b end)
    (PanicHook o) (o_System o) (o_Cluster o) (ActorRouter o) (ActorDirectory o) (o_Components o).

Inductive booterr := ErrIdEmpty | ErrNameEmpty | ErrBehaviorNil | ErrNodeLogger (e : logerr).
Definition validate (o : Options) : option booterr :=
  if bool_decide (Cluster.ID (NodeInfo_ o) = "") then Some ErrIdEmpty
  else if bool_decide (Cluster.Name (NodeInfo_ o) = "") then Some ErrNameEmpty
  else match o_Behavior o with None => Some ErrBehaviorNil | Some _ => None end.

(** ** node.go *)

Record Node := mkNode {
  node : Member; options : Options; n_system : option SystemAPI; n_cluster : option ClusterAPI;
  n_router : option RouterAPI; n_logger : option logger; n_phase : phase_t }.

Definition set_options (n : Node) (o : Options) : Node :=
  mkNode (node n) o (n_system n) (n_cluster n) (n_router n) (n_logger n) (n_phase n).
Definition set_logger (n : Node) (l : logger) : Node :=
  mkNode (node n) (options n) (n_system n) (n_cluster n) (n_router n) (Some l) (n_phase n).
Definition set_cluster (n : Node) (c : ClusterAPI) : Node :=
  mkNode (node n) (options n) (n_system n) (Some c) (n_router n) (n_logger n) (n_phase n).
Definition set_system (n : Node) (s : SystemAPI) : Node :=
  mkNode (node n) (options n) (Some s) (n_cluster n) (n_router n) (n_logger n) (n_phase n).
Definition set_router (n : Node) (r : RouterAPI) : Node :=
  mkNode (node n) (options n) (n_system n) (n_cluster n) (Some r) (n_logger n) (n_phase n).

Definition Info (n : Node) : Member := node n.
Definition GetOptions (n : Node) : Options := options n.
Definition GetSystem (n : Node) : option SystemAPI := n_system n.
Definition GetCluster (n : Node) : option ClusterAPI := n_cluster n.
Definition GetActorRouter (n : Node) : option RouterAPI := n_router n.
Definition Logger (n : Node) : option logger := n_logger n.

(** What os.MkdirAll answers for the directory of a log file. *)
Variable mkdir : string -> option Z.

Definition initializeLogger (n : Node) : res booterr logger :=
  match Support.New (o_Logger (options n))
          [("node_id", Cluster.ID (Info n)); ("node_kind", Cluster.Name (Info n))] (PanicHook (options n)) mkdir with
  | Err e => Err (ErrNodeLogger e)
  | Ok l => Ok (Made l)
  end.

Definition initializeCluster (n : Node) : ClusterAPI :=
  match o_Cluster (options n) with
  | Some c => GivenC c
  | None => MadeC (NewDefaultCluster (mkBoot (Info n) (Some ToSystem) (n_logger n) None None))
  end.

Definition initializeSystem (n : Node) (cluster : ClusterAPI) : SystemAPI :=
  match o_System (options n) with
  | Some s => GivenS s
  | None => MadeS (NewSystemWithOptions (Cluster.ID (Info n)) (Some cluster) (n_logger n))
  end.

Definition initializeActorRoute (n : Node) (cluster : ClusterAPI) (system : SystemAPI) : RouterAPI :=
  match ActorRouter (options n) with
  | Some r => GivenR r
  | None => MadeR (mkRouter (newLogicalActorNode (Info n)) (Some system) (Some cluster)
                     (ActorDirectory (options n)) (n_logger n))
  end.

Definition bootstrapNode (n : Node) : res booterr Node :=
  let n := set_options n (normalize (options n)) in
  match validate (options n) with
  | Some err => Err err
  | None =>
    match initializeLogger n with
    | Err err => Err err
    | Ok logger =>
      let n := set_logger n logger in
      let cluster := initializeCluster n in
      let n := set_cluster n cluster in
      let system := initializeSystem n cluster in
      let n := set_system n system in
      Ok (set_router n (initializeActorRoute n cluster system))
    end
  end.

Definition started_at (info : Member) (now : Z) : Member :=
  mkMember (Cluster.ID info) (Cluster.Name info) (Address info) (Status info) now (Version info) (Meta info).

Definition New (o : Options) (now : Z) : res booterr Node :=
  bootstrapNode (mkNode (started_at (NodeInfo_ o) now) o None None None None phaseNew).

(** The closure given to the cluster, called on the node: a nil system panics. *)
Inductive called := NilSystem | CallsOnMessage (s : SystemAPI) (nodeID : string) (data : list Z).
Definition call_handler (n : Node) (h : handler) (nodeID : string) (data : list Z) : called :=
  match h, n_system n with
  | ToSystem, Some s => CallsOnMessage s nodeID data
  | ToSystem, None => NilSystem
  end.

(** ** What New builds *)

(** The cluster part: the transport listens at the node's address under its id,
    and what it receives goes to the node's system; with what the cluster was
    given its Init succeeds. *)
Definition cluster_wired (n : Node) (c : Cluster) : Prop :=
  c_node c = node n /\
  (exists t h, c_transport c = Some t /\ t_localNodeID t = Cluster.ID (node n) /\ t_listenAddr t = Address (node n) /\
     t_handler t = Some h /\ c_handler c = Some h /\
     forall id data, exists s, n_system n = Some s /\ call_handler n h id data = CallsOnMessage s id data) /\
  (exists r, c_registry c = Some r /\ r_options r = DefaultOptions) /\
  init_checks (Cluster.NewWithOptions (c_node c) (bool_decide (is_Some (c_registry c)))
                 (bool_decide (is_Some (c_transport c))) (bool_decide (is_Some (c_handler c)))) = None.

(** What is normalised stays as it is: the server normalises the transport's
    configuration a second time. *)
Lemma TCPConfig_Normalize_idem c cap :
  let '(c1, cap1) := TCPConfig_Normalize c cap in TCPConfig_Normalize c1 cap1 = (c1, cap1).
Proof.
  unfold TCPConfig_Normalize, Normalize. destruct c as [enc hb codec mi mo ch hs wt]. cbn.
  assert (Hpos : forall x d, 0 < d -> let y := if x <=? 0 then d else x in 0 < y /\ (if y <=? 0 then d else y) = y).
  { intros x d Hd y. assert (0 < y) by (unfold y; case_match; zbool; lia). split; [done|].
    destruct (y <=? 0) eqn:E; zbool; [lia|done]. }
  assert (Hs : 0 < second) by done. assert (Hk : 0 < KB) by done.
  destruct (Hpos mi (32 * KB)) as [_ ->]; [lia|].
  destruct (Hpos mo (32 * KB)) as [_ ->]; [lia|]. destruct (Hpos ch 1024) as [_ ->]; [lia|].
  destruct (Hpos hs (second * 5)) as [_ ->]; [lia|]. destruct (Hpos wt (second * 3)) as [_ ->]; [lia|].
  f_equal; [f_equal|].
  - repeat case_match; zbool; lia.
  - repeat case_match; zbool; lia.
Qed.

(** Every connection of a transport sends heartbeats, two in the time after which
    the other end, configured alike, gives a silent connection up. *)
Lemma heartbeats_come_in_time id address tcp h lg target business :
  let '((_, (c, cap)), th) := listen (NewTransportWithOptions id address tcp h lg) target business in
  0 < heartbeatInterval th /\ 2 * heartbeatInterval th <= HeartbeatTimeout c /\ TCPConfig_Normalize c cap = (c, cap).
Proof.
  unfold listen, newConfig, newHandler, NewTransportWithOptions. cbn [t_config heartbeatInterval].
  destruct (tcpConfig tcp) as [c cap]. pose proof (TCPConfig_Normalize_idem c cap) as Hi.
  destruct (TCPConfig_Normalize c cap) as [c1 cap1] eqn:E. cbn [fst]. injection E as E _.
  assert (Hh : second <= HeartbeatTimeout c1) by (rewrite <- E; cbn [HeartbeatTimeout Normalize]; lia).
  unfold second in Hh. rewrite Z.quot_div_nonneg by lia. split; [|split; [|done]].
  - apply Z.div_str_pos. lia.
  - by apply Z.mul_div_le.
Qed.

(** The parts of a node, each as it was injected or wired to the others. *)
Definition wired (o : Options) (n : Node) : Prop :=
  match o_Cluster o with
  | Some c => n_cluster n = Some (GivenC c)
  | None => exists c, n_cluster n = Some (MadeC c) /\ cluster_wired n c
  end /\
  match o_System o with
  | Some s => n_system n = Some (GivenS s)
  | None => exists s, n_system n = Some (MadeS s) /\ s_nodeID s = Cluster.ID (node n) /\ s_sender s = n_cluster n
  end /\
  match ActorRouter o with
  | Some r => n_router n = Some (GivenR r)
  | None => exists r, n_router n = Some (MadeR r) /\ rt_local r = newLogicalActorNode (node n) /\
      rt_system r = n_system n /\ rt_discovery r = n_cluster n /\ rt_directory r = ActorDirectory o /\
      rt_logger r = n_logger n
  end.

(** New builds a node whose parts are wired to each other, or refuses an empty id
    or name, a level that does not exist, or a log directory that cannot be made. *)
Theorem New_wires_the_node o now :
  match New o now with
  | Ok n => node n = started_at (NodeInfo_ o) now /\ options n = normalize o /\ n_phase n = phaseNew /\ is_Some (n_logger n) /\
      is_Some (o_Behavior (options n)) /\ wired o n
  | Err ErrIdEmpty => Cluster.ID (NodeInfo_ o) = ""
  | Err ErrNameEmpty => Cluster.ID (NodeInfo_ o) <> "" /\ Cluster.Name (NodeInfo_ o) = ""
  | Err ErrBehaviorNil => False
  | Err (ErrNodeLogger (ErrInvalidLevel level)) => level = ToLower (Level (o_Logger o)) /\ level ∉ levels.*1
  | Err (ErrNodeLogger (ErrMkdir code)) => exists path, mkdir path = Some code
  | Err (ErrNodeLogger _) => False
  end.
Proof.
  unfold New, bootstrapNode, validate. cbn [options set_options normalize NodeInfo_ o_Behavior].
  case_bool_decide as Hid; [done|]. case_bool_decide as Hname; [done|].
  assert (Hb : exists b, match o_Behavior o with None => Some DefaultNodeBehavior | b => b end = Some b)
    by (destruct (o_Behavior o); eauto).
  destruct Hb as [b Eb]. rewrite Eb. unfold initializeLogger. simpl.
  pose proof (New_refuses_levels_only (o_Logger o)
    [("node_id", Cluster.ID (NodeInfo_ o)); ("node_kind", Cluster.Name (NodeInfo_ o))] (PanicHook o) mkdir) as Hl.
  destruct (Support.New _ _ _ _) as [l|[]]; simpl; try (by destruct Hl); eauto; [|by destruct Hl as (? & _ & ?)].
  split; [done|]. split; [done|]. split; [done|]. split; [by eexists|]. split; [rewrite Eb; by eexists|].
  unfold wired, initializeCluster, initializeSystem, initializeActorRoute. simpl. split_and!.
  - destruct (o_Cluster o); [done|]. eexists. split; [done|].
    split; [done|]. split; [|split; [by eexists|]].
    + eexists _, ToSystem. split_and!; try done. intros id data. by eexists.
    + unfold init_checks, Member_Validate. simpl. by rewrite !bool_decide_eq_false_2 by done.
  - destruct (o_System o); [done|]. by eexists.
  - destruct (ActorRouter o); [done|]. by eexists.
Qed.
End bootstrap.

(** ** The node's components, and actormesh.go

    Node.v starts and stops a node over its components; here are the components
    of a node that [New] made. *)
Section running.
Context {W E Hook GivenSystem GivenCluster GivenRouter Directory : Type}.
Abbreviation component := (IComponent W E).
Abbreviation Behaviour := (NodeBehavior W E).
Abbreviation Options := (Options (Hook := Hook) (Behavior := Behaviour) (GivenSystem := GivenSystem) (GivenCluster := GivenCluster)
  (GivenRouter := GivenRouter) (Directory := Directory) (Comp := component)).
Abbreviation BNode := (Node (Hook := Hook) (Behavior := Behaviour) (GivenSystem := GivenSystem) (GivenCluster := GivenCluster)
  (GivenRouter := GivenRouter) (Directory := Directory) (Comp := component)).
Abbreviation ClusterAPI := (ClusterAPI (Hook := Hook) (GivenCluster := GivenCluster)).
Abbreviation SystemAPI := (SystemAPI (Hook := Hook) (GivenSystem := GivenSystem) (GivenCluster := GivenCluster)).
Abbreviation RouterAPI := (RouterAPI (Hook := Hook) (GivenSystem := GivenSystem) (GivenCluster := GivenCluster)
  (GivenRouter := GivenRouter) (Directory := Directory)).

(** The parts as components, and what Leave does; the constructors name theirs. *)
Class Parts := {
  cluster_component : ClusterAPI -> component;
  system_component : SystemAPI -> component;
  router_component : RouterAPI -> component;
  cluster_Leave : ClusterAPI -> W -> W * option E;
  cluster_name c : GetName (cluster_component (MadeC c)) = "cluster";
  system_name s : GetName (system_component (MadeS s)) = "actor";
  router_name r : GetName (router_component (MadeR r)) = "logicalactor" }.
Context `{Parts} (mkdir : string -> option Z).
Abbreviation New := (New DefaultNodeBehavior mkdir).

Definition to_Node (n : BNode) : Node.Node W E :=
  Node.mkNode NewComponentsMgr (o_Components (options n)) (system_component <$> n_system n)
    (cluster_component <$> n_cluster n) (cluster_Leave <$> n_cluster n) (router_component <$> n_router n)
    (default DefaultNodeBehavior (o_Behavior (options n))) (n_phase n).

(** [Run] up to the signal it waits for; it does not look at its context, and it
    returns without [Shutdown]. *)
Inductive runerr := BootFailed (e : booterr) | StartFailed (e : Node.nerr (E := E)).
Definition Run (o : Options) (now : Z) (w : W) : option (Node.Node W E) * W * option runerr :=
  match New o now with
  | Err e => (None, w, Some (BootFailed e))
  | Ok n =>
    let '(n, w, err) := Node.Start (to_Node n) w in (Some n, w, StartFailed <$> err)
  end.

(** A node that makes its own parts registers its components exactly when those
    of the caller are there, with distinct names other than the parts'. *)
Theorem default_parts_register o now n :
  New o now = Ok n -> o_Cluster o = None -> o_System o = None -> ActorRouter o = None ->
  (registerCoreComponents (to_Node n)).2 = None <->
  exists l, o_Components o = Some <$> l /\ NoDup ((GetName <$> l) ++ ["actor"; "cluster"; "logicalactor"]).
Proof.
  intros Hnew Hc Hs Hr. pose proof (New_wires_the_node DefaultNodeBehavior mkdir o now) as Hw. rewrite Hnew in Hw.
  destruct Hw as (_ & Ho & _ & _ & _ & Hwc & Hws & Hwr). rewrite Hc in Hwc. rewrite Hs in Hws. rewrite Hr in Hwr.
  destruct Hwc as (c & Ec & _), Hws as (s & Es & _), Hwr as (r & Er & _).
  assert (Hcore : coreComponents (to_Node n) = o_Components o ++
    (Some <$> [system_component (MadeS s); cluster_component (MadeC c); router_component (MadeR r)])).
  { unfold coreComponents, to_Node. simpl. by rewrite Ho, Ec, Es, Er. }
  unfold registerCoreComponents. rewrite Hcore.
  assert (Hadd : forall x : Manager W E * option mgrerr, (let '(m, err) := x in (with_manager (to_Node n) m, err)).2 = x.2)
    by (by intros []).
  rewrite Hadd, Add_ok. set (own := [_; _; _]).
  assert (Hown : GetName <$> own = ["actor"; "cluster"; "logicalactor"])
    by (unfold own; rewrite !fmap_cons; simpl; by rewrite cluster_name, system_name, router_name).
  split.
  - intros (l & El & Hn & _). symmetry in El. apply fmap_app_inv in El as (l1 & l2 & E1 & E2 & ->).
    exists l1. split; [done|]. apply list_fmap_eq_inj in E2 as <-; [|by intros ?? [=]]. by rewrite <- Hown, <- fmap_app.
  - intros (l & -> & Hn). exists (l ++ own). rewrite !fmap_app, Hown. split_and!; [done|done|].
    by apply Forall_true.
Qed.

(** Run starts the node, as far as nothing fails, and does no more: it stops
    nothing and does not leave the cluster, whatever ends its wait. *)
Theorem Run_only_starts o now w :
  match Run o now w with
  | (None, w', err) => w' = w /\ exists e, err = Some (BootFailed e)
  | (Some n, w', err) =>
    Node.n_phase n = (if is_nil err then phaseRunning else phaseNew) /\
    exists n0, New o now = Ok n0 /\
      match registerCoreComponents (to_Node n0) with
      | (n1, None) => run_until_error (start_plan n1) w = (w', is_nil err)
      | (_, Some _) => w' = w
      end
  end.
Proof.
  unfold Run. pose proof (New_wires_the_node DefaultNodeBehavior mkdir o now) as Hw.
  destruct (New o now) as [n|e]; [|by split; [|eexists]]. destruct Hw as (_ & _ & Hp & _).
  pose proof (Start_runs_plan (to_Node n) w) as Hs. destruct (Node.Start (to_Node n) w) as [[n' w'] err].
  destruct (registerCoreComponents (to_Node n)) as [n1 [e|]] eqn:Er.
  - injection Hs as -> -> ->. simpl. split; [|exists n; by rewrite Er].
    unfold registerCoreComponents in Er. destruct (Add _ _) as [m e1]. by injection Er as <- _.
  - destruct Hs as (Hrun & Hphase & _). destruct err; simpl in *; (split; [by rewrite Hphase|exists n; by rewrite Er]).
Qed.
End running.
