(* ===== verification/ConsulFacts.v ===== *)
(** * What membership on Consul guarantees

    The round trip of a registered node, the status it is shown with, the
    workers and caches of the watcher, the keepers, and the subscription table. *)

From stdpp Require Import pretty.
From S2P Require Import Prelude Errors Effects Placement Cluster Consul.

(** ** What is registered and what is seen *)

Lemma status_loop_cases checks status :
  status_loop checks status =
  if decide (Some HealthCritical ∈ checks) then HealthCritical
  else if decide (Some HealthWarning ∈ checks) then HealthWarning
  else if decide (Some HealthPassing ∈ checks) then if decide (status = "") then HealthPassing else status
  else status.
Proof.
  revert status. induction checks as [|[s|] checks IH]; intros status.
  - rewrite !decide_False by apply not_elem_of_nil. done.
  - cbn [status_loop]. repeat case_bool_decide; subst; rewrite ?IH.
    + by rewrite decide_True by apply list_elem_of_here.
    + repeat case_decide; set_solver.
    + repeat case_decide; try done; set_solver.
    + repeat case_decide; try done; set_solver.
    + repeat case_decide; try done; set_solver.
  - cbn [status_loop]. rewrite IH. repeat case_decide; try done; set_solver.
Qed.

(** A node is shown with the worst status among its checks. *)
Theorem serviceStatus_is_worst entry :
  serviceStatus entry =
  if decide (Some HealthCritical ∈ e_Checks entry) then HealthCritical
  else if decide (Some HealthWarning ∈ e_Checks entry) then HealthWarning
  else if decide (Some HealthPassing ∈ e_Checks entry) then HealthPassing
  else "".
Proof. unfold serviceStatus. rewrite status_loop_cases. repeat case_decide; done. Qed.

(** The catalog's entry for a registration. *)
Definition entry_of (reg : Registration) (checks : list (option string)) : ServiceEntry :=
  mkServiceEntry (Some (mkAgentService (r_ID reg) (r_Name reg) (r_Address reg) (r_Port reg) (Some (r_Meta reg)))) checks.

(** How a node looks to the others: without the key the registry uses itself, and
    with Consul's status where it has one. *)
Definition seen_as (n : Member) (status : string) : Member :=
  let n := json_norm (with_Meta n (delete nodeInfoMetaKey <$> Meta n)) in
  if bool_decide (status = "") then n else with_Status n status.

Section RoundTrip.
Context (utf8 : Member -> Prop) `{LawfulNodeJson utf8}.

Lemma norm_meta n : delete nodeInfoMetaKey <$> Meta (json_norm (with_Meta n (delete nodeInfoMetaKey <$> Meta n)))
  = Meta (json_norm (with_Meta n (delete nodeInfoMetaKey <$> Meta n))).
Proof. simpl. destruct (Meta n) as [meta|]; simpl; [|done]. case_decide; simpl; [done|]. by rewrite delete_delete_eq. Qed.

Lemma registered_address n options reg :
  instanceToRegistration n options = Ok reg -> Address n = "" -> r_Address reg = "" /\ r_Port reg = 0.
Proof.
  unfold instanceToRegistration. intros E Ha. rewrite Ha in E. simpl in E.
  destruct (json_Marshal _); [|done]. by injection E as <-.
Qed.

(** A node read back from the Consul entry of its registration is the node that
    registered, without the registry's own key and with the worst status of its
    checks. *)
Theorem registered_node_is_seen n options reg checks :
  utf8 (with_Meta n (delete nodeInfoMetaKey <$> Meta n)) ->
  instanceToRegistration n options = Ok reg ->
  r_ID reg = ID n /\ r_CheckID reg = serviceCheckID (ID n) /\
  entriesToInstances [Some (entry_of reg checks)] = {[ID n := seen_as n (serviceStatus (entry_of reg checks))]}.
Proof.
  intros Hu Hr. pose proof (registered_address n options reg Hr) as Hempty. unfold instanceToRegistration in Hr.
  destruct (splitAddress (Address n)) as [[address port]|]; [|done].
  set (n' := with_Meta n (delete nodeInfoMetaKey <$> Meta n)) in *.
  destruct (json_Marshal n') as [payload|] eqn:Em; [|done]. injection Hr as <-. simpl in Hempty.
  destruct (json_roundtrip n' payload Hu Em) as [Hne Hj]. split_and!; [done|done|].
  unfold entriesToInstances. simpl. rewrite insert_empty. f_equal. unfold entry_instance. simpl.
  rewrite lookup_insert_eq, (bool_decide_false (payload = "")), Hj by done.
  assert (Ha : (if bool_decide (Address (json_norm n') = "")
                then with_Address (json_norm n') (if port >? 0 then JoinHostPort address (pretty port) else address)
                else json_norm n') = json_norm n').
  { case_bool_decide as Hd; [|done]. simpl in Hd. destruct (Hempty Hd) as [-> ->]. simpl.
    unfold with_Address, json_norm. simpl. by rewrite <- Hd. }
  rewrite Ha. unfold seen_as. fold n'.
  assert (Hm : with_Meta (json_norm n') (delete nodeInfoMetaKey <$> Meta (json_norm n')) = json_norm n').
  { pose proof (norm_meta n) as Hnm. fold n' in Hnm. rewrite Hnm. by destruct (json_norm n'). }
  by rewrite Hm.
Qed.
End RoundTrip.

(** ** The watcher *)

Section Watch.
Context `{NodeJson}.
Implicit Types (w : watcher) (W : worker) (n : N).

(** *** Workers and the catalog *)

Record winv w : Prop := {
  v_works : forall s n, works w !! s = Some n ->
    exists W, workers w !! n = Some W /\ w_service W = s /\ w_cancelled W = false;
  v_back : forall n W, workers w !! n = Some W -> w_cancelled W = false -> works w !! w_service W = Some n;
  v_next : forall n W, workers w !! n = Some W -> (n < next w)%N;
  v_ended : forall n W, workers w !! n = Some W -> w_phase W = Ended -> stopped w W = true
}.

Lemma start_worker_inv s w : winv w -> winv (start_worker s w).
Proof.
  intros [I1 I2 I3 I4]. unfold start_worker. destruct (works w !! s) eqn:Es; [by split|].
  assert (Hn : forall n W, workers w !! n = Some W -> next w <> n) by (intros n W HW E; specialize (I3 n W HW); lia).
  split; simpl.
  - intros s' n. rewrite lookup_insert_Some. intros [[<- <-]|[Hne Hs]].
    + eexists. by rewrite lookup_insert_eq.
    + destruct (I1 s' n Hs) as (W & HW & ?). exists W. by rewrite lookup_insert_ne by eauto.
  - intros n W. rewrite lookup_insert_Some. intros [[<- <-]|[Hne HW]] Hc; simpl; [by rewrite lookup_insert_eq|].
    rewrite lookup_insert_ne; [by apply I2|]. intros E. pose proof (I2 n W HW Hc). congruence.
  - intros n W. rewrite lookup_insert_Some. intros [[<- <-]|[_ HW]]; [lia|]. specialize (I3 n W HW). lia.
  - intros n W. rewrite lookup_insert_Some. intros [[<- <-]|[_ HW]]; [done|]. by apply (I4 n).
Qed.

Lemma stop_worker_inv s n w : winv w -> works w !! s = Some n -> winv (stop_worker (s, n) w).
Proof.
  intros [I1 I2 I3 I4] Hs. destruct (I1 s n Hs) as (W0 & HW0 & <- & Hc0). split; simpl.
  - intros s' n'. rewrite lookup_delete_Some. intros [Hne Hs']. destruct (I1 s' n' Hs') as (W & HW & <- & Hc).
    exists W. rewrite lookup_alter_ne; [done|]. intros ->. congruence.
  - intros n' W. destruct (decide (n = n')) as [<-|Hne].
    + rewrite lookup_alter_eq, HW0. intros [= <-]. done.
    + rewrite lookup_alter_ne by done. intros HW Hc. rewrite lookup_delete_ne; [by apply I2|].
      intros E. pose proof (I2 n' W HW Hc). congruence.
  - intros n' W. rewrite lookup_alter. case_decide; [|apply I3]. subst. rewrite HW0. intros _. by apply (I3 n' W0).
  - intros n' W. rewrite lookup_alter. case_decide; [|apply I4]. subst. rewrite HW0. intros [= <-] _. done.
Qed.

(** What the two loops of reconcileServices keep. *)
Lemma start_all (P : watcher -> Prop) current w :
  (forall s w, s ∈ current -> P w -> P (start_worker s w)) -> P w ->
  P (foldl (fun w service => start_worker service w) w current).
Proof.
  revert w. induction current as [|s current IH]; intros w Hs Hw; [done|]. apply IH.
  - intros s' w' Hin. apply Hs. by right.
  - apply Hs; [by left|done].
Qed.

Lemma stop_all (P : watcher -> Prop) (l : list (string * N)) w :
  NoDup l.*1 -> (forall s n, (s, n) ∈ l -> works w !! s = Some n) ->
  (forall s n w, P w -> (s, n) ∈ l -> works w !! s = Some n -> P (stop_worker (s, n) w)) -> P w ->
  P (foldl (fun w x => stop_worker x w) w l) /\
  forall s, works (foldl (fun w x => stop_worker x w) w l) !! s =
    if decide (s ∈ l.*1) then None else works w !! s.
Proof.
  revert w. induction l as [|[s n] l IH]; intros w Hnd Hl Hs Hw.
  - split; [done|]. intros s. by rewrite decide_False by apply not_elem_of_nil.
  - rewrite fmap_cons in Hnd. apply NoDup_cons in Hnd as [Hn Hnd]. simpl.
    destruct (IH (stop_worker (s, n) w)) as [HP Hw'].
    + done.
    + intros s' n' Hin. simpl. rewrite lookup_delete_ne; [apply Hl; by right|].
      intros <-. apply Hn. apply list_elem_of_fmap. by exists (s, n').
    + intros s' n' w' HP Hin. apply Hs; [done|by right].
    + apply Hs; [done|by left|]. apply Hl. by left.
    + split; [done|]. intros s'. rewrite Hw'. simpl. destruct (decide (s' = s)) as [->|Hne].
      * rewrite lookup_delete_eq. repeat case_decide; done || set_solver.
      * rewrite lookup_delete_ne by done. repeat case_decide; set_solver.
Qed.

Lemma gone_spec current w s n : (s, n) ∈ gone current w <-> works w !! s = Some n /\ s ∉ current.
Proof.
  unfold gone. rewrite list_elem_of_In, List.filter_In, <- list_elem_of_In, elem_of_map_to_list. simpl.
  by rewrite negb_true_iff, bool_decide_eq_false.
Qed.

Lemma gone_NoDup current w : NoDup (gone current w).*1.
Proof.
  unfold gone. pose proof (NoDup_fst_map_to_list (works w)) as Hnd. revert Hnd.
  generalize (map_to_list (works w)). induction l as [|[s n] l IH]; [done|]. simpl. intros [Hn Hnd]%NoDup_cons.
  case_bool_decide; simpl; [auto|]. apply NoDup_cons. split; [|auto]. intros Hin. apply Hn.
  apply list_elem_of_fmap in Hin as ([s' n'] & -> & Hin). apply list_elem_of_fmap. exists (s', n').
  split; [done|]. rewrite list_elem_of_In, List.filter_In in Hin. apply list_elem_of_In, Hin.
Qed.

Lemma start_all_works current w s :
  is_Some (works (foldl (fun w service => start_worker service w) w current) !! s) <-> is_Some (works w !! s) \/ s ∈ current.
Proof.
  revert w. induction current as [|s' current IH]; intros w; simpl; [set_solver|].
  rewrite IH, elem_of_cons. unfold start_worker. destruct (works w !! s') as [n|] eqn:E; simpl.
  - split; [tauto|]. intros [H1|[->|H1]]; eauto.
  - rewrite lookup_insert. case_decide as Hd; [subst|]; split; eauto; [tauto|]. intros [H1|[->|H1]]; [auto|done|auto].
Qed.

(** What reconcileServices keeps, and the services it leaves. *)
Lemma reconcile_spec (P : watcher -> Prop) current w :
  (forall s w, s ∈ current -> P w -> P (start_worker s w)) ->
  (forall s n w, P w -> s ∉ current -> works w !! s = Some n -> P (stop_worker (s, n) w)) -> P w ->
  P (reconcileServices current w) /\
  forall s, is_Some (works (reconcileServices current w) !! s) <-> s ∈ current.
Proof.
  intros Hstart Hstop Hw. unfold reconcileServices. cbn zeta.
  set (w1 := foldl (fun w service => start_worker service w) w current).
  assert (H1 : P w1) by (by apply start_all).
  destruct (stop_all P (gone current w1) w1) as [HP Hl].
  - apply gone_NoDup.
  - intros s n Hin. by apply gone_spec in Hin as [Hin _].
  - intros s n w' Hw' Hin. apply gone_spec in Hin as [_ Hin]. by apply Hstop.
  - done.
  - split; [done|]. intros s. rewrite Hl. pose proof (start_all_works current w s) as Hs. fold w1 in Hs.
    case_decide as Hd.
    + apply list_elem_of_fmap in Hd as ([s' n] & -> & Hin). apply gone_spec in Hin as [_ Hin]. simpl. split; [by intros [? ?]|done].
    + split; [|tauto]. intros [n Hn]. destruct (decide (s ∈ current)) as [|Hc]; [done|]. destruct Hd.
      apply list_elem_of_fmap. exists (s, n). split; [done|]. by apply gone_spec.
Qed.

Variable orderly : bool.
Abbreviation watch_step := (watch_step orderly).
Abbreviation watch_run := (watch_run orderly).

Definition catalog_ok w : Prop := forall s, is_Some (works w !! s) <-> s ∈ catalog w.

Lemma winv_set_worker n W W' c w :
  winv w -> workers w !! n = Some W -> w_service W' = w_service W -> w_cancelled W' = w_cancelled W ->
  (w_phase W' = Ended -> stopped w W = true) -> winv (set_worker n W' c w).
Proof.
  intros [I1 I2 I3 I4] HW Es Ec He. split; simpl.
  - intros s n' Hs. destruct (I1 s n' Hs) as (W0 & H0 & <- & Hc). rewrite lookup_insert. case_decide as Hd; [subst|eauto].
    simplify_eq. exists W'. by rewrite Es, Ec.
  - intros n' W0. rewrite lookup_insert_Some. intros [[<- <-]|[_ H0]]; [|by apply I2]. rewrite Es, Ec. by apply I2.
  - intros n' W0. rewrite lookup_insert_Some. intros [[<- _]|[_ H0]]; [by apply (I3 n W)|by apply (I3 n' W0)].
  - intros n' W0. rewrite lookup_insert_Some. intros [[_ <-]|[_ H0]]; [|by apply (I4 n' W0)].
    unfold stopped in *. simpl. rewrite Ec. auto.
Qed.

Lemma winv_same w w' :
  works w' = works w -> workers w' = workers w -> next w' = next w -> (ctx_done w = true -> ctx_done w' = true) ->
  winv w -> winv w'.
Proof.
  intros E1 E2 E3 Hd [I1 I2 I3 I4]. split; rewrite ?E1, ?E2, ?E3; try done.
  intros n W HW He. specialize (I4 n W HW He). unfold stopped in *. rewrite orb_true_iff in *. tauto.
Qed.

Lemma watch_step_inv w a : winv w /\ catalog_ok w -> winv (watch_step w a) /\ catalog_ok (watch_step w a).
Proof.
  intros [Hi Hc]. destruct a as [| |a|timer|n|n a|n timer]; simpl; try case_bool_decide as Hph; try done.
  - split; [|done]. by apply (winv_same w).
  - split; [|done]. by apply (winv_same w).
  - destruct a as [[answer index]|e]; [|split; [by apply (winv_same w)|done]]. destruct (orderly && _); [done|].
    destruct (reconcile_spec winv (services answer) (set_catalog AtSelect (default (c_index w) index) (services answer) w)) as [H1 H2].
    + intros s w' _. apply start_worker_inv.
    + intros s n w' Hw' _. by apply stop_worker_inv.
    + by apply (winv_same w).
    + split; [done|]. intros s. rewrite H2. unfold catalog_ok.
      assert (Hcat : forall l w, catalog (foldl (fun w service => start_worker service w) w l) = catalog w).
      { induction l as [|x l IH]; intros w'; [done|]. simpl. rewrite IH. unfold start_worker. by destruct (works w' !! x). }
      assert (Hcat2 : forall l w, catalog (foldl (fun w x => stop_worker x w) w l) = catalog w).
      { induction l as [|x l IH]; intros w'; [done|]. simpl. by rewrite IH. }
      unfold reconcileServices. by rewrite Hcat2, Hcat.
  - destruct timer; [split; [by apply (winv_same w)|done]|]. destruct (ctx_done w); [split; [by apply (winv_same w)|done]|done].
  - destruct (workers w !! n) as [W|] eqn:HW; [|done]. case_bool_decide; [|done].
    destruct (stopped w W) eqn:Est; (split; [|done]); by apply (winv_set_worker n W).
  - destruct (workers w !! n) as [W|] eqn:HW; [|done]. case_bool_decide; [|done].
    destruct a as [[entries index]|e]; (split; [|done]); by apply (winv_set_worker n W).
  - destruct (workers w !! n) as [W|] eqn:HW; [|done]. case_bool_decide; [|done].
    destruct timer; [split; [by apply (winv_set_worker n W)|done]|].
    destruct (stopped w W) eqn:Est; [|done]. split; [|done]. by apply (winv_set_worker n W).
Qed.

Lemma watch_run_inv acts : winv (watch_run acts) /\ catalog_ok (watch_run acts).
Proof.
  unfold watch_run. assert (H0 : winv newWatcher /\ catalog_ok newWatcher).
  { split; [by split|]. intros s. simpl. split; [by intros [? ?]|by intros ?%not_elem_of_nil]. }
  revert H0. generalize newWatcher. induction acts as [|a acts IH]; intros w Hw; [done|]. by apply IH, watch_step_inv.
Qed.

(** The worker [n] of a service, not cancelled. *)
Definition serves w s n : Prop := exists W, workers w !! n = Some W /\ w_service W = s /\ w_cancelled W = false.

(** C31: Over every history of answers, failures and cancellations the services of
    the catalog's last answer are those with a worker that is not cancelled, exactly
    one each. *)
Theorem workers_follow_the_catalog acts s :
  let w := watch_run acts in
  s ∈ catalog w <-> exists n, serves w s n /\ forall n', serves w s n' -> n' = n.
Proof.
  intros w. destruct (watch_run_inv acts) as [[I1 I2 I3 I4] Hc]. fold w in I1, I2, I3, I4, Hc. rewrite <- (Hc s). split.
  - intros [n Hn]. destruct (I1 s n Hn) as (W & HW & Es & Hw). exists n. split; [by exists W|].
    intros n' (W' & HW' & E' & Hc'). pose proof (I2 n' W' HW' Hc') as Hn'. congruence.
  - intros (n & (W & HW & <- & Hw) & _). rewrite (I2 n W HW Hw). done.
Qed.

(** *** The caches *)

Definition running W : Prop := w_phase W <> Ended.

Record cache_ok w : Prop := {
  y_one : forall n1 n2 W1 W2, workers w !! n1 = Some W1 -> workers w !! n2 = Some W2 -> running W1 -> running W2 ->
    w_service W1 = w_service W2 -> n1 = n2;
  y_last : forall n W, workers w !! n = Some W -> running W -> caches w !! w_service W = w_last W;
  y_dom : forall s m, caches w !! s = Some m -> exists n W, workers w !! n = Some W /\ running W /\ w_service W = s
}.

(** No worker of a service about to be started is still running. *)
Definition clear (current : list string) w : Prop :=
  forall n W, workers w !! n = Some W -> running W -> w_service W ∈ current -> is_Some (works w !! w_service W).

Lemma former_ended_clear w current : former_ended w current = true -> clear current w.
Proof.
  unfold former_ended. rewrite forallb_forall. intros Hf n W HW Hr Hin.
  specialize (Hf (n, W)). rewrite !orb_true_iff, negb_true_iff, !bool_decide_eq_true, bool_decide_eq_false in Hf.
  simpl in Hf. destruct Hf as [[Hf|Hf]|Hf]; [|done..|done]. by apply list_elem_of_In, elem_of_map_to_list.
Qed.

Definition opening current w : Prop := winv w /\ cache_ok w /\ clear current w.

Lemma start_worker_cache current s w : s ∈ current -> opening current w -> opening current (start_worker s w).
Proof.
  intros Hin (Hi & [Y1 Y2 Y3] & Hcl). split; [by apply start_worker_inv|]. unfold start_worker.
  destruct (works w !! s) as [|] eqn:Es; [by split|]. pose proof Hi as [I1 I2 I3 I4].
  assert (Hn : forall n W, workers w !! n = Some W -> next w <> n) by (intros n W HW E; specialize (I3 n W HW); lia).
  assert (Hno : forall n W, workers w !! n = Some W -> running W -> w_service W <> s).
  { intros n W HW Hr E. destruct (Hcl n W HW Hr) as [x Hx]; congruence. }
  split; [split|]; simpl.
  - intros n1 n2 W1 W2. rewrite !lookup_insert_Some. intros [[<- <-]|[_ H1]] [[<- <-]|[_ H2]] R1 R2 E; simpl in *; try done; try naive_solver.
  - intros n W. rewrite lookup_insert_Some. intros [[<- <-]|[_ HW]] Hr; simpl; [|by apply (Y2 n)].
    destruct (caches w !! s) as [m|] eqn:Em; [|done]. destruct (Y3 s m Em) as (n & W & HW & HR & E). by destruct (Hno n W).
  - intros s' m Hm. destruct (Y3 s' m Hm) as (n & W & HW & HR & E). exists n, W. by rewrite lookup_insert_ne by eauto.
  - intros n W. simpl. rewrite lookup_insert_Some. intros [[<- <-]|[_ HW]] Hr Hc; simpl; [by rewrite lookup_insert_eq|].
    rewrite lookup_insert_ne by (intros E; by apply (Hno n W)). by apply (Hcl n).
Qed.

(** Changing one worker, not its service nor whether it runs. *)
Lemma cache_alter n (f : worker -> worker) w w' :
  caches w' = caches w -> workers w' = alter f n (workers w) ->
  (forall W, w_service (f W) = w_service W /\ w_last (f W) = w_last W /\ (running (f W) <-> running W)) ->
  cache_ok w -> cache_ok w'.
Proof.
  intros Ec Ew Hf [Y1 Y2 Y3].
  assert (Hback : forall k W', workers w' !! k = Some W' -> exists W, workers w !! k = Some W /\
            w_service W' = w_service W /\ w_last W' = w_last W /\ (running W' <-> running W)).
  { intros k W'. rewrite Ew, lookup_alter. case_decide as Hd; [|intros HW; exists W'; done].
    subst k. destruct (workers w !! n) as [W|] eqn:HW; [|done]. intros [= <-]. exists W. split; [done|apply Hf]. }
  split.
  - intros n1 n2 W1 W2 H1 H2 R1 R2 E. destruct (Hback n1 W1 H1) as (V1 & G1 & E1 & _ & Q1), (Hback n2 W2 H2) as (V2 & G2 & E2 & _ & Q2).
    apply (Y1 n1 n2 V1 V2); (done || tauto || congruence).
  - intros k W' HW' R. destruct (Hback k W' HW') as (W & HW & -> & -> & Q). rewrite Ec. apply (Y2 k); tauto.
  - intros s m Hm. rewrite Ec in Hm. destruct (Y3 s m Hm) as (k & W & HW & R & E). rewrite Ew.
    destruct (decide (n = k)) as [<-|Hne].
    + exists n, (f W). rewrite lookup_alter_eq, HW. destruct (Hf W) as (-> & _ & Q). split_and!; [done|tauto|done].
    + exists k, W. by rewrite lookup_alter_ne.
Qed.

Lemma stop_worker_cache current s n w :
  opening current w -> s ∉ current -> works w !! s = Some n -> opening current (stop_worker (s, n) w).
Proof.
  intros (Hi & Hc & Hcl) Hs Hn. split; [by apply stop_worker_inv|]. split.
  - by apply (cache_alter n cancel_worker w).
  - intros k W. simpl. rewrite lookup_alter. intros HW Hr Hin.
    rewrite lookup_delete_ne by (intros ->; done). case_decide as Hd; [subst|by apply (Hcl k)].
    destruct (workers w !! k) as [V|] eqn:HV; [|done]. injection HW as <-. by apply (Hcl k V).
Qed.

(** A worker moves on, still running, maybe with a new answer in the cache. *)
Lemma cache_move n W p i l w :
  workers w !! n = Some W -> running W -> p <> Ended ->
  cache_ok w -> cache_ok (set_worker n (at_phase p i (Some l) W) (<[w_service W := l]> (caches w)) w).
Proof.
  intros HW Hr Hp [Y1 Y2 Y3]. split; simpl.
  - intros n1 n2 W1 W2. rewrite !lookup_insert_Some.
    intros [[<- <-]|[? H1]] [[<- <-]|[? H2]] R1 R2 E; simpl in *; try done; [|symmetry|]; eapply Y1; eauto.
  - intros k V. rewrite lookup_insert_Some. intros [[<- <-]|[Hne HV]] R; simpl; [by rewrite lookup_insert_eq|].
    rewrite lookup_insert_ne; [by apply (Y2 k)|]. intros E. apply Hne. by apply (Y1 n k W V).
  - intros s m. rewrite lookup_insert_Some. intros [[<- <-]|[Hne Hm]].
    + exists n, (at_phase p i (Some l) W). by rewrite lookup_insert_eq.
    + destruct (Y3 s m Hm) as (k & V & HV & R & E). exists k, V. rewrite lookup_insert_ne; [done|]. intros ->. congruence.
Qed.

Lemma cache_stay n W p i w :
  workers w !! n = Some W -> running W -> p <> Ended ->
  cache_ok w -> cache_ok (set_worker n (at_phase p i (w_last W) W) (caches w) w).
Proof.
  intros HW Hr Hp [Y1 Y2 Y3]. split; simpl.
  - intros n1 n2 W1 W2. rewrite !lookup_insert_Some.
    intros [[<- <-]|[? H1]] [[<- <-]|[? H2]] R1 R2 E; simpl in *; try done; [|symmetry|]; eapply Y1; eauto.
  - intros k V. rewrite lookup_insert_Some. intros [[<- <-]|[Hne HV]] R; simpl; [by apply (Y2 n)|by apply (Y2 k)].
  - intros s m Hm. destruct (Y3 s m Hm) as (k & V & HV & R & E). destruct (decide (n = k)) as [<-|Hne].
    + exists n, (at_phase p i (w_last W) W). rewrite lookup_insert_eq. simplify_eq. done.
    + exists k, V. by rewrite lookup_insert_ne.
Qed.

Lemma cache_end n W w : workers w !! n = Some W -> running W -> cache_ok w -> cache_ok (end_worker n W w).
Proof.
  intros HW Hr [Y1 Y2 Y3].
  assert (Hother : forall k V, <[n:=at_phase Ended (w_index W) (w_last W) W]> (workers w) !! k = Some V -> running V ->
            n <> k /\ workers w !! k = Some V).
  { intros k V. rewrite lookup_insert_Some. intros [[<- <-]|HV] R; [by destruct R|done]. }
  split; simpl.
  - intros n1 n2 W1 W2 H1 H2 R1 R2. destruct (Hother _ _ H1 R1), (Hother _ _ H2 R2). by apply (Y1 n1 n2).
  - intros k V HV R. destruct (Hother k V HV R) as [Hne H1]. rewrite lookup_delete_ne; [by apply (Y2 k)|].
    intros E. apply Hne. by apply (Y1 n k W V).
  - intros s m. rewrite lookup_delete_Some. intros [Hne Hm]. destruct (Y3 s m Hm) as (k & V & HV & R & E).
    exists k, V. rewrite lookup_insert_ne; [done|]. intros ->. congruence.
Qed.

Lemma cache_same w w' : caches w' = caches w -> workers w' = workers w -> cache_ok w -> cache_ok w'.
Proof. intros E1 E2 [Y1 Y2 Y3]. by split; rewrite ?E1, ?E2. Qed.

Lemma watch_step_cache w a :
  orderly = true -> winv w -> cache_ok w -> cache_ok (watch_step w a).
Proof.
  intros Ho Hi Hc. destruct a as [| |a|timer|n|n a|n timer]; simpl; try case_bool_decide as Hph; try done.
  1,2: by apply (cache_same w).
  1: { destruct a as [[answer index]|e]; [|by apply (cache_same w)]. rewrite Ho. simpl.
    destruct (former_ended w (services answer)) eqn:Hf; [|done]. simpl.
    set (w0 := set_catalog AtSelect (default (c_index w) index) (services answer) w).
    destruct (reconcile_spec (opening (services answer)) (services answer) w0) as [(_ & H1 & _) _]; [| | |done].
    - intros s w'. apply start_worker_cache.
    - intros s n w'. apply stop_worker_cache.
    - split; [by apply (winv_same w)|]. split; [by apply (cache_same w)|]. by apply former_ended_clear in Hf. }
  1: { destruct timer; [by apply (cache_same w)|]. destruct (ctx_done w); [by apply (cache_same w)|done]. }
  all: destruct (workers w !! n) as [W|] eqn:HW; [|done]; case_bool_decide as Hp; [|done];
    assert (Hr : running W) by (unfold running; congruence).
  - destruct (stopped w W); [by apply cache_end|by apply cache_stay].
  - destruct a as [[entries index]|e]; [by apply cache_move|by apply cache_stay].
  - destruct timer; [by apply cache_stay|]. destruct (stopped w W); [by apply cache_end|done].
Qed.

(** C30: When a worker starts only after the former one of its service has ended,
    the watcher's caches hold exactly the last answers of Consul to the workers that
    run. *)
Theorem caches_follow_consul acts :
  orderly = true ->
  let w := watch_run acts in
  (forall n W, workers w !! n = Some W -> running W -> caches w !! w_service W = w_last W) /\
  (forall s m, caches w !! s = Some m -> exists n W, workers w !! n = Some W /\ running W /\ w_service W = s /\ w_last W = Some m).
Proof.
  intros Ho w. assert (Hw : winv w /\ cache_ok w).
  { subst w. unfold watch_run. assert (H0 : (winv newWatcher /\ catalog_ok newWatcher) /\ cache_ok newWatcher).
    { split; [|by split]. apply (watch_run_inv []). }
    revert H0. generalize newWatcher. induction acts as [|a acts IH]; intros w [[Hi Hk] Hc]; [done|].
    apply IH. split; [by apply watch_step_inv|by apply watch_step_cache]. }
  destruct Hw as [_ [Y1 Y2 Y3]]. split; [done|]. intros s m Hm. destruct (Y3 s m Hm) as (n & W & HW & R & <-).
  exists n, W. split_and!; try done. rewrite <- (Y2 n W); done.
Qed.
End Watch.

(** ** The registry's answers *)

(** MemberById finds a member exactly when some cache holds the id. *)
Lemma MemberById_spec order id :
  if (MemberById order id).2
  then exists s value, (s, value) ∈ order /\ value !! id = Some (MemberById order id).1
  else MemberById order id = (zero_member, false) /\ forall s value, (s, value) ∈ order -> value !! id = None.
Proof.
  induction order as [|[s value] order IH]; simpl.
  - split; [done|]. by intros s value ?%not_elem_of_nil.
  - destruct (value !! id) as [m|] eqn:E; simpl.
    + exists s, value. split; [apply list_elem_of_here|done].
    + destruct (MemberById order id) as [m [|]]; simpl in *.
      * destruct IH as (s' & v' & Hin & Hm). exists s', v'. split; [by right|done].
      * destruct IH as [-> Hno]. split; [done|]. intros s' v' [[= -> ->]|Hin]%elem_of_cons; [done|by eapply Hno].
Qed.

Lemma Members_lookup (l : list (string * Member)) (acc : instances) k :
  NoDup l.*1 -> (forall x, x ∈ l -> ID x.2 = x.1) ->
  foldl (fun ret (x : string * Member) => <[ID x.2 := x.2]> ret) acc l !! k =
  match (list_to_map l : instances) !! k with Some v => Some v | None => acc !! k end.
Proof.
  revert acc. induction l as [|[k0 v] l IH]; intros acc Hnd Hl; simpl; [by rewrite lookup_empty|].
  simpl in Hnd. apply NoDup_cons in Hnd as [Hn Hnd].
  pose proof (Hl (k0, v) (list_elem_of_here _ _)) as Hk. simpl in Hk. rewrite Hk.
  rewrite IH; [|done|intros x Hx; apply Hl; by right]. destruct (decide (k0 = k)) as [->|Hne].
  - rewrite (not_elem_of_list_to_map_1 _ _ Hn), !lookup_insert_eq. done.
  - by rewrite !lookup_insert_ne.
Qed.

(** Members gives back a cache whose keys are its members' ids, however it is ranged over. *)
Lemma Members_spec (m : instances) order :
  order ≡ₚ map_to_list m -> (forall k v, m !! k = Some v -> ID v = k) -> Members order = m.
Proof.
  intros Hp Hid. assert (Hnd : NoDup order.*1) by (rewrite Hp; apply NoDup_fst_map_to_list).
  apply map_eq. intros k. unfold Members. rewrite Members_lookup; [|done|].
  - rewrite (list_to_map_proper order (map_to_list m)), list_to_map_to_list by done. by destruct (m !! k).
  - intros [k' v] Hin. rewrite Hp in Hin. apply elem_of_map_to_list in Hin. by apply Hid.
Qed.

(** ** Keepers *)

Inductive section := SStart (id : string) | SStop (id : string).
Definition run_section (r : registration) (x : section) : registration :=
  match x with SStart id => (start_keeper id r).1 | SStop id => (stop_keeper id r).1 end.

Record keepers_ok (r : registration) : Prop := {
  z_alive : forall k, k ∈ alive r <-> exists id, keepers r !! id = Some k;
  z_inj : forall id1 id2 k, keepers r !! id1 = Some k -> keepers r !! id2 = Some k -> id1 = id2;
  z_next : forall id k, keepers r !! id = Some k -> (k < k_next r)%N
}.

(** However joins and leaves interleave, the contexts not cancelled are exactly the
    keepers in the table, one per service. *)
Theorem one_keeper_per_service xs : keepers_ok (foldl run_section newRegistration xs).
Proof.
  assert (H0 : keepers_ok newRegistration) by (split; simpl; try done; set_solver).
  revert H0. generalize newRegistration. induction xs as [|x xs IH]; intros r Hr; [done|]. apply IH.
  destruct Hr as [Z1 Z2 Z3]. destruct x as [id|id]; simpl.
  - unfold start_keeper. destruct (keepers r !! id) eqn:E; [by split|].
    assert (Hn : forall id k, keepers r !! id = Some k -> k <> k_next r) by (intros i k Hk E2; specialize (Z3 i k Hk); lia).
    split; simpl.
    + intros k. rewrite elem_of_union, elem_of_singleton, Z1. split.
      * intros [Ek|[i Hi]]; [exists id; by rewrite lookup_insert_eq, Ek|].
        exists i. rewrite lookup_insert_ne; [done|]. congruence.
      * intros [i Hi]. apply lookup_insert_Some in Hi as [[_ <-]|[_ Hi]]; eauto.
    + intros i1 i2 k. rewrite !lookup_insert_Some. intros [[E1 F1]|[_ H1]] [[E2 F2]|[_ H2]];
        [congruence|by destruct (Hn _ _ H2)|by destruct (Hn _ _ H1)|by apply (Z2 _ _ k)].
    + intros i k. rewrite lookup_insert_Some. intros [[_ <-]|[_ Hi]]; [lia|]. specialize (Z3 i k Hi). lia.
  - unfold stop_keeper. destruct (keepers r !! id) as [k0|] eqn:E; [|by split]. split; simpl.
    + intros k. rewrite elem_of_difference, not_elem_of_singleton, Z1. split.
      * intros [[i Hi] Hne]. exists i. rewrite lookup_delete_ne; [done|]. congruence.
      * intros [i Hi]. apply lookup_delete_Some in Hi as [Hne Hi]. split; [eauto|]. intros ->. apply Hne. by apply (Z2 _ _ k0).
    + intros i1 i2 k. rewrite !lookup_delete_Some. intros [_ H1] [_ H2]. by apply (Z2 _ _ k).
    + intros i k. rewrite lookup_delete_Some. intros [_ Hi]. by apply (Z3 i).
Qed.

(** ** Subscriptions *)

Section Subscriptions.
Context {S : Type}.
Implicit Types c : @SubscriptionCenter S.

(** *** Histories of a center *)

Inductive center_op := CSubscribe (service : string) (s : option S) | CUnsubscribe (id : Z) | CClose.

(** The calls with their answers. *)
Inductive center_event :=
| Subscribed (service : string) (s : option S) (r : res gerr Z)
| Unsubscribed (id : Z) (ok : bool)
| Closed.

Definition center_step (c : SubscriptionCenter) (o : center_op) : SubscriptionCenter * center_event :=
  match o with
  | CSubscribe service s => let '(c, r) := Subscribe c service s in (c, Subscribed service s r)
  | CUnsubscribe id => let '(c, ok) := Unsubscribe c id in (c, Unsubscribed id ok)
  | CClose => (Close c, Closed)
  end.

Definition center_run (os : list center_op) : SubscriptionCenter * list center_event :=
  fold_left (fun '(c, tr) o => let '(c, ev) := center_step c o in (c, tr ++ [ev])) os (NewSubscriptionCenter, []).

(** The id that a Subscribe returned. *)
Definition returned (ev : center_event) : option Z :=
  match ev with Subscribed _ _ (Ok id) => Some id | _ => None end.

(** Subscribed, and not unsubscribed nor the center closed since. *)
Definition live (tr : list center_event) (id : Z) (service : string) (s : S) : Prop :=
  exists pre post, tr = pre ++ Subscribed service (Some s) (Ok id) :: post /\
    Unsubscribed id true ∉ post /\ Closed ∉ post.

Lemma center_run_snoc os o :
  center_run (os ++ [o]) =
  let '(c, tr) := center_run os in let '(c, ev) := center_step c o in (c, tr ++ [ev]).
Proof. unfold center_run. rewrite fold_left_app. simpl. by destruct (fold_left _ os _). Qed.

Lemma live_snoc tr ev id service s :
  live (tr ++ [ev]) id service s <->
  ev = Subscribed service (Some s) (Ok id) \/ live tr id service s /\ ev <> Unsubscribed id true /\ ev <> Closed.
Proof.
  split.
  - intros (pre & post & E & Hu & Hc). destruct post as [|x post _] using rev_ind.
    + apply app_inj_tail in E as [_ ->]. by left.
    + rewrite app_comm_cons, app_assoc in E. apply app_inj_tail in E as [-> ->].
      rewrite elem_of_app, list_elem_of_singleton in Hu, Hc. right. split; [|split; intros ->; auto].
      exists pre, post. split; [done|tauto].
  - intros [->|((pre & post & -> & Hu & Hc) & Hu' & Hc')].
    + exists tr, []. split; [done|]. split; apply not_elem_of_nil.
    + exists pre, (post ++ [ev]). rewrite <- app_assoc. split; [done|].
      rewrite !elem_of_app, !list_elem_of_singleton. naive_solver.
Qed.

Record center_ok (c : SubscriptionCenter) (tr : list center_event) : Prop := {
  g_next : nextID c = zlen (omap returned tr);
  g_ids : forall id, id ∈ omap returned tr -> 1 <= id <= nextID c;
  g_once : NoDup (omap returned tr);
  g_closed : sc_closed c = true <-> Closed ∈ tr;
  g_table : forall id e, subscribers c !! id = Some e <->
    exists service s, e = mkSubscription id service s /\ live tr id service s
}.

Lemma live_returned tr id service s : live tr id service s -> id ∈ omap returned tr.
Proof. intros (pre & post & -> & _). rewrite omap_app. apply elem_of_app. right. left. Qed.

Lemma NewSubscriptionCenter_ok : center_ok NewSubscriptionCenter [].
Proof.
  split; simpl; try done.
  - intros id Hid. by apply elem_of_nil in Hid.
  - constructor.
  - split; [done|]. intros Hc. by apply elem_of_nil in Hc.
  - intros id e. split; [done|]. intros (? & ? & _ & ([|] & ? & ? & _)); done.
Qed.

(** An event that leaves the live subscriptions alone. *)
Lemma center_idle c tr ev :
  center_ok c tr -> match ev with Subscribed _ _ (Err _) | Unsubscribed _ false => True | _ => False end ->
  center_ok c (tr ++ [ev]).
Proof.
  intros [G1 G2 G3 G4 G5] Hev. assert (Er : omap returned (tr ++ [ev]) = omap returned tr).
  { rewrite omap_app. destruct ev as [? ? [|]|? []|]; simpl; by rewrite ?app_nil_r. }
  split; rewrite ?Er; try done.
  - rewrite G4, elem_of_app, list_elem_of_singleton. split; [by left|]. intros [|<-]; done.
  - intros id e. rewrite G5. do 2 (apply exist_proper; intros ?). rewrite live_snoc. destruct ev as [? ? [|]|? []|]; naive_solver.
Qed.

Lemma center_step_ok c tr o :
  center_ok c tr -> zlen (omap returned tr) < 2 ^ 64 - 1 ->
  let '(c', ev) := center_step c o in center_ok c' (tr ++ [ev]).
Proof.
  intros G Hb. pose proof G as [G1 G2 G3 G4 G5]. destruct o as [service s|id|]; simpl.
  - unfold Subscribe. destruct s as [s|]; [|by apply center_idle]. destruct (sc_closed c) eqn:Hc; [by apply center_idle|].
    rewrite u64_small by (rewrite G1; unfold is_u, zlen in *; lia). set (id := nextID c + 1).
    assert (Hnew : id ∉ omap returned tr) by (intros Hin%G2; lia).
    assert (Er : omap returned (tr ++ [Subscribed service (Some s) (Ok id)]) = omap returned tr ++ [id])
      by (by rewrite omap_app).
    split; simpl; rewrite ?Er.
    + rewrite zlen_app, <- G1. done.
    + intros i. rewrite elem_of_app, list_elem_of_singleton. intros [Hi%G2| ->]; [lia|].
      assert (0 <= nextID c) by (rewrite G1; unfold zlen; lia). lia.
    + apply NoDup_app. split_and!; [done| |apply NoDup_singleton]. intros i Hi ->%list_elem_of_singleton. done.
    + rewrite elem_of_app, list_elem_of_singleton, <- G4. split; [done|]. intros [|]; done.
    + intros i e. setoid_rewrite live_snoc. destruct (decide (i = id)) as [->|Hne].
      * rewrite lookup_insert_eq. split; [intros [= <-]; eauto|].
        intros (sv & s' & -> & [[= -> ->]|(Hl & _)]); [done|]. by apply live_returned in Hl.
      * rewrite lookup_insert_ne, G5 by done. split; [naive_solver|].
        intros (sv & s' & -> & [[=]|(Hl & _)]); eauto. congruence.
  - unfold Unsubscribe. destruct (subscribers c !! id) as [e0|] eqn:He; [|by apply center_idle].
    assert (Er : omap returned (tr ++ [Unsubscribed id true]) = omap returned tr)
      by (rewrite omap_app; simpl; by rewrite app_nil_r).
    split; simpl; rewrite ?Er; try done.
    + rewrite elem_of_app, list_elem_of_singleton, <- G4. split; [by left|]. intros [|]; done.
    + intros i e. setoid_rewrite live_snoc. rewrite lookup_delete_Some, G5. split.
      * intros [Hne (sv & s' & -> & Hl)]. exists sv, s'. split; [done|]. right. split; [done|]. split; [congruence|done].
      * intros (sv & s' & -> & [[=]|(Hl & Hu & _)]). split; [congruence|eauto].
  - assert (Er : omap returned (tr ++ [Closed]) = omap returned tr) by (rewrite omap_app; simpl; by rewrite app_nil_r).
    split; simpl; rewrite ?Er; try done.
    + split; [|done]. intros _. apply elem_of_app. right. apply list_elem_of_here.
    + intros i e. rewrite lookup_empty. split; [done|]. intros (sv & s' & _ & Hl). apply live_snoc in Hl as [?|(_ & _ & ?)]; done.
Qed.

Lemma center_run_ok os :
  zlen os < 2 ^ 64 ->
  let '(c, tr) := center_run os in center_ok c tr /\ (length tr = length os)%nat.
Proof.
  induction os as [|o os IH] using rev_ind; intros Hb; [split; [apply NewSubscriptionCenter_ok|done]|].
  rewrite zlen_app in Hb. assert (E1 : zlen [o] = 1) by done. rewrite center_run_snoc.
  destruct (center_run os) as [c tr]. destruct IH as [IH Hlen]; [lia|].
  assert (Hr : (length (omap returned tr) <= length tr)%nat)
    by (clear; induction tr as [|ev tr IH]; [done|]; rewrite omap_cons; destruct (returned ev); simpl; lia).
  pose proof (center_step_ok c tr o IH ltac:(unfold zlen in *; lia)) as Hs.
  destruct (center_step c o) as [c' ev]. split; [done|]. rewrite !length_app, Hlen. done.
Qed.

(** What the answers of a step say, in terms of the history before it. *)
Definition truthful (pre : list center_event) (ev : center_event) : Prop :=
  match ev with
  | Subscribed _ s (Err _) => s = None \/ Closed ∈ pre
  | Subscribed _ s (Ok _) => s <> None /\ Closed ∉ pre
  | Unsubscribed id ok => ok = true <-> exists service s, live pre id service s
  | Closed => True
  end.

Lemma center_step_truthful c tr o : center_ok c tr -> truthful tr (center_step c o).2.
Proof.
  intros [_ _ _ G4 G5]. destruct o as [service s|id|]; simpl; [..|done].
  - unfold Subscribe. destruct s as [s|]; [|by left]. destruct (sc_closed c); simpl.
    + right. by apply G4.
    + split; [done|]. intros Hc%G4. done.
  - unfold Unsubscribe. destruct (subscribers c !! id) as [e|] eqn:He; simpl.
    + apply G5 in He as (sv & s & _ & Hl). split; [eauto|done].
    + split; [done|]. intros (sv & s & Hl).
      assert (Hs : subscribers c !! id = Some (mkSubscription id sv s)) by (apply G5; eauto). congruence.
Qed.

Lemma center_run_truthful os pre ev post :
  zlen os < 2 ^ 64 -> (center_run os).2 = pre ++ ev :: post -> truthful pre ev.
Proof.
  revert pre ev post. induction os as [|o os IH] using rev_ind; intros pre ev post Hb E; [by destruct pre|].
  rewrite zlen_app in Hb. assert (E1 : zlen [o] = 1) by done. rewrite center_run_snoc in E.
  pose proof (center_run_ok os ltac:(lia)) as Hok. destruct (center_run os) as [c tr]. destruct Hok as [Hok _].
  pose proof (center_step_truthful c tr o Hok) as Ht. destruct (center_step c o) as [c' ev']. simpl in *.
  destruct post as [|x post _] using rev_ind.
  - apply app_inj_tail in E as [-> ->]. done.
  - rewrite app_comm_cons, app_assoc in E. apply app_inj_tail in E as [E _]. apply (IH pre ev post); [lia|done].
Qed.

(** C40: Over every history of fewer than 2^64 operations of a subscription center
    the ids it returns differ, its table holds exactly the subscriptions made and
    not undone by Unsubscribe of their id or by Close, Notify calls each of their
    subscribers once, Unsubscribe succeeds exactly for such an id, and Subscribe
    fails exactly for a nil subscriber or after Close. *)
Theorem subscriptions_are_tracked os :
  zlen os < 2 ^ 64 ->
  let '(c, tr) := center_run os in
  NoDup (omap returned tr) /\
  (forall pre ev post, tr = pre ++ ev :: post -> truthful pre ev) /\
  (forall id e, subscribers c !! id = Some e <-> exists service s, e = mkSubscription id service s /\ live tr id service s) /\
  (forall order, order ≡ₚ map_to_list (subscribers c) -> exists ls : list (Z * string * S),
     NoDup ls.*1.*1 /\ (forall id service s, (id, service, s) ∈ ls <-> live tr id service s) /\
     Notify order = ls.*2 /\ SubscriberCount c = length ls).
Proof.
  intros Hb. pose proof (center_run_ok os Hb) as Hok. pose proof (center_run_truthful os) as Ht.
  destruct (center_run os) as [c tr]. destruct Hok as [[_ _ G3 _ G5] _]. simpl in Ht.
  split_and!; [done|by intros; eapply Ht|done|]. intros order Ho.
  assert (Hin : forall id e, (id, e) ∈ order <-> subscribers c !! id = Some e)
    by (intros; by rewrite Ho, elem_of_map_to_list).
  exists ((fun x : Z * subscriptionEntry => (x.1, sub_service x.2, subscriber x.2)) <$> order). split_and!.
  - rewrite <- !list_fmap_compose. change (NoDup (order.*1)). rewrite Ho. apply NoDup_fst_map_to_list.
  - intros id sv s. rewrite list_elem_of_fmap. split.
    + intros ([i e] & [= -> -> ->] & He). apply Hin, G5 in He as (sv & s & -> & Hl). done.
    + intros Hl. exists (id, mkSubscription id sv s). split; [done|]. apply Hin, G5. eauto.
  - unfold Notify. by rewrite <- list_fmap_compose.
  - rewrite length_fmap. unfold SubscriberCount. by rewrite Ho, length_map_to_list.
Qed.
End Subscriptions.
