(* ===== verification/ConsulDemo.v ===== *)
(** * Membership at work

    A node that registers and is seen, the watcher over a few answers of Consul,
    and a service whose members vanish while it is alive. *)

From S2P Require Import Prelude Errors Effects Placement Cluster Consul ConsulFacts.

(** ** Nodes as strings of bits, in place of encoding/json *)

Definition zero : Ascii.ascii := Ascii.ascii_of_N 48.
Definition one : Ascii.ascii := Ascii.ascii_of_N 49.
Fixpoint to_bits (p : positive) : string :=
  match p with xH => String one "" | xO p => String zero (to_bits p) | xI p => String one (to_bits p) end.
Fixpoint from_bits (s : string) : option positive :=
  match s with
  | EmptyString => None
  | String c EmptyString => Some xH
  | String c s => p ← from_bits s; Some (if Ascii.eqb c zero then xO p else xI p)
  end.
Lemma bits_not_empty p : exists c s, to_bits p = String c s.
Proof. destruct p; simpl; eauto. Qed.
Lemma from_bits_cons d p :
  from_bits (String d (to_bits p)) = (q ← from_bits (to_bits p); Some (if Ascii.eqb d zero then xO q else xI q)).
Proof. destruct (bits_not_empty p) as (c & s & ->). done. Qed.
Lemma from_to_bits p : from_bits (to_bits p) = Some p.
Proof. induction p as [p IH|p IH|]; [| |done]; cbn [to_bits]; by rewrite from_bits_cons, IH. Qed.

#[export] Instance Member_eq_dec : EqDecision Member.
Proof. solve_decision. Defined.
#[export] Instance Member_countable : Countable Member.
Proof.
  refine (inj_countable'
    (fun m => (ID m, Name m, Address m, Status m, StartedAt m, Version m, Meta m))
    (fun '(i, n, a, s, t, v, me) => mkMember i n a s t v me) _).
  by intros [].
Defined.

#[export] Instance bits_json : NodeJson := {
  json_Marshal m := Ok (to_bits (encode (json_norm m)));
  json_Unmarshal s :=
    match from_bits s ≫= decode with Some m => Ok m | None => Err (ESentinel "bad node") end
}.
#[export] Instance bits_lawful : LawfulNodeJson (fun _ => True).
Proof.
  split. intros m s _ [= <-]. split.
  - destruct (bits_not_empty (encode (json_norm m))) as (c & s & ->). done.
  - simpl. rewrite from_to_bits. simpl. by rewrite decode_encode.
Qed.

(** ** A node registers *)

Definition node_1 : Member :=
  mkMember "node-1" "worker" "10.0.0.1:9000" "passing" 123 "v1.2.3" (Some {["zone" := "west"]}).

Example node_1_registers :
  match instanceToRegistration node_1 DefaultOptions with
  | Ok reg => (r_ID reg, r_Address reg, r_Port reg, r_CheckID reg) = ("node-1", "10.0.0.1", 9000, "service:node-1")
  | Err _ => False
  end.
Proof. vm_compute. done. Qed.

Example registered_node_is_seen_witness :
  exists reg, instanceToRegistration node_1 DefaultOptions = Ok reg /\
  entriesToInstances [Some (entry_of reg [Some "passing"; None; Some "warning"])] =
    {["node-1" := with_Status node_1 "warning"]}.
Proof.
  destruct (instanceToRegistration node_1 DefaultOptions) as [reg|e] eqn:E; [|vm_compute in E; discriminate].
  exists reg. split; [reflexivity|].
  refine (eq_trans (proj2 (proj2 (registered_node_is_seen (fun _ => True) node_1 DefaultOptions reg
    [Some "passing"; None; Some "warning"] I E))) _).
  reflexivity.
Defined.

Example addresses :
  (splitAddress "  ", splitAddress "[::1]:80", splitAddress ":9000") = (Ok ("", 0), Ok ("::1", 80), Ok ("", 9000)) /\
  is_ok (splitAddress "not-an-endpoint") = false /\ is_ok (splitAddress "::1:80") = false /\
  is_ok (splitAddress "[::1]80") = false /\ is_ok (splitAddress "a:70000") = false /\ is_ok (splitAddress "a]:1") = false.
Proof. vm_compute. done. Qed.

(** ** The watcher *)

Definition entry (id name address : string) : option ServiceEntry :=
  Some (mkServiceEntry (Some (mkAgentService id name address 0 None)) [Some HealthPassing]).
Definition game_1 : list (option ServiceEntry) := [entry "g1" "game" "10.0.0.1:1"].

(** The catalog names two services; their workers ask and are answered. *)
Definition first_answers : list wact :=
  [CatalogStep; CatalogAnswer (Ok (["game"; "consul"; "chat"], Some 7));
   WorkerStep 0; WorkerStep 1; WorkerAnswer 1 (Ok (game_1, Some 8)); WorkerAnswer 0 (Ok ([], Some 8))].

Example first_answers_state :
  let w := watch_run true first_answers in
  map_to_list (works w) = [("game", 1%N); ("chat", 0%N)] /\
  (fun m => map_to_list (Address <$> m)) <$> caches w !! "game" = Some [("g1", "10.0.0.1:1")] /\
  caches w !! "chat" = Some ∅ /\ (MemberById (map_to_list (caches w)) "g1").2 = true.
Proof. vm_compute. done. Qed.

Example caches_follow_consul_witness :
  exists W, workers (watch_run true first_answers) !! 1%N = Some W /\ w_phase W = AtSelect /\
    caches (watch_run true first_answers) !! w_service W = w_last W.
Proof.
  eexists. split_and!; [vm_compute; reflexivity|reflexivity|].
  apply (proj1 (caches_follow_consul true first_answers eq_refl) 1%N); [vm_compute; reflexivity|discriminate].
Defined.

(** The service leaves the catalog and comes back while its first worker is in a
    query, which no context interrupts: a second worker starts and fills the
    cache; then the query returns, and the first worker deletes the entry. The
    service is there, its worker runs and was answered, and its members are gone
    until Consul answers that worker again. *)
Definition flapping : list wact :=
  first_answers ++
  [WorkerStep 1;                                              (* a query that waits *)
   CatalogStep; CatalogAnswer (Ok (["chat"], Some 9));        (* game is gone *)
   CatalogStep; CatalogAnswer (Ok (["chat"; "game"], Some 10)); (* and back *)
   WorkerStep 2; WorkerAnswer 2 (Ok (game_1, Some 11)); WorkerStep 2;
   WorkerAnswer 1 (Ok (game_1, Some 11)); WorkerStep 1].

Example old_worker_deletes_the_cache :
  let w := watch_run false flapping in
  works w !! "game" = Some 2%N /\ "game" ∈ catalog w /\ caches w !! "game" = None /\
  (fun W => (w_cancelled W, w_phase W, (fun m : instances => map_to_list (Address <$> m)) <$> w_last W)) <$> workers w !! 2%N =
    Some (false, Querying, Some [("g1", "10.0.0.1:1")]) /\
  (MemberById (map_to_list (caches w)) "g1").2 = false.
Proof. repeat split; try (vm_compute; reflexivity). refine (bool_decide_unpack _ _). vm_compute. exact I. Qed.

(** ** Leaving *)

(** A leave that Consul refuses cannot be tried again: the keeper is gone from
    the table, and the second leave returns nil without calling Consul. *)
Definition answer_kop (fails : bool) (R : Set) (o : kop R) (r : registration) : registration * R :=
  match o in kop R return registration * R with
  | ServiceRegister _ => (r, None)
  | ServiceDeregister _ => (r, if fails then Some (ESentinel "consul is down") else None)
  | StartKeeper id => start_keeper id r
  | StopKeeper id => stop_keeper id r
  | UpdateTTL _ => (r, None)
  | Cancelled id => (r, negb (bool_decide (is_Some (keepers r !! id))))
  end.

Example failed_leave_is_final :
  let '(r, _, joined) := interp (answer_kop true) (join DefaultOptions node_1) newRegistration in
  let '(r, _, first) := interp (answer_kop true) (leave "node-1") r in
  let '(r, calls, second) := interp (answer_kop false) (leave "node-1") r in
  joined = None /\ first = Some (ESentinel "consul is down") /\ second = None /\ length calls = 1%nat.
Proof. vm_compute. done. Qed.

(** ** Subscriptions

    Two watchers come, the first leaves twice, a third comes: it gets a new id, and
    the second is not disturbed. *)
Definition watchers : list (center_op (S := Z)) :=
  [CSubscribe "a" (Some 10); CSubscribe "a" (Some 20); CUnsubscribe 1; CUnsubscribe 1; CSubscribe "b" (Some 30)].

Example watchers_events :
  (center_run watchers).2 =
  [Subscribed "a" (Some 10) (Ok 1); Subscribed "a" (Some 20) (Ok 2); Unsubscribed 1 true; Unsubscribed 1 false;
   Subscribed "b" (Some 30) (Ok 3)].
Proof. vm_compute. done. Qed.

Lemma subscriptions_are_tracked_witness :
  zlen watchers < 2 ^ 64 /\ live (center_run watchers).2 2 "a" 20 /\ ~ live (center_run watchers).2 1 "a" 10.
Proof.
  split; [reflexivity|]. pose proof (subscriptions_are_tracked watchers eq_refl) as Ht.
  destruct (center_run watchers) as [c tr] eqn:E. assert (Ec : c = (center_run watchers).1) by (rewrite E; reflexivity).
  destruct Ht as (_ & _ & Hl & _). split.
  - assert (Hs : subscribers c !! 2 = Some (mkSubscription 2 "a" 20)) by (rewrite Ec; vm_compute; reflexivity).
    apply Hl in Hs as (sv & s & Heq & Hs). injection Heq as <- <-. exact Hs.
  - intros Hs. assert (Hn : subscribers c !! 1 = None) by (rewrite Ec; vm_compute; reflexivity).
    rewrite (proj2 (Hl 1 (mkSubscription 1 "a" 10)) (ex_intro _ "a" (ex_intro _ 10 (conj eq_refl Hs)))) in Hn. discriminate Hn.
Defined.
