(* ===== verification/Sharing.v ===== *)
(** * What is copied and what is shared

    Go's maps and slices are references. cluster/member/typs.go ([Clone]) and
    consul/common.go ([cloneMeta]) copy the map of a node; consul/registry.go
    answers [Members] and [MemberById] with copies and [AllMembers] without.
    pkg/netutil's [CloneUDPAddr] copies the bytes of an address. Here the maps
    are cells of a store, so that a write through one reference is seen through
    all. Consul.v has the same queries on values: the views of these. *)

From stdpp Require Import pretty.
From S2P Require Import Prelude Cluster Consul.

(** ** The store

    Cells are never freed, and a new one gets the next number. *)
Section store.
Context {A : Type}.
Implicit Types (h : list A) (l : nat).

Definition alloc h (a : A) : list A * nat := (h ++ [a], length h).
Definition write l (a : A) h : list A := <[l := a]> h.
(** A reference is nil or the number of a cell. *)
Definition deref h (ref : option nat) : option A := ref ≫= fun l => h !! l.
Definition valid h (ref : option nat) : Prop := forall l, ref = Some l -> (l < length h)%nat.
Definition newer h (ref : option nat) : Prop := forall l, ref = Some l -> (length h <= l)%nat.

Lemma valid_app h h' ref : valid h ref -> valid (h ++ h') ref.
Proof. intros Hv l E. specialize (Hv l E). rewrite length_app. lia. Qed.
Lemma deref_app h h' ref : valid h ref -> deref (h ++ h') ref = deref h ref.
Proof. destruct ref as [l|]; [|done]. intros Hv. apply lookup_app_l. by apply Hv. Qed.
Lemma newer_app h h' ref : newer (h ++ h') ref -> newer h ref.
Proof. intros Hn l E. specialize (Hn l E). rewrite length_app in Hn. lia. Qed.
Lemma deref_write_old h l a ref : valid h ref -> (length h <= l)%nat -> forall h',
  deref (write l a (h ++ h')) ref = deref h ref.
Proof.
  destruct ref as [k|]; [|done]. intros Hv Hl h'. specialize (Hv k eq_refl).
  unfold deref, write. simpl. rewrite list_lookup_insert_ne by lia. by apply lookup_app_l.
Qed.
Lemma deref_write_new h l a ref : newer h ref -> (l < length h)%nat -> forall h',
  deref (write l a h') ref = deref h' ref.
Proof.
  destruct ref as [k|]; [|done]. intros Hn Hl h'. specialize (Hn k eq_refl).
  unfold deref, write. simpl. by rewrite list_lookup_insert_ne by lia.
Qed.
End store.

(** ** Nodes with a map of their own *)

Abbreviation meta := (gmap string string).
Abbreviation store := (list meta).

(** member.NodeInfo: [n_Meta] is the reference to its map. *)
Record NodeRef := mkNodeRef {
  n_ID : string; n_Name : string; n_Address : string; n_Status : string;
  n_StartedAt : Z; n_Version : string; n_Meta : option nat }.
Definition with_ref (m : NodeRef) (ref : option nat) : NodeRef :=
  mkNodeRef (n_ID m) (n_Name m) (n_Address m) (n_Status m) (n_StartedAt m) (n_Version m) ref.
Definition zero_node : NodeRef := mkNodeRef "" "" "" "" 0 "" None.

(** What a reader of the node sees. *)
Definition view (h : store) (m : NodeRef) : Member :=
  mkMember (n_ID m) (n_Name m) (n_Address m) (n_Status m) (n_StartedAt m) (n_Version m) (deref h (n_Meta m)).

(** [for key, value := range meta { clone[key] = value }] *)
Definition copy_map (m : meta) : meta := foldl (fun c x => <[x.1 := x.2]> c) ∅ (map_to_list m).

Lemma copy_map_same m : copy_map m = m.
Proof.
  unfold copy_map. rewrite <- (list_to_map_to_list m) at 2. pose proof (NoDup_fst_map_to_list m) as Hl.
  transitivity (list_to_map (M := meta) (reverse (map_to_list m))).
  - clear Hl. induction (map_to_list m) as [|[k v] l IH] using rev_ind; [done|].
    by rewrite foldl_app, reverse_snoc, IH.
  - apply list_to_map_proper; [|by rewrite reverse_Permutation]. by rewrite fmap_reverse, reverse_Permutation.
Qed.

(** consul/common.go *)
Definition cloneMeta (h : store) (ref : option nat) : store * option nat :=
  match ref with
  | None => (h, None)
  | Some l => let '(h, k) := alloc h (copy_map (default ∅ (h !! l))) in (h, Some k)
  end.

(** member/typs.go *)
Definition Clone (h : store) (m : NodeRef) : store * NodeRef :=
  match n_Meta m with
  | None => (h, with_ref m None)
  | Some l => let '(h, k) := alloc h (copy_map (default ∅ (h !! l))) in (h, with_ref m (Some k))
  end.

(** ** registry.go, over the cached nodes

    [order] lists the entries of the maps as the code ranges over them. *)
Fixpoint Members (h : store) (order : list (string * NodeRef)) (ret : gmap string NodeRef)
  : store * gmap string NodeRef :=
  match order with
  | [] => (h, ret)
  | (_, m) :: order => let '(h, clone) := Clone h m in Members h order (<[n_ID m := clone]> ret)
  end.

Fixpoint find_member (order : list (string * gmap string NodeRef)) (serviceId : string) : NodeRef * bool :=
  match order with
  | [] => (zero_node, false)
  | (_, value) :: order =>
    match value !! serviceId with Some m => (m, true) | None => find_member order serviceId end
  end.
Definition MemberById (h : store) (order : list (string * gmap string NodeRef)) (serviceId : string)
  : store * (NodeRef * bool) :=
  let '(result, ok) := find_member order serviceId in
  let '(h, clone) := Clone h result in (h, (clone, ok)).

Definition AllMembers (order : list (string * list (string * NodeRef))) : list NodeRef :=
  order ≫= fun x => x.2.*2.

(** What the queries of Consul.v range over. *)
Definition view_entries (h : store) (order : list (string * NodeRef)) : list (string * Member) :=
  (fun x : string * NodeRef => (x.1, view h x.2)) <$> order.
Definition view_caches (h : store) (order : list (string * gmap string NodeRef)) : list (string * instances) :=
  (fun x : string * gmap string NodeRef => (x.1, view h <$> x.2)) <$> order.
Definition view_dicts (h : store) (order : list (string * list (string * NodeRef))) : list (string * list (string * Member)) :=
  (fun x : string * list (string * NodeRef) => (x.1, view_entries h x.2)) <$> order.

(** ** Copies *)

(** [c] is a copy of [m]: it looks like [m] and its map is new. *)
Lemma Clone_spec h m h' c : valid h (n_Meta m) -> Clone h m = (h', c) ->
  (exists cells, h' = h ++ cells) /\ view h' c = view h m /\ newer h (n_Meta c) /\ n_ID c = n_ID m.
Proof.
  destruct m as [i n a st t v [l|]]; unfold Clone, alloc; simpl; intros Hv [= <- <-]; unfold view; simpl.
  - destruct (lookup_lt_is_Some_2 h l (Hv l eq_refl)) as [m Hm]. unfold deref. simpl.
    rewrite Hm, list_lookup_middle by done. simpl. rewrite copy_map_same.
    split; [by eexists|]. split; [done|]. split; [|done]. intros k [= <-]. lia.
  - split; [exists []; by rewrite app_nil_r|]. split; [done|]. split; [|done]. by intros k ?.
Qed.

Lemma cloneMeta_spec h ref h' c : valid h ref -> cloneMeta h ref = (h', c) ->
  (exists cells, h' = h ++ cells) /\ deref h' c = deref h ref /\ newer h c.
Proof.
  destruct ref as [l|]; unfold cloneMeta, alloc; simpl; intros Hv [= <- <-].
  - destruct (lookup_lt_is_Some_2 h l (Hv l eq_refl)) as [m Hm]. unfold deref. simpl.
    rewrite Hm, list_lookup_middle by done. simpl. rewrite copy_map_same.
    split; [by eexists|]. split; [done|]. intros k [= <-]. lia.
  - split; [exists []; by rewrite app_nil_r|]. split; [done|]. by intros k ?.
Qed.

Lemma view_app h cells m : valid h (n_Meta m) -> view (h ++ cells) m = view h m.
Proof. intros Hv. unfold view. by rewrite deref_app. Qed.
Lemma Clone_app h m h' c cells : valid h (n_Meta m) -> Clone h m = (h', c) -> view (h' ++ cells) c = view h m.
Proof.
  intros Hv E. destruct (Clone_spec _ _ _ _ Hv E) as ([cs ->] & Hview & _ & _). rewrite <- Hview. apply view_app.
  destruct m as [i n a st t v [l|]]; unfold Clone, alloc in E; simpl in E; injection E as E <-.
  - apply app_inv_head in E as <-. intros k [= <-]. rewrite length_app. simpl. lia.
  - by intros k ?.
Qed.

(** What the loop of [Members] keeps: the answers look like the nodes of the
    value model and their maps are newer than the store it started on. *)
Record copied (h0 h : store) (ret : gmap string NodeRef) (seen : gmap string Member) : Prop := {
  cp_more : exists cells, h = h0 ++ cells;
  cp_same : forall cells, view (h ++ cells) <$> ret = seen;
  cp_new : forall id c, ret !! id = Some c -> newer h0 (n_Meta c) }.

Lemma Members_copied (h0 : store) order : forall h ret seen,
  copied h0 h ret seen -> Forall (fun x : string * NodeRef => valid h0 (n_Meta x.2)) order ->
  let '(h', ret') := Members h order ret in
  copied h0 h' ret' (foldl (fun r x => <[ID x.2 := x.2]> r) seen (view_entries h0 order)).
Proof.
  induction order as [|[k m] order IH]; intros h ret seen [[cells ->] Hsame Hnew] Hv; simpl; [by split; [eexists| |]|].
  apply Forall_cons in Hv as [Hm Hv]. simpl in Hm. destruct (Clone (h0 ++ cells) m) as [h c] eqn:E.
  pose proof (valid_app h0 cells _ Hm) as Hm'.
  destruct (Clone_spec _ _ _ _ Hm' E) as ([cs ->] & _ & Hc & _). apply IH; [|done]. split.
  - exists (cells ++ cs). by rewrite (assoc_L (++)).
  - intros more. rewrite fmap_insert. f_equal.
    + rewrite (Clone_app _ _ _ _ more Hm' E). by apply view_app.
    + rewrite <- (assoc_L (++)). apply Hsame.
  - intros id c'. rewrite lookup_insert_Some. intros [[_ <-]|[_ ?]]; [by eapply newer_app|by eapply Hnew].
Qed.

(** [Members] answers what Consul.v says, with copies: no write to a map of the
    answer is seen in the caches, and none to a map of the caches in the answer. *)
Theorem members_are_copies (h : store) order h' ret :
  Forall (fun x : string * NodeRef => valid h (n_Meta x.2)) order -> Members h order ∅ = (h', ret) ->
  view h' <$> ret = Consul.Members (view_entries h order) /\
  (forall id c l a, ret !! id = Some c -> n_Meta c = Some l ->
     forall m, valid h (n_Meta m) -> view (write l a h') m = view h m) /\
  (forall m l a, valid h (n_Meta m) -> n_Meta m = Some l -> view (write l a h') <$> ret = view h' <$> ret).
Proof.
  intros Hv E. pose proof (Members_copied h order h ∅ ∅) as Hc. rewrite E in Hc.
  destruct Hc as [[cells ->] Hsame Hnew]; [|done|].
  { split; [exists []; by rewrite app_nil_r|intros; apply fmap_empty|by intros id c ?%lookup_empty_Some]. }
  split; [specialize (Hsame []); by rewrite app_nil_r in Hsame|]. split.
  - intros id c l a Hid El m Hm. unfold view. rewrite deref_write_old; [done|done|]. exact (Hnew _ _ Hid l El).
  - intros m l a Hm El. apply map_fmap_ext. intros id c Hid. unfold view.
    rewrite (deref_write_new h) by (by apply Hm || by eapply Hnew). done.
Qed.

Lemma find_member_view h order id :
  let '(m, ok) := find_member order id in
  (view h m, ok) = Consul.MemberById (view_caches h order) id.
Proof.
  induction order as [|[k v] order IH]; [done|]. simpl. rewrite lookup_fmap.
  destruct (v !! id) as [m|]; [done|]. apply IH.
Qed.

Lemma find_member_valid (h : store) order id :
  Forall (fun x : string * gmap string NodeRef => map_Forall (fun _ m => valid h (n_Meta m)) x.2) order -> valid h (n_Meta (find_member order id).1).
Proof.
  induction 1 as [|[k v] order Hv _ IH]; simpl; [by intros l ?|]. destruct (v !! id) as [m|] eqn:E; [|done].
  exact (Hv id m E).
Qed.

Theorem member_by_id_is_a_copy (h : store) order id h' m ok :
  Forall (fun x : string * gmap string NodeRef => map_Forall (fun _ m => valid h (n_Meta m)) x.2) order -> MemberById h order id = (h', (m, ok)) ->
  (view h' m, ok) = Consul.MemberById (view_caches h order) id /\
  forall l a m', n_Meta m = Some l -> valid h (n_Meta m') -> view (write l a h') m' = view h m'.
Proof.
  intros Hv E. pose proof (find_member_view h order id) as Hview. pose proof (find_member_valid h order id Hv) as Hval.
  unfold MemberById in E. destruct (find_member order id) as [r ok0]. destruct (Clone h r) as [h1 c] eqn:Ec.
  injection E as -> -> ->. destruct (Clone_spec _ _ _ _ Hval Ec) as ([cells ->] & Hs & Hn & _).
  split; [by rewrite Hs|]. intros l a m' El Hm'. unfold view. by rewrite deref_write_old; [|done|apply Hn].
Qed.

(** [AllMembers] answers what Consul.v says, but with the cached nodes: a write
    to the map of an answer is a write to the cache. *)
Theorem all_members_are_shared h order :
  view h <$> AllMembers order = Consul.AllMembers (view_dicts h order) /\
  forall m, m ∈ AllMembers order -> exists service members, (service, members) ∈ order /\ m ∈ members.*2.
Proof.
  split.
  - unfold AllMembers, Consul.AllMembers, view_dicts, mbind. induction order as [|[k v] order IH]; [done|].
    cbn [list_bind fmap list_fmap]. rewrite fmap_app. f_equal; [|exact IH]. cbn [snd].
    unfold view_entries. rewrite <- !list_fmap_compose. by apply list_fmap_ext.
  - intros m Hm. apply list_elem_of_bind in Hm as ([service members] & Hm & Hin). by exists service, members.
Qed.

(** A caller that marks the map of a node of [AllMembers] changes what the next
    [MemberById] answers; marking the answer of [MemberById] does not. *)
Definition demo_store : store := [{["zone" := "a"]}].
Definition demo_node : NodeRef := mkNodeRef "n1" "game" "h:1" "passing" 0 "" (Some 0%nat).
Definition demo_order : list (string * gmap string NodeRef) := [("game", {["n1" := demo_node]})].
Definition zone (h : store) (m : NodeRef) : option string := deref h (n_Meta m) ≫= fun x => x !! "zone".

Lemma all_members_leak_the_cache :
  match AllMembers [("game", [("n1", demo_node)])] with
  | [m] =>
    let h := match n_Meta m with Some l => write l {["zone" := "b"]} demo_store | None => demo_store end in
    let '(h, (m, ok)) := MemberById h demo_order "n1" in ok = true /\ zone h m = Some "b"
  | _ => False
  end.
Proof. by vm_compute. Qed.

Lemma member_by_id_is_a_copy_witness :
  let '(h', (m, ok)) := MemberById demo_store demo_order "n1" in
  forall l a, n_Meta m = Some l -> view (write l a h') demo_node = view demo_store demo_node.
Proof.
  assert (Hv : Forall (fun x : string * gmap string NodeRef => map_Forall (fun _ m => valid demo_store (n_Meta m)) x.2) demo_order).
  { constructor; [|constructor]. intros id m Hm. simpl in Hm. apply lookup_singleton_Some in Hm as [_ <-].
    intros l [= <-]. simpl. lia. }
  destruct (MemberById demo_store demo_order "n1") as [h' [m ok]] eqn:E.
  intros l a El. eapply (member_by_id_is_a_copy _ _ _ _ _ _ Hv E); [exact El|]. intros k [= <-]. simpl. lia.
Defined.
