(* ===== verification/Netutil.v ===== *)
(** * pkg/netutil: addresses, reset connections, listeners

    net.go and sockopt_unix.go, sockopt_windows.go. [net.SplitHostPort],
    [net.JoinHostPort] and [strconv.Atoi] are those of Consul.v; errors of the
    standard library are trees with [errors.Is] and [errors.As]; a listener is a
    program over the calls of the operating system. *)

From stdpp Require Import pretty.
From S2P Require Import Prelude Errors Effects Placement Cluster Consul Sharing.

(** ** Addresses *)

Definition EndpointAddress (host : string) (port : Z) : string :=
  if port <=? 0 then TrimSpace host else JoinHostPort (TrimSpace host) (pretty port).

Definition SplitHostPort (address : string) : res gerr (string * Z) :=
  match Consul.SplitHostPort address with
  | Err err => Err (wrap ("invalid rpc address " +:+ address +:+ ": ") err)
  | Ok (host, rawPort) =>
    match Atoi rawPort with
    | Some port =>
      if port <=? 0 then Err (ESentinel ("invalid rpc address port " +:+ rawPort)) else Ok (host, port)
    | None => Err (ESentinel ("invalid rpc address port " +:+ rawPort))
    end
  end.

(** ** Which errors mean that the peer is gone

    [syscall.Errno]s are numbers and compare as such; [*net.OpError] unwraps to
    its [Err]; [NOther] is any other error, compared by identity. *)
Inductive neterr :=
| NEof
| NErrno (n : Z)
| NOther (id : N)
| NOpError (op : string) (err : option neterr)
| NWrap (prefix : string) (err : neterr)
| NJoin (errs : list neterr).

Section neterr_ind.
Context (P : neterr -> Prop) (HE : P NEof) (HN : forall n, P (NErrno n)) (HO : forall i, P (NOther i))
  (HP0 : forall op, P (NOpError op None)) (HP : forall op e, P e -> P (NOpError op (Some e)))
  (HW : forall p e, P e -> P (NWrap p e)) (HJ : forall es, Forall P es -> P (NJoin es)).
Fixpoint neterr_tree_ind (e : neterr) : P e :=
  match e with
  | NEof => HE
  | NErrno n => HN n
  | NOther i => HO i
  | NOpError op None => HP0 op
  | NOpError op (Some e) => HP op e (neterr_tree_ind e)
  | NWrap p e => HW p e (neterr_tree_ind e)
  | NJoin es =>
    HJ es ((fix go es : Forall P es :=
              match es with
              | [] => Forall_nil_2 P
              | e :: es => Forall_cons_2 P e es (neterr_tree_ind e) (go es)
              end) es)
  end.
End neterr_ind.

(** The targets the code compares with. *)
Inductive target := TEof | TErrno (n : Z).
Definition is_target (t : target) (e : neterr) : bool :=
  match t, e with
  | TEof, NEof => true
  | TErrno n, NErrno m => n =? m
  | _, _ => false
  end.

Fixpoint Is (e : neterr) (t : target) : bool :=
  is_target t e ||
  match e with
  | NEof | NErrno _ | NOther _ => false
  | NOpError _ None => false
  | NOpError _ (Some e) | NWrap _ e => Is e t
  | NJoin es => (fix go es : bool := match es with [] => false | e :: es => Is e t || go es end) es
  end.
Definition Is_opt (e : option neterr) (t : target) : bool := match e with Some e => Is e t | None => false end.

(** [errors.As(err, &opErr)]: the [Err] of the first [*net.OpError]. *)
Fixpoint As_OpError (e : neterr) : option (option neterr) :=
  match e with
  | NEof | NErrno _ | NOther _ => None
  | NOpError _ err => Some err
  | NWrap _ e => As_OpError e
  | NJoin es =>
    (fix go es : option (option neterr) :=
       match es with
       | [] => None
       | e :: es => match As_OpError e with Some r => Some r | None => go es end
       end) es
  end.

(** syscall's number on this platform, and Windows' own. *)
Definition WSAECONNRESET : Z := 10054.
Section reset.
Context (ECONNRESET : Z).

Definition IsConnectionReset (err : option neterr) : bool :=
  match err with
  | None => false
  | Some e =>
    if Is e TEof then true
    else if Is e (TErrno ECONNRESET) then true
    else if Is e (TErrno WSAECONNRESET) then true
    else match As_OpError e with
         | Some opErr => Is_opt opErr (TErrno ECONNRESET) || Is_opt opErr (TErrno WSAECONNRESET)
         | None => false
         end
  end.
End reset.

(** ** Listeners

    [net.ListenConfig] calls [Control] on the new socket before it binds it; a
    raw connection calls the function it is given with its descriptor. *)
Inductive lop : Set -> Type :=
| Socket (network addr : string) : lop (res gerr Z)
| RawControl (fd : Z) : lop (option gerr) (* whether the descriptor may be used *)
| SetsockoptInt (fd level name value : Z) : lop (option gerr)
| Bind (fd : Z) (addr : string) : lop (res gerr Z)
| CloseFd (fd : Z) : lop unit.

Section listener.
Context (SOL_SOCKET SO_REUSEADDR : Z).

(** sockopt_unix.go and sockopt_windows.go *)
Definition applySocketReuseOptions (fd : Z) : prog lop (option gerr) :=
  err <-! SetsockoptInt fd SOL_SOCKET SO_REUSEADDR 1; Ret err.

(** [c.Control(f)] of syscall.RawConn *)
Definition raw_Control (fd : Z) (f : Z -> prog lop unit) : prog lop (option gerr) :=
  err <-! RawControl fd;
  match err with Some err => Ret (Some err) | None => _ <~ f fd; Ret None end.

Definition setReuseSocketOpt (fd : Z) : prog lop (option gerr) :=
  raw_Control fd (fun fd => _ <~ applySocketReuseOptions fd; Ret tt).

(** [ListenConfig.Listen] and [ListenPacket] *)
Definition ListenConfig_Listen (Control : Z -> prog lop (option gerr)) (network addr : string) : prog lop (res gerr Z) :=
  made <-! Socket network addr;
  match made with
  | Err err => Ret (Err err)
  | Ok fd =>
    err <~ Control fd;
    match err with
    | Some err => do! CloseFd fd; Ret (Err err)
    | None => bound <-! Bind fd addr; match bound with Ok l => Ret (Ok l) | Err err => do! CloseFd fd; Ret (Err err) end
    end
  end.

Definition NewReuseTcpListener (network addr : string) : prog lop (res gerr Z) :=
  ListenConfig_Listen setReuseSocketOpt network addr.
Definition NewReuseUdpListener (network addr : string) : prog lop (res gerr Z) :=
  ListenConfig_Listen setReuseSocketOpt network addr.
End listener.

(** ** Copies of addresses

    A slice is a range of a cell; [net.UDPAddr] holds one. *)
Record slice := mkSlice { s_cell : nat; s_from : nat; s_to : nat }.
Record UDPAddr := mkUDPAddr { IP : option slice; Port : Z; Zone : string }.
Abbreviation bytes_store := (list (list Z)).

Definition slice_bytes (h : bytes_store) (s : option slice) : list Z :=
  match s with
  | Some s => take (s_to s - s_from s) (drop (s_from s) (default [] (h !! s_cell s)))
  | None => []
  end.
(** [append([]byte(nil), src...)]: nil when there is nothing to append. *)
Definition append_nil (h : bytes_store) (src : list Z) : bytes_store * option slice :=
  match src with
  | [] => (h, None)
  | _ => let '(h, l) := alloc h src in (h, Some (mkSlice l 0 (length src)))
  end.
Definition CloneUDPAddr (h : bytes_store) (addr : option UDPAddr) : bytes_store * option UDPAddr :=
  match addr with
  | None => (h, None)
  | Some a => let '(h, ip) := append_nil h (slice_bytes h (IP a)) in (h, Some (mkUDPAddr ip (Port a) (Zone a)))
  end.

(** ** What holds *)

Fixpoint leaves (e : neterr) : list neterr :=
  match e with
  | NEof | NErrno _ | NOther _ => [e]
  | NOpError _ None => []
  | NOpError _ (Some e) | NWrap _ e => leaves e
  | NJoin es => (fix go es : list neterr := match es with [] => [] | e :: es => leaves e ++ go es end) es
  end.

Lemma Is_leaves e t : Is e t = existsb (is_target t) (leaves e).
Proof.
  induction e as [|n|i|op|op e IH|p e IH|es IH] using neterr_tree_ind; simpl; rewrite ?orb_false_r; try done.
  - by destruct t.
  - rewrite IH. by destruct t.
  - rewrite IH. by destruct t.
  - transitivity (existsb (is_target t) ((fix go es : list neterr := match es with [] => [] | e :: es => leaves e ++ go es end) es));
      [|done]. assert (Hf : is_target t (NJoin es) = false) by by destruct t. rewrite Hf. simpl. clear Hf.
    induction IH as [|e es He _ IHes]; [done|]. rewrite existsb_app, <- He, <- IHes. done.
Qed.

(** The error an OpError wraps is already searched when the whole is. *)
Lemma As_OpError_Is e err t : As_OpError e = Some err -> Is_opt err t = true -> Is e t = true.
Proof.
  induction e as [|n|i|op|op e IH|p e IH|es IH] using neterr_tree_ind; simpl; try done.
  - intros [= <-]. done.
  - intros [= <-] H. simpl in H. rewrite H. apply orb_true_r.
  - intros Ha H. rewrite IH by done. apply orb_true_r.
  - intros Ha H. apply orb_true_iff. right. induction IH as [|e es He _ IHes]; [done|]. apply orb_true_iff.
    destruct (As_OpError e) as [r|]; [|by right; apply IHes]. injection Ha as ->. left. by apply He.
Qed.

(** A connection is taken for reset exactly when io.EOF, ECONNRESET or
    WSAECONNRESET is somewhere in the tree of the error: the last check, for
    errors inside a net.OpError, adds nothing. *)
Theorem IsConnectionReset_searches_the_tree ECONNRESET err :
  IsConnectionReset ECONNRESET err = true <->
  exists e leaf, err = Some e /\ leaf ∈ leaves e /\
    (leaf = NEof \/ leaf = NErrno ECONNRESET \/ leaf = NErrno WSAECONNRESET).
Proof.
  destruct err as [e|]; [|split; [done|by intros (e & l & ? & _)]]. unfold IsConnectionReset.
  transitivity (Is e TEof || Is e (TErrno ECONNRESET) || Is e (TErrno WSAECONNRESET) = true).
  - destruct (Is e TEof) eqn:E1; [done|]. destruct (Is e (TErrno ECONNRESET)) eqn:E2; [done|].
    destruct (Is e (TErrno WSAECONNRESET)) eqn:E3; [done|]. simpl. split; [|done].
    destruct (As_OpError e) as [opErr|] eqn:Ea; [|done]. intros [H|H]%orb_true_iff; exfalso.
    + by rewrite (As_OpError_Is _ _ _ Ea H) in E2.
    + by rewrite (As_OpError_Is _ _ _ Ea H) in E3.
  - rewrite !Is_leaves, !orb_true_iff, !existsb_exists. setoid_rewrite <- list_elem_of_In. split.
    + intros [[(l & Hl & H)|(l & Hl & H)]|(l & Hl & H)]; exists e, l; split; try done; split; try done;
        destruct l; try done; try apply Z.eqb_eq in H as <-; auto.
    + intros (e' & l & [= <-] & Hl & [->|[->| ->]]).
      * left; left. by exists NEof.
      * left; right. exists (NErrno ECONNRESET). split; [done|]. apply Z.eqb_refl.
      * right. exists (NErrno WSAECONNRESET). split; [done|]. apply Z.eqb_refl.
Qed.

(** *** Decimal numbers and back *)

Definition digit_step (acc : option Z) (c : Ascii.ascii) : option Z :=
  n ← acc; let d := Z.of_N (Ascii.N_of_ascii c) - 48 in
           if (0 <=? d) && (d <=? 9) then Some (10 * n + d) else None.

Lemma digit_char (x : N) : (x < 10)%N -> Z.of_N (Ascii.N_of_ascii (pretty_N_char x)) - 48 = Z.of_N x.
Proof.
  intros Hx. assert (Hin : x ∈ [0; 1; 2; 3; 4; 5; 6; 7; 8; 9]%N).
  { rewrite !elem_of_cons. lia. }
  repeat (apply elem_of_cons in Hin as [->|Hin]; [done|]). by apply elem_of_nil in Hin.
Qed.

Lemma digits_go (x : N) : forall s,
  foldl digit_step (Some 0) (String.list_ascii_of_string (pretty_N_go x s)) =
  foldl digit_step (Some (Z.of_N x)) (String.list_ascii_of_string s).
Proof.
  induction (N.lt_wf_0 x) as [x _ IH]. intros s. destruct (decide (x = 0)%N) as [->|Hx]; [by rewrite pretty_N_go_0|].
  rewrite pretty_N_go_step by lia. rewrite IH by (apply N.div_lt; lia). simpl. unfold digit_step at 2. simpl.
  rewrite digit_char by (apply N.mod_lt; lia).
  assert (Hm : (x `mod` 10 < 10)%N) by (apply N.mod_lt; lia).
  rewrite (proj2 (Z.leb_le 0 _)) by apply N2Z.is_nonneg.
  rewrite (proj2 (Z.leb_le _ 9)) by (revert Hm; generalize (x `mod` 10)%N; lia). cbn [andb].
  rewrite N2Z.inj_div, N2Z.inj_mod, <- Z.div_mod by done. done.
Qed.

(** A string of digits. *)
Definition decimal (s : string) : Prop :=
  Forall (fun c => exists x, (x < 10)%N /\ c = pretty_N_char x) (String.list_ascii_of_string s).
Lemma decimal_go (x : N) : forall s, decimal s -> decimal (pretty_N_go x s).
Proof.
  induction (N.lt_wf_0 x) as [x _ IH]. intros s Hs. destruct (decide (x = 0)%N) as [->|Hx]; [by rewrite pretty_N_go_0|].
  rewrite pretty_N_go_step by lia. apply IH; [apply N.div_lt; lia|]. constructor; [|done].
  exists (x `mod` 10)%N. split; [apply N.mod_lt; lia|done].
Qed.

Lemma pretty_pos (n : Z) : 0 < n -> pretty n = pretty_N_go (Z.to_N n) "".
Proof.
  intros Hn. destruct n as [|p|p]; try lia. change (pretty (Z.pos p)) with (pretty (N.pos p)).
  by unfold pretty, pretty_N.
Qed.
Lemma decimal_pretty n : 0 < n -> decimal (pretty n).
Proof. intros Hn. rewrite pretty_pos by done. apply decimal_go. constructor. Qed.
Lemma digits_pretty n : 0 < n -> digits (String.list_ascii_of_string (pretty n)) = Some n.
Proof.
  intros Hn. transitivity (foldl digit_step (Some 0) (String.list_ascii_of_string (pretty n))).
  - assert (Hne : pretty n <> ""); [|by destruct (pretty n)]. rewrite pretty_pos by done. intros E.
    pose proof (digits_go (Z.to_N n) "") as H. rewrite E in H. simpl in H. injection H. lia.
  - rewrite pretty_pos, digits_go by done. simpl. f_equal. lia.
Qed.

Lemma Atoi_pretty n : 0 < n < 2 ^ 63 -> Atoi (pretty n) = Some n.
Proof.
  intros Hn. unfold Atoi. pose proof (digits_pretty n ltac:(lia)) as Hd. pose proof (decimal_pretty n ltac:(lia)) as Hp.
  unfold decimal in Hp. destruct (String.list_ascii_of_string (pretty n)) as [|c l]; [done|].
  apply Forall_cons in Hp as [(x & Hx & Hc) _]. pose proof (digit_char x Hx) as Hv. rewrite <- Hc in Hv.
  rewrite !bool_decide_eq_false_2 by (intros ->; cbn in Hv; pose proof (N2Z.is_nonneg x); lia). rewrite Hd. cbn [mbind option_bind].
  destruct (_ && _) eqn:E; [done|]. apply andb_false_iff in E as [E|E]; zbool; lia.
Qed.

(** *** Hosts and ports *)

Definition colon_free (l : list Ascii.ascii) : Prop := chr 58 ∉ l.
Lemma split_last_app c l r : c ∉ r -> split_last c (l ++ c :: r) = Some (l, r).
Proof.
  intros Hr. induction l as [|x l IH]; simpl.
  - assert (E : split_last c r = None).
    { induction r as [|y r IH]; [done|]. simpl. rewrite IH by set_solver. rewrite bool_decide_eq_false_2; [done|set_solver]. }
    rewrite E. by rewrite bool_decide_eq_true_2.
  - by rewrite IH.
Qed.

Lemma decimal_no (c : Ascii.ascii) s : decimal s -> (forall x, (x < 10)%N -> c <> pretty_N_char x) -> c ∉ String.list_ascii_of_string s.
Proof. intros Hs Hc Hin. unfold decimal in Hs; rewrite Forall_forall in Hs. destruct (Hs c Hin) as (x & Hx & ->). by eapply Hc. Qed.
Lemma not_digit c : Z.of_N (Ascii.N_of_ascii c) - 48 < 0 \/ 9 < Z.of_N (Ascii.N_of_ascii c) - 48 ->
  forall x, (x < 10)%N -> c <> pretty_N_char x.
Proof. intros H x Hx ->. rewrite digit_char in H by done. lia. Qed.

Lemma ascii_list_app a b :
  String.list_ascii_of_string (a +:+ b) = String.list_ascii_of_string a ++ String.list_ascii_of_string b.
Proof. induction a as [|c a IH]; [done|]. simpl. by rewrite IH. Qed.
Lemma str_list s : str (String.list_ascii_of_string s) = s.
Proof. apply String.string_of_list_ascii_of_string. Qed.
Lemma contains_elem c s : contains c s = true <-> c ∈ String.list_ascii_of_string s.
Proof.
  unfold contains. rewrite existsb_exists. setoid_rewrite <- list_elem_of_In. split.
  - intros (x & Hx & E%Ascii.eqb_eq). by subst.
  - intros Hc. exists c. split; [done|]. apply Ascii.eqb_refl.
Qed.

(** Hosts without brackets, as names and IP addresses are. *)
Definition no_brackets (host : string) : Prop :=
  chr 91 ∉ String.list_ascii_of_string host /\ chr 93 ∉ String.list_ascii_of_string host.

Lemma split_bracketed s h p :
  String.list_ascii_of_string s = chr 91 :: (h ++ chr 93 :: chr 58 :: p) ->
  chr 91 ∉ h -> chr 93 ∉ h -> chr 58 ∉ p -> chr 91 ∉ p -> chr 93 ∉ p -> Consul.SplitHostPort s = Ok (str h, str p).
Proof.
  intros E Ho Hc H1 H2 H3. unfold Consul.SplitHostPort. rewrite E.
  assert (Es : split_last (chr 58) (chr 91 :: (h ++ chr 93 :: chr 58 :: p)) = Some (chr 91 :: (h ++ [chr 93]), p)).
  { rewrite <- (split_last_app (chr 58) (chr 91 :: (h ++ [chr 93])) p H1). f_equal. simpl. f_equal.
    by rewrite <- (assoc_L (++)). }
  rewrite Es, bool_decide_eq_true_2 by done.
  assert (El : list_find (eq (chr 93)) (chr 91 :: (h ++ chr 93 :: chr 58 :: p)) = Some (S (length h), chr 93)).
  { apply list_find_Some. split; [|split; [done|]].
    - simpl. by rewrite list_lookup_middle.
    - intros [|j] y Hj Hlt; simpl in Hj; [by injection Hj as <-|]. intros <-.
      rewrite lookup_app_l in Hj by lia. apply Hc. by eapply list_elem_of_lookup_2. }
  rewrite El. simpl length. rewrite !length_app. simpl length.
  rewrite (proj2 (Nat.eqb_neq _ _)) by lia. rewrite (proj2 (Nat.eqb_eq _ _)) by lia.
  rewrite bool_decide_eq_false_2, bool_decide_eq_false_2.
  - simpl. by rewrite take_app_length.
  - cbn [drop]. rewrite drop_app_ge by lia. replace (S (length h) - length h)%nat with 1%nat by lia.
    cbn [drop]. set_solver.
  - simpl. set_solver.
Qed.

Lemma split_plain s h p :
  String.list_ascii_of_string s = h ++ chr 58 :: p -> chr 58 ∉ h ->
  chr 91 ∉ h -> chr 93 ∉ h -> chr 58 ∉ p -> chr 91 ∉ p -> chr 93 ∉ p -> Consul.SplitHostPort s = Ok (str h, str p).
Proof.
  intros E Hh Ho Hc H1 H2 H3. unfold Consul.SplitHostPort. rewrite E, split_last_app by done.
  assert (Hl : chr 91 ∉ h ++ chr 58 :: p /\ chr 93 ∉ h ++ chr 58 :: p) by (split; set_solver).
  destruct Hl as [L1 L2]. destruct h as [|x h].
  - by rewrite !bool_decide_eq_false_2.
  - rewrite (bool_decide_eq_false_2 (x = _)) by set_solver. rewrite (bool_decide_eq_false_2 (_ ∈ x :: h)) by done.
    by rewrite !bool_decide_eq_false_2.
Qed.

(** Splitting a joined address gives host and port back, with or without colons
    in the host. *)
Lemma split_join host port : no_brackets host -> 0 < port ->
  Consul.SplitHostPort (JoinHostPort host (pretty port)) = Ok (host, pretty port).
Proof.
  intros [Ho Hc] Hp. pose proof (decimal_pretty port Hp) as Hd.
  assert (Hno : forall c, c = chr 58 \/ c = chr 91 \/ c = chr 93 -> c ∉ String.list_ascii_of_string (pretty port)).
  { intros c E. apply decimal_no; [done|]. apply not_digit. destruct E as [->|[->| ->]]; vm_compute; auto. }
  rewrite <- (str_list host) at 2. rewrite <- (str_list (pretty port)) at 2. unfold JoinHostPort.
  destruct (contains (chr 58) host) eqn:Eh.
  - apply split_bracketed; auto. by rewrite !ascii_list_app.
  - apply split_plain; auto. { by rewrite !ascii_list_app. } rewrite <- contains_elem. by rewrite Eh.
Qed.

(** An endpoint's address splits into its host, without the spaces around it, and
    its port. *)
Theorem EndpointAddress_splits host port :
  no_brackets (TrimSpace host) -> 0 < port < 2 ^ 63 -> SplitHostPort (EndpointAddress host port) = Ok (TrimSpace host, port).
Proof.
  intros Hh Hp. unfold SplitHostPort, EndpointAddress. rewrite (proj2 (Z.leb_gt port 0)) by lia.
  rewrite split_join by (done || lia). rewrite Atoi_pretty by lia. by rewrite (proj2 (Z.leb_gt port 0)) by lia.
Qed.

Lemma EndpointAddress_splits_witness : SplitHostPort (EndpointAddress " ::1" 8080) = Ok ("::1", 8080).
Proof.
  apply (EndpointAddress_splits " ::1" 8080); [|lia].
  split; apply not_elem_of_cons; (split; [done|]); apply not_elem_of_cons; (split; [done|]); apply not_elem_of_cons;
    (split; [done|]); apply not_elem_of_nil.
Defined.

(** *** Listeners *)

(** What a listener does: SO_REUSEADDR is set, and nothing else, before the
    socket is bound; that it could not be set is ignored; a socket that is not
    handed out is closed. *)
Theorem listeners_reuse_addresses SOL_SOCKET SO_REUSEADDR network addr t r :
  runs (NewReuseTcpListener SOL_SOCKET SO_REUSEADDR network addr) t r ->
  (exists err, t = [Ev (Socket network addr) (Err err)] /\ r = Err err) \/
  (exists fd err, t = [Ev (Socket network addr) (Ok fd); Ev (RawControl fd) (Some err); Ev (CloseFd fd) tt] /\ r = Err err) \/
  (exists fd ignored bound, r = bound /\
     t = [Ev (Socket network addr) (Ok fd); Ev (RawControl fd) None;
          Ev (SetsockoptInt fd SOL_SOCKET SO_REUSEADDR 1) ignored; Ev (Bind fd addr) bound] ++
         match bound with Ok _ => [] | Err _ => [Ev (CloseFd fd) tt] end).
Proof.
  intros (made & t1 & -> & H). destruct made as [fd|err]; [|destruct H as [-> ->]; left; by eexists].
  cbn [andThen setReuseSocketOpt raw_Control] in H. destruct H as (ctl & t2 & -> & H). right.
  destruct ctl as [err|].
  - cbn [andThen] in H. destruct H as ([] & t3 & -> & [-> ->]). left. by eexists _, _.
  - cbn [andThen applySocketReuseOptions] in H. destruct H as (ign & t3 & -> & H). cbn [andThen] in H.
    destruct H as (bound & t4 & -> & H). right. exists fd, ign, bound.
    destruct bound as [l|err]; [by destruct H as [-> ->]|]. by destruct H as ([] & t5 & -> & [-> ->]).
Qed.

Lemma udp_listeners_are_the_same SOL_SOCKET SO_REUSEADDR network addr :
  NewReuseUdpListener SOL_SOCKET SO_REUSEADDR network addr = NewReuseTcpListener SOL_SOCKET SO_REUSEADDR network addr.
Proof. done. Qed.

Definition demo_listen : list (event lop) :=
  [Ev (Socket "tcp" ":1") (Ok 3); Ev (RawControl 3) None; Ev (SetsockoptInt 3 1 2 1) (Some ErrPidNil); Ev (Bind 3 ":1") (Ok 9)].
Lemma listeners_reuse_addresses_witness :
  (exists err, demo_listen = [Ev (Socket "tcp" ":1") (Err err)] /\ Ok 9 = Err err) \/
  (exists fd err, demo_listen = [Ev (Socket "tcp" ":1") (Ok fd); Ev (RawControl fd) (Some err); Ev (CloseFd fd) tt] /\ Ok 9 = Err err) \/
  (exists fd ignored bound, Ok 9 = bound /\
     demo_listen = [Ev (Socket "tcp" ":1") (Ok fd); Ev (RawControl fd) None;
          Ev (SetsockoptInt fd 1 2 1) ignored; Ev (Bind fd ":1") bound] ++
         match bound with Ok _ => [] | Err _ => [Ev (CloseFd fd) tt] end).
Proof.
  apply (listeners_reuse_addresses 1 2 "tcp" ":1").
  do 4 (eexists; eexists; split; [reflexivity|]). split; reflexivity.
Defined.

(** *** Clones of addresses *)

(** A clone reads like the address and has bytes of its own: what is later
    written into the address, as the next datagram may, is not seen in it. *)
Theorem CloneUDPAddr_is_a_copy h a h' c :
  CloneUDPAddr h (Some a) = (h', Some c) ->
  slice_bytes h' (IP c) = slice_bytes h (IP a) /\ Port c = Port a /\ Zone c = Zone a /\
  forall l bs, (l < length h)%nat -> slice_bytes (write l bs h') (IP c) = slice_bytes h (IP a).
Proof.
  unfold CloneUDPAddr, append_nil. destruct (slice_bytes h (IP a)) as [|b bs] eqn:E; intros [= <- <-]; [done|].
  unfold slice_bytes. simpl. rewrite list_lookup_middle by done. simpl.
  assert (Ht : b :: take (length bs - 0) bs = b :: bs) by (f_equal; apply take_ge; lia).
  replace (length bs - 0)%nat with (length bs) in * by lia. split_and!; [by rewrite firstn_all|done|done|].
  intros l bytes Hl. unfold write. rewrite list_lookup_insert_ne by lia. rewrite list_lookup_middle by done. simpl.
  by rewrite firstn_all.
Qed.

Lemma CloneUDPAddr_is_a_copy_witness :
  let a := mkUDPAddr (Some (mkSlice 0 0 4)) 9000 "" in
  let h := [[10; 0; 0; 1]] in
  match CloneUDPAddr h (Some a) with
  | (h', Some c) => slice_bytes (write 0 [10; 0; 0; 2] h') (IP c) = slice_bytes h (IP a)
  | _ => False
  end.
Proof.
  cbv zeta. destruct (CloneUDPAddr _ _) as [h' [c|]] eqn:E; [|done].
  apply (CloneUDPAddr_is_a_copy _ _ _ _ E). simpl. lia.
Defined.
