(* ===== verification/Logging.v ===== *)
(** * pkg/glog/logger.go: loggers that share a level

    A logger is zap's logger, whose core has a level it looks at, and the level
    that [SetLevel] writes: both are references to cells, and [With] hands them
    on. Support.v has [New]'s checks on the configuration. zap itself is a class:
    what it does with an entry that its level lets through, with Sync and with the
    hooks for panics and exits. *)

From S2P Require Import Prelude Support Cluster Consul Sharing.

Abbreviation field := (string * string)%type.

(** How a call ends: it returns, panics with a message, or the program exits. *)
Inductive ending := Returns | Panics (msg : string) | Exits (code : Z).

Section logging.
Context {W Hook E : Type}.

(** go.uber.org/zap: writing an entry, flushing, and running a hook. *)
Class ZapCore := {
  core_Write : Z -> string -> list field -> W -> W;
  core_Sync : W -> W * option E;
  run_hook : Hook -> W -> W * ending }.
Context `{ZapCore}.

(** zap.Logger: its core's level, its fields, and its hooks for Panic and Fatal. *)
Record ZapLogger := mkZap {
  z_level : nat; z_fields : list field; z_onPanic : option Hook; z_onFatal : option Hook }.
Record GLogger := mkGLogger { zlogger : ZapLogger; atomicLevel : nat }.

(** The cells of the levels, the package's logger, and the world outside. *)
Record globals := mkGlobals { g_levels : list Z; g_log : option GLogger; g_world : W }.
Definition with_levels (g : globals) (ls : list Z) : globals := mkGlobals ls (g_log g) (g_world g).
Definition with_world (g : globals) (w : W) : globals := mkGlobals (g_levels g) (g_log g) w.

(** ** zap *)

Definition enabled (g : globals) (z : ZapLogger) (level : Z) : bool :=
  default DebugLevel (g_levels g !! z_level z) <=? level.

(** An entry below DPanicLevel is written when the core's level lets it through;
    Panic and Fatal end as their hooks say whether they are written or not. *)
Definition zap_entry (z : ZapLogger) (level : Z) (msg : string) (fields : list field) (g : globals) : globals :=
  if enabled g z level then with_world g (core_Write level msg (z_fields z ++ fields) (g_world g)) else g.
Definition zap_ends (hook : option Hook) (otherwise : ending) (g : globals) : globals * ending :=
  match hook with
  | None => (g, otherwise)
  | Some k => let '(w, e) := run_hook k (g_world g) in (with_world g w, e)
  end.
Definition zap_With (z : ZapLogger) (fields : list field) : ZapLogger :=
  mkZap (z_level z) (z_fields z ++ fields) (z_onPanic z) (z_onFatal z).

(** ** logger.go *)

(** What is left of [New] when Support.v's [New] has accepted the configuration:
    one level for the cores and for the logger. *)
Definition make (level : Z) (fields : list field) (onPanic onFatal : option Hook) (g : globals) : globals * GLogger :=
  let '(ls, l) := alloc (g_levels g) level in (with_levels g ls, mkGLogger (mkZap l fields onPanic onFatal) l).

Definition SetLevel (l : GLogger) (logLevel : Z) (g : globals) : globals :=
  with_levels g (write (atomicLevel l) logLevel (g_levels g)).
Definition With (l : GLogger) (fields : list field) : GLogger :=
  mkGLogger (zap_With (zlogger l) fields) (atomicLevel l).

(** [Stop]; [zap] is the embedded logger, which may be nil. *)
Definition Logger_Stop (zap : option ZapLogger) (g : globals) : globals * option E :=
  match zap with
  | Some _ => let '(w, err) := core_Sync (g_world g) in (with_world g w, err)
  | None => (g, None)
  end.

Definition Log (g : globals) : option GLogger := g_log g.
Definition SetLogger (l : option GLogger) (g : globals) : globals := mkGlobals (g_levels g) l (g_world g).

Definition log_at (level : Z) (msg : string) (fields : list field) (g : globals) : globals :=
  match g_log g with Some l => zap_entry (zlogger l) level msg fields g | None => g end.
Definition Debug : string -> list field -> globals -> globals := log_at DebugLevel.
Definition Info : string -> list field -> globals -> globals := log_at InfoLevel.
Definition Warn : string -> list field -> globals -> globals := log_at WarnLevel.
Definition Error : string -> list field -> globals -> globals := log_at ErrorLevel.

Definition Panic (msg : string) (fields : list field) (g : globals) : globals * ending :=
  match g_log g with
  | Some l => zap_ends (z_onPanic (zlogger l)) (Panics msg) (zap_entry (zlogger l) PanicLevel msg fields g)
  | None => (g, Panics msg)
  end.
Definition Fatal (msg : string) (fields : list field) (g : globals) : globals * ending :=
  match g_log g with
  | Some l => zap_ends (z_onFatal (zlogger l)) (Exits 1) (zap_entry (zlogger l) FatalLevel msg fields g)
  | None => (g, Exits 1)
  end.

(** ** Families of loggers *)

(** The loggers that [With] makes from one. *)
Inductive derived (root : GLogger) : GLogger -> Prop :=
| derived_root : derived root root
| derived_With l fields : derived root l -> derived root (With l fields).

(** The level a logger writes is the one its core looks at, and it exists. *)
Definition wired (g : globals) (l : GLogger) : Prop :=
  z_level (zlogger l) = atomicLevel l /\ (atomicLevel l < length (g_levels g))%nat.

Lemma make_wired level fields p f g : let '(g', l) := make level fields p f g in
  wired g' l /\ forall m, wired g m -> wired g' m /\ atomicLevel m <> atomicLevel l.
Proof.
  unfold make, alloc, wired, with_levels. simpl. rewrite length_app. simpl. split; [split; [done|lia]|].
  intros m [Hm Hl]. split; [split; [done|lia]|lia].
Qed.

Lemma derived_wired g root l : wired g root -> derived root l -> wired g l /\ atomicLevel l = atomicLevel root.
Proof. intros Hw Hd. induction Hd as [|l fields _ [[Ew Hl] <-]]; [done|]. by repeat split. Qed.

Lemma enabled_SetLevel g l m level at_ :
  wired g l -> wired g m ->
  enabled (SetLevel l level g) (zlogger m) at_ =
  if decide (atomicLevel m = atomicLevel l) then level <=? at_ else enabled g (zlogger m) at_.
Proof.
  intros [El Hl] [Em Hm]. unfold enabled, SetLevel, write. simpl. rewrite Em. case_decide as Hc.
  - rewrite Hc, list_lookup_insert_eq by done. done.
  - by rewrite list_lookup_insert_ne by done.
Qed.

(** Setting the level of any logger of a family sets it for the whole family: all
    of them then write exactly the entries from that level on, each with its own
    fields, and loggers made by another [New] keep theirs. *)
Theorem a_family_shares_its_level g root l m other level at_ msg fields :
  wired g root -> derived root l -> derived root m -> wired g other -> atomicLevel other <> atomicLevel root ->
  let g' := SetLevel l level g in
  zap_entry (zlogger m) at_ msg fields g' =
    (if level <=? at_ then with_world g' (core_Write at_ msg (z_fields (zlogger m) ++ fields) (g_world g)) else g') /\
  enabled g' (zlogger other) at_ = enabled g (zlogger other) at_.
Proof.
  intros Hr Hl Hm Ho Hne g'. destruct (derived_wired _ _ _ Hr Hl) as [Wl El].
  destruct (derived_wired _ _ _ Hr Hm) as [Wm Em]. split.
  - unfold zap_entry, g'. rewrite enabled_SetLevel by done. by rewrite decide_True by congruence.
  - unfold g'. rewrite enabled_SetLevel by done. by rewrite decide_False by congruence.
Qed.

(** Panic panics and Fatal exits whatever the level is and with or without a
    logger, unless the logger has a hook; the others always return, and write
    nothing without a logger. *)
Theorem Panic_and_Fatal_end msg fields g :
  (forall l, g_log g = Some l -> z_onPanic (zlogger l) = None /\ z_onFatal (zlogger l) = None) ->
  (Panic msg fields g).2 = Panics msg /\ (Fatal msg fields g).2 = Exits 1.
Proof.
  intros Hh. unfold Panic, Fatal. destruct (g_log g) as [l|]; [|done]. destruct (Hh l eq_refl) as [-> ->]. done.
Qed.

Lemma no_logger_no_entry level msg fields g : g_log g = None -> log_at level msg fields g = g.
Proof. unfold log_at. by intros ->. Qed.
End logging.
Arguments ZapCore : clear implicits.
Arguments GLogger : clear implicits.
Arguments globals : clear implicits.

(** ** A logger and one derived from it *)

#[local] Instance demo_zap : ZapCore (list (Z * string * list field)) unit unit := {
  core_Write lvl msg fields w := w ++ [(lvl, msg, fields)];
  core_Sync w := (w, None);
  run_hook _ w := (w, Returns) }.
Definition demo_globals : globals (list (Z * string * list field)) unit := (make InfoLevel [] None None (mkGlobals [] None [])).1.
Definition demo_root : GLogger unit := (make InfoLevel [] None None (mkGlobals (W := list (Z * string * list field)) [] None [])).2.
Definition demo_both := make InfoLevel [] None None demo_globals.

Lemma a_family_shares_its_level_witness :
  let g' := SetLevel (With demo_root [("connId", "1")]) DebugLevel demo_both.1 in
  zap_entry (zlogger demo_root) DebugLevel "hello" [] g' =
  with_world g' (core_Write DebugLevel "hello" [] (g_world demo_both.1)).
Proof.
  assert (Hw : wired demo_both.1 demo_root) by (split; [done|vm_compute; lia]).
  assert (Hd : derived demo_root (With demo_root [("connId", "1")])) by (apply derived_With, derived_root).
  assert (Ho : wired demo_both.1 demo_both.2) by (split; [done|vm_compute; lia]).
  apply (a_family_shares_its_level demo_both.1 demo_root _ demo_root demo_both.2 DebugLevel DebugLevel "hello" []
    Hw Hd (derived_root _) Ho). done.
Defined.

Lemma Panic_and_Fatal_end_witness :
  (Panic "lost" [] (SetLogger (Some demo_root) demo_globals)).2 = Panics "lost" /\
  (Fatal "lost" [] (SetLogger (Some demo_root) demo_globals)).2 = Exits 1.
Proof. apply Panic_and_Fatal_end. by intros l [= <-]. Defined.
