(* ===== verification/Waiting.v ===== *)
(** * Waiting with a deadline

    pkg/grs/func.go: Group.Wait, Group.WaitTimeout and WaitWithTimeout start a
    goroutine that waits for the wait group and closes a channel, and select
    between the channel and a deadline; consul/watcher.go: sleepContext selects
    between a timer and a context; pkg/timer. The goroutines of the group, the
    helper, the deadline and the waiter interleave freely. *)

From S2P Require Import Prelude Errors Effects Threads.

(** ** The calls *)

Inductive gop : Set -> Type :=
| SpawnHelper : gop unit           (* make(chan struct{}); go func() ... *)
| NewTimer : gop unit
| StopTimer : gop unit
| SelectDone : gop bool            (* select: the channel (true), or the deadline (false) *)
| WaitZero : gop unit              (* runWG.Wait() *)
| CloseDone : gop unit             (* close(done) *)
| Report (err : option gerr) : gop unit. (* what the caller is given *)

Definition helper : prog gop unit := do! WaitZero; do! CloseDone; Ret tt.

Definition Group_Wait (ctx_Err : gerr) : prog gop (option gerr) :=
  do! SpawnHelper; done <-! SelectDone; Ret (if done : bool then None else Some ctx_Err).

Definition DeadlineExceeded : gerr := ESentinel "context deadline exceeded".
Definition WaitTimeout : prog gop (option gerr) :=
  do! SpawnHelper; done <-! SelectDone; Ret (if done : bool then None else Some DeadlineExceeded).

Definition WaitWithTimeout : prog gop (option gerr) :=
  do! SpawnHelper;
  do! NewTimer;
  done <-! SelectDone;
  do! StopTimer;
  Ret (if done : bool then None else Some (ESentinel "wait group timeout")).

Definition caller (p : prog gop (option gerr)) : prog gop unit := err <~ p; do! Report err; Ret tt.

(** [nil] contexts become the background context, which is never done. *)
Inductive context := Background | Given (id : N).
Definition NormalizeContext (ctx : option context) : context := default Background ctx.

(** ** Who runs *)

Inductive tid := TWaiter | THelper.
#[export] Instance tid_eq_dec : EqDecision tid.
Proof. solve_decision. Defined.
#[export] Instance tid_countable : Countable tid.
Proof.
  refine (inj_countable' (fun t => match t with TWaiter => true | THelper => false end)
            (fun b : bool => if b then TWaiter else THelper) _). by intros [].
Defined.

(** The wait group's counter, whether [Wait] has returned to the helper, the
    channel, the deadline, the armed timer, and what the waiter got. *)
Record waiting := mkWaiting {
  wg : Z; seen_zero : bool; done_closed : bool; expired : bool; armed : bool;
  spawned : bool; result : option (option gerr) }.
Definition set_wg (n : Z) (s : waiting) : waiting :=
  mkWaiting n (seen_zero s) (done_closed s) (expired s) (armed s) (spawned s) (result s).
Definition set_armed (b : bool) (s : waiting) : waiting :=
  mkWaiting (wg s) (seen_zero s) (done_closed s) (expired s) b (spawned s) (result s).

Definition exec (i : tid) (R : Set) (o : gop R) (choice : bool) (s : waiting) : option (waiting * R) :=
  match o in gop R return option (waiting * R) with
  | SpawnHelper => Some (mkWaiting (wg s) (seen_zero s) (done_closed s) (expired s) (armed s) true (result s), tt)
  | NewTimer => Some (set_armed true s, tt)
  | StopTimer => Some (set_armed false s, tt)
  | SelectDone =>
    match done_closed s, expired s with
    | true, true => Some (s, choice) (* Go picks *)
    | true, false => Some (s, true)
    | false, true => Some (s, false)
    | false, false => None
    end
  | WaitZero => if wg s =? 0
                then Some (mkWaiting (wg s) true (done_closed s) (expired s) (armed s) (spawned s) (result s), tt)
                else None
  | CloseDone => Some (mkWaiting (wg s) (seen_zero s) true (expired s) (armed s) (spawned s) (result s), tt)
  | Report err => Some (mkWaiting (wg s) (seen_zero s) (done_closed s) (expired s) (armed s) (spawned s) (Some err), tt)
  end.

(** The group's goroutines call Done and may call Go, from a goroutine that runs;
    the deadline passes; the waiter or the helper moves. *)
Inductive act := TaskDone | TaskGo | Expire | Move (i : tid) (choice : bool).

Abbreviation world := (pool gop waiting tid).

(** Starting the helper is part of the waiter's move. *)
Definition spawn (w : world) : world :=
  if spawned (shared w) && negb (bool_decide (is_Some (threads w !! THelper)))
  then start_thread THelper (shared w) helper w else w.

Definition step (w : world) (a : act) : world :=
  let s := shared w in
  match a with
  | TaskDone => if 0 <? wg s then mkPool (set_wg (wg s - 1) s) (threads w) else w
  | TaskGo => if 0 <? wg s then mkPool (set_wg (wg s + 1) s) (threads w) else w
  | Expire => mkPool (mkWaiting (wg s) (seen_zero s) (done_closed s) true (armed s) (spawned s) (result s)) (threads w)
  | Move i choice => spawn (run_thread exec i choice w)
  end.
Definition run (w : world) (acts : list act) : world := fold_left step acts w.

(** [tasks] goroutines of the group run when the call is made. *)
Definition start (p : prog gop (option gerr)) (tasks : Z) : world :=
  mkPool (mkWaiting tasks false false false false false None) {[TWaiter := caller p]}.

(** The three functions, up to the timer and the error. *)
Definition after_select (timer : bool) (err : gerr) (done : bool) : prog gop unit :=
  if timer then do! StopTimer; do! Report (if done then None else Some err); Ret tt
  else do! Report (if done then None else Some err); Ret tt.
Definition selecting (timer : bool) (err : gerr) : prog gop unit :=
  done <-! SelectDone; after_select timer err done.
Definition arming (timer : bool) (err : gerr) : prog gop unit :=
  if timer then do! NewTimer; selecting timer err else selecting timer err.

(** Which call it is. *)
Inductive waits := ByContext (ctx_Err : gerr) | ByTimeout | ByTimer.
Definition code (f : waits) : prog gop (option gerr) :=
  match f with ByContext e => Group_Wait e | ByTimeout => WaitTimeout | ByTimer => WaitWithTimeout end.
Definition timer_of (f : waits) : bool := match f with ByTimer => true | _ => false end.
Definition error_of (f : waits) : gerr :=
  match f with ByContext e => e | ByTimeout => DeadlineExceeded | ByTimer => ESentinel "wait group timeout" end.
Definition deadline (done : bool) (s : waiting) : Prop := if done then done_closed s = true else expired s = true.

(** A program is not one of its continuations. *)
Definition continues {Op : Set -> Type} {A} (q p : prog Op A) : Prop :=
  match p with Ret _ => False | Do o k => exists r, q = k r end.
Lemma continues_wf {Op : Set -> Type} {A} (p : prog Op A) : Acc continues p.
Proof. induction p as [a|R o k IH]; constructor; [done|]. intros q [r ->]. apply IH. Qed.
Lemma prog_progress {Op : Set -> Type} {A} {R : Set} (o : Op R) (k : R -> prog Op A) r : k r <> Do o k.
Proof.
  assert (Hirr : forall p : prog Op A, ~ continues p p).
  { intros p. induction (continues_wf p) as [p _ IH]. intros Hp. by apply (IH p Hp). }
  intros E. apply (Hirr (k r)). rewrite E at 2. by exists r.
Qed.

Section wait.
Variable f : waits.
Abbreviation timer := (timer_of f).
Abbreviation err := (error_of f).

Lemma caller_code : caller (code f) = Do SpawnHelper (fun _ => arming timer err).
Proof. by destruct f. Qed.

(** Where the caller is. *)
Inductive stage (s : waiting) : prog gop unit -> Prop :=
| st_start : spawned s = false -> result s = None -> armed s = false -> stage s (caller (code f))
| st_arming : spawned s = true -> result s = None -> armed s = false -> stage s (arming timer err)
| st_selecting : spawned s = true -> result s = None -> armed s = timer -> stage s (selecting timer err)
| st_selected done : spawned s = true -> result s = None -> armed s = timer -> deadline done s ->
    stage s (after_select timer err done)
| st_reporting done : spawned s = true -> result s = None -> armed s = false -> deadline done s ->
    stage s (do! Report (if done : bool then None else Some err); Ret tt)
| st_returned done : spawned s = true -> result s = Some (if done : bool then None else Some err) ->
    armed s = false -> deadline done s -> stage s (Ret tt).

(** Where the helper is. *)
Inductive help (s : waiting) : option (prog gop unit) -> Prop :=
| h_none : spawned s = false -> help s None
| h_waiting : spawned s = true -> help s (Some helper)
| h_closing : spawned s = true -> seen_zero s = true -> help s (Some (do! CloseDone; Ret tt))
| h_ended : spawned s = true -> done_closed s = true -> help s (Some (Ret tt)).

Record wait_inv (w : world) : Prop := {
  wi_stage : exists p, threads w !! TWaiter = Some p /\ stage (shared w) p;
  wi_help : help (shared w) (threads w !! THelper);
  wi_zero : seen_zero (shared w) = true -> wg (shared w) = 0;
  wi_done : done_closed (shared w) = true -> seen_zero (shared w) = true;
  wi_wg : 0 <= wg (shared w) }.

Lemma wait_start_inv tasks : 0 <= tasks -> wait_inv (start (code f) tasks).
Proof.
  intros Ht. split; simpl; try done.
  - eexists. split; [apply lookup_singleton_eq|]. by constructor.
  - rewrite lookup_singleton_ne by done. by constructor.
Qed.

(** What tasks, clock and helper leave to the caller. *)
Record env (s s' : waiting) : Prop := {
  en_spawned : spawned s' = spawned s; en_result : result s' = result s; en_armed : armed s' = armed s;
  en_done : done_closed s = true -> done_closed s' = true; en_zero : seen_zero s = true -> seen_zero s' = true;
  en_expired : expired s = true -> expired s' = true }.
Lemma stage_env s s' p : env s s' -> stage s p -> stage s' p.
Proof.
  intros [E1 E2 E3 E4 E5 E6] Hs.
  assert (Hd : forall d, deadline d s -> deadline d s') by (by intros []; unfold deadline).
  destruct Hs;
    [apply st_start|apply st_arming|apply st_selecting|eapply st_selected|apply st_reporting|eapply st_returned];
    try (rewrite E2; eassumption); try congruence; eauto.
Qed.
Lemma help_env s s' p : env s s' -> help s p -> help s' p.
Proof. intros [E1 E2 E3 E4 E5 E6] []; constructor; first [congruence|auto]. Qed.
Lemma inv_env w s : wait_inv w -> env (shared w) s -> 0 <= wg s -> (seen_zero s = true -> wg s = 0) ->
  (done_closed s = true -> seen_zero s = true) -> wait_inv (mkPool s (threads w)).
Proof.
  intros [(p & Hp & Hs) Hh Hz Hd Hw] He H0 Hz' Hd'. split; simpl; try done.
  - exists p. split; [done|by eapply stage_env].
  - by eapply help_env.
Qed.

(** One move of the caller. *)
Lemma caller_step s p choice : stage s p ->
  match p with
  | Ret _ => True
  | Do o k =>
    match exec TWaiter _ o choice s with
    | Some (s', r) => stage s' (k r) /\ wg s' = wg s /\ seen_zero s' = seen_zero s /\ done_closed s' = done_closed s /\
        (spawned s = true -> spawned s' = true)
    | None => done_closed s = false /\ expired s = false /\ spawned s = true
    end
  end.
Proof.
  assert (Hsel : stage s (selecting timer err) ->
    match exec TWaiter _ SelectDone choice s with
    | Some (s', r) => stage s' (after_select timer err r) /\ wg s' = wg s /\ seen_zero s' = seen_zero s /\
        done_closed s' = done_closed s /\ (spawned s = true -> spawned s' = true)
    | None => done_closed s = false /\ expired s = false /\ spawned s = true
    end).
  { intros Hs.
    assert (Hsp : spawned s = true /\ result s = None /\ armed s = timer).
    { clear -Hs. remember (selecting timer err) as p eqn:E. destruct Hs; try done; revert E.
      - by rewrite caller_code.
      - unfold arming. by destruct timer. }
    destruct Hsp as (H1 & H2 & H3). simpl. destruct (done_closed s) eqn:Ed, (expired s) eqn:Ee.
    - split; [|done]. apply st_selected; try done. by destruct choice.
    - split; [|done]. by apply st_selected.
    - split; [|done]. by apply st_selected.
    - done. }
  intros Hs. destruct Hs as [H1 H2 H3|H1 H2 H3|H1 H2 H3|d H1 H2 H3 Hd|d H1 H2 H3 Hd|d H1 H2 H3 Hd]; try done.
  - rewrite caller_code. simpl. split; [|done]. by apply st_arming.
  - unfold arming. pose proof (st_selecting s H1 H2) as Hst. pose proof (st_selecting (set_armed true s) H1 H2) as Hat.
    destruct timer; simpl; [|by apply Hsel, Hst]. split; [|done]. by apply Hat.
  - apply Hsel. by apply st_selecting.
  - unfold after_select. destruct timer; simpl; (split; [|done]); [by apply st_reporting|by eapply st_returned].
  - simpl. split; [|done]. by eapply st_returned.
Qed.

(** One move of the helper. *)
Lemma helper_step s p choice : help s (Some p) -> (seen_zero s = true -> wg s = 0) -> (done_closed s = true -> seen_zero s = true) ->
  match p with
  | Ret _ => done_closed s = true
  | Do o k =>
    match exec THelper _ o choice s with
    | Some (s', r) => help s' (Some (k r)) /\ env s s' /\ wg s' = wg s /\
        (seen_zero s' = true -> wg s' = 0) /\ (done_closed s' = true -> seen_zero s' = true)
    | None => wg s <> 0
    end
  end.
Proof.
  intros Hh Hz Hd. remember (Some p) as q eqn:E. destruct Hh as [H|H|H1 H2|H1 H2]; try done; injection E as <-; simpl.
  - destruct (wg s =? 0) eqn:Ew; zbool; [|done]. split; [by constructor|]. split; [by split|]. done.
  - split; [by constructor|]. split; [by split|]. done.
  - done.
Qed.

Lemma run_at w i choice q : threads w !! i = Some q ->
  run_thread exec i choice w =
  match q with
  | Do o k => match exec i _ o choice (shared w) with Some (s, r) => mkPool s (<[i := k r]> (threads w)) | None => w end
  | Ret _ => w
  end.
Proof. apply run_thread_at. Qed.
Lemma run_none w i choice : threads w !! i = None -> run_thread exec i choice w = w.
Proof. apply run_thread_none. Qed.

Lemma helper_moves w choice : wait_inv w -> wait_inv (spawn (run_thread exec THelper choice w)).
Proof.
  intros Hw. pose proof Hw as [(p & Hp & Hs) Hh Hz Hd H0].
  assert (Hsame : spawn w = w).
  { unfold spawn. destruct (spawned (shared w)) eqn:Es; [|done]. destruct Hh; try congruence; done. }
  destruct (threads w !! THelper) as [q|] eqn:Eq; [rewrite (run_at _ _ _ _ Eq)|by rewrite run_none, Hsame].
  destruct q as [|R o k]; [by rewrite Hsame|]. pose proof (helper_step _ _ choice Hh Hz Hd) as Hst. simpl in Hst.
  destruct (exec THelper R o choice (shared w)) as [[s' r]|]; [|by rewrite Hsame].
  destruct Hst as (Hh' & He & Ew & Hz' & Hd'). unfold spawn. simpl. rewrite lookup_insert_eq, bool_decide_eq_true_2 by done.
  rewrite andb_false_r. split; simpl; try done; [|by rewrite lookup_insert_eq|by rewrite Ew].
  exists p. split; [by rewrite lookup_insert_ne|by eapply stage_env].
Qed.

Lemma caller_moves w choice : wait_inv w -> wait_inv (spawn (run_thread exec TWaiter choice w)).
Proof.
  intros Hw. pose proof Hw as [(p & Hp & Hs) Hh Hz Hd H0].
  assert (Hsame : spawn w = w).
  { unfold spawn. destruct (spawned (shared w)) eqn:Es; [|done]. destruct Hh; try congruence; done. }
  rewrite (run_at _ _ _ _ Hp). pose proof (caller_step _ _ choice Hs) as Hst. destruct p as [|R o k]; [by rewrite Hsame|].
  destruct (exec TWaiter R o choice (shared w)) as [[s' r]|]; [|by rewrite Hsame].
  destruct Hst as (Hs' & Ew & Ez & Ed & Esp). unfold spawn. cbn [shared threads].
  rewrite lookup_insert_ne by done. destruct (threads w !! THelper) as [q|] eqn:Eq.
  - rewrite bool_decide_eq_true_2 by done. rewrite andb_false_r. split; simpl; rewrite ?Ew, ?Ez, ?Ed; try done.
    + exists (k r). by rewrite lookup_insert_eq.
    + rewrite lookup_insert_ne, Eq by done. remember (Some q) as oq eqn:E.
      destruct Hh; try done; constructor; auto; congruence.
  - rewrite bool_decide_eq_false_2 by (by intros []). destruct (spawned s') eqn:Es'; simpl.
    + split; simpl; rewrite ?Ew, ?Ez, ?Ed; try done.
      * exists (k r). rewrite lookup_insert_ne, lookup_insert_eq by done. done.
      * rewrite lookup_insert_eq. by constructor.
    + split; simpl; rewrite ?Ew, ?Ez, ?Ed; try done.
      * exists (k r). by rewrite lookup_insert_eq.
      * rewrite lookup_insert_ne, Eq by done. by constructor.
Qed.

Lemma wait_step_inv w a : wait_inv w -> wait_inv (step w a).
Proof.
  intros Hw. pose proof Hw as [Hp Hh Hz Hd H0]. destruct a as [| | |[] choice]; cbn [step].
  - destruct (0 <? wg (shared w)) eqn:E; zbool; [|done]. apply inv_env; try done; [simpl; lia|].
    simpl. intros Hs. specialize (Hz Hs). lia.
  - destruct (0 <? wg (shared w)) eqn:E; zbool; [|done]. apply inv_env; try done; [simpl; lia|].
    simpl. intros Hs. specialize (Hz Hs). lia.
  - by apply inv_env.
  - by apply caller_moves.
  - by apply helper_moves.
Qed.

Lemma wait_run_inv tasks acts : 0 <= tasks -> wait_inv (run (start (code f) tasks) acts).
Proof.
  intros Ht. pose proof (wait_start_inv tasks Ht) as Hi. revert Hi. generalize (start (code f) tasks).
  induction acts as [|a acts IH]; intros w Hi; [done|]. by apply IH, wait_step_inv.
Qed.

(** A wait that returns no error saw the group empty, and the group is empty; one
    that returns an error is past its deadline and returns that error. The timer
    it armed is stopped. *)
Theorem wait_returns_truly tasks acts r :
  0 <= tasks -> result (shared (run (start (code f) tasks) acts)) = Some r ->
  armed (shared (run (start (code f) tasks) acts)) = false /\
  match r with
  | None => wg (shared (run (start (code f) tasks) acts)) = 0
  | Some e => e = err /\ expired (shared (run (start (code f) tasks) acts)) = true
  end.
Proof.
  intros Ht. destruct (wait_run_inv tasks acts Ht) as [(p & Hp & Hs) Hh Hz Hd H0]. revert Hs Hz Hd.
  generalize (shared (run (start (code f) tasks) acts)). clear. intros s Hs Hz Hd Hr.
  destruct Hs as [? Hn|? Hn|? Hn|d ? Hn|d ? Hn|d ? Hn ? Hdl]; try congruence. rewrite Hn in Hr. injection Hr as <-.
  split; [done|]. destruct d; [|done]. apply Hz, Hd, Hdl.
Qed.

Definition blocked (i : tid) (s : waiting) (p : prog gop unit) : Prop :=
  match p with @Do _ _ R o _ => forall choice, exec i R o choice s = None | Ret _ => True end.

(** A wait never hangs: when neither its goroutine nor its helper can move any
    more, it has returned, or the group still runs and the deadline has not passed. *)
Theorem wait_never_hangs tasks acts (w := run (start (code f) tasks) acts) :
  0 <= tasks -> (forall i choice, run_thread exec i choice w = w) ->
  (exists r, result (shared w) = Some r) \/ (0 < wg (shared w) /\ expired (shared w) = false).
Proof.
  intros Ht Hstuck. destruct (wait_run_inv tasks acts Ht) as [(p & Hp & Hs) Hh Hz Hd H0]. fold w in Hp, Hs, Hh, Hz, Hd, H0.
  assert (Hmove : forall i p, threads w !! i = Some p -> blocked i (shared w) p).
  { intros i [|R o k] Hi; [done|]. intros choice. destruct (exec i R o choice (shared w)) as [[s r]|] eqn:E; [|done].
    exfalso. pose proof (Hstuck i choice) as E'. rewrite (run_at _ _ _ _ Hi), E in E'.
    apply (prog_progress o k r). rewrite <- E' in Hi at 1. simpl in Hi. rewrite lookup_insert_eq in Hi. by injection Hi. }
  pose proof (caller_step _ _ true Hs) as Hc. pose proof (Hmove _ _ Hp) as Hm.
  destruct p as [|R o k].
  { left. remember (Ret a) as q eqn:E. destruct Hs as [? ? ?|? ? ?|? ? ?|d ? ? ? ?|d ? ? ? ?|d ? Hr ? ?]; try done; try by eexists.
    - by rewrite caller_code in E.
    - unfold arming in E. by destruct timer.
    - unfold after_select in E. by destruct timer. }
  rewrite Hm in Hc. destruct Hc as (Hnd & Hne & Hsp). right. split; [|done].
  remember (threads w !! THelper) as q eqn:Eq. destruct Hh as [|_|_ Hsz|_ Hdone]; try congruence.
  - pose proof (Hmove _ _ (eq_sym Eq) true) as Hw. simpl in Hw. destruct (wg (shared w) =? 0) eqn:Ew; [done|]. zbool. lia.
  - by pose proof (Hmove _ _ (eq_sym Eq) true).
Qed.
End wait.

(** A wait that gives up leaves its helper behind, waiting for the group. *)
Lemma timed_out_wait_leaves_its_helper :
  let w := run (start (code ByTimer) 1) [Move TWaiter true; Move TWaiter true; Expire; Move TWaiter true; Move TWaiter true; Move TWaiter true] in
  result (shared w) = Some (Some (ESentinel "wait group timeout")) /\ finished THelper w = false.
Proof. by vm_compute. Qed.

Definition demo_acts : list act :=
  [Move TWaiter true; Move TWaiter true; TaskDone; Move THelper true; Move THelper true; Expire;
   Move TWaiter true; Move TWaiter true; Move TWaiter true].
Lemma wait_returns_truly_witness :
  armed (shared (run (start (code ByTimer) 1) demo_acts)) = false /\
  wg (shared (run (start (code ByTimer) 1) demo_acts)) = 0.
Proof. apply (wait_returns_truly ByTimer 1 demo_acts None); [lia|reflexivity]. Defined.

Lemma wait_never_hangs_witness :
  let w := run (start (code ByTimer) 1) demo_acts in
  (exists r, result (shared w) = Some r) \/ (0 < wg (shared w) /\ expired (shared w) = false).
Proof. apply (wait_never_hangs ByTimer 1 demo_acts); [lia|]. by intros [] []. Defined.

(** ** sleepContext of the Consul watcher

    The select's first channel is the timer's, its second the context's. *)
Definition sleepContext : prog gop bool :=
  do! NewTimer; woke <-! SelectDone; do! StopTimer; Ret woke.

(** Run by itself: it blocks until the delay has passed or the context is done,
    says which, and stops its timer. *)
Theorem sleepContext_says_why fired done choice s :
  alone exec TWaiter choice sleepContext (mkWaiting (wg s) (seen_zero s) fired done (armed s) (spawned s) (result s)) =
  if fired || done
  then Some (mkWaiting (wg s) (seen_zero s) fired done false (spawned s) (result s), fired && (negb done || choice))
  else None.
Proof. by destruct fired, done, choice. Qed.

(** ** pkg/timer over the timing wheel

    The wheel calls a function once after a delay, or at the times a scheduler
    gives one from another. *)
Record EveryScheduler := mkEvery { Interval : Z }.
Definition Next (s : EveryScheduler) (prev : Z) : Z := prev + Interval s.

Section wheel.
Context {W T F : Type}.
(** timingwheel's AfterFunc and ScheduleFunc; [skip] does nothing. *)
Context (AfterFunc : Z -> F -> W -> W * T) (ScheduleFunc : (Z -> Z) -> F -> W -> W * T) (skip : F).

Definition After (duration : Z) (f : option F) (w : W) : W * T := AfterFunc duration (default skip f) w.
Definition Ticker (duration : Z) (f : F) (w : W) : W * T := ScheduleFunc (Next (mkEvery duration)) f w.
End wheel.

(** The [n]-th time of a schedule that starts at [t0]. *)
Definition nth_time (next : Z -> Z) (t0 : Z) (n : nat) : Z := Nat.iter n next t0.

Theorem ticks_are_evenly_spaced d t0 n : nth_time (Next (mkEvery d)) t0 n = t0 + Z.of_nat n * d.
Proof. induction n as [|n IH]; unfold nth_time in *; simpl Nat.iter; [lia|]. rewrite IH. unfold Next. simpl. lia. Qed.
