(* ===== verification/Registry.v ===== *)
(** * The registry on Consul, from New to Leave

    consul/registry.go (Run, Join, Leave, Update and the queries, as methods of a
    registry whose parts are nil until Run made them), options.go
    ([toConsulConfig]), the keeper's loop of registration.go and the queries of
    watcher.go. The parts are those of Consul.v; Consul's client answers as it
    likes. *)

From S2P Require Import Prelude Errors Effects Placement Cluster Consul.

(** ** options.go *)

Record ApiConfig := mkApiConfig { a_Address : string; a_Scheme : string; a_Token : string; a_Datacenter : string }.

(** [defaults] is [api.DefaultConfig()], which reads the environment. *)
Definition toConsulConfig (defaults : ApiConfig) (options : Options) : ApiConfig :=
  let set value default := if bool_decide (value = "") then default else value in
  mkApiConfig (set (op_Address options) (a_Address defaults)) (set (op_Scheme options) (a_Scheme defaults))
    (set (op_Token options) (a_Token defaults)) (set (op_Datacenter options) (a_Datacenter defaults)).

(** ** registry.go *)

(** [api.NewClient], and [Agent().Self()] of a client. *)
Class ConsulApi := { NewClient : ApiConfig -> res gerr N; AgentSelf : N -> option gerr }.

Section registry.
Context {S : Type} `{ConsulApi} `{NodeJson} (defaults : ApiConfig).

Record Registry := mkRegistry {
  options : Options;
  client : option N;
  has_ctx : bool;                      (* ctx and cancel *)
  rg_watcher : option watcher;
  rg_reg : option registration;
  subscription : SubscriptionCenter (S := S) }.

Definition NewWithOptions (o : Options) : Registry :=
  mkRegistry (normalizeOptions o) None false None None NewSubscriptionCenter.
Definition New : Registry := NewWithOptions (mkOptions "" "" "" "" 0 0).

Definition with_client (c : N) (r : Registry) : Registry :=
  mkRegistry (options r) (Some c) (has_ctx r) (rg_watcher r) (rg_reg r) (subscription r).

Definition initClient (r : Registry) : Registry * option gerr :=
  match NewClient (toConsulConfig defaults (options r)) with
  | Err err => (r, Some (wrap "consul init client err: " err))
  | Ok client =>
    match AgentSelf client with
    | Some err => (r, Some (wrap "consul init client err: " err))
    | None => (with_client client r, None)
    end
  end.

Definition Run (r : Registry) : Registry * option gerr :=
  let r := mkRegistry (options r) (client r) true (rg_watcher r) (rg_reg r) (subscription r) in
  match initClient r with
  | (r, Some err) => (r, Some err)
  | (r, None) =>
    (mkRegistry (options r) (client r) (has_ctx r) (Some newWatcher) (Some newRegistration) (subscription r), None)
  end.

(** A method call: it dereferences a nil part, or does what the part does. *)
Inductive attempt (A : Type) := NilDereference | Does (a : A).
Arguments NilDereference {A}.
Arguments Does {A} a.

Definition Registry_Join (r : Registry) (node : Member) : attempt (prog kop (option gerr)) :=
  match rg_reg r with
  | None => NilDereference
  | Some _ => Does (join (options r) node)
  end.
Definition Registry_Update (r : Registry) (node : Member) : attempt (prog kop (option gerr)) :=
  match rg_reg r with
  | None => NilDereference
  | Some _ => Does (join (options r) node)
  end.
Definition Registry_Leave (r : Registry) (serviceId : string) : attempt (prog kop (option gerr)) :=
  match rg_reg r with
  | None => Does (Ret None)
  | Some _ => match client r with None => Does (Ret None) | Some _ => Does (leave serviceId) end
  end.

(** The queries; the ranges over the caches' maps are in the order of the keys. *)
Definition Registry_Members (r : Registry) (service : string) : attempt (gmap string Member) :=
  match rg_watcher r with
  | None => NilDereference
  | Some w => Does (Consul.Members (map_to_list (default ∅ (caches w !! service))))
  end.
Definition Registry_MemberById (r : Registry) (serviceId : string) : attempt (Member * bool) :=
  match rg_watcher r with
  | None => NilDereference
  | Some w => Does (Consul.MemberById (map_to_list (caches w)) serviceId)
  end.
Definition Registry_AllMembers (r : Registry) : attempt (list Member) :=
  match rg_watcher r with
  | None => NilDereference
  | Some w => Does (Consul.AllMembers ((fun x => (x.1, map_to_list x.2)) <$> map_to_list (caches w)))
  end.

(** *** Before and after Run *)

(** A registry that runs has a client Consul answered to, and its calls are those
    of its parts, which start empty; one that could not run has none of them:
    Leave does nothing and everything else dereferences nil. *)
Theorem registry_runs_or_has_nothing o r err :
  Run (NewWithOptions o) = (r, err) ->
  match err with
  | None =>
    (exists c, NewClient (toConsulConfig defaults (normalizeOptions o)) = Ok c /\ AgentSelf c = None /\ client r = Some c) /\
    (forall node, Registry_Join r node = Does (join (normalizeOptions o) node)) /\
    (forall id, Registry_Leave r id = Does (leave id)) /\
    Registry_AllMembers r = Does [] /\ (forall id, Registry_MemberById r id = Does (zero_member, false)) /\
    (forall service, Registry_Members r service = Does ∅)
  | Some e =>
    (exists cause, e = wrap "consul init client err: " cause) /\
    (forall node, Registry_Join r node = NilDereference) /\
    (forall id, Registry_Leave r id = Does (Ret None)) /\
    Registry_AllMembers r = NilDereference
  end.
Proof.
  unfold Run, initClient. cbn [options NewWithOptions]. destruct (NewClient _) as [c|e] eqn:Ec.
  - destruct (AgentSelf c) as [e|] eqn:Es; intros [= <- <-].
    + split_and!; try done. by exists e.
    + split_and!; try done. by exists c.
  - intros [= <- <-]. split_and!; try done. by exists e.
Qed.

(** Calls of a registry that runs never dereference nil. *)
Lemma running_registry_answers o r : Run (NewWithOptions o) = (r, None) ->
  forall service id, Registry_Members r service <> NilDereference /\ Registry_MemberById r id <> NilDereference.
Proof.
  intros E service id. destruct (registry_runs_or_has_nothing o r None E) as (_ & _ & _ & _ & Hid & Hm).
  by rewrite Hid, Hm.
Qed.
End registry.
Arguments NilDereference {A}.
Arguments Does {A} a.

(** A setting that is not given is Consul's default. *)
Theorem toConsulConfig_fills_in d o :
  toConsulConfig d o = mkApiConfig
    (if decide (op_Address o = "") then a_Address d else op_Address o)
    (if decide (op_Scheme o = "") then a_Scheme d else op_Scheme o)
    (if decide (op_Token o = "") then a_Token d else op_Token o)
    (if decide (op_Datacenter o = "") then a_Datacenter d else op_Datacenter o).
Proof. unfold toConsulConfig. f_equal; case_bool_decide; by case_decide. Qed.

(** The address is always given: [normalizeOptions] fills it in, so the address
    of the environment is never used. *)
Lemma normalized_address_wins d o : a_Address (toConsulConfig d (normalizeOptions o)) = op_Address (normalizeOptions o).
Proof. unfold toConsulConfig. simpl. by repeat case_bool_decide. Qed.

(** ** watcher.go: the queries *)

Record QueryOptions := mkQuery { WaitIndex : Z; WaitTime : Z }.

Section queries.
Context `{NodeJson}.
(** [Catalog().Services(query)] and [Health().Service(service, "", true, query)]. *)
Context (Catalog_Services : QueryOptions -> res gerr (list string * option Z))
  (Health_Service : string -> string -> bool -> QueryOptions -> res gerr (list (option ServiceEntry) * option Z)).

Definition watcher_services (lastIndex : Z) : res gerr (list string * option Z) :=
  let query := mkQuery lastIndex defaultWatchWaitTime in
  match Catalog_Services query with
  | Err err => Err (wrap "catlog services err:" err)
  | Ok (servicesMap, meta) => Ok (services servicesMap, meta)
  end.

Definition fetchService (service : string) (waitIndex : Z) : res gerr (instances * option Z) :=
  let query := mkQuery waitIndex defaultWatchWaitTime in
  match Health_Service service "" true query with
  | Err err => Err err
  | Ok (entries, meta) => Ok (entriesToInstances entries, meta)
  end.

(** A step of the catalog's loop on the answer is one on the query's result: the
    loop keeps the services the query gives, and the index if there is one. *)
Theorem catalog_loop_uses_its_query w :
  c_phase w = Querying ->
  watch_step false w (CatalogAnswer (Catalog_Services (mkQuery (c_index w) defaultWatchWaitTime))) =
  match watcher_services (c_index w) with
  | Err _ => set_catalog Sleeping (c_index w) (catalog w) w
  | Ok (names, meta) => reconcileServices names (set_catalog AtSelect (default (c_index w) meta) names w)
  end.
Proof.
  intros Hp. unfold watcher_services. simpl. rewrite bool_decide_eq_true_2 by done.
  by destruct (Catalog_Services _) as [[names meta]|err].
Qed.

Theorem worker_loop_uses_its_query w n W :
  workers w !! n = Some W -> w_phase W = Querying ->
  watch_step false w (WorkerAnswer n (Health_Service (w_service W) "" true (mkQuery (w_index W) defaultWatchWaitTime))) =
  match fetchService (w_service W) (w_index W) with
  | Err _ => set_worker n (at_phase Sleeping (w_index W) (w_last W) W) (caches w) w
  | Ok (found, meta) =>
    set_worker n (at_phase AtSelect (default (w_index W) meta) (Some found) W) (<[w_service W := found]> (caches w)) w
  end.
Proof.
  intros Hn Hp. unfold fetchService. simpl. rewrite Hn. rewrite bool_decide_eq_true_2 by done.
  by destruct (Health_Service _ _ _ _) as [[entries meta]|err].
Qed.
End queries.

(** ** registration.go: the keeper

    The loop's select fires for a tick or for the context. A run of the loop is
    infinite unless the context is cancelled: [n] bounds the selects looked at,
    and [None] is a keeper that still runs then. *)
Inductive kpop : Set -> Type :=
| NewTicker (interval : Z) : kpop unit
| StopTicker : kpop unit
| SelectTick : kpop bool (* a tick, or the context is done *)
| Keep {R : Set} (o : kop R) : kpop R.

Fixpoint keep {A} (p : prog kop A) : prog kpop A :=
  match p with Ret a => Ret a | Do o k => Do (Keep o) (fun r => keep (k r)) end.

Fixpoint keeper_loop (n : nat) (serviceId : string) : prog kpop (option unit) :=
  match n with
  | O => Ret None
  | S n =>
    tick <-! SelectTick;
    if tick : bool then _ <~ keep (keepAlive serviceId); keeper_loop n serviceId
    else do! StopTicker; Ret (Some tt)
  end.

Definition runKeeper (n : nat) (o : Options) (serviceId : string) : prog kpop (option unit) :=
  do! NewTicker (Z.quot (op_TTL o) 2);
  _ <~ keep (keepAlive serviceId);
  keeper_loop n serviceId.

(** [time.NewTicker] panics when its interval is not positive: the options leave
    it positive. *)
Theorem keeper_interval_is_positive o : 1 <= Z.quot (op_TTL (normalizeOptions o)) 2.
Proof.
  simpl. destruct (op_TTL o <=? 2) eqn:E; zbool; [vm_compute; discriminate|].
  rewrite Z.quot_div_nonneg by lia. apply Z.div_le_lower_bound; lia.
Qed.

Definition is_update (e : event kpop) : bool := match e with Ev (Keep (UpdateTTL _)) _ => true | _ => false end.
Definition is_select (e : event kpop) : bool := match e with Ev SelectTick _ => true | _ => false end.
Definition is_done (e : event kpop) : bool := match e with Ev SelectTick b => negb b | _ => false end.
Definition count (f : event kpop -> bool) (t : list (event kpop)) : nat := length (List.filter f t).
Lemma count_app f a b : count f (a ++ b) = (count f a + count f b)%nat.
Proof. unfold count. by rewrite List.filter_app, length_app. Qed.

(** The TTL is renewed for the check of the service only, right after the context
    was seen alive. *)
Fixpoint renews_alive (id : string) (alive : bool) (t : list (event kpop)) : Prop :=
  match t with
  | [] => True
  | Ev (Keep (UpdateTTL checkID)) _ :: t => alive = true /\ checkID = serviceCheckID id /\ renews_alive id false t
  | Ev (Keep (Cancelled i)) done :: t => i = id /\ renews_alive id (negb done) t
  | _ :: t => renews_alive id false t
  end.

Lemma renews_app id a b t1 t2 : renews_alive id a t1 -> (forall c, renews_alive id c t2) -> renews_alive id b t1 \/ True ->
  renews_alive id a (t1 ++ t2).
Proof.
  intros H1 H2 _. revert a H1. induction t1 as [|[R o r] t1 IH]; intros a H1; [apply H2|].
  destruct o as [i| | |R o]; simpl in *; auto. destruct o; simpl in *; intuition auto.
Qed.

Lemma keepAlive_trace id t r a : runs (keep (keepAlive id)) t r ->
  renews_alive id a t /\ (count is_update t <= 1)%nat /\ count is_select t = 0%nat.
Proof.
  unfold keepAlive. case_bool_decide; cbn [keep runs]; [intros [-> ->]; unfold count; simpl; auto|].
  intros (done & t' & -> & H'). destruct done; cbn [keep runs] in H'.
  - destruct H' as [-> ->]. unfold count. simpl. repeat split; auto.
  - destruct H' as (res & t'' & -> & -> & ->). simpl. unfold count. simpl. repeat split; auto.
Qed.

Lemma keeper_loop_trace n id t r : runs (keeper_loop n id) t r ->
  (forall a, renews_alive id a t) /\ (count is_update t <= count is_select t)%nat /\
  (match r with Some _ => exists t', t = t' ++ [Ev SelectTick false; Ev StopTicker tt] | None => count is_select t = n end).
Proof.
  revert t. induction n as [|n IH]; intros t H; simpl in H; [by destruct H as [-> ->]|].
  destruct H as (tick & t' & -> & H). destruct tick.
  - apply runs_andThen in H as (t1 & t2 & u & -> & H1 & H2). destruct (IH _ H2) as (Hr & Hc & Hend).
    assert (Hk := fun a => keepAlive_trace id t1 u a H1). split; [|split].
    + intros a. simpl. apply (renews_app id false false); [apply Hk|done|by right].
    + destruct (Hk true) as (_ & Hu & Hs). change (count is_update (t1 ++ t2) <= S (count is_select (t1 ++ t2)))%nat.
      rewrite !count_app. lia.
    + destruct r as [u'|].
      * destruct Hend as [t' ->]. exists (Ev SelectTick true :: t1 ++ t'). simpl. by rewrite <- (assoc_L (++)).
      * destruct (Hk true) as (_ & _ & Hs). change (S (count is_select (t1 ++ t2)) = S n). rewrite count_app. lia.
  - destruct H as ([] & t'' & -> & -> & ->). split; [done|]. split; [unfold count; simpl; lia|]. by exists [].
Qed.

(** A keeper renews the TTL of its service's check at once and then at most once a
    tick, only after it has seen its context alive, and ends, with its ticker
    stopped, when its select sees the context done. *)
Theorem keeper_renews_while_alive n o id t r :
  runs (runKeeper n o id) t r ->
  exists t', t = Ev (NewTicker (Z.quot (op_TTL o) 2)) tt :: t' /\
  renews_alive id false t' /\ (count is_update t' <= 1 + count is_select t')%nat /\
  match r with
  | Some _ => exists t'', t' = t'' ++ [Ev SelectTick false; Ev StopTicker tt]
  | None => count is_select t' = n
  end.
Proof.
  intros ([] & t' & -> & H). exists t'. split; [done|]. apply runs_andThen in H as (t1 & t2 & u & -> & H1 & H2).
  destruct (keeper_loop_trace _ _ _ _ H2) as (Hr & Hc & Hend). destruct (keepAlive_trace id t1 u false H1) as (Ha & Hu & Hs).
  split; [|split].
  - apply (renews_app id false false); [done|done|by right].
  - rewrite !count_app. lia.
  - destruct r as [u'|]; [|rewrite count_app; lia].
    destruct Hend as [t'' ->]. exists (t1 ++ t''). by rewrite (assoc_L (++)).
Qed.

Lemma keeper_renews_while_alive_witness :
  let t := [Ev (NewTicker 2500000000) tt; Ev (Keep (Cancelled "a")) false; Ev (Keep (UpdateTTL "service:a")) None;
            Ev SelectTick true; Ev (Keep (Cancelled "a")) true; Ev SelectTick false; Ev StopTicker tt] in
  exists t', t = Ev (NewTicker (Z.quot (op_TTL DefaultOptions) 2)) tt :: t' /\ renews_alive "a" false t' /\
  (count is_update t' <= 1 + count is_select t')%nat /\ exists t'', t' = t'' ++ [Ev SelectTick false; Ev StopTicker tt].
Proof.
  apply (keeper_renews_while_alive 2 DefaultOptions "a" _ (Some tt)).
  do 7 (eexists; eexists; split; [reflexivity|]). split; reflexivity.
Defined.

(** ** subscription_center.go: functions as subscribers *)

Definition OnClusterChange (f : option (list Member -> option gerr)) (members : list Member) : option gerr :=
  match f with None => Some ErrSubscriberNil | Some f => f members end.

Lemma registry_runs_or_has_nothing_witness :
  let api := {| NewClient := fun c => Ok 1%N; AgentSelf := fun _ => Some ErrPidNil |} in
  exists e, (Run (S := unit) (mkApiConfig "" "http" "" "") (NewWithOptions (mkOptions "" "" "" "" 0 0))).2 = Some e /\
  forall id, Registry_Leave (Run (S := unit) (mkApiConfig "" "http" "" "") (NewWithOptions (mkOptions "" "" "" "" 0 0))).1 id = Does (Ret None).
Proof.
  cbv zeta. set (R := Run _ _). destruct R as [r err] eqn:E.
  assert (J : NodeJson) by exact {| json_Marshal := fun _ => Err ErrPidNil; json_Unmarshal := fun _ => Err ErrPidNil |}.
  pose proof (registry_runs_or_has_nothing _ _ _ _ E) as H. injection E as <- <-. eexists. split; [reflexivity|]. apply H.
Defined.
