(* ===== verification/ConnUser.v ===== *)
(** * What a connection shows to its users

    The other methods of network's connections: base_connection.go (bind, the
    getters, the user data), iface.go (ids, states, the default handler), the
    addresses and socket options of tcp_connection.go, websocket_connection.go and
    udp_connection.go with their constructors, and the default configurations and
    servers. The protocol is in Conn.v, the loggers are those of Logging.v. *)

From stdpp Require Import pretty.
From S2P Require Import Prelude Support Logging Protocol Codec Cipher Buffer Conn.

(** ** iface.go *)

(** [connectionIDCounter.Add(1)]: the counter after it is the id. *)
Definition generateConnectionID (counter : Z) : Z * Z := let c := s64 (counter + 1) in (c, c).
(** The ids of [n] connections, however the goroutines that make them interleave:
    each addition is one atomic operation. *)
Fixpoint connection_ids (n : nat) (counter : Z) : list Z :=
  match n with O => [] | S n => let '(c, id) := generateConnectionID counter in id :: connection_ids n c end.

Lemma connection_ids_from n : forall counter, -2 ^ 63 <= counter -> counter + Z.of_nat n < 2 ^ 63 ->
  connection_ids n counter = (fun i => counter + 1 + Z.of_nat i) <$> seq 0 n.
Proof.
  induction n as [|n IH]; intros counter Hl Hu; [done|]. cbn [connection_ids generateConnectionID].
  rewrite s64_small by lia. rewrite IH by lia. cbn [seq fmap list_fmap]. f_equal; [lia|].
  rewrite <- fmap_S_seq, <- list_fmap_compose. apply list_fmap_ext. intros i x _. simpl. lia.
Qed.

(** The first 2^63-1 connections of a process have different, positive ids. *)
Theorem connection_ids_are_unique n : Z.of_nat n < 2 ^ 63 ->
  NoDup (connection_ids n 0) /\ Forall (fun id => 0 < id) (connection_ids n 0).
Proof.
  intros Hn. rewrite connection_ids_from by lia. split.
  - apply NoDup_fmap_2; [intros i j E; lia|apply NoDup_seq].
  - apply Forall_fmap, Forall_forall. intros i _. simpl. lia.
Qed.
Lemma connection_ids_are_unique_witness : NoDup (connection_ids 3 0) /\ Forall (fun id => 0 < id) (connection_ids 3 0).
Proof. apply connection_ids_are_unique. lia. Defined.

(** [nil] contexts become the background context. *)
Definition normalizeContext {C} (Background : C) (ctx : option C) : C :=
  match ctx with None => Background | Some c => c end.

(** A handler that accepts everything and does nothing. *)
Module DefaultTransportHandler.
Definition OnConnected (b : Conn) : option nerr := None.
Definition OnMessage (b : Conn) (frame : MessageFrame) : option nerr := None.
Definition OnClose {W} (w : W) (b : Conn) (err : option nerr) : W := w.
End DefaultTransportHandler.

(** ** config.go: configurations before Normalize *)

Definition zero_config : CommonConfig := mkConfig false 0 None 0 0 0 0 0.
Record TCPConfig := mkTCPConfig { t_Address : string; t_Common : CommonConfig; t_ReadBufferCap : Z }.
Record UDPConfig := mkUDPConfig { u_Address : string; u_Common : CommonConfig; u_ServerSendChanSize : Z }.
Record WebSocketConfig := mkWebSocketConfig { w_Address : string; w_Common : CommonConfig; w_Upgrader : bool (* not nil *) }.

Definition DefaultTCPConfig (address : string) : TCPConfig := mkTCPConfig address zero_config 0.
Definition DefaultUDPConfig : UDPConfig := mkUDPConfig "" zero_config 0.
Definition DefaultWebSocketConfig (address : string) : WebSocketConfig := mkWebSocketConfig address zero_config false.

Definition tcp_Normalize (c : TCPConfig) : TCPConfig :=
  let '(common, cap) := TCPConfig_Normalize (t_Common c) (t_ReadBufferCap c) in mkTCPConfig (t_Address c) common cap.
Definition udp_Normalize (c : UDPConfig) : UDPConfig :=
  let '(common, size) := UDPConfig_Normalize (u_Common c) (u_ServerSendChanSize c) in mkUDPConfig (u_Address c) common size.
Definition ws_Normalize (c : WebSocketConfig) : WebSocketConfig :=
  mkWebSocketConfig (w_Address c) (Normalize (w_Common c)) true.

(** The servers keep the configuration they normalised. *)
Record TCPServer := mkTCPServer { ts_config : TCPConfig }.
Record WebSocketServer := mkWebSocketServer { ws_config : WebSocketConfig }.
Definition NewTCPServer (config : TCPConfig) : TCPServer := mkTCPServer (tcp_Normalize config).
Definition NewWebSocketServer (config : WebSocketConfig) : WebSocketServer := mkWebSocketServer (ws_Normalize config).

Lemma Normalize_idem c : Normalize (Normalize c) = Normalize c.
Proof.
  unfold Normalize, KB, second. simpl. f_equal; repeat match goal with |- context [?x <=? 0] => destruct (x <=? 0) eqn:?; zbool end; lia.
Qed.

(** Every connection made from one configuration gets the same: normalising it
    again, as each dial does, changes nothing, and the read buffer holds the
    largest frame and a chunk. *)
Theorem tcp_config_is_stable c :
  tcp_Normalize (tcp_Normalize c) = tcp_Normalize c /\
  MaxInboundSize (t_Common (tcp_Normalize c)) + tcpReadChunkSize <= t_ReadBufferCap (tcp_Normalize c).
Proof.
  unfold tcp_Normalize, TCPConfig_Normalize. cbn [t_Common t_ReadBufferCap t_Address]. rewrite Normalize_idem.
  set (m := MaxInboundSize (Normalize (t_Common c)) + tcpReadChunkSize). destruct (t_ReadBufferCap c <? m) eqn:E; zbool.
  - rewrite Z.ltb_irrefl. split; [done|apply Z.le_refl].
  - rewrite (proj2 (Z.ltb_ge _ _)) by lia. by split.
Qed.

(** ** The sockets below

    A UDP connection has the address its datagrams come from; the field of its
    own socket is there but no code sets it. *)
Inductive socket :=
| TCPSocket (local remote : string)
| WebSocketSocket (local remote : string)
| UDPSocket (conn : option string) (remoteAddr : option string).

(** tcp_connection.go and websocket_connection.go ask the socket itself. *)
Definition tcp_LocalAddr (local : string) : string := local.
Definition tcp_RemoteAddr (remote : string) : string := remote.
Definition tcp_Network : string := "tcp".
Definition ws_LocalAddr (local : string) : string := local.
Definition ws_RemoteAddr (remote : string) : string := remote.
Definition ws_Network : string := "ws".
(** udp_connection.go asks the socket and the address it may not have. *)
Definition udp_LocalAddr (conn : option string) : string :=
  match conn with None => "" | Some local => local end.
Definition udp_RemoteAddr (remoteAddr : option string) : string :=
  match remoteAddr with None => "" | Some remote => remote end.
Definition udp_Network : string := "udp".

(** The methods of the interface Connection. *)
Definition LocalAddr (s : socket) : string :=
  match s with
  | TCPSocket local _ => tcp_LocalAddr local
  | WebSocketSocket local _ => ws_LocalAddr local
  | UDPSocket conn _ => udp_LocalAddr conn
  end.
Definition RemoteAddr (s : socket) : string :=
  match s with
  | TCPSocket _ remote => tcp_RemoteAddr remote
  | WebSocketSocket _ remote => ws_RemoteAddr remote
  | UDPSocket _ remoteAddr => udp_RemoteAddr remoteAddr
  end.
Definition Network (s : socket) : string :=
  match s with TCPSocket _ _ => tcp_Network | WebSocketSocket _ _ => ws_Network | UDPSocket _ _ => udp_Network end.

(** ** base_connection.go *)

Definition role_number (r : ConnectionRole) : Z :=
  match r with ConnectionRoleServer => 0 | ConnectionRoleClient => 1 end.
(** The states as the number that is stored, and back. *)
Definition state_number (s : ConnectionState) : Z :=
  match s with
  | ConnectionStateCreated => 0 | ConnectionStateHandshaking => 1 | ConnectionStateReady => 2 | ConnectionStateClosed => 3
  end.

Section user.
Context {D Hook : Type}.

(** The fields of baseConn its users see; [D] are the values other than nil. *)
Record shown := mkShown {
  sh_id : Z; sh_role : ConnectionRole; sh_state : Z; sh_userData : option D;
  sh_socket : socket; sh_logger : GLogger Hook }.

Definition ID (c : shown) : Z := sh_id c.
Definition Role (c : shown) : ConnectionRole := sh_role c.
Definition Log (c : shown) : GLogger Hook := sh_logger c.
Definition UserData (c : shown) : option D := match sh_userData c with None => None | Some d => Some d end.
Definition SetUserData (data : option D) (c : shown) : shown :=
  match data with
  | None => c
  | Some d => mkShown (sh_id c) (sh_role c) (sh_state c) (Some d) (sh_socket c) (sh_logger c)
  end.
(** [ConnectionState(b.state.Load())] *)
Definition State (c : shown) : option ConnectionState :=
  if sh_state c =? 0 then Some ConnectionStateCreated
  else if sh_state c =? 1 then Some ConnectionStateHandshaking
  else if sh_state c =? 2 then Some ConnectionStateReady
  else if sh_state c =? 3 then Some ConnectionStateClosed else None.

(** The logger of the connection: the one of its configuration with what tells
    the connection apart. *)
Definition bind (logger : GLogger Hook) (id : Z) (r : ConnectionRole) (s : socket) : GLogger Hook :=
  With logger [("connId", pretty id); ("role", pretty (role_number r)); ("network", Network s);
               ("remoteAddr", RemoteAddr s); ("localAddr", LocalAddr s)].

Definition new_base (logger : GLogger Hook) (counter : Z) (r : ConnectionRole) (s : socket) : Z * shown :=
  let '(counter, id) := generateConnectionID counter in
  (counter, mkShown id r (state_number ConnectionStateCreated) None s (bind logger id r s)).

Definition newTCPConnection (config : TCPConfig) (logger : GLogger Hook) (counter : Z) (r : ConnectionRole)
    (local remote : string) : Z * shown * Buffer :=
  (new_base logger counter r (TCPSocket local remote),
   Buffer.New (t_ReadBufferCap config) (Some (t_ReadBufferCap config))).
Definition newWebSocketConnection (config : WebSocketConfig) (logger : GLogger Hook) (counter : Z)
    (local remote : string) : Z * shown * Buffer :=
  let readBufferCap := MaxInboundSize (w_Common config) + tcpReadChunkSize in
  (new_base logger counter ConnectionRoleServer (WebSocketSocket local remote),
   Buffer.New readBufferCap (Some readBufferCap)).
Definition newUDPConnection (logger : GLogger Hook) (counter : Z) (remote : string) : Z * shown :=
  new_base logger counter ConnectionRoleServer (UDPSocket None (Some remote)).

(** The user data is the last value other than nil that was set. *)
Theorem user_data_is_the_last_set (sets : list (option D)) c :
  UserData (foldl (fun c d => SetUserData d c) c sets) =
  match last (omap id sets) with Some d => Some d | None => UserData c end.
Proof.
  revert c. induction sets as [|d sets IH]; intros c; [done|]. cbn [foldl]. rewrite IH.
  destruct d as [d|]; [|done]. change (omap id (Some d :: sets)) with (d :: omap id sets).
  rewrite last_cons. by destruct (last (omap id sets)).
Qed.

(** The loggers of all connections of a configuration belong to one family:
    setting the configuration's level sets theirs. *)
Theorem connections_log_at_one_level logger counter r s : derived logger (sh_logger (new_base logger counter r s).2).
Proof. unfold new_base. simpl. apply derived_With, derived_root. Qed.

(** No UDP connection knows its local address. *)
Lemma udp_local_address_is_empty logger counter remote :
  LocalAddr (sh_socket (newUDPConnection logger counter remote).2) = "" /\
  RemoteAddr (sh_socket (newUDPConnection logger counter remote).2) = remote.
Proof. done. Qed.

Lemma State_of_number c s : sh_state c = state_number s -> State c = Some s.
Proof. unfold State. intros ->. by destruct s. Qed.
End user.

(** *** The default handler *)

Section default.
Context `{KeyAgreement} (select_done : Conn -> bool).
Import DefaultTransportHandler.

(** With the default handler a decoded business frame never ends a ready connection. *)
Theorem default_handler_keeps_connections b frame :
  IsInternalCommand (f_Cmd frame) = false -> state b = ConnectionStateReady ->
  processFrame OnConnected OnMessage select_done b frame = (deliver b frame, None).
Proof. intros Hc Hs. unfold processFrame. rewrite Hc. by rewrite bool_decide_eq_true_2 by done. Qed.
End default.

(** ** Writing to a socket

    websocket_connection.go's [writeRaw] over gorilla's connection. *)
Section writing.
Context {W : Type} (SetWriteDeadline : Z -> W -> W * option nerr) (WriteMessage : list Z -> W -> W * option nerr)
  (LogError : string -> W -> W) (Now : W -> Z).

Definition ws_writeRaw (c : CommonConfig) (data : list Z) (w : W) : W * option nerr :=
  let t := Now w + WriteTimeout c in
  match SetWriteDeadline t w with
  | (w, Some err) => (w, Some err)
  | (w, None) =>
    match WriteMessage data w with
    | (w, Some err) => (LogError "websocket connection write failed" w, Some err)
    | (w, None) => (w, None)
    end
  end.

(** It writes the data once, as one message, under the deadline, or says why not. *)
Theorem ws_writeRaw_writes_once c data w :
  (ws_writeRaw c data w).2 = None ->
  exists w1, SetWriteDeadline (Now w + WriteTimeout c) w = (w1, None) /\ WriteMessage data w1 = ((ws_writeRaw c data w).1, None).
Proof.
  unfold ws_writeRaw. destruct (SetWriteDeadline _ w) as [w1 [e|]]; [by intros [=]|].
  destruct (WriteMessage data w1) as [w2 [e|]] eqn:E; [by intros [=]|]. intros _. by exists w1.
Qed.
End writing.

(** tcp_connection.go: the options are the socket's. *)
Inductive tcp_option := Linger (seconds : Z) | NoDelay (b : bool) | ReadBuffer (bytes : Z) | WriteBuffer (bytes : Z).
Section options.
Context {W : Type} (set_option : tcp_option -> W -> W * option nerr).
Definition SetLinger (seconds : Z) : W -> W * option nerr := set_option (Linger seconds).
Definition SetNoDelay (noDelay : bool) : W -> W * option nerr := set_option (NoDelay noDelay).
Definition SetSocketReadBuffer (bytes : Z) : W -> W * option nerr := set_option (ReadBuffer bytes).
Definition SetSocketWriteBuffer (bytes : Z) : W -> W * option nerr := set_option (WriteBuffer bytes).
End options.
