(* ===== verification/Discovery.v ===== *)
(** * Discovery: from Consul's answers to the owner a router finds

    cluster/cluster.go's queries and node/adapter.go over any [DiscoveryAPI] of
    cluster/member/typs.go, which the registry on Consul implements; the laws
    that logical actors rely on; and placement and the router's search for an
    owner over them. Composes Consul.v, Cluster.v, Placement.v and Router.v. *)

From S2P Require Import Prelude Errors Effects Placement Cluster Consul ConsulFacts Actor Component Router.

(** ** The interface *)

Class DiscoveryAPI (S : Type) := {
  d_AllMembers : S -> list Member;
  d_Members : S -> string -> gmap string Member;
  d_MemberById : S -> string -> Member * bool }.

(** What logical actors rely on: whoever is shown as a member of a service is
    found by its id, as the same member, and whoever is found is a member. *)
Class LawfulDiscovery (S : Type) `{DiscoveryAPI S} (s : S) : Prop := {
  members_by_key service id m : d_Members s service !! id = Some m -> Cluster.ID m = id;
  members_are_found service id m : d_Members s service !! id = Some m -> d_MemberById s id = (m, true);
  found_is_member id m : d_MemberById s id = (m, true) -> Cluster.ID m = id /\ m ∈ d_AllMembers s }.

Section client.
Context {S : Type} `{DiscoveryAPI S}.

(** cluster.go *)
Definition Cluster_Members (s : S) (nodeId : string) : gmap string Member := d_Members s nodeId.
Definition Cluster_MemberById (s : S) (nodeId : string) : Member * bool := d_MemberById s nodeId.
Definition Cluster_AllMembers (s : S) : list Member := d_AllMembers s.

(** adapter.go *)
Record ActorNodeAdapter := mkAdapter { cluster : S }.
Definition NewActorNodeAdapter (cluster : S) : ActorNodeAdapter := mkAdapter cluster.
Definition Adapter_Members (p : ActorNodeAdapter) (service : string) : gmap string NodeInfo :=
  newLogicalActorNode <$> Cluster_Members (cluster p) service.
Definition Adapter_MemberById (p : ActorNodeAdapter) (serviceID : string) : NodeInfo * bool :=
  let '(node, ok) := Cluster_MemberById (cluster p) serviceID in (newLogicalActorNode node, ok).

(** [NewDynamicRoundRobinStrategy] *)
Definition NewDynamicRoundRobinStrategy : RoundRobinStrategy := mkRR 0.

(** The members of a kind in an order a range over the map may have. *)
Definition ranged (p : ActorNodeAdapter) (order : string -> list NodeInfo) : Prop :=
  forall kind, order kind ≡ₚ (map_to_list (Adapter_Members p kind)).*2.

Lemma shown_member p order kind n : ranged p order -> n ∈ order kind ->
  exists id m, d_Members (cluster p) kind !! id = Some m /\ n = newLogicalActorNode m.
Proof.
  intros Hr Hn. rewrite (Hr kind) in Hn. apply list_elem_of_fmap in Hn as ([id x] & -> & Hin).
  apply elem_of_map_to_list in Hin. unfold Adapter_Members in Hin. rewrite lookup_fmap in Hin.
  apply fmap_Some in Hin as (m & Hm & ->). by exists id, m.
Qed.

(** What round robin picks is one of the nodes. *)
Lemma picked_is_listed (l : list NodeInfo) k : l <> [] ->
  nth (Z.to_nat (k mod zlen (merge_sort by_id l))) (merge_sort by_id l) no_node ∈ l.
Proof.
  intros Hl. set (nodes := merge_sort by_id l). assert (Hp : nodes ≡ₚ l) by apply merge_sort_Permutation.
  assert (H0 : 0 < zlen nodes) by (unfold zlen; rewrite Hp; destruct l; [done|simpl; lia]).
  pose proof (Z.mod_pos_bound k _ H0). eapply elem_of_Permutation_proper; [symmetry; exact Hp|].
  apply list_elem_of_In, nth_In. unfold zlen in *. lia.
Qed.

(** The node that placement picks is one that discovery finds alive. *)
Theorem picked_node_is_found p order rr a rr' n :
  LawfulDiscovery S (cluster p) -> ranged p order -> is_u 64 (nextIndex rr) ->
  Placement.PickNode rr (Some order) a = (rr', Ok n) ->
  Adapter_MemberById p (NodeId n) = (n, true) /\ is_u 64 (nextIndex rr').
Proof.
  intros L Hr Hu Hp. destruct (order (Kind a)) as [|x l] eqn:Eo.
  { unfold Placement.PickNode, currentNodes in Hp. by rewrite Eo in Hp. }
  rewrite PickNode_Ok in Hp by (done || by rewrite Eo). injection Hp as <- <-. split; [|apply u64_range].
  pose proof (picked_is_listed (order (Kind a)) (nextIndex rr) ltac:(by rewrite Eo)) as Hin.
  destruct (shown_member p order _ _ Hr Hin) as (id & m & Hm & ->).
  unfold Adapter_MemberById, Cluster_MemberById. simpl.
  rewrite (members_by_key _ _ _ Hm). by rewrite (members_are_found _ _ _ Hm).
Qed.

(** As long as discovery shows a node of the kind, placement picks one. *)
Lemma pick_of_shown_kind p order rr a : ranged p order -> is_u 64 (nextIndex rr) ->
  Adapter_Members p (Kind a) <> ∅ -> exists rr' n, Placement.PickNode rr (Some order) a = (rr', Ok n) /\ n ∈ order (Kind a).
Proof.
  intros Hr Hu Hne. assert (Ho : order (Kind a) <> []).
  { intros E. specialize (Hr (Kind a)). rewrite E in Hr. symmetry in Hr. apply Permutation_nil_r in Hr.
    apply fmap_nil_inv in Hr. by apply map_to_list_empty_iff in Hr. }
  rewrite PickNode_Ok by done. do 2 eexists. split; [done|by apply picked_is_listed].
Qed.
End client.
Arguments ActorNodeAdapter : clear implicits.

(** ** The registry on Consul as discovery

    The caches of its watcher, and the order in which a query ranges over them. *)
Record cached := mkCached { rc_caches : gmap string instances; rc_order : list (string * instances) }.
#[export] Instance consul_discovery : DiscoveryAPI cached := {
  d_AllMembers s := Consul.AllMembers ((fun x => (x.1, map_to_list x.2)) <$> rc_order s);
  d_Members s service := Consul.Members (map_to_list (default ∅ (rc_caches s !! service)));
  d_MemberById s id := Consul.MemberById (rc_order s) id }.

(** Nodes are cached under their ids, and each under the one service it
    registered with. *)
Definition shown (home : string -> string) (c : gmap string instances) : Prop :=
  forall service insts id m, c !! service = Some insts -> insts !! id = Some m -> Cluster.ID m = id /\ home id = service.

Lemma MemberById_in home order id m service insts :
  (forall s v i x, (s, v) ∈ order -> v !! i = Some x -> home i = s) -> NoDup order.*1 ->
  (service, insts) ∈ order -> insts !! id = Some m -> Consul.MemberById order id = (m, true).
Proof.
  induction order as [|[s v] order IH]; intros Hh Hnd Hin Hm; [by apply not_elem_of_nil in Hin|].
  simpl in *. apply NoDup_cons in Hnd as [Hs Hnd]. apply elem_of_cons in Hin as [[= <- <-]|Hin]; [by rewrite Hm|].
  destruct (v !! id) as [x|] eqn:Ex.
  - exfalso. apply Hs. assert (s = service) as ->.
    { rewrite <- (Hh s v id x) by (done || apply list_elem_of_here).
      apply (Hh service insts id m); [by apply list_elem_of_further|done]. }
    apply list_elem_of_fmap. by exists (service, insts).
  - apply IH; try done. intros s' v' i y Hin'. apply Hh. by apply list_elem_of_further.
Qed.

Lemma MemberById_out order id m : Consul.MemberById order id = (m, true) ->
  exists service insts, (service, insts) ∈ order /\ insts !! id = Some m.
Proof.
  induction order as [|[s v] order IH]; simpl; [done|]. destruct (v !! id) as [x|] eqn:Ex.
  - intros [= <-]. exists s, v. split; [apply list_elem_of_here|done].
  - intros E. destruct (IH E) as (service & insts & Hin & Hm). exists service, insts. split; [by apply list_elem_of_further|done].
Qed.

Lemma Members_loop (l : list (string * Member)) acc :
  (forall x, x ∈ l -> Cluster.ID x.2 = x.1) -> NoDup l.*1 -> (forall k, k ∈ l.*1 -> acc !! k = None) ->
  foldl (fun ret x => <[Cluster.ID x.2 := x.2]> ret) acc l = (list_to_map l : gmap string Member) ∪ acc.
Proof.
  revert acc. induction l as [|[k m] l IH]; intros acc Hk Hnd Ha; simpl; [by rewrite (left_id_L ∅ (∪))|].
  apply NoDup_cons in Hnd as [Hkl Hnd]. pose proof (Hk (k, m) (list_elem_of_here _ _)) as E. simpl in E. rewrite E. clear E. rewrite IH; try done.
  - simpl. rewrite <- insert_union_r, insert_union_l; [done|]. by apply not_elem_of_list_to_map.
  - intros x Hx. apply Hk. by apply list_elem_of_further.
  - intros k' Hk'. rewrite lookup_insert_ne by (intros ->; done). apply Ha. simpl. by apply list_elem_of_further.
Qed.
Lemma Members_keyed (insts : instances) : (forall id m, insts !! id = Some m -> Cluster.ID m = id) ->
  Consul.Members (map_to_list insts) = insts.
Proof.
  intros Hk. unfold Consul.Members. rewrite Members_loop.
  - by rewrite (right_id_L ∅ (∪)), list_to_map_to_list.
  - intros [id m] Hin. apply elem_of_map_to_list in Hin. by apply Hk.
  - apply NoDup_fst_map_to_list.
  - intros k _. apply lookup_empty.
Qed.

(** The registry is a lawful discovery while its caches are well formed. *)
#[export] Instance consul_is_lawful home s :
  shown home (rc_caches s) -> rc_order s ≡ₚ map_to_list (rc_caches s) -> LawfulDiscovery cached s.
Proof.
  intros Hs Ho. assert (Hin : forall service v, (service, v) ∈ rc_order s <-> rc_caches s !! service = Some v).
  { intros service v. rewrite Ho. apply elem_of_map_to_list. }
  assert (Hm : forall service id m, d_Members s service !! id = Some m ->
    exists insts, rc_caches s !! service = Some insts /\ insts !! id = Some m).
  { intros service id m. simpl. destruct (rc_caches s !! service) as [insts|] eqn:E; simpl; [|done].
    rewrite Members_keyed; [by exists insts|]. intros i x Hx. by destruct (Hs _ _ _ _ E Hx). }
  split.
  - intros service id m Hl. destruct (Hm _ _ _ Hl) as (insts & E & Hx). by destruct (Hs _ _ _ _ E Hx).
  - intros service id m Hl. destruct (Hm _ _ _ Hl) as (insts & E & Hx). simpl.
    apply (MemberById_in home _ _ _ service insts); [| |by apply Hin|done].
    + intros s' v i x Hv Hi. apply Hin in Hv. by destruct (Hs _ _ _ _ Hv Hi).
    + rewrite Ho. apply NoDup_fst_map_to_list.
  - intros id m E. simpl in E. destruct (MemberById_out _ _ _ E) as (service & insts & Hv & Hi).
    apply Hin in Hv as Hc. split; [by destruct (Hs _ _ _ _ Hc Hi)|]. simpl. unfold Consul.AllMembers.
    apply list_elem_of_bind. exists (service, map_to_list insts). split.
    + apply list_elem_of_fmap. exists (id, m). split; [done|]. by apply elem_of_map_to_list.
    + apply list_elem_of_fmap. by exists (service, insts).
Qed.

(** ** The caches the watcher fills *)

Lemma foldl_keeps {A B} (P : B -> Prop) (f : B -> A -> B) l b :
  P b -> (forall b x, P b -> P (f b x)) -> P (foldl f b l).
Proof. intros Hb Hf. revert b Hb. induction l as [|x l IH]; intros b Hb; simpl; auto. Qed.

Section filled.
Context (utf8 : Member -> Prop) `{LawfulNodeJson utf8} (options : Options) (home : string -> string).

(** What Consul answers for a service when every node registers through this
    registry: registrations of nodes with the service's name, one name per id. *)
Definition registrations (service : string) (entries : list (option ServiceEntry)) : Prop :=
  Forall (fun e => e = None \/ exists n reg checks,
    e = Some (entry_of reg checks) /\ instanceToRegistration n options = Ok reg /\
    utf8 (with_Meta n (delete nodeInfoMetaKey <$> Meta n)) /\ Cluster.Name n = service /\ home (Cluster.ID n) = Cluster.Name n) entries.

Definition keyed (service : string) (insts : instances) : Prop :=
  forall id m, insts !! id = Some m -> Cluster.ID m = id /\ home id = service.

Lemma registered_entry n reg checks :
  utf8 (with_Meta n (delete nodeInfoMetaKey <$> Meta n)) -> instanceToRegistration n options = Ok reg ->
  exists service, e_Service (entry_of reg checks) = Some service /\ s_ID service = Cluster.ID n /\
    entry_instance (entry_of reg checks) service = seen_as n (serviceStatus (entry_of reg checks)).
Proof.
  intros Hu Hr. destruct (registered_node_is_seen utf8 n options reg checks Hu Hr) as (Hid & _ & He).
  eexists. split; [reflexivity|]. split; [done|]. unfold entriesToInstances in He. simpl in He.
  apply (f_equal (fun x : instances => x !! Cluster.ID n)) in He. rewrite Hid, lookup_insert_eq, lookup_singleton_eq in He.
  injection He as He. rewrite Hid. exact He.
Qed.

Lemma seen_ID n status : Cluster.ID (seen_as n status) = Cluster.ID n.
Proof. unfold seen_as. by case_bool_decide. Qed.

Lemma registrations_keyed service entries : registrations service entries -> keyed service (entriesToInstances entries).
Proof.
  unfold entriesToInstances. assert (Hk : keyed service ∅) by by intros id m ?%lookup_empty_Some. revert Hk.
  generalize (∅ : instances). intros insts Hk Hr. revert insts Hk. induction Hr as [|e entries He _ IH]; intros insts Hk; [done|].
  simpl. destruct He as [->|(n & reg & checks & -> & Hreg & Hu & Hn & Hh)]; [by apply IH|].
  destruct (registered_entry n reg checks Hu Hreg) as (svc & -> & Hid & Hseen). apply IH.
  intros id m. rewrite lookup_insert_Some. intros [[<- <-]|[_ Hm]]; [|by apply Hk].
  rewrite Hseen, seen_ID, Hid. split; [done|congruence].
Qed.

(** Consul answers a worker with what is registered for its service. *)
Definition honest (w : watcher) (a : wact) : Prop :=
  match a with
  | WorkerAnswer n (Ok (entries, _)) => forall W, workers w !! n = Some W -> registrations (w_service W) entries
  | _ => True
  end.
Fixpoint honest_run (orderly : bool) (w : watcher) (acts : list wact) : Prop :=
  match acts with [] => True | a :: acts => honest w a /\ honest_run orderly (watch_step orderly w a) acts end.

Lemma shown_step orderly w a : honest w a -> shown home (caches w) -> shown home (caches (watch_step orderly w a)).
Proof.
  intros Ha Hs. destruct a as [| |a|t|n|n a|n t]; cbn [watch_step]; try done.
  - unfold watchCatalog. by case_bool_decide.
  - unfold watchCatalog. case_bool_decide; [|done]. destruct a as [[answer index]|err]; [|done].
    destruct (orderly && _); [done|]. unfold reconcileServices.
    apply (foldl_keeps (fun w => shown home (caches w))); [|by intros].
    apply (foldl_keeps (fun w => shown home (caches w))); [done|].
    intros w' s Hw. unfold start_worker. by destruct (works w' !! s).
  - unfold watchCatalog. case_bool_decide; [|done]. destruct t; [done|]. by destruct (ctx_done w).
  - destruct (workers w !! n) as [W|]; [|done]. unfold watchService. case_bool_decide; [|done].
    destruct (stopped w W); [|done]. intros service insts id m. simpl. rewrite lookup_delete_Some. intros [_ Hc]. by eapply Hs.
  - destruct (workers w !! n) as [W|] eqn:EW; [|done]. unfold watchService. case_bool_decide; [|done].
    destruct a as [[entries index]|err]; [|done]. intros service insts id m. simpl. rewrite lookup_insert_Some.
    intros [[<- <-]|[_ Hc]]; [|by eapply Hs]. apply registrations_keyed. by apply Ha.
  - destruct (workers w !! n) as [W|]; [|done]. unfold watchService. case_bool_decide; [|done].
    destruct t; [done|]. destruct (stopped w W); [|done].
    intros service insts id m. simpl. rewrite lookup_delete_Some. intros [_ Hc]. by eapply Hs.
Qed.

Lemma shown_run orderly w acts : honest_run orderly w acts -> shown home (caches w) ->
  shown home (caches (foldl (watch_step orderly) w acts)).
Proof.
  revert w. induction acts as [|a acts IH]; intros w Hr Hs; [done|]. destruct Hr as [Ha Hr]. simpl. apply IH; [done|].
  by apply shown_step.
Qed.
End filled.

(** ** The router's search for an owner, on discovery

    One actor's owner in a directory without stale owners (Router.v's [honest]),
    round robin as the placement strategy, and the adapter as discovery. *)
Section resolving.
Context {S : Type} `{DiscoveryAPI S} {M P St F A : Set} `{AnyPB M P}.
Abbreviation rop := (Router.rop M P St F A).
Variables (p : ActorNodeAdapter S) (order : string -> list NodeInfo).

Definition discovered (R : Set) (o : rop R) (s : option NodeInfo * RoundRobinStrategy)
  : (option NodeInfo * RoundRobinStrategy) * R :=
  match o in Router.rop _ _ _ _ _ R return (option NodeInfo * RoundRobinStrategy) * R with
  | Router.PickNode _ a =>
    let '(rr, r) := Placement.PickNode s.2 (Some order) a in
    ((s.1, rr), match r with Ok n => Ok n | Err e => Err (fail e) end)
  | Router.MemberById id => (s, Adapter_MemberById p id)
  | o => let '(owner, r) := Router.honest (Adapter_MemberById p) no_node _ o s.1 in ((owner, s.2), r)
  end.

Hypothesis lawful : LawfulDiscovery S (cluster p).
Hypothesis order_ok : ranged p order.
Definition alive (n : NodeInfo) : bool := bool_decide ((Adapter_MemberById p (NodeId n)).1 = n).

Lemma placed (rt : Router St F) strategy a n o e rr :
  placements rt !! Kind a = Some strategy -> is_u 64 (nextIndex rr) -> Adapter_Members p (Kind a) <> ∅ ->
  exists rr' t pick, pick ∈ order (Kind a) /\ alive pick = true /\
    interp discovered (resolve_attempts rt (Datatypes.S n) a o e) (None, rr) = ((Some pick, rr'), t, (pick, None)).
Proof.
  intros Hp Hu Hne. destruct (pick_of_shown_kind p order rr a order_ok Hu Hne) as (rr' & pick & Hpick & Hin).
  destruct (picked_node_is_found p order rr a rr' pick lawful order_ok Hu Hpick) as [Hf _].
  exists rr'. assert (Hal : alive pick = true) by (unfold alive; rewrite Hf; by apply bool_decide_eq_true_2).
  eexists _, pick. split; [done|]. split; [done|].
  cbn -[bool_decide placementFor Adapter_MemberById]. unfold placementFor, pickNode. rewrite Hp.
  cbn -[bool_decide Placement.PickNode Adapter_MemberById]. rewrite Hpick.
  cbn -[bool_decide Placement.PickNode Adapter_MemberById]. unfold alive in Hal. rewrite Hal. reflexivity.
Qed.

Lemma resolves (rt : Router St F) strategy a s rr :
  placements rt !! Kind a = Some strategy -> is_u 64 (nextIndex rr) -> Adapter_Members p (Kind a) <> ∅ ->
  exists owner rr' t, interp discovered (resolveOwner rt a) (s, rr) = ((Some owner, rr'), t, (owner, None)) /\
    alive owner = true /\
    match s with Some o => if alive o then owner = o else owner ∈ order (Kind a) | None => owner ∈ order (Kind a) end.
Proof.
  intros Hp Hu Hne. unfold resolveOwner, maxOwnerResolveAttempts. destruct s as [o|].
  - assert (E : forall n, resolve_attempts (P:=P) (F:=F) (A:=A) rt (Datatypes.S n) a no_node None =
      ltac:(let t := eval cbn [resolve_attempts] in
              (resolve_attempts (M:=M) (P:=P) (F:=F) (A:=A) rt (Datatypes.S n) a no_node None) in exact t)) by done.
    rewrite E. clear E. cbn -[bool_decide resolve_attempts Adapter_MemberById]. fold (alive o). destruct (alive o) eqn:Eo.
    { exists o, rr. eexists. by repeat split. }
    cbn -[bool_decide resolve_attempts Adapter_MemberById]. rewrite (bool_decide_eq_true_2 (_ /\ _)) by done.
    cbn -[bool_decide resolve_attempts Adapter_MemberById].
    destruct (placed rt strategy a 1 o (Some (owner_is_dead o)) rr Hp Hu Hne) as (rr' & t & pick & Hin & Hal & ->).
    exists pick, rr'. eexists. by repeat split.
  - destruct (placed rt strategy a 2 no_node None rr Hp Hu Hne) as (rr' & t & pick & Hin & Hal & ->).
    exists pick, rr'. eexists. by repeat split.
Qed.
End resolving.

(** ** End to end *)

Section composed.
Context (utf8 : Member -> Prop) `{LawfulNodeJson utf8} (options : Options) (home : string -> string).
Context {M P St F A : Set} `{AnyPB M P}.

(** C35: Whatever Consul answered, as long as it answers its watcher with nodes
    registered for the service: while the watcher shows a member of the actor's
    kind, resolveOwner on a directory without stale owners finds an owner that is
    alive, keeping a living one and replacing a dead or missing one by a member of
    the kind. *)
Theorem resolveOwner_heals_on_consul orderly acts cs order (rt : Router St F) strategy a s rr :
  honest_run utf8 options home orderly newWatcher acts ->
  let w := watch_run orderly acts in
  let p := NewActorNodeAdapter (mkCached (caches w) cs) in
  cs ≡ₚ map_to_list (caches w) -> ranged p order ->
  placements rt !! Kind a = Some strategy -> is_u 64 (nextIndex rr) -> Adapter_Members p (Kind a) <> ∅ ->
  exists owner rr' t,
    interp (discovered (M := M) (P := P) (St := St) (F := F) (A := A) p order) (resolveOwner rt a) (s, rr) = ((Some owner, rr'), t, (owner, None)) /\
    alive p owner = true /\
    match s with
    | Some o => if alive p o then owner = o else owner ∈ order (Kind a)
    | None => owner ∈ order (Kind a)
    end.
Proof.
  intros Hr w p Hcs Ho Hp Hu Hne. eapply resolves; try done. apply (consul_is_lawful home); [|done].
  apply (shown_run utf8 options home orderly newWatcher acts Hr). intros service insts id m E.
  simpl in E. by rewrite lookup_empty in E.
Qed.
End composed.
