(* ===== verification/DiscoveryDemo.v ===== *)
(** * Discovery at work

    A node registers, the watcher is told of it, and a router whose actor's owner
    is dead finds the node. *)

From S2P Require Import Prelude Errors Effects Placement Cluster Consul ConsulFacts ConsulDemo Actor Component Router RouterDemo Discovery.

Definition no_registration : Registration := mkRegistration "" "" "" 0 ∅ "" 0 0.
Definition registered_1 : Registration :=
  match instanceToRegistration node_1 DefaultOptions with Ok reg => reg | Err _ => no_registration end.

Definition told_of_node_1 : list wact :=
  [CatalogStep; CatalogAnswer (Ok (["worker"; "consul"], Some 3)); WorkerStep 0;
   WorkerAnswer 0 (Ok ([Some (entry_of registered_1 [Some HealthPassing])], Some 4))].
Definition watcher_1 : watcher := watch_run false told_of_node_1.
Definition caches_1 : cached := mkCached (caches watcher_1) (map_to_list (caches watcher_1)).
Definition adapter_1 : ActorNodeAdapter cached := NewActorNodeAdapter caches_1.
Definition order_1 (kind : string) : list NodeInfo := (map_to_list (Adapter_Members adapter_1 kind)).*2.

Definition worker_1 : Placement.ActorID := mkActorID "worker" "1".
Definition router_1 : Router nat nat :=
  mkRouter (mkNodeInfo "node-1" "worker" "123") "node-1" {["worker" := 0%nat]} ∅ None zeroController.
Definition gone : NodeInfo := mkNodeInfo "node-0" "worker" "7".

Example watcher_1_shows_node_1 : order_1 "worker" = [mkNodeInfo "node-1" "worker" "123"].
Proof. vm_compute. reflexivity. Qed.

Lemma told_honestly : honest_run (fun _ => True) DefaultOptions (fun _ => "worker") false newWatcher told_of_node_1.
Proof.
  split; [done|]. split; [done|]. split; [done|]. split; [|done]. intros W HW. vm_compute in HW. injection HW as <-.
  constructor; [|constructor]. right. exists node_1, registered_1, [Some HealthPassing].
  split; [reflexivity|]. split; [vm_compute; reflexivity|]. by vm_compute.
Qed.

Example resolveOwner_heals_on_consul_witness :
  exists owner rr' t,
    interp (discovered (M := nat) (P := nat) (St := nat) (F := nat) (A := nat) adapter_1 order_1)
      (resolveOwner router_1 worker_1) (Some gone, mkRR 0) = ((Some owner, rr'), t, (owner, None)) /\
    alive adapter_1 owner = true /\ owner ∈ order_1 "worker".
Proof.
  assert (Hd : alive adapter_1 gone = false) by (vm_compute; reflexivity).
  destruct (resolveOwner_heals_on_consul (M := nat) (P := nat) (A := nat) (fun _ => True) DefaultOptions
    (fun _ => "worker") false told_of_node_1 (map_to_list (caches watcher_1)) order_1 router_1 0%nat worker_1
    (Some gone) (mkRR 0) told_honestly) as (owner & rr' & t & E & Hal & Hm).
  - apply Permutation_refl.
  - intros kind. unfold order_1, adapter_1, caches_1, watcher_1. apply Permutation_refl.
  - reflexivity.
  - unfold is_u. simpl. lia.
  - intros E. apply (f_equal (fun m : gmap string NodeInfo => m !! "node-1")) in E. vm_compute in E. discriminate E.
  - exists owner, rr', t. split; [exact E|]. split; [exact Hal|].
    change (if alive adapter_1 gone then owner = gone else owner ∈ order_1 "worker") in Hm. by rewrite Hd in Hm.
Defined.
