(* ===== verification/Ownership.v ===== *)
(** * Logical actors that keep their leases

    Activation.v's routers activate actors; here each activated actor is also a
    process with the wrapper ownedActor around it, which starts the renewal ticker
    in Init, renews the lease at its ticks and gives it up in Destroy. Nodes boot
    and crash, commands to Redis get lost, and time passes: how far is bounded by
    the latency [sigma] with which the nodes do what is due and by the number
    [m] of renewals in a row that may fail. *)

From S2P Require Import Prelude Errors Actor Component Effects Placement Directory Router Activation.

(** ** The wrapper over its directory *)

Inductive uop : Set -> Type :=
| AtStore {R : Set} (o : Directory.op R) : uop R
| AtActor {R : Set} (o : Owned.oop R) : uop R.

Fixpoint stored {B} (p : prog Directory.op B) : prog uop B :=
  match p with Ret b => Ret b | Do o k => Do (AtStore o) (fun r => stored (k r)) end.

(** The calls of the directory become the accesses it makes. *)
Fixpoint wrapped {B} (p : prog Owned.oop B) : prog uop B :=
  match p with
  | Ret b => Ret b
  | Do o k =>
    match o in Owned.oop R return (R -> prog uop B) -> prog uop B with
    | Owned.RenewOwner a n => fun k => r <~ stored (Directory.RenewOwner a n); k (bool_answer r)
    | Owned.DeleteOwner a n => fun k => r <~ stored (Directory.DeleteOwner a n); k (bool_answer r)
    | o => fun k => Do (AtActor o) k
    end (fun r => wrapped (k r))
  end.

(** ** The state *)

(** Not yet told to start; serving its messages; in Destroy. *)
Inductive phase := Spawned | Serving | Stopping.
#[export] Instance phase_eq_dec : EqDecision phase.
Proof. solve_decision. Defined.

(** A process: its phase, what its goroutine executes ([Ret id] between messages,
    [id] being leaseTimerID), and its ticker: when it fires next and how often (ns). The rest is what
    the bounds on time refer to: when Redis last gave it the lease or renewed it,
    how many ticks since then, since when it is starting or renewing, and whether
    it is renewing. *)
Record life := mkLife {
  l_phase : phase; l_prog : prog uop Z; l_timer : option (Z * Z);
  l_last : Z (* ms *); l_missed : Z; l_since : Z (* ms *); l_renewing : bool }.

Section ownership.
Context {M P St F A : Set} `{AnyPB M P}.
Abbreviation owned := (ownedActor (A := A)).
Abbreviation raccess := (@Activation.aop M P St F A).
Variable pid_text : PID -> string.
Variable prefix : string.
Variable lease : Z. (* LeaseTTL of every directory, ns *)
Variable rt : nat -> Router St F.
Variables (sigma : Z) (* ns *) (m : Z).

Definition ttl : Z := lease_ms (Directory.mkOptions lease 0 0).
Definition ms : Z := 1000000.
(** The ticker's interval; ns *)
Definition interval : Z := Z.max Owned.Second (Z.quot lease 3).

(** [pending]: the ownership a router actor was granted and has not used yet, and
    when. *)
Record nodes := mkNodes {
  base : cluster (M := M) (P := P) (St := St) (F := F) (A := A);
  up : gset nat;
  lives : gmap (nat * string) life;
  pending : gmap nat (string * Z) }.
Definition begin (n : nat) : nodes := mkNodes (start n) ∅ ∅ ∅.
Definition clock (w : nodes) : Z := now (a_dir (base w)).

Inductive nact :=
| Boot (c : nat)
| Crash (c : nat)
| Base (a : Activation.act (P := P) (A := A)) (* the directories, time, router actors *)
| Begin (c : nat) (name : string)             (* the actor handles its init message *)
| Fire (c : nat) (name : string)              (* it handles a tick of the ticker *)
| Stop (c : nat) (name : string)              (* it handles its stop message *)
| Act (c : nat) (name : string) (f : fate).   (* its goroutine goes on *)

(** ** Router actors *)

Definition is_grant_reply (r : res lerr (list rvalue)) : bool :=
  match r with Ok (VInt 1 :: _) => true | _ => false end.

(** What an access of the router actor does to its unused grant. *)
Definition store_claim {R : Set} (t : Z) (o : Directory.op R) (p : option (string * Z)) : R -> option (string * Z) :=
  match o in Directory.op R return R -> option (string * Z) with
  | RunAcquire id n => fun r => if is_grant_reply r then Some (id, t) else p
  | RunDelete id n => fun _ => None
  | _ => fun _ => p
  end.
Definition claim_after {R : Set} (t : Z) (o : raccess R) (p : option (string * Z)) : R -> option (string * Z) :=
  match o in aop R return R -> option (string * Z) with
  | AtDirectory o => store_claim t o p
  | AtRouter (SpawnActor h options) => fun _ => None
  | AtRouter _ => fun _ => p
  end.

(** The name an access registers. *)
Definition spawns {R : Set} (o : Router.rop M P St F A R) : R -> option string :=
  match o in Router.rop _ _ _ _ _ R return R -> option string with
  | SpawnActor h options => fun r => match r with Ok _ => Some (o_Name options) | Err _ => None end
  | _ => fun _ => None
  end.
Definition registers {R : Set} (o : raccess R) : R -> option string :=
  match o in aop R return R -> option string with AtDirectory _ => fun _ => None | AtRouter o => spawns o end.

Definition is_ret {Op B} (p : prog Op B) : bool := match p with Ret _ => true | Do _ _ => false end.
Definition set_pending (c : nat) (p : option (string * Z)) (g : gmap nat (string * Z)) : gmap nat (string * Z) :=
  match p with Some p => <[c := p]> g | None => delete c g end.

(** A process is born with the lease its router actor was granted. *)
Definition born (w : nodes) (c : nat) : life :=
  mkLife Spawned (Ret 0) None (default (clock w) (snd <$> pending w !! c)) 0 (clock w) false.

Definition proceed (w : nodes) (c : nat) (f : fate) (e : oracle (A := A)) : nodes :=
  match (routing (base w) !! c : option (prog raccess (option gerr))) with
  | Some (Do o k) =>
    let '(d, t, r) := access prefix ttl (base w) c f e o in
    let p := if is_ret (k r) then None else claim_after (clock w) o (pending w !! c) r in
    mkNodes (mkCluster d t (<[c := k r]> (routing (base w)))) (up w)
      (match registers o r with Some name => <[(c, name) := born w c]> (lives w) | None => lives w end)
      (set_pending c p (pending w))
  | _ => w
  end.

(** ** Activated actors *)

Definition set_prog (p : prog uop Z) (l : life) : life :=
  mkLife (l_phase l) p (l_timer l) (l_last l) (l_missed l) (l_since l) (l_renewing l).
Definition set_phase (ph : phase) (l : life) : life :=
  mkLife ph (l_prog l) (l_timer l) (l_last l) (l_missed l) (l_since l) (l_renewing l).
Definition set_timer (t : option (Z * Z)) (l : life) : life :=
  mkLife (l_phase l) (l_prog l) t (l_last l) (l_missed l) (l_since l) (l_renewing l).
(** A renewal reached Redis or not. *)
Definition set_renewed (now : Z) (done : bool) (l : life) : life :=
  mkLife (l_phase l) (l_prog l) (l_timer l) (if done then now else l_last l)
    (if done then 0 else l_missed l) (l_since l) false.
Definition set_tick (now : Z) (t : Z * Z) (l : life) : life :=
  mkLife (l_phase l) (l_prog l) (Some (t.1 + t.2, t.2)) (l_last l) (l_missed l + 1) now true.

(** The actor's context answers; a ticker fires an interval after it was made. *)
Definition actor_op (now : Z) {R : Set} (o : Owned.oop R) (l : life) : life * R :=
  match o in Owned.oop R return life * R with
  | Owned.LeaseTTL => (l, lease)
  | Owned.CtxTicker i => (set_timer (Some (now * ms + i, i)) l, 1)
  | Owned.CtxStopTimer _ => (set_timer None l, tt)
  | Owned.Log _ => (l, tt)
  | Owned.InnerInit => (l, tt)
  | Owned.InnerDestroy => (l, tt)
  | Owned.RenewOwner _ _ => (l, Err ErrOwnerDirectoryNil)
  | Owned.DeleteOwner _ _ => (l, Err ErrOwnerDirectoryNil)
  end.

Definition renewal_done {R : Set} (now : Z) (f : fate) (o : Directory.op R) (l : life) : life :=
  match o with RunRenew _ _ => set_renewed now (match f with NotSent => false | _ => true end) l | _ => l end.

Definition actor_access (d : World) (c : nat) (f : fate) {R : Set} (o : uop R) (l : life) : World * life * R :=
  match o in uop R return World * life * R with
  | AtStore o => let '(d', r) := do_fated prefix ttl d c f o in (d', renewal_done (now d) f o l, r)
  | AtActor o => let '(l, r) := actor_op (now d) o l in (d, l, r)
  end.

Definition with_lives (ls : gmap (nat * string) life) (w : nodes) : nodes := mkNodes (base w) (up w) ls (pending w).
Definition set_base (b : cluster (M := M) (P := P) (St := St) (F := F) (A := A)) (w : nodes) : nodes :=
  mkNodes b (up w) (lives w) (pending w).
(** The process [(c, name)] and its wrapper. *)
Definition process (w : nodes) (c : nat) (name : string) : option (life * owned) :=
  l ← lives w !! (c, name); o ← active (base w) !! (c, name); Some (l, o).

(** A process that is through with Destroy leaves the registry. *)
Definition ended (l : life) : bool := bool_decide (l_phase l = Stopping) && is_ret (l_prog l).
Definition settle (d : World) (c : nat) (name : string) (l : life) (w : nodes) : nodes :=
  if ended l
  then mkNodes (mkCluster d (delete (c, name) (active (base w))) (routing (base w))) (up w)
         (delete (c, name) (lives w)) (pending w)
  else mkNodes (mkCluster d (active (base w)) (routing (base w))) (up w) (<[(c, name) := l]> (lives w)) (pending w).

Definition on_node {V} (c : nat) (x : (nat * string) * V) : Prop := x.1.1 <> c.
#[local] Instance on_node_dec {V} c (x : (nat * string) * V) : Decision (on_node c x).
Proof. unfold on_node. apply _. Defined.

(** ** Steps *)

Definition step (w : nodes) (a : nact) : nodes :=
  match a with
  | Boot c => mkNodes (base w) ({[c]} ∪ up w) (lives w) (pending w)
  | Crash c =>
    mkNodes (mkCluster (a_dir (base w)) (filter (on_node c) (active (base w))) (delete c (routing (base w))))
      (up w ∖ {[c]}) (filter (on_node c) (lives w)) (delete c (pending w))
  | Base (Other a) => set_base (Activation.step pid_text prefix ttl rt (base w) (Other a)) w
  | Base (Receive c request) =>
    if bool_decide (c ∈ up w) && idle (base w) c
    then mkNodes (Activation.step pid_text prefix ttl rt (base w) (Receive c request)) (up w) (lives w) (delete c (pending w))
    else w
  | Base (Proceed c f e) => if bool_decide (c ∈ up w) then proceed w c f e else w
  | Base (Ends _ _) => w
  | Begin c name =>
    match process w c name with
    | Some (l, o) =>
      if bool_decide (l_phase l = Spawned)
      then with_lives (<[(c, name) := set_phase Serving (set_prog (wrapped Owned.Init) l)]> (lives w)) w
      else w
    | None => w
    end
  | Fire c name =>
    match process w c name with
    | Some (mkLife Serving (Ret id) (Some t) _ _ _ _ as l, o) =>
      if bool_decide (t.1 <= clock w * ms)
      then with_lives (<[(c, name) := set_prog (wrapped (_ <~ Owned.on_tick o id; Ret id)) (set_tick (clock w) t l)]> (lives w)) w
      else w
    | _ => w
    end
  | Stop c name =>
    match process w c name with
    | Some (mkLife Serving (Ret id) _ _ _ _ _ as l, o) =>
      with_lives (<[(c, name) := set_phase Stopping (set_prog (wrapped (_ <~ Owned.Destroy o; Ret id)) l)]> (lives w)) w
    | _ => w
    end
  | Act c name f =>
    match process w c name with
    | Some (l, _) =>
      match l_prog l with
      | Do o k => let '(d, l, r) := actor_access (a_dir (base w)) c f o l in settle d c name (set_prog (k r) l) w
      | Ret _ => w
      end
    | None => w
    end
  end.
Definition run (w : nodes) (acts : list nact) : nodes := fold_left step acts w.

(** The actor handles messages on the node [c]. *)
Definition serves (w : nodes) (c : nat) (name : string) : bool :=
  match lives w !! (c, name) with
  | Some l => negb (bool_decide (l_phase l = Stopping))
  | None => false
  end.

(** ** What the environment keeps *)

(** Until when time may pass as far as one process is concerned: its ticker is made
    within [sigma] of its birth, a tick is handled within [sigma], and it renews
    within [sigma]. *)
Definition bound (l : life) : Z :=
  match l_timer l with
  | Some (due, _) => if l_renewing l then l_since l * ms + sigma else due + sigma
  | None => l_since l * ms + sigma
  end.
Definition in_time (t : Z) (w : nodes) : bool :=
  forallb (fun x => bool_decide (l_phase x.2 = Stopping) || bool_decide (t * ms <= bound x.2)) (map_to_list (lives w)) &&
  forallb (fun x => bool_decide (t * ms <= x.2.2 * ms + sigma)) (map_to_list (pending w)).

(** Commands of others to Redis leave the nodes that are up alone: a candidate with
    a node's id is that node, and nobody deletes its ownership in its place. *)
Definition same_node (n n' : NodeInfo) : bool :=
  bool_decide (NodeId n = NodeId n') && bool_decide (InstanceId n = InstanceId n').
Definition leaves_alone (c : nat) {R : Set} (o : Directory.op R) : bool :=
  match o with
  | RunAcquire _ n => negb (bool_decide (NodeId n = NodeId (local (rt c)))) || bool_decide (n = local (rt c))
  | RunDelete _ n => negb (same_node (local (rt c)) n)
  | _ => true
  end.

Definition allowed (w : nodes) (a : nact) : bool :=
  match a with
  | Boot c => forallb (fun c' => negb (bool_decide (NodeId (local (rt c')) = NodeId (local (rt c))))) (elements (up w))
  | Base (Other (Tick d)) => in_time (clock w + Z.max 0 d) w
  | Base (Other (Run t f)) =>
    match calls (a_dir (base w)) !! t with
    | Some (mkCall _ _ (Do o _)) => forallb (fun c => leaves_alone c o) (elements (up w))
    | _ => true
    end
  | Base (Receive c request) => proper (Receive (A := A) c request)
  | Act c name NotSent =>
    match lives w !! (c, name) with
    | Some l => match l_prog l with Do (AtStore (RunRenew _ _)) _ => bool_decide (l_missed l <= m) | _ => true end
    | None => true
    end
  | _ => true
  end.
Fixpoint disciplined (w : nodes) (acts : list nact) : bool :=
  match acts with [] => true | a :: acts => allowed w a && disciplined (step w a) acts end.
End ownership.
