(* ===== verification/OwnershipSafety.v ===== *)
(** * At most one activation of a logical actor

    Ownership.v's nodes, where latencies and lost renewals are bounded as the
    lease demands: Redis names the node of every serving actor, so no two nodes
    serve one actor id. *)

From S2P Require Import Prelude Errors Actor Component Effects Placement Directory Router Activation Ownership.

Section safety.
Context {M P St F A : Set} `{AnyPB M P}.
Abbreviation owned := (ownedActor (A := A)).
Abbreviation raccess := (@Activation.aop M P St F A).
Abbreviation nodes := (Ownership.nodes (M := M) (P := P) (St := St) (F := F) (A := A)).
Variable pid_text : PID -> string.
Variable prefix : string.
Variable lease : Z.
Variable rt : nat -> Router St F.
Variables (sigma m : Z).
Abbreviation ttl := (ttl lease).
Abbreviation step := (Ownership.step pid_text prefix lease rt).
Abbreviation interval := (interval lease).

(** The lease outlives [m + 1] intervals and four latencies: from the grant to the
    spawn, from there to the ticker, from a tick to its handling, and to Redis. *)
Hypothesis sigma_nonneg : 0 <= sigma.
Hypothesis m_nonneg : 0 <= m.
Hypothesis lease_is_long : (m + 1) * interval + 4 * sigma < ttl * ms.

(** ** Time *)

Lemma interval_ge : 1000000000 <= interval /\ lease <= 3 * interval + 2.
Proof. unfold Ownership.interval, Owned.Second. Z.to_euclidean_division_equations; lia. Qed.

Lemma ttl_pos : 0 < ttl.
Proof. pose proof interval_ge. unfold ms in lease_is_long. nia. Qed.

Lemma ttl_ms : ttl * ms <= lease.
Proof.
  pose proof ttl_pos as Ht. revert Ht. unfold Ownership.ttl, lease_ms, ms. simpl.
  Z.to_euclidean_division_equations; lia.
Qed.

(** A tick is handled before the next one is due. *)
Lemma sigma_le_interval : sigma <= interval.
Proof. pose proof interval_ge. pose proof ttl_ms. nia. Qed.

(** What holds of a process that serves or will, at the time [t]. *)
Definition timed (l : life) (t : Z) : Prop :=
  t * ms <= bound sigma l /\ l_last l <= t /\ l_since l <= t /\
  match l_timer l with
  | None => l_renewing l = false /\ l_missed l = 0 /\ l_since l * ms <= l_last l * ms + sigma
  | Some (due, i) =>
    i = interval /\ due <= l_last l * ms + (l_missed l + 1) * interval + 2 * sigma /\
    if l_renewing l
    then due - interval <= l_since l * ms <= due - interval + sigma /\ 1 <= l_missed l <= m + 1
    else 0 <= l_missed l <= m
  end.

(** Products with the interval are atoms to [lia]; this bounds them. *)
Lemma intervals_le k : k <= m -> k * interval <= m * interval.
Proof. pose proof interval_ge. nia. Qed.

Ltac timing :=
  pose proof interval_ge; pose proof sigma_le_interval; pose proof lease_is_long;
  repeat match goal with l : life |- _ => destruct l as [? ? [[? ?]|] ? ? ? []] end;
  unfold timed, bound, ms in *; simpl in *; destruct_and?; simplify_eq; try done;
  repeat match goal with
  | _ : ?k <= m |- _ => assert_fails (assert (k * interval <= m * interval) by assumption); pose proof (intervals_le k ltac:(assumption))
  | _ : ?k <= m + 1 |- _ =>
    assert_fails (assert ((k - 1) * interval <= m * interval) by assumption); pose proof (intervals_le (k - 1) ltac:(lia))
  end;
  simpl in *; split_and?; try done; try lia.

(** The lease of such a process still runs. *)
Lemma timed_leased l t : timed l t -> t < l_last l + ttl.
Proof. intros. assert (0 <= m * interval) by (pose proof interval_ge; nia). timing. Qed.

Lemma timed_later l t t' : timed l t -> t <= t' -> t' * ms <= bound sigma l -> timed l t'.
Proof. intros. unfold timed in *. destruct (l_timer l) as [[? ?]|]; naive_solver lia. Qed.

Lemma timed_born p since t : since <= t -> t * ms <= since * ms + sigma ->
  timed (mkLife Spawned p None since 0 t false) t.
Proof. intros. timing. Qed.

Lemma timed_set_prog l p t : timed l t -> timed (set_prog p l) t.
Proof. done. Qed.
Lemma timed_set_phase l ph t : timed l t -> timed (set_phase ph l) t.
Proof. done. Qed.

Lemma timed_arm l t : timed l t -> l_timer l = None -> timed (set_timer (Some (t * ms + interval, interval)) l) t.
Proof. intros. timing. Qed.

Lemma timed_tick l tm t :
  timed l t -> l_timer l = Some tm -> l_renewing l = false -> tm.1 <= t * ms -> timed (set_tick t tm l) t.
Proof. intros. timing. Qed.

Lemma timed_renewed l t (done : bool) :
  timed l t -> l_renewing l = true -> (done = false -> l_missed l <= m) -> timed (set_renewed t done l) t.
Proof. intros ? ? Hd. destruct done; try specialize (Hd eq_refl); timing. Qed.

(** ** Redis *)

Definition holding (d : World) (c : nat) (id : string) (t : Z) : Prop :=
  exists dl, redis d !! owner_key prefix id = Some (mkEntry (SOwner (local (rt c))) (Some dl)) /\ t + ttl <= dl.

Lemma holding_get d c id t : holding d c id t -> now d < t + ttl ->
  redis_get (now d) (redis d) (owner_key prefix id) = Some (SOwner (local (rt c))).
Proof.
  intros (dl & E & Hdl) Hn. unfold redis_get. rewrite E. unfold live. simpl. by rewrite bool_decide_eq_true_2 by lia.
Qed.

Lemma holding_unique d c1 c2 id t1 t2 : holding d c1 id t1 -> holding d c2 id t2 -> local (rt c1) = local (rt c2).
Proof. intros (? & E1 & _) (? & E2 & _). congruence. Qed.

(** The key of one id is touched by the scripts for that id alone. *)
Lemma incr_frame t st k st' n k' : redis_incr t st k = Ok (st', n) -> k' <> k -> st' !! k' = st !! k'.
Proof.
  unfold redis_incr. destruct (redis_get t st k) as [[v|v]|]; [case_bool_decide|..]; try done;
    intros [= <- <-] Hk; by rewrite lookup_insert_ne.
Qed.

Lemma acquire_frame t st k1 k2 n ttl st' r k : acquireOwnerScript t st k1 k2 n ttl = (st', r) ->
  k <> k1 -> k <> k2 -> st' !! k = st !! k.
Proof.
  intros E H1 H2. revert E. unfold acquireOwnerScript, redis_set.
  destruct (redis_incr t st k2) as [[st2 e]|] eqn:Ei; (destruct (redis_get t st k1) as [[v|v]|];
    [|case_bool_decide; simpl|]; intros [= <- <-]; try done).
  all: rewrite lookup_insert_ne by done; by eapply incr_frame.
Qed.

Lemma delete_frame t st k1 k2 n st' r k : deleteOwnerScript t st k1 k2 n = (st', r) ->
  k <> k1 -> k <> k2 -> st' !! k = st !! k.
Proof.
  intros E H1 H2. revert E. unfold deleteOwnerScript. destruct (redis_get t st k1) as [[v|v]|]; try (by intros [= <- <-]).
  destruct (_ && _); [|by intros [= <- <-]].
  destruct (redis_incr t (delete k1 st) k2) as [[st2 e]|] eqn:Ei; intros [= <- <-].
  - rewrite (incr_frame _ _ _ _ _ k Ei H2). by rewrite lookup_delete_ne.
  - by rewrite lookup_delete_ne.
Qed.

Lemma renew_frame t st k1 n ttl st' r k : renewOwnerScript t st k1 n ttl = (st', r) -> k <> k1 -> st' !! k = st !! k.
Proof.
  unfold renewOwnerScript. destruct (redis_get t st k1) as [[v|v]|]; try (by intros [= <- <-]).
  destruct (_ || _); [by intros [= <- <-]|]. case_bool_decide; intros [= <- <-] Hk; [done|by rewrite lookup_insert_ne].
Qed.

(** Commands that leave the ownership of [id] by node [c] to it. *)
Definition spares (c : nat) (id : string) {R : Set} (o : Directory.op R) : Prop :=
  match o with
  | RunAcquire id' n => id' = id -> NodeId n = NodeId (local (rt c)) -> n = local (rt c)
  | RunDelete id' n => id' = id -> same_node (local (rt c)) n = false
  | _ => True
  end.

Lemma do_op_now d c0 {R : Set} (o : Directory.op R) : now (do_op prefix ttl d c0 o).1 = now d.
Proof. destruct o; simpl; repeat case_match; simplify_eq; done. Qed.

(** The store after an access. *)
Definition store_after (d : World) {R : Set} (o : Directory.op R) : store :=
  match o with
  | RunAcquire id n =>
    (acquireOwnerScript (now d) (redis d) (owner_key prefix id) (epoch_key prefix id) n ttl).1
  | RunRenew id n => (renewOwnerScript (now d) (redis d) (owner_key prefix id) n ttl).1
  | RunDelete id n => (deleteOwnerScript (now d) (redis d) (owner_key prefix id) (epoch_key prefix id) n).1
  | _ => redis d
  end.
Lemma do_op_redis d c0 {R : Set} (o : Directory.op R) : redis (do_op prefix ttl d c0 o).1 = store_after d o.
Proof. destruct o; simpl; repeat case_match; simplify_eq; done. Qed.

(** The scripts on the key that a node holds. *)
Lemma acquire_held t st k1 k2 n owner dl :
  st !! k1 = Some (mkEntry (SOwner owner) (Some dl)) -> t < dl -> k1 <> k2 ->
  let st' := (acquireOwnerScript t st k1 k2 n ttl).1 in
  st' !! k1 = Some (mkEntry (SOwner owner) (Some dl)) \/
  NodeId n = NodeId owner /\ st' !! k1 = Some (mkEntry (SOwner n) (Some (t + ttl))).
Proof.
  intros E Hl Hk. unfold acquireOwnerScript. assert (Eg : redis_get t st k1 = Some (SOwner owner)).
  { unfold redis_get. rewrite E. unfold live. simpl. by rewrite bool_decide_eq_true_2. }
  rewrite Eg. case_bool_decide as Hn; simpl; [|by left].
  destruct (redis_incr t st k2) as [[st2 e]|]; [right|by left]. simpl. unfold redis_set.
  rewrite lookup_insert_eq, bool_decide_eq_true_2 by apply ttl_pos. done.
Qed.

Lemma renew_held t st k1 n owner dl :
  st !! k1 = Some (mkEntry (SOwner owner) (Some dl)) -> t < dl ->
  let st' := (renewOwnerScript t st k1 n ttl).1 in
  st' !! k1 = Some (mkEntry (SOwner owner) (Some dl)) \/ st' !! k1 = Some (mkEntry (SOwner owner) (Some (t + ttl))).
Proof.
  intros E Hl. unfold renewOwnerScript, redis_get. rewrite E. unfold live. simpl. rewrite bool_decide_eq_true_2 by done.
  destruct (_ || _); [by left|]. case_bool_decide; [by left|right]. simpl. by rewrite lookup_insert_eq.
Qed.

Lemma delete_held t st k1 k2 n owner dl :
  st !! k1 = Some (mkEntry (SOwner owner) (Some dl)) -> t < dl -> same_node owner n = false ->
  (deleteOwnerScript t st k1 k2 n).1 !! k1 = Some (mkEntry (SOwner owner) (Some dl)).
Proof.
  intros E Hl Hs. unfold deleteOwnerScript, redis_get. rewrite E. unfold live. simpl. rewrite bool_decide_eq_true_2 by done.
  unfold same_node in Hs. by rewrite Hs.
Qed.

Lemma access_holding d c0 {R : Set} (o : Directory.op R) c id t :
  plain id = true -> t <= now d < t + ttl -> spares c id o -> holding d c id t ->
  holding (do_op prefix ttl d c0 o).1 c id t.
Proof.
  intros Hp Ht Hs (dl & E & Hdl). unfold holding. rewrite do_op_redis.
  pose proof (fun b => owner_epoch_key prefix id b Hp) as Hke.
  assert (Hko : forall id', id' <> id -> owner_key prefix id <> owner_key prefix id').
  { intros id' Hne Hk. apply Hne. symmetry. by eapply owner_key_inj. }
  destruct o as [id'|id' n|id' n|id' n| | | | |]; simpl in *; eauto;
    (destruct (decide (id' = id)) as [->|Hne]; [specialize (Hs eq_refl) || idtac|specialize (Hko id' Hne)]).
  - destruct (acquire_held (now d) (redis d) _ (epoch_key prefix id) n _ dl E ltac:(lia) (Hke id)) as [->|[Hn ->]]; [by eauto|].
    rewrite (Hs Hn). eexists. split; [done|lia].
  - destruct (acquireOwnerScript _ _ _ _ _ _) as [st r] eqn:Ea. simpl. rewrite (acquire_frame _ _ _ _ _ _ _ _ _ Ea) by done. eauto.
  - destruct (renew_held (now d) (redis d) _ n _ dl E ltac:(lia)) as [->| ->]; eexists; (split; [done|lia]).
  - destruct (renewOwnerScript _ _ _ _ _) as [st r] eqn:Ea. simpl. rewrite (renew_frame _ _ _ _ _ _ _ _ Ea) by done. eauto.
  - rewrite (delete_held _ _ _ _ _ _ dl) by (done || lia). eauto.
  - destruct (deleteOwnerScript _ _ _ _ _) as [st r] eqn:Ea. simpl. rewrite (delete_frame _ _ _ _ _ _ _ _ Ea) by done. eauto.
Qed.

Lemma do_fated_holding d c0 f {R : Set} (o : Directory.op R) c id t :
  plain id = true -> t <= now d < t + ttl -> spares c id o -> holding d c id t ->
  holding (do_fated prefix ttl d c0 f o).1 c id t.
Proof.
  intros Hp Ht Hs Hh. unfold do_fated. destruct f; destruct (unavailable o); simpl; try done; by apply access_holding.
Qed.
Lemma do_fated_now d c0 f {R : Set} (o : Directory.op R) : now (do_fated prefix ttl d c0 f o).1 = now d.
Proof. unfold do_fated. destruct f; destruct (unavailable o); simpl; try done; apply do_op_now. Qed.

(** ** Answers *)

(** What Redis may answer to a candidate. *)
Definition acquired_answer (n : NodeInfo) (r : res lerr (list rvalue)) : Prop :=
  (exists e, r = Err e) \/ (exists e, r = Ok [VInt 1; VInt e; VStr (Some (SOwner n))]) \/
  exists e cur, r = Ok [VInt 0; e; VStr (Some (SOwner cur))] /\ NodeId cur <> NodeId n.

Lemma acquire_answers t st k1 k2 n : acquired_answer n (acquireOwnerScript t st k1 k2 n ttl).2.
Proof.
  unfold acquireOwnerScript, acquired_answer.
  destruct (redis_get t st k1) as [[v|v]|]; simpl; [by eauto| |].
  - case_bool_decide; simpl; [|by eauto 8]. destruct (redis_incr t st k2) as [[st2 e]|]; eauto.
  - destruct (redis_incr t st k2) as [[st2 e]|]; eauto.
Qed.

(** A node that Redis granted the id holds it. *)
Lemma acquire_holding d c0 id c r f : do_fated prefix ttl d c0 f (RunAcquire id (local (rt c))) = r ->
  is_grant_reply r.2 = true -> holding r.1 c id (now d).
Proof.
  intros <-. assert (Hop : forall r, do_op prefix ttl d c0 (RunAcquire id (local (rt c))) = r ->
    is_grant_reply r.2 = true -> holding r.1 c id (now d)).
  { intros r <- Hr. unfold holding. rewrite do_op_redis. simpl. revert Hr. simpl.
    assert (Htake : forall r, match redis_incr (now d) (redis d) (epoch_key prefix id) with
       | Ok (st, epoch) => (redis_set (now d) st (owner_key prefix id) (SOwner (local (rt c))) ttl,
                            Ok [VInt 1; VInt epoch; VStr (Some (SOwner (local (rt c))))])
       | Err err => (redis d, Err err) end = r -> is_grant_reply r.2 = true ->
       exists dl, r.1 !! owner_key prefix id = Some (mkEntry (SOwner (local (rt c))) (Some dl)) /\ now d + ttl <= dl).
    { intros r <-. destruct (redis_incr _ _ _) as [[st2 e]|]; [|done]. simpl. unfold redis_set.
      rewrite bool_decide_eq_true_2 by apply ttl_pos. rewrite lookup_insert_eq. intros _. eexists. split; [done|lia]. }
    destruct (acquireOwnerScript _ _ _ _ _ _) as [st r] eqn:Ea. simpl. revert Ea. unfold acquireOwnerScript.
    destruct (redis_get _ _ _) as [[v|v]|].
    - by intros [= <- <-].
    - case_bool_decide; simpl; [|by intros [= <- <-]]. intros Ea Hr. exact (Htake _ Ea Hr).
    - intros Ea Hr. exact (Htake _ Ea Hr). }
  unfold do_fated. destruct f; simpl; try done. by apply Hop.
Qed.

(** A renewal by the node that holds the id is never refused. *)
Lemma renew_answers d c0 f id c n t : n = local (rt c) -> holding d c id t -> now d < t + ttl ->
  let r := (do_fated prefix ttl d c0 f (RunRenew id n)).2 in r = Ok 1 \/ exists e, r = Err e.
Proof.
  intros -> Hh Ht. unfold do_fated. destruct f; simpl; [left|by eauto..].
  pose proof (holding_get d c id t Hh Ht) as Eg. unfold renewOwnerScript. rewrite Eg.
  rewrite !bool_decide_eq_true_2 by done. simpl. pose proof ttl_pos. by rewrite bool_decide_eq_false_2 by lia.
Qed.

(** After a successful renewal the lease runs anew. *)
Lemma renew_holding d c0 f id c n t : n = local (rt c) -> holding d c id t -> now d < t + ttl -> f <> NotSent ->
  holding (do_fated prefix ttl d c0 f (RunRenew id n)).1 c id (now d).
Proof.
  intros -> Hh Ht Hf. assert (holding (do_op prefix ttl d c0 (RunRenew id (local (rt c)))).1 c id (now d)).
  { unfold holding. rewrite do_op_redis. simpl. unfold renewOwnerScript. rewrite (holding_get d c id t Hh Ht).
    rewrite !bool_decide_eq_true_2 by done. simpl. pose proof ttl_pos. rewrite bool_decide_eq_false_2 by lia.
    simpl. rewrite lookup_insert_eq. eexists. split; [done|lia]. }
  unfold do_fated. by destruct f.
Qed.

(** ** What the programs do *)

(** A router actor's next access, when it knows that the name [ab] is free on its
    node and has an unused grant for [claim]. *)
Definition may (c : nat) (ab claim : option string) {R : Set} (o : raccess R) : Prop :=
  match o with
  | AtDirectory (RunAcquire id n) => n = local (rt c) /\ ab = Some ("$logical:" +:+ id) /\ plain id = true
  | AtDirectory (RunDelete id n) => NodeId n = NodeId (local (rt c)) /\ ab = Some ("$logical:" +:+ id)
  | AtRouter (SpawnActor h options) =>
    claim = Some (ActorID_String (ow_actorId h)) /\ plain (ActorID_String (ow_actorId h)) = true /\
    ow_owner h = local (rt c) /\ o_Name options = Name (ow_actorId h) /\ ab = Some (o_Name options) /\
    Validate (ow_actorId h) = None /\ NodeInfo_Validate (local (rt c)) = None
  | _ => True
  end.
Definition store_heard {R : Set} (o : Directory.op R) : R -> Prop :=
  match o in Directory.op R return R -> Prop with RunAcquire id n => acquired_answer n | _ => fun _ => True end.
Definition heard {R : Set} (o : raccess R) : R -> Prop :=
  match o in Activation.aop R return R -> Prop with AtDirectory o => store_heard o | AtRouter _ => fun _ => True end.

Definition free_after_op (ab : option string) {R : Set} (o : Router.rop M P St F A R) : R -> option string :=
  match o in Router.rop _ _ _ _ _ R return R -> option string with
  | Has target => fun r => if r then ab else Some (ActorName target)
  | SpawnActor h options => fun r => match r with Ok _ => None | Err _ => ab end
  | _ => fun _ => ab
  end.
Definition free_after (ab : option string) {R : Set} (o : raccess R) : R -> option string :=
  match o in Activation.aop R return R -> option string with
  | AtDirectory _ => fun _ => ab | AtRouter o => free_after_op ab o
  end.
Definition grant_after (claim : option string) {R : Set} (o : raccess R) (r : R) : option string :=
  fst <$> claim_after 0 o ((fun id => (id, 0)) <$> claim) r.

Fixpoint fit {B} (c : nat) (ab claim : option string) (p : prog raccess B) : Prop :=
  match p with
  | Ret _ => True
  | Do o k => may c ab claim o /\ forall r, heard o r -> fit c (free_after ab o r) (grant_after claim o r) (k r)
  end.

Lemma grant_after_claim t {R : Set} (o : raccess R) p r :
  fst <$> claim_after t o p r = grant_after (fst <$> p) o r.
Proof.
  unfold grant_after. destruct o as [S o'|S o']; destruct o'; simpl; try destruct (is_grant_reply r); try done; by destruct p as [[? ?]|].
Qed.

(** What follows a call of the directory. *)
Lemma fit_deleted c ab claim a n (k : res lerr answer -> prog raccess (option gerr)) :
  NodeId n = NodeId (local (rt c)) -> ab = Some (Name a) -> (forall r, fit c ab None (k r)) ->
  (forall e, fit c ab claim (k (Err e))) ->
  fit c ab claim (andThen (embed (Directory.DeleteOwner a n)) k).
Proof.
  intros Hn Hab Hk He. unfold Directory.DeleteOwner. destruct (Validate a); [apply He|]. destruct (NodeInfo_Validate n); [apply He|].
  cbn [embed andThen fit may]. split; [by split|]. intros r _. change (grant_after claim _ r) with (@None string).
  destruct (mbind deleted_result r) as [[[] epoch]|e]; cbn [embed andThen]; [|apply Hk..].
  unfold notifyOwnerUpdate. cbn [embed andThen fit may free_after grant_after claim_after store_claim].
  split; [done|]. intros u1 _. split; [done|]. intros u2 _. apply Hk.
Qed.

Lemma route_fits c request : proper (A := A) (Receive c request) = true ->
  fit c None None (lower (routeMessage pid_text (rt c) request)).
Proof.
  destruct request as [request|]; [|done]. simpl. intros Hp. set (a := actorIDFromProto (rq_ActorId request)) in *.
  destruct (rq_Message request) as [packed|]; [|done]. destruct (UnmarshalNew packed) as [payload|]; [|done].
  case_bool_decide; [done|]. cbn [lower fit may]. split; [done|]. intros has _. destruct has.
  { cbn [lower fit may]. split; [done|]. by intros [err|] _. }
  cbn [lower free_after free_after_op]. unfold Directory.AcquireOwner.
  destruct (Validate a) eqn:Va; [done|]. destruct (NodeInfo_Validate (local (rt c))) eqn:Vl; [done|].
  cbn [embed andThen fit may]. split; [done|]. intros r Hr. simpl in Hr.
  assert (Hfail : forall claim err, fit c (Some (Name a)) claim (lower (deleted <-! Router.DeleteOwner a (local (rt c));
          match deleted with
          | Err _ => do! LogError "logical actor owner cleanup failed"; Ret (Some (wrap "activate actor :" err))
          | Ok _ => Ret (Some (wrap "activate actor :" err))
          end))).
  { intros claim err. cbn [lower]. apply fit_deleted; [done|done|..]; intros e; by destruct (bool_answer _). }
  destruct Hr as [[e ->]|[[e ->]|(e & cur & -> & Hne)]]; [done| |].
  - cbn [mbind res_bind acquired_result redisResultBool redisResultUint64]. simpl bool_decide. cbn [mbind res_bind].
    destruct (bool_decide (e < 0)); [done|]. cbn [mbind res_bind]. unfold check_node. rewrite Vl.
    cbn [mbind res_bind embed andThen fit may]. split; [done|]. intros u1 _. cbn [notifyOwnerUpdate embed andThen fit may].
    split; [done|]. intros u2 _. cbn [embed andThen node_answer o_Node negb andb].
    unfold activateActor. destruct (factories (rt c) !! Kind a) as [factory|]; [|apply Hfail].
    cbn [andThen lower fit may]. split; [done|]. intros [[handler|] options] _; [|apply Hfail].
    cbn [andThen lower fit may]. split; [done|]. intros [pid|err] _; [|apply Hfail].
    cbn [andThen lower fit may]. split; [done|]. by intros [err|] _.
  - cbn [mbind res_bind acquired_result redisResultBool redisResultUint64]. simpl bool_decide. cbn [mbind res_bind].
    destruct (redisResultUint64 e) as [epoch|]; [|done]. cbn [mbind res_bind]. unfold check_node.
    destruct (NodeInfo_Validate cur); [done|]. cbn [mbind res_bind embed andThen fit may]. split; [done|]. intros u3 _.
    change (bool_decide (0 = 1)) with false. cbn [embed andThen node_answer o_Node]. unfold isLocal.
    rewrite bool_decide_eq_false_2 by done. cbn [negb andb].
    unfold forwardToOwner. cbn [lower fit may]. split; [done|]. by intros [err|] _.
Qed.

(** The next access of an actor that serves, whose ticker is made or not and which
    is about to renew or not; that of one that stops. *)
Definition serves_op (o : owned) (armed renewing : bool) {R : Set} (op : uop R) : Prop :=
  match op with
  | AtStore (RunAcquire _ _) | AtStore (RunDelete _ _) => False
  | AtStore (RunRenew id n) =>
    id = ActorID_String (ow_actorId o) /\ n = ow_owner o /\ armed = true /\ renewing = true
  | AtStore _ => True
  | AtActor (Owned.CtxTicker i) => armed = false /\ i = interval
  | AtActor (Owned.CtxStopTimer _) | AtActor (Owned.RenewOwner _ _) | AtActor (Owned.DeleteOwner _ _) => False
  | AtActor _ => True
  end.
Definition store_told {R : Set} (op : Directory.op R) : R -> Prop :=
  match op in Directory.op R return R -> Prop with
  | RunRenew _ _ => fun r => r = Ok 1 \/ exists e, r = Err e
  | _ => fun _ => True
  end.
Definition actor_told {R : Set} (op : Owned.oop R) : R -> Prop :=
  match op in Owned.oop R return R -> Prop with Owned.LeaseTTL => fun r => r = lease | _ => fun _ => True end.
Definition told {R : Set} (op : uop R) : R -> Prop :=
  match op in uop R return R -> Prop with AtStore op => store_told op | AtActor op => actor_told op end.
Definition arms {R : Set} (op : uop R) : bool :=
  match op with AtActor (Owned.CtxTicker _) => true | _ => false end.
Definition renews {R : Set} (op : uop R) : bool :=
  match op with AtStore (RunRenew _ _) => true | _ => false end.

Fixpoint serving (o : owned) (armed renewing : bool) {B} (p : prog uop B) : Prop :=
  match p with
  | Ret _ => armed = true /\ renewing = false
  | Do op k =>
    serves_op o armed renewing op /\
    forall r, told op r -> serving o (armed || arms op) (renewing && negb (renews op)) (k r)
  end.

Definition stops_op (o : owned) {R : Set} (op : uop R) : Prop :=
  match op with
  | AtStore (RunAcquire _ _) | AtStore (RunRenew _ _) => False
  | AtStore (RunDelete id n) => id = ActorID_String (ow_actorId o) /\ n = ow_owner o
  | _ => True
  end.
Fixpoint stopping (o : owned) {B} (p : prog uop B) : Prop :=
  match p with Ret _ => True | Do op k => stops_op o op /\ forall r, stopping o (k r) end.

Lemma init_serves o : serving o false false (wrapped Owned.Init).
Proof.
  cbn. split; [done|]. intros r ->. pose proof ttl_pos as Ht.
  assert (0 < lease) by (pose proof ttl_ms; unfold ms in *; lia). rewrite bool_decide_eq_false_2 by lia.
  cbn. split; [split; [done|]|done]. unfold Ownership.interval. case_bool_decide; lia.
Qed.

Lemma tick_serves o (id : Z) : Validate (ow_actorId o) = None -> NodeInfo_Validate (ow_owner o) = None ->
  serving o true true (wrapped (_ <~ Owned.on_tick o id; Ret id)).
Proof.
  intros Ha Hn. cbn. unfold Directory.RenewOwner. rewrite Ha, Hn. cbn. split; [done|].
  intros r [->|[e ->]]; [|by cbn]. rewrite bool_decide_eq_true_2 by done. by cbn.
Qed.

Lemma destroy_stops o (id : Z) : stopping o (wrapped (_ <~ Owned.Destroy o; Ret id)).
Proof.
  cbn. unfold Directory.DeleteOwner. destruct (Validate _); [by cbn|]. destruct (NodeInfo_Validate _); [by cbn|].
  cbn. split; [done|]. intros r. destruct (mbind deleted_result r) as [[[] e]|e']; by cbn.
Qed.

(** ** The invariant *)

Record alive (w : nodes) (c : nat) (name : string) (l : life) (o : owned) : Prop := {
  al_up : c ∈ up w;
  al_plain : plain (ActorID_String (ow_actorId o)) = true;
  al_name : name = Name (ow_actorId o);
  al_owner : ow_owner o = local (rt c);
  al_valid : Validate (ow_actorId o) = None /\ NodeInfo_Validate (local (rt c)) = None;
  al_prog :
    match l_phase l with
    | Spawned => is_ret (l_prog l) = true /\ l_timer l = None
    | Serving => serving o (bool_decide (is_Some (l_timer l))) (l_renewing l) (l_prog l)
    | Stopping => stopping o (l_prog l)
    end;
  al_lease : l_phase l <> Stopping -> timed l (clock w) /\ holding (a_dir (base w)) c (ActorID_String (ow_actorId o)) (l_last l) }.

Record claimed (w : nodes) (c : nat) (id : string) (t : Z) : Prop := {
  cl_plain : plain id = true;
  cl_free : active (base w) !! (c, "$logical:" +:+ id) = None;
  cl_time : t <= clock w /\ clock w * ms <= t * ms + sigma;
  cl_holds : holding (a_dir (base w)) c id t }.

Record owners_inv (w : nodes) : Prop := {
  oi_up : forall c1 c2, c1 ∈ up w -> c2 ∈ up w -> NodeId (local (rt c1)) = NodeId (local (rt c2)) -> c1 = c2;
  oi_routing : forall c p, routing (base w) !! c = Some p ->
    c ∈ up w /\ exists ab, fit c ab (fst <$> pending w !! c) p /\ (forall name, ab = Some name -> active (base w) !! (c, name) = None);
  oi_pending : forall c id t, pending w !! c = Some (id, t) -> c ∈ up w /\ claimed w c id t;
  oi_lives : forall c name l, lives w !! (c, name) = Some l ->
    exists o, active (base w) !! (c, name) = Some o /\ alive w c name l o;
  oi_active : forall k o, active (base w) !! k = Some o -> is_Some (lives w !! k) }.

Lemma claimed_leased w c id t : claimed w c id t -> clock w < t + ttl.
Proof.
  intros []. pose proof interval_ge. pose proof lease_is_long. unfold ms in *.
  assert (0 <= m * interval) by nia. lia.
Qed.

(** The ids whose ownership by a node others must leave alone. *)
Definition relies (w : nodes) (c : nat) (id : string) : Prop :=
  (exists t, pending w !! c = Some (id, t)) \/
  exists name l o, lives w !! (c, name) = Some l /\ l_phase l <> Stopping /\
    active (base w) !! (c, name) = Some o /\ id = ActorID_String (ow_actorId o).

Definition set_dir (d : World) (w : nodes) : nodes :=
  set_base (mkCluster d (active (base w)) (routing (base w))) w.
Definition release (c : nat) (w : nodes) : nodes :=
  mkNodes (mkCluster (a_dir (base w)) (active (base w)) (delete c (routing (base w)))) (up w) (lives w) (delete c (pending w)).

Lemma alive_same w w' c name l o :
  up w' = up w -> a_dir (base w') = a_dir (base w) -> alive w c name l o -> alive w' c name l o.
Proof. intros Hu Hd []. split; try done; unfold clock in *; by rewrite ?Hu, ?Hd. Qed.
Lemma claimed_same w w' c id t :
  active (base w') !! (c, "$logical:" +:+ id) = active (base w) !! (c, "$logical:" +:+ id) ->
  a_dir (base w') = a_dir (base w) -> claimed w c id t -> claimed w' c id t.
Proof. intros Ha Hd []. split; try done; unfold clock in *; by rewrite ?Ha, ?Hd. Qed.

(** An access to Redis that leaves alone what the nodes rely on. *)
Lemma inv_world w d :
  owners_inv w -> now d = clock w ->
  (forall c id t, relies w c id -> c ∈ up w -> plain id = true -> t <= clock w < t + ttl ->
     holding (a_dir (base w)) c id t -> holding d c id t) ->
  owners_inv (set_dir d w).
Proof.
  intros Hi Hn Hk. split; try apply Hi.
  - intros c id t Hp. destruct (oi_pending _ Hi c id t Hp) as [Hc Hcl]. split; [done|].
    pose proof (claimed_leased _ _ _ _ Hcl). destruct Hcl as [? ? [? ?] ?]. split; unfold clock in *; simpl; rewrite ?Hn; try done.
    apply (Hk c id t); try done. left. by exists t.
  - intros c name l Hl. destruct (oi_lives _ Hi c name l Hl) as (o & Ho & Ha). exists o. split; [done|].
    destruct Ha. split; try done. intros Hph. destruct (al_lease0 Hph) as [Ht Hh]. unfold clock in *. simpl. rewrite Hn.
    split; [done|]. pose proof (timed_leased _ _ Ht). apply Hk; try done; [right; by exists name, l, o|]. split; [apply Ht|done].
Qed.

(** A process that goes on. *)
Lemma inv_life w c name l0 l o :
  owners_inv w -> lives w !! (c, name) = Some l0 -> active (base w) !! (c, name) = Some o -> alive w c name l o ->
  owners_inv (with_lives (<[(c, name) := l]> (lives w)) w).
Proof.
  intros Hi Hl Ho Ha. split; try apply Hi.
  - intros c' id t Hp. destruct (oi_pending _ Hi c' id t Hp). split; [done|]. by eapply claimed_same; [..|done].
  - intros c' name' l'. simpl. rewrite lookup_insert_Some. intros [[[= <- <-] <-]|[_ Hl']].
    + exists o. split; [done|]. by eapply alive_same; [..|done].
    + destruct (oi_lives _ Hi _ _ _ Hl') as (o' & ? & ?). exists o'. split; [done|]. by eapply alive_same; [..|done].
  - intros k o' Hk. simpl. rewrite lookup_insert_is_Some'. right. by eapply (oi_active _ Hi).
Qed.

(** A router actor is set aside while it makes an access, and put back. *)
Lemma inv_release c w : owners_inv w -> owners_inv (release c w).
Proof.
  intros Hi. split; try apply Hi.
  - intros c' p. simpl. rewrite lookup_delete_Some. intros [Hne Hp]. destruct (oi_routing _ Hi _ _ Hp) as [? Hf].
    split; [done|]. by rewrite lookup_delete_ne.
  - intros c' id t. simpl. rewrite lookup_delete_Some. intros [Hne Hp]. destruct (oi_pending _ Hi _ _ _ Hp) as [? Hcl].
    split; [done|]. by eapply claimed_same; [..|done].
  - intros c' name l Hl. destruct (oi_lives _ Hi _ _ _ Hl) as (o & ? & ?). exists o. split; [done|]. by eapply alive_same; [..|done].
Qed.

Lemma inv_put w c ab q p :
  owners_inv w -> c ∈ up w -> fit c ab (fst <$> q) p ->
  (forall name, ab = Some name -> active (base w) !! (c, name) = None) ->
  (forall id t, q = Some (id, t) -> claimed w c id t) ->
  owners_inv (mkNodes (mkCluster (a_dir (base w)) (active (base w)) (<[c := p]> (routing (base w)))) (up w) (lives w)
                (set_pending c q (pending w))).
Proof.
  intros Hi Hc Hf Hab Hq.
  assert (Hlk : forall c', c' <> c -> set_pending c q (pending w) !! c' = pending w !! c').
  { intros c' Hne. destruct q; simpl; [by rewrite lookup_insert_ne|by rewrite lookup_delete_ne]. }
  assert (Hsame : set_pending c q (pending w) !! c = q).
  { destruct q; simpl; [apply lookup_insert_eq|apply lookup_delete_eq]. }
  split; try apply Hi.
  - intros c' p'. simpl. rewrite lookup_insert_Some. intros [[<- <-]|[Hne Hp]].
    + split; [done|]. exists ab. by rewrite Hsame.
    + destruct (oi_routing _ Hi _ _ Hp) as [? ?]. split; [done|]. by rewrite Hlk.
  - intros c' id t. simpl. destruct (decide (c' = c)) as [->|Hne].
    + rewrite Hsame. intros E. split; [done|]. eapply claimed_same; [..|by apply Hq]; done.
    + rewrite Hlk by done. intros Hp. destruct (oi_pending _ Hi _ _ _ Hp) as [? Hcl]. split; [done|].
      by eapply claimed_same; [..|done].
  - intros c' name l Hl. destruct (oi_lives _ Hi _ _ _ Hl) as (o & ? & ?). exists o. split; [done|]. by eapply alive_same; [..|done].
Qed.

Lemma inv_birth w c name h l :
  owners_inv w -> routing (base w) !! c = None -> pending w !! c = None -> alive w c name l h ->
  owners_inv (mkNodes (mkCluster (a_dir (base w)) (<[(c, name) := h]> (active (base w))) (routing (base w))) (up w)
                (<[(c, name) := l]> (lives w)) (pending w)).
Proof.
  intros Hi Hr Hp Ha. split; [apply Hi|..].
  - intros c' p Hl. destruct (oi_routing _ Hi _ _ Hl) as (? & ab & ? & Hab). split; [done|]. exists ab. split; [done|].
    intros n E. simpl. rewrite lookup_insert_ne by (simpl in Hl; congruence). by apply Hab.
  - intros c' id t Hl. destruct (oi_pending _ Hi _ _ _ Hl) as [? Hcl]. split; [done|].
    eapply claimed_same; [..|done]; [|done]. simpl. rewrite lookup_insert_ne; [done|]. simpl in Hl. congruence.
  - intros c' n l'. simpl. rewrite lookup_insert_Some. intros [[[= <- <-] <-]|[Hne Hl']].
    + exists h. rewrite lookup_insert_eq. split; [done|]. by eapply alive_same; [..|done].
    + destruct (oi_lives _ Hi _ _ _ Hl') as (o & ? & ?). exists o. rewrite lookup_insert_ne by done. split; [done|].
      by eapply alive_same; [..|done].
  - intros k o. simpl. rewrite lookup_insert_Some, lookup_insert_is_Some'. intros [[<- _]|[_ Ho]]; [by left|right].
    by eapply (oi_active _ Hi).
Qed.

(** A process that leaves the registry. *)
Lemma inv_death w c name :
  owners_inv w ->
  owners_inv (mkNodes (mkCluster (a_dir (base w)) (delete (c, name) (active (base w))) (routing (base w))) (up w)
                (delete (c, name) (lives w)) (pending w)).
Proof.
  intros Hi. assert (Hnone : forall k, active (base w) !! k = None -> delete (c, name) (active (base w)) !! k = None)
    by (intros; by apply lookup_delete_None; right).
  split; [apply Hi|..].
  - intros c' p Hl. destruct (oi_routing _ Hi _ _ Hl) as (? & ab & ? & Hab). split; [done|]. exists ab. split; [done|].
    intros n E. simpl. by apply Hnone, Hab.
  - intros c' id t Hl. destruct (oi_pending _ Hi _ _ _ Hl) as [? []]. split; [done|]. split; try done. by apply Hnone.
  - intros c' n l'. simpl. rewrite lookup_delete_Some. intros [Hne Hl']. destruct (oi_lives _ Hi _ _ _ Hl') as (o & ? & ?).
    exists o. rewrite lookup_delete_ne by done. split; [done|]. by eapply alive_same; [..|done].
  - intros k o. simpl. rewrite lookup_delete_Some. intros [Hne Ho]. rewrite lookup_delete_ne by done. by eapply (oi_active _ Hi).
Qed.

(** A node that crashes or boots. *)
Lemma inv_crash w c : owners_inv w -> owners_inv (step w (Crash c)).
Proof.
  intros Hi. split; simpl.
  - intros c1 c2 [H1 _]%elem_of_difference [H2 _]%elem_of_difference. by apply (oi_up _ Hi).
  - intros c' p. rewrite lookup_delete_Some. intros [Hne Hp]. destruct (oi_routing _ Hi _ _ Hp) as (? & ab & ? & Hab).
    split; [set_solver|]. exists ab. rewrite lookup_delete_ne by done. split; [done|]. intros n E.
    apply map_lookup_filter_None. left. by apply Hab.
  - intros c' id t. rewrite lookup_delete_Some. intros [Hne Hp]. destruct (oi_pending _ Hi _ _ _ Hp) as [? []].
    split; [set_solver|]. split; try done. simpl. apply map_lookup_filter_None. by left.
  - intros c' name l [Hl Hne]%map_lookup_filter_Some. destruct (oi_lives _ Hi _ _ _ Hl) as (o & Ho & []).
    exists o. split; [by apply map_lookup_filter_Some|]. split; try done. simpl. unfold on_node in Hne. simpl in Hne. set_solver.
  - intros k o [Ho Hne]%map_lookup_filter_Some. destruct (oi_active _ Hi _ _ Ho) as [l Hl]. exists l.
    by apply map_lookup_filter_Some.
Qed.

Lemma inv_boot w c : owners_inv w ->
  forallb (fun c' => negb (bool_decide (NodeId (local (rt c')) = NodeId (local (rt c))))) (elements (up w)) = true ->
  owners_inv (step w (Boot c)).
Proof.
  intros Hi Hb. rewrite forallb_forall in Hb.
  assert (Hne : forall c', c' ∈ up w -> NodeId (local (rt c')) <> NodeId (local (rt c))).
  { intros c' Hc' E. specialize (Hb c'). rewrite bool_decide_eq_true_2 in Hb by done.
    discriminate Hb. by apply list_elem_of_In, elem_of_elements. }
  split; simpl.
  - intros c1 c2. rewrite !elem_of_union, !elem_of_singleton. intros [->|H1] [->|H2] E; [done|..].
    + by destruct (Hne c2 H2). 
    + by destruct (Hne c1 H1).
    + by apply (oi_up _ Hi).
  - intros c' p Hp. destruct (oi_routing _ Hi _ _ Hp) as [? ?]. split; [set_solver|done].
  - intros c' id t Hp. destruct (oi_pending _ Hi _ _ _ Hp) as [? ?]. split; [set_solver|]. by eapply claimed_same; [..|done].
  - intros c' name l Hl. destruct (oi_lives _ Hi _ _ _ Hl) as (o & ? & []). exists o. split; [done|]. split; try done. simpl. set_solver.
  - apply (oi_active _ Hi).
Qed.

(** ** Everyone else, and time *)

Lemma leaves_spares c id {R : Set} (o : Directory.op R) : leaves_alone rt c o = true -> spares c id o.
Proof.
  destruct o; try done; simpl.
  - intros [Hn|Hn]%orb_true_iff _ E; [|by apply bool_decide_eq_true in Hn].
    by rewrite bool_decide_eq_true_2 in Hn.
  - by intros Hn%negb_true_iff _.
Qed.

Lemma inv_tick w t :
  owners_inv w -> clock w <= t -> in_time sigma t w = true ->
  owners_inv (set_dir (mkWorld t (redis (a_dir (base w))) (dirs (a_dir (base w))) (calls (a_dir (base w)))
                         (history (a_dir (base w)))) w).
Proof.
  intros Hi Ht [Hl Hp]%andb_true_iff. rewrite forallb_forall in Hl, Hp. split; try apply Hi.
  - intros c id s E. destruct (oi_pending _ Hi c id s E) as [Hc []]. split; [done|]. split; try done.
    unfold clock in *. simpl. split; [lia|]. specialize (Hp (c, (id, s))). simpl in Hp.
    apply bool_decide_eq_true in Hp; [done|]. by apply list_elem_of_In, elem_of_map_to_list.
  - intros c name l E. destruct (oi_lives _ Hi c name l E) as (o & Ho & []). exists o. split; [done|]. split; try done.
    intros Hph. destruct (al_lease0 Hph) as [Htm Hh]. split; [|done]. unfold clock in *. simpl.
    apply (timed_later _ _ _ Htm Ht). specialize (Hl ((c, name), l)). simpl in Hl. rewrite bool_decide_eq_false_2 in Hl by done.
    apply bool_decide_eq_true in Hl; [done|]. by apply list_elem_of_In, elem_of_map_to_list.
Qed.

Lemma inv_other w a : owners_inv w -> allowed rt sigma m w (Base (Other a)) = true -> owners_inv (step w (Base (Other a))).
Proof.
  intros Hi Ha. assert (Hsame : forall d, now d = clock w -> redis d = redis (a_dir (base w)) -> owners_inv (set_dir d w)).
  { intros d Hn Hr. apply inv_world; [done|done|]. intros c id t _ _ _ _. unfold holding. by rewrite Hr. }
  destruct a as [d|c q|t f|c|c|c key|c]; try (by apply Hsame).
  - apply (inv_tick w (clock w + Z.max 0 d) Hi); [lia|done].
  - cbn [Ownership.step]. change (owners_inv (set_dir (Directory.step prefix ttl (a_dir (base w)) (Run t f)) w)).
    cbn [Directory.step]. simpl in Ha. destruct (calls (a_dir (base w)) !! t) as [[c q [r|R o k]]|]; [by apply Hsame| |by apply Hsame].
    pose proof (do_fated_now (a_dir (base w)) c f o) as Hn.
    pose proof (fun c' id s => do_fated_holding (a_dir (base w)) c f o c' id s) as Hh.
    destruct (do_fated prefix ttl (a_dir (base w)) c f o) as [d r]. simpl in *.
    apply inv_world; [done|done|]. intros c' id s _ Hc Hp Hs H0. apply (Hh c' id s); try done.
    apply leaves_spares. rewrite forallb_forall in Ha. apply Ha. by apply list_elem_of_In, elem_of_elements.
Qed.

(** ** The router actors *)

Lemma set_pending_delete c q g : set_pending c q (delete c g) = set_pending c q g.
Proof. destruct q; simpl; [apply insert_delete_eq|apply delete_delete_eq]. Qed.

Lemma inv_back w c ab q p (rs : gmap nat (prog raccess (option gerr))) g :
  owners_inv w -> routing (base w) = delete c rs -> pending w = delete c g -> c ∈ up w -> fit c ab (fst <$> q) p ->
  (forall name, ab = Some name -> active (base w) !! (c, name) = None) ->
  (forall id t, q = Some (id, t) -> claimed w c id t) ->
  owners_inv (mkNodes (mkCluster (a_dir (base w)) (active (base w)) (<[c := p]> rs)) (up w) (lives w) (set_pending c q g)).
Proof.
  intros Hi Hr Hg Hc Hf Hab Hq. pose proof (inv_put w c ab q p Hi Hc Hf Hab Hq) as Hp. rewrite Hr, Hg in Hp.
  by rewrite insert_delete_eq, set_pending_delete in Hp.
Qed.

Lemma inv_receive w c request : owners_inv w -> allowed rt sigma m w (Base (Receive c request)) = true ->
  owners_inv (step w (Base (Receive c request))).
Proof.
  intros Hi Hp. cbn [Ownership.step]. destruct (bool_decide (c ∈ up w)) eqn:Hc; [|done]. apply bool_decide_eq_true in Hc.
  cbn [andb Activation.step]. destruct (idle (base w) c); [|done].
  by apply (inv_put w c None None); [done|done|by apply route_fits|..].
Qed.

(** What the program of a router actor may rely on after an access. *)
Lemma fit_next c ab q t {R : Set} (o : raccess R) (k : R -> prog raccess (option gerr)) r :
  fit c ab (fst <$> q) (Do o k) -> heard o r ->
  fit c (free_after ab o r) (fst <$> (if is_ret (k r) then None else claim_after t o q r)) (k r).
Proof.
  intros [_ Hk] Hr. specialize (Hk r Hr). rewrite <- (grant_after_claim t) in Hk. by destruct (k r).
Qed.

Lemma store_heard_ok d c f {R : Set} (o : Directory.op R) : store_heard o (do_fated prefix ttl d c f o).2.
Proof.
  destruct o; try done. simpl. unfold do_fated. destruct f; simpl; [|by left; eexists..].
  pose proof (acquire_answers (now d) (redis d) (owner_key prefix id) (epoch_key prefix id) candidate) as Ha.
  by destruct (acquireOwnerScript _ _ _ _ _ _).
Qed.

(** The accesses of the router actor on [c] leave alone what others rely on. *)
Lemma router_spares w c ab claim {R : Set} (o : Directory.op R) c' id :
  owners_inv w -> c ∈ up w -> may c ab claim (AtDirectory o) ->
  (forall name, ab = Some name -> active (base w) !! (c, name) = None) ->
  relies (release c w) c' id -> c' ∈ up w -> spares c' id o.
Proof.
  intros Hi Hc Hm Hab Hrel Hc'. destruct o; try done; simpl in *.
  - destruct Hm as (-> & _). intros _ E. by rewrite (oi_up _ Hi c c' Hc Hc' E).
  - destruct Hm as (Hn & ->). intros ->. unfold same_node. destruct (decide (c' = c)) as [->|Hne].
    + destruct Hrel as [[t Ht]|(name & l & o & Hl & _ & Ho & ->)].
      * simpl in Ht. by rewrite lookup_delete_eq in Ht.
      * destruct (oi_lives _ Hi _ _ _ Hl) as (o' & Ho' & []). simpl in Ho. rewrite Ho in Ho'. injection Ho' as <-.
        rewrite al_name0 in Ho. specialize (Hab _ eq_refl). unfold Name in Ho. congruence.
    + rewrite bool_decide_eq_false_2; [done|]. rewrite Hn. intros E. apply Hne. by apply (oi_up _ Hi).
Qed.

Lemma inv_proceed_store w c f e {R : Set} (o : Directory.op R) (k : R -> prog raccess (option gerr)) :
  owners_inv w -> c ∈ up w -> routing (base w) !! c = Some (Do (AtDirectory o) k) -> owners_inv (proceed prefix lease w c f e).
Proof.
  intros Hi Hc Hr. unfold proceed. rewrite Hr. cbn [access registers].
  destruct (oi_routing _ Hi _ _ Hr) as (_ & ab & Hf & Hab). pose proof (proj1 Hf) as Hm.
  pose proof (fit_next c ab (pending w !! c) (clock w) (AtDirectory o) k _ Hf (store_heard_ok (a_dir (base w)) c f o)) as Hnext.
  pose proof (do_fated_now (a_dir (base w)) c f o) as Hn.
  pose proof (fun c' id s => do_fated_holding (a_dir (base w)) c f o c' id s) as Hh.
  assert (Hgrant : forall id t, claim_after (clock w) (AtDirectory o : raccess R) (pending w !! c) (do_fated prefix ttl (a_dir (base w)) c f o).2 = Some (id, t) ->
    claimed (set_dir (do_fated prefix ttl (a_dir (base w)) c f o).1 (release c w)) c id t).
  { intros id t E. assert (Hold : pending w !! c = Some (id, t) -> spares c id o ->
      claimed (set_dir (do_fated prefix ttl (a_dir (base w)) c f o).1 (release c w)) c id t).
    { intros E2 Hs. destruct (oi_pending _ Hi _ _ _ E2) as [_ Hcl]. pose proof (claimed_leased _ _ _ _ Hcl).
      destruct Hcl as [? ? [? ?] ?]. unfold clock in *. split; unfold clock; simpl; rewrite ?Hn; try done. by apply Hh. }
    destruct o; try (by apply Hold); simpl in E. destruct Hm as (-> & -> & Hp).
    destruct (is_grant_reply _) eqn:Eg; [|apply Hold; [done|by simpl]]. injection E as <- <-.
    split; unfold clock in *; simpl; rewrite ?Hn; [done|by apply Hab|split; lia|].
    by eapply (acquire_holding (a_dir (base w)) c). }
  assert (Hi1 : owners_inv (set_dir (do_fated prefix ttl (a_dir (base w)) c f o).1 (release c w))).
  { apply inv_world; [by apply inv_release|done|]. intros c' id s Hrel Hc' Hp Hs H0. apply (Hh c' id s); try done.
    by apply (router_spares w c ab (fst <$> pending w !! c)). }
  destruct (do_fated prefix ttl (a_dir (base w)) c f o) as [d r]. simpl in *.
  apply (inv_back (set_dir d (release c w)) c ab _ (k r) (routing (base w)) (pending w)); try done.
  destruct (is_ret (k r)); [done|]. intros id t E. by apply Hgrant.
Qed.

(** A claim of the router actor on [c] outlives an access that changes nothing. *)
Lemma claim_kept w c (b : bool) id t :
  owners_inv w -> (if b then None else pending w !! c) = Some (id, t) -> claimed (release c w) c id t.
Proof.
  intros Hi E. destruct b; [done|]. destruct (oi_pending _ Hi _ _ _ E) as [_ Hcl]. by eapply claimed_same; [..|done].
Qed.

Lemma inv_spawn w c f e h options k :
  owners_inv w -> c ∈ up w -> routing (base w) !! c = Some (Do (AtRouter (SpawnActor h options)) k) ->
  owners_inv (proceed prefix lease w c f e).
Proof.
  intros Hi Hc Hr. unfold proceed. rewrite Hr. cbn [access router_op].
  destruct (oi_routing _ Hi _ _ Hr) as (_ & ab & Hf & Hab).
  pose proof (proj1 Hf) as (Hcl & Hp & Hown & Hname & Habs & Hv & Hvn).
  pose proof (fun r => fit_next c ab (pending w !! c) (clock w) (AtRouter (SpawnActor h options)) k r Hf I) as Hnext.
  pose proof (inv_release c w Hi) as Hrel. specialize (Hab _ Habs).
  assert (Hfail : forall err, owners_inv (mkNodes (mkCluster (a_dir (base w)) (active (base w)) (<[c := k (Err err)]> (routing (base w))))
     (up w) (lives w) (set_pending c (if is_ret (k (Err err)) then None else None) (pending w)))).
  { intros err. apply (inv_back (release c w) c ab); try done.
    - exact (Hnext (Err err)).
    - intros name E. rewrite Habs in E. by injection E as <-.
    - intros id t. by destruct (is_ret _). }
  destruct (or_err e) as [err|]; [by apply Hfail|]. rewrite Hab. cbn [registers spawns claim_after].
  destruct (pending w !! c) as [[id t]|] eqn:Ep; [|done]. destruct (oi_pending _ Hi _ _ _ Ep) as [_ Hclaim].
  simpl in Hcl. injection Hcl as ->. assert (Hbirth : alive (release c w) c (o_Name options) (born w c) h).
  { destruct Hclaim as [? ? [? ?] ?]. split; try done. intros _. unfold born. rewrite Ep. split; [|done].
    by apply timed_born. }
  refine (inv_back (mkNodes (mkCluster (a_dir (base w)) (<[(c, o_Name options) := h]> (active (base w)))
    (delete c (routing (base w)))) (up w) (<[(c, o_Name options) := born w c]> (lives w)) (delete c (pending w))) c None
    (if is_ret (k (Ok (or_pid e))) then None else None) (k (Ok (or_pid e))) (routing (base w)) (pending w) _ eq_refl eq_refl Hc _ _ _); try done.
  - apply (inv_birth (release c w)); try done; apply lookup_delete_eq.
  - apply (Hnext (Ok (or_pid e))).
  - intros ? ?. by destruct (is_ret _).
Qed.

Lemma inv_proceed_router w c f e {R : Set} (o : Router.rop M P St F A R) (k : R -> prog raccess (option gerr)) :
  owners_inv w -> c ∈ up w -> routing (base w) !! c = Some (Do (AtRouter o) k) -> owners_inv (proceed prefix lease w c f e).
Proof.
  intros Hi Hc Hr. destruct (oi_routing _ Hi _ _ Hr) as (_ & ab & Hf & Hab).
  pose proof (fun r => fit_next c ab (pending w !! c) (clock w) (AtRouter o) k r Hf I) as Hnext.
  assert (Hsame : forall r, router_op c e o (active (base w)) = (active (base w), r) ->
    spawns o r = None -> claim_after (clock w) (AtRouter o : raccess R) (pending w !! c) r = pending w !! c ->
    (forall name, free_after_op ab o r = Some name -> active (base w) !! (c, name) = None) ->
    owners_inv (proceed prefix lease w c f e)).
  { intros r E Hs Hcl Hfree. unfold proceed. rewrite Hr. cbn [access registers]. rewrite E, Hs. specialize (Hnext r).
    rewrite Hcl in *. apply (inv_back (release c w) c (free_after_op ab o r)); try done; [by apply inv_release|].
    intros id t. by apply claim_kept. }
  destruct o; try (by eapply Hsame); [|by apply (inv_spawn w c f e handler options k)].
  eapply Hsame; [done..|]. simpl. case_bool_decide as Hh; [done|]. intros name [= <-].
  by destruct (active (base w) !! (c, ActorName target)) eqn:E; [destruct Hh|].
Qed.

Lemma inv_proceed w c f e : owners_inv w -> owners_inv (step w (Base (Proceed c f e))).
Proof.
  intros Hi. cbn [Ownership.step]. case_bool_decide as Hc; [|done].
  destruct (routing (base w) !! c) as [[b|R [S o|S o] k]|] eqn:Hr.
  - unfold proceed. by rewrite Hr.
  - by eapply inv_proceed_store.
  - by eapply inv_proceed_router.
  - unfold proceed. by rewrite Hr.
Qed.

(** ** The activated actors *)

Lemma process_Some (w : nodes) c name l o : process w c name = Some (l, o) ->
  lives w !! (c, name) = Some l /\ active (base w) !! (c, name) = Some o.
Proof.
  unfold process. destruct (lives w !! (c, name)) as [l'|]; [|done]. simpl.
  destruct (active (base w) !! (c, name)) as [o'|]; [|done]. by intros [= <- <-].
Qed.

Lemma process_alive w c name l o : owners_inv w -> process w c name = Some (l, o) -> alive w c name l o.
Proof.
  intros Hi [Hl Ho]%process_Some. destruct (oi_lives _ Hi _ _ _ Hl) as (o' & Ho' & Ha). congruence.
Qed.

(** The same process with another program, phase or times. *)
Lemma alive_next w c name l l' o : alive w c name l o ->
  match l_phase l' with
  | Spawned => is_ret (l_prog l') = true /\ l_timer l' = None
  | Serving => serving o (bool_decide (is_Some (l_timer l'))) (l_renewing l') (l_prog l')
  | Stopping => stopping o (l_prog l')
  end ->
  (l_phase l' <> Stopping -> timed l' (clock w) /\ holding (a_dir (base w)) c (ActorID_String (ow_actorId o)) (l_last l')) ->
  alive w c name l' o.
Proof. intros [] ? ?. by split. Qed.

Lemma inv_process w c name l l' o :
  owners_inv w -> process w c name = Some (l, o) -> alive w c name l' o ->
  owners_inv (with_lives (<[(c, name) := l']> (lives w)) w).
Proof. intros Hi [Hl Ho]%process_Some Ha. by eapply inv_life. Qed.

Lemma inv_begin w c name : owners_inv w -> owners_inv (step w (Begin c name)).
Proof.
  intros Hi. cbn [Ownership.step]. destruct (process w c name) as [[l o]|] eqn:E; [|done].
  case_bool_decide as Hph; [|done]. pose proof (process_alive _ _ _ _ _ Hi E) as Ha.
  eapply inv_process; [done..|]. apply (alive_next _ _ _ l); [done|..].
  - simpl. destruct Ha. rewrite Hph in al_prog0. destruct al_prog0 as [_ Et]. destruct al_lease0 as [Ht _]; [by rewrite Hph|].
    unfold timed in Ht. rewrite Et in *. destruct Ht as (_ & _ & _ & -> & _). apply init_serves.
  - intros _. apply (al_lease _ _ _ _ _ Ha). by rewrite Hph.
Qed.

Lemma inv_fire w c name : owners_inv w -> owners_inv (step w (Fire c name)).
Proof.
  intros Hi. cbn [Ownership.step]. destruct (process w c name) as [[l o]|] eqn:E; [|done].
  pose proof (process_alive _ _ _ _ _ Hi E) as Ha.
  destruct l as [[] [id|R op k] [tm|] last missed since renewing]; try done.
  case_bool_decide as Hdue; [|done]. eapply inv_process; [done..|]. apply (alive_next _ _ _ _ _ _ Ha).
  - destruct Ha. simpl in *. destruct al_valid0. by apply tick_serves; rewrite ?al_owner0.
  - intros _. destruct Ha. simpl in *. destruct al_lease0 as [Ht Hh]; [done|]. split; [|done].
    destruct al_prog0 as [_ ->]. by apply timed_set_prog, (timed_tick _ tm _ Ht).
Qed.

Lemma inv_stop w c name : owners_inv w -> owners_inv (step w (Stop c name)).
Proof.
  intros Hi. cbn [Ownership.step]. destruct (process w c name) as [[l o]|] eqn:E; [|done].
  pose proof (process_alive _ _ _ _ _ Hi E) as Ha.
  destruct l as [[] [id|R op k] tm last missed since renewing]; try done.
  eapply inv_process; [done..|]. apply (alive_next _ _ _ _ _ _ Ha); [apply destroy_stops|done].
Qed.

Lemma inv_settle w d c name l l' o :
  owners_inv (set_dir d w) -> process w c name = Some (l, o) -> alive (set_dir d w) c name l' o ->
  owners_inv (settle d c name l' w).
Proof.
  intros Hi E Ha. unfold settle. destruct (ended l').
  - exact (inv_death (set_dir d w) c name Hi).
  - apply process_Some in E as [Hl Ho]. exact (inv_life (set_dir d w) c name l l' o Hi Hl Ho Ha).
Qed.

(** An actor's call of its context. *)
Lemma actor_op_alive w c name l o {R : Set} (op : Owned.oop R) (k : R -> prog uop Z) :
  alive w c name l o -> l_prog l = Do (AtActor op) k ->
  let '(l', r) := actor_op lease (clock w) op l in alive w c name (set_prog (k r) l') o.
Proof.
  intros Ha Ep. pose proof (al_prog _ _ _ _ _ Ha) as Hp. pose proof (al_lease _ _ _ _ _ Ha) as Hl. rewrite Ep in Hp.
  destruct (l_phase l) eqn:Eph; [by destruct Hp|..].
  - destruct Hp as [Hop Hk]. destruct Hl as [Ht Hh]; [done|].
    assert (Hsame : forall r, actor_op lease (clock w) op l = (l, r) -> actor_told op r -> arms (AtActor op) = false ->
      let '(l', r) := actor_op lease (clock w) op l in alive w c name (set_prog (k r) l') o).
    { intros r -> Htold Harm. apply (alive_next _ _ _ l); [done|simpl; rewrite Eph|done].
      specialize (Hk r Htold). by rewrite Harm, orb_false_r, andb_true_r in Hk. }
    destruct op; try (by destruct Hop); try (by eapply Hsame).
    destruct Hop as [Hun ->]. assert (Et : l_timer l = None) by (destruct (l_timer l); [by rewrite bool_decide_eq_true_2 in Hun|done]).
    simpl. apply (alive_next _ _ _ l); [done|simpl; rewrite Eph|].
    + specialize (Hk 1 I). by rewrite orb_true_r, andb_true_r in Hk.
    + intros _. split; [|done]. by apply timed_set_prog, timed_arm.
  - destruct Hp as [_ Hk]. destruct (actor_op lease (clock w) op l) as [l' r] eqn:El.
    assert (l_phase l' = Stopping) as Eph'.
    { destruct op; simpl in El; injection El as <- <-; try done. }
    apply (alive_next _ _ _ l); [done|simpl; by rewrite Eph'|simpl; by rewrite Eph'].
Qed.

(** The accesses of an actor leave alone what others rely on. *)
Lemma actor_spares w c name l o {R : Set} (op : Directory.op R) (k : R -> prog uop Z) c' id :
  owners_inv w -> process w c name = Some (l, o) -> l_prog l = Do (AtStore op) k ->
  relies w c' id -> c' ∈ up w -> spares c' id op.
Proof.
  intros Hi E Ep Hrel Hc'. pose proof (process_alive _ _ _ _ _ Hi E) as Ha. apply process_Some in E as [El Eo].
  pose proof (al_prog _ _ _ _ _ Ha) as Hp. rewrite Ep in Hp. destruct (l_phase l) eqn:Eph; [by destruct Hp|..].
  - destruct Hp as [Hop _]. by destruct op.
  - destruct Hp as [Hop _]. destruct op; try done. simpl in *. destruct Hop as [-> ->]. intros Eid. unfold same_node.
    rewrite (al_owner _ _ _ _ _ Ha). destruct (decide (c' = c)) as [->|Hne].
    + pose proof (al_name _ _ _ _ _ Ha) as Hn. destruct Hrel as [[t Ht]|(name' & l' & o' & Hl' & Hph & Ho' & ->)].
      * destruct (oi_pending _ Hi _ _ _ Ht) as [_ [_ Hfree _ _]]. rewrite <- Eid in Hfree. rewrite Hn in Eo. unfold Name in Eo. congruence.
      * destruct (oi_lives _ Hi _ _ _ Hl') as (o2 & Ho2 & Ha2). pose proof (al_name _ _ _ _ _ Ha2) as Hn2.
        assert (o2 = o') as -> by congruence. unfold Name in Hn, Hn2. rewrite <- Eid, <- Hn in Hn2. congruence.
    + rewrite bool_decide_eq_false_2; [done|]. intros Eq. apply Hne. apply (oi_up _ Hi); [done|apply (al_up _ _ _ _ _ Ha)|done].
Qed.

(** The process after an access to Redis, whose answer suits its program. *)
Lemma store_op_alive w c name f l o {R : Set} (op : Directory.op R) (k : R -> prog uop Z) :
  owners_inv w -> process w c name = Some (l, o) -> l_prog l = Do (AtStore op) k ->
  allowed rt sigma m w (Act c name f) = true ->
  let '(d, r) := do_fated prefix ttl (a_dir (base w)) c f op in
  owners_inv (set_dir d w) -> alive (set_dir d w) c name (set_prog (k r) (renewal_done (clock w) f op l)) o.
Proof.
  intros Hi E Ep Hall. pose proof (process_alive _ _ _ _ _ Hi E) as Ha.
  pose proof (process_Some _ _ _ _ _ E) as [El Eo].
  pose proof (do_fated_now (a_dir (base w)) c f op) as Hn.
  assert (Htold : l_phase l = Serving -> store_told op (do_fated prefix ttl (a_dir (base w)) c f op).2).
  { intros Eph. pose proof (al_prog _ _ _ _ _ Ha) as Hp. rewrite Ep, Eph in Hp. destruct Hp as [Hop _].
    destruct op; try done. simpl in Hop. destruct Hop as (-> & -> & _).
    destruct (al_lease _ _ _ _ _ Ha) as [Ht Hh]; [by rewrite Eph|].
    exact (renew_answers _ _ _ _ _ _ _ (al_owner _ _ _ _ _ Ha) Hh (timed_leased _ _ Ht)). }
  assert (Hre : l_phase l = Serving -> match op with RunRenew _ _ => True | _ => False end -> f <> NotSent ->
    holding (do_fated prefix ttl (a_dir (base w)) c f op).1 c (ActorID_String (ow_actorId o)) (clock w)).
  { intros Eph Hop Hf. pose proof (al_prog _ _ _ _ _ Ha) as Hp. rewrite Ep, Eph in Hp. destruct op; try done.
    destruct Hp as [(-> & -> & _) _]. destruct (al_lease _ _ _ _ _ Ha) as [Ht Hh]; [by rewrite Eph|].
    exact (renew_holding _ _ _ _ _ _ _ (al_owner _ _ _ _ _ Ha) Hh (timed_leased _ _ Ht) Hf). }
  destruct (do_fated prefix ttl (a_dir (base w)) c f op) as [d r]. intros Hi'. simpl in *.
  assert (Ha' : alive (set_dir d w) c name l o).
  { apply (process_alive (set_dir d w)); [done|]. unfold process. simpl. by rewrite El, Eo. }
  pose proof (al_prog _ _ _ _ _ Ha) as Hp. rewrite Ep in Hp. apply (alive_next _ _ _ l); [done|..].
  - destruct (l_phase l) eqn:Eph; [by destruct Hp|..].
    + destruct Hp as [Hop Hk]. specialize (Hk r (Htold eq_refl)).
      destruct op; simpl in *; rewrite ?Eph, ?orb_false_r, ?andb_true_r, ?andb_false_r in *; done.
    + destruct Hp as [_ Hk]. specialize (Hk r). by destruct op; simpl; rewrite Eph.
  - intros Hph. assert (Hphl : l_phase l <> Stopping) by by destruct op.
    destruct (al_lease _ _ _ _ _ Ha' Hphl) as [Ht Hh]. destruct op; try done.
    destruct (l_phase l) eqn:Eph; [by destruct Hp| |done]. destruct Hp as [Hop _]. simpl in Hop.
    destruct Hop as (Eid & En & _ & Hr). unfold clock in *. simpl in *. rewrite Hn in *. split.
    + apply timed_set_prog, timed_renewed; [done|done|]. destruct f; try done. intros _.
      rewrite El, Ep in Hall. by apply bool_decide_eq_true in Hall.
    + specialize (Hre eq_refl I). destruct f; [by apply Hre|done|by apply Hre].
Qed.

Lemma inv_act w c name f : owners_inv w -> allowed rt sigma m w (Act c name f) = true -> owners_inv (step w (Act c name f)).
Proof.
  intros Hi Hall. cbn [Ownership.step]. destruct (process w c name) as [[l o]|] eqn:E; [|done].
  destruct (l_prog l) as [|R op k] eqn:Ep; [done|]. destruct op as [R op|R op]; cbn [actor_access].
  - pose proof (store_op_alive w c name f l o op k Hi E Ep Hall) as Hs.
    pose proof (fun c' id s => do_fated_holding (a_dir (base w)) c f op c' id s) as Hh.
    pose proof (do_fated_now (a_dir (base w)) c f op) as Hn.
    destruct (do_fated prefix ttl (a_dir (base w)) c f op) as [d r]. simpl in *.
    assert (Hi' : owners_inv (set_dir d w)).
    { apply inv_world; [done|done|]. intros c' id s Hrel Hc' Hp Hs' H0. apply (Hh c' id s); try done.
      by apply (actor_spares w c name l o op k). }
    apply (inv_settle w d c name l _ o); [done|done|by apply Hs].
  - pose proof (actor_op_alive w c name l o op k (process_alive _ _ _ _ _ Hi E) Ep) as Hs.
    unfold clock in Hs. destruct (actor_op lease (now (a_dir (base w))) op l) as [l' r].
    assert (Hi' : owners_inv (set_dir (a_dir (base w)) w)) by (apply inv_world; [done|done|auto]).
    apply (inv_settle w (a_dir (base w)) c name l _ o); [done|done|]. by apply (alive_same w).
Qed.

Lemma inv_step w a : owners_inv w -> allowed rt sigma m w a = true -> owners_inv (step w a).
Proof.
  intros Hi Ha. destruct a as [c|c|[a|c request|c f e|c name]|c name|c name|c name|c name f].
  - by apply inv_boot.
  - by apply inv_crash.
  - by apply inv_other.
  - by apply inv_receive.
  - by apply inv_proceed.
  - done.
  - by apply inv_begin.
  - by apply inv_fire.
  - by apply inv_stop.
  - by apply inv_act.
Qed.

Lemma inv_run w acts : owners_inv w -> disciplined pid_text prefix lease rt sigma m w acts = true ->
  owners_inv (Ownership.run pid_text prefix lease rt w acts).
Proof.
  revert w. induction acts as [|a acts IH]; intros w Hi Hd; [done|]. simpl in *.
  apply andb_true_iff in Hd as [Ha Hd]. apply IH; [by apply inv_step|done].
Qed.

Lemma inv_nodes_begin n : owners_inv (begin n).
Proof. by split. Qed.

(** A serving actor has the lease in Redis. *)
Lemma serving_is_owner w c name : owners_inv w -> serves w c name = true ->
  exists a, name = Name a /\ c ∈ up w /\
    redis_get (clock w) (redis (a_dir (base w))) (owner_key prefix (ActorID_String a)) = Some (SOwner (local (rt c))).
Proof.
  intros Hi. unfold serves. destruct (lives w !! (c, name)) as [l|] eqn:El; [|done].
  intros Hph%negb_true_iff%bool_decide_eq_false. destruct (oi_lives _ Hi _ _ _ El) as (o & _ & Ha).
  exists (ow_actorId o). destruct Ha. split; [done|]. split; [done|]. destruct (al_lease0 Hph) as [Ht Hh].
  apply (holding_get _ _ _ (l_last l)); [done|]. by apply timed_leased.
Qed.

(** C13: At most one node serves a logical actor, and Redis names it: through
    routing, spawning, Init, renewals at the ticks, Destroy, crashes, reboots, lost
    commands and whatever else the directories do, as long as the lease outlives m +
    1 renewal intervals and four latencies, no more than m renewals in a row are
    lost, and nobody deletes or replaces the ownership of a node that is up. *)
Theorem one_serving_activation n (acts : list (nact (P := P) (A := A))) a c1 :
  disciplined pid_text prefix lease rt sigma m (begin n) acts = true ->
  let w := Ownership.run pid_text prefix lease rt (begin n) acts in
  serves w c1 (Name a) = true ->
  redis_get (clock w) (redis (a_dir (base w))) (owner_key prefix (ActorID_String a)) = Some (SOwner (local (rt c1))) /\
  forall c2, serves w c2 (Name a) = true -> c2 = c1.
Proof.
  intros Hd w H1. pose proof (inv_run _ acts (inv_nodes_begin n) Hd) as Hi. fold w in Hi.
  destruct (serving_is_owner w c1 _ Hi H1) as (a1 & E1%app_string_inj & U1 & G1). rewrite <- E1 in G1.
  split; [done|]. intros c2 H2. destruct (serving_is_owner w c2 _ Hi H2) as (a2 & E2%app_string_inj & U2 & G2).
  rewrite <- E2, G1 in G2. apply (oi_up _ Hi); [done..|]. congruence.
Qed.

(** Redis never refuses a serving actor's renewal: the code that gives up the
    ticker because the lease is lost does not run. *)
Theorem leases_are_not_lost n (acts : list (nact (P := P) (A := A))) c name l o id owner k f :
  disciplined pid_text prefix lease rt sigma m (begin n) acts = true ->
  let w := Ownership.run pid_text prefix lease rt (begin n) acts in
  process w c name = Some (l, o) -> l_phase l = Serving -> l_prog l = Do (AtStore (RunRenew id owner)) k ->
  let r := (do_fated prefix ttl (a_dir (base w)) c f (RunRenew id owner)).2 in
  r = Ok 1 \/ exists e, r = Err e.
Proof.
  intros Hd w E Eph Ep. pose proof (inv_run _ acts (inv_nodes_begin n) Hd) as Hi. fold w in Hi.
  pose proof (process_alive _ _ _ _ _ Hi E) as []. rewrite Ep, Eph in al_prog0.
  destruct al_prog0 as [(-> & -> & _) _]. destruct al_lease0 as [Ht Hh]; [by rewrite Eph|].
  exact (renew_answers _ _ _ _ _ _ _ al_owner0 Hh (timed_leased _ _ Ht)).
Qed.
End safety.
