(* ===== verification/OwnershipDemo.v ===== *)
(** * Ownership over time at concrete inputs

    The routers of nodes "a" and "b" over one Redis, with the default lease of
    30 s, renewed every 10 s; latencies up to 2 s, and one renewal in a row may be
    lost. *)

From S2P Require Import Prelude Errors Actor Component Effects Placement Directory Router Activation Ownership OwnershipSafety RouterDemo ActivationDemo.

Abbreviation action := (nact (P := nat) (A := nat)).
Definition lease30 : Z := Directory.defaultLeaseTTL.
Definition latency : Z := 2000000000.

Definition grown (acts : list action) : nodes (M := nat) (P := nat) (St := nat) (F := nat) (A := nat) :=
  Ownership.run no_text "" lease30 routers (begin 2) acts.
Definition kept_to (acts : list action) : bool :=
  disciplined (M := nat) (St := nat) no_text "" lease30 routers latency 1 (begin 2) acts.
Definition servers (acts : list action) : bool * bool :=
  (serves (grown acts) 0 (Name player), serves (grown acts) 1 (Name player)).

(** The router actor of a node handles a request; an activated actor handles a
    message. *)
Definition asked (c : nat) : list action :=
  Base (Receive c (Some request0)) :: replicate 8 (Base (Proceed c Delivered willing)).
Definition acts_on (c : nat) (f : fate) : list action := replicate 4 (Act c (Name player) f).
Definition starts (c : nat) : list action := asked c ++ Begin c (Name player) :: acts_on c Delivered.
Definition passes (d : Z) : action := Base (Other (Directory.Tick d)).

(** Node a starts the actor; its first renewal is lost, the next ones are not;
    node b is asked in vain; then the actor stops and node b starts it. *)
Definition a_life : list action :=
  [Boot 0; Boot 1] ++ starts 0 ++
  [passes 10000; Fire 0 (Name player)] ++ acts_on 0 NotSent ++
  [passes 11000; Fire 0 (Name player)] ++ acts_on 0 Delivered ++
  [passes 9500; Fire 0 (Name player)] ++ acts_on 0 Delivered ++ asked 1.
Definition moved : list action := a_life ++ [Stop 0 (Name player)] ++ acts_on 0 Delivered ++ starts 1.

Example a_serves_past_its_first_lease :
  servers a_life = (true, false) /\ clock (grown a_life) = 30500 /\ servers moved = (false, true).
Proof. vm_compute. repeat split; reflexivity. Qed.

Lemma one_serving_activation_witness :
  redis_get (clock (grown a_life)) (redis (a_dir (base (grown a_life)))) (owner_key "" (ActorID_String player)) = Some (SOwner node_a) /\
  forall c2, serves (grown a_life) c2 (Name player) = true -> c2 = 0%nat.
Proof.
  apply (one_serving_activation (M := nat) (St := nat) no_text "" lease30 routers latency 1
           ltac:(vm_compute; discriminate) ltac:(vm_compute; discriminate) ltac:(vm_compute; reflexivity)
           2 a_life player 0%nat); vm_compute; reflexivity.
Defined.

(** A crashed node's actor is started elsewhere when its lease has lapsed. *)
Definition crashed : list action := [Boot 0; Boot 1] ++ starts 0 ++ [Crash 0; passes 30000] ++ starts 1.
Example crashed_actor_moves : servers crashed = (false, true) /\ kept_to crashed = true.
Proof. vm_compute. repeat split; reflexivity. Qed.

(** Two renewals in a row lost: the lease lapses, node b starts the actor too, and
    node a's actor goes on although its next renewal is refused. *)
Definition torn : list action :=
  [Boot 0; Boot 1] ++ starts 0 ++
  [passes 10000; Fire 0 (Name player)] ++ acts_on 0 NotSent ++
  [passes 10000; Fire 0 (Name player)] ++ acts_on 0 NotSent ++
  [passes 10000] ++ starts 1 ++ [Fire 0 (Name player)] ++ acts_on 0 Delivered ++ [passes 1000000].
Lemma lost_renewals_split_the_actor : servers torn = (true, true) /\ kept_to torn = false.
Proof. vm_compute. repeat split; reflexivity. Qed.

(** A node that takes the owner for dead deletes its ownership: two activations. *)
Definition mistaken : list action :=
  [Boot 0; Boot 1] ++ starts 0 ++
  [Base (Other (Directory.Call 1 (RDelete player node_a))); Base (Other (Directory.Run 0 Delivered))] ++ starts 1.
Lemma mistaken_delete_splits_the_actor : servers mistaken = (true, true) /\ kept_to mistaken = false.
Proof. vm_compute. repeat split; reflexivity. Qed.
