(* ===== verification/Wiretypes.v ===== *)
(** * actor/types.go, logicalactor/types.go, remote.go: values and their messages

    The structs that the generated code of actor/pb and logicalactor/pb gives the
    messages, and the conversions between them and the runtime's own types.
    System.v and Router.v keep the runtime's types in their messages; the round
    trips here are the reason. *)

From S2P Require Import Prelude Errors Requests Proto Actor System Placement Effects Router.

(** ** actor/types.go *)

(** actorpb.PID and actorpb.RequestRef; a pointer is an option. *)
Record pbPID := mkPbPID { ActorId : Z; pb_ActorName : string; pb_NodeId : string }.
Record pbRequestRef := mkPbRef { ref_NodeId : string; ref_RequestId : Z }.

Definition pidToProto (pid : option PID) : option pbPID :=
  match pid with
  | None => None
  | Some pid => Some (mkPbPID (Actor.ActorID pid) (ActorName pid) (p_NodeID pid))
  end.
Definition pidFromProto (pid : option pbPID) : option PID :=
  match pid with
  | None => None
  | Some pid => Some (NewPID (ActorId pid) (pb_ActorName pid) (pb_NodeId pid))
  end.

Definition requestRefFromProto (request : option pbRequestRef) : option RequestRef :=
  match request with
  | None => None
  | Some request => Some (mkRequestRef (ref_NodeId request) (ref_RequestId request))
  end.
Definition requestRefToProto (request : option RequestRef) : option pbRequestRef :=
  match request with
  | None => None
  | Some request => Some (mkPbRef (NodeID request) (RequestID request))
  end.

(** ** remote.go *)

(** The getters of generated messages answer for a nil message too. *)
Definition GetMessageName_request (r : option RemoteActorRequest) : string :=
  match r with Some r => rq_MessageName r | None => "" end.
Definition GetMessageName_response (r : option RemoteActorResponse) : string :=
  match r with Some r => rs_MessageName r | None => "" end.
Definition remoteMessageName (message : RemoteActorMessage) : string :=
  match Body message with
  | BRequest body => GetMessageName_request body
  | BResponse body => GetMessageName_response body
  | BNone => ""
  end.

(** ** logicalactor/types.go *)

Record pbActorID := mkPbActorID { pb_Kind : string; pb_Key : string }.
(** logicalactorpb.Owner; nobody sets its epoch. *)
Record pbOwner := mkPbOwner { ow_NodeId : string; ow_InstanceId : string; ow_Epoch : Z }.

Definition actorIDToProto (actorID : Placement.ActorID) : option pbActorID :=
  Some (mkPbActorID (Placement.Kind actorID) (Placement.Key actorID)).
Definition actorID_fromProto (protoActorID : option pbActorID) : Placement.ActorID :=
  match protoActorID with
  | None => mkActorID "" ""
  | Some p => mkActorID (pb_Kind p) (pb_Key p)
  end.
Definition owner_toProto (owner : NodeInfo) : option pbOwner := Some (mkPbOwner (NodeId owner) (InstanceId owner) 0).
Definition ownerFromProto (owner : option pbOwner) : NodeInfo :=
  match owner with
  | None => mkNodeInfo "" "" ""
  | Some owner => mkNodeInfo (ow_NodeId owner) "" (ow_InstanceId owner)
  end.

(** ** The conversions lose nothing of an actor's identity *)

Theorem pid_roundtrip pid : pidFromProto (pidToProto pid) = pid.
Proof. by destruct pid as [[]|]. Qed.
Theorem pid_roundtrip_proto pid : pidToProto (pidFromProto pid) = pid.
Proof. by destruct pid as [[]|]. Qed.
Theorem requestRef_roundtrip request : requestRefFromProto (requestRefToProto request) = request.
Proof. by destruct request as [[]|]. Qed.
Theorem requestRef_roundtrip_proto request : requestRefToProto (requestRefFromProto request) = request.
Proof. by destruct request as [[]|]. Qed.
#[export] Instance pidToProto_inj : Inj (=) (=) pidToProto.
Proof. intros x y E. by rewrite <- (pid_roundtrip x), <- (pid_roundtrip y), E. Qed.
#[export] Instance requestRefToProto_inj : Inj (=) (=) requestRefToProto.
Proof. intros x y E. by rewrite <- (requestRef_roundtrip x), <- (requestRef_roundtrip y), E. Qed.

Theorem actorID_roundtrip actorID : actorID_fromProto (actorIDToProto actorID) = actorID.
Proof. by destruct actorID. Qed.

(** No message is the id of no actor: it does not validate. *)
Theorem absent_actorID_is_refused : is_Some (Validate (actorID_fromProto None)).
Proof. by eexists. Qed.

(** An owner loses its kind on the wire: what comes back never validates as a
    node, and is the owner only up to the kind. *)
Definition same_owner (n n' : NodeInfo) : Prop := NodeId n = NodeId n' /\ InstanceId n = InstanceId n'.
#[export] Instance same_owner_equiv : Equivalence same_owner.
Proof.
  split; [by split| |].
  - intros ? ? [E1 E2]. by split.
  - intros ? ? ? [E1 E2] [E3 E4]. by split; etrans.
Qed.
#[export] Instance owner_toProto_proper : Proper (same_owner ==> eq) owner_toProto.
Proof. intros [] [] [E1 E2]. simpl in *. by subst. Qed.

Theorem owner_roundtrip owner :
  same_owner (ownerFromProto (owner_toProto owner)) owner /\
  (ownerFromProto (owner_toProto owner) = owner <-> n_Kind owner = "").
Proof. split; [done|]. destruct owner; simpl. split; [by intros [=]|by intros ->]. Qed.

Theorem wire_owner_does_not_validate owner : is_Some (NodeInfo_Validate (ownerFromProto owner)).
Proof. destruct owner as [o|]; unfold NodeInfo_Validate; simpl; repeat case_match; by eexists. Qed.

(** Router.v's RouteRequest carries these messages' fields. *)
Theorem router_conversions actorID owner :
  actorIDFromProto (Some actorID) = actorID_fromProto (actorIDToProto actorID) /\
  ownerToProto owner = (fun p => (ow_NodeId p, ow_InstanceId p)) <$> owner_toProto owner.
Proof. by destruct actorID. Qed.
