(* ===== verification/UdpServer.v ===== *)
(** * network/udp_server.go, server_engine.go: the UDP server's own loops

    [UDPServer.Run]: the listener, the loop that reads datagrams, the loop that
    writes packets, and what stops them. The connections are Udp.v's: reading a
    datagram is its [Datagram], writing a packet its [Sent]. *)

From S2P Require Import Prelude Protocol Errors Effects Threads Udp UdpSafety.

(** [ReadFromUDP] is given room for any datagram. *)
Definition read_buffer : nat := 65535.

(** A server that has opened its socket. [running]: Run has not returned. *)
Record engine := mkEngine {
  conns : pool uop UDPServer tid;
  running : bool;
  sending : bool;      (* the goroutine of writeLoop *)
  socket_open : bool;
  cancelled : bool;    (* ctx is done *)
  e_logged : list string
}.

Inductive eact :=
| ReadFrom (addr : string) (datagram : list Z)  (* ReadFromUDP returns a datagram *)
| ReadFails                                     (* ReadFromUDP returns an error *)
| WriteNext (failed : bool)                     (* writeLoop takes a packet; the write may fail *)
| SeeDone                                       (* writeLoop's select takes ctx.Done() *)
| Cancel                                        (* ctx is cancelled; AfterFunc closes the socket *)
| Conn (a : act).                               (* the goroutines of connections and callers *)

Definition with_conns (w : pool uop UDPServer tid) (e : engine) : engine :=
  mkEngine w (running e) (sending e) (socket_open e) (cancelled e) (e_logged e).
Definition elog (what : string) (e : engine) : engine :=
  mkEngine (conns e) (running e) (sending e) (socket_open e) (cancelled e) (e_logged e ++ [what]).

(** [Run] with [runEngine] up to the loop: [listen] is the error of ListenPacket. *)
Definition Run_open (listen : option gerr) : res gerr engine :=
  match listen with
  | Some err => Err (wrap "udp server :" err)
  | None => Ok (mkEngine start true true true false [])
  end.

Section engine.
Variable ServerSendChanSize : nat.
Abbreviation step := (Udp.step ServerSendChanSize).

(** The reading goroutine is between two datagrams: [transmit] has returned. *)
Definition reads_next (e : engine) : bool := running e && idle TServer (conns e).

(** One iteration of the read loop; an empty datagram is skipped. *)
Definition read_from (addr : string) (datagram : list Z) (e : engine) : engine :=
  let bytes := take read_buffer datagram in
  if bool_decide (bytes = []) then e else with_conns (step (conns e) (Datagram addr bytes)) e.
(** Any read error ends the loop, and Run with it; a socket that is closed
    answers net.ErrClosed, which is not logged. *)
Definition read_fails (e : engine) : engine :=
  let e := if socket_open e then elog "udp server read udp failed" e else e in
  mkEngine (conns e) false (sending e) (socket_open e) (cancelled e) (e_logged e).

(** One iteration of [writeLoop]; a write to a closed socket is not logged. *)
Definition write_next (failed : bool) (e : engine) : engine :=
  match sendChannel (shared (conns e)) with
  | [] => e
  | _ :: _ =>
    let e' := with_conns (step (conns e) Sent) e in
    if failed && socket_open e then elog "udp server write failed" e' else e'
  end.

Definition engine_step (e : engine) (a : eact) : engine :=
  match a with
  | ReadFrom addr datagram => if reads_next e && socket_open e then read_from addr datagram e else e
  | ReadFails => if reads_next e then read_fails e else e
  | WriteNext failed => if sending e then write_next failed e else e
  | SeeDone =>
    if cancelled e then mkEngine (conns e) (running e) false (socket_open e) true (e_logged e) else e
  | Cancel => mkEngine (conns e) (running e) (sending e) false true (e_logged e)
  | Conn a =>
    match a with
    | Datagram _ _ | Sent => e (* the server's own *)
    | _ => with_conns (step (conns e) a) e
    end
  end.
Definition engine_run (e : engine) (acts : list eact) : engine := fold_left engine_step acts e.

(** ** The server runs as Udp.v's *)

Definition proper_act (a : eact) : Prop := match a with ReadFrom _ datagram => bytes_ok datagram | _ => True end.

Lemma engine_step_conns e a : proper_act a ->
  conns (engine_step e a) = conns e \/ exists b, proper b /\ conns (engine_step e a) = step (conns e) b.
Proof.
  intros Hp. destruct a as [addr dg| |failed| | |b]; simpl.
  - destruct (_ && _); [|by left]. unfold read_from. case_bool_decide; [by left|].
    right. eexists. split; [|done]. by apply Forall_take.
  - destruct (reads_next e); [|by left]. unfold read_fails. left. by destruct (socket_open e).
  - destruct (sending e); [|by left]. unfold write_next. destruct (sendChannel _); [by left|].
    right. exists Sent. split; [done|]. by destruct (_ && _).
  - left. by destruct (cancelled e).
  - by left.
  - destruct b; simpl; first [by left | right; by eexists (Read _) | right; by eexists (Write _ _)
      | right; by eexists (EndWriting _ _) | right; by eexists (CallClose _ _ _) | right; by eexists (Step _ _)].
Qed.

(** A refinement: what the server's loops do to its connections is a run of
    Udp.v over proper actions, so that UdpSafety.v's theorems hold of it. *)
Theorem engine_refines_udp acts e0 :
  Run_open None = Ok e0 -> Forall proper_act acts ->
  exists bs, Forall proper bs /\ conns (engine_run e0 acts) = Udp.run ServerSendChanSize start bs.
Proof.
  intros [= <-]. induction acts as [|a acts IH] using rev_ind; intros Ha; [by exists []|].
  apply Forall_app in Ha as [Ha Hl]. rewrite Forall_singleton in Hl. destruct (IH Ha) as (bs & Hbs & E).
  unfold engine_run. rewrite fold_left_app. simpl. fold (engine_run (mkEngine start true true true false []) acts).
  destruct (engine_step_conns (engine_run (mkEngine start true true true false []) acts) a Hl) as [->|(b & Hb & ->)].
  - by exists bs.
  - exists (bs ++ [b]). split; [by rewrite Forall_app, Forall_singleton|].
    unfold Udp.run. rewrite fold_left_app. simpl. by rewrite E.
Qed.

(** So at every time of the server's life one open connection per address. *)
Corollary engine_one_open_connection acts e0 c1 c2 C1 C2 :
  Run_open None = Ok e0 -> Forall proper_act acts ->
  let s := shared (conns (engine_run e0 acts)) in
  heap s !! c1 = Some C1 -> heap s !! c2 = Some C2 -> u_closed C1 = false -> u_closed C2 = false ->
  remoteAddr C1 = remoteAddr C2 -> c1 = c2.
Proof.
  intros Hr Ha s H1 H2 O1 O2 E. destruct (engine_refines_udp _ _ Hr Ha) as (bs & Hbs & Es).
  unfold s in *. rewrite Es in H1, H2.
  destruct (udp_run_inv ServerSendChanSize bs Hbs) as [I1 I2 I3 I4 I5].
  pose proof (I4 _ _ H1 O1) as D1. pose proof (I4 _ _ H2 O2) as D2. rewrite <- E in D2. congruence.
Qed.

(** ** How the server ends *)

Lemma exec_arrived i R (o : uop R) ora s s' r : exec ServerSendChanSize i R o ora s = Some (s', r) -> arrived s' = arrived s.
Proof.
  destruct o; cbn; intros E; repeat (case_match; simplify_option_eq; try done); simplify_option_eq; try done.
  all: unfold removeConnection; by case_match.
Qed.

Lemma step_arrived w a : (forall addr bytes, a <> Datagram addr bytes) -> arrived (shared (step w a)) = arrived (shared w).
Proof.
  intros Ha. destruct a as [addr bytes|c|c data|c err|n c err| |i ora]; simpl; try (by repeat case_match).
  - by destruct (Ha addr bytes).
  - unfold run_thread. destruct (threads w !! i) as [[|T o k]|]; [done| |done].
    destruct (exec _ _ _ _ _ _) as [[s r]|] eqn:E; [|done]. by eapply exec_arrived.
Qed.

Lemma ended_step e a : running e = false ->
  running (engine_step e a) = false /\ arrived (shared (conns (engine_step e a))) = arrived (shared (conns e)).
Proof.
  intros Hr. destruct a as [addr dg| |failed| | |b]; cbn [engine_step]; unfold reads_next; rewrite ?Hr; cbn [andb]; try done.
  - destruct (sending e); [|done]. unfold write_next. destruct (sendChannel _) eqn:Es; [done|].
    assert (Hs : arrived (shared (step (conns e) Sent)) = arrived (shared (conns e))) by (by apply step_arrived).
    by destruct (_ && _).
  - by destruct (cancelled e).
  - destruct b as [| | | | | |]; try done; (split; [done|]); by apply (step_arrived (conns e)).
Qed.

(** A server whose loop has ended never reads again: no datagram that comes later
    reaches a connection, and Run has returned for good. *)
Theorem ended_server_reads_nothing e acts : running e = false ->
  running (engine_run e acts) = false /\ arrived (shared (conns (engine_run e acts))) = arrived (shared (conns e)).
Proof.
  intros Hr. induction acts as [|a acts IH] using rev_ind; [done|].
  unfold engine_run in *. rewrite fold_left_app. simpl. destruct IH as [IH1 <-]. by apply ended_step.
Qed.

(** One read error ends it, whatever the error: the socket stays as it was, and
    so do the connections, which nobody closes. *)
Theorem read_error_ends_the_server e : reads_next e = true ->
  let e' := engine_step e ReadFails in
  running e' = false /\ conns e' = conns e /\ socket_open e' = socket_open e /\ sending e' = sending e /\
  e_logged e' = e_logged e ++ (if socket_open e then ["udp server read udp failed"] else []).
Proof.
  intros Hr. simpl. rewrite Hr. unfold read_fails. destruct (socket_open e) eqn:Eo; simpl; by rewrite ?Eo, ?app_nil_r.
Qed.

(** A cancelled server stops without an entry in its log. *)
Theorem cancelled_server_stops e : reads_next e = true ->
  let e' := engine_run e [Cancel; ReadFails; SeeDone] in
  running e' = false /\ sending e' = false /\ socket_open e' = false /\ e_logged e' = e_logged e.
Proof.
  intros Hr e'. assert (Hc : reads_next (engine_step e Cancel) = true) by exact Hr.
  assert (Ee : e' = engine_step (engine_step (engine_step e Cancel) ReadFails) SeeDone) by done. clearbody e'. subst e'.
  destruct (read_error_ends_the_server _ Hc) as (Hr1 & _ & Hs & Hn & Hl). set (e1 := engine_step _ ReadFails) in *.
  assert (Hk : cancelled e1 = true) by (unfold e1, engine_step at 1; by rewrite Hc).
  clearbody e1. cbn in Hs, Hl. unfold engine_step. rewrite Hk. cbn. by rewrite Hr1, Hs, Hl, app_nil_r.
Qed.

(** The packets are written in the order in which connections queued them. *)
Theorem packets_leave_in_order e failed p rest : sending e = true -> sendChannel (shared (conns e)) = p :: rest ->
  let s := shared (conns (engine_step e (WriteNext failed))) in
  sendChannel s = rest /\ written s = written (shared (conns e)) ++ [p].
Proof. intros Hs Hc. simpl. rewrite Hs. unfold write_next. rewrite Hc. cbn. rewrite Hc. by destruct (_ && _). Qed.
End engine.

(** A client's session before and after a transient read error: the error ends the
    server, later datagrams are not read, but the socket is open, the session in
    the table, and what it sends still leaves. *)
Definition hello_datagram (seq : Z) (data : list Z) : list Z := be_put 8 7 ++ be_put 8 seq ++ data.
Definition from_client (seq : Z) (data : list Z) : list eact :=
  ReadFrom "10.0.0.9:99" (hello_datagram seq data) :: repeat (Conn (Step TServer (mkOracle None 1))) 8.
Definition sends (data : list Z) : list eact :=
  Conn (Write 1 data) :: repeat (Conn (Step (TWriter 1) (mkOracle None 0))) 2 ++ [WriteNext false].
Definition opened : engine := mkEngine start true true true false [].

Example transient_error_ends_the_udp_server :
  let e := engine_run 4 opened (from_client 1 [10] ++ [ReadFails] ++ from_client 2 [11] ++ sends [20]) in
  Run_open None = Ok opened /\ running e = false /\ socket_open e = true /\
  arrived (shared (conns e)) = [("10.0.0.9:99", hello_datagram 1 [10])] /\
  (u_closed <$> heap (shared (conns e)) !! 1%N) = Some false /\
  (length (written (shared (conns e))) = 1)%nat /\ e_logged e = ["udp server read udp failed"].
Proof. vm_compute. done. Qed.
