(* ===== verification/DirectoryClose.v ===== *)
(** * logicalactor/directory/redis.go: the events of a directory, and closing it

    One RedisOwnerDirectory with the goroutine of [consumeOwnerEvents] and the
    callers of [Close], one access at a time. Directory.v receives an event and
    closes a directory in one step each; the last theorem says that it may. *)

From S2P Require Import Prelude Placement Errors Directory.

(** A message of the subscription: its channel, and what jsoncodec.Unmarshal makes
    of its payload. *)
Record message := mkMessage { Channel : string; decoded : option ownerEvent }.

(** The lines of [Close]: before [stopOnce.Do], and in the function given to it
    (a directory of NewRedisDirectory has a cancel function). *)
Inductive closer :=
| Called
| Cancelling
| Purging
| ClosingPubsub
| WaitingDone (closeErr : option Z)
| Returned (err : option Z).
Inductive once := OnceFree | OnceRunning (n : nat) | OnceDone.
(** The lines of [consumeOwnerEvents]. *)
Inductive consumer := Receiving | Handling (m : option message) | Ended.
Definition ended (l : consumer) : bool := match l with Ended => true | _ => false end.

Record directory := mkDir {
  cached : cache;
  queue : list message;       (* received by the client, not yet by the goroutine *)
  ctx_done : bool;
  pubsub_closed : bool;
  loop : consumer;            (* [Ended]: done is closed *)
  stopOnce : once;
  closers : gmap nat closer;
  warnings : nat
}.
Definition opened : directory := mkDir ∅ [] false false Receiving OnceFree ∅ 0.

Definition with_cache (c : cache) (d : directory) : directory :=
  mkDir c (queue d) (ctx_done d) (pubsub_closed d) (loop d) (stopOnce d) (closers d) (warnings d).
Definition with_loop (q : list message) (l : consumer) (d : directory) : directory :=
  mkDir (cached d) q (ctx_done d) (pubsub_closed d) l (stopOnce d) (closers d) (warnings d).
Definition warn (d : directory) : directory :=
  mkDir (cached d) (queue d) (ctx_done d) (pubsub_closed d) (loop d) (stopOnce d) (closers d) (S (warnings d)).
Definition closing (n : nat) (ph : closer) (o : once) (d : directory) : directory :=
  mkDir (cached d) (queue d) (ctx_done d) (pubsub_closed d) (loop d) o (<[n := ph]> (closers d)) (warnings d).

(** A call of another operation of the directory at its cache, or the cache drops
    an entry, out of date or for room. *)
Inductive cacheop :=
| CSet (key : string) (owner : Owner)
| CDel (key : string) (epoch : Z)
| CRefresh (key : string) (expected : NodeInfo)
| CEvict (key : string).
Definition apply_cacheop (o : cacheop) (c : cache) : cache :=
  match o with
  | CSet key owner => trySetCached key owner c
  | CDel key epoch => tryDelCached key epoch c
  | CRefresh key expected => refreshCached key expected c
  | CEvict key => delete key c
  end.

Inductive dact :=
| Arrive (m : message)            (* Redis delivers to the open subscription *)
| Next                            (* ReceiveMessage returns a message *)
| NextNil                         (* ... or nil with no error *)
| NextFails                       (* ... or an error, as it does when ctx is done *)
| Handle                          (* handleOwnerEvent *)
| CallClose (n : nat)
| Proceed (n : nat) (closeErr : option Z) (* a closer's next line; what pubsub.Close answers *)
| AtCache (o : cacheop).

Section subscription.
Variable prefix : string. (* trimmed by NewRedisDirectory *)

Definition ownerUpdate : string := "ownerUpdate".
Definition updateChannel : string := prefix +:+ ownerUpdate.

(** [handleOwnerEvent] on a message as it came. *)
Definition handle_message (m : option message) (c : cache) : cache :=
  match m with
  | None => c
  | Some m =>
    match decoded m with
    | None => c (* logged *)
    | Some event =>
      if bool_decide (Channel m = updateChannel)
      then tryDelCached (ActorID_String (ActorId event)) (e_Epoch event) c else c
    end
  end.

(** An error of ReceiveMessage: the goroutine closes [done] and ends if its
    context is done, and tries again at once otherwise. *)
Definition receive_failed (d : directory) : directory :=
  if ctx_done d then with_loop (queue d) Ended d else warn d.

Definition close_step (n : nat) (closeErr : option Z) (d : directory) : directory :=
  match closers d !! n with
  | Some Called =>
    match stopOnce d with
    | OnceFree => closing n Cancelling (OnceRunning n) d
    | OnceRunning _ => d (* Do blocks *)
    | OnceDone => closing n (Returned None) OnceDone d
    end
  | Some Cancelling =>
    closing n Purging (stopOnce d)
      (mkDir (cached d) (queue d) true (pubsub_closed d) (loop d) (stopOnce d) (closers d) (warnings d))
  | Some Purging => closing n ClosingPubsub (stopOnce d) (with_cache ∅ d)
  | Some ClosingPubsub =>
    closing n (WaitingDone closeErr) (stopOnce d)
      (mkDir (cached d) (queue d) (ctx_done d) true (loop d) (stopOnce d) (closers d) (warnings d))
  | Some (WaitingDone closeErr) =>
    if ended (loop d) then closing n (Returned closeErr) OnceDone d else d
  | _ => d
  end.

Definition dstep (d : directory) (a : dact) : directory :=
  match a with
  | Arrive m => if pubsub_closed d then d else with_loop (queue d ++ [m]) (loop d) d
  | Next =>
    match loop d, queue d with
    | Receiving, m :: q => with_loop q (Handling (Some m)) d
    | _, _ => d
    end
  | NextNil => match loop d with Receiving => with_loop (queue d) (Handling None) d | _ => d end
  | NextFails => match loop d with Receiving => receive_failed d | _ => d end
  | Handle =>
    match loop d with
    | Handling m => with_loop (queue d) Receiving (with_cache (handle_message m (cached d)) d)
    | _ => d
    end
  | CallClose n => match closers d !! n with None => closing n Called (stopOnce d) d | Some _ => d end
  | Proceed n closeErr => close_step n closeErr d
  | AtCache o => with_cache (apply_cacheop o (cached d)) d
  end.
Definition drun (d : directory) (acts : list dact) : directory := fold_left dstep acts d.

(** ** What holds at every line *)

Definition runs_close (ph : closer) : bool :=
  match ph with Cancelling | Purging | ClosingPubsub | WaitingDone _ => true | _ => false end.
Definition past_cancel (ph : closer) : bool :=
  match ph with Purging | ClosingPubsub | WaitingDone _ => true | _ => false end.
Definition past_purge (ph : closer) : bool := match ph with ClosingPubsub | WaitingDone _ => true | _ => false end.
Definition past_pubsub (ph : closer) : bool := match ph with WaitingDone _ => true | _ => false end.

Definition once_ok (d : directory) : Prop :=
  match stopOnce d with
  | OnceFree => ctx_done d = false /\ pubsub_closed d = false
  | OnceRunning n => exists ph, closers d !! n = Some ph /\ runs_close ph = true /\
      ctx_done d = past_cancel ph /\ pubsub_closed d = past_pubsub ph
  | OnceDone => ctx_done d = true /\ pubsub_closed d = true /\ loop d = Ended
  end.
Definition closer_ok (o : once) (n : nat) (ph : closer) : Prop :=
  match ph with
  | Called => True
  | Returned _ => o = OnceDone
  | _ => o = OnceRunning n
  end.
Record dir_inv (d : directory) : Prop := {
  di_once : once_ok d;
  di_closers : forall n ph, closers d !! n = Some ph -> closer_ok (stopOnce d) n ph;
  di_loop : loop d = Ended -> ctx_done d = true;
  di_error : forall n1 n2 e1 e2, closers d !! n1 = Some (Returned (Some e1)) ->
    closers d !! n2 = Some (Returned (Some e2)) -> n1 = n2 }.

(** What does not concern the closers. *)
Lemma dir_inv_frame d d' : dir_inv d -> stopOnce d' = stopOnce d -> closers d' = closers d -> ctx_done d' = ctx_done d ->
  pubsub_closed d' = pubsub_closed d -> (loop d' = Ended -> ctx_done d = true) -> (loop d = Ended -> loop d' = Ended) ->
  dir_inv d'.
Proof.
  intros [Ho Hc Hl He] E1 E2 E3 E4 Hl' Hk. split.
  - unfold once_ok in *. rewrite E1, E2, E3, E4. destruct (stopOnce d); try done. destruct Ho as (? & ? & ?). eauto.
  - by rewrite E1, E2.
  - by rewrite E3.
  - by rewrite E2.
Qed.

(** Closer [n] comes to a line that is not inside the function. *)
Lemma dir_inv_closing d n ph o : dir_inv d -> once_ok (closing n ph o d) ->
  (forall k q, k <> n -> closers d !! k = Some q -> closer_ok o k q) -> closer_ok o n ph ->
  (forall e k e', ph = Returned (Some e) -> closers d !! k = Some (Returned (Some e')) -> False) ->
  dir_inv (closing n ph o d).
Proof.
  intros [_ _ Hl He] Ho Hc Hn Hu. split; [done| |done|]; simpl.
  - intros k q. rewrite lookup_insert_Some. intros [[<- <-]|[Hk E]]; eauto.
  - intros n1 n2 e1 e2. rewrite !lookup_insert_Some. intros [[<- E1]|[_ H1]] [[<- E2]|[_ H2]]; try done.
    + destruct (Hu _ _ _ E1 H2).
    + destruct (Hu _ _ _ E2 H1).
    + eauto.
Qed.

(** The closer that runs the function goes from one line to the next. *)
Lemma dir_inv_next d n ph ph' d' : dir_inv d -> closers d !! n = Some ph -> runs_close ph = true -> runs_close ph' = true ->
  stopOnce d' = stopOnce d -> closers d' = <[n := ph']> (closers d) -> loop d' = loop d ->
  ctx_done d' = past_cancel ph' -> pubsub_closed d' = past_pubsub ph' -> (ctx_done d = true -> ctx_done d' = true) -> dir_inv d'.
Proof.
  intros [Ho Hc Hl He] Hn Hr Hr' E1 E2 E3 E4 E5 Hk.
  assert (Eo : stopOnce d = OnceRunning n) by (specialize (Hc _ _ Hn); by destruct ph).
  split.
  - unfold once_ok. rewrite E1, Eo, E2. exists ph'. by rewrite lookup_insert_eq.
  - intros m q. rewrite E2, lookup_insert_Some, E1. intros [[<- <-]|[_ Hm]]; [by rewrite Eo; destruct ph'|eauto].
  - rewrite E3. auto.
  - intros n1 n2 e1 e2. rewrite E2, !lookup_insert_Some.
    intros [[_ ?]|[_ H1]] [[_ ?]|[_ H2]]; [by subst ph'|by subst ph'|by subst ph'|eauto].
Qed.

Lemma running_phase d n ph : dir_inv d -> closers d !! n = Some ph -> runs_close ph = true ->
  stopOnce d = OnceRunning n /\ ctx_done d = past_cancel ph /\ pubsub_closed d = past_pubsub ph.
Proof.
  intros [Ho Hc _ _] Hn Hr. assert (Eo : stopOnce d = OnceRunning n) by (specialize (Hc _ _ Hn); by destruct ph).
  unfold once_ok in Ho. rewrite Eo in Ho. destruct Ho as (ph' & E & _ & ?). rewrite Hn in E. by injection E as <-.
Qed.

Lemma dir_inv_close_step d n closeErr : dir_inv d -> dir_inv (close_step n closeErr d).
Proof.
  intros Hi. pose proof (di_closers _ Hi) as Hc. unfold close_step. destruct (closers d !! n) as [ph|] eqn:En; [|done].
  destruct ph as [| | | |cerr|]; try done.
  - destruct (stopOnce d) as [|m|] eqn:Eo; [|done|]; pose proof (di_once _ Hi) as Ho; unfold once_ok in Ho; rewrite Eo in Ho.
    + destruct Ho as [O1 O2]. apply dir_inv_closing; try done.
      * exists Cancelling. simpl. by rewrite lookup_insert_eq.
      * intros k q _ Hk. apply Hc in Hk. by destruct q.
    + by apply dir_inv_closing; eauto.
  - destruct (running_phase _ _ _ Hi En) as (Eo & O1 & O2); [done|]. by eapply (dir_inv_next d n _ Purging).
  - destruct (running_phase _ _ _ Hi En) as (Eo & O1 & O2); [done|]. by eapply (dir_inv_next d n _ ClosingPubsub).
  - destruct (running_phase _ _ _ Hi En) as (Eo & O1 & O2); [done|]. by eapply (dir_inv_next d n _ (WaitingDone closeErr)).
  - destruct (running_phase _ _ _ Hi En) as (Eo & O1 & O2); [done|]. destruct (loop d) eqn:El; [done|done|].
    cbn [ended]. apply dir_inv_closing; try done.
    + intros k q Hk Hq. apply Hc in Hq. rewrite Eo in Hq. destruct q; simpl in *; congruence.
    + intros e k e' _ Hk%Hc. simpl in Hk. congruence.
Qed.

Lemma dir_inv_step d a : dir_inv d -> dir_inv (dstep d a).
Proof.
  intros Hi. destruct a as [m| | | | |n|n cerr|o]; simpl.
  - destruct (pubsub_closed d); [done|]. by apply (dir_inv_frame d); try done; apply (di_loop _ Hi).
  - destruct (loop d) eqn:El; try done. destruct (queue d) as [|m q]; [done|]. apply (dir_inv_frame d); simpl; congruence.
  - destruct (loop d) eqn:El; try done. apply (dir_inv_frame d); simpl; congruence.
  - destruct (loop d) eqn:El; try done. unfold receive_failed. destruct (ctx_done d) eqn:Ed.
    + by apply (dir_inv_frame d).
    + apply (dir_inv_frame d); simpl; congruence.
  - destruct (loop d) eqn:El; try done. apply (dir_inv_frame d); simpl; congruence.
  - destruct (closers d !! n) eqn:En; [done|]. pose proof (di_closers _ Hi) as Hc. apply dir_inv_closing; try done; [|by eauto].
    pose proof (di_once _ Hi) as Ho. unfold once_ok in *. simpl. destruct (stopOnce d) as [|m|]; try done.
    destruct Ho as (ph & Hm & ?). exists ph. rewrite lookup_insert_ne by congruence. done.
  - by apply dir_inv_close_step.
  - by apply (dir_inv_frame d); try done; apply (di_loop _ Hi).
Qed.

Lemma dir_inv_run acts : dir_inv (drun opened acts).
Proof.
  induction acts as [|a acts IH] using rev_ind; [by split|].
  unfold drun in *. rewrite fold_left_app. by apply dir_inv_step.
Qed.

(** ** What Close promises *)

Definition by_others (c : cache) (a : dact) : cache := match a with AtCache o => apply_cacheop o c | _ => c end.

Lemma quiet_step d a : stopOnce d = OnceDone -> loop d = Ended ->
  (forall n ph, closers d !! n = Some ph -> closer_ok (stopOnce d) n ph) ->
  stopOnce (dstep d a) = OnceDone /\ loop (dstep d a) = Ended /\ cached (dstep d a) = by_others (cached d) a.
Proof.
  intros Eo El Hc. destruct a as [m| | | | |n|n cerr|o]; simpl; rewrite ?El; try done.
  - by destruct (pubsub_closed d).
  - by destruct (closers d !! n).
  - unfold close_step. destruct (closers d !! n) as [ph|] eqn:En; [|done].
    apply Hc in En. rewrite Eo in En. rewrite Eo, El. by destruct ph.
Qed.

(** When a call of Close has returned, the goroutine has ended and the
    subscription is closed, and from then on only the callers of the other
    operations change the cache. *)
Lemma quiet_when_returned acts n e rest :
  closers (drun opened acts) !! n = Some (Returned e) ->
  let d := drun opened acts in
  loop d = Ended /\ ctx_done d = true /\ pubsub_closed d = true /\
  loop (drun d rest) = Ended /\ cached (drun d rest) = fold_left by_others rest (cached d).
Proof.
  intros Hn d. pose proof (di_closers _ (dir_inv_run acts) _ _ Hn) as Eo.
  pose proof (di_once _ (dir_inv_run acts)) as Ho. simpl in Eo. fold d in Ho, Eo. unfold once_ok in Ho.
  rewrite Eo in Ho. destruct Ho as (O1 & O2 & El). do 3 (split; [done|]).
  assert (Hr : stopOnce (drun d rest) = OnceDone /\ loop (drun d rest) = Ended /\
               cached (drun d rest) = fold_left by_others rest (cached d)); [|by destruct Hr as (_ & ? & ?)].
  induction rest as [|a rest IH] using rev_ind; [done|]. unfold drun in *. rewrite !fold_left_app. simpl.
  destruct IH as (E1 & E2 & <-). apply quiet_step; [done|done|].
  apply di_closers. unfold d. rewrite <- fold_left_app. apply dir_inv_run.
Qed.

(** Only one caller can be told of an error: the others get nil. *)
Lemma one_error_at_most acts n1 n2 e1 e2 : n1 <> n2 ->
  closers (drun opened acts) !! n1 = Some (Returned e1) -> closers (drun opened acts) !! n2 = Some (Returned e2) ->
  e1 = None \/ e2 = None.
Proof.
  intros Hne H1 H2. destruct e1; [|by left]. destruct e2; [|by right].
  destruct Hne. by eapply (di_error _ (dir_inv_run acts)).
Qed.

(** The steps that finish a call of [n] while [m] is the closer that runs the
    function: [m] to its wait, the goroutine to its end, then both return. *)
Definition finishing (m n : nat) : list dact :=
  replicate 4 (Proceed m None) ++ [Handle; NextFails; Proceed m None; Proceed n None].

Lemma drun_app d acts acts' : drun d (acts ++ acts') = drun (drun d acts) acts'.
Proof. apply fold_left_app. Qed.
Lemma dir_inv_drun d acts : dir_inv d -> dir_inv (drun d acts).
Proof. revert d. induction acts as [|a acts IH]; intros d Hi; [done|]. apply IH. by apply dir_inv_step. Qed.

(** The steps that are left before the wait; [None] where a closer is not on its way. *)
Definition before_wait (o : once) (ph : closer) : option nat :=
  match ph, o with
  | Called, OnceFree => Some 4%nat
  | Cancelling, _ => Some 3%nat | Purging, _ => Some 2%nat | ClosingPubsub, _ => Some 1%nat
  | WaitingDone _, _ | Returned _, _ => Some 0%nat
  | _, _ => None
  end.
Definition within (k : nat) (d : directory) (m : nat) : Prop :=
  exists ph j, closers d !! m = Some ph /\ before_wait (stopOnce d) ph = Some j /\ (j <= k)%nat.

Lemma within_step k d m : within (S k) d m -> within k (close_step m None d) m.
Proof.
  intros (ph & j & Hm & Hj & Hk). unfold within, close_step. rewrite Hm.
  destruct ph as [| | | |e|e]; simpl in Hj.
  - destruct (stopOnce d); simplify_eq. exists Cancelling, 3%nat. simpl. rewrite lookup_insert_eq. split_and!; [done|done|lia].
  - exists Purging, 2%nat. simpl. simplify_eq. rewrite lookup_insert_eq. split_and!; [done|done|lia].
  - exists ClosingPubsub, 1%nat. simpl. simplify_eq. rewrite lookup_insert_eq. split_and!; [done|done|lia].
  - exists (WaitingDone None), 0%nat. simpl. simplify_eq. rewrite lookup_insert_eq. split_and!; [done|done|lia].
  - destruct (ended (loop d)); [exists (Returned e)|exists (WaitingDone e)]; exists 0%nat; simpl;
      rewrite ?lookup_insert_eq, ?Hm; split_and!; done || lia.
  - exists (Returned e), 0%nat. simpl. rewrite Hm. split_and!; done || lia.
Qed.
Lemma within_run k d m : within k d m -> within 0 (drun d (replicate k (Proceed m None))) m.
Proof. revert d. induction k as [|k IH]; intros d Hw; [done|]. apply IH. by apply within_step. Qed.

(** A caller stays one. *)
Lemma caller_stays d acts n : is_Some (closers d !! n) -> is_Some (closers (drun d acts) !! n).
Proof.
  revert d. induction acts as [|a acts IH]; intros d Hn; [done|]. apply IH. clear IH acts.
  destruct a as [m| | | | |k|k cerr|o]; simpl; unfold receive_failed, close_step; repeat case_match; try done; simpl;
    (apply lookup_insert_is_Some; destruct (decide (k = n)); eauto).
Qed.

(** A waiting closer's context is done, so the goroutine ends, and the closer
    returns. *)
Lemma waiting_returns d m : dir_inv d -> within 0 d m ->
  stopOnce (drun d [Handle; NextFails; Proceed m None]) = OnceDone.
Proof.
  intros Hi (ph & j & Hm & Hj & Hk). pose proof (di_closers _ Hi _ _ Hm) as Ho.
  assert (Hd : ctx_done d = true).
  { pose proof (di_once _ Hi) as H1. unfold once_ok in H1. destruct ph as [| | | |e|e]; simpl in *; simplify_eq; try lia.
    - destruct (stopOnce d); simplify_eq. lia.
    - by destruct (running_phase _ _ _ Hi Hm) as (_ & -> & _).
    - rewrite Ho in H1. by destruct H1. }
  set (d' := drun d [Handle; NextFails]).
  assert (H2 : closers d' = closers d /\ stopOnce d' = stopOnce d /\ loop d' = Ended).
  { unfold d'. simpl. unfold receive_failed. destruct (loop d) eqn:El; simpl; rewrite ?El; simpl; by rewrite ?Hd. }
  change (stopOnce (close_step m None d') = OnceDone). destruct H2 as (E1 & E2 & E3).
  unfold close_step. rewrite E1, Hm, E3. destruct ph as [| | | |e|e]; simpl in *; simplify_eq; try lia; try done.
  - destruct (stopOnce d); simplify_eq. lia.
  - by rewrite E2.
Qed.

Lemma once_done_stays d acts : dir_inv d -> stopOnce d = OnceDone -> stopOnce (drun d acts) = OnceDone.
Proof.
  revert d. induction acts as [|a acts IH]; intros d Hi Ho; [done|]. apply IH; [by apply dir_inv_step|].
  pose proof (di_once _ Hi) as H1. unfold once_ok in H1. rewrite Ho in H1. destruct H1 as (_ & _ & El).
  by apply quiet_step, (di_closers _ Hi).
Qed.

Lemma some_closer_finishes d n : dir_inv d -> is_Some (closers d !! n) ->
  exists m, stopOnce (drun d (replicate 4 (Proceed m None) ++ [Handle; NextFails; Proceed m None])) = OnceDone.
Proof.
  intros Hi [ph Hn]. pose proof (di_once _ Hi) as Ho. pose proof (di_closers _ Hi _ _ Hn) as Hc.
  assert (Hw : stopOnce d = OnceDone \/ exists m, within 4 d m).
  { unfold once_ok in Ho. unfold within. destruct (stopOnce d) as [|m|] eqn:Eo; [| |by left]; right.
    - exists n, ph, 4%nat. split; [done|]. by destruct ph.
    - destruct Ho as (q & Hq & Hr & _). exists m, q.
      destruct q; simpl in *; try done; eexists; (split_and!; [done|done|lia]). }
  destruct Hw as [Hd|[m Hm]]; [exists n; by apply once_done_stays|].
  exists m. rewrite drun_app. apply waiting_returns; [by apply dir_inv_drun|by apply within_run].
Qed.

Lemma finishing_split m n : finishing m n = (replicate 4 (Proceed m None) ++ [Handle; NextFails; Proceed m None]) ++ [Proceed n None].
Proof. done. Qed.
Lemma drun_close d n e : drun d [Proceed n e] = close_step n e d.
Proof. done. Qed.
Lemma done_closer_returns d n : dir_inv d -> stopOnce d = OnceDone -> is_Some (closers d !! n) ->
  exists e, closers (close_step n None d) !! n = Some (Returned e).
Proof.
  intros Hi Ho [ph Hn]. pose proof (di_closers _ Hi _ _ Hn) as Hc. rewrite Ho in Hc.
  unfold close_step. rewrite Hn, Ho. destruct ph as [| | | |e|e]; simpl in *; try done.
  - exists None. by rewrite lookup_insert_eq.
  - by exists e.
Qed.

(** Close returns: from every state in which [n] has called it, whatever the
    goroutine and the other closers are doing, a bounded number of steps makes it
    return. *)
Lemma closing_returns acts n : is_Some (closers (drun opened acts) !! n) ->
  exists m e, closers (drun (drun opened acts) (finishing m n)) !! n = Some (Returned e).
Proof.
  pose proof (dir_inv_run acts) as Hi. generalize dependent (drun opened acts). intros d Hi Hn.
  destruct (some_closer_finishes d n Hi Hn) as [m Hm]. exists m. rewrite finishing_split, drun_app, drun_close.
  apply done_closer_returns; [by apply dir_inv_drun|done|by apply caller_stays].
Qed.

(** ** As Directory.v has it *)

(** The events Directory.v counts: those of the channel that decode. *)
Definition concerns (m : message) : option ownerEvent :=
  if bool_decide (Channel m = updateChannel) then decoded m else None.
Definition in_hand (l : consumer) : list message := match l with Handling (Some m) => [m] | _ => [] end.
Definition purged (d : directory) : bool :=
  match stopOnce d with
  | OnceFree => false
  | OnceRunning n => match closers d !! n with Some ph => past_purge ph | None => false end
  | OnceDone => true
  end.
Definition view (d : directory) : Directory :=
  if purged d then mkDirectory (cached d) false []
  else mkDirectory (cached d) true (omap concerns (in_hand (loop d) ++ queue d)).

(** A step of Directory.v's world at directory [c]: an act of its own, an event
    published by some directory, or an operation at the cache. *)
Inductive moves : Directory -> Directory -> Prop :=
| VStay D : moves D D
| VAct D D' (a : nat -> act) :
    (forall c ttl w, dirs w !! c = Some D -> dirs (Directory.step prefix ttl w (a c)) !! c = Some D') -> moves D D'
| VPublished D e : d_subscribed D = true -> moves D (mkDirectory (d_cache D) true (d_events D ++ [e]))
| VCache D o : moves D (mkDirectory (apply_cacheop o (d_cache D)) (d_subscribed D) (d_events D)).

Lemma moves_receive c e es : moves (mkDirectory c true (e :: es)) (mkDirectory (handleOwnerEvent e c) true es).
Proof. apply (VAct _ _ ReceiveEvent). intros i ttl w E. cbn. by rewrite lookup_alter_eq, E. Qed.
Lemma moves_evict c b es key : moves (mkDirectory c b es) (mkDirectory (delete key c) b es).
Proof. apply (VAct _ _ (fun i => Evict i key)). intros i ttl w E. cbn. by rewrite lookup_alter_eq, E. Qed.
Lemma moves_close D : moves D (mkDirectory ∅ false []).
Proof. apply (VAct _ _ CloseDirectory). intros i ttl w E. cbn. by rewrite lookup_alter_eq, E. Qed.

Lemma moves_published c es e : moves (mkDirectory c true es) (mkDirectory c true (es ++ [e])).
Proof. by apply (VPublished (mkDirectory c true es)). Qed.
Lemma moves_cache o c b es : moves (mkDirectory c b es) (mkDirectory (apply_cacheop o c) b es).
Proof. apply (VCache (mkDirectory c b es)). Qed.

Lemma view_at d d' : stopOnce d' = stopOnce d -> closers d' = closers d ->
  view d' = if purged d then mkDirectory (cached d') false []
            else mkDirectory (cached d') true (omap concerns (in_hand (loop d') ++ queue d')).
Proof. unfold view, purged. by intros -> ->. Qed.
Ltac at_view d := match goal with |- moves _ (view ?d') => rewrite (view_at d d') by done end; unfold view.

Lemma handle_message_cases m c : handle_message m c = c \/ exists key, handle_message m c = delete key c.
Proof.
  unfold handle_message, tryDelCached. destruct m as [m|]; [|by left]. destruct (decoded m) as [e|]; [|by left].
  case_bool_decide; [|by left]. repeat case_match; first [by left | right; by eexists].
Qed.
Lemma handle_message_event m c :
  handle_message (Some m) c = match concerns m with Some e => handleOwnerEvent e c | None => c end.
Proof. unfold handle_message, concerns. destruct (decoded m); case_bool_decide; done. Qed.

Lemma moves_handle d m : loop d = Handling m -> moves (view d) (view (dstep d Handle)).
Proof.
  intros El. cbn [dstep]. rewrite El. at_view d. rewrite El. cbn [with_loop with_cache cached queue loop].
  destruct (purged d).
  - destruct (handle_message_cases m (cached d)) as [->|[key ->]]; [constructor|apply moves_evict].
  - destruct m as [m|]; [|constructor]. rewrite handle_message_event. cbn [in_hand app omap list_omap].
    destruct (concerns m); [apply moves_receive|constructor].
Qed.

Lemma moves_arrive d m : moves (view d) (view (dstep d (Arrive m))).
Proof.
  cbn [dstep]. destruct (pubsub_closed d); [constructor|]. at_view d.
  cbn [with_loop cached queue loop]. destruct (purged d); [constructor|]. rewrite (app_assoc _ (queue d) [m]), (omap_app _ _ [m]). cbn [omap list_omap].
  destruct (concerns m) as [e|]; [apply moves_published|]. rewrite app_nil_r. constructor.
Qed.

Lemma moves_close_step d n e : dir_inv d -> moves (view d) (view (close_step n e d)).
Proof.
  intros Hi. unfold close_step. destruct (closers d !! n) as [ph|] eqn:En; [|constructor].
  pose proof (di_closers _ Hi _ _ En) as Hc.
  assert (Hsame : forall d', cached d' = cached d -> loop d' = loop d -> queue d' = queue d -> purged d' = purged d ->
    moves (view d) (view d')).
  { intros d' E1 E2 E3 E4. unfold view. rewrite E1, E2, E3, E4. constructor. }
  destruct ph as [| | | |ce|ce]; simpl in Hc; [| | | | |constructor].
  - destruct (stopOnce d) eqn:Eo; [|constructor|]; apply Hsame; try done; unfold purged; rewrite Eo; [|done].
    simpl. by rewrite lookup_insert_eq.
  - apply Hsame; try done. unfold purged. simpl. by rewrite Hc, lookup_insert_eq, En.
  - assert (Hp : purged (closing n ClosingPubsub (stopOnce d) (with_cache ∅ d)) = true)
      by (unfold purged; simpl; by rewrite Hc, lookup_insert_eq).
    unfold view at 2. rewrite Hp. apply moves_close.
  - apply Hsame; try done. unfold purged. simpl. by rewrite Hc, lookup_insert_eq, En.
  - destruct (ended (loop d)); [|constructor]. apply Hsame; try done. unfold purged. simpl. by rewrite Hc, En.
Qed.

(** A refinement: whatever the goroutine, the closers and the other calls do, each
    of their accesses is at the directory's cache a step of Directory.v, or
    nothing; so Directory.v's theorems hold of a directory that is being closed. *)
Theorem closing_refines_directory acts a :
  moves (view (drun opened acts)) (view (dstep (drun opened acts) a)).
Proof.
  pose proof (dir_inv_run acts) as Hi. generalize dependent (drun opened acts). intros d Hi.
  destruct a as [m| | | | |n|n e|o].
  - apply moves_arrive.
  - cbn [dstep]. destruct (loop d) eqn:El; [|constructor..]. destruct (queue d) as [|m q] eqn:Eq; [constructor|].
    at_view d. cbn. rewrite El, Eq. constructor.
  - cbn [dstep]. destruct (loop d) eqn:El; [|constructor..]. at_view d. cbn. rewrite El. constructor.
  - cbn [dstep]. destruct (loop d) eqn:El; [|constructor..]. unfold receive_failed.
    destruct (ctx_done d); at_view d; cbn; rewrite El; constructor.
  - destruct (loop d) as [|m|] eqn:El; [|by eapply moves_handle|]; cbn [dstep]; rewrite El; constructor.
  - cbn [dstep]. destruct (closers d !! n) eqn:En; [constructor|].
    assert (E : view (closing n Called (stopOnce d) d) = view d); [|rewrite E; constructor].
    unfold view, purged. cbn. destruct (stopOnce d) as [|m|] eqn:Eo; [done| |done].
    pose proof (di_once _ Hi) as Ho. unfold once_ok in Ho. rewrite Eo in Ho. destruct Ho as (ph & Hm & _).
    by rewrite lookup_insert_ne by congruence.
  - by apply moves_close_step.
  - cbn [dstep]. at_view d. destruct (purged d); apply moves_cache.
Qed.

(** C24: However callers of a directory's Close, its event goroutine and its other
    operations interleave, Close can always be brought to return in a bounded number
    of steps (ReceiveMessage fails once its context is done); once any call has
    returned, the goroutine has ended, the subscription is closed and no event ever
    touches the cache again; and at most one caller is told of an error. *)
Theorem Close_ends_the_directory acts :
  let d := drun opened acts in
  (forall n, is_Some (closers d !! n) -> exists m e, closers (drun d (finishing m n)) !! n = Some (Returned e)) /\
  (forall n e, closers d !! n = Some (Returned e) ->
     loop d = Ended /\ ctx_done d = true /\ pubsub_closed d = true /\
     forall rest, loop (drun d rest) = Ended /\ cached (drun d rest) = fold_left by_others rest (cached d)) /\
  (forall n1 n2 e1 e2, n1 <> n2 -> closers d !! n1 = Some (Returned e1) -> closers d !! n2 = Some (Returned e2) ->
     e1 = None \/ e2 = None).
Proof.
  intros d. split_and!; [apply closing_returns| |apply one_error_at_most].
  intros n e Hn. destruct (quiet_when_returned acts n e [] Hn) as (? & ? & ? & _). split_and!; try done.
  intros rest. by destruct (quiet_when_returned acts n e rest Hn) as (_ & _ & _ & ? & ?).
Qed.

End subscription.

(** Two callers close a directory while an event is in hand: the first hears
    Redis's error, the other nil; the event is handled, the one after it is not.
    A call that fills the cache afterwards fills it for good: nothing will tell
    this directory that the owner changed. *)
Definition moved (epoch : Z) : message := mkMessage "ownerUpdate" (Some (mkOwnerEvent (mkActorID "player" "1") epoch)).
Definition closing_twice : list dact :=
  [AtCache (CSet "player:1" (mkOwner (mkNodeInfo "a" "game" "1") 5)); Arrive (moved 6); Next; Arrive (moved 7);
   CallClose 1; Proceed 1 None; CallClose 2; Proceed 2 None; Proceed 1 None; Handle;
   Proceed 1 None; NextFails; Proceed 1 (Some 9); Proceed 2 None; Proceed 1 None; Proceed 2 None].
Example closing_twice_state :
  let d := drun "" opened closing_twice in
  closers d !! 1%nat = Some (Returned (Some 9)) /\ closers d !! 2%nat = Some (Returned None) /\
  cached d = ∅ /\ length (queue d) = 1%nat /\
  let d' := drun "" d [AtCache (CSet "player:1" (mkOwner (mkNodeInfo "a" "game" "1") 5)); Arrive (moved 8); Next; Handle] in
  o_Epoch <$> cached d' !! "player:1" = Some 5.
Proof. vm_compute. done. Qed.

Lemma Close_ends_the_directory_witness :
  let d := drun "" opened closing_twice in
  closers d !! 2%nat = Some (Returned None) /\ loop d = Ended /\
  exists m e, closers (drun "" (drun "" opened (take 10 closing_twice)) (finishing m 2)) !! 2%nat = Some (Returned e).
Proof.
  intros d. assert (Hr : closers d !! 2%nat = Some (Returned None)) by (vm_compute; reflexivity). split; [exact Hr|]. split.
  - apply (proj1 (proj2 (Close_ends_the_directory "" closing_twice)) 2%nat None Hr).
  - apply (proj1 (Close_ends_the_directory "" (take 10 closing_twice)) 2%nat). eexists. vm_compute. reflexivity.
Defined.
